(* ===== verification/_CoqProject ===== *)
-Q . S2P
Prelude.v
Values.v
NodeId.v
Actors.v
State.v
PeerEvents.v
Asyncio.v
Node.v
NodeProps.v
Links.v
ContextVars.v
Monitors.v
Groups.v
Registry.v
Discovery.v
Supervisor.v
Setup.v
SeedDiscovery.v
CurrentNode.v
SupervisorProps.v
SupervisorGroup.v
NodeStop.v
SupervisorTree.v
SupervisorGaps.v
Codec.v
CodecProps.v
Refs.v
Pool.v
Runtime.v
Heap.v
PoolLife.v
PoolChurn.v
Cluster.v
GroupReconnect.v
GroupReconnectProps.v
RegistryCluster.v
Wire.v
Transport.v
TransportProps.v
TransportGaps.v
TransportCore.v
Crates.v
TransportWitnesses.v
Apps.v
Warehouse.v
WarehouseApi.v
WarehouseMain.v
OrderStream.v
OrderStreamProps.v
OrderStreamMain.v
ClusterSupervision.v
ClusterSupervisionProps.v
ClusterSupervisionRun.v
PingPong.v
Witnesses.v
