(* ===== verification/Prelude.v ===== *)
(** * lapinbeam: a verification of the actor library and its transport

    lapinbeam runs Erlang-style actors on asyncio.  A [Node]
    ([src/lapinbeam/node.py]) holds the mailboxes of the actors of one process
    and talks to other nodes through a native core; [Supervisor]s
    ([supervisor.py]) own the tasks that drive the actors and restart them;
    links, monitors, groups, the registry and discovery keep tables in the
    node, each with a reserved actor that receives the messages of other
    nodes.  That layer is modelled as state-passing functions on one record,
    the state of a node process.  The native core under it, in Rust, is
    modelled by itself ([src/src/]: the wire format, the transport, the methods
    that Python calls), and a refinement theorem connects the two: the record
    that stands for the core in the state of a node is what the transport
    does.  On top, the applications of [src/examples/] are verified with the
    library's own operations.  All paths below are under [src/lapinbeam/]
    unless they say otherwise.

    ** Parts and files, in dependency order

    - [Prelude]: record update, the state-and-exception monad [M] with its
      notations, loops, generic lemmas on maps, lists and strings, the hint
      database [lapin].
    - [Values]: Python values and what the wire does to them
      ([py_to_json] of [src/src/py/convert.rs]).
    - [NodeId]: node ids, parsed and printed ([src/src/runtime/node_id.rs]),
      and [Node._build_id].
    - [Actors]: [actor.py] and the dispatch of one message ([_drive]).
    - [State]: the record [st] with the attributes of [Node], the supervisors,
      their child records, the mailboxes, futures and tasks of the event loop,
      and of the core what the Python code can see.
    - [PeerEvents]: the broadcasts and [on_event] closures of [groups.py],
      [registry.py] and [discovery.py].
    - [Asyncio]: creating, cancelling, waking and ending a task.
    - [Node], [NodeProps]: [node.py], operation by operation, with the calls
      into the core ([src/src/py/node.rs]); the codec is reached through the
      class [PayloadCodec].
    - [Links], [Monitors], [Groups], [Registry], [Discovery]: the modules of
      the same names, theorems included; [Setup] has their [register_*].
    - [SeedDiscovery]: [src/examples/seed_discovery/], two rounds of the join;
      [CurrentNode]: the module variable of [node.py] and [Supervisor.node], in
      a process with several nodes.
    - [ContextVars]: the context variables of [context.py], per task.
    - [Supervisor], [SupervisorProps]: [supervisor.py] without the pool.  A
      coroutine is cut at its awaits: [pc] says where it is suspended,
      [run_child] runs it to its next suspension and
      [step_child]/[step_driver] give a task its turn.
    - [SupervisorGroup]: many actors at once, under every fair schedule:
      [shutdown] and group restarts; [SupervisorTree]: [shutdown] of nested
      supervisors to any depth; [NodeStop]: [Node.stop]; [SupervisorGaps]:
      where the supervisor does less than it says.
    - [Codec], [CodecProps]: [codec.py], with object identity where the code
      tests it; the instance [lapinbeam_codec] of [PayloadCodec].
    - [Refs]: [refs.py] and [context.py]: send, ask, ask_stream, replies.
    - [Pool], [PoolLife]: [_spawn_pool], [_PoolSpawn] and [PoolRef]; the
      queues and the states of the workers are a record of their own, [pool].
      [PoolChurn]: pools created and stopped over and over
      ([src/bench/bench_pool.py]).
    - [Runtime]: the node as a transition system with every task, timer,
      message, event and call as a step; [Heap]: the typing of its heaps and
      what every step does to the mailboxes.
    - [Cluster]: any number of nodes and the wires between them, for groups;
      [GroupReconnect], [GroupReconnectProps]: two of them whose connection is
      lost and made again, with the events by which they hear of it;
      [RegistryCluster]: the cluster for names, with what is under way between
      two nodes as one queue.
    - [Wire]: messages, frames, proofs ([src/src/wire/]), the handle of a peer
      and its writer task ([src/src/transport/peer.rs]), and one connection from
      the queue of the sender to what the receiver decoded.
    - [Transport]: [src/src/transport/mod.rs]: the tables of a [Transport] and
      its tasks (dial, reconnect, read loop, heartbeat, the reconnection
      supervisor, forget, shutdown), each cut at its awaits; [tstep] interleaves
      them with the network.  [TransportProps] has what holds in every reachable
      state, [TransportGaps] what does not.
    - [TransportCore]: the methods of [_core.Node] ([src/src/py/node.rs],
      [convert.rs]) on a transport, and that they refine the operations
      [core_*] of [Node]; [Crates]: instances of the crates' laws;
      [TransportWitnesses]: concrete runs.
    - [Apps]: the loops in which the examples connect.
    - [Warehouse], [WarehouseApi], [WarehouseMain]: the three nodes of
      [src/examples/sales_warehouse/], on the library's operations: the pipeline
      of four actors under every interleaving, the archive and the tracker, and
      what [main] starts.
    - [OrderStream], [OrderStreamProps]: [src/examples/order_stream/], a worker,
      a database, a relay and any number of viewers as a transition system;
      [OrderStreamMain]: what its two nodes start.
    - [ClusterSupervision], [ClusterSupervisionProps], [ClusterSupervisionRun]:
      [src/examples/cluster_supervision/], the hub and a worker, from the setup
      to the failure that the hub sees.
    - [PingPong]: [src/examples/app_node_a.py] and [app_node_b.py], and the
      fixtures [e2e_restart_node_*.py] that restart one of them.
    - [Witnesses]: nodes started and driven by the operations, on which the
      hypotheses of the theorems hold.

    ** What the theorems show

    Supervision.  The pruning restart budget is the sliding window it stands
    for ([restart_budget]); the sweep of each strategy ([strategy_sweep]); a
    crash from the driver's death to the back-off, the restart in place, the
    two ways of giving up, the escalation to a parent, and an orderly stop
    ([crash_within_budget], [restart_in_place], [one_for_one_gives_up],
    [group_gives_up], [give_up_escalates], [cancel_stops_actor]), each with
    what it leaves untouched; a group restart from the back-off to the last
    driver ([group_restart]).

    Liveness.  [shutdown], [Node.stop] and [PoolRef.stop] end under every
    schedule that gives each driver a turn and its task one after that
    ([shutdown_completes], [node_stop_completes], [pool_stop_completes]), and
    [shutdown] of a tree of supervisors within three rounds per child
    ([tree_shutdown_completes]); a cluster left alone ends with all views equal
    ([cluster_converges]).

    Node.  [reachable_wf] types the heaps: in every interleaving of steps every
    reference leads to an object of the kind it is used as.  [mailbox_fifo]:
    no step reorders a mailbox or takes from one it does not own.  Sending,
    registering, connecting, events, and what a dropped peer or an ended
    generation leaves behind ([NodeProps]).

    Between nodes.  A node's deltas, received in order, keep a peer's view of
    its groups equal to its own ([group_replication]), and in a cluster every
    view, brought up to date by what is under way, is the node's own in every
    reachable state ([cluster_agreement]); two nodes whose connection comes and
    goes find back to each other when events are seen in time
    ([reconnect_agrees], [reconnect_converges]); no message takes a registered name
    from its owner ([registry_no_takeover]), and in a cluster no node believes
    in an owner that is gone, however claims race ([registry_no_ghosts]); links
    and monitors are recorded on both sides and answered when the target is missing; the join over seeds
    ends and reaches exactly the peers that answer
    ([join_via_seeds_complete]), and a second round catches who came later
    ([node_app_finds]); ids round-trip ([node_id_roundtrip]).

    Messages.  [codec_roundtrip] and [encode_sharing_sound]; [ask] and
    [ask_stream] end to end, on one node and across two; dispatch and the
    metadata behind it; what a handler finds in its context variables
    ([handler_context]).

    Pools.  Every message exactly once and one at a time
    ([pool_exactly_once]), a failing handler costs one message
    ([pool_worker_survives]), what spawning leaves ([spawn_pool_ready]), and
    [map] in the order of the items ([pool_map_in_order]); pools that come and
    go leave the node as it was ([pool_churn]).

    The core.  Frames come out as they went in however the bytes are split
    ([frames_roundtrip]) and a connection is a FIFO ([connection_fifo]); who may
    register ([handshake_accepted]); no entry of the peers map outlives its
    connection and a connection removes no entry but its own ([peers_backed],
    [connection_cleanup]); two nodes that dial each other keep the same
    connection ([simultaneous_dial]); reconnection to a peer that is gone ends
    ([reconnect_gives_up]).  The record that the Python layer is verified
    against refines to the transport ([core_refines_transport]), what it records
    as sent is what arrives ([remote_send_carried]), and what cannot be
    delivered is reported to the sender ([undeliverable_reported]).

    Applications.  The warehouse sends the updates of every order in order and
    brings every order to its end ([pipeline_in_order], [pipeline_completes]),
    the archive files it ([archivist_files]) and the tracker collects its
    updates in whatever order they come ([tracker_collects]).  The worker of the
    order stream ends whatever fails ([process_order_outcome],
    [process_order_completes]) and no viewer is left waiting once the end was
    relayed ([viewer_told]).  In the cluster supervision example the failure of
    a worker is seen on four ways, by link, monitor, group and name
    ([setup_wires], [failure_observed]); in the task example the acknowledgements
    are those of the tasks, in order, however often the peer restarts
    ([acknowledgements]).  A supervisor without a node takes the one started
    last when it first needs it ([supervisor_binding]).

    Behaviour that the documentation does not promise or contradicts is stated
    as theorems too: [dispatch_default_only_ignored],
    [nested_class_undecodable], [group_stale_snapshot_ghost],
    [constructor_sees_spawner], [peer_alias], [swept_worker_starves],
    [cancel_before_first_turn], the five of [SupervisorGaps], the six of
    [TransportGaps], [archived_status_regresses], [unsent_reply_fails_order],
    [late_viewer_waits], [split_claim_stays], [reconnect_races] and
    [current_outlives_stop].

    ** Modelling decisions

    Objects that the code shares (queues, futures, child records, supervisors,
    tasks) are entries of stores under identifiers, and aliasing is equality
    of identifiers.  Dicts keyed by names are [gmap]s and sets [gset]s; where
    Python iterates over them the order is the map's, and no theorem depends
    on it beyond that.  Time is an integer number of milliseconds given to the
    steps.  An exception is its class and message; a cancellation is of its
    own kind.  User code is an argument: how a handler ends, the list of
    spawns a [build] function makes, the key function of a pool, the classes
    and codecs of [codec_env].  What the core refuses to send
    ([co_refuses]), and what contacting a peer gives ([contact_peer]), are
    parameters.  The core's numbers are 64 bits wide: message numbers wrap
    around, a correlation id out of range is refused.

    Code outside the repository is a class with the laws that the code relies
    on: [Bincode] (what was encoded decodes to itself), [Hmac],
    [Mpsc] and [Broadcast] (the channels of tokio), [Json] and [JsonValue]
    (serde_json, for values without floats and within its recursion limit);
    [Crates] has an instance of each.  Numbers in the transport have their
    width: lengths and attempts 32 bits, message numbers 64.  A timer may fire
    at any time and a socket may deliver any piece of what was written, or
    break.  In the order stream a write may fail, or be done although the call
    raises; replies may be refused, or lost on the way.

    Fuel.  Cancellation follows the chain of awaited tasks with as much fuel
    as there are tasks, plus one.  [encode_value] and [decode_value] use one
    more than the depth of the value, and [encode_fuel]/[decode_fuel] show
    that more changes nothing.  The frame decoder's fuel is the length of its
    buffer, since every frame takes at least four bytes
    ([frame_decode_fuel]).  [process_order] needs sixteen pieces
    ([process_order_outcome]).  [bfs_loop] needs no more rounds than there are
    peers, which [join_via_seeds_complete] proves.  [stream_loop] reads what is
    in the mailbox and its fuel is the length of it.  [cluster_converges]
    and [reconnect_converges] bound the steps of the nodes by a weight of what is
    under way, and [tree_shutdown_completes] the rounds of a shutdown by three per child.

    ** Not modelled

    What an executor does with a job beyond its outcome; what a handler computes
    between two awaits (the calls it makes are steps of [Runtime]); how many
    message numbers a refused message uses up; durations, the tokio runtime and
    the GIL.  Connections that break are part of the transport, of two nodes
    with groups and of the task example; in [Cluster] and [RegistryCluster],
    with any number of nodes, they stay, since what a third node still believes
    is then the stale snapshot of [group_stale_snapshot_ghost].  Giving up is
    followed through one level of supervisors ([give_up_escalates]), and the
    queues of a pool are kept beside the node, not in it, as the closures of
    [_spawn_pool] keep them.  The database behind the order stream is atomic
    statements on one row; connecting to it is not modelled.  The benchmarks
    that measure time or memory, and the load generators, which are HTTP
    clients, have no behaviour of their own that the model could state; the
    package's [__init__] only re-exports. *)

From Corelib Require Export ssreflect.
From Stdlib Require Export Ascii.
From stdpp Require Export base gmap strings list sets option.
From Stdlib Require Export ZArith Lia.

#[export] Set Warnings "-rewrite-rw,-clear-no-such-hyp,-register-all".

(** ** Record update

    Python methods mutate attributes of an object; a shallow embedding threads
    a record instead.  [s <| p ::= f |>] is [s] with field [p] changed by [f],
    and [s <| p := v |>] is [s] with field [p] set to [v].  A record type
    declares its eta expansion once ([Settable]); the setter of a projection is
    then computed by abstracting that projection in it. *)

Class Settable (R : Type) := eta_expand : R → R.
Class Setter {R T : Type} (p : R → T) := update : (T → T) → R → R.
Arguments update {R T} p {_} f r /.
Arguments eta_expand {R _} r /.

Ltac build_setter :=
  match goal with
  | |- @Setter ?R ?T ?p =>
      let f := fresh "f" in
      let r := fresh "r" in
      intros f r;
      let full := eval hnf in (eta_expand r) in
      let shape := eval pattern (p r) in full in
      match shape with ?g _ =>
        let body := eval cbv beta in (g (f (p r))) in exact body
      end
  end.

#[export] Hint Extern 1 (Setter _) => build_setter : typeclass_instances.

Declare Scope record_scope.
Delimit Scope record_scope with rec.
Open Scope record_scope.
Notation "s <| p ::= f |>" := (update p f s)
  (at level 1, f at level 200) : record_scope.
Notation "s <| p := v |>" := (update p (λ _, v) s)
  (at level 1, v at level 200) : record_scope.

(** ** Exceptions

    An [Exception] instance is its class name and its message, which is all
    the code ever shows of it ([f"{type(exc).__name__}: {exc}"]).
    [CancelledError] is a [BaseException] in Python: [except Exception] does
    not catch it, so it is a value of its own kind wherever tasks are
    modelled (see [Asyncio.v]). *)

Record exn := Exn { exn_type : string; exn_msg : string }.

#[export] Instance exn_eq_dec : EqDecision exn.
Proof. solve_decision. Defined.

Definition ValueError := Exn "ValueError".
Definition RuntimeError := Exn "RuntimeError".
Definition TypeError := Exn "TypeError".
Definition KeyError := Exn "KeyError".

(** [f"{type(exc).__name__}: {exc}"] *)
Definition exn_detail (e : exn) : string := exn_type e +:+ ": " +:+ exn_msg e.

(** ** The state and exception monad

    A synchronous stretch of Python code over a state [S]: it ends by
    returning or by raising, and in both cases the state changes made so far
    stay, as they do in Python. *)

Definition M (S A : Type) : Type := S → (exn + A) * S.

Definition ret {S A} (a : A) : M S A := λ s, (inr a, s).
Definition bind {S A B} (m : M S A) (k : A → M S B) : M S B :=
  λ s, match m s with
       | (inl e, s') => (inl e, s')
       | (inr a, s') => k a s'
       end.
Definition raise {S A} (e : exn) : M S A := λ s, (inl e, s).
Definition get {S} : M S S := λ s, (inr s, s).
Definition gets {S A} (f : S → A) : M S A := λ s, (inr (f s), s).
Definition modify {S} (f : S → S) : M S unit := λ s, (inr tt, f s).
(** [try: m except Exception as exc: h(exc)] *)
Definition try_except {S A} (m : M S A) (h : exn → M S A) : M S A :=
  λ s, match m s with
       | (inl e, s') => h e s'
       | (inr a, s') => (inr a, s')
       end.

Declare Scope monad_scope.
Delimit Scope monad_scope with monad.
Open Scope monad_scope.
Notation "'let!' x := m 'in' k" := (bind m (λ x, k))
  (at level 10, x binder, m at level 100, k at level 200,
   format "'[v' 'let!'  x  :=  m  'in' '//' k ']'") : monad_scope.
Notation "m ;; k" := (bind m (λ _, k))
  (at level 100, k at level 200, right associativity) : monad_scope.

(** [for x in xs: body(x)] *)
Fixpoint for_each {S A} (xs : list A) (body : A → M S unit) : M S unit :=
  match xs with
  | [] => ret tt
  | x :: xs' => body x ;; for_each xs' body
  end.

(** A pure computation that may raise. *)
Definition lift {S A} (r : exn + A) : M S A := λ s, (r, s).

(** The state a computation ends in, whether it returned or raised. *)
Definition exec {S A} (m : M S A) (s : S) : S := (m s).2.
(** What it returned or raised. *)
Definition outcome_of {S A} (m : M S A) (s : S) : exn + A := (m s).1.

Arguments ret {S A} a s /.
Arguments bind {S A B} m k s /.
Arguments raise {S A} e s /.
Arguments get {S} s /.
Arguments gets {S A} f s /.
Arguments modify {S} f s /.
Arguments try_except {S A} m h s /.
Arguments lift {S A} r s /.
Arguments exec {S A} m s /.
Arguments outcome_of {S A} m s /.

(** ** Python's [repr] of a string

    Single quotes, unless the string holds a single quote and no double
    quote; the quote in use and the backslash are escaped, and so are the
    control characters. *)

Definition char_in (c : ascii) : string → bool :=
  fix go s := match s with
              | EmptyString => false
              | String a s' => bool_decide (a = c) || go s'
              end.

Definition ascii_of_code (n : nat) : ascii := ascii_of_nat n.
Definition quote1 : ascii := ascii_of_code 39.
Definition quote2 : ascii := ascii_of_code 34.
Definition backslash : ascii := ascii_of_code 92.

Definition hex_digit (n : nat) : ascii :=
  ascii_of_code (if n <? 10 then 48 + n else 87 + n)%nat.

Definition escape_char (q c : ascii) : string :=
  let n := nat_of_ascii c in
  if bool_decide (c = q) || bool_decide (c = backslash)
  then String backslash (String c EmptyString)
  else if (n =? 10)%nat then String backslash "n"
  else if (n =? 13)%nat then String backslash "r"
  else if (n =? 9)%nat then String backslash "t"
  else if (n <? 32)%nat || (n =? 127)%nat
  then String backslash (String (ascii_of_code 120)
         (String (hex_digit (n / 16)) (String (hex_digit (n mod 16)) EmptyString)))
  else String c EmptyString.

Definition escape (q : ascii) : string → string :=
  fix go s := match s with
              | EmptyString => EmptyString
              | String c s' => escape_char q c +:+ go s'
              end.

Definition py_repr (s : string) : string :=
  let q := if char_in quote1 s && negb (char_in quote2 s) then quote2 else quote1 in
  String q (escape q s +:+ String q EmptyString).

Example py_repr_plain : py_repr "worker" = "'worker'".
Proof. reflexivity. Qed.

(** ** [asyncio.Queue]

    A queue is its items, oldest first, and its [maxsize]; [maxsize <= 0]
    means unbounded. *)

Record queue (A : Type) := Queue { q_items : list A; q_maxsize : nat }.
Arguments Queue {A} _ _.
Arguments q_items {A} _.
Arguments q_maxsize {A} _.

#[export] Instance queue_settable A : Settable (queue A) :=
  λ r, Queue (q_items r) (q_maxsize r).

Definition q_full {A} (q : queue A) : bool :=
  (0 <? q_maxsize q)%nat && (q_maxsize q <=? length (q_items q))%nat.

(** [put_nowait]: [None] stands for [QueueFull]. *)
Definition put_nowait {A} (x : A) (q : queue A) : option (queue A) :=
  if q_full q then None else Some (q <| q_items ::= λ l, l ++ [x] |>).

(** The oldest item and the rest, [None] when empty (a getter then waits). *)
Definition get_nowait {A} (q : queue A) : option (A * queue A) :=
  match q_items q with
  | [] => None
  | x :: l => Some (x, q <| q_items := l |>)
  end.

(** [maxsize=capacity or 0] *)
Definition capacity_or_0 (c : option nat) : nat := default 0 c.

Lemma put_nowait_Some {A} (x : A) q q' :
  put_nowait x q = Some q' →
  q_items q' = q_items q ++ [x] ∧ q_maxsize q' = q_maxsize q.
Proof. unfold put_nowait. case_match; [done|]. intros [= <-]. done. Qed.

Lemma put_nowait_bound {A} (x : A) q q' :
  put_nowait x q = Some q' →
  q_maxsize q ≠ 0 → length (q_items q') ≤ q_maxsize q'.
Proof.
  intros H Hm. pose proof (put_nowait_Some _ _ _ H) as [-> ->].
  unfold put_nowait, q_full in H. rewrite length_app /=.
  destruct (Nat.ltb_spec 0 (q_maxsize q)); simpl in H; [|lia].
  destruct (Nat.leb_spec (q_maxsize q) (length (q_items q))); [done|lia].
Qed.

(** ** Automation *)

(** The database of the invariant proofs: [Heap] fills it with one lemma per
    operation, and its tactic [keeps_solve] walks a computation with them. *)
Create HintDb lapin.

(** ** Generic lemmas *)

Lemma for_each_app {S A} (xs ys : list A) (body : A → M S unit) s :
  for_each (xs ++ ys) body s = (for_each xs body ;; for_each ys body) s.
Proof.
  revert s. induction xs as [|x xs IH]; intros s; [done|]. cbn [app for_each bind].
  destruct (body x s) as [[e|[]] s']; [done|]. by rewrite IH.
Qed.

Lemma for_each_invariant {S A} (P : S → Prop) (body : A → M S unit) (xs : list A) :
  (∀ x s, P s → P (exec (body x) s)) → ∀ s, P s → P (exec (for_each xs body) s).
Proof.
  intros Hbody. induction xs as [|x xs IH]; intros s Hs; simpl; [done|].
  specialize (Hbody x s Hs). simpl in Hbody.
  destruct (body x s) as [[e|[]] s']; simpl in *; [done|]. by apply IH.
Qed.

Lemma for_each_ext {S A} (f g : A → M S unit) (xs : list A) :
  (∀ x, f x = g x) → for_each xs f = for_each xs g.
Proof. intros H. induction xs as [|x xs IH]; simpl; [done|]. by rewrite H IH. Qed.

Lemma alter_present `{Countable K} {A} (f : A → A) (k : K) (m : gmap K A) (x : A) :
  m !! k = Some x → alter f k m = <[k := f x]> m.
Proof.
  intros Hk. apply map_eq. intros i. rewrite lookup_alter lookup_insert.
  case_decide; subst; [by rewrite Hk|done].
Qed.

Lemma filter_every {A} (P : A → Prop) `{!∀ x, Decision (P x)} (l : list A) :
  (∀ x, P x) → filter P l = l.
Proof. intros HP. induction l as [|x l IH]; [done|]. by rewrite filter_cons_True // IH. Qed.

(** The sum of the values of a map. *)
Definition msum `{Countable K} (m : gmap K nat) : nat := map_fold (λ _, Nat.add) 0 m.

Lemma msum_fresh `{Countable K} (m : gmap K nat) k y :
  m !! k = None → msum (<[k := y]> m) = y + msum m.
Proof. intros Hk. unfold msum. rewrite map_fold_insert_L //. intros. lia. Qed.

Lemma msum_insert `{Countable K} (m : gmap K nat) k y :
  msum (<[k := y]> m) + default 0 (m !! k) = msum m + y.
Proof.
  destruct (m !! k) as [x|] eqn:E; simpl.
  - rewrite -{2}(insert_delete_id m k x E) -(insert_delete_eq m k y).
    rewrite !msum_fresh ?lookup_delete_eq //. lia.
  - rewrite msum_fresh //. lia.
Qed.
