(* ===== verification/Values.v ===== *)
(** * Python values as the framework sees them

    The payloads that actors exchange: JSON-native values, containers and
    instances of user classes, without object identity ([Codec.v] adds
    identity where the code tests it with [is]).  The second half models what
    the wire does to a payload: the conversion of [src/src/py/convert.rs], by
    which a tuple arrives as a list and an instance or an out-of-range integer
    is refused. *)

From S2P Require Import Prelude.

(** A float is its bit pattern; only whether it is finite ever matters. *)
Inductive pyfloat := Finite (bits : Z) | NonFinite.

Inductive pyval :=
| PNone
| PBool (b : bool)
| PInt (z : Z)
| PFloat (f : pyfloat)
| PStr (s : string)
| PList (xs : list pyval)
| PTuple (xs : list pyval)
| PDict (kvs : list (string * pyval))
| PObj (cls : string) (fields : list (string * pyval)).

(** Induction through the nested containers. *)
Section pyval_induction.
  Context (P : pyval → Prop).
  Context (Hnone : P PNone) (Hbool : ∀ b, P (PBool b)) (Hint : ∀ z, P (PInt z)).
  Context (Hfloat : ∀ f, P (PFloat f)) (Hstr : ∀ s, P (PStr s)).
  Context (Hlist : ∀ xs, Forall P xs → P (PList xs)).
  Context (Htuple : ∀ xs, Forall P xs → P (PTuple xs)).
  Context (Hdict : ∀ kvs, Forall (λ kv, P kv.2) kvs → P (PDict kvs)).
  Context (Hobj : ∀ c kvs, Forall (λ kv, P kv.2) kvs → P (PObj c kvs)).

Fixpoint pyval_rect' (v : pyval) : P v :=
    let list_ind := fix go (xs : list pyval) : Forall P xs :=
      match xs with
      | [] => List.Forall_nil _
      | x :: xs' => List.Forall_cons _ _ _ (pyval_rect' x) (go xs')
      end in
    let dict_ind := fix go (kvs : list (string * pyval)) : Forall (λ kv, P kv.2) kvs :=
      match kvs with
      | [] => List.Forall_nil _
      | kv :: kvs' => List.Forall_cons _ kv _ (pyval_rect' kv.2) (go kvs')
      end in
    match v with
    | PNone => Hnone
    | PBool b => Hbool b
    | PInt z => Hint z
    | PFloat f => Hfloat f
    | PStr s => Hstr s
    | PList xs => Hlist xs (list_ind xs)
    | PTuple xs => Htuple xs (list_ind xs)
    | PDict kvs => Hdict kvs (dict_ind kvs)
    | PObj c kvs => Hobj c kvs (dict_ind kvs)
    end.
End pyval_induction.

(** ** Dict access *)

Fixpoint assoc {A} (k : string) (kvs : list (string * A)) : option A :=
  match kvs with
  | [] => None
  | (k', v) :: kvs' => if bool_decide (k' = k) then Some v else assoc k kvs'
  end.

(** [msg[k]] on a payload: [KeyError] on a dict without the key, [TypeError]
    on a value that does not take string subscripts. *)
Definition getitem (v : pyval) (k : string) : exn + pyval :=
  match v with
  | PDict kvs => match assoc k kvs with
                 | Some x => inr x
                 | None => inl (KeyError (py_repr k))
                 end
  | _ => inl (TypeError "value is not subscriptable by a string")
  end.

(** [msg.get(k)] *)
Definition dict_get (v : pyval) (k : string) : exn + pyval :=
  match v with
  | PDict kvs => inr (default PNone (assoc k kvs))
  | _ => inl (Exn "AttributeError" "object has no attribute 'get'")
  end.

(** [v == "..."] *)
Definition is_str (v : pyval) (k : string) : bool :=
  match v with PStr s => String.eqb s k | _ => false end.

Lemma is_str_true v k : is_str v k = true → v = PStr k.
Proof. destruct v; simpl; try done. by intros ->%String.eqb_eq. Qed.

(** The reserved actors store what they find in a message as names.  Names
    are strings throughout the model; a peer of the framework never sends
    anything else. *)
Definition as_str (v : pyval) : exn + string :=
  match v with PStr s => inr s | _ => inl (TypeError "expected a name") end.

Definition as_opt_str (v : pyval) : exn + option string :=
  match v with
  | PStr s => inr (Some s)
  | PNone => inr None
  | _ => inl (TypeError "expected a name or None")
  end.

(** [tuple(msg["member"])]: a two-element list of names. *)
Definition as_pair (v : pyval) : exn + (string * string) :=
  match v with
  | PList [PStr a; PStr b] | PTuple [PStr a; PStr b] => inr (a, b)
  | _ => inl (TypeError "expected a pair of names")
  end.

(** ** The wire conversion *)

Definition in_wire_range (z : Z) : bool :=
  bool_decide (- 2 ^ 63 ≤ z < 2 ^ 64)%Z.

(** [[f(x) for x in xs]] and [{k: f(x) for k, x in kvs.items()}]: the first
    exception ends the loop. *)
Fixpoint try_list {A} (f : A → exn + A) (xs : list A) : exn + list A :=
  match xs with
  | [] => inr []
  | x :: xs' =>
      match f x with
      | inl e => inl e
      | inr y => match try_list f xs' with
                 | inl e => inl e
                 | inr ys => inr (y :: ys)
                 end
      end
  end.

Fixpoint try_dict {A} (f : A → exn + A) (kvs : list (string * A)) : exn + list (string * A) :=
  match kvs with
  | [] => inr []
  | (k, x) :: kvs' =>
      match f x with
      | inl e => inl e
      | inr y => match try_dict f kvs' with
                 | inl e => inl e
                 | inr ys => inr ((k, y) :: ys)
                 end
      end
  end.

(** [py_to_json] on the sender followed by [bytes_to_py] on the receiver: the
    value the receiving node's callback is given, or the exception [send_data]
    raises. *)
Fixpoint wire_transfer (v : pyval) : exn + pyval :=
  match v with
  | PNone => inr PNone
  | PBool b => inr (PBool b)
  | PStr s => inr (PStr s)
  | PInt z =>
      if in_wire_range z then inr (PInt z)
      else inl (TypeError "integer out of range: must fit in i64 or u64")
  | PFloat (Finite b) => inr (PFloat (Finite b))
  | PFloat NonFinite => inl (ValueError "non-finite floats are not supported")
  | PList xs | PTuple xs =>
      match try_list wire_transfer xs with
      | inl e => inl e
      | inr ys => inr (PList ys)
      end
  | PDict kvs =>
      match try_dict wire_transfer kvs with
      | inl e => inl e
      | inr ys => inr (PDict ys)
      end
  | PObj c _ => inl (TypeError ("value of type " +:+ c +:+ " is not JSON-compatible"))
  end.

(** A value the wire delivers as it is. *)
Fixpoint wire_safe (v : pyval) : bool :=
  match v with
  | PNone | PBool _ | PStr _ | PFloat (Finite _) => true
  | PInt z => in_wire_range z
  | PFloat NonFinite | PTuple _ | PObj _ _ => false
  | PList xs => forallb wire_safe xs
  | PDict kvs => forallb (λ kv, wire_safe kv.2) kvs
  end.

Lemma try_list_safe {A} (f : A → exn + A) (P : A → bool) xs :
  Forall (λ x, P x = true → f x = inr x) xs →
  forallb P xs = true → try_list f xs = inr xs.
Proof.
  induction 1 as [|x xs Hx _ IH]; simpl; [done|].
  intros [Hp Hps]%andb_prop. by rewrite Hx // IH.
Qed.

Lemma try_dict_safe {A} (f : A → exn + A) (P : A → bool) kvs :
  Forall (λ kv, P kv.2 = true → f kv.2 = inr kv.2) kvs →
  forallb (λ kv, P kv.2) kvs = true → try_dict f kvs = inr kvs.
Proof.
  induction 1 as [|[k x] kvs Hx _ IH]; simpl in *; [done|].
  intros [Hp Hps]%andb_prop. by rewrite Hx // IH.
Qed.

Lemma wire_transfer_safe v : wire_safe v = true → wire_transfer v = inr v.
Proof.
  induction v as [| | |f| |xs IH|xs IH|kvs IH|c kvs IH] using pyval_rect'; simpl; try done.
  - by intros ->.
  - by destruct f.
  - intros Hs. by rewrite (try_list_safe _ wire_safe).
  - intros Hs. by rewrite (try_dict_safe _ wire_safe).
Qed.

Lemma try_list_all {A} (f : A → exn + A) (P : A → bool) xs ys :
  Forall (λ x, ∀ y, f x = inr y → P y = true) xs → try_list f xs = inr ys → forallb P ys = true.
Proof.
  intros H. revert ys. induction H as [|x xs Hx _ IH]; simpl; intros ys; [by intros [= <-]|].
  destruct (f x) as [e|y]; [done|]. destruct (try_list f xs) as [e|ys']; [done|]. intros [= <-]; simpl.
  by rewrite Hx // IH.
Qed.

Lemma try_dict_all {A} (f : A → exn + A) (P : A → bool) kvs ys :
  Forall (λ kv, ∀ y, f kv.2 = inr y → P y = true) kvs → try_dict f kvs = inr ys →
  forallb (λ kv, P kv.2) ys = true.
Proof.
  intros H. revert ys. induction H as [|[k x] kvs Hx _ IH]; simpl; intros ys; [by intros [= <-]|].
  simpl in Hx. destruct (f x) as [e|y]; [done|]. destruct (try_dict f kvs) as [e|ys']; [done|]. intros [= <-]; simpl.
  by rewrite Hx // IH.
Qed.

(** What arrives is a wire value. *)
Lemma wire_transfer_result v : ∀ w, wire_transfer v = inr w → wire_safe w = true.
Proof.
  induction v as [| |z|f| |xs IH|xs IH|kvs IH|c kvs IH] using pyval_rect'; simpl; intros w.
  - by intros [= <-].
  - by intros [= <-].
  - destruct (in_wire_range z) eqn:E; [|done]. by intros [= <-].
  - destruct f; [|done]. by intros [= <-].
  - by intros [= <-].
  - destruct (try_list wire_transfer xs) as [e|ys] eqn:E; [done|]. intros [= <-]; simpl. by eapply try_list_all.
  - destruct (try_list wire_transfer xs) as [e|ys] eqn:E; [done|]. intros [= <-]; simpl. by eapply try_list_all.
  - destruct (try_dict wire_transfer kvs) as [e|ys] eqn:E; [done|]. intros [= <-]; simpl. by eapply try_dict_all.
  - done.
Qed.

(** ** What the node asks of the codec

    [Node] calls [codec.encode_payload] and [codec.decode_payload].  The
    operations, with the one promise the reserved actors' messages need: a
    plain JSON payload without the reserved key passes unchanged.  [Codec.v]
    implements the interface. *)

Definition RESERVED : string := "__lb_type__".

Fixpoint plain (v : pyval) : bool :=
  match v with
  | PNone | PBool _ | PInt _ | PFloat _ | PStr _ => true
  | PList xs | PTuple xs => forallb plain xs
  | PDict kvs => bool_decide (assoc RESERVED kvs = None) && forallb (λ kv, plain kv.2) kvs
  | PObj _ _ => false
  end.

Class PayloadCodec := {
  encode_payload : pyval → exn + pyval;
  decode_payload : pyval → exn + pyval;
  encode_plain : ∀ v, plain v = true → encode_payload v = inr v;
  decode_plain : ∀ v, plain v = true → decode_payload v = inr v
}.

(** [tuple(x)] for each [x] of a list of pairs; [.items()] of a dict. *)
Definition as_list (v : pyval) : exn + list pyval :=
  match v with PList xs | PTuple xs => inr xs | _ => inl (TypeError "expected a list") end.

Definition as_items (v : pyval) : exn + list (string * pyval) :=
  match v with
  | PDict kvs => inr kvs
  | _ => inl (Exn "AttributeError" "object has no attribute 'items'")
  end.

(** [list((a, b))] *)
Definition pair_list (m : string * string) : pyval := PList [PStr m.1; PStr m.2].

Lemma as_pair_list m : as_pair (pair_list m) = inr m.
Proof. by destruct m. Qed.

