(* ===== verification/NodeId.v ===== *)
(** * Node ids

    [NodeId] of [src/src/runtime/node_id.rs], the parsed form of the
    [name@host:port] strings with which the Python layer names nodes, and
    [Node._build_id] of [src/lapinbeam/node.py], which makes such a string.
    The core compares parsed ids and prints them with [to_full], the Python
    layer compares strings: [canonical] is the string that the core prints for
    what it was given. *)

From stdpp Require Import pretty.
From S2P Require Import Prelude Values.

#[local] Open Scope string_scope.

Record node_id_t := NodeId { nid_name : string; nid_host : string; nid_port : N }.

#[export] Instance node_id_eq_dec : EqDecision node_id_t.
Proof. solve_decision. Defined.

Inductive node_id_error := MissingAt | MissingPort | EmptyName | EmptyHost | InvalidPort.

(** [Display for NodeIdError] *)
Definition node_id_error_text (e : node_id_error) : string :=
  match e with
  | MissingAt => "expected 'name@host:port'"
  | MissingPort => "expected 'host:port' in node id"
  | EmptyName => "node name must not be empty"
  | EmptyHost => "host must not be empty"
  | InvalidPort => "port must be a number"
  end.

(** ** [str::split_once] and [str::rsplit_once] *)

Fixpoint split_once (c : ascii) (s : string) : option (string * string) :=
  match s with
  | "" => None
  | String x rest =>
      if bool_decide (x = c) then Some ("", rest)
      else (λ ab, (String x ab.1, ab.2)) <$> split_once c rest
  end.

Fixpoint rsplit_once (c : ascii) (s : string) : option (string * string) :=
  match s with
  | "" => None
  | String x rest =>
      match rsplit_once c rest with
      | Some ab => Some (String x ab.1, ab.2)
      | None => if bool_decide (x = c) then Some ("", rest) else None
      end
  end.

(** ** [u16::from_str] *)

Definition u16_max : N := 65535.

Definition digit (c : ascii) : option N :=
  let n := N_of_ascii c in
  if bool_decide (48 ≤ n ∧ n ≤ 57)%N then Some (n - 48)%N else None.

(** The loop: every step is checked for overflow. *)
Fixpoint digits (acc : N) (s : string) : option N :=
  match s with
  | "" => Some acc
  | String c rest =>
      match digit c with
      | None => None
      | Some d =>
          let acc' := (acc * 10 + d)%N in
          if bool_decide (acc' ≤ u16_max)%N then digits acc' rest else None
      end
  end.

(** One leading [+] is skipped; nothing, or only a sign, is no number. *)
Definition parse_u16 (s : string) : option N :=
  match s with
  | "" => None
  | String "+" "" => None
  | String "+" rest => digits 0 rest
  | _ => digits 0 s
  end.

(** ** [NodeId] *)

Definition parse (s : string) : node_id_error + node_id_t :=
  match split_once "@" s with
  | None => inl MissingAt
  | Some (name, addr) =>
      match rsplit_once ":" addr with
      | None => inl MissingPort
      | Some (host, port_str) =>
          if bool_decide (name = "") then inl EmptyName
          else if bool_decide (host = "") then inl EmptyHost
          else
            match parse_u16 port_str with
            | None => inl InvalidPort
            | Some port => inr (NodeId name host port)
            end
      end
  end.

Definition address (i : node_id_t) : string := nid_host i +:+ ":" +:+ pretty (nid_port i).
Definition to_full (i : node_id_t) : string := nid_name i +:+ "@" +:+ address i.

(** The string the core prints for the peer id it was given; what is not an
    id raises. *)
Definition canonical (peer_id : string) : exn + string :=
  match parse peer_id with
  | inl e => inl (ValueError ("invalid peer id: " +:+ node_id_error_text e))
  | inr i => inr (to_full i)
  end.

(** [Node._build_id]; [hostname] is what [socket.gethostname()] gives. *)
Definition _build_id (hostname node_name : string) (listen_port : option N) : string :=
  if bool_decide (is_Some (split_once "@" node_name)) then node_name
  else
    let host := if bool_decide (hostname = "") then "127.0.0.1" else hostname in
    node_name +:+ "@" +:+ host +:+ ":" +:+ pretty (default 0%N listen_port).

(** ** Splitting *)

Lemma split_once_app c a b : split_once c a = None → split_once c (a +:+ String c b) = Some (a, b).
Proof.
  induction a as [|x a IH]; simpl; [by rewrite bool_decide_eq_true_2|].
  case_bool_decide; [done|]. intros Hn. destruct (split_once c a); [done|]. by rewrite IH.
Qed.

Lemma split_once_some c s : ∀ a b, split_once c s = Some (a, b) → s = a +:+ String c b ∧ split_once c a = None.
Proof.
  induction s as [|x s IH]; intros a b; simpl; [done|]. case_bool_decide as Hx.
  - intros [= <- <-]. by subst.
  - destruct (split_once c s) as [[a' b']|]; [|done]. intros [= <- <-]. destruct (IH a' b' eq_refl) as [-> Hn].
    simpl. by rewrite bool_decide_eq_false_2 // Hn.
Qed.

Lemma rsplit_once_app c a b : rsplit_once c b = None → rsplit_once c (a +:+ String c b) = Some (a, b).
Proof. intros Hb. induction a as [|x a IH]; simpl; [by rewrite Hb bool_decide_eq_true_2|]. by rewrite IH. Qed.

(** ** Ports *)

Lemma digit_char d : (d < 10)%N → digit (pretty_N_char d) = Some d.
Proof.
  intros Hd. assert (d = 0 ∨ d = 1 ∨ d = 2 ∨ d = 3 ∨ d = 4 ∨ d = 5 ∨ d = 6 ∨ d = 7 ∨ d = 8 ∨ d = 9)%N as H by lia.
  by repeat destruct H as [->|H]; [..|subst].
Qed.

Lemma digits_go x : ∀ s, (x ≤ u16_max)%N → digits 0 (pretty_N_go x s) = digits x s.
Proof.
  induction (N.lt_wf_0 x) as [x _ IH]; intros s Hx. assert (x = 0 ∨ 0 < x)%N as [->|H0] by lia.
  { by rewrite pretty_N_go_0. }
  rewrite pretty_N_go_step // IH; [by apply N.div_lt|transitivity x; [apply N.Div0.div_le_upper_bound; lia|done]|].
  simpl. rewrite digit_char; [by apply N.mod_lt|].
  assert (x `div` 10 * 10 + x `mod` 10 = x)%N as -> by (rewrite N.mul_comm; symmetry; by apply N.div_mod).
  by rewrite bool_decide_eq_true_2.
Qed.

Lemma digits_pretty x : (x ≤ u16_max)%N → digits 0 (pretty x) = Some x.
Proof. intros Hx. unfold pretty, pretty_N. case_decide as H0; [by subst|]. by rewrite digits_go. Qed.

Lemma digits_bound s : ∀ acc n, (acc ≤ u16_max)%N → digits acc s = Some n → (n ≤ u16_max)%N.
Proof.
  induction s as [|c s IH]; intros acc n Ha; simpl; [by intros [= <-]|]. destruct (digit c) as [d|]; [|done].
  case_bool_decide as Hb; [|done]. by apply IH.
Qed.

(** What reads as digits has no sign and no colon. *)
Lemma digits_no_colon s : ∀ acc n, digits acc s = Some n → rsplit_once ":" s = None.
Proof.
  induction s as [|c s IH]; intros acc n; simpl; [done|]. destruct (digit c) as [d|] eqn:Hd; [|done].
  case_bool_decide; [|done]. intros Hr%IH. rewrite Hr bool_decide_eq_false_2 //. by intros ->.
Qed.

Lemma parse_u16_pretty x : (x ≤ u16_max)%N → parse_u16 (pretty x) = Some x.
Proof.
  intros Hx. pose proof (digits_pretty x Hx) as H. unfold parse_u16. destruct (pretty x) as [|c s] eqn:E.
  - exfalso. unfold pretty, pretty_N in E. case_decide as Hd; [done|]. revert E.
    assert (∀ y t, t ≠ "" → pretty_N_go y t ≠ "") as Hgo.
    { intros y. induction (N.lt_wf_0 y) as [y _ IH]; intros t Ht. assert (y = 0 ∨ 0 < y)%N as [->|H0] by lia; [done|].
      rewrite pretty_N_go_step //. apply IH; [by apply N.div_lt|done]. }
    rewrite pretty_N_go_step; [lia|]. by apply Hgo.
  - destruct (decide (c = "+"%char)) as [->|Hne]; [done|].
    destruct c as [[] [] [] [] [] [] [] []]; try done.
Qed.

Lemma parse_u16_bound s n : parse_u16 s = Some n → (n ≤ u16_max)%N.
Proof.
  assert (∀ s, digits 0 s = Some n → (n ≤ u16_max)%N) as Hd by (intros s0; apply digits_bound; done).
  unfold parse_u16. destruct s as [|[[] [] [] [] [] [] [] []] s]; try done; try apply Hd. destruct s; [done|apply Hd].
Qed.

(** ** Ids *)

Record nid_wf (i : node_id_t) : Prop := {
  nw_name : nid_name i ≠ "";
  nw_at : split_once "@" (nid_name i) = None;
  nw_host : nid_host i ≠ "";
  nw_port : (nid_port i ≤ u16_max)%N
}.

Lemma parse_to_full i : nid_wf i → parse (to_full i) = inr i.
Proof.
  destruct i as [name host port]. intros [H1 H2 H3 H4]; simpl in *. unfold parse, to_full, address; simpl.
  rewrite split_once_app //. rewrite rsplit_once_app; [by eapply digits_no_colon, digits_pretty|].
  by rewrite !bool_decide_eq_false_2 // parse_u16_pretty.
Qed.

Lemma parse_wf s i : parse s = inr i → nid_wf i.
Proof.
  unfold parse. destruct (split_once "@" s) as [[name addr]|] eqn:Hs; [|done].
  destruct (rsplit_once ":" addr) as [[host port]|]; [|done]. do 2 (case_bool_decide; [done|]).
  destruct (parse_u16 port) as [n|] eqn:Hp; [|done]. intros [= <-].
  split; simpl; try done; [by eapply split_once_some|by eapply parse_u16_bound].
Qed.

Lemma canonical_idem s c : canonical s = inr c → canonical c = inr c.
Proof.
  unfold canonical. destruct (parse s) as [e|i] eqn:Hp; [done|]. intros [= <-].
  by rewrite parse_to_full; [by eapply parse_wf|].
Qed.

(** Node ids round-trip.  What [NodeId::parse] accepts has a name without
    [@], a host and a 16-bit port; printing it and parsing that gives it back,
    so the printed form is its own; and the id [_build_id] makes of a name
    without [@] is accepted exactly when the name is not empty, under that name
    and the port asked for, as long as it is a port. *)
Theorem node_id_roundtrip s i hostname name port :
  (parse s = inr i → nid_wf i ∧ parse (to_full i) = inr i ∧ canonical (to_full i) = inr (to_full i)) ∧
  (split_once "@" name = None → (default 0 port ≤ u16_max)%N →
   parse (_build_id hostname name port) =
     if bool_decide (name = "") then inl EmptyName
     else inr (NodeId name (if bool_decide (hostname = "") then "127.0.0.1" else hostname) (default 0%N port))).
Proof.
  split.
  - intros Hp. pose proof (parse_wf _ _ Hp) as Hw. pose proof (parse_to_full _ Hw) as Hf.
    split_and!; [done..|]. unfold canonical. by rewrite Hf.
  - intros Hat Hport. unfold _build_id. rewrite bool_decide_eq_false_2; [rewrite Hat; by intros []|].
    set (host := if bool_decide (hostname = "") then _ else _).
    assert (host ≠ "") as Hh by (unfold host; by case_bool_decide).
    case_bool_decide as Hn.
    + subst. unfold parse; simpl. rewrite rsplit_once_app //. by eapply digits_no_colon, digits_pretty.
    + by apply (parse_to_full (NodeId name host (default 0%N port))).
Qed.
