(* ===== verification/Actors.v ===== *)
(** * Actor classes and message dispatch

    Models [src/lapinbeam/actor.py] (the [@actor]/[@on] decorators and the
    metadata they build) and the dispatch of one message, which
    [Supervisor._drive] and the pool's [_dispatch_to_instance] both write out
    in [src/lapinbeam/supervisor.py]. *)

From S2P Require Import Prelude Values.

(** ** [@on] *)

(** What [@on(...)] leaves on a function: [func.__lapinbeam_on__]. The type
    is [None] for [_UNSET]; a class is named by its qualified name. *)
Record on_spec := OnSpec { sp_type : option string; sp_default : bool }.

#[export] Instance on_spec_eq_dec : EqDecision on_spec.
Proof. solve_decision. Defined.

(** [on(msg_type=_UNSET, *, default=False)] *)
Definition on (msg_type : option string) (default : bool) : exn + on_spec :=
  if negb default && bool_decide (msg_type = None)
  then inl (TypeError "on() requires a message type, e.g. on(Task), or on(default=True)")
  else if default && negb (bool_decide (msg_type = None))
  then inl (TypeError "on(msg_type) and on(default=True) are mutually exclusive")
  else inr (OnSpec msg_type default).

(** ** [@actor] *)

(** A class as [_build_metadata] sees it: its [__name__] and, in the order of
    [dir(cls)], its attributes with the [__lapinbeam_on__] each one carries. *)
Record pyclass := PyClass {
  cls_name : string;
  cls_attrs : list (string * option on_spec)
}.

(** [cls.__lapinbeam_actor__] *)
Record actor_meta := ActorMeta {
  am_name : string;
  am_handlers : gmap string string;
  am_default_handler : option string
}.

#[export] Instance actor_meta_settable : Settable actor_meta :=
  λ r, ActorMeta (am_name r) (am_handlers r) (am_default_handler r).

(** What [@actor(name=...)] gives a class that only has [receive]. *)
Definition plain_actor (name : string) : actor_meta := ActorMeta name ∅ None.

(** One turn of the loop over [dir(cls)]. *)
Definition add_attr (cls : pyclass) (m : actor_meta)
    (attr : string * option on_spec) : exn + actor_meta :=
  match attr with
  | (attr_name, None) => inr m
  | (attr_name, Some spec) =>
      if sp_default spec then
        match am_default_handler m with
        | Some d =>
            inl (TypeError (cls_name cls +:+
              " defines more than one @on(default=True) handler (" +:+
              py_repr d +:+ " and " +:+ py_repr attr_name +:+ ")"))
        | None => inr (m <| am_default_handler := Some attr_name |>)
        end
      else
        let msg_type := default "" (sp_type spec) in
        match am_handlers m !! msg_type with
        | Some h =>
            inl (TypeError (cls_name cls +:+
              " defines more than one @on handler for " +:+ msg_type +:+ " (" +:+
              py_repr h +:+ " and " +:+ py_repr attr_name +:+ ")"))
        | None => inr (m <| am_handlers ::= <[msg_type := attr_name]> |>)
        end
  end.

Fixpoint build_loop (cls : pyclass) (m : actor_meta)
    (attrs : list (string * option on_spec)) : exn + actor_meta :=
  match attrs with
  | [] => inr m
  | a :: attrs' =>
      match add_attr cls m a with
      | inl e => inl e
      | inr m' => build_loop cls m' attrs'
      end
  end.

Definition _build_metadata (cls : pyclass) (name : string) : exn + actor_meta :=
  build_loop cls (ActorMeta name ∅ None) (cls_attrs cls).

(** [@actor(name=...)]: [name or cls.__name__], so the empty name counts as
    no name. *)
Definition actor (name : option string) (cls : pyclass) : exn + actor_meta :=
  let chosen := match name with
                | None | Some EmptyString => cls_name cls
                | Some n => n
                end in
  _build_metadata cls chosen.

Definition actor_name (m : actor_meta) : string := am_name m.

(** ** Dispatch *)

(** [type(msg)], as the name its class has. *)
Definition type_of (v : pyval) : string :=
  match v with
  | PNone => "NoneType"
  | PBool _ => "bool"
  | PInt _ => "int"
  | PFloat _ => "float"
  | PStr _ => "str"
  | PList _ => "list"
  | PTuple _ => "tuple"
  | PDict _ => "dict"
  | PObj c _ => c
  end.

(** Which method of the instance a message is given to. *)
Inductive method := Receive | Handler (name : string).

#[export] Instance method_eq_dec : EqDecision method.
Proof. solve_decision. Defined.

(** The choice made in [_drive]'s loop body, and again in
    [_dispatch_to_instance]. *)
Definition dispatch (cls : string) (m : actor_meta) (msg : pyval) : exn + method :=
  if bool_decide (am_handlers m = ∅) then inr Receive
  else
    match am_handlers m !! type_of msg with
    | Some h => inr (Handler h)
    | None =>
        match am_default_handler m with
        | Some d => inr (Handler d)
        | None => inl (TypeError (cls +:+ " has no @on handler for " +:+ type_of msg +:+
                    " messages and no @on(default=True) fallback"))
        end
    end.

(** ** Properties *)

(** The specs [on] can return: exactly one of a type and [default]. *)
Definition spec_ok (sp : on_spec) : Prop :=
  (sp_default sp = true ∧ sp_type sp = None) ∨
  (sp_default sp = false ∧ is_Some (sp_type sp)).

(** The handlers of a class by type and by [default], read off its
    attributes: what the metadata is meant to be. *)
Definition typed_attr (cls : pyclass) (t h : string) : Prop :=
  (h, Some (OnSpec (Some t) false)) ∈ cls_attrs cls.
Definition default_attr (cls : pyclass) (h : string) : Prop :=
  (h, Some (OnSpec None true)) ∈ cls_attrs cls.

Definition attrs_ok (attrs : list (string * option on_spec)) : Prop :=
  Forall (λ a, ∀ sp, a.2 = Some sp → spec_ok sp) attrs.

(** What the loop has established after a prefix of the attributes. *)
Definition meta_matches (m : actor_meta) (done : list (string * option on_spec)) : Prop :=
  (∀ t h, am_handlers m !! t = Some h ↔ (h, Some (OnSpec (Some t) false)) ∈ done) ∧
  (∀ h, am_default_handler m = Some h ↔ (h, Some (OnSpec None true)) ∈ done).

Lemma add_attr_matches cls m m' done a :
  meta_matches m done → (∀ sp, a.2 = Some sp → spec_ok sp) →
  add_attr cls m a = inr m' → meta_matches m' (done ++ [a]) ∧ am_name m' = am_name m.
Proof.
  intros [Hh Hd] Hok. destruct a as [an [sp|]]; simpl in *.
  - specialize (Hok sp eq_refl). destruct sp as [ty df]; unfold spec_ok in Hok; simpl in *.
    destruct Hok as [[-> ->]|[-> [t ->]]]; simpl.
    + destruct (am_default_handler m) as [d|] eqn:Ed; intros ?; simplify_eq/=.
      split; [|done]. split; simpl; intros; rewrite elem_of_app list_elem_of_singleton.
      * rewrite Hh. naive_solver.
      * rewrite -Hd. naive_solver.
    + destruct (am_handlers m !! t) as [d|] eqn:Ed; intros ?; simplify_eq/=.
      split; [|done]. split; simpl; intros; rewrite elem_of_app list_elem_of_singleton.
      * rewrite lookup_insert. case_decide; subst; rewrite -Hh ?Ed; naive_solver.
      * rewrite -Hd. naive_solver.
  - intros ?; simplify_eq. split; [|done].
    split; intros; rewrite elem_of_app list_elem_of_singleton.
    + rewrite -Hh. naive_solver.
    + rewrite -Hd. naive_solver.
Qed.

Lemma build_loop_matches cls attrs : ∀ m m' done,
  meta_matches m done → attrs_ok attrs →
  build_loop cls m attrs = inr m' →
  meta_matches m' (done ++ attrs) ∧ am_name m' = am_name m.
Proof.
  induction attrs as [|a attrs IH]; intros m m' done Hm Hok Hb; simpl in *.
  { simplify_eq. by rewrite app_nil_r. }
  pose proof (Forall_cons_1 _ _ _ Hok) as [Ha Hok'].
  destruct (add_attr cls m a) as [|m1] eqn:E; [done|].
  eapply add_attr_matches in E as [Hm1 Hn]; [|done..].
  destruct (IH _ _ _ Hm1 Hok' Hb) as [H1 H2].
  rewrite -app_assoc in H1. split; [done|congruence].
Qed.

Lemma build_metadata_matches cls name m :
  attrs_ok (cls_attrs cls) → _build_metadata cls name = inr m →
  meta_matches m (cls_attrs cls) ∧ am_name m = name.
Proof.
  intros Hok Hb. eapply (build_loop_matches _ _ _ _ []) in Hb as [H1 H2]; [|split|done].
  - done.
  - intros t h. simpl. rewrite lookup_empty. set_solver.
  - intros h. simpl. set_solver.
Qed.

Lemma meta_handlers_empty m attrs :
  meta_matches m attrs →
  am_handlers m = ∅ ↔ (∀ t h, (h, Some (OnSpec (Some t) false)) ∉ attrs).
Proof.
  intros [Hh _]. split.
  - intros He t h Hin. apply Hh in Hin. by rewrite He in Hin.
  - intros Hno. apply map_eq. intros t. rewrite lookup_empty.
    destruct (am_handlers m !! t) as [h|] eqn:E; [|done]. by apply Hh, Hno in E.
Qed.

(** For an actor class that the decorators accept and that has at least
    one typed [@on] handler, a message is given to the handler declared for
    its exact type; when there is none, to the [@on(default=True)] handler;
    and when there is none of those either, dispatch raises [TypeError].  In
    no case is [receive] called. *)
Theorem dispatch_typed cls name m msg :
  attrs_ok (cls_attrs cls) →
  actor name cls = inr m →
  (∃ t h, typed_attr cls t h) →
  match dispatch (cls_name cls) m msg with
  | inr Receive => False
  | inr (Handler h) =>
      typed_attr cls (type_of msg) h ∨
      (default_attr cls h ∧ ∀ h', ¬ typed_attr cls (type_of msg) h')
  | inl e =>
      exn_type e = "TypeError" ∧
      ∀ h, ¬ typed_attr cls (type_of msg) h ∧ ¬ default_attr cls h
  end.
Proof.
  intros Hok Hb (t & h & Hth). unfold actor in Hb.
  apply build_metadata_matches in Hb as [Hm _]; [|done].
  pose proof Hm as [Hh Hd]. unfold dispatch. rewrite bool_decide_eq_false_2.
  { by rewrite (meta_handlers_empty _ _ Hm) => /(_ t h). }
  destruct (am_handlers m !! type_of msg) as [k|] eqn:E.
  { left. by apply Hh. }
  assert (∀ h', ¬ typed_attr cls (type_of msg) h') as Hno.
  { intros h' Hin. apply Hh in Hin. congruence. }
  destruct (am_default_handler m) as [d|] eqn:E2.
  - right. split; [by apply Hd|done].
  - split; [done|]. intros h'. split; [done|]. intros Hin%Hd. congruence.
Qed.

Definition ex_class : pyclass :=
  PyClass "Worker" [("__init__", None); ("handle_other", Some (OnSpec None true));
                    ("handle_task", Some (OnSpec (Some "Task") false)); ("run", None)].

Ltac solve_attrs_ok :=
  unfold attrs_ok; simpl;
  repeat (apply List.Forall_cons; [by intros ??; simplify_eq/=; unfold spec_ok; simpl; eauto|]);
  apply List.Forall_nil.

Lemma ex_class_ok : attrs_ok (cls_attrs ex_class).
Proof. solve_attrs_ok. Qed.

Lemma dispatch_typed_witness :
  attrs_ok (cls_attrs ex_class) ∧
  ∃ m, actor (Some "worker") ex_class = inr m ∧
       (∃ t h, typed_attr ex_class t h) ∧
       match dispatch "Worker" m (PObj "Task" []) with
       | inr Receive => False
       | inr (Handler h) =>
           typed_attr ex_class "Task" h ∨
           (default_attr ex_class h ∧ ∀ h', ¬ typed_attr ex_class "Task" h')
       | inl e =>
           exn_type e = "TypeError" ∧
           ∀ h, ¬ typed_attr ex_class "Task" h ∧ ¬ default_attr ex_class h
       end.
Proof.
  split; [exact ex_class_ok|].
  assert (∃ t h, typed_attr ex_class t h) as Ht.
  { exists "Task", "handle_task". unfold typed_attr, ex_class; simpl. set_solver. }
  eexists; split; [reflexivity|]. split; [exact Ht|].
  exact (dispatch_typed ex_class (Some "worker") _ (PObj "Task" []) ex_class_ok eq_refl Ht).
Defined.

(** An accepted actor class whose only [@on] handler is the
    [@on(default=True)] one never has it called: [_drive] tests only the
    typed handlers ([if not handlers]), so every message goes to [receive],
    which such a class need not define.  The documentation promises the
    opposite (an actor with any [@on] handler stops using [receive]). *)
Theorem dispatch_default_only_ignored cls name m msg :
  attrs_ok (cls_attrs cls) →
  actor name cls = inr m →
  (∀ t h, ¬ typed_attr cls t h) →
  dispatch (cls_name cls) m msg = inr Receive.
Proof.
  intros Hok Hb Hno. unfold actor in Hb.
  apply build_metadata_matches in Hb as [Hm _]; [|done].
  unfold dispatch. by rewrite bool_decide_eq_true_2 // (meta_handlers_empty _ _ Hm).
Qed.

Definition ex_default_only : pyclass :=
  PyClass "CatchAll" [("handle_other", Some (OnSpec None true))].

Lemma dispatch_default_only_ignored_witness :
  default_attr ex_default_only "handle_other" ∧
  ∃ m, actor None ex_default_only = inr m ∧
       dispatch (cls_name ex_default_only) m (PInt 3) = inr Receive.
Proof.
  assert (default_attr ex_default_only "handle_other") as Hd.
  { unfold default_attr, ex_default_only; simpl. set_solver. }
  split; [exact Hd|]. eexists; split; [reflexivity|].
  apply (dispatch_default_only_ignored ex_default_only None).
  - solve_attrs_ok.
  - reflexivity.
  - intros t h Hin. unfold typed_attr, ex_default_only in Hin; simpl in Hin. set_solver.
Defined.

(** Whether a list of attributes declares a handler twice. *)
Definition dup_free (attrs : list (string * option on_spec)) : Prop :=
  (∀ i j h h' sp, attrs !! i = Some (h, Some sp) → attrs !! j = Some (h', Some sp) → i = j).

Lemma build_loop_total cls attrs : ∀ m done,
  meta_matches m done → attrs_ok attrs → dup_free (done ++ attrs) →
  ∃ m', build_loop cls m attrs = inr m'.
Proof.
  induction attrs as [|a attrs IH]; intros m done Hm Hok Hdup; simpl; [eauto|].
  pose proof (Forall_cons_1 _ _ _ Hok) as [Ha Hok'].
  assert (∃ m1, add_attr cls m a = inr m1) as [m1 Hm1].
  { destruct a as [an [sp|]]; simpl in *; [|eauto].
    specialize (Ha sp eq_refl). destruct sp as [ty df]; unfold spec_ok in Ha; simpl in Ha.
    assert (∀ h, (h, Some (OnSpec ty df)) ∉ done) as Hnew.
    { intros h [i Hi]%list_elem_of_lookup.
      assert (i = length done) as ->.
      { eapply Hdup; [by apply lookup_app_l_Some|].
        by rewrite lookup_app_r // Nat.sub_diag. }
      apply lookup_lt_Some in Hi. lia. }
    destruct Hm as [Hh Hd], Ha as [[-> ->]|[-> [t ->]]]; simpl in *.
    - destruct (am_default_handler m) as [d|]; [|eauto]. by destruct (Hnew d); apply Hd.
    - destruct (am_handlers m !! t) as [d|] eqn:E; [|eauto]. by apply Hh, Hnew in E. }
  rewrite Hm1. eapply IH; [by eapply add_attr_matches|done|by rewrite -app_assoc].
Qed.

(** [@actor] accepts every class that declares no handler twice; and for
    an accepted class the metadata holds exactly the declared handlers: the
    table maps a type to a method if and only if that method carries
    [@on(type)], the default is the one method marked [@on(default=True)],
    and the actor's name is the given one, or the class name when none (or
    the empty one) is given. *)
Theorem actor_metadata_exact cls name :
  attrs_ok (cls_attrs cls) →
  (dup_free (cls_attrs cls) → ∃ m, actor name cls = inr m) ∧
  (∀ m, actor name cls = inr m →
     (∀ t h, am_handlers m !! t = Some h ↔ typed_attr cls t h) ∧
     (∀ h, am_default_handler m = Some h ↔ default_attr cls h) ∧
     actor_name m = match name with
                    | Some (String c s) => String c s
                    | _ => cls_name cls
                    end).
Proof.
  intros Hok. split.
  - intros Hdup. eapply (build_loop_total _ _ _ []); [|done..].
    split; simpl; intros; rewrite ?lookup_empty; set_solver.
  - intros m Hb. unfold actor in Hb.
    apply build_metadata_matches in Hb as [[Hh Hd] Hn]; [|done].
    split_and!; [done..|]. unfold actor_name. rewrite Hn. by destruct name as [[|]|].
Qed.

Lemma actor_metadata_exact_witness :
  ∃ m, actor (Some "") ex_class = inr m ∧
       am_handlers m !! "Task" = Some "handle_task" ∧
       actor_name m = "Worker".
Proof.
  pose proof (actor_metadata_exact ex_class (Some "") ex_class_ok) as [_ H].
  eexists; split; [reflexivity|]. destruct (H _ eq_refl) as (Hh & _ & Hn).
  split; [|exact Hn]. apply Hh. unfold typed_attr, ex_class; simpl. set_solver.
Defined.
