(* ===== verification/State.v ===== *)
(** * The state of one node process

    One record holds what the code keeps in attributes of [Node]
    ([src/lapinbeam/node.py]), of the [Supervisor]s and their child records
    ([src/lapinbeam/supervisor.py]), in the closures of [register_groups],
    [register_registry] and [register_discovery], and in the event loop.
    Objects that the code shares and compares by identity (queues, children,
    supervisors, tasks, futures) live in heaps and are named by numbers. *)

From S2P Require Import Prelude Values NodeId Actors.

(** Identities of the shared objects. *)
Definition qid := nat.   (* asyncio.Queue *)
Definition cid := nat.   (* _ActorChild / _SupervisorChild *)
Definition sid := nat.   (* Supervisor *)
Definition tid := nat.   (* asyncio.Task *)
Definition fid := nat.   (* asyncio.Future *)

(** [(peer_id, name)], with [None] for a local target. *)
Abbreviation target := (option string * string)%type.
(** [(origin_node_id, actor_name)] *)
Abbreviation member := (string * string)%type.

(** ** Messages *)

(** [MessageMeta] of [src/lapinbeam/context.py]; its [node] field is the node
    whose state this is. *)
Record message_meta := MessageMeta {
  src : option string;
  reply_to : option string;
  correlation_id : option Z;
  msg_id : option Z
}.

Abbreviation envelope := (pyval * message_meta)%type.

(** ** System events, the argument of [on_event] callbacks *)

Inductive event :=
| EvPeerConnected (peer : string)
| EvPeerDisconnected (peer : string)
| EvError (peer detail : string) (corr : option Z)
| EvDecodeError (actor detail : string)
| EvReconnectGaveUp (peer : string)
| EvSupervisorGaveUp (actor detail : string)
| EvMailboxFull (actor : string)
| EvRegistryConflict (name : string) (existing incoming : member)
| EvPoolWorkerError (pool detail : string)
| EvPoolQueueFull (pool detail : string).

(** The callbacks registered with [on_event]: those of the library and those
    of the application, which may raise. *)
Inductive listener :=
| LGroups
| LRegistry
| LDiscovery
| LUser (id : nat) (raises : bool).

(** ** The native core *)

(** A [Data] frame handed to the transport. *)
Record frame := Frame {
  fr_peer : string;
  fr_actor : string;
  fr_payload : pyval;
  fr_reply_to : option string;
  fr_corr : option Z;
  fr_msg_id : Z
}.

(** What the Python layer sees of [_core.Node].  Peers are named by the string
    that the core prints for their id; [co_next_msg_id] is an atomic [u64].
    [co_refuses] stands for the refusals that depend on the transport itself (a
    payload over the frame limit, a connection that is closed); [TransportCore]
    says which they are and shows that a transport does what the operations on
    this record say. *)
Record core_t := Core {
  co_local : string;
  co_running : bool;
  co_peers : gset string;
  co_routing : gset string;
  co_out : list frame;
  co_errors_out : list (string * string * option Z);
  co_next_msg_id : Z;
  co_refuses : string → pyval → option exn
}.

#[export] Instance core_settable : Settable core_t :=
  λ r, Core (co_local r) (co_running r) (co_peers r) (co_routing r) (co_out r)
            (co_errors_out r) (co_next_msg_id r) (co_refuses r).

(** The connected peer of that id. *)
Definition is_peer (co : core_t) (peer : string) : Prop := canonical peer = inr peer ∧ peer ∈ co_peers co.

(** [fetch_add(1)] wraps around. *)
Definition next_u64 (z : Z) : Z := (z + 1) mod 2 ^ 64.

(** ** Coroutines created with [asyncio.create_task] that run to the end
    without suspending *)

Inductive verb := VAdd | VRemove.   (* "join"/"claim" and "leave"/"release" *)

#[export] Instance verb_eq_dec : EqDecision verb.
Proof. solve_decision. Defined.

Inductive job :=
| JDeliverExit (from_label target_name reason : string)
| JNotifyRemoteExit (peer_id target_name actor_name reason : string)
| JDeliverDown (ref actor_label reason : string)
| JNotifyRemoteDown (peer_id ref actor_name reason : string)
| JGroupDelta (peer_id group : string) (m : member) (v : verb)
| JGroupSnapshot (peer_id : string)
| JRegistryDelta (peer_id name : string) (owner : member) (v : verb)
| JRegistrySnapshot (peer_id : string).

#[export] Instance job_eq_dec : EqDecision job.
Proof. solve_decision. Defined.

(** ** Supervisors and their children *)

Inductive strategy := OneForOne | OneForAll | RestForOne.

#[export] Instance strategy_eq_dec : EqDecision strategy.
Proof. solve_decision. Defined.

(** What [build] does to the fresh child [Supervisor]: the spawns it makes,
    and possibly an exception at the end. *)
Inductive build_op :=
| BSpawn (cls : string) (meta : actor_meta)
| BSpawnSupervisor (name : string) (build : list build_op) (strat : string)
    (max_restarts : nat) (restart_window : Z)
| BRaise (e : exn).

Inductive child_kind :=
| ActorChild (cls : string) (meta : actor_meta) (mailbox : qid)
| SupervisorChild (build : list build_op) (strat : string)
    (max_restarts : nat) (restart_window : Z).

(** [_ActorChild] and [_SupervisorChild]; [ch_driver] and [ch_pending_exit]
    belong to the former, [ch_supervisor] to the latter. *)
Record child := Child {
  ch_name : string;
  ch_kind : child_kind;
  ch_driver : option tid;
  ch_pending_exit : option exn;
  ch_supervisor : option sid;
  ch_task : option tid
}.

#[export] Instance child_settable : Settable child :=
  λ r, Child (ch_name r) (ch_kind r) (ch_driver r) (ch_pending_exit r)
             (ch_supervisor r) (ch_task r).

(** [Supervisor]; times are in milliseconds. *)
Record supervisor := Supervisor {
  s_strategy : strategy;
  s_max_restarts : nat;
  s_restart_window : Z;
  s_restart_times : list Z;
  s_children : list cid;
  s_give_up_exc : option exn;
  s_given_up : bool
}.

#[export] Instance supervisor_settable : Settable supervisor :=
  λ r, Supervisor (s_strategy r) (s_max_restarts r) (s_restart_window r)
         (s_restart_times r) (s_children r) (s_give_up_exc r) (s_given_up r).

(** ** Tasks *)

Inductive outcome := OResult | OExn (e : exn) | OCancelled.

#[export] Instance outcome_eq_dec : EqDecision outcome.
Proof. solve_decision. Defined.

(** What a suspended coroutine is resumed with. *)
Inductive wake := WkOk | WkExn (e : exn) | WkCancel.

(** What it is suspended on. [WReady] is a task that the loop has scheduled;
    [WSleep] a timer; [WTask] another task; [WGather] a [gather(...,
    return_exceptions=True)], with whether its cancellation was requested;
    [WEvent] a supervisor's [_given_up]; [WGet] the actor's mailbox; [WUser]
    an await inside a user handler. *)
Inductive wait :=
| WReady (w : wake)
| WSleep (ms : Z)
| WTask (t : tid)
| WGather (ts : list tid) (cancel_requested : bool)
| WEvent (s : sid)
| WGet
| WUser.

(** The locals alive across [_handle_child_crash]: the exception, and the
    links and monitors captured when the generation ended. *)
Record crash := Crash {
  k_exn : exn;
  k_linked : option (gset target);
  k_monitored : option (gmap string target)
}.

(** Where a child's coroutine is suspended. *)
Inductive pc :=
| PcStart                                       (* not yet run *)
| PcAwaitDriver                                 (* await child.driver *)
| PcBackoff (k : crash)                         (* await asyncio.sleep(...) *)
| PcTeardown (k : crash) (siblings rest : list cid)   (* await child.task of a sibling *)
| PcGiveUp (k : crash)                          (* await gather(...) in _shutdown_except *)
| PcSupWait                                     (* await _wait_for_give_up() *)
| PcSupShutdown.                                (* await child.supervisor.shutdown() *)

Inductive code :=
| CodeChild (s : sid) (c : cid) (p : pc)
| CodeDrive (c : cid) (current_message : option message_meta).

Record task := Task {
  t_code : code;
  t_wait : wait;
  t_must_cancel : bool;
  t_out : option outcome
}.

#[export] Instance task_settable : Settable task :=
  λ r, Task (t_code r) (t_wait r) (t_must_cancel r) (t_out r).

Inductive future := FPending | FResult | FExn (e : exn) | FCancelled.

#[export] Instance future_eq_dec : EqDecision future.
Proof. solve_decision. Defined.

(** ** The node *)

Record st := St {
  (* Node *)
  node_id : string;
  mailbox_capacity : option nat;
  _core : option core_t;
  _mailboxes : gmap string qid;
  _stopped : option bool;
  _started : bool;
  _event_listeners : list listener;
  _peer_waiters : gmap string (list fid);
  _actor_tasks : gset tid;
  _links : gmap string (gset target);
  _trap_exit : gmap string bool;
  _live_children : gmap string cid;
  _groups : gmap string (gset member);
  _group_leave_hook : bool;
  _group_peers : option (gset string);
  _monitors : gmap string (string * target);
  _monitor_watchers : gmap string (gmap string target);
  _registry : gmap string member;
  _registry_release_hook : bool;
  _registry_peers : option (gset string);
  _known : gset string;
  (* heaps *)
  queues : gmap qid (queue envelope);
  children : gmap cid child;
  sups : gmap sid supervisor;
  tasks : gmap tid task;
  futures : gmap fid future;
  next_id : nat;
  (* event loop and observers *)
  jobs : list job;
  reported : list (nat * event)
}.

#[export] Instance st_settable : Settable st :=
  λ r, St (node_id r) (mailbox_capacity r) (_core r) (_mailboxes r) (_stopped r)
    (_started r) (_event_listeners r) (_peer_waiters r) (_actor_tasks r)
    (_links r) (_trap_exit r) (_live_children r) (_groups r)
    (_group_leave_hook r) (_group_peers r) (_monitors r) (_monitor_watchers r)
    (_registry r) (_registry_release_hook r) (_registry_peers r) (_known r)
    (queues r) (children r) (sups r) (tasks r) (futures r) (next_id r)
    (jobs r) (reported r).

(** [Node.__init__]: the fields a fresh node starts with. *)
Definition Node_init (id : string) (capacity : option nat) : st :=
  St id capacity None ∅ None false [] ∅ ∅ ∅ ∅ ∅ ∅ false None ∅ ∅ ∅ false None ∅
     ∅ ∅ ∅ ∅ ∅ 0 [] [].

(** [asyncio.create_task] of one of the jobs above. *)
Definition create_job (j : job) : M st unit := modify (λ s, s <| jobs ::= λ l, l ++ [j] |>).

(** A fresh identity for a new object. *)
Definition alloc : M st nat :=
  λ s, (inr (next_id s), s <| next_id ::= S |>).

(** [Node.local_id] *)
Definition local_id (s : st) : string :=
  match _core s with
  | None => node_id s
  | Some co => co_local co
  end.
