(* ===== verification/PeerEvents.v ===== *)
(** * Broadcasts and the library's own [on_event] listeners

    The parts of [src/lapinbeam/groups.py], [src/lapinbeam/registry.py] and
    [src/lapinbeam/discovery.py] that [Node] itself reaches: [_broadcast]
    (through the two hooks) and the closures that [register_groups],
    [register_registry] and [register_discovery] pass to [node.on_event]. *)

From S2P Require Import Prelude Values NodeId Actors State.

(** ** groups.py *)

Definition group_broadcast (group : string) (m : member) (v : verb) : M st unit :=
  let! s := get in
  match _group_peers s with
  | None => ret tt
  | Some peers => for_each (elements peers) (λ peer_id, create_job (JGroupDelta peer_id group m v))
  end.

Definition _drop_peer_members (peer_id : string) : M st unit :=
  modify (λ s, s <| _groups ::= fmap (filter (λ m, m.1 ≠ peer_id)) |>).

Definition groups_on_peer_event (ev : event) : M st unit :=
  match ev with
  | EvPeerConnected peer =>
      modify (λ s, s <| _group_peers ::= fmap (λ ps, {[peer]} ∪ ps) |>) ;;
      create_job (JGroupSnapshot peer)
  | EvPeerDisconnected peer =>
      modify (λ s, s <| _group_peers ::= fmap (λ ps, ps ∖ {[peer]}) |>) ;;
      _drop_peer_members peer
  | _ => ret tt
  end.

(** The lambda that [register_groups] stores in [_group_leave_hook]. *)
Definition group_leave_hook (group name : string) : M st unit :=
  let! s := get in group_broadcast group (local_id s, name) VRemove.

(** ** registry.py *)

Definition registry_broadcast (name : string) (owner : member) (v : verb) : M st unit :=
  let! s := get in
  match _registry_peers s with
  | None => ret tt
  | Some peers => for_each (elements peers) (λ peer_id, create_job (JRegistryDelta peer_id name owner v))
  end.

Definition _drop_peer_names (peer_id : string) : M st unit :=
  modify (λ s, s <| _registry ::= filter (λ kv, kv.2.1 ≠ peer_id) |>).

Definition registry_on_peer_event (ev : event) : M st unit :=
  match ev with
  | EvPeerConnected peer =>
      modify (λ s, s <| _registry_peers ::= fmap (λ ps, {[peer]} ∪ ps) |>) ;;
      create_job (JRegistrySnapshot peer)
  | EvPeerDisconnected peer =>
      modify (λ s, s <| _registry_peers ::= fmap (λ ps, ps ∖ {[peer]}) |>) ;;
      _drop_peer_names peer
  | _ => ret tt
  end.

(** The lambda that [register_registry] stores in [_registry_release_hook]. *)
Definition registry_release_hook (registry_name actor_name : string) : M st unit :=
  let! s := get in registry_broadcast registry_name (local_id s, actor_name) VRemove.

(** ** discovery.py *)

Definition discovery_on_event (ev : event) : M st unit :=
  match ev with
  | EvPeerConnected peer => modify (λ s, s <| _known ::= union {[peer]} |>)
  | EvPeerDisconnected peer => modify (λ s, s <| _known ::= λ k, k ∖ {[peer]} |>)
  | _ => ret tt
  end.

(** ** One callback of [_event_listeners] *)

Definition run_listener (l : listener) (ev : event) : M st unit :=
  match l with
  | LGroups => groups_on_peer_event ev
  | LRegistry => registry_on_peer_event ev
  | LDiscovery => discovery_on_event ev
  | LUser id raises =>
      modify (λ s, s <| reported ::= λ l, l ++ [(id, ev)] |>) ;;
      if raises then raise (RuntimeError "listener") else ret tt
  end.

(** ** What a broadcast adds to the event loop *)

Definition delta_jobs (peers : option (gset string)) (mk : string → job) : list job :=
  match peers with
  | None => []
  | Some ps => mk <$> elements ps
  end.

Lemma for_each_create_job {A} (mk : A → job) (xs : list A) (s : st) :
  for_each xs (λ x, create_job (mk x)) s =
  (inr tt, s <| jobs ::= λ l, l ++ (mk <$> xs) |>).
Proof.
  revert s. induction xs as [|x xs IH]; intros s; simpl.
  - rewrite app_nil_r. by destruct s.
  - rewrite IH /=. by rewrite -app_assoc.
Qed.

Lemma add_no_jobs (s : st) : s = s <| jobs ::= λ l, l ++ [] |>.
Proof. destruct s. by rewrite /= app_nil_r. Qed.

Lemma group_broadcast_spec group m v s :
  group_broadcast group m v s =
  (inr tt, s <| jobs ::= λ l, l ++ delta_jobs (_group_peers s)
                                    (λ p, JGroupDelta p group m v) |>).
Proof.
  unfold group_broadcast, delta_jobs. cbn [bind get].
  destruct (_group_peers s) as [ps|] eqn:E.
  - by rewrite /= for_each_create_job.
  - f_equal. apply add_no_jobs.
Qed.

Lemma registry_broadcast_spec name o v s :
  registry_broadcast name o v s =
  (inr tt, s <| jobs ::= λ l, l ++ delta_jobs (_registry_peers s)
                                    (λ p, JRegistryDelta p name o v) |>).
Proof.
  unfold registry_broadcast, delta_jobs. cbn [bind get].
  destruct (_registry_peers s) as [ps|] eqn:E.
  - by rewrite /= for_each_create_job.
  - f_equal. apply add_no_jobs.
Qed.
