(* ===== verification/Asyncio.v ===== *)
(** * Tasks of the event loop

    The part of asyncio's semantics that the supervisor relies on: creating a
    task, cancelling one, what a suspended task is resumed with, and ending a
    task.  Cancellation follows [asyncio.Task.cancel]: a task suspended on
    another task passes the request on to it and is itself woken only when
    that task ends; a task that the loop has already scheduled remembers the
    request ([_must_cancel]) and gets [CancelledError] at its next step. *)

From S2P Require Import Prelude Values NodeId Actors State.

Definition task_done (s : st) (t : tid) : bool :=
  match tasks s !! t with
  | Some tk => bool_decide (is_Some (t_out tk))
  | None => true
  end.

Definition upd_task (t : tid) (f : task → task) (s : st) : st :=
  s <| tasks ::= alter f t |>.

(** [loop.create_task]: scheduled, not yet run. *)
Definition create_task (cd : code) : M st tid :=
  let! t := alloc in
  modify (λ s, s <| tasks ::= <[t := Task cd (WReady WkOk) false None]> |>) ;;
  ret t.

(** [Task.cancel]: whether the request was taken, and the new state.  The
    recursion goes down the chain of awaited tasks; the fuel bounds its
    length (a cyclic chain exhausts the interpreter's stack in Python). *)
Fixpoint cancel_task (fuel : nat) (t : tid) (s : st) : bool * st :=
  match fuel with
  | O => (true, s)
  | S n =>
      match tasks s !! t with
      | None => (false, s)
      | Some tk =>
          if bool_decide (is_Some (t_out tk)) then (false, s)
          else
            let remember s' := (true, upd_task t (λ tk, tk <| t_must_cancel := true |>) s') in
            match t_wait tk with
            | WReady _ => remember s
            | WSleep _ | WEvent _ | WGet | WUser =>
                (true, upd_task t (λ tk, tk <| t_wait := WReady WkCancel |>) s)
            | WTask t' =>
                let '(r, s') := cancel_task n t' s in
                if r then (true, s') else remember s'
            | WGather ts _ =>
                let '(r, s') := foldl (λ acc t', let '(r, s) := acc in
                                          let '(r', s') := cancel_task n t' s in
                                          (r || r', s')) (false, s) ts in
                if r then (true, upd_task t (λ tk, tk <| t_wait := WGather ts true |>) s')
                else remember s'
            end
      end
  end.

(** Enough fuel for every acyclic chain of awaits. *)
Definition cancel (t : tid) : M st unit :=
  modify (λ s, (cancel_task (S (size (tasks s))) t s).2).

#[global] Arguments create_task : simpl never.
#[global] Arguments cancel : simpl never.

(** What an await of an ended task gives. *)
Definition wake_of_outcome (o : outcome) : wake :=
  match o with
  | OResult => WkOk
  | OExn e => WkExn e
  | OCancelled => WkCancel
  end.

(** What a suspended task would be resumed with now, [None] while it has to
    wait.  Timers, mailboxes and user code are resumed from outside. *)
Definition pending_wake (s : st) (w : wait) : option wake :=
  match w with
  | WReady w => Some w
  | WTask t => match tasks s !! t with
               | Some tk => wake_of_outcome <$> t_out tk
               | None => None
               end
  | WGather ts requested =>
      if forallb (task_done s) ts
      then Some (if requested then WkCancel else WkOk) else None
  | WEvent sp => match sups s !! sp with
                 | Some sup => if s_given_up sup then Some WkOk else None
                 | None => None
                 end
  | WSleep _ | WGet | WUser => None
  end.

(** A pending cancellation overrides the value (and is used up). *)
Definition deliver_wake (tk : task) (w : wake) : wake :=
  if t_must_cancel tk then WkCancel else w.

(** Suspend the running task [t]; a cancellation requested while it ran is
    passed on to what it now awaits. *)
Definition suspend (t : tid) (cd : code) (w : wait) : M st unit :=
  let! s := get in
  match tasks s !! t with
  | None => ret tt
  | Some tk =>
      let requested := t_must_cancel tk in
      modify (λ s, s <| tasks ::= <[t := Task cd w false (t_out tk)]> |>) ;;
      if requested then cancel t else ret tt
  end.

(** The coroutine ended; the done callback of [Node._register_task] runs. *)
Definition finish (t : tid) (o : outcome) : M st unit :=
  modify (λ s, (upd_task t (λ tk, tk <| t_out := Some o |>) s)
                 <| _actor_tasks ::= λ l, l ∖ {[t]} |>).

(** ** What cancelling one task leaves alone *)

Definition same_but_tasks (s s' : st) : Prop := s <| tasks := ∅ |> = s' <| tasks := ∅ |>.

#[export] Instance same_but_tasks_equiv : Equivalence same_but_tasks.
Proof. unfold same_but_tasks. split; red; intros; congruence. Qed.

Lemma upd_task_same t f s : same_but_tasks s (upd_task t f s).
Proof. done. Qed.

Lemma cancel_task_same n : ∀ t s, same_but_tasks s (cancel_task n t s).2.
Proof.
  induction n as [|n IH]; intros t s; simpl; [done|].
  destruct (tasks s !! t) as [tk|]; simpl; [|done].
  case_bool_decide; [done|].
  destruct (t_wait tk) as [| |t'|ts rq| | |]; simpl; try apply upd_task_same.
  - specialize (IH t' s). destruct (cancel_task n t' s) as [[] s']; simpl in *; [done|].
    by etrans; [|apply upd_task_same].
  - assert (∀ r s0, same_but_tasks s s0 →
      same_but_tasks s (foldl (λ acc t', let '(r, s) := acc in
                                 let '(r', s') := cancel_task n t' s in
                                 (r || r', s')) (r, s0) ts).2) as Hf.
    { induction ts as [|t1 ts IHts]; intros r s0 H0; simpl; [done|].
      specialize (IH t1 s0). destruct (cancel_task n t1 s0) as [r1 s1]; simpl in *.
      apply IHts. by etrans. }
    specialize (Hf false s (reflexivity _)).
    destruct (foldl _ _ ts) as [[] s']; simpl in *; by etrans; [|apply upd_task_same].
Qed.

Lemma cancel_same t s : same_but_tasks s (exec (cancel t) s).
Proof. apply cancel_task_same. Qed.

