(* ===== verification/Node.v ===== *)
(** * Node

    [src/lapinbeam/node.py]: the local endpoint.  Every method that touches
    state is a definition here; a coroutine that suspends is cut at its
    awaits.  The cross-actor features ([Links.v], [Monitors.v], [Groups.v],
    [Registry.v]) and the supervisor ([Supervisor.v]) call these. *)

From S2P Require Import Prelude Values NodeId Actors State PeerEvents Asyncio.

(** ** Calls into the native core *)

(** [self._core.f(...)]: on [None] the attribute lookup raises. *)
Definition with_core {A} (m : M core_t A) : M st A :=
  λ s, match _core s with
       | None => (inl (Exn "AttributeError" "'NoneType' object"), s)
       | Some co => let '(r, co') := m co in (r, s <| _core := Some co' |>)
       end.

Definition not_started : exn := RuntimeError "node has not been started".

(** [Node::require] of [src/src/py/node.rs]. *)
Definition core_require : M core_t unit :=
  let! co := get in
  if co_running co then ret tt else raise not_started.

Definition core_register_actor (name : string) : M core_t unit :=
  core_require ;; modify (λ co, co <| co_routing ::= union {[name]} |>).

Definition core_unregister_actor (name : string) : M core_t unit :=
  core_require ;; modify (λ co, co <| co_routing ::= λ r, r ∖ {[name]} |>).

(** The conversion of a Python int to the [u64] of a correlation id. *)
Definition u64_arg (corr : option Z) : exn + unit :=
  match corr with
  | None => inr tt
  | Some z =>
      if bool_decide (z < 0)%Z then inl (Exn "OverflowError" "can't convert negative int to unsigned")
      else if bool_decide (2 ^ 64 ≤ z)%Z then inl (Exn "OverflowError" "int too big to convert")
      else inr tt
  end.

(** A message takes its number before its peer is looked up. *)
Definition core_send_data (peer_id dst : string) (payload : pyval)
    (reply : option string) (corr : option Z) : M core_t unit :=
  lift (u64_arg corr) ;;
  let! peer := lift (canonical peer_id) in
  let! sent := lift (wire_transfer payload) in
  core_require ;;
  let! co := get in
  match co_refuses co peer payload with
  | Some e => raise e
  | None =>
      modify (λ co, co <| co_next_msg_id ::= next_u64 |>) ;;
      if bool_decide (peer ∈ co_peers co)
      then modify (λ co', co' <| co_out ::= λ l, l ++ [Frame peer dst sent reply corr (co_next_msg_id co)] |>)
      else raise (ValueError "send failed: peer not connected")
  end.

(** Best effort: nothing is sent when the peer is gone. *)
Definition core_notify_peer_error (peer_id detail : string) (corr : option Z) : M core_t unit :=
  lift (u64_arg corr) ;;
  let! peer := lift (canonical peer_id) in
  core_require ;;
  modify (λ co, co <| co_next_msg_id ::= next_u64 |>) ;;
  modify (λ co, if bool_decide (peer ∈ co_peers co)
                then co <| co_errors_out ::= λ l, l ++ [(peer, detail, corr)] |> else co).

(** It connects on threads of its own, which [SPeers] of [Runtime.v] stands for. *)
Definition core_connect_peer (peer_id : string) : M core_t unit := lift (canonical peer_id) ;; core_require.

(** The [peer_disconnected] event it sends reaches the event loop later. *)
Definition core_forget_peer (peer_id : string) : M core_t unit :=
  let! peer := lift (canonical peer_id) in
  core_require ;;
  modify (λ co, co <| co_peers ::= λ ps, ps ∖ {[peer]} |>).

Definition core_has_peer (peer_id : string) : M core_t bool :=
  let! peer := lift (canonical peer_id) in
  core_require ;;
  let! co := get in
  ret (bool_decide (peer ∈ co_peers co)).

Definition core_peer_count : M core_t nat :=
  core_require ;;
  let! co := get in
  ret (size (co_peers co)).

(** ** Events *)

Definition on_event (l : listener) : M st unit :=
  modify (λ s, s <| _event_listeners ::= λ ls, ls ++ [l] |>).

(** [f"{peer}/{name}"] *)
Definition remote_label (peer name : string) : string := peer +:+ "/" +:+ name.

(** The tasks created for the links a dropped peer leaves dangling. *)
Definition noconnection_exits (peer : string) (lk : gmap string (gset target)) : list job :=
  map_to_list lk ≫= λ '(name, targets),
    (λ t, JDeliverExit (remote_label peer t.2) name "noconnection") <$>
      elements (filter (λ t : target, t.1 = Some peer) targets).

(** And for the monitors of its actors. *)
Definition noconnection_downs (peer : string) (mon : gmap string (string * target)) : list job :=
  map_to_list mon ≫= λ '(ref, (_, (peer_id, name))),
    if bool_decide (peer_id = Some peer)
    then [JDeliverDown ref (remote_label peer name) "noconnection"] else [].

Definition settle_future (f : future) (s : st) (i : fid) : st :=
  s <| futures ::= alter (λ x, if bool_decide (x = FPending) then f else x) i |>.

(** The first half of [_on_core_event]: what the node itself does. *)
Definition core_event_effect (ev : event) (s : st) : st :=
  match ev with
  | EvPeerConnected peer =>
      foldl (settle_future FResult) s (default [] (_peer_waiters s !! peer))
  | EvPeerDisconnected peer =>
      s <| jobs ::= λ l, l ++ noconnection_exits peer (_links s)
                           ++ noconnection_downs peer (_monitors s) |>
        <| _links ::= fmap (filter (λ t : target, t.1 ≠ Some peer)) |>
        <| _monitor_watchers ::= fmap (filter (λ kv : string * target, kv.2.1 ≠ Some peer)) |>
  | _ => s
  end.

(** The whole of it: then every listener, each one shielded. *)
Definition _on_core_event (ev : event) : M st unit :=
  modify (core_event_effect ev) ;;
  let! s := get in
  for_each (_event_listeners s) (λ l, try_except (run_listener l ev) (λ _, ret tt)).

#[global] Arguments _on_core_event : simpl never.
#[global] Arguments with_core : simpl never.

Section node.
Context {codec : PayloadCodec}.

(** ** Registration *)

Definition register_actor (name : string) (mailbox : qid) : M st unit :=
  let! s := get in
  match _core s with
  | None => raise not_started
  | Some _ =>
      let set_it := modify (λ s, s <| _mailboxes ::= <[name := mailbox]> |>) ;;
                    with_core (core_register_actor name) in
      match _mailboxes s !! name with
      | Some existing =>
          if bool_decide (existing ≠ mailbox)
          then raise (ValueError ("actor name " +:+ py_repr name +:+ " is already registered on this node"))
          else set_it
      | None => set_it
      end
  end.

Definition unregister_actor (name : string) : M st unit :=
  modify (λ s, s <| _mailboxes ::= delete name |>) ;;
  let! s := get in
  match _core s with
  | None => ret tt
  | Some _ => with_core (core_unregister_actor name)
  end.

(** [mailbox.put_nowait(item)]: [false] for [QueueFull]. *)
Definition mailbox_put (q : qid) (item : envelope) : M st bool :=
  λ s, match queues s !! q with
       | None => (inr false, s)
       | Some qu => match put_nowait item qu with
                    | None => (inr false, s)
                    | Some qu' => (inr true, s <| queues ::= <[q := qu']> |>)
                    end
       end.

(** The [callback] closure [register_actor] hands to the core: an inbound
    payload for actor [name]. *)
Definition deliver_callback (name : string) (mailbox : qid) (payload : pyval)
    (meta : message_meta) : M st unit :=
  match decode_payload payload with
  | inl exc => _on_core_event (EvDecodeError name (exn_detail exc))
  | inr decoded =>
      let! ok := mailbox_put mailbox (decoded, meta) in
      if ok then ret tt
      else
        _on_core_event (EvMailboxFull name) ;;
        with_core (core_notify_peer_error (default "" (src meta))
                     ("mailbox_full:" +:+ name) (correlation_id meta))
  end.

(** ** Sending *)

Definition _send_local (name : string) (msg : pyval) (reply : option string)
    (corr : option Z) : M st unit :=
  let! s := get in
  match _mailboxes s !! name with
  | None => raise (ValueError ("no local actor named " +:+ py_repr name))
  | Some mailbox =>
      let meta := MessageMeta (Some (local_id s)) reply corr None in
      let! ok := mailbox_put mailbox (msg, meta) in
      if ok then ret tt else _on_core_event (EvMailboxFull name)
  end.

Definition _send_remote (peer_id actor_name : string) (msg : pyval)
    (reply : option string) (corr : option Z) : M st unit :=
  let! s := get in
  match _core s with
  | None => raise not_started
  | Some _ =>
      match encode_payload msg with
      | inl e => raise e
      | inr payload => with_core (core_send_data peer_id actor_name payload reply corr)
      end
  end.

(** [get_remote_actor(peer, name).send(msg)] wrapped in
    [try ... except Exception: pass]. *)
Definition send_best_effort (peer_id actor_name : string) (msg : pyval) : M st unit :=
  try_except (_send_remote peer_id actor_name msg None None) (λ _, ret tt).

(** ** Exit signals of links *)

Definition LINK_ACTOR : string := "__lapinbeam_link__".
Definition MONITOR_ACTOR : string := "__lapinbeam_monitor__".

Definition ExitMsg (actor reason : string) : pyval :=
  PObj "lapinbeam.links.Exit" [("actor", PStr actor); ("reason", PStr reason)].

Definition DownMsg (ref actor reason : string) : pyval :=
  PObj "lapinbeam.monitors.Down" [("ref", PStr ref); ("actor", PStr actor); ("reason", PStr reason)].

Definition link_exit_exn (from_label reason : string) : exn :=
  RuntimeError ("linked actor " +:+ py_repr from_label +:+ " exited: " +:+ reason).

Definition _deliver_exit (from_label target_name reason : string) : M st unit :=
  let! s := get in
  if default false (_trap_exit s !! target_name) then
    if bool_decide (is_Some (_mailboxes s !! target_name))
    then _send_local target_name (ExitMsg from_label reason) None None
    else ret tt
  else
    match _live_children s !! target_name with
    | None => ret tt
    | Some c =>
        match children s !! c ≫= ch_driver with
        | None => ret tt
        | Some t =>
            if task_done s t then ret tt
            else
              modify (λ s, s <| children ::= alter (λ ch, ch <| ch_pending_exit :=
                                  Some (link_exit_exn from_label reason) |>) c |>) ;;
              cancel t
        end
    end.

(** Clears and returns the links of a generation that ended. *)
Definition _clear_links (name : string) : M st (option (gset target)) :=
  modify (λ s, s <| _trap_exit ::= delete name |>) ;;
  let! s := get in
  modify (λ s, s <| _links ::= delete name |>) ;;
  ret (_links s !! name).

Definition _notify_links (actor_name : string) (targets : option (gset target))
    (reason : string) : M st unit :=
  for_each (elements (default ∅ targets)) (λ t,
    match t with
    | (None, target_name) => create_job (JDeliverExit actor_name target_name reason)
    | (Some peer_id, target_name) => create_job (JNotifyRemoteExit peer_id target_name actor_name reason)
    end).

Definition exit_message (to actor reason from_node : string) : pyval :=
  PDict [("op", PStr "exit"); ("to", PStr to); ("actor", PStr actor);
         ("reason", PStr reason); ("from_node", PStr from_node)].

Definition _notify_remote_exit (peer_id target_name actor_name reason : string) : M st unit :=
  let! s := get in
  send_best_effort peer_id LINK_ACTOR (exit_message target_name actor_name reason (local_id s)).

(** ** Down signals of monitors *)

Definition _deliver_down (ref actor_label reason : string) : M st unit :=
  let! s := get in
  modify (λ s, s <| _monitors ::= delete ref |>) ;;
  match _monitors s !! ref with
  | None => ret tt
  | Some (watcher_name, _) =>
      if bool_decide (is_Some (_mailboxes s !! watcher_name))
      then _send_local watcher_name (DownMsg ref actor_label reason) None None
      else ret tt
  end.

Definition _clear_monitors (name : string) : M st (option (gmap string target)) :=
  let! s := get in
  modify (λ s, s <| _monitor_watchers ::= delete name |>) ;;
  ret (_monitor_watchers s !! name).

Definition _notify_monitors (actor_name : string) (watchers : option (gmap string target))
    (reason : string) : M st unit :=
  for_each (map_to_list (default ∅ watchers)) (λ w,
    match w with
    | (ref, (None, _)) => create_job (JDeliverDown ref actor_name reason)
    | (ref, (Some watcher_node, _)) => create_job (JNotifyRemoteDown watcher_node ref actor_name reason)
    end).

Definition down_message (ref actor reason from_node : string) : pyval :=
  PDict [("op", PStr "down"); ("ref", PStr ref); ("actor", PStr actor);
         ("reason", PStr reason); ("from_node", PStr from_node)].

Definition _notify_remote_down (peer_id ref actor_name reason : string) : M st unit :=
  let! s := get in
  send_best_effort peer_id MONITOR_ACTOR (down_message ref actor_name reason (local_id s)).

(** ** Group membership and names of a generation that ended *)

Definition groups_of (s : st) (m : member) : list string :=
  (filter (λ gm : string * gset member, m ∈ gm.2) (map_to_list (_groups s))).*1.

Definition _clear_groups (name : string) : M st (list string) :=
  let! s := get in
  let tgt := (local_id s, name) in
  let left := groups_of s tgt in
  for_each left (λ group,
    modify (λ s, s <| _groups ::= alter (λ ms, ms ∖ {[tgt]}) group |>) ;;
    if _group_leave_hook s then group_leave_hook group name else ret tt) ;;
  ret left.

Definition names_of (s : st) (m : member) : list string :=
  (filter (λ nm : string * member, nm.2 = m) (map_to_list (_registry s))).*1.

Definition _clear_registry (name : string) : M st (list string) :=
  let! s := get in
  let released := names_of s (local_id s, name) in
  for_each released (λ name_,
    modify (λ s, s <| _registry ::= delete name_ |>) ;;
    if _registry_release_hook s then registry_release_hook name_ name else ret tt) ;;
  ret released.

(** ** Peers *)

Definition has_peer (peer_id : string) : M st bool :=
  let! s := get in
  match _core s with
  | None => ret false
  | Some _ => with_core (core_has_peer peer_id)
  end.

Definition peer_count : M st nat :=
  let! s := get in
  match _core s with
  | None => ret 0
  | Some _ => with_core core_peer_count
  end.

Definition forget_peer (peer_id : string) : M st unit :=
  let! s := get in
  match _core s with
  | None => raise not_started
  | Some _ => with_core (core_forget_peer peer_id)
  end.

(** [connect_peer] up to its [await]: the future it waits on, or [None] when
    it returns at once.  The waiter is kept under the id as it was given,
    whatever the core makes of it.  The core connects on threads of its own, so the
    second [has_peer] may see what the first did not: [connected_since]. *)
Definition remove_waiter (peer_id : string) (i : fid) : M st unit :=
  modify (λ s,
    match _peer_waiters s !! peer_id with
    | Some ws =>
        if bool_decide (i ∈ ws) then
          let ws' := filter (λ x, x ≠ i) ws in
          s <| _peer_waiters ::= (if bool_decide (ws' = []) then delete peer_id else <[peer_id := ws']>) |>
        else s
    | None => s
    end).

Definition connect_peer_begin (peer_id : string) (connected_since : bool) : M st (option fid) :=
  let! s := get in
  match _core s with
  | None => raise not_started
  | Some _ =>
      with_core (core_connect_peer peer_id) ;;
      let! connected := with_core (core_has_peer peer_id) in
      if (connected : bool) then ret None
      else
        let! i := alloc in
        modify (λ s, s <| futures ::= <[i := FPending]> |>
                       <| _peer_waiters ::= λ w, <[peer_id := default [] (w !! peer_id) ++ [i]]> w |>) ;;
        if connected_since then remove_waiter peer_id i ;; ret None
        else ret (Some i)
  end.

(** The rest, once the future settled or the timeout passed. *)
Definition connect_peer_end (peer_id : string) (i : fid) : M st unit :=
  let! s := get in
  remove_waiter peer_id i ;;
  match futures s !! i with
  | Some FResult => ret tt
  | Some (FExn e) => raise e
  | _ => raise (Exn "ConnectionError" ("failed to connect to peer " +:+ py_repr peer_id))
  end.

(** ** Start and stop *)

(** [start]: [bound] is what constructing and starting the core gives: an
    exception of its constructor, one of its [start()], or the bound id. *)
Inductive core_start := CtorFails (e : exn) | StartFails (e : exn) | Bound (id : string).

Definition fresh_core (id : string) (running : bool) (refuses : string → pyval → option exn) : core_t :=
  Core id running ∅ ∅ [] [] 1 refuses.

Definition start (bound : core_start) (refuses : string → pyval → option exn) : M st unit :=
  let! s := get in
  if _started s then ret tt
  else
    match bound with
    | CtorFails e => raise e
    | StartFails e =>
        modify (λ s, s <| _core := Some (fresh_core (node_id s) false refuses) |>) ;; raise e
    | Bound id =>
        modify (λ s, s <| _core := Some (fresh_core id true refuses) |>
                       <| node_id := id |> <| _stopped := Some false |> <| _started := true |>)
    end.

(** Whether [wait_until_stopped] returns: without an event it does at once,
    else when the event is set. *)
Definition wait_until_stopped (s : st) : bool := default true (_stopped s).

(** [_register_task]; the done callback is part of [finish]. *)
Definition _register_task (t : tid) : M st unit :=
  modify (λ s, s <| _actor_tasks ::= union {[t]} |>).

(** [stop] up to its [await gather(...)]: the tasks it waits for. *)
Definition stop_begin : M st (list tid) :=
  let! s := get in
  let ts := elements (_actor_tasks s) in
  for_each ts cancel ;; ret ts.

(** And the rest. *)
Definition node_stopped_exn : exn := Exn "ConnectionError" "node stopped while connecting".

Definition stop_end : M st unit :=
  modify (λ s,
    let s := s <| _core := None |> <| _mailboxes := ∅ |> <| _started := false |> in
    let waiting := (map_to_list (_peer_waiters s)).*2 ≫= id in
    let s := foldl (settle_future (FExn node_stopped_exn)) s waiting in
    s <| _peer_waiters := ∅ |> <| _stopped ::= fmap (λ _, true) |>).

End node.

#[global] Arguments register_actor : simpl never.
#[global] Arguments unregister_actor : simpl never.
#[global] Arguments mailbox_put : simpl never.
#[global] Arguments _send_local : simpl never.
#[global] Arguments _send_remote : simpl never.
#[global] Arguments send_best_effort : simpl never.
#[global] Arguments _deliver_exit : simpl never.
#[global] Arguments _clear_links : simpl never.
#[global] Arguments _clear_monitors : simpl never.
#[global] Arguments _clear_groups : simpl never.
#[global] Arguments _clear_registry : simpl never.
#[global] Arguments _notify_links : simpl never.
#[global] Arguments _notify_monitors : simpl never.
#[global] Arguments _deliver_down : simpl never.
