(* ===== verification/NodeProps.v ===== *)
(** * Properties of the node

    Closed forms of the operations of [Node.v], and what follows from them:
    listeners cannot disturb the code that reports an event, names are never
    stolen by a second registration, bounded mailboxes stay within their
    bound, a dropped peer is signalled exactly once per link and monitor, and
    a generation that ended leaves no membership behind. *)

From S2P Require Import Prelude Values NodeId Actors State PeerEvents Asyncio Node.

(** ** Listeners *)

Definition user_reports (ls : list listener) (ev : event) : list (nat * event) :=
  ls ≫= λ l, match l with LUser id _ => [(id, ev)] | _ => [] end.

Lemma run_listener_reported l ev s :
  reported (exec (run_listener l ev) s) = reported s ++ user_reports [l] ev.
Proof.
  destruct l as [| | |id []]; simpl; rewrite ?app_nil_r; try done;
    destruct ev; simpl; rewrite ?app_nil_r; done.
Qed.

Lemma run_listeners_total ls ev : ∀ s,
  ∃ s', for_each ls (λ l, try_except (run_listener l ev) (λ _, ret tt)) s = (inr tt, s') ∧
        reported s' = reported s ++ user_reports ls ev.
Proof.
  induction ls as [|l ls IH]; intros s; simpl.
  { eexists; split; [done|]. by rewrite app_nil_r. }
  pose proof (run_listener_reported l ev s) as Hr. simpl in Hr. rewrite app_nil_r in Hr.
  destruct (run_listener l ev s) as [[e|[]] s1]; simpl in *.
  all: destruct (IH s1) as (s' & -> & Hs'); eexists; split; [done|]; rewrite Hs' Hr -app_assoc //.
Qed.

Lemma settle_futures_reported f is_ : ∀ s,
  reported (foldl (settle_future f) s is_) = reported s ∧
  _event_listeners (foldl (settle_future f) s is_) = _event_listeners s.
Proof. induction is_ as [|i is_ IH]; intros s; simpl; [done|]. apply (IH (settle_future f s i)). Qed.

Lemma core_event_effect_reported ev s :
  reported (core_event_effect ev s) = reported s ∧
  _event_listeners (core_event_effect ev s) = _event_listeners s.
Proof. destruct ev; simpl; try done. apply settle_futures_reported. Qed.

Lemma on_core_event_spec ev s :
  outcome_of (_on_core_event ev) s = inr tt ∧
  reported (exec (_on_core_event ev) s) = reported s ++ user_reports (_event_listeners s) ev.
Proof.
  unfold _on_core_event; simpl.
  destruct (core_event_effect_reported ev s) as [Hr Hl].
  destruct (run_listeners_total (_event_listeners (core_event_effect ev s)) ev (core_event_effect ev s))
    as (s' & -> & Hs'). simpl. by rewrite Hs' Hr Hl.
Qed.

(** Reporting an event never raises, whatever the application's
    listeners do: every one of them is called exactly once, in registration
    order, also after another one raised. *)
Theorem on_core_event_shielded ev s :
  outcome_of (_on_core_event ev) s = inr tt ∧
  reported (exec (_on_core_event ev) s) = reported s ++ user_reports (_event_listeners s) ev.
Proof. apply on_core_event_spec. Qed.

Lemma on_core_event_total ev s : ∃ s', _on_core_event ev s = (inr tt, s').
Proof.
  pose proof (on_core_event_spec ev s) as [Ho _]. simpl in Ho.
  destruct (_on_core_event ev s) as [r s']. simpl in Ho. subst. eauto.
Qed.

(** What reporting an event leaves alone: everything but the fields the
    library's own listeners and the node's cascade own. *)
Record event_frame (s s' : st) : Prop := {
  ef_queues : queues s' = queues s;
  ef_mailboxes : _mailboxes s' = _mailboxes s;
  ef_children : children s' = children s;
  ef_sups : sups s' = sups s;
  ef_tasks : tasks s' = tasks s;
  ef_next : next_id s' = next_id s;
  ef_core : _core s' = _core s;
  ef_live : _live_children s' = _live_children s;
  ef_trap : _trap_exit s' = _trap_exit s;
  ef_monitors : _monitors s' = _monitors s;
  ef_node_id : node_id s' = node_id s;
  ef_cap : mailbox_capacity s' = mailbox_capacity s;
  ef_actor_tasks : _actor_tasks s' = _actor_tasks s
}.

#[export] Instance event_frame_preorder : PreOrder event_frame.
Proof.
  split.
  - intros s. by constructor.
  - intros s1 s2 s3 [] []. constructor; congruence.
Qed.

Lemma settle_futures_frame f is_ : ∀ s, event_frame s (foldl (settle_future f) s is_).
Proof.
  induction is_ as [|i is_ IH]; intros s; simpl; [done|].
  etrans; [|apply (IH (settle_future f s i))]. by constructor.
Qed.

Lemma core_event_effect_frame ev s : event_frame s (core_event_effect ev s).
Proof. destruct ev; simpl; try done. apply settle_futures_frame. Qed.

Lemma run_listener_frame l ev s : event_frame s (exec (run_listener l ev) s).
Proof.
  destruct l as [| | |id []]; try by constructor.
  all: destruct ev; by constructor.
Qed.

Lemma on_core_event_frame ev s : event_frame s (exec (_on_core_event ev) s).
Proof.
  unfold _on_core_event; simpl.
  etrans; [apply (core_event_effect_frame ev)|].
  apply (for_each_invariant (event_frame (core_event_effect ev s))); [|done].
  intros l s1 H1. etrans; [exact H1|]. pose proof (run_listener_frame l ev s1) as Hf.
  simpl in *. by destruct (run_listener l ev s1) as [[]].
Qed.

(** An event that is not about a peer only reaches the application. *)
Definition quiet (ev : event) : bool :=
  match ev with EvPeerConnected _ | EvPeerDisconnected _ => false | _ => true end.

Lemma quiet_event ev s :
  quiet ev = true →
  _on_core_event ev s = (inr tt, s <| reported ::= λ l, l ++ user_reports (_event_listeners s) ev |>).
Proof.
  intros Hq.
  assert (∀ ls s, for_each ls (λ l, try_except (run_listener l ev) (λ _, ret tt)) s =
    (inr tt, s <| reported ::= λ l, l ++ user_reports ls ev |>)) as H.
  { induction ls as [|l ls IH]; intros s0; simpl; [rewrite app_nil_r; by destruct s0|].
    destruct l as [| | |id []], ev; simpl; try done; rewrite IH //=; by rewrite -app_assoc. }
  unfold _on_core_event; simpl. destruct ev; try done; apply H.
Qed.

(** ** A dropped peer *)

(** The links and monitors of [s] that point at [peer]. *)
Definition linked_to (s : st) (name peer actor : string) : Prop :=
  ∃ ts, _links s !! name = Some ts ∧ (Some peer, actor) ∈ ts.

Lemma elem_of_noconnection_exits peer lk j :
  j ∈ noconnection_exits peer lk ↔
  ∃ name ts actor, lk !! name = Some ts ∧ (Some peer, actor) ∈ ts ∧
    j = JDeliverExit (remote_label peer actor) name "noconnection".
Proof.
  unfold noconnection_exits. rewrite list_elem_of_bind. split.
  - intros ([name ts] & (t & -> & Ht)%list_elem_of_fmap & Hin).
    apply elem_of_elements, elem_of_filter in Ht as [Hp Ht]. destruct t as [p a]; simpl in *; subst.
    apply elem_of_map_to_list in Hin. naive_solver.
  - intros (name & ts & actor & Hl & Hin & ->). exists (name, ts). split.
    + apply list_elem_of_fmap. exists (Some peer, actor). split; [done|].
      by apply elem_of_elements, elem_of_filter.
    + by apply elem_of_map_to_list.
Qed.

Lemma elem_of_noconnection_downs peer mon j :
  j ∈ noconnection_downs peer mon ↔
  ∃ ref w name, mon !! ref = Some (w, (Some peer, name)) ∧
    j = JDeliverDown ref (remote_label peer name) "noconnection".
Proof.
  unfold noconnection_downs. rewrite list_elem_of_bind. split.
  - intros ((ref & w & p & name) & Hj & Hin). apply elem_of_map_to_list in Hin.
    case_bool_decide; [|set_solver]. apply list_elem_of_singleton in Hj. naive_solver.
  - intros (ref & w & name & Hm & ->). exists (ref, (w, (Some peer, name))). split.
    + rewrite bool_decide_eq_true_2 //. by apply list_elem_of_singleton.
    + by apply elem_of_map_to_list.
Qed.

#[export] Instance remote_label_inj peer : Inj (=) (=) (remote_label peer).
Proof. intros a b H. unfold remote_label in H. by do 2 apply (inj (String.append _)) in H. Qed.

Lemma noconnection_exits_NoDup peer lk : NoDup (noconnection_exits peer lk).
Proof.
  unfold noconnection_exits. apply NoDup_bind; [| |apply NoDup_map_to_list].
  - intros [n1 ts1] [n2 ts2] j H1%elem_of_map_to_list H2%elem_of_map_to_list
      (? & -> & _)%list_elem_of_fmap (? & ? & _)%list_elem_of_fmap. naive_solver.
  - intros [n ts] _. apply NoDup_fmap_2_strong; [|apply NoDup_elements].
    intros [p1 a1] [p2 a2] [? _]%elem_of_elements%elem_of_filter [? _]%elem_of_elements%elem_of_filter
      [= ?%(inj (remote_label _))]. naive_solver.
Qed.

Lemma noconnection_downs_NoDup peer mon : NoDup (noconnection_downs peer mon).
Proof.
  unfold noconnection_downs. apply NoDup_bind; [| |apply NoDup_map_to_list].
  - intros (r1 & w1 & p1 & n1) (r2 & w2 & p2 & n2) j
      H1%elem_of_map_to_list H2%elem_of_map_to_list Hj1 Hj2.
    do 2 case_bool_decide; set_solver.
  - intros (r1 & w1 & p1 & n1) _. case_bool_decide; [apply NoDup_singleton|constructor].
Qed.

Lemma noconnection_disjoint peer lk mon j :
  j ∈ noconnection_exits peer lk → j ∉ noconnection_downs peer mon.
Proof. rewrite elem_of_noconnection_exits elem_of_noconnection_downs. naive_solver. Qed.

(** When a peer drops off, the node schedules one exit signal with
    reason ["noconnection"] for every link of a local actor to an actor of
    that peer, one [Down] for every monitor of one, and nothing else; no link
    to the peer and no watcher on the peer is left, and every other link and
    watcher stays. *)
Theorem peer_disconnected_cascade peer s :
  let s' := core_event_effect (EvPeerDisconnected peer) s in
  (∃ new, jobs s' = jobs s ++ new ∧ NoDup new ∧
     ∀ j, j ∈ new ↔
       (∃ name actor, linked_to s name peer actor ∧
          j = JDeliverExit (remote_label peer actor) name "noconnection") ∨
       (∃ ref w name, _monitors s !! ref = Some (w, (Some peer, name)) ∧
          j = JDeliverDown ref (remote_label peer name) "noconnection")) ∧
  (∀ name t, (∃ ts, _links s' !! name = Some ts ∧ t ∈ ts) ↔
             (∃ ts, _links s !! name = Some ts ∧ t ∈ ts) ∧ t.1 ≠ Some peer) ∧
  (∀ name ref w, (∃ ws, _monitor_watchers s' !! name = Some ws ∧ ws !! ref = Some w) ↔
                 (∃ ws, _monitor_watchers s !! name = Some ws ∧ ws !! ref = Some w) ∧ w.1 ≠ Some peer).
Proof.
  simpl. split_and!.
  - eexists; split; [done|]. split.
    { apply list.NoDup_app. split_and!; eauto using noconnection_exits_NoDup, noconnection_downs_NoDup,
        noconnection_disjoint. }
    intros j. rewrite elem_of_app elem_of_noconnection_exits
      elem_of_noconnection_downs /linked_to. naive_solver.
  - intros name t. rewrite lookup_fmap. split.
    + intros (ts & Hts & Hin). apply fmap_Some in Hts as (ts0 & Hl & ->).
      apply elem_of_filter in Hin. naive_solver.
    + intros [(ts & Hl & Hin) Hne]. rewrite Hl /=. eexists; split; [done|].
      by apply elem_of_filter.
  - intros name ref w. rewrite lookup_fmap. split.
    + intros (ws & Hws & Hin). apply fmap_Some in Hws as (ws0 & Hl & ->).
      apply map_lookup_filter_Some in Hin. naive_solver.
    + intros [(ws & Hl & Hin) Hne]. rewrite Hl /=. eexists; split; [done|].
      by apply map_lookup_filter_Some.
Qed.

Section node_props.
Context {codec : PayloadCodec}.

(** ** Names *)

Lemma with_core_run {A} (m : M core_t A) s co :
  _core s = Some co → with_core m s = ((m co).1, s <| _core := Some (m co).2 |>).
Proof. intros H. unfold with_core. rewrite H. by destruct (m co). Qed.

(** On a started node, [register_actor] either succeeds, and then the
    name resolves to the given mailbox both locally and in the core, with
    every other name untouched; or the name belongs to a different mailbox,
    and then it raises [ValueError] and changes nothing: mail is never
    silently redirected to a second actor. *)
Theorem register_actor_unique name q s co :
  _core s = Some co → co_running co = true →
  let r := register_actor name q s in
  match _mailboxes s !! name with
  | Some q' =>
      if bool_decide (q' = q)
      then r.1 = inr tt ∧ _mailboxes r.2 = _mailboxes s
      else r = (inl (ValueError ("actor name " +:+ py_repr name +:+ " is already registered on this node")), s)
  | None =>
      r.1 = inr tt ∧ _mailboxes r.2 = <[name := q]> (_mailboxes s) ∧
      _core r.2 = Some (co <| co_routing ::= union {[name]} |>) ∧ queues r.2 = queues s
  end.
Proof.
  intros Hco Hrun. unfold register_actor. cbn [bind get]. rewrite Hco.
  destruct (_mailboxes s !! name) as [q'|] eqn:E.
  - destruct (decide (q' = q)) as [->|Hne].
    + rewrite (bool_decide_eq_true_2 (q = q)) // (bool_decide_eq_false_2 (q ≠ q)); [by intros []|].
      cbn [bind modify]. rewrite (with_core_run _ _ co) // /core_register_actor /core_require /= Hrun /=. by rewrite insert_id.
    + by rewrite (bool_decide_eq_false_2 (q' = q)) // (bool_decide_eq_true_2 (q' ≠ q)).
  - cbn [bind modify]. rewrite (with_core_run _ _ co) // /core_register_actor /core_require /= Hrun /=. by rewrite -Hrun.
Qed.

(** A started node. *)
Definition running (s : st) : Prop := ∃ co, _core s = Some co ∧ co_running co = true.

Lemma unregister_actor_spec name s :
  running s →
  unregister_actor name s =
  (inr tt, s <| _mailboxes ::= delete name |>
             <| _core ::= fmap (λ co, co <| co_routing ::= λ r, r ∖ {[name]} |>) |>).
Proof.
  intros (co & Hco & Hrun). unfold unregister_actor; simpl. rewrite Hco.
  rewrite (with_core_run _ _ co) //= /core_unregister_actor /core_require /= Hrun /=.
  by rewrite -Hrun.
Qed.

Lemma register_actor_ok name q s :
  running s → _mailboxes s !! name = None ∨ _mailboxes s !! name = Some q →
  register_actor name q s =
  (inr tt, s <| _mailboxes ::= <[name := q]> |>
             <| _core ::= fmap (λ co, co <| co_routing ::= union {[name]} |>) |>).
Proof.
  intros (co & Hco & Hrun) Hm. unfold register_actor; simpl. rewrite Hco.
  destruct Hm as [Hm|Hm]; rewrite Hm; [|rewrite bool_decide_eq_false_2; [by intros []|]];
    rewrite /= (with_core_run _ _ co) //= /core_register_actor /core_require /= Hrun /=;
    by rewrite -Hrun.
Qed.

(** ** Bounded mailboxes *)

Definition queue_bounded {A} (q : queue A) : Prop :=
  q_maxsize q = 0 ∨ length (q_items q) ≤ q_maxsize q.
Definition queues_bounded (s : st) : Prop := map_Forall (λ _, queue_bounded) (queues s).

Lemma mailbox_put_bounded q it s : queues_bounded s → queues_bounded (exec (mailbox_put q it) s).
Proof.
  intros Hb. simpl. unfold mailbox_put. destruct (queues s !! q) as [qu|] eqn:E; [|done].
  destruct (put_nowait it qu) as [qu'|] eqn:E2; [|done]. simpl.
  apply map_Forall_insert_2; [|done]. pose proof (put_nowait_Some _ _ _ E2) as [_ Hm].
  destruct (decide (q_maxsize qu = 0)); [left; congruence|right].
  eauto using put_nowait_bound.
Qed.

(** The delivery of one message, from either side: it is appended to the
    mailbox when there is room; otherwise it is dropped, the mailbox is as
    it was, and [mailbox_full] is reported. *)
Lemma send_local_spec name msg rt corr s q qu :
  _mailboxes s !! name = Some q → queues s !! q = Some qu →
  let it := (msg, MessageMeta (Some (local_id s)) rt corr None) in
  _send_local name msg rt corr s =
    match put_nowait it qu with
    | Some qu' => (inr tt, s <| queues ::= <[q := qu']> |>)
    | None => _on_core_event (EvMailboxFull name) s
    end.
Proof.
  intros Hm Hq. unfold _send_local. cbn [bind get]. rewrite Hm. unfold mailbox_put. simpl.
  rewrite Hq. by destruct (put_nowait _ qu).
Qed.

(** A local send to a registered actor always returns normally.  With
    room in the mailbox the message is appended behind the ones already
    there and no other mailbox changes; without room the message is dropped,
    no mailbox changes, and every application listener gets one
    [mailbox_full] event. An unknown name raises [ValueError] and changes
    nothing. *)
Theorem send_local_behaviour name msg rt corr s :
  (∀ q, _mailboxes s !! name = Some q → is_Some (queues s !! q)) →
  match _mailboxes s !! name with
  | None =>
      _send_local name msg rt corr s =
        (inl (ValueError ("no local actor named " +:+ py_repr name)), s)
  | Some q =>
      ∃ s', _send_local name msg rt corr s = (inr tt, s') ∧
      match queues s !! q with
      | None => False
      | Some qu =>
          if q_full qu
          then queues s' = queues s ∧
               reported s' = reported s ++ user_reports (_event_listeners s) (EvMailboxFull name)
          else queues s' = <[q := qu <| q_items ::= λ l,
                   l ++ [(msg, MessageMeta (Some (local_id s)) rt corr None)] |>]> (queues s) ∧
               reported s' = reported s
      end
  end.
Proof.
  intros Hheap. destruct (_mailboxes s !! name) as [q|] eqn:Hm.
  - destruct (Hheap q eq_refl) as [qu Hq]. rewrite (send_local_spec _ _ _ _ _ q qu) // Hq.
    unfold put_nowait. destruct (q_full qu); [|by eexists].
    destruct (on_core_event_spec (EvMailboxFull name) s) as [Ho Hr].
    pose proof (on_core_event_frame (EvMailboxFull name) s) as Hf. simpl in Ho, Hr, Hf.
    destruct (_on_core_event _ s) as [r s']; simpl in *; subst.
    eexists; split; [done|]. split; [apply Hf|done].
  - unfold _send_local. cbn [bind get]. by rewrite Hm.
Qed.

Lemma with_core_queues {A} (m : M core_t A) s : queues (exec (with_core m) s) = queues s.
Proof. simpl. unfold with_core. destruct (_core s); [|done]. by destruct (m c). Qed.

(** ** Down signals are delivered at most once *)

Lemma send_local_monitors name msg rt corr s :
  _monitors (exec (_send_local name msg rt corr) s) = _monitors s.
Proof.
  unfold _send_local; simpl. destruct (_mailboxes s !! name) as [q|]; [|done].
  unfold mailbox_put; simpl.
  destruct (queues s !! q) as [qu|]; [destruct (put_nowait _ qu)|]; simpl; try done;
    apply (ef_monitors _ _ (on_core_event_frame (EvMailboxFull name) s)).
Qed.

(** After a [Down] signal for [ref] was processed the monitor is
    forgotten, so that a second one for the same [ref] (a late remote
    notification after a ["noconnection"], say) changes nothing at all. *)
Theorem deliver_down_at_most_once ref l1 r1 l2 r2 s :
  let s1 := exec (_deliver_down ref l1 r1) s in
  _monitors s1 = delete ref (_monitors s) ∧
  _deliver_down ref l2 r2 s1 = (inr tt, s1).
Proof.
  assert (_monitors (exec (_deliver_down ref l1 r1) s) = delete ref (_monitors s)) as H1.
  { unfold _deliver_down; simpl. destruct (_monitors s !! ref) as [[w t]|]; [|done].
    case_bool_decide; [|done]. by rewrite (send_local_monitors w). }
  split; [done|]. set (s1 := exec _ s) in *. clearbody s1.
  assert (delete ref (_monitors s1) = _monitors s1) as Hd by by rewrite H1 delete_delete_eq.
  assert (_monitors s1 !! ref = None) as Hn by by rewrite H1 lookup_delete_eq.
  unfold _deliver_down; simpl. rewrite Hn. f_equal. destruct s1; simpl in *. by rewrite Hd.
Qed.

(** ** Memberships and names of a generation that ended *)

Definition leave_jobs (s : st) (tgt : member) (gs : list string) : list job :=
  if _group_leave_hook s
  then gs ≫= λ g, delta_jobs (_group_peers s) (λ p, JGroupDelta p g tgt VRemove) else [].

Definition release_jobs (s : st) (o : member) (ns : list string) : list job :=
  if _registry_release_hook s
  then ns ≫= λ n, delta_jobs (_registry_peers s) (λ p, JRegistryDelta p n o VRemove) else [].

Lemma clear_groups_loop hook tgt name gs : ∀ s,
  tgt = (local_id s, name) →
  for_each gs (λ group,
    modify (λ s, s <| _groups ::= alter (λ ms, ms ∖ {[tgt]}) group |>) ;;
    if hook : bool then group_leave_hook group name else ret tt) s =
  (inr tt, s <| _groups ::= λ gm, foldl (λ gm g, alter (λ ms, ms ∖ {[tgt]}) g gm) gm gs |>
             <| jobs ::= λ js, js ++ (if hook then gs ≫= λ g, delta_jobs (_group_peers s)
                                          (λ p, JGroupDelta p g tgt VRemove) else []) |>).
Proof.
  induction gs as [|g gs IH]; intros s Ht; simpl.
  { destruct hook; rewrite app_nil_r; by destruct s. }
  destruct hook; simpl.
  - unfold group_leave_hook. cbn [bind get]. rewrite group_broadcast_spec /= IH //=.
    rewrite -!app_assoc. by rewrite Ht.
  - by rewrite IH.
Qed.

Lemma foldl_alter_remove (tgt : member) gs : ∀ (gm : gmap string (gset member)) k,
  foldl (λ gm g, alter (λ ms, ms ∖ {[tgt]}) g gm) gm gs !! k =
  (if bool_decide (k ∈ gs) then (λ ms, ms ∖ {[tgt]}) <$> gm !! k else gm !! k).
Proof.
  induction gs as [|g gs IH]; intros gm k; simpl.
  { done. }
  rewrite IH lookup_alter. case_decide; subst.
  - rewrite (bool_decide_eq_true_2 (k ∈ k :: gs)); [set_solver|].
    case_bool_decide; [|done]. rewrite -option_fmap_compose. apply option_fmap_ext.
    intros ms. simpl. set_solver.
  - case_bool_decide; case_bool_decide; try done; set_solver.
Qed.

Lemma elem_of_groups_of s m g :
  g ∈ groups_of s m ↔ ∃ ms, _groups s !! g = Some ms ∧ m ∈ ms.
Proof.
  unfold groups_of. rewrite list_elem_of_fmap. split.
  - intros ([g' ms] & -> & [Hin Hl]%list_elem_of_filter).
    apply elem_of_map_to_list in Hl. eauto.
  - intros (ms & Hl & Hin). exists (g, ms). split; [done|].
    apply list_elem_of_filter. split; [done|]. by apply elem_of_map_to_list.
Qed.

Lemma clear_groups_spec name s :
  let tgt := (local_id s, name) in
  _clear_groups name s =
  (inr (groups_of s tgt),
   s <| _groups ::= fmap (λ ms, ms ∖ {[tgt]}) |>
     <| jobs ::= λ js, js ++ leave_jobs s tgt (groups_of s tgt) |>).
Proof.
  simpl. unfold _clear_groups. cbn [bind get].
  rewrite (clear_groups_loop (_group_leave_hook s) (local_id s, name) name) //=.
  do 2 f_equal. apply map_eq. intros k. rewrite foldl_alter_remove lookup_fmap.
  case_bool_decide as Hk; [done|]. destruct (_groups s !! k) as [ms|] eqn:E; simpl; [|done].
  f_equal. assert ((local_id s, name) ∉ ms); [|set_solver].
  intros Hin. apply Hk, elem_of_groups_of. eauto.
Qed.

Lemma clear_registry_loop hook o name ns : ∀ s,
  o = (local_id s, name) →
  for_each ns (λ n,
    modify (λ s, s <| _registry ::= delete n |>) ;;
    if hook : bool then registry_release_hook n name else ret tt) s =
  (inr tt, s <| _registry ::= λ rg, foldl (λ rg n, delete n rg) rg ns |>
             <| jobs ::= λ js, js ++ (if hook then ns ≫= λ n, delta_jobs (_registry_peers s)
                                          (λ p, JRegistryDelta p n o VRemove) else []) |>).
Proof.
  induction ns as [|n ns IH]; intros s Ht; simpl.
  { destruct hook; rewrite app_nil_r; by destruct s. }
  destruct hook; simpl.
  - unfold registry_release_hook. cbn [bind get]. rewrite registry_broadcast_spec /= IH //=.
    rewrite -!app_assoc. by rewrite Ht.
  - by rewrite IH.
Qed.

Lemma foldl_delete_lookup ns : ∀ (rg : gmap string member) k,
  foldl (λ rg n, delete n rg) rg ns !! k = if bool_decide (k ∈ ns) then None else rg !! k.
Proof.
  induction ns as [|n ns IH]; intros rg k; simpl.
  { done. }
  rewrite IH lookup_delete. case_decide; subst.
  - rewrite (bool_decide_eq_true_2 (k ∈ k :: ns)); [set_solver|]. by case_bool_decide.
  - case_bool_decide; case_bool_decide; try done; set_solver.
Qed.

Lemma elem_of_names_of s o n : n ∈ names_of s o ↔ _registry s !! n = Some o.
Proof.
  unfold names_of. rewrite list_elem_of_fmap. split.
  - intros ([n' o'] & -> & [Ho Hl]%list_elem_of_filter). simpl in *; subst.
    by apply elem_of_map_to_list.
  - intros Hl. exists (n, o). split; [done|].
    apply list_elem_of_filter. split; [done|]. by apply elem_of_map_to_list.
Qed.

Lemma clear_registry_spec name s :
  let o := (local_id s, name) in
  _clear_registry name s =
  (inr (names_of s o),
   s <| _registry ::= filter (λ kv : string * member, kv.2 ≠ o) |>
     <| jobs ::= λ js, js ++ release_jobs s o (names_of s o) |>).
Proof.
  simpl. unfold _clear_registry. cbn [bind get].
  rewrite (clear_registry_loop (_registry_release_hook s) (local_id s, name) name) //=.
  do 2 f_equal. apply map_eq. intros k. rewrite foldl_delete_lookup map_lookup_filter.
  case_bool_decide as Hk.
  - apply elem_of_names_of in Hk. rewrite Hk /=. case_guard; naive_solver.
  - destruct (_registry s !! k) as [o|] eqn:E; simpl; [|done]. case_guard as Hg; [done|].
    destruct Hk. apply elem_of_names_of. destruct (decide (o = (local_id s, name))); naive_solver.
Qed.

(** When a generation of a local actor ends, it is a member of no group
    and owns no name any more, every other membership and name stays, and
    each group it was in and each name it owned is announced to every peer
    exactly as a removal (when the cluster-wide features are set up). *)
Theorem clear_memberships name s :
  let me := (local_id s, name) in
  let s' := exec (_clear_groups name ;; _clear_registry name) s in
  (∀ g m, (∃ ms, _groups s' !! g = Some ms ∧ m ∈ ms) ↔
          (∃ ms, _groups s !! g = Some ms ∧ m ∈ ms) ∧ m ≠ me) ∧
  (∀ n o, _registry s' !! n = Some o ↔ _registry s !! n = Some o ∧ o ≠ me) ∧
  jobs s' = jobs s ++ leave_jobs s me (groups_of s me) ++ release_jobs s me (names_of s me).
Proof.
  simpl. rewrite clear_groups_spec /= clear_registry_spec /=. split_and!.
  - intros g m. rewrite lookup_fmap. split.
    + intros (ms & (ms0 & Hl & ->)%fmap_Some & Hin). set_solver.
    + intros [(ms & Hl & Hin) Hne]. rewrite Hl /=. eexists; split; [done|]. set_solver.
  - intros n o. rewrite map_lookup_filter_Some. done.
  - by rewrite -app_assoc.
Qed.

(** ** Connecting *)

(** Listeners leave futures and waiters alone. *)
Lemma run_listeners_futures ls ev : ∀ s,
  let s' := exec (for_each ls (λ l, try_except (run_listener l ev) (λ _, ret tt))) s in
  futures s' = futures s ∧ _peer_waiters s' = _peer_waiters s.
Proof.
  intros s. apply (for_each_invariant (λ s', futures s' = futures s ∧ _peer_waiters s' = _peer_waiters s)); [|done].
  intros l s1 [<- <-]. destruct l as [| | |id []], ev; done.
Qed.

Lemma settle_futures_lookup f is_ : ∀ s i,
  futures s !! i = Some FPending →
  futures (foldl (settle_future f) s is_) !! i = Some (if bool_decide (i ∈ is_) then f else FPending) ∨
  f = FPending.
Proof.
  induction is_ as [|j is_ IH]; intros s i Hi; simpl; [by left|].
  destruct (decide (f = FPending)) as [|Hf]; [by right|left].
  destruct (decide (j = i)) as [->|Hne].
  - rewrite (bool_decide_eq_true_2 (i ∈ i :: is_)); [by left|].
    assert (∀ s0, futures s0 !! i = Some f → futures (foldl (settle_future f) s0 is_) !! i = Some f) as Hdone.
    { clear -Hf. induction is_ as [|j is_ IH]; intros s0 H0; simpl; [done|]. apply IH. simpl.
      rewrite lookup_alter. case_decide; [|done]. subst. rewrite H0 /=. by rewrite bool_decide_eq_false_2. }
    apply Hdone. simpl. rewrite lookup_alter_eq Hi /=. done.
  - destruct (IH (settle_future f s j) i) as [->|]; [|f_equal|done].
    + simpl. by rewrite lookup_alter_ne.
    + case_bool_decide; case_bool_decide; try done; set_solver.
Qed.

Lemma peer_connected_settles peer i s :
  futures s !! i = Some FPending →
  let s' := exec (_on_core_event (EvPeerConnected peer)) s in
  futures s' !! i = Some (if bool_decide (i ∈ default [] (_peer_waiters s !! peer)) then FResult else FPending) ∧
  _peer_waiters s' = _peer_waiters s.
Proof.
  intros Hf. unfold _on_core_event; simpl. set (ws := default [] (_peer_waiters s !! peer)).
  set (s1 := foldl _ s ws).
  assert (futures s1 !! i = Some (if bool_decide (i ∈ ws) then FResult else FPending)) as H1
    by (by destruct (settle_futures_lookup FResult ws s i Hf) as [H|]).
  assert (∀ l s0, _peer_waiters (foldl (settle_future FResult) s0 l) = _peer_waiters s0) as Hpw
    by (induction l as [|j l IH]; intros s0; simpl; [done|by rewrite IH]).
  pose proof (run_listeners_futures (_event_listeners s1) (EvPeerConnected peer) s1) as [Hfu Hwa].
  simpl in Hfu, Hwa. rewrite Hfu Hwa. by rewrite /s1 Hpw.
Qed.

(** The waiter that [connect_peer] added is gone again. *)
Lemma remove_waiter_restores peer i w s :
  (∀ ws, w !! peer = Some ws → ws ≠ [] ∧ i ∉ ws) →
  _peer_waiters s = <[peer := default [] (w !! peer) ++ [i]]> w →
  _peer_waiters (exec (remove_waiter peer i) s) = w.
Proof.
  intros Hfresh Hw. unfold remove_waiter; simpl. rewrite Hw lookup_insert_eq.
  rewrite bool_decide_eq_true_2; [set_solver|]. simpl.
  assert (filter (λ x, x ≠ i) (default [] (w !! peer) ++ [i]) = default [] (w !! peer)) as ->.
  { rewrite list.filter_app filter_cons_False; [by intros []|]. rewrite app_nil_r.
    destruct (w !! peer) as [ws|] eqn:E; [|done]. simpl. destruct (Hfresh ws eq_refl) as [_ Hi].
    clear -Hi. induction ws as [|x ws IH]; [done|]. rewrite filter_cons_True; [set_solver|].
    f_equal. apply IH. set_solver. }
  destruct (w !! peer) as [ws|] eqn:E; simpl.
  - destruct (Hfresh ws eq_refl) as [Hne _]. rewrite bool_decide_eq_false_2 //= ?Hw insert_insert_eq.
    by rewrite insert_id.
  - rewrite ?Hw delete_insert_eq. by apply delete_id.
Qed.

Lemma connect_begin_eq peer since s co :
  _core s = Some co → co_running co = true →
  connect_peer_begin peer since s =
  match canonical peer with
  | inl e => (inl e, s)
  | inr c =>
      if bool_decide (c ∈ co_peers co) then (inr None, s)
      else
        let i := next_id s in
        let s1 := s <| next_id ::= S |> <| futures ::= <[i := FPending]> |>
                    <| _peer_waiters ::= λ w, <[peer := default [] (w !! peer) ++ [i]]> w |> in
        if since then (inr None, exec (remove_waiter peer i) s1) else (inr (Some i), s1)
  end.
Proof.
  intros Hco Hrun. assert (s <| _core := Some co |> = s) as Hs by (destruct s; simpl in *; by subst).
  unfold connect_peer_begin. cbn [bind get]. rewrite Hco. cbn [bind].
  rewrite (with_core_run _ _ co) // /core_connect_peer /core_require. cbn [lift bind get].
  destruct (canonical peer) as [e|c] eqn:Hc; cbn [fst snd]; [by rewrite Hs|]. rewrite Hrun. cbn [fst snd ret]. rewrite Hs.
  rewrite (with_core_run _ _ co) // /core_has_peer /core_require. cbn [lift bind get]. rewrite Hc Hrun. cbn [fst snd ret bind get].
  rewrite Hs. case_bool_decide; [done|]. by destruct since.
Qed.

(** Connecting to a peer.  What is no node id raises, and nothing changed;
    for a connected peer [connect_peer] returns at once; else it waits on a
    future of its own.  When the core then reports that the peer is connected it
    returns, provided the id was written the way the core writes it; when the
    time is up instead, or the core has reported the peer under another
    spelling of its id, it raises [ConnectionError].  Either way the table of
    waiters is again what it was. *)
Theorem connect_peer_lifecycle peer s co :
  _core s = Some co → co_running co = true →
  (∀ p ws, _peer_waiters s !! p = Some ws → ws ≠ [] ∧ next_id s ∉ ws) →
  let r := connect_peer_begin peer false s in
  let i := next_id s in
  let failed := Exn "ConnectionError" ("failed to connect to peer " +:+ py_repr peer) in
  match canonical peer with
  | inl e => r = (inl e, s)
  | inr c =>
      if bool_decide (c ∈ co_peers co) then r = (inr None, s)
      else
        r.1 = inr (Some i) ∧
        (let ok := connect_peer_end peer i (exec (_on_core_event (EvPeerConnected c)) r.2) in
         ok.1 = (if bool_decide (c = peer) then inr tt else inl failed) ∧ _peer_waiters ok.2 = _peer_waiters s) ∧
        (let late := connect_peer_end peer i r.2 in
         late.1 = inl failed ∧ _peer_waiters late.2 = _peer_waiters s)
  end.
Proof.
  intros Hco Hrun Hfresh r i failed. unfold r. rewrite (connect_begin_eq peer false s co) //.
  destruct (canonical peer) as [e|c]; [done|]. case_bool_decide as Hc; [done|]. cbv zeta.
  set (s1 := _ <| _peer_waiters ::= _ |>).
  assert (futures s1 !! i = Some FPending) as Hfut by by rewrite /s1 /= lookup_insert_eq.
  assert (∀ s2, _peer_waiters s2 = _peer_waiters s1 →
            _peer_waiters (connect_peer_end peer i s2).2 = _peer_waiters s) as Hback.
  { intros s2 Hw. unfold connect_peer_end. cbn [bind get].
    pose proof (remove_waiter_restores peer i (_peer_waiters s) s2 (Hfresh peer) Hw) as Hre. unfold exec in Hre.
    destruct (remove_waiter peer i s2) as [[e|[]] s3]; [exact Hre|].
    repeat case_match; exact Hre. }
  split; [done|]. split.
  - destruct (peer_connected_settles c i s1 Hfut) as [Hres Hw].
    cbn [snd]. set (s2 := exec _ s1) in *. split; [|by apply Hback].
    unfold connect_peer_end; simpl. rewrite Hres /s1 /=. destruct (decide (c = peer)) as [->|Hcp].
    + rewrite lookup_insert_eq !bool_decide_eq_true_2 //. simpl. set_solver.
    + rewrite lookup_insert_ne // !bool_decide_eq_false_2 //.
      destruct (_peer_waiters s !! c) as [ws|] eqn:Hws; simpl; [by destruct (Hfresh c ws Hws)|apply not_elem_of_nil].
  - cbn [snd]. split; [|by apply Hback]. unfold connect_peer_end; simpl. by rewrite Hfut.
Qed.

End node_props.
