(* ===== verification/Links.v ===== *)
(** * Links

    [src/lapinbeam/links.py]: [link]/[unlink]/[trap_exit] and the reserved
    actor [__lapinbeam_link__] that answers other nodes. *)

From S2P Require Import Prelude Values NodeId Actors State PeerEvents Asyncio Node NodeProps.

(** [ActorRef] and [RemoteRef] of [src/lapinbeam/refs.py], as far as they
    address an actor. *)
Inductive actor_ref := ActorRef (name : string) | RemoteRef (peer_id actor_name : string).

(** [_target] *)
Definition link_target (other : actor_ref) : target :=
  match other with
  | RemoteRef peer_id actor_name => (Some peer_id, actor_name)
  | ActorRef name => (None, name)
  end.

(** [_me()]: [current] is what [current_actor_ref()] returns. *)
Definition link_me (current : option string) : M st string :=
  match current with
  | None => raise (RuntimeError "link()/unlink()/trap_exit() must be called from inside a running actor")
  | Some me => ret me
  end.

(** [node._links.setdefault(name, set()).add(t)] *)
Definition add_link (name : string) (t : target) (s : st) : st :=
  s <| _links ::= λ lk, <[name := {[t]} ∪ default ∅ (lk !! name)]> lk |>.

(** [node._links.get(name, set()).discard(t)] *)
Definition discard_link (name : string) (t : target) (s : st) : st :=
  s <| _links ::= alter (λ ts, ts ∖ {[t]}) name |>.

(** The message [link] and [unlink] send to another node. *)
Definition link_message (op from to from_node : string) : pyval :=
  PDict [("op", PStr op); ("from", PStr from); ("to", PStr to); ("from_node", PStr from_node)].

Section links.
Context {codec : PayloadCodec}.

Definition link (current : option string) (other : actor_ref) : M st unit :=
  let! me := link_me current in
  modify (add_link me (link_target other)) ;;
  match link_target other with
  | (None, name) =>
      modify (add_link name (None, me)) ;;
      let! s := get in
      if bool_decide (is_Some (_mailboxes s !! name)) then ret tt
      else _deliver_exit name me "noproc"
  | (Some peer_id, name) =>
      let! s := get in
      _send_remote peer_id LINK_ACTOR (link_message "link" me name (local_id s)) None None
  end.

Definition unlink (current : option string) (other : actor_ref) : M st unit :=
  let! me := link_me current in
  modify (discard_link me (link_target other)) ;;
  match link_target other with
  | (None, name) => modify (discard_link name (None, me))
  | (Some peer_id, name) =>
      let! s := get in
      _send_remote peer_id LINK_ACTOR (link_message "unlink" me name (local_id s)) None None
  end.

Definition trap_exit (current : option string) (enabled : bool) : M st unit :=
  let! me := link_me current in
  modify (λ s, s <| _trap_exit ::= <[me := enabled]> |>).

(** [_LinkActor.receive] *)
Definition link_actor_receive (msg : pyval) : M st unit :=
  let! op := lift (getitem msg "op") in
  let! from_node_v := lift (dict_get msg "from_node") in
  let! from_node := lift (as_opt_str from_node_v) in
  let! target_v := lift (getitem msg "to") in
  let! tgt := lift (as_str target_v) in
  if is_str op "link" then
      let! from_v := lift (getitem msg "from") in
      let! from := lift (as_str from_v) in
      modify (add_link tgt (from_node, from)) ;;
      let! s := get in
      if bool_decide (is_Some (_mailboxes s !! tgt)) then ret tt
      else _send_remote (default "" from_node) LINK_ACTOR
             (exit_message from tgt "noproc" (local_id s)) None None
  else if is_str op "unlink" then
      let! from_v := lift (getitem msg "from") in
      let! from := lift (as_str from_v) in
      modify (discard_link tgt (from_node, from))
  else if is_str op "exit" then
      let! actor_v := lift (getitem msg "actor") in
      let! actor := lift (as_str actor_v) in
      let! reason_v := lift (getitem msg "reason") in
      let! reason := lift (as_str reason_v) in
      _deliver_exit (remote_label (default "None" from_node) actor) tgt reason
  else ret tt.

(** ** Properties *)

(** Whether [a] is recorded as linked to target [t]. *)
Definition has_link (s : st) (a : string) (t : target) : Prop :=
  ∃ ts, _links s !! a = Some ts ∧ t ∈ ts.

Lemma has_link_add s a t b u :
  has_link (add_link a t s) b u ↔ (b = a ∧ u = t) ∨ has_link s b u.
Proof.
  unfold has_link, add_link; simpl. rewrite lookup_insert. case_decide; subst.
  - split.
    + intros (ts & [= <-] & [->%elem_of_singleton|Hu]%elem_of_union); [by left|right].
      destruct (_links s !! b) as [ts|] eqn:E; simpl in Hu; [eauto|set_solver].
    + intros [[_ ->]|(ts & -> & Hu)]; simpl; (eexists; split; [done|set_solver]).
  - naive_solver.
Qed.

Lemma has_link_discard s a t b u :
  has_link (discard_link a t s) b u ↔ has_link s b u ∧ ¬ (b = a ∧ u = t).
Proof.
  unfold has_link, discard_link; simpl. rewrite lookup_alter. case_decide; subst.
  - destruct (_links s !! b) as [ts|]; simpl; [|naive_solver].
    split; [intros (? & [= <-] & ?); set_solver|].
    intros [(? & [= <-] & ?) ?]. eexists; split; [done|]. set_solver.
  - naive_solver.
Qed.

(** Linking two local actors is symmetric and touches nothing else:
    after [link] of [me] to an existing local actor, each is recorded as
    linked to the other, exactly these two records are new, and every other
    field of the node is as it was; [unlink] then removes exactly these two
    records again. *)
Theorem link_unlink_local me name s :
  is_Some (_mailboxes s !! name) →
  let r := link (Some me) (ActorRef name) s in
  let u := unlink (Some me) (ActorRef name) r.2 in
  r.1 = inr tt ∧ u.1 = inr tt ∧
  (∀ a t, has_link r.2 a t ↔
     (a = me ∧ t = (None, name)) ∨ (a = name ∧ t = (None, me)) ∨ has_link s a t) ∧
  (∀ a t, has_link u.2 a t ↔
     has_link s a t ∧ ¬ (a = me ∧ t = (None, name)) ∧ ¬ (a = name ∧ t = (None, me))) ∧
  r.2 <| _links := ∅ |> = s <| _links := ∅ |> ∧ u.2 <| _links := ∅ |> = s <| _links := ∅ |>.
Proof.
  intros Hm r u.
  assert (r = (inr tt, add_link name (None, me) (add_link me (None, name) s))) as Hr.
  { unfold r, link; simpl. by rewrite bool_decide_eq_true_2. }
  assert (u = (inr tt, discard_link name (None, me) (discard_link me (None, name) r.2))) as Hu
    by done.
  rewrite Hu Hr; simpl. split_and!; try done; intros a t;
    rewrite ?has_link_discard ?has_link_add; naive_solver.
Qed.

Lemma deliver_exit_trapped from tgt reason s :
  _trap_exit s !! tgt = Some true → is_Some (_mailboxes s !! tgt) →
  _deliver_exit from tgt reason s = _send_local tgt (ExitMsg from reason) None None s.
Proof.
  intros Ht Hm. unfold _deliver_exit; simpl. by rewrite Ht /= bool_decide_eq_true_2.
Qed.

Lemma deliver_exit_kill from tgt reason s c ch t :
  default false (_trap_exit s !! tgt) = false →
  _live_children s !! tgt = Some c → children s !! c = Some ch →
  ch_driver ch = Some t → task_done s t = false →
  _deliver_exit from tgt reason s =
    cancel t (s <| children ::= alter (λ ch, ch <| ch_pending_exit := Some (link_exit_exn from reason) |>) c |>).
Proof.
  intros Ht Hl Hc Hd Hn. unfold _deliver_exit; simpl. by rewrite Ht Hl /= Hc /= Hd Hn.
Qed.

Lemma cancel_suspended t s tk :
  tasks s !! t = Some tk → t_out tk = None → t_wait tk = WGet ∨ t_wait tk = WUser →
  exec (cancel t) s = upd_task t (λ tk, tk <| t_wait := WReady WkCancel |>) s.
Proof.
  intros Ht Ho Hw. unfold cancel; simpl. rewrite Ht Ho /=. by destruct Hw as [-> | ->].
Qed.

(** A task that is about to run is thrown the exception in its next turn. *)
Lemma cancel_scheduled t s tk w :
  tasks s !! t = Some tk → t_out tk = None → t_wait tk = WReady w →
  cancel t s = (inr tt, s <| tasks ::= <[t := tk <| t_must_cancel := true |>]> |>).
Proof.
  intros Ht Ho Hw. unfold cancel; simpl. rewrite Ht Ho /= Hw /upd_task /=.
  by rewrite (alter_present _ _ _ _ Ht) Ho Hw.
Qed.

(** An exit signal for a live actor: one that traps exits gets it as an
    [Exit] message at the end of its mailbox and is not touched otherwise;
    one that does not gets no message: its generation is marked to die with
    the link error and its driver, suspended on the mailbox or in a handler,
    is scheduled to be cancelled. *)
Theorem deliver_exit_behaviour from tgt reason s c ch t tk q qu :
  _live_children s !! tgt = Some c → children s !! c = Some ch →
  ch_driver ch = Some t → tasks s !! t = Some tk → t_out tk = None →
  t_wait tk = WGet ∨ t_wait tk = WUser →
  _mailboxes s !! tgt = Some q → queues s !! q = Some qu → q_full qu = false →
  let s' := exec (_deliver_exit from tgt reason) s in
  if default false (_trap_exit s !! tgt)
  then s' = s <| queues ::= <[q := qu <| q_items ::= λ l,
                l ++ [(ExitMsg from reason, MessageMeta (Some (local_id s)) None None None)] |>]> |>
  else queues s' = queues s ∧
       children s' !! c = Some (ch <| ch_pending_exit := Some (link_exit_exn from reason) |>) ∧
       tasks s' !! t = Some (tk <| t_wait := WReady WkCancel |>).
Proof.
  intros Hl Hc Hd Ht Ho Hw Hm Hq Hf.
  destruct (_trap_exit s !! tgt) as [[]|] eqn:E; simpl.
  1: { rewrite deliver_exit_trapped // (send_local_spec _ _ _ _ _ q qu) //.
       by rewrite /put_nowait Hf. }
  all: erewrite (deliver_exit_kill from tgt reason s c ch t);
    [|by rewrite E|done..|by unfold task_done; rewrite Ht Ho];
    rewrite -/(exec _ _) (cancel_suspended _ _ tk) //=;
    rewrite !lookup_alter_eq Hc Ht; done.
Qed.

(** A send to a connected peer, under whatever spelling of its id. *)
Lemma send_remote_to peer_id peer dst msg rt corr s co :
  _core s = Some co → co_running co = true → canonical peer_id = inr peer → peer ∈ co_peers co → u64_arg corr = inr tt →
  plain msg = true → wire_safe msg = true → co_refuses co peer msg = None →
  _send_remote peer_id dst msg rt corr s =
  (inr tt, s <| _core := Some (co <| co_out ::= λ l,
                  l ++ [Frame peer dst msg rt corr (co_next_msg_id co)] |>
                                  <| co_next_msg_id ::= next_u64 |>) |>).
Proof.
  intros Hco Hrun Hc Hp Hu Hpl Hw Href. unfold _send_remote; simpl. rewrite Hco encode_plain //.
  rewrite (with_core_run _ _ co) // /core_send_data /= Hu Hc wire_transfer_safe //=.
  rewrite /core_require /= Hrun /= Href /= bool_decide_eq_true_2 //=. by rewrite -Hrun; destruct co.
Qed.

Lemma send_remote_ok peer dst msg rt corr s co :
  _core s = Some co → co_running co = true → is_peer co peer → u64_arg corr = inr tt →
  plain msg = true → wire_safe msg = true → co_refuses co peer msg = None →
  _send_remote peer dst msg rt corr s =
  (inr tt, s <| _core := Some (co <| co_out ::= λ l,
                  l ++ [Frame peer dst msg rt corr (co_next_msg_id co)] |>
                                  <| co_next_msg_id ::= next_u64 |>) |>).
Proof. intros Hco Hrun [Hc Hp]. by apply send_remote_to. Qed.

(** A link across nodes: the request that [link] on node A puts on the
    wire towards node B, given there to the reserved link actor, records A's
    actor as linked to the target; when the target does not exist on B, what
    B sends back is an exit message with reason ["noproc"] for A's actor,
    which A's link actor turns into the exit signal ["noproc"] from
    [B/target]. *)
Theorem link_remote_handshake me name sA sB coA coB (A B : string) :
  _core sA = Some coA → co_running coA = true → is_peer coA B → local_id sA = A →
  _core sB = Some coB → co_running coB = true → is_peer coB A → local_id sB = B →
  (∀ p v, co_refuses coA p v = None) → (∀ p v, co_refuses coB p v = None) →
  let a := link (Some me) (RemoteRef B name) sA in
  ∃ fr, a.1 = inr tt ∧ has_link a.2 me (Some B, name) ∧
    option_map co_out (_core a.2) = Some (co_out coA ++ [fr]) ∧
    fr_peer fr = B ∧ fr_actor fr = LINK_ACTOR ∧
    let b := link_actor_receive (fr_payload fr) sB in
    b.1 = inr tt ∧ has_link b.2 name (Some A, me) ∧
    match _mailboxes sB !! name with
    | Some _ => _core b.2 = Some coB
    | None =>
        ∃ back, option_map co_out (_core b.2) = Some (co_out coB ++ [back]) ∧
          fr_peer back = A ∧ fr_actor back = LINK_ACTOR ∧
          ∀ s, link_actor_receive (fr_payload back) s =
               _deliver_exit (remote_label B name) me "noproc" s
    end.
Proof.
  intros HcA HrA HpA HlA HcB HrB HpB HlB HfA HfB a.
  set (sA1 := add_link me (Some B, name) sA).
  assert (local_id sA1 = A) as HlA1 by done.
  assert (a = _send_remote B LINK_ACTOR (link_message "link" me name A) None None sA1) as Ha.
  { unfold a, link; simpl. rewrite -/sA1. by rewrite HlA1. }
  rewrite (send_remote_ok _ _ _ _ _ sA1 coA) // in Ha.
  eexists. rewrite Ha; simpl. split; [done|]. split; [apply has_link_add; by left|].
  do 3 (split; [done|]).
  set (sB1 := add_link name (Some A, me) sB).
  assert (has_link sB1 name (Some A, me)) as Hlk by (apply has_link_add; by left).
  assert (local_id sB1 = B) as HlB1 by done.
  unfold link_actor_receive; simpl. rewrite -/sB1.
  destruct (_mailboxes sB !! name) as [q|] eqn:Em.
  - by rewrite bool_decide_eq_true_2.
  - rewrite bool_decide_eq_false_2; [by intros []|].
    rewrite HlB1 (send_remote_ok _ _ _ _ _ sB1 coB) //=. split; [done|]. split; [done|].
    eexists; split_and!; done.
Qed.

(** Another spelling of a peer's id is half a peer.  Let [alias] be an id
    that the core reads as the connected peer [c] but writes differently (a
    leading zero or plus sign in the port).  [has_peer] says that it is
    connected, and a link through it is requested from [c]; but when [c] drops
    off, the link is still there and no exit signal comes of it: the node does
    what it would have done without it. *)
Theorem peer_alias me name alias c s co :
  _core s = Some co → co_running co = true → canonical alias = inr c → alias ≠ c → c ∈ co_peers co →
  (∀ p v, co_refuses co p v = None) →
  has_peer alias s = (inr true, s) ∧
  let a := link (Some me) (RemoteRef alias name) s in
  a.1 = inr tt ∧
  (∃ fr, option_map co_out (_core a.2) = Some (co_out co ++ [fr]) ∧ fr_peer fr = c ∧ fr_actor fr = LINK_ACTOR) ∧
  let d := core_event_effect (EvPeerDisconnected c) a.2 in
  has_link d me (Some alias, name) ∧
  ∀ j, j ∈ jobs d ↔ j ∈ jobs (core_event_effect (EvPeerDisconnected c) s).
Proof.
  intros Hco Hrun Hc Hne Hp Href. split.
  { unfold has_peer. cbn [bind get]. rewrite Hco (with_core_run _ _ co) // /core_has_peer /core_require. cbn [lift bind get].
    rewrite Hc Hrun. cbn [fst snd ret]. rewrite bool_decide_eq_true_2 //. destruct s; simpl in *; by subst. }
  intros a. set (s1 := add_link me (Some alias, name) s).
  assert (a = _send_remote alias LINK_ACTOR (link_message "link" me name (local_id s1)) None None s1) as Ha by done.
  rewrite (send_remote_to _ c _ _ _ _ s1 co) // in Ha. rewrite Ha. cbn [fst snd]. split; [done|]. split; [by eexists|].
  cbv zeta. split.
  - assert (has_link s1 me (Some alias, name)) as (ts & Hl & Ht) by (apply has_link_add; by left).
    unfold has_link; simpl. exists (filter (λ t : target, t.1 ≠ Some c) ts). split.
    + rewrite lookup_fmap. simpl in Hl. by rewrite Hl.
    + apply elem_of_filter. split; [simpl; congruence|done].
  - intros j. simpl. rewrite !elem_of_app !elem_of_noconnection_exits.
    assert (∀ n act, (∃ ts, _links s1 !! n = Some ts ∧ (Some c, act) ∈ ts) ↔
                     ∃ ts, _links s !! n = Some ts ∧ (Some c, act) ∈ ts) as Hl.
    { intros n act. pose proof (has_link_add s me (Some alias, name) n (Some c, act)) as H. unfold has_link in H.
      rewrite H. naive_solver. }
    simpl in Hl. naive_solver.
Qed.

End links.
