(* ===== verification/ContextVars.v ===== *)
(** * Who am I, and what am I handling

    The two context variables of [src/lapinbeam/context.py], [current] and
    [current_actor], with what [Supervisor._drive] and the loop of a pool
    worker ([src/lapinbeam/supervisor.py]) do to them.  Every task has a
    context of its own, a copy of its creator's at the moment it was created;
    [set] returns a token with which [reset] restores the value before. *)

From S2P Require Import Prelude Values NodeId Actors State PeerEvents Asyncio Node NodeProps Links.

(** ** One [ContextVar] in one task *)

Record cvar (A : Type) := CVar { cv_value : option A; cv_tokens : list (option A) }.
Arguments CVar {A} _ _.
Arguments cv_value {A} _.
Arguments cv_tokens {A} _.

(** [default=None] *)
Definition cv_default {A} : cvar A := CVar None [].
Definition cv_set {A} (x : A) (v : cvar A) : cvar A := CVar (Some x) (cv_value v :: cv_tokens v).
(** [reset(token)] of the youngest token that is still held. *)
Definition cv_reset {A} (v : cvar A) : cvar A :=
  match cv_tokens v with
  | o :: rest => CVar o rest
  | [] => v
  end.
(** A copied context has the values, but nobody in it holds the tokens. *)
Definition cv_copy {A} (v : cvar A) : cvar A := CVar (cv_value v) [].

(** ** The contexts of all tasks *)

Record ctx := Ctx { current : cvar message_meta; current_actor : cvar string }.

Definition contexts := gmap tid ctx.

Definition context_of (w : contexts) (t : tid) : ctx := default (Ctx cv_default cv_default) (w !! t).

(** [current_message()] and [current_actor_ref()] as called by the code of task [t]. *)
Definition current_message (w : contexts) (t : tid) : option message_meta := cv_value (current (context_of w t)).
Definition current_actor_ref (w : contexts) (t : tid) : option string := cv_value (current_actor (context_of w t)).

Inductive cstep :=
| CCreate (p t : tid)                 (* p calls [create_task], which makes t *)
| CEnter (d : tid) (self : string)    (* [_drive]: [current_actor_var.set(self_ref)] *)
| CBegin (d : tid) (m : message_meta) (* [_drive] or a worker: [current_message_var.set(meta)] *)
| CEnd (d : tid)                      (* [finally: current_message_var.reset(token)] *)
| CExit (d : tid).                    (* [finally: current_actor_var.reset(actor_token)] *)

Definition run_cstep (c : cstep) (w : contexts) : contexts :=
  let upd t f := <[t := f (context_of w t)]> w in
  match c with
  | CCreate p t => let x := context_of w p in <[t := Ctx (cv_copy (current x)) (cv_copy (current_actor x))]> w
  | CEnter d self => upd d (λ x, Ctx (current x) (cv_set self (current_actor x)))
  | CBegin d m => upd d (λ x, Ctx (cv_set m (current x)) (current_actor x))
  | CEnd d => upd d (λ x, Ctx (cv_reset (current x)) (current_actor x))
  | CExit d => upd d (λ x, Ctx (current x) (cv_reset (current_actor x)))
  end.

Definition run_csteps (cs : list cstep) (w : contexts) : contexts := foldl (λ w c, run_cstep c w) w cs.

(** The task whose context a step changes. *)
Definition changes (c : cstep) : tid :=
  match c with CCreate _ t | CEnter t _ | CBegin t _ | CEnd t | CExit t => t end.

(** Nothing in [cs] is a step of [t] itself. *)
Definition foreign (t : tid) (cs : list cstep) : Prop := Forall (λ c, changes c ≠ t) cs.

(** ** Contexts are private *)

Lemma context_step_other c w t : changes c ≠ t → context_of (run_cstep c w) t = context_of w t.
Proof. intros Hne. unfold context_of. destruct c; simpl in *; by rewrite lookup_insert_ne. Qed.

Lemma context_steps_other cs : ∀ w t, foreign t cs → context_of (run_csteps cs w) t = context_of w t.
Proof.
  induction cs as [|c cs IH]; intros w t Hf; [done|]. apply list.Forall_cons in Hf as [Hc Hf].
  simpl. unfold run_csteps in IH. rewrite IH //. by apply context_step_other.
Qed.

Lemma run_csteps_app cs1 cs2 w : run_csteps (cs1 ++ cs2) w = run_csteps cs2 (run_csteps cs1 w).
Proof. unfold run_csteps. by rewrite foldl_app. Qed.

Lemma run_csteps_cons c cs w : run_csteps (c :: cs) w = run_csteps cs (run_cstep c w).
Proof. done. Qed.

Lemma context_step_self w t f : context_of (<[t := f]> w) t = f.
Proof. unfold context_of. by rewrite lookup_insert_eq. Qed.

Definition sees (w : contexts) (t : tid) (m : option message_meta) (a : option string) : Prop :=
  current_message w t = m ∧ current_actor_ref w t = a.

Lemma sees_other cs w t m a : foreign t cs → sees (run_csteps cs w) t m a ↔ sees w t m a.
Proof. intros Hf. unfold sees, current_message, current_actor_ref. by rewrite context_steps_other. Qed.

(** The context of a handler.  While the driver of actor [a] handles the
    message with [m], its code sees [m] and [a], whatever all other tasks do
    meanwhile; a task that the handler creates sees the same and, since only its
    own steps could change that, still does when the handler has long ended;
    and when it ends, the driver sees what it saw before, so that the loop of a
    pool worker can bind its own messages inside the handler of its start
    message. *)
Theorem handler_context w d m m0 a t mid late later :
  sees w d m0 (Some a) → t ≠ d → foreign d mid → foreign d late → foreign t late → foreign d later → foreign t later →
  let w1 := run_csteps (CBegin d m :: mid) w in
  let w2 := run_csteps (CCreate d t :: late) w1 in
  let w3 := run_csteps (CEnd d :: later) w2 in
  sees w1 d (Some m) (Some a) ∧
  sees w2 d (Some m) (Some a) ∧ sees w2 t (Some m) (Some a) ∧
  sees w3 d m0 (Some a) ∧ sees w3 t (Some m) (Some a).
Proof.
  intros [Hm Ha] Hne H1 H2 H3 H4 H5 w1 w2 w3.
  assert (context_of w1 d = Ctx (cv_set m (current (context_of w d))) (current_actor (context_of w d))) as E1.
  { unfold w1. rewrite run_csteps_cons context_steps_other //. apply context_step_self. }
  assert (context_of w2 d = context_of w1 d) as E2.
  { unfold w2. rewrite run_csteps_cons context_steps_other //. by apply context_step_other. }
  assert (context_of w3 d = Ctx (current (context_of w d)) (current_actor (context_of w d))) as E3.
  { unfold w3. rewrite run_csteps_cons context_steps_other // /= context_step_self E2 E1. unfold cv_reset; simpl.
    by destruct (current (context_of w d)). }
  assert (sees w2 t (Some m) (Some a)) as Ht.
  { unfold w2. rewrite run_csteps_cons sees_other //. unfold sees, current_message, current_actor_ref; simpl.
    by rewrite context_step_self E1. }
  split_and!.
  - unfold sees, current_message, current_actor_ref. by rewrite E1.
  - unfold sees, current_message, current_actor_ref. by rewrite E2 E1.
  - done.
  - unfold sees, current_message, current_actor_ref. by rewrite E3.
  - unfold w3. rewrite sees_other //. apply list.Forall_cons. split; [by apply not_eq_sym|done].
Qed.

Section links.
Context {codec : PayloadCodec}.

(** An actor does not know itself while it is constructed.  The
    constructor of an actor runs in the task of its child record, before
    [_drive] binds anything.  That task is created by [spawn], so the
    constructor sees the message and the actor of whoever called [spawn], on
    every restart too: spawned from inside another actor it links that one, and
    spawned from elsewhere [link] raises.  Only the driver that is created after
    it sees the actor itself. *)
Theorem constructor_sees_spawner w p t d m a self other s before after :
  sees w p m a → t ≠ p → d ≠ t → foreign t before → foreign t after →
  let w1 := run_csteps (CCreate p t :: before) w in
  let w2 := run_csteps (CCreate t d :: CEnter d self :: after) w1 in
  sees w1 t m a ∧ sees w2 t m a ∧
  (foreign d after → current_actor_ref w2 d = Some self) ∧
  link (current_actor_ref w1 t) other s =
    match a with
    | Some spawner => link (Some spawner) other s
    | None => (inl (RuntimeError "link()/unlink()/trap_exit() must be called from inside a running actor"), s)
    end.
Proof.
  intros [Hm Ha] Hne Hdt H1 H2 w1 w2.
  assert (sees w1 t m a) as Hs1.
  { unfold w1. rewrite run_csteps_cons sees_other //. unfold sees, current_message, current_actor_ref; simpl.
    by rewrite context_step_self. }
  split_and!; [done| | |].
  - unfold w2. rewrite sees_other //. repeat (apply list.Forall_cons; split; [by simpl|]). done.
  - intros Hd. unfold w2, current_actor_ref. rewrite run_csteps_cons run_csteps_cons context_steps_other // /=.
    by rewrite context_step_self.
  - destruct Hs1 as [_ ->]. by destruct a.
Qed.

End links.
