(* ===== verification/Monitors.v ===== *)
(** * Monitors

    [src/lapinbeam/monitors.py]: [monitor]/[demonitor] and the reserved actor
    [__lapinbeam_monitor__]. *)

From S2P Require Import Prelude Values NodeId Actors State PeerEvents Asyncio Node NodeProps Links.

Definition monitor_me (current : option string) : M st string :=
  match current with
  | None => raise (RuntimeError "monitor()/demonitor() must be called from inside a running actor")
  | Some me => ret me
  end.

(** [node._monitor_watchers.setdefault(name, {})[ref] = w] *)
Definition add_watcher (name ref : string) (w : target) (s : st) : st :=
  s <| _monitor_watchers ::= λ mw, <[name := <[ref := w]> (default ∅ (mw !! name))]> mw |>.

(** [watchers = node._monitor_watchers.get(name)], then [watchers.pop(ref, None)] *)
Definition drop_watcher (name ref : string) (s : st) : st :=
  s <| _monitor_watchers ::= alter (delete ref) name |>.

Definition monitor_message (ref watcher watcher_node tgt : string) : pyval :=
  PDict [("op", PStr "monitor"); ("ref", PStr ref); ("watcher", PStr watcher);
         ("watcher_node", PStr watcher_node); ("target", PStr tgt)].

Definition demonitor_message (ref tgt : string) : pyval :=
  PDict [("op", PStr "demonitor"); ("ref", PStr ref); ("target", PStr tgt)].

(** The reply to a request for an actor that does not exist. *)
Definition down_noproc_message (ref watcher actor from_node : string) : pyval :=
  PDict [("op", PStr "down"); ("ref", PStr ref); ("watcher", PStr watcher);
         ("actor", PStr actor); ("reason", PStr "noproc"); ("from_node", PStr from_node)].

Section monitors.
Context {codec : PayloadCodec}.

(** [uuid] stands for [uuid.uuid4().hex]. *)
Definition monitor (current : option string) (uuid : string) (other : actor_ref) : M st string :=
  let! me := monitor_me current in
  let '(peer_id, name) := link_target other in
  modify (λ s, s <| _monitors ::= <[uuid := (me, (peer_id, name))]> |>) ;;
  match peer_id with
  | None =>
      modify (add_watcher name uuid (None, me)) ;;
      let! s := get in
      (if bool_decide (is_Some (_mailboxes s !! name)) then ret tt
       else _deliver_down uuid name "noproc") ;;
      ret uuid
  | Some p =>
      let! s := get in
      _send_remote p MONITOR_ACTOR (monitor_message uuid me (local_id s) name) None None ;;
      ret uuid
  end.

Definition demonitor (current : option string) (ref : string) : M st unit :=
  monitor_me current ;;
  let! s := get in
  modify (λ s, s <| _monitors ::= delete ref |>) ;;
  match _monitors s !! ref with
  | None => ret tt
  | Some (_, (None, name)) => modify (drop_watcher name ref)
  | Some (_, (Some peer_id, name)) =>
      send_best_effort peer_id MONITOR_ACTOR (demonitor_message ref name)
  end.

(** [_MonitorActor.receive] *)
Definition monitor_actor_receive (msg : pyval) : M st unit :=
  let! op := lift (getitem msg "op") in
  let str k := (let! v := lift (getitem msg k) in lift (as_str v)) in
  if is_str op "monitor" then
      let! tgt := str "target" in
      let! ref := str "ref" in
      let! watcher_node := str "watcher_node" in
      let! watcher := str "watcher" in
      modify (add_watcher tgt ref (Some watcher_node, watcher)) ;;
      let! s := get in
      if bool_decide (is_Some (_mailboxes s !! tgt)) then ret tt
      else _send_remote watcher_node MONITOR_ACTOR
             (down_noproc_message ref watcher tgt (local_id s)) None None
  else if is_str op "demonitor" then
      let! tgt := str "target" in
      let! s := get in
      match _monitor_watchers s !! tgt with
      | None => ret tt
      | Some _ => let! ref := str "ref" in modify (drop_watcher tgt ref)
      end
  else if is_str op "down" then
      let! from_node := str "from_node" in
      let! actor := str "actor" in
      let! ref := str "ref" in
      let! reason := str "reason" in
      _deliver_down ref (remote_label from_node actor) reason
  else ret tt.

(** ** Properties *)

(** Whether [w] is recorded on this node as watching [name] under [ref]. *)
Definition watches (s : st) (name ref : string) (w : target) : Prop :=
  ∃ ws, _monitor_watchers s !! name = Some ws ∧ ws !! ref = Some w.

Lemma watches_add s name ref w n r v :
  watches (add_watcher name ref w s) n r v ↔
  (n = name ∧ r = ref ∧ v = w) ∨ (watches s n r v ∧ ¬ (n = name ∧ r = ref)).
Proof.
  unfold watches, add_watcher; simpl. rewrite lookup_insert. case_decide; subst; [|naive_solver].
  split.
  - intros (ws & [= <-] & Hr). rewrite lookup_insert in Hr. case_decide; [naive_solver|].
    destruct (_monitor_watchers s !! n) as [ws|] eqn:E; simpl in Hr.
    + right. split; [eauto|naive_solver].
    + by rewrite lookup_empty in Hr.
  - intros [(_ & -> & ->)|[(ws & -> & Hr) Hne]]; simpl; (eexists; split; [done|]).
    + by rewrite lookup_insert_eq.
    + rewrite lookup_insert_ne; naive_solver.
Qed.

Lemma watches_drop s name ref n r v :
  watches (drop_watcher name ref s) n r v ↔ watches s n r v ∧ ¬ (n = name ∧ r = ref).
Proof.
  unfold watches, drop_watcher; simpl. rewrite lookup_alter. case_decide; subst; [|naive_solver].
  destruct (_monitor_watchers s !! n) as [ws|]; simpl; [|naive_solver]. split.
  - intros (? & [= <-] & Hr). rewrite lookup_delete in Hr. case_decide; naive_solver.
  - intros [(? & [= <-] & Hr) Hne]. eexists; split; [done|]. rewrite lookup_delete_ne; naive_solver.
Qed.

(** Monitoring a local actor and then cancelling the monitor: with a
    fresh reference, [monitor] of an existing actor returns the reference,
    records the watcher on both sides and changes nothing else; [demonitor]
    of it brings both tables back to what they were. *)
Theorem monitor_demonitor_local me uuid name s :
  is_Some (_mailboxes s !! name) → _monitors s !! uuid = None →
  (∀ n w, ¬ watches s n uuid w) →
  let r := monitor (Some me) uuid (ActorRef name) s in
  let d := demonitor (Some me) uuid r.2 in
  r.1 = inr uuid ∧ d.1 = inr tt ∧
  _monitors r.2 !! uuid = Some (me, (None, name)) ∧ watches r.2 name uuid (None, me) ∧
  _monitors d.2 = _monitors s ∧ (∀ n r' w, watches d.2 n r' w ↔ watches s n r' w) ∧
  d.2 <| _monitors := ∅ |> <| _monitor_watchers := ∅ |> = s <| _monitors := ∅ |> <| _monitor_watchers := ∅ |>.
Proof.
  intros Hm Hfresh Hnw r d.
  set (s1 := add_watcher name uuid (None, me) (s <| _monitors ::= <[uuid := (me, (None, name))]> |>)).
  assert (r = (inr uuid, s1)) as Hr.
  { unfold r, monitor; simpl. by rewrite bool_decide_eq_true_2. }
  assert (d = (inr tt, drop_watcher name uuid (s1 <| _monitors ::= delete uuid |>))) as Hd.
  { unfold d. rewrite Hr /demonitor /=. by rewrite lookup_insert_eq. }
  rewrite Hd Hr; simpl. split_and!; try done.
  - by rewrite lookup_insert_eq.
  - apply watches_add. by left.
  - by rewrite delete_insert_eq delete_id.
  - intros n r' w. rewrite watches_drop.
    change (watches s1 n r' w ∧ ¬ (n = name ∧ r' = uuid) ↔ watches s n r' w).
    unfold s1. rewrite watches_add.
    change (watches _ n r' w) with (watches s n r' w).
    split; [naive_solver|]. intros Hw. split; [right; split; [done|]|]; intros [-> ->]; by eapply Hnw.
Qed.

(** Monitoring a local actor that does not exist delivers at once: the
    watcher's mailbox gets a [Down] with reason ["noproc"] and the returned
    reference, and the monitor is already forgotten. *)
Theorem monitor_noproc me uuid name s q qu :
  _mailboxes s !! name = None → _mailboxes s !! me = Some q →
  queues s !! q = Some qu → q_full qu = false →
  let r := monitor (Some me) uuid (ActorRef name) s in
  r.1 = inr uuid ∧ _monitors r.2 = delete uuid (_monitors s) ∧
  queues r.2 = <[q := qu <| q_items ::= λ l,
    l ++ [(DownMsg uuid name "noproc", MessageMeta (Some (local_id s)) None None None)] |>]> (queues s).
Proof.
  intros Hn Hm Hq Hf r. unfold r, monitor; simpl. rewrite bool_decide_eq_false_2; [rewrite Hn; by intros []|].
  unfold _deliver_down; simpl. rewrite lookup_insert_eq bool_decide_eq_true_2 ?Hm //.
  rewrite (send_local_spec _ _ _ _ _ q qu) // /put_nowait Hf /=.
  by rewrite delete_insert_eq.
Qed.

(** A monitor across nodes: the request that [monitor] on node A puts
    on the wire, given on node B to the reserved monitor actor, records A's
    watcher under A's reference; the [Down] messages B sends for it (at once
    with reason ["noproc"] when the target does not exist, or later through
    [_notify_remote_down]) are turned by A's monitor actor into the delivery
    of that reference's [Down] from [B/target]. *)
Theorem monitor_remote_handshake me uuid name reason sA sB coA coB (A B : string) :
  _core sA = Some coA → co_running coA = true → is_peer coA B → local_id sA = A →
  _core sB = Some coB → co_running coB = true → is_peer coB A → local_id sB = B →
  (∀ p v, co_refuses coA p v = None) → (∀ p v, co_refuses coB p v = None) →
  let a := monitor (Some me) uuid (RemoteRef B name) sA in
  ∃ fr, a.1 = inr uuid ∧ _monitors a.2 !! uuid = Some (me, (Some B, name)) ∧
    option_map co_out (_core a.2) = Some (co_out coA ++ [fr]) ∧
    fr_peer fr = B ∧ fr_actor fr = MONITOR_ACTOR ∧
    (let b := monitor_actor_receive (fr_payload fr) sB in
     b.1 = inr tt ∧ watches b.2 name uuid (Some A, me) ∧
     match _mailboxes sB !! name with
     | Some _ => _core b.2 = Some coB
     | None =>
         ∃ back, option_map co_out (_core b.2) = Some (co_out coB ++ [back]) ∧
           fr_peer back = A ∧ fr_actor back = MONITOR_ACTOR ∧
           ∀ s, monitor_actor_receive (fr_payload back) s =
                _deliver_down uuid (remote_label B name) "noproc" s
     end) ∧
    (let n := _notify_remote_down A uuid name reason sB in
     ∃ back, option_map co_out (_core n.2) = Some (co_out coB ++ [back]) ∧
       fr_peer back = A ∧ fr_actor back = MONITOR_ACTOR ∧
       ∀ s, monitor_actor_receive (fr_payload back) s =
            _deliver_down uuid (remote_label B name) reason s).
Proof.
  intros HcA HrA HpA HlA HcB HrB HpB HlB HfA HfB a.
  set (sA1 := sA <| _monitors ::= <[uuid := (me, (Some B, name))]> |>).
  assert (local_id sA1 = A) as HlA1 by done.
  assert (a = (inr uuid, (_send_remote B MONITOR_ACTOR (monitor_message uuid me A name) None None sA1).2)) as Ha.
  { unfold a, monitor; simpl. rewrite -/sA1 HlA1. by rewrite (send_remote_ok _ _ _ _ _ sA1 coA). }
  rewrite (send_remote_ok _ _ _ _ _ sA1 coA) // in Ha.
  eexists. rewrite Ha; simpl. split; [done|]. split; [by rewrite lookup_insert_eq|].
  do 3 (split; [done|]). split.
  - set (sB1 := add_watcher name uuid (Some A, me) sB).
    assert (watches sB1 name uuid (Some A, me)) as Hw by (apply watches_add; by left).
    assert (local_id sB1 = B) as HlB1 by done.
    unfold monitor_actor_receive; simpl. rewrite -/sB1.
    destruct (_mailboxes sB !! name) as [q|] eqn:Em; [by rewrite bool_decide_eq_true_2|].
    rewrite bool_decide_eq_false_2; [by intros []|].
    rewrite HlB1 (send_remote_ok _ _ _ _ _ sB1 coB) //=. split; [done|]. split; [done|].
    eexists; split_and!; done.
  - unfold _notify_remote_down; simpl. unfold send_best_effort; simpl.
    rewrite HlB (send_remote_ok _ _ _ _ _ sB coB) //=. eexists; split_and!; done.
Qed.

End monitors.
