(* ===== verification/Groups.v ===== *)
(** * Process groups

    [src/lapinbeam/groups.py]: [join_group]/[leave_group]/[members], the
    deltas and snapshots nodes exchange, and the reserved actor
    [__lapinbeam_groups__].  The theorems relate the membership table of one
    node to what another one believes of it. *)

From S2P Require Import Prelude Values NodeId Actors State PeerEvents Asyncio Node NodeProps Links.

Definition GROUPS_ACTOR : string := "__lapinbeam_groups__".

(** [_me(ref)]: the explicit reference, or the running actor. *)
Definition group_me (ref current : option string) : M st string :=
  match ref with
  | Some r => ret r
  | None =>
      match current with
      | Some me => ret me
      | None => raise (RuntimeError "join_group()/leave_group() need an explicit ref= outside of a running actor")
      end
  end.

(** [node._groups.setdefault(group, set()).add(m)] *)
Definition add_member (group : string) (m : member) (s : st) : st :=
  s <| _groups ::= λ gm, <[group := {[m]} ∪ default ∅ (gm !! group)]> gm |>.

(** [node._groups.get(group, set()).discard(m)] *)
Definition discard_member (group : string) (m : member) (s : st) : st :=
  s <| _groups ::= alter (λ ms, ms ∖ {[m]}) group |>.

Definition join_group (group : string) (ref current : option string) : M st unit :=
  let! me := group_me ref current in
  let! s := get in
  let m := (local_id s, me) in
  modify (add_member group m) ;; group_broadcast group m VAdd.

Definition leave_group (group : string) (ref current : option string) : M st unit :=
  let! me := group_me ref current in
  let! s := get in
  let m := (local_id s, me) in
  modify (discard_member group m) ;; group_broadcast group m VRemove.

(** [members] *)
Definition members (s : st) (group : string) : list actor_ref :=
  (λ m : member, if bool_decide (m.1 = local_id s) then ActorRef m.2 else RemoteRef m.1 m.2)
    <$> elements (default ∅ (_groups s !! group)).

Definition group_verb (v : verb) : string := match v with VAdd => "join" | VRemove => "leave" end.

Definition group_delta_message (group : string) (m : member) (v : verb) : pyval :=
  PDict [("op", PStr "delta"); ("group", PStr group); ("member", pair_list m);
         ("verb", PStr (group_verb v))].

(** The groups with members, in the dict the snapshot is made of. *)
Definition group_snapshot (s : st) : list (string * pyval) :=
  (λ gm : string * gset member, (gm.1, PList (pair_list <$> elements gm.2)))
    <$> filter (λ gm, gm.2 ≠ ∅) (map_to_list (_groups s)).

Definition group_snapshot_message (s : st) : pyval :=
  PDict [("op", PStr "snapshot"); ("groups", PDict (group_snapshot s))].

Section groups.
Context {codec : PayloadCodec}.

Definition group_send_delta (peer_id group : string) (m : member) (v : verb) : M st unit :=
  send_best_effort peer_id GROUPS_ACTOR (group_delta_message group m v).

Definition group_send_snapshot (peer_id : string) : M st unit :=
  let! s := get in
  match group_snapshot s with
  | [] => ret tt
  | _ => send_best_effort peer_id GROUPS_ACTOR (group_snapshot_message s)
  end.

End groups.

(** One group of a snapshot: [bucket.add(tuple(m))] for each [m]. *)
Definition add_snapshot_group (g : string * pyval) : M st unit :=
  modify (λ s, s <| _groups ::= λ gm, <[g.1 := default ∅ (gm !! g.1)]> gm |>) ;;
  let! ms := lift (as_list g.2) in
  for_each ms (λ v, let! m := lift (as_pair v) in modify (add_member g.1 m)).

(** [_GroupsActor.receive] *)
Definition groups_actor_receive (msg : pyval) : M st unit :=
  let! op := lift (getitem msg "op") in
  if is_str op "delta" then
      let! m_v := lift (getitem msg "member") in
      let! m := lift (as_pair m_v) in
      let! group_v := lift (getitem msg "group") in
      let! group := lift (as_str group_v) in
      let! verb_v := lift (getitem msg "verb") in
      if is_str verb_v "join" then modify (add_member group m)
      else modify (discard_member group m)
  else if is_str op "snapshot" then
      let! groups_v := lift (getitem msg "groups") in
      let! kvs := lift (as_items groups_v) in
      for_each kvs add_snapshot_group
  else ret tt.

#[global] Arguments groups_actor_receive : simpl never.
#[global] Arguments group_delta_message : simpl never.
#[global] Arguments add_snapshot_group : simpl never.

(** ** Membership as a relation *)

Definition is_member (s : st) (g : string) (m : member) : Prop :=
  ∃ ms, _groups s !! g = Some ms ∧ m ∈ ms.

Lemma is_member_add s g m g' m' :
  is_member (add_member g m s) g' m' ↔ (g' = g ∧ m' = m) ∨ is_member s g' m'.
Proof.
  unfold is_member, add_member; simpl. rewrite lookup_insert. case_decide; subst; [|naive_solver].
  split.
  - intros (ms & [= <-] & [->%elem_of_singleton|Hu]%elem_of_union); [by left|right].
    destruct (_groups s !! g') as [ms|]; simpl in Hu; [eauto|set_solver].
  - intros [[_ ->]|(ts & -> & Hu)]; simpl; (eexists; split; [done|set_solver]).
Qed.

Lemma is_member_discard s g m g' m' :
  is_member (discard_member g m s) g' m' ↔ is_member s g' m' ∧ ¬ (g' = g ∧ m' = m).
Proof.
  unfold is_member, discard_member; simpl. rewrite lookup_alter. case_decide; subst; [|naive_solver].
  destruct (_groups s !! g') as [ms|]; simpl; [|naive_solver]. split.
  - intros (? & [= <-] & ?). set_solver.
  - intros [(? & [= <-] & ?) ?]. eexists; split; [done|]. set_solver.
Qed.

(** [members] lists each member of the group exactly once, a local one
    as an [ActorRef] and any other as a [RemoteRef] to its node. *)
Theorem members_exact s g r :
  NoDup (members s g) ∧
  (r ∈ members s g ↔
   match r with
   | ActorRef n => is_member s g (local_id s, n)
   | RemoteRef p n => p ≠ local_id s ∧ is_member s g (p, n)
   end).
Proof.
  unfold members. split.
  - apply NoDup_fmap_2_strong; [|apply NoDup_elements].
    intros [p1 n1] [p2 n2] _ _; simpl. do 2 case_bool_decide; naive_solver.
  - rewrite list_elem_of_fmap. unfold is_member.
    destruct (_groups s !! g) as [ms|]; simpl; [|rewrite elements_empty; split; [set_solver|]; by destruct r; naive_solver].
    split.
    + intros ([p n] & -> & Hin%elem_of_elements); simpl. case_bool_decide; subst; eauto.
    + destruct r as [n|p n].
      * intros (? & [= <-] & Hin). exists (local_id s, n). split; [by rewrite /= bool_decide_eq_true_2|].
        by apply elem_of_elements.
      * intros (Hne & ? & [= <-] & Hin). exists (p, n). split; [by rewrite /= bool_decide_eq_false_2|].
        by apply elem_of_elements.
Qed.

(** ** Replication of one node's memberships on another *)

(** The operations by which the local actors of a node change its own
    memberships. *)
Inductive group_op :=
| GJoin (group name : string)
| GLeave (group name : string)
| GClear (name : string).        (* a generation of [name] ended *)

Definition run_group_op (o : group_op) (s : st) : st :=
  match o with
  | GJoin g n => exec (join_group g (Some n) None) s
  | GLeave g n => exec (leave_group g (Some n) None) s
  | GClear n => exec (_clear_groups n) s
  end.

(** The message a scheduled job sends to peer [B], if it is a delta for it. *)
Definition delta_for (B : string) (j : job) : option pyval :=
  match j with
  | JGroupDelta p g m v => if bool_decide (p = B) then Some (group_delta_message g m v) else None
  | _ => None
  end.

Fixpoint receive_all (msgs : list pyval) (s : st) : st :=
  match msgs with
  | [] => s
  | m :: msgs' => receive_all msgs' (exec (groups_actor_receive m) s)
  end.

Lemma receive_all_app l1 l2 s : receive_all (l1 ++ l2) s = receive_all l2 (receive_all l1 s).
Proof. revert s. induction l1; intros s; simpl; [done|]. apply IHl1. Qed.

(** [sB] agrees with [sA] about the members that live on [A]. *)
Definition agrees (A : string) (sA sB : st) : Prop :=
  ∀ g n, is_member sA g (A, n) ↔ is_member sB g (A, n).

Definition same_elsewhere (A : string) (s s' : st) : Prop :=
  ∀ g m, m.1 ≠ A → is_member s' g m ↔ is_member s g m.

Lemma receive_delta g m v s :
  groups_actor_receive (group_delta_message g m v) s =
  (inr tt, match v with VAdd => add_member g m s | VRemove => discard_member g m s end).
Proof. destruct m as [a b]. by destruct v. Qed.

Lemma omap_delta_jobs B ps (g : string) (m : member) v :
  B ∈ ps →
  omap (delta_for B) (delta_jobs (Some ps) (λ p, JGroupDelta p g m v)) = [group_delta_message g m v].
Proof.
  intros HB. simpl. pose proof (NoDup_elements ps) as Hnd.
  apply elem_of_elements in HB. induction (elements ps) as [|p l IH]; [set_solver|].
  apply list.NoDup_cons in Hnd as [Hnp Hnd]. simpl. case_bool_decide; subst.
  - f_equal. clear IH Hnd HB. induction l as [|q l IH]; simpl; [done|].
    rewrite bool_decide_eq_false_2; [set_solver|]. apply IH. set_solver.
  - apply IH; first [done|set_solver].
Qed.

(** What one operation schedules for [B], as the list of deltas it is. *)
Definition op_deltas (A : string) (s : st) (o : group_op) : list pyval :=
  match o with
  | GJoin g n => [group_delta_message g (A, n) VAdd]
  | GLeave g n => [group_delta_message g (A, n) VRemove]
  | GClear n => (λ g, group_delta_message g (A, n) VRemove) <$> groups_of s (A, n)
  end.

Record replicating (A B : string) (s : st) : Prop := {
  rp_local : local_id s = A;
  rp_peer : ∃ ps, _group_peers s = Some ps ∧ B ∈ ps;
  rp_hook : _group_leave_hook s = true
}.

Lemma run_group_op_jobs A B o s :
  replicating A B s →
  ∃ new, jobs (run_group_op o s) = jobs s ++ new ∧
    omap (delta_for B) new = op_deltas A s o ∧ replicating A B (run_group_op o s).
Proof.
  intros [HA (ps & Hps & HB) Hh]. destruct o as [g n|g n|n]; simpl.
  - unfold join_group; simpl. rewrite group_broadcast_spec /= Hps HA.
    eexists; split; [done|]. split; [by apply omap_delta_jobs|]. by constructor; eauto.
  - unfold leave_group; simpl. rewrite group_broadcast_spec /= Hps HA.
    eexists; split; [done|]. split; [by apply omap_delta_jobs|]. by constructor; eauto.
  - rewrite clear_groups_spec /= /leave_jobs Hh Hps HA.
    eexists; split; [done|]. split; [|by constructor; eauto].
    induction (groups_of s (A, n)) as [|g gs IH]; [done|].
    rewrite bind_cons omap_app fmap_cons (omap_delta_jobs B ps) //=. by rewrite IH.
Qed.

Lemma receive_removals A n gs : ∀ s,
  let s' := receive_all ((λ g, group_delta_message g (A, n) VRemove) <$> gs) s in
  ∀ g m, is_member s' g m ↔ is_member s g m ∧ ¬ (g ∈ gs ∧ m = (A, n)).
Proof.
  induction gs as [|g0 gs IH]; intros s; simpl.
  { intros g m. set_solver. }
  intros g m. rewrite IH is_member_discard. set_solver.
Qed.

Lemma group_op_agrees A o sA sB :
  local_id sA = A → agrees A sA sB →
  agrees A (run_group_op o sA) (receive_all (op_deltas A sA o) sB) ∧
  same_elsewhere A sB (receive_all (op_deltas A sA o) sB).
Proof.
  intros HA Hag. destruct o as [g n|g n|n]; simpl.
  - unfold join_group; simpl. rewrite group_broadcast_spec /= HA.
    split; [intros g' n'|intros g' m' Hm'].
    + rewrite (is_member_add sB). rewrite -(Hag g' n').
      change (is_member (add_member g (A, n) sA) g' (A, n') ↔ (g' = g ∧ (A, n') = (A, n)) ∨ is_member sA g' (A, n')).
      by rewrite is_member_add.
    + rewrite is_member_add. naive_solver.
  - unfold leave_group; simpl. rewrite group_broadcast_spec /= HA.
    split; [intros g' n'|intros g' m' Hm'].
    + rewrite (is_member_discard sB). rewrite -(Hag g' n').
      change (is_member (discard_member g (A, n) sA) g' (A, n') ↔ is_member sA g' (A, n') ∧ ¬ (g' = g ∧ (A, n') = (A, n))).
      by rewrite is_member_discard.
    + rewrite is_member_discard. naive_solver.
  - split; [intros g' n'|intros g' m' Hm'].
    + rewrite receive_removals -(Hag g' n'). rewrite clear_groups_spec HA.
      rewrite /is_member /= lookup_fmap elem_of_groups_of /=.
      destruct (_groups sA !! g') as [ms|]; simpl; [|naive_solver]. split.
      * intros (? & [= <-] & [Hin Hne]%elem_of_difference). set_solver.
      * intros [(? & [= <-] & Hin) Hne]. eexists; split; [done|]. set_solver.
    + rewrite receive_removals. naive_solver.
Qed.

Lemma run_group_op_agrees A B o sA sB :
  replicating A B sA → agrees A sA sB →
  agrees A (run_group_op o sA) (receive_all (op_deltas A sA o) sB) ∧
  same_elsewhere A sB (receive_all (op_deltas A sA o) sB).
Proof. intros [HA _ _]. by apply group_op_agrees. Qed.

(** Deltas replicate: if node B agrees with node A about A's members
    and is one of A's peers, then after any sequence of joins, leaves and
    ends of generations on A, the messages that A's jobs send to B, received
    in order, make B agree with A again, and leave what B knows of every
    other node alone. *)
Theorem group_replication A B ops : ∀ sA sB,
  replicating A B sA → agrees A sA sB →
  let sA' := foldl (λ s o, run_group_op o s) sA ops in
  ∃ new, jobs sA' = jobs sA ++ new ∧
    let sB' := receive_all (omap (delta_for B) new) sB in
    agrees A sA' sB' ∧ same_elsewhere A sB sB'.
Proof.
  induction ops as [|o ops IH]; intros sA sB Hrp Hag; simpl.
  { exists []. rewrite app_nil_r. by split_and!. }
  destruct (run_group_op_jobs A B o sA Hrp) as (new1 & Hj1 & Hd1 & Hrp1).
  destruct (run_group_op_agrees A B o sA sB Hrp Hag) as [Hag1 Hse1].
  destruct (IH _ _ Hrp1 Hag1) as (new2 & Hj2 & Hag2 & Hse2).
  exists (new1 ++ new2). split; [by rewrite Hj2 Hj1 app_assoc|].
  rewrite omap_app receive_all_app Hd1. split; [done|].
  intros g m Hm. rewrite (Hse2 g m Hm). by apply Hse1.
Qed.

(** ** Snapshots *)

Lemma add_snapshot_group_spec g ms s :
  ∃ s', add_snapshot_group (g, PList (pair_list <$> ms)) s = (inr tt, s') ∧
    ∀ g' m, is_member s' g' m ↔ (g' = g ∧ m ∈ ms) ∨ is_member s g' m.
Proof.
  unfold add_snapshot_group; simpl.
  set (s1 := s <| _groups ::= λ gm, <[g := default ∅ (gm !! g)]> gm |>).
  assert (∀ g' m, is_member s1 g' m ↔ is_member s g' m) as H1.
  { intros g' m. unfold is_member; simpl. rewrite lookup_insert. case_decide; [|done]. subst.
    destruct (_groups s !! g'); simpl; [done|]. split; [|naive_solver].
    intros (? & [= <-] & ?). set_solver. }
  assert (∀ s0, ∃ s', for_each (pair_list <$> ms) (λ v, let! m := lift (as_pair v) in
      modify (add_member g m)) s0 = (inr tt, s') ∧
      ∀ g' m, is_member s' g' m ↔ (g' = g ∧ m ∈ ms) ∨ is_member s0 g' m) as Hloop.
  { induction ms as [|m ms IH]; intros s0.
    - eexists; split; [done|]. set_solver.
    - rewrite fmap_cons. cbn -[fmap add_member as_pair pair_list]. rewrite as_pair_list. destruct (IH (add_member g m s0)) as (s' & -> & Hs').
      eexists; split; [done|]. intros g' m'. rewrite Hs' is_member_add. set_solver. }
  destruct (Hloop s1) as (s' & Hs' & Hm). exists s'. split; [exact Hs'|].
  intros g' m. by rewrite Hm H1.
Qed.

Lemma receive_snapshot_groups (kvs : list (string * gset member)) : ∀ s,
  ∃ s', for_each ((λ gm : string * gset member, (gm.1, PList (pair_list <$> elements gm.2))) <$> kvs)
          add_snapshot_group s = (inr tt, s') ∧
    ∀ g m, is_member s' g m ↔ (∃ ms, (g, ms) ∈ kvs ∧ m ∈ ms) ∨ is_member s g m.
Proof.
  induction kvs as [|[g0 ms0] kvs IH]; intros s.
  { eexists; split; [done|]. set_solver. }
  rewrite fmap_cons. cbn -[fmap].
  destruct (add_snapshot_group_spec g0 (elements ms0) s) as (s1 & -> & H1).
  destruct (IH s1) as (s' & -> & Hs'). eexists; split; [done|].
  intros g m. rewrite Hs' H1. rewrite elem_of_elements.
  split.
  - intros [(ms & Hin & Hm)|[[-> Hm]|Hm]]; [left; exists ms; set_solver|left; exists ms0; set_solver|by right].
  - intros [(ms & [[= -> ->]|Hin]%elem_of_cons & Hm)|Hm]; eauto.
Qed.

Lemma receive_snapshot_union sC s :
  ∃ s', groups_actor_receive (group_snapshot_message sC) s = (inr tt, s') ∧
    ∀ g m, is_member s' g m ↔ is_member s g m ∨ is_member sC g m.
Proof.
  destruct (receive_snapshot_groups (filter (λ gm, gm.2 ≠ ∅) (map_to_list (_groups sC))) s)
    as (s' & Hs' & Hm).
  exists s'. split; [exact Hs'|]. intros g m. rewrite Hm. unfold is_member at 3. split.
  - intros [(ms & [_ Hl]%list_elem_of_filter & Hin)|H]; [|by left].
    right. apply elem_of_map_to_list in Hl. eauto.
  - intros [H|(ms & Hl & Hin)]; [by right|left]. exists ms. split; [|done].
    apply list_elem_of_filter. split; [set_solver|]. by apply elem_of_map_to_list.
Qed.

(** A first connection: a receiver that knows no member of [A] agrees with
    [A] once it has [A]'s snapshot. *)
Lemma group_snapshot_agrees A sA s s' :
  (∀ g n, ¬ is_member s g (A, n)) →
  groups_actor_receive (group_snapshot_message sA) s = (inr tt, s') → agrees A sA s'.
Proof.
  intros Hno Hr. destruct (receive_snapshot_union sA s) as (s1 & Hs1 & Hm).
  rewrite Hs1 in Hr. simplify_eq. intros g n. rewrite Hm. naive_solver.
Qed.

(** ** A member that nobody removes *)

Definition touches (g n : string) (o : group_op) : Prop :=
  match o with
  | GJoin g' n' | GLeave g' n' => g' = g ∧ n' = n
  | GClear _ => False
  end.

Lemma run_group_op_untouched A g n o sA :
  local_id sA = A → ¬ touches g n o → ¬ is_member sA g (A, n) →
  ¬ is_member (run_group_op o sA) g (A, n).
Proof.
  intros HA Ht Hno. destruct o as [g' n'|g' n'|n']; simpl in *.
  - unfold join_group; simpl. rewrite group_broadcast_spec HA /=.
    change (¬ is_member (add_member g' (A, n') sA) g (A, n)). rewrite is_member_add. naive_solver.
  - unfold leave_group; simpl. rewrite group_broadcast_spec HA /=.
    change (¬ is_member (discard_member g' (A, n') sA) g (A, n)). rewrite is_member_discard. naive_solver.
  - rewrite clear_groups_spec. intros (ms & Hl & Hin). simpl in Hl.
    rewrite lookup_fmap in Hl. apply fmap_Some in Hl as (ms0 & Hl & ->).
    apply Hno. exists ms0. set_solver.
Qed.

Lemma op_deltas_untouched A g n o sA sB :
  ¬ touches g n o → ¬ is_member sA g (A, n) → is_member sB g (A, n) →
  is_member (receive_all (op_deltas A sA o) sB) g (A, n).
Proof.
  intros Ht Hno Hin. destruct o as [g' n'|g' n'|n']; simpl in *.
  - apply (is_member_add sB). by right.
  - apply (is_member_discard sB). naive_solver.
  - apply receive_removals. split; [done|]. intros [Hg [= <-]].
    by apply Hno, elem_of_groups_of.
Qed.

(** A snapshot from a third node can bring back a member for good.  Let
    [n] of node A not be in group [g] any more, and let node C, which has not
    processed the departure yet, send its snapshot to B.  Then B lists [A]'s
    [n] again, and no later activity on A (joins and leaves of anything else,
    and the end of any generation, also of [n] itself) makes A send B a
    message that removes it. *)
Theorem group_stale_snapshot_ghost A B g n ops : ∀ sA sB sC,
  replicating A B sA → ¬ is_member sA g (A, n) → is_member sC g (A, n) →
  Forall (λ o, ¬ touches g n o) ops →
  let sB1 := exec (groups_actor_receive (group_snapshot_message sC)) sB in
  let sA' := foldl (λ s o, run_group_op o s) sA ops in
  ∃ new, jobs sA' = jobs sA ++ new ∧ ¬ is_member sA' g (A, n) ∧
         is_member (receive_all (omap (delta_for B) new) sB1) g (A, n).
Proof.
  intros sA sB sC Hrp Hno HC Hops sB1.
  assert (is_member sB1 g (A, n)) as HB.
  { unfold sB1. destruct (receive_snapshot_union sC sB) as (s' & Hs' & Hm).
    simpl. rewrite Hs' /=. apply Hm. by right. }
  clearbody sB1. clear sB sC HC. revert sA sB1 Hrp Hno HB.
  induction Hops as [|o ops Ho _ IH]; intros sA sB Hrp Hno HB; simpl.
  { exists []. rewrite app_nil_r. by split_and!. }
  destruct (run_group_op_jobs A B o sA Hrp) as (new1 & Hj1 & Hd1 & Hrp1).
  destruct (IH (run_group_op o sA) (receive_all (op_deltas A sA o) sB)) as (new2 & Hj2 & Hno2 & HB2).
  - done.
  - apply run_group_op_untouched; [apply Hrp|done..].
  - by apply op_deltas_untouched.
  - exists (new1 ++ new2). split; [by rewrite Hj2 Hj1 app_assoc|]. split; [done|].
    by rewrite omap_app receive_all_app Hd1.
Qed.
