(* ===== verification/Registry.v ===== *)
(** * Cluster-wide names

    [src/lapinbeam/registry.py]: [register_name]/[unregister_name]/
    [whereis_name], the deltas and snapshots, and the reserved actor
    [__lapinbeam_registry__]. *)

From S2P Require Import Prelude Values NodeId Actors State PeerEvents Asyncio Node NodeProps Links.

Definition REGISTRY_ACTOR : string := "__lapinbeam_registry__".

Definition registry_me (ref current : option string) : M st string :=
  match ref with
  | Some r => ret r
  | None =>
      match current with
      | Some me => ret me
      | None => raise (RuntimeError "register_name()/unregister_name() need an explicit ref= outside of a running actor")
      end
  end.

(** [repr] of the [(node, actor)] tuple in the error message. *)
Definition member_repr (o : member) : string :=
  "(" +:+ py_repr o.1 +:+ ", " +:+ py_repr o.2 +:+ ")".

Definition already_registered (name : string) (o : member) : exn :=
  ValueError ("name " +:+ py_repr name +:+ " is already registered to " +:+ member_repr o).

Definition claim_name (name : string) (o : member) (s : st) : st :=
  s <| _registry ::= <[name := o]> |>.

Definition register_name (name : string) (ref current : option string) : M st unit :=
  let! me := registry_me ref current in
  let! s := get in
  let owner := (local_id s, me) in
  match _registry s !! name with
  | Some existing =>
      if bool_decide (existing ≠ owner) then raise (already_registered name existing)
      else modify (claim_name name owner) ;; registry_broadcast name owner VAdd
  | None => modify (claim_name name owner) ;; registry_broadcast name owner VAdd
  end.

Definition unregister_name (name : string) (ref current : option string) : M st unit :=
  let! me := registry_me ref current in
  let! s := get in
  let owner := (local_id s, me) in
  if bool_decide (_registry s !! name = Some owner) then
    modify (λ s, s <| _registry ::= delete name |>) ;; registry_broadcast name owner VRemove
  else ret tt.

Definition whereis_name (s : st) (name : string) : option actor_ref :=
  match _registry s !! name with
  | None => None
  | Some (origin, actor_name) =>
      Some (if bool_decide (origin = local_id s) then ActorRef actor_name
            else RemoteRef origin actor_name)
  end.

Definition registry_verb (v : verb) : string := match v with VAdd => "claim" | VRemove => "release" end.

Definition registry_delta_message (name : string) (o : member) (v : verb) : pyval :=
  PDict [("op", PStr "delta"); ("name", PStr name); ("owner", pair_list o);
         ("verb", PStr (registry_verb v))].

Definition registry_snapshot (s : st) : list (string * pyval) :=
  (λ no : string * member, (no.1, pair_list no.2)) <$> map_to_list (_registry s).

Definition registry_snapshot_message (s : st) : pyval :=
  PDict [("op", PStr "snapshot"); ("registry", PDict (registry_snapshot s))].

Section registry.
Context {codec : PayloadCodec}.

Definition registry_send_delta (peer_id name : string) (o : member) (v : verb) : M st unit :=
  send_best_effort peer_id REGISTRY_ACTOR (registry_delta_message name o v).

Definition registry_send_snapshot (peer_id : string) : M st unit :=
  let! s := get in
  match registry_snapshot s with
  | [] => ret tt
  | _ => send_best_effort peer_id REGISTRY_ACTOR (registry_snapshot_message s)
  end.

End registry.

(** A claim heard from another node: the first one stands. *)
Definition hear_claim (name : string) (owner : member) : M st unit :=
  let! s := get in
  match _registry s !! name with
  | Some existing =>
      if bool_decide (existing ≠ owner) then _on_core_event (EvRegistryConflict name existing owner)
      else modify (claim_name name owner)
  | None => modify (claim_name name owner)
  end.

(** A release: only the owner it names is removed. *)
Definition hear_release (name : string) (owner : member) : M st unit :=
  let! s := get in
  if bool_decide (_registry s !! name = Some owner)
  then modify (λ s, s <| _registry ::= delete name |>) else ret tt.

(** [_RegistryActor.receive] *)
Definition registry_actor_receive (msg : pyval) : M st unit :=
  let! op := lift (getitem msg "op") in
  if is_str op "delta" then
      let! name_v := lift (getitem msg "name") in
      let! name := lift (as_str name_v) in
      let! owner_v := lift (getitem msg "owner") in
      let! owner := lift (as_pair owner_v) in
      let! verb_v := lift (getitem msg "verb") in
      if is_str verb_v "claim" then hear_claim name owner
      else hear_release name owner
  else if is_str op "snapshot" then
      let! reg_v := lift (getitem msg "registry") in
      let! kvs := lift (as_items reg_v) in
      for_each kvs (λ no, let! owner := lift (as_pair no.2) in hear_claim no.1 owner)
  else ret tt.

#[global] Arguments hear_claim : simpl never.
#[global] Arguments hear_release : simpl never.
#[global] Arguments registry_actor_receive : simpl never.

(** ** Properties *)

(** An event other than a disconnection leaves the names alone. *)
Lemma conflict_registry name e o s :
  _registry (exec (_on_core_event (EvRegistryConflict name e o)) s) = _registry s.
Proof.
  unfold _on_core_event; simpl.
  apply (for_each_invariant (λ s', _registry s' = _registry s)); [|done].
  intros l s1 H1. rewrite -H1. destruct l as [| | |id []]; done.
Qed.

Lemma hear_claim_spec name owner s :
  outcome_of (hear_claim name owner) s = inr tt ∧
  _registry (exec (hear_claim name owner) s) =
    match _registry s !! name with
    | Some _ => _registry s
    | None => <[name := owner]> (_registry s)
    end.
Proof.
  unfold hear_claim; simpl. destruct (_registry s !! name) as [e|] eqn:E; [|done].
  case_bool_decide as Hne.
  - pose proof (conflict_registry name e owner s) as Hr.
    pose proof (on_core_event_spec (EvRegistryConflict name e owner) s) as [Ho _]. done.
  - destruct (decide (e = owner)) as [->|]; [|done]. simpl. by rewrite insert_id.
Qed.

Lemma hear_claim_keeps n ow name o s :
  _registry s !! name = Some o → _registry (exec (hear_claim n ow) s) !! name = Some o.
Proof.
  intros H0. destruct (hear_claim_spec n ow s) as [_ ->].
  destruct (_registry s !! n) eqn:E; [done|]. rewrite lookup_insert_ne; congruence.
Qed.

Lemma hear_release_keeps n ow name o s :
  _registry s !! name = Some o →
  let s' := exec (hear_release n ow) s in
  _registry s' !! name = Some o ∨ (_registry s' !! name = None ∧ n = name ∧ ow = o).
Proof.
  intros H0. unfold hear_release; simpl. case_bool_decide; simpl; [|by left].
  rewrite lookup_delete. case_decide; subst; [right; naive_solver|by left].
Qed.

Lemma register_name_keeps name' ref cur name o s :
  _registry s !! name = Some o →
  _registry (exec (register_name name' ref cur) s) !! name = Some o.
Proof.
  intros Ho. unfold register_name, registry_me; simpl.
  assert (∀ me, (_registry s !! name' = None ∨ _registry s !! name' = Some me) →
    _registry (registry_broadcast name' me VAdd (claim_name name' me s)).2 !! name = Some o) as Hcl.
  { intros me H1. rewrite registry_broadcast_spec /=. rewrite lookup_insert.
    case_decide; naive_solver. }
  destruct ref as [me|]; [|destruct cur as [me|]; [|done]]; simpl;
    (destruct (_registry s !! name') as [e|] eqn:E; simpl; [case_bool_decide as Hne; simpl; [done|]|]);
    apply Hcl; first [by left | right; by destruct (decide (e = (local_id s, me))); naive_solver].
Qed.

(** Names are never taken over.  Whatever message reaches the registry
    actor and whatever local actor registers a name, a name with an owner
    keeps that owner; the only message that frees it is a delta that is not a
    claim, sent for that name and that same owner. *)
Theorem registry_no_takeover name o s :
  _registry s !! name = Some o →
  (∀ msg, let s' := exec (registry_actor_receive msg) s in
     _registry s' !! name = Some o ∨
     (_registry s' !! name = None ∧ getitem msg "op" = inr (PStr "delta") ∧
      getitem msg "name" = inr (PStr name) ∧ getitem msg "verb" ≠ inr (PStr "claim") ∧
      (∃ v, getitem msg "owner" = inr v ∧ as_pair v = inr o))) ∧
  (∀ name' ref cur, _registry (exec (register_name name' ref cur) s) !! name = Some o).
Proof.
  intros Ho. split; [|intros; by apply register_name_keeps].
  intros msg. unfold registry_actor_receive; simpl.
  destruct (getitem msg "op") as [|op]; simpl; [by left|].
  destruct (is_str op "delta") eqn:Ed; [apply is_str_true in Ed as ->|
    destruct (is_str op "snapshot"); [|by left]]; simpl.
  - destruct (getitem msg "name") as [|nv] eqn:En; simpl; [by left|].
    destruct nv as [| | | |n| | | |]; simpl; try by left.
    destruct (getitem msg "owner") as [|ov] eqn:Eo; simpl; [by left|].
    destruct (as_pair ov) as [|ow] eqn:Ep; simpl; [by left|].
    destruct (getitem msg "verb") as [|vv]; simpl; [by left|].
    destruct (is_str vv "claim") eqn:Ev; [left; by apply hear_claim_keeps|].
    destruct (hear_release_keeps n ow name o s Ho) as [?|(? & -> & ->)]; [by left|].
    right. split_and!; try done; [|by eauto]. intros [= ->]. done.
  - destruct (getitem msg "registry") as [|rv]; simpl; [by left|].
    destruct (as_items rv) as [|kvs]; simpl; [by left|]. left.
    apply (for_each_invariant (λ s, _registry s !! name = Some o)); [|done].
    intros [n v] s1 H1; simpl. destruct (as_pair v) as [|ow]; simpl; [done|]. by apply hear_claim_keeps.
Qed.

(** Registering, looking up and releasing a name on one node: for a free
    name (or one already owned by the same actor) [register_name] succeeds
    and [whereis_name] then finds the actor; for a name owned by anybody else
    it raises [ValueError] and changes nothing; and [unregister_name] by the
    owner frees it, by anybody else it is a no-op. *)
Theorem register_name_roundtrip name me s :
  let owner := (local_id s, me) in
  let r := register_name name (Some me) None s in
  if bool_decide (_registry s !! name = None ∨ _registry s !! name = Some owner)
  then r.1 = inr tt ∧ whereis_name r.2 name = Some (ActorRef me) ∧
       let u := unregister_name name (Some me) None r.2 in
       u.1 = inr tt ∧ whereis_name u.2 name = None
  else (∃ e, r = (inl e, s) ∧ exn_type e = "ValueError") ∧
       unregister_name name (Some me) None s = (inr tt, s).
Proof.
  simpl. set (owner := (local_id s, me)). case_bool_decide as Hc.
  - assert (register_name name (Some me) None s =
            registry_broadcast name owner VAdd (claim_name name owner s)) as Hr.
    { unfold register_name; simpl. destruct (_registry s !! name) as [e|] eqn:E; [|done].
      rewrite bool_decide_eq_false_2 //. rewrite -/owner. naive_solver. }
    rewrite Hr registry_broadcast_spec /=. split; [done|]. split.
    { unfold whereis_name; simpl. rewrite lookup_insert_eq /=. by rewrite bool_decide_eq_true_2. }
    unfold unregister_name; simpl. rewrite bool_decide_eq_true_2; [by rewrite lookup_insert_eq|].
    rewrite /= registry_broadcast_spec /=. split; [done|].
    unfold whereis_name; simpl. by rewrite lookup_delete_eq.
  - apply Decidable.not_or in Hc as [H1 H2]. destruct (_registry s !! name) as [e|] eqn:E; [|done]. split.
    + exists (already_registered name e). split; [|done].
      unfold register_name; simpl. rewrite E bool_decide_eq_true_2 //. rewrite -/owner. naive_solver.
    + unfold unregister_name; simpl. rewrite -/owner E. by rewrite bool_decide_eq_false_2.
Qed.

(** Conflicting claims: a claim heard for a name that another actor owns
    changes no name and is reported to every listener as one
    [registry_conflict] naming both owners; a claim for a free name is taken. *)
Theorem registry_conflict_reported name o s :
  let r := registry_actor_receive (registry_delta_message name o VAdd) s in
  r.1 = inr tt ∧
  match _registry s !! name with
  | None => r.2 = claim_name name o s
  | Some e =>
      _registry r.2 = _registry s ∧
      reported r.2 = reported s ++
        (if bool_decide (e = o) then []
         else user_reports (_event_listeners s) (EvRegistryConflict name e o))
  end.
Proof.
  simpl. assert (registry_actor_receive (registry_delta_message name o VAdd) s = hear_claim name o s) as ->.
  { by destruct o. }
  destruct (hear_claim_spec name o s) as [Ho Hr]. simpl in *. split; [done|].
  destruct (_registry s !! name) as [e|] eqn:E.
  - split; [done|]. unfold hear_claim; simpl. rewrite E. case_bool_decide as Hne.
    + rewrite bool_decide_eq_false_2 //. apply (on_core_event_spec (EvRegistryConflict name e o) s).
    + rewrite bool_decide_eq_true_2; [by destruct (decide (e = o))|]. by rewrite app_nil_r.
  - unfold hear_claim; simpl. by rewrite E.
Qed.
