(* ===== verification/Discovery.v ===== *)
(** * Seed discovery

    [src/lapinbeam/discovery.py]: the actor that answers
    ["WHO_DO_YOU_KNOW"] and [join_via_seeds], a breadth-first search over the
    cluster.  What happens on the network is a parameter: what contacting a
    peer ([connect_peer] and the [ask]) ends with. *)

From S2P Require Import Prelude Values NodeId Actors State.

Definition DISCOVERY_ACTOR : string := "discovery".

(** [sorted(self.known)]: insertion sort of the elements by [<] on strings. *)
Fixpoint insert_sorted (x : string) (l : list string) : list string :=
  match l with
  | [] => [x]
  | y :: l' => if String.leb x y then x :: l else y :: insert_sorted x l'
  end.

Definition sorted_known (known : gset string) : list string :=
  foldr insert_sorted [] (elements known).

(** [_DiscoveryActor.receive]: the reply it sends, if any.  A message without
    [get] makes the handler raise. *)
Definition discovery_actor_reply (known : gset string) (msg : pyval) : exn + option pyval :=
  match dict_get msg "type" with
  | inl e => inl e
  | inr v =>
      if is_str v "WHO_DO_YOU_KNOW"
      then inr (Some (PDict [("peers", PList (PStr <$> sorted_known known))]))
      else inr None
  end.

(** Contacting one peer: it answered with the peers it knows; it was
    unreachable ([ConnectionError] or [TimeoutError]); or something else was
    raised, which [join_via_seeds] does not catch. *)
Inductive contact := Answered (peers : list string) | Unreachable | Failed (e : exn).

Section join.
Context (contact_peer : string → contact).

(** The locals of the loop, and the peers contacted, in order. *)
Record bfs := Bfs {
  connected : gset string;
  visited : gset string;
  next_frontier : list string;
  contacted : list string
}.

(** [for candidate in reply["peers"]: if candidate not in visited: append] *)
Definition fresh_candidates (vs : gset string) (peers : list string) : list string :=
  filter (λ c, c ∉ vs) peers.

(** The body of [for peer in frontier]. *)
Definition visit (b : bfs) (peer : string) : exn + bfs :=
  if bool_decide (peer ∈ visited b) then inr b
  else
    let vs := {[peer]} ∪ visited b in
    let log := contacted b ++ [peer] in
    match contact_peer peer with
    | Failed e => inl e
    | Unreachable => inr (Bfs (connected b) vs (next_frontier b) log)
    | Answered peers =>
        inr (Bfs ({[peer]} ∪ connected b) vs (next_frontier b ++ fresh_candidates vs peers) log)
    end.

Fixpoint visit_all (b : bfs) (frontier : list string) : exn + bfs :=
  match frontier with
  | [] => inr b
  | peer :: rest =>
      match visit b peer with
      | inl e => inl e
      | inr b' => visit_all b' rest
      end
  end.

(** [while frontier: ...], with [None] when the fuel runs out. *)
Fixpoint bfs_loop (fuel : nat) (b : bfs) (frontier : list string) : option (exn + bfs) :=
  match frontier with
  | [] => Some (inr b)
  | _ =>
      match fuel with
      | O => None
      | S n =>
          match visit_all (Bfs (connected b) (visited b) [] (contacted b)) frontier with
          | inl e => Some (inl e)
          | inr b' => bfs_loop n b' (next_frontier b')
          end
      end
  end.

Definition join_via_seeds (fuel : nat) (local : string) (seeds : list string) : option (exn + bfs) :=
  bfs_loop fuel (Bfs ∅ {[local]} [] []) (filter (λ s, s ∉ ({[local]} : gset string)) seeds).

(** ** The peers that can be reached *)

Inductive reachable (local : string) (seeds : list string) : string → Prop :=
| reach_seed p : p ∈ seeds → p ≠ local → reachable local seeds p
| reach_via p ps c :
    reachable local seeds p → contact_peer p = Answered ps → c ∈ ps → c ≠ local →
    reachable local seeds c.

Definition answers (p : string) : Prop := ∃ ps, contact_peer p = Answered ps.

(** What holds between two peers of the frontier: [front] are the peers still
    to be looked at. *)
Record bfs_ok (local : string) (seeds : list string) (b : bfs) (front : list string) : Prop := {
  bo_local : local ∈ visited b;
  bo_connected : ∀ p, p ∈ connected b ↔ p ∈ visited b ∧ p ≠ local ∧ answers p;
  bo_visited : ∀ p, p ∈ visited b → p = local ∨ reachable local seeds p;
  bo_front : ∀ p, p ∈ front ++ next_frontier b → p = local ∨ reachable local seeds p;
  bo_closed : ∀ p ps c, p ∈ connected b → contact_peer p = Answered ps → c ∈ ps →
                c ∈ visited b ∨ c ∈ front ++ next_frontier b;
  bo_seeds : ∀ p, p ∈ seeds → p ∈ visited b ∨ p ∈ front ++ next_frontier b;
  bo_log : NoDup (contacted b);
  bo_logged : ∀ p, p ∈ contacted b ↔ p ∈ visited b ∧ p ≠ local;
  bo_nofail : ∀ p e, p ∈ contacted b → contact_peer p ≠ Failed e
}.

(** A peer of the frontier that was visited before is skipped. *)
Lemma skip_ok local seeds b peer front :
  bfs_ok local seeds b (peer :: front) → peer ∈ visited b → bfs_ok local seeds b front.
Proof.
  intros [Hl Hc Hv Hf Hcl Hs Hn Hlg Hnf] Hin. split; try done.
  - intros p Hp. apply Hf. simpl. by right.
  - intros p ps c H1 H2 H3. destruct (Hcl p ps c H1 H2 H3) as [|[->|]%elem_of_cons]; eauto.
  - intros p Hp. destruct (Hs p Hp) as [|[->|]%elem_of_cons]; eauto.
Qed.

(** One entry of the log more, for a peer that was not visited. *)
Lemma log_ok local seeds b peer front :
  bfs_ok local seeds b front → peer ∉ visited b → peer ≠ local →
  NoDup (contacted b ++ [peer]) ∧
  ∀ p, p ∈ contacted b ++ [peer] ↔ p ∈ {[peer]} ∪ visited b ∧ p ≠ local.
Proof.
  intros Hok Hin Hpl. pose proof (bo_logged _ _ _ _ Hok) as Hlg. split.
  - apply list.NoDup_app. split_and!; [apply Hok| |apply NoDup_singleton].
    by intros x [Hx _]%Hlg ->%list_elem_of_singleton.
  - intros p. rewrite elem_of_app Hlg list_elem_of_singleton elem_of_union elem_of_singleton. clear -Hpl.
    split; [intros [[? ?]| ->]|intros [[->|] ?]]; auto.
Qed.

Lemma visit_ok local seeds b peer front b' :
  bfs_ok local seeds b (peer :: front) → visit b peer = inr b' →
  bfs_ok local seeds b' front ∧ visited b' = {[peer]} ∪ visited b.
Proof.
  intros Hok. unfold visit. case_bool_decide as Hin.
  { intros [= <-]. split; [by eapply skip_ok|set_solver +Hin]. }
  pose proof Hok as [Hl Hc Hv Hf Hcl Hs Hn Hlg Hnf].
  assert (peer ≠ local) as Hpl by (intros ->; done).
  assert (reachable local seeds peer) as Hr by (destruct (Hf peer); [by left|done|done]).
  destruct (log_ok _ _ _ peer _ Hok Hin Hpl) as [Hn' Hlg'].
  assert (∀ p, p ∈ {[peer]} ∪ visited b → p = local ∨ reachable local seeds p) as Hv'.
  { intros p [->%elem_of_singleton|]%elem_of_union; auto. }
  assert (∀ c X, c ∈ visited b ∨ c ∈ (peer :: front) ++ next_frontier b →
            c ∈ {[peer]} ∪ visited b ∨ c ∈ front ++ next_frontier b ++ X) as Hkeep.
  { intros c X. rewrite elem_of_union elem_of_singleton -app_comm_cons elem_of_cons !elem_of_app. tauto. }
  destruct (contact_peer peer) as [ps| |e] eqn:E; [| |done]; intros [= <-]; split; try done.
  - split; simpl; try done.
    + by apply elem_of_union_r.
    + assert (answers peer) as Ha by (unfold answers; eauto).
      intros p. rewrite !elem_of_union Hc elem_of_singleton. clear -Ha Hpl.
      split; [intros [->|(?&?&?)]|intros ([->|]&?&?)]; auto.
    + intros p. rewrite !elem_of_app /fresh_candidates list_elem_of_filter.
      intros [Hp|[Hp|[Hne Hp]]].
      1,2: apply Hf; simpl; rewrite elem_of_cons elem_of_app; auto.
      right. eapply reach_via; [exact Hr|done|done|].
      intros ->. apply Hne. by apply elem_of_union_r.
    + intros p qs c [->%elem_of_singleton|Hp]%elem_of_union H2 H3; [|by eauto].
      rewrite E in H2. simplify_eq.
      destruct (decide (c ∈ {[peer]} ∪ visited b)); [by left|right].
      rewrite !elem_of_app /fresh_candidates list_elem_of_filter. by right; right.
    + eauto.
    + intros p e. rewrite elem_of_app list_elem_of_singleton. intros [?| ->]; [by apply Hnf|by rewrite E].
  - split; simpl; try done.
    + by apply elem_of_union_r.
    + assert (¬ answers peer) as Ha by (intros [? ?]; congruence).
      intros p. rewrite elem_of_union Hc elem_of_singleton. clear -Ha Hpl.
      split; [intros (?&?&?)|intros ([->|]&?&?)]; auto. done.
    + intros p Hp. apply Hf. simpl. by right.
    + intros p qs c Hp H2 H3. specialize (Hkeep c []). rewrite app_nil_r in Hkeep. eauto.
    + intros p Hp. specialize (Hkeep p []). rewrite app_nil_r in Hkeep. eauto.
    + intros p e. rewrite elem_of_app list_elem_of_singleton. intros [?| ->]; [by apply Hnf|by rewrite E].
Qed.

Lemma visit_all_ok local seeds frontier : ∀ b b',
  bfs_ok local seeds b frontier → visit_all b frontier = inr b' →
  bfs_ok local seeds b' [] ∧ visited b' = list_to_set frontier ∪ visited b.
Proof.
  induction frontier as [|p frontier IH]; intros b b' Hok; simpl.
  { intros [= <-]. split; [done|set_solver +]. }
  destruct (visit b p) as [|b1] eqn:E; [done|]. intros Hr.
  destruct (visit_ok _ _ _ _ _ _ Hok E) as [Hok1 Hv1].
  destruct (IH _ _ Hok1 Hr) as [Hok2 Hv2]. split; [done|]. rewrite Hv2 Hv1. set_solver +.
Qed.

Lemma bfs_ok_start_round local seeds b :
  bfs_ok local seeds b [] →
  bfs_ok local seeds (Bfs (connected b) (visited b) [] (contacted b)) (next_frontier b).
Proof.
  intros [Hl Hc Hv Hf Hcl Hs Hn Hlg Hnf]; simpl in *.
  split; simpl; try rewrite app_nil_r; done.
Qed.

(** No candidate that has not been visited: the next frontier is empty. *)
Lemma visit_all_visited frontier : ∀ b,
  (∀ p, p ∈ frontier → p ∈ visited b) → visit_all b frontier = inr b.
Proof.
  induction frontier as [|p frontier IH]; intros b Hv; simpl; [done|].
  unfold visit. rewrite bool_decide_eq_true_2; [set_solver|]. apply IH. set_solver.
Qed.

Lemma bfs_loop_ok local seeds (U : gset string) :
  (∀ p, reachable local seeds p → p ∈ U) →
  ∀ fuel b,
  bfs_ok local seeds b [] →
  size (U ∖ visited b) + 1 < fuel →
  ∃ r, bfs_loop fuel b (next_frontier b) = Some r ∧
    match r with
    | inr b' => bfs_ok local seeds b' [] ∧ next_frontier b' = []
    | inl e => ∃ p, reachable local seeds p ∧ contact_peer p = Failed e
    end.
Proof.
  intros HU fuel. induction fuel as [|fuel IH]; intros b Hok Hsz; [lia|].
  simpl. destruct (next_frontier b) as [|p0 fr] eqn:Efr.
  { eexists; split; [done|]. by split. }
  rewrite -Efr. pose proof (bfs_ok_start_round _ _ _ Hok) as Hok0.
  set (b0 := Bfs (connected b) (visited b) [] (contacted b)) in *.
  destruct (visit_all b0 (next_frontier b)) as [e|b'] eqn:Ev.
  - eexists; split; [done|]. clear IH Hsz Efr.
    revert Ev Hok0. generalize b0 (next_frontier b). clear. intros b0 fr.
    revert b0. induction fr as [|p fr IH]; intros b0 Ev Hok; simpl in *; [done|].
    destruct (visit b0 p) as [e'|b1] eqn:E.
    + simplify_eq. unfold visit in E. case_bool_decide as Hnv; [done|].
      destruct (contact_peer p) eqn:Ec; simplify_eq. exists p. split; [|done].
      destruct (bo_front _ _ _ _ Hok p) as [->|]; [by left| |done].
      by destruct (Hnv (bo_local _ _ _ _ Hok)).
    + eapply IH; [exact Ev|]. by eapply visit_ok.
  - destruct (visit_all_ok _ _ _ _ _ Hok0 Ev) as [Hok' Hv'].
    destruct (decide (list_to_set (next_frontier b) ⊆ visited b)) as [Hsub|Hnsub].
    + assert (visit_all b0 (next_frontier b) = inr b0) as Hb0.
      { apply visit_all_visited. intros p Hp. simpl. set_solver. }
      assert (b' = b0) as -> by congruence.
      assert (next_frontier b0 = []) as Hn0 by done. rewrite Hn0.
      destruct fuel; (eexists; split; [done|]; by split).
    + apply IH; [done|]. change (visited b0) with (visited b) in Hv'. rewrite Hv'.
      assert (size (U ∖ (list_to_set (next_frontier b) ∪ visited b)) < size (U ∖ visited b)); [|lia].
      apply subset_size. split; [set_solver|]. intros Hcon.
      apply Hnsub. intros p Hp. destruct (decide (p ∈ visited b)) as [|Hnv]; [done|].
      destruct (bo_front _ _ _ _ Hok0 p) as [->|Hr].
      { simpl. rewrite app_nil_r. set_solver. }
      { by destruct Hnv, Hok. }
      specialize (HU p Hr). exfalso.
      assert (p ∈ U ∖ visited b) as H1 by set_solver. specialize (Hcon p H1). set_solver.
Qed.

End join.

Lemma bfs_ok_init contact_peer local seeds :
  bfs_ok contact_peer local seeds
    (Bfs ∅ {[local]} (filter (λ s, s ∉ ({[local]} : gset string)) seeds) []) [].
Proof.
  split; simpl; try set_solver.
  - intros p. rewrite list_elem_of_filter. intros [Hp Hin]. right. apply reach_seed; set_solver.
  - intros p Hp. destruct (decide (p = local)) as [->|]; [left; set_solver|right].
    rewrite list_elem_of_filter. set_solver.
  - constructor.
Qed.

(** The course of the search; see [join_via_seeds_complete]. *)
Lemma join_finds contact_peer local seeds (U : gset string) fuel :
  (∀ p, reachable contact_peer local seeds p → p ∈ U) →
  (∀ p e, reachable contact_peer local seeds p → contact_peer p ≠ Failed e) →
  size U + 3 ≤ fuel →
  ∃ b, join_via_seeds contact_peer fuel local seeds = Some (inr b) ∧
    (∀ p, p ∈ connected b ↔ reachable contact_peer local seeds p ∧ answers contact_peer p) ∧
    NoDup (contacted b) ∧
    (∀ p, p ∈ contacted b ↔ reachable contact_peer local seeds p).
Proof.
  intros HU Hnf Hfuel.
  set (b0 := Bfs ∅ {[local]} (filter (λ s, s ∉ ({[local]} : gset string)) seeds) []).
  assert (join_via_seeds contact_peer fuel local seeds = bfs_loop contact_peer fuel b0 (next_frontier b0)) as Hj.
  { unfold join_via_seeds, b0; simpl. destruct fuel; [lia|]. simpl. by destruct (filter _ seeds). }
  destruct (bfs_loop_ok contact_peer local seeds U HU fuel b0) as (r & Hr & Hres).
  { apply bfs_ok_init. }
  { assert (size (U ∖ visited b0) ≤ size U); [apply subseteq_size; set_solver|lia]. }
  rewrite Hj Hr. destruct r as [e|b].
  { destruct Hres as (p & Hp & He). by destruct (Hnf p e Hp). }
  destruct Hres as [[Hl Hc Hv Hf Hcl Hs Hn Hlg _] Hemp]. exists b. split; [done|].
  rewrite Hemp in Hcl, Hs.
  assert (∀ p, reachable contact_peer local seeds p → p ∈ visited b ∧ p ≠ local) as Hrv.
  { induction 1 as [p Hp Hne|p ps c Hp [IHv IHn] He Hin Hne].
    - split; [|done]. destruct (Hs p Hp); [done|set_solver].
    - split; [|done]. destruct (Hcl p ps c) as [|H]; [|done|done|done|set_solver].
      apply Hc. unfold answers. eauto. }
  split_and!; [|done|].
  - intros p. rewrite Hc. split; [|naive_solver]. intros (H1 & H2 & H3). destruct (Hv p H1); naive_solver.
  - intros p. rewrite Hlg. split; [|naive_solver]. intros (H1 & H2). destruct (Hv p H1); naive_solver.
Qed.

(** (C35) [join_via_seeds] terminates and finds the whole reachable cluster.
    When the ids that can be reached are finitely many ([U]) and contacting
    one of them ends in an answer, a [ConnectionError] or a [TimeoutError],
    then [size U + 3] rounds are enough, the returned set is exactly the set
    of reachable peers that answer, and no peer is contacted twice. *)
Theorem join_via_seeds_complete contact_peer local seeds (U : gset string) fuel :
  (∀ p, reachable contact_peer local seeds p → p ∈ U) →
  (∀ p e, reachable contact_peer local seeds p → contact_peer p ≠ Failed e) →
  size U + 3 ≤ fuel →
  ∃ b, join_via_seeds contact_peer fuel local seeds = Some (inr b) ∧
    (∀ p, p ∈ connected b ↔ reachable contact_peer local seeds p ∧ answers contact_peer p) ∧
    NoDup (contacted b) ∧
    (∀ p, p ∈ contacted b ↔ reachable contact_peer local seeds p).
Proof. apply join_finds. Qed.

(** A cluster of four nodes, one of them unreachable. *)
Definition ex_contact (p : string) : contact :=
  if String.eqb p "b" then Answered ["a"; "b"; "c"; "d"]
  else if String.eqb p "c" then Answered ["b"; "c"; "a"]
  else Unreachable.

Definition ex_universe : gset string := {["b"; "c"; "d"]}.

Lemma ex_reachable p : reachable ex_contact "a" ["b"; "a"] p → p ∈ ex_universe.
Proof.
  induction 1 as [p Hp Hne|p ps c Hp IH He Hin Hne].
  - unfold ex_universe. set_solver.
  - unfold ex_contact in He. repeat case_match; simplify_eq; unfold ex_universe; set_solver.
Qed.

Lemma join_via_seeds_complete_witness :
  ∃ b, join_via_seeds ex_contact 6 "a" ["b"; "a"] = Some (inr b) ∧
    (∀ p, p ∈ connected b ↔ reachable ex_contact "a" ["b"; "a"] p ∧ answers ex_contact p) ∧
    NoDup (contacted b) ∧
    (∀ p, p ∈ contacted b ↔ reachable ex_contact "a" ["b"; "a"] p).
Proof.
  apply (join_via_seeds_complete ex_contact "a" ["b"; "a"] ex_universe 6).
  - exact ex_reachable.
  - intros p e _. unfold ex_contact. by repeat case_match.
  - vm_compute. lia.
Defined.

Example join_computes :
  join_via_seeds ex_contact 6 "a" ["b"; "a"] =
    Some (inr (Bfs {["b"; "c"]} {["a"; "b"; "c"; "d"]} [] ["b"; "c"; "d"])).
Proof. vm_compute. reflexivity. Qed.

(** ** The answer of the discovery actor *)

Lemma elem_of_insert_sorted x y l : y ∈ insert_sorted x l ↔ y = x ∨ y ∈ l.
Proof. induction l as [|z l IH]; simpl; [set_solver|]. case_match; set_solver. Qed.

Lemma elem_of_sorted_known known p : p ∈ sorted_known known ↔ p ∈ known.
Proof.
  unfold sorted_known. rewrite -(elem_of_elements known).
  induction (elements known) as [|x l IH]; simpl; [done|]. rewrite elem_of_insert_sorted IH. set_solver.
Qed.

(** The discovery actor answers ["WHO_DO_YOU_KNOW"] with exactly the ids
    it knows, in a form that passes the wire unchanged. *)
Theorem discovery_reply_exact known kvs :
  assoc "type" kvs = Some (PStr "WHO_DO_YOU_KNOW") →
  ∃ reply ids, discovery_actor_reply known (PDict kvs) = inr (Some reply) ∧
    getitem reply "peers" = inr (PList (PStr <$> ids)) ∧
    (∀ p, p ∈ ids ↔ p ∈ known) ∧ wire_transfer reply = inr reply.
Proof.
  intros Ht. unfold discovery_actor_reply; simpl. rewrite Ht /=.
  eexists _, (sorted_known known). split_and!; [done|done| |].
  - apply elem_of_sorted_known.
  - apply wire_transfer_safe. simpl. rewrite andb_true_r.
    induction (sorted_known known); simpl; [done|]. done.
Qed.

Lemma discovery_reply_exact_witness :
  ∃ reply ids, discovery_actor_reply {["n@h:1"]} (PDict [("type", PStr "WHO_DO_YOU_KNOW")]) = inr (Some reply) ∧
    getitem reply "peers" = inr (PList (PStr <$> ids)) ∧
    (∀ p, p ∈ ids ↔ p ∈ ({["n@h:1"]} : gset string)) ∧ wire_transfer reply = inr reply.
Proof. apply (discovery_reply_exact {["n@h:1"]}). reflexivity. Defined.
