(* ===== verification/Supervisor.v ===== *)
(** * Supervisor

    [src/lapinbeam/supervisor.py] without the pool: spawning, the restart
    budget and strategies, and the two coroutines that run a child
    ([_run_actor_child], [_run_supervisor_child]) and the one that drives an
    actor ([_drive]).  A coroutine is cut at its awaits: [pc] says where it is
    suspended, and one definition below runs it from there to its next
    suspension or its end, the way the event loop does. *)

From S2P Require Import Prelude Values NodeId Actors State PeerEvents Asyncio Node.

(** ** Restart budget *)

(** [_allow_restart]: times are milliseconds of [time.monotonic()]. *)
Definition _allow_restart (now : Z) (sup : supervisor) : bool * supervisor :=
  let kept := filter (λ t, (now - t < s_restart_window sup)%Z) (s_restart_times sup) in
  if bool_decide (s_max_restarts sup ≤ length kept)
  then (false, sup <| s_restart_times := kept |>)
  else (true, sup <| s_restart_times := kept ++ [now] |>).

(** [_backoff]: [min(2 ** n * 0.05, 1.0)] seconds, in milliseconds. *)
Definition _backoff (sup : supervisor) : Z :=
  Z.min (2 ^ Z.of_nat (length (s_restart_times sup)) * 50) 1000.

(** ** Children *)

(** [list.remove], which removes the first occurrence. *)
Fixpoint remove_first (c : cid) (l : list cid) : list cid :=
  match l with
  | [] => []
  | x :: l' => if bool_decide (x = c) then l' else x :: remove_first c l'
  end.

(** [self._children[self._children.index(child):]], [None] for the
    [ValueError] of [index]. *)
Fixpoint from_child (c : cid) (l : list cid) : option (list cid) :=
  match l with
  | [] => None
  | x :: l' => if bool_decide (x = c) then Some l else from_child c l'
  end.

Definition _affected_children (sup : supervisor) (c : cid) : exn + list cid :=
  match s_strategy sup with
  | OneForOne => inr [c]
  | OneForAll => inr (s_children sup)
  | RestForOne =>
      match from_child c (s_children sup) with
      | Some l => inr l
      | None => inl (ValueError "child is not in list")
      end
  end.

Definition fresh_supervisor (strat : strategy) (max : nat) (window : Z) : supervisor :=
  Supervisor strat max window [] [] None false.

Definition upd_sup (sp : sid) (f : supervisor → supervisor) : M st unit :=
  modify (λ s, s <| sups ::= alter f sp |>).
Definition upd_child (c : cid) (f : child → child) : M st unit :=
  modify (λ s, s <| children ::= alter f c |>).

(** [Supervisor(strategy, ...)] *)
Definition new_supervisor (strat : strategy) (max : nat) (window : Z) : M st sid :=
  let! sp := alloc in
  modify (λ s, s <| sups ::= <[sp := fresh_supervisor strat max window]> |>) ;;
  ret sp.

(** [_STRATEGIES] *)
Definition check_strategy (name : string) : exn + strategy :=
  if bool_decide (name = "one_for_one") then inr OneForOne
  else if bool_decide (name = "one_for_all") then inr OneForAll
  else if bool_decide (name = "rest_for_one") then inr RestForOne
  else inl (ValueError ("unsupported strategy: " +:+ py_repr name)).

(** The constructor as it is called. *)
Definition Supervisor_new (strat : string) (max : nat) (window : Z) : M st sid :=
  let! strat := lift (check_strategy strat) in
  new_supervisor strat max window.

Definition _discard_child (sp : sid) (c : cid) : M st unit :=
  upd_sup sp (λ sup, sup <| s_children ::= remove_first c |>).

(** [self._give_up_exc = exc; self._given_up.set()] *)
Definition set_given_up (sp : sid) (e : exn) : M st unit :=
  upd_sup sp (λ sup, sup <| s_give_up_exc := Some e |> <| s_given_up := true |>).

(** The live tasks of some children: [[c.task for c in cs if c.task is not None]]. *)
Definition tasks_of (s : st) (cs : list cid) : list tid :=
  cs ≫= λ c, match children s !! c ≫= ch_task with Some t => [t] | None => [] end.

Section supervisor.
Context {codec : PayloadCodec}.

(** [spawn] *)
Definition spawn (sp : sid) (cls : string) (meta : actor_meta) : M st cid :=
  let! s := get in
  let name := actor_name meta in
  let! q := alloc in
  modify (λ s, s <| queues ::= <[q := Queue [] (capacity_or_0 (mailbox_capacity s))]> |>) ;;
  register_actor name q ;;
  let! c := alloc in
  modify (λ s, s <| children ::= <[c := Child name (ActorChild cls meta q) None None None None]> |>) ;;
  upd_sup sp (λ sup, sup <| s_children ::= λ l, l ++ [c] |>) ;;
  let! t := create_task (CodeChild sp c PcStart) in
  upd_child c (λ ch, ch <| ch_task := Some t |>) ;;
  _register_task t ;;
  ret c.

(** [spawn_supervisor] *)
Definition spawn_supervisor (sp : sid) (name : string) (build : list build_op)
    (strat : string) (max : nat) (window : Z) : M st cid :=
  let! c := alloc in
  modify (λ s, s <| children ::= <[c := Child name (SupervisorChild build strat max window) None None None None]> |>) ;;
  upd_sup sp (λ sup, sup <| s_children ::= λ l, l ++ [c] |>) ;;
  let! t := create_task (CodeChild sp c PcStart) in
  upd_child c (λ ch, ch <| ch_task := Some t |>) ;;
  _register_task t ;;
  ret c.

(** [build(child_supervisor)] *)
Fixpoint run_build (sp : sid) (ops : list build_op) : M st unit :=
  match ops with
  | [] => ret tt
  | BSpawn cls meta :: ops' => spawn sp cls meta ;; run_build sp ops'
  | BSpawnSupervisor name b strat max window :: ops' =>
      spawn_supervisor sp name b strat max window ;; run_build sp ops'
  | BRaise e :: _ => raise e
  end.

(** [_shutdown_except] up to its [await gather(...)]: the tasks it waits for. *)
Definition _shutdown_except (sp : sid) (exclude : option cid) : M st (list tid) :=
  let! s := get in
  match sups s !! sp with
  | None => ret []
  | Some sup =>
      let cs := filter (λ c, Some c ≠ exclude) (s_children sup) in
      let ts := tasks_of s cs in
      for_each ts cancel ;; ret ts
  end.

(** [_respawn_child] *)
Definition _respawn_child (sp : sid) (c : cid) : M st unit :=
  let! s := get in
  match children s !! c with
  | None => ret tt
  | Some ch =>
      match ch_kind ch with
      | ActorChild _ _ _ => upd_child c (λ ch, ch <| ch_driver := None |>)
      | SupervisorChild _ _ _ _ => ret tt
      end ;;
      let! t := create_task (CodeChild sp c PcStart) in
      upd_child c (λ ch, ch <| ch_task := Some t |>) ;;
      _register_task t
  end.

(** ** The end of a generation *)

(** The cleanup that every branch of [_run_actor_child] starts with. *)
Definition cleanup_generation (name : string)
    : M st (option (gset target) * option (gmap string target)) :=
  unregister_actor name ;;
  modify (λ s, s <| _live_children ::= delete name |>) ;;
  let! linked := _clear_links name in
  let! monitored := _clear_monitors name in
  _clear_groups name ;;
  _clear_registry name ;;
  ret (linked, monitored).

Definition notify_exit (name : string) (linked : option (gset target))
    (monitored : option (gmap string target)) (reason : string) : M st unit :=
  _notify_links name linked reason ;; _notify_monitors name monitored reason.

(** [_handle_child_crash] returned [False]: tell the others, then [raise exc]. *)
Definition crash_for_good (t : tid) (name : string) (k : crash) : M st unit :=
  notify_exit name (k_linked k) (k_monitored k) (exn_detail (k_exn k)) ;;
  finish t (OExn (k_exn k)).

(** [_handle_child_crash] up to its first suspension. *)
Definition _handle_child_crash (t : tid) (sp : sid) (c : cid) (name : string)
    (k : crash) (now : Z) : M st unit :=
  let! s := get in
  match sups s !! sp with
  | None => ret tt
  | Some sup =>
      let '(ok, sup') := _allow_restart now sup in
      upd_sup sp (λ _, sup') ;;
      if ok then suspend t (CodeChild sp c (PcBackoff k)) (WSleep (_backoff sup'))
      else
        _on_core_event (EvSupervisorGaveUp name (exn_detail (k_exn k))) ;;
        match s_strategy sup with
        | OneForOne =>
            _discard_child sp c ;;
            let! s := get in
            (if bool_decide (s_children <$> sups s !! sp = Some []) then set_given_up sp (k_exn k) else ret tt) ;;
            crash_for_good t name k
        | _ =>
            let! ts := _shutdown_except sp (Some c) in
            match ts with
            | [] => set_given_up sp (k_exn k) ;; crash_for_good t name k
            | _ => suspend t (CodeChild sp c (PcGiveUp k)) (WGather ts false)
            end
        end
  end.

(** ** [_run_actor_child] and [_run_supervisor_child] *)

(** [except Exception as exc] of [_run_actor_child]. *)
Definition actor_crashed (t : tid) (sp : sid) (c : cid) (name : string) (e : exn) (now : Z) : M st unit :=
  let! lm := cleanup_generation name in
  _handle_child_crash t sp c name (Crash e lm.1 lm.2) now.

(** [except asyncio.CancelledError] *)
Definition actor_cancelled (t : tid) (sp : sid) (c : cid) (name : string) (now : Z) : M st unit :=
  let! lm := cleanup_generation name in
  let! s := get in
  match children s !! c ≫= ch_pending_exit with
  | Some e =>
      upd_child c (λ ch, ch <| ch_pending_exit := None |>) ;;
      _handle_child_crash t sp c name (Crash e lm.1 lm.2) now
  | None =>
      notify_exit name lm.1 lm.2 "shutdown" ;;
      finish t OCancelled
  end.

(** The [else] branch: the driver returned. *)
Definition actor_returned (t : tid) (sp : sid) (c : cid) (name : string) : M st unit :=
  let! lm := cleanup_generation name in
  notify_exit name lm.1 lm.2 "normal" ;;
  _discard_child sp c ;;
  finish t OResult.

(** The head of the [while True] loop of [_run_actor_child]; [ctor] is the
    exception the actor's constructor raises, if it does. *)
Definition actor_head (t : tid) (sp : sid) (c : cid) (name : string) (mailbox : qid)
    (ctor : option exn) (now : Z) : M st unit :=
  match ctor with
  | Some e => actor_crashed t sp c name e now
  | None =>
      let! r := (λ s, let '(r, s') := register_actor name mailbox s in (inr r, s')) in
      match r with
      | inl e => actor_crashed t sp c name e now
      | inr _ =>
          modify (λ s, s <| _live_children ::= <[name := c]> |>) ;;
          let! d := create_task (CodeDrive c None) in
          upd_child c (λ ch, ch <| ch_driver := Some d |>) ;;
          suspend t (CodeChild sp c PcAwaitDriver) (WTask d)
      end
  end.

(** The head of the loop of [_run_supervisor_child]. *)
Definition supervisor_head (t : tid) (sp : sid) (c : cid) (name : string)
    (build : list build_op) (strat : string) (max : nat) (window now : Z) : M st unit :=
  let! ns := Supervisor_new strat max window in
  upd_child c (λ ch, ch <| ch_supervisor := Some ns |>) ;;
  let! r := (λ s, let '(r, s') := run_build ns build s in (inr r, s')) in
  match r with
  | inl e => _handle_child_crash t sp c name (Crash e None None) now
  | inr _ => suspend t (CodeChild sp c PcSupWait) (WEvent ns)
  end.

Definition child_head (t : tid) (sp : sid) (c : cid) (ctor : option exn) (now : Z) : M st unit :=
  let! s := get in
  match children s !! c with
  | None => ret tt
  | Some ch =>
      match ch_kind ch with
      | ActorChild _ _ q => actor_head t sp c (ch_name ch) q ctor now
      | SupervisorChild b strat max window => supervisor_head t sp c (ch_name ch) b strat max window now
      end
  end.

(** The loop [for c in siblings: await self._teardown_sibling(c)] from [rest]
    on: [true] when it suspended on a sibling's task. *)
Fixpoint teardown (t : tid) (sp : sid) (c : cid) (k : crash) (siblings rest : list cid) : M st bool :=
  match rest with
  | [] => ret false
  | c' :: rest' =>
      let! s := get in
      match children s !! c' ≫= ch_task with
      | Some t' =>
          if task_done s t' then teardown t sp c k siblings rest'
          else
            cancel t' ;;
            suspend t (CodeChild sp c (PcTeardown k siblings rest')) (WTask t') ;;
            ret true
      | None => teardown t sp c k siblings rest'
      end
  end.

(** The rest of [_handle_child_crash] once the siblings are torn down, and the
    caller's [continue]. *)
Definition restart_group (t : tid) (sp : sid) (c : cid) (k : crash)
    (siblings rest : list cid) (ctor : option exn) (now : Z) : M st unit :=
  let! suspended := teardown t sp c k siblings rest in
  if suspended : bool then ret tt
  else
    for_each siblings (_respawn_child sp) ;;
    child_head t sp c ctor now.

(** One turn of a child's task, resumed with [w]. *)
Definition run_child (t : tid) (sp : sid) (c : cid) (p : pc) (w : wake)
    (ctor : option exn) (now : Z) : M st unit :=
  let! s := get in
  match children s !! c with
  | None => ret tt
  | Some ch =>
      let name := ch_name ch in
      match p with
      | PcStart =>
          match w with
          | WkCancel => finish t OCancelled
          | _ => child_head t sp c ctor now
          end
      | PcAwaitDriver =>
          match w with
          | WkCancel => actor_cancelled t sp c name now
          | WkExn e => actor_crashed t sp c name e now
          | WkOk => actor_returned t sp c name
          end
      | PcBackoff k =>
          match w with
          | WkCancel => finish t OCancelled
          | _ =>
              match sups s !! sp with
              | None => ret tt
              | Some sup =>
                  let! affected := lift (_affected_children sup c) in
                  let siblings := filter (λ c', c' ≠ c) affected in
                  restart_group t sp c k siblings siblings ctor now
              end
          end
      | PcTeardown k siblings rest =>      (* except BaseException: pass *)
          restart_group t sp c k siblings rest ctor now
      | PcGiveUp k =>
          match w with
          | WkCancel => finish t OCancelled
          | _ => set_given_up sp (k_exn k) ;; crash_for_good t name k
          end
      | PcSupWait =>
          match w, ch_supervisor ch with
          | WkCancel, Some ns =>
              let! ts := _shutdown_except ns None in
              match ts with
              | [] => finish t OCancelled
              | _ => suspend t (CodeChild sp c PcSupShutdown) (WGather ts false)
              end
          | _, Some ns =>
              match sups s !! ns ≫= s_give_up_exc with
              | Some e => _handle_child_crash t sp c name (Crash e None None) now
              | None => ret tt
              end
          | _, None => ret tt
          end
      | PcSupShutdown => finish t OCancelled
      end
  end.

(** An exception that leaves the coroutine ends its task with it. *)
Definition guard_task (t : tid) (m : M st unit) : M st unit :=
  try_except m (λ e, finish t (OExn e)).

(** The loop runs task [t] of a child, if it can be resumed. *)
Definition step_child (t : tid) (ctor : option exn) (now : Z) : M st unit :=
  let! s := get in
  match tasks s !! t with
  | Some tk =>
      match t_out tk, t_code tk, pending_wake s (t_wait tk) with
      | None, CodeChild sp c p, Some w =>
          modify (upd_task t (λ tk, tk <| t_must_cancel := false |>)) ;;
          guard_task t (run_child t sp c p (deliver_wake tk w) ctor now)
      | _, _, _ => ret tt
      end
  | None => ret tt
  end.

(** A timer of the loop fires. *)
Definition fire_timer (t : tid) : M st unit :=
  modify (upd_task t (λ tk, match t_wait tk with
                            | WSleep _ => tk <| t_wait := WReady WkOk |>
                            | _ => tk
                            end)).

(** ** [_drive] *)

(** How a handler goes on from where it is: it completes, raises, is ended by
    [CancelledError], or awaits something.  After a message the driver is back
    at [mailbox.get()]; the model lets other tasks run there even when the next
    message is already queued, where asyncio goes straight on, so that it has
    every interleaving of the code and some more. *)
Inductive handler_result := HDone | HRaise (e : exn) | HCancelled | HAwait.

Definition drive_result (t : tid) (c : cid) (meta : message_meta) (h : handler_result) : M st unit :=
  match h with
  | HDone => suspend t (CodeDrive c None) WGet
  | HRaise e => finish t (OExn e)
  | HCancelled => finish t OCancelled
  | HAwait => suspend t (CodeDrive c (Some meta)) WUser
  end.

(** [msg, msg_meta = await mailbox.get()], then the dispatch; with an empty
    mailbox the driver waits. *)
Definition drive_get (t : tid) (c : cid) (h : handler_result) : M st unit :=
  let! s := get in
  match children s !! c with
  | Some ch =>
      match ch_kind ch with
      | ActorChild cls meta q =>
          match queues s !! q ≫= get_nowait with
          | None => suspend t (CodeDrive c None) WGet
          | Some ((msg, msg_meta), qu') =>
              modify (λ s, s <| queues ::= <[q := qu']> |>) ;;
              match dispatch cls meta msg with
              | inl e => finish t (OExn e)
              | inr _ => drive_result t c msg_meta h
              end
          end
      | SupervisorChild _ _ _ _ => ret tt
      end
  | None => ret tt
  end.

(** One turn of a driver. *)
Definition step_driver (t : tid) (h : handler_result) : M st unit :=
  let! s := get in
  match tasks s !! t with
  | Some tk =>
      match t_out tk, t_code tk with
      | None, CodeDrive c cur =>
          let cancelled := t_must_cancel tk || match t_wait tk with WReady WkCancel => true | _ => false end in
          modify (upd_task t (λ tk, tk <| t_must_cancel := false |>)) ;;
          match cur with
          | None => if cancelled then finish t OCancelled else drive_get t c h
          | Some meta => drive_result t c meta h
          end
      | _, _ => ret tt
      end
  | None => ret tt
  end.

(** ** Requests from outside *)

(** [ref.task.cancel()] *)
Definition cancel_child (c : cid) : M st unit :=
  let! s := get in
  match children s !! c ≫= ch_task with
  | Some t => cancel t
  | None => ret tt
  end.

(** [shutdown] up to its [await]. *)
Definition shutdown (sp : sid) : M st unit := _shutdown_except sp None ;; ret tt.

End supervisor.

#[global] Arguments cleanup_generation : simpl never.
#[global] Arguments notify_exit : simpl never.
#[global] Arguments crash_for_good : simpl never.
#[global] Arguments _handle_child_crash : simpl never.
#[global] Arguments child_head : simpl never.
#[global] Arguments actor_head : simpl never.
#[global] Arguments supervisor_head : simpl never.
#[global] Arguments restart_group : simpl never.
#[global] Arguments run_child : simpl never.
#[global] Arguments spawn : simpl never.
#[global] Arguments spawn_supervisor : simpl never.
#[global] Arguments suspend : simpl never.
#[global] Arguments finish : simpl never.
