(* ===== verification/Setup.v ===== *)
(** * Switching the cluster-wide features on

    [register_links], [register_monitors], [register_groups],
    [register_registry] and [register_discovery] of the modules of the same
    names: the listener and the hook each one installs, and the reserved actor
    it spawns under the supervisor it is given. *)

From S2P Require Import Prelude Values NodeId Actors State PeerEvents Asyncio Node Links Monitors Groups.
From S2P Require Import Registry Discovery Supervisor.

Section setup.
Context {codec : PayloadCodec}.

Definition register_links (sp : sid) : M st cid :=
  spawn sp "_LinkActor" (plain_actor LINK_ACTOR).

Definition register_monitors (sp : sid) : M st cid :=
  spawn sp "_MonitorActor" (plain_actor MONITOR_ACTOR).

Definition register_groups (sp : sid) : M st cid :=
  modify (λ s, s <| _group_peers := Some ∅ |>) ;;
  on_event LGroups ;;
  modify (λ s, s <| _group_leave_hook := true |>) ;;
  spawn sp "_GroupsActor" (plain_actor GROUPS_ACTOR).

Definition register_registry (sp : sid) : M st cid :=
  modify (λ s, s <| _registry_peers := Some ∅ |>) ;;
  on_event LRegistry ;;
  modify (λ s, s <| _registry_release_hook := true |>) ;;
  spawn sp "_RegistryActor" (plain_actor REGISTRY_ACTOR).

Definition register_discovery (sp : sid) : M st cid :=
  modify (λ s, s <| _known := {[local_id s]} |>) ;;
  on_event LDiscovery ;;
  spawn sp "_DiscoveryActor" (plain_actor DISCOVERY_ACTOR).

End setup.
