(* ===== verification/SeedDiscovery.v ===== *)
(** * The seed discovery example

    [src/examples/seed_discovery/node_app.py]: one script for every node, a
    seed or a joiner by its environment; a joiner asks around twice, some time
    apart.  Also how the examples read lists from the environment. *)

From S2P Require Import Prelude Values NodeId Actors State PeerEvents Asyncio Node Supervisor Setup Discovery.

(** ** Lists in environment variables *)

(** [str.isspace] of an ASCII character. *)
Definition is_space (c : ascii) : bool :=
  let n := Ascii.nat_of_ascii c in (Nat.leb 9 n && Nat.leb n 13) || (Nat.leb 28 n && Nat.leb n 32).

Fixpoint lstrip (l : list ascii) : list ascii :=
  match l with
  | [] => []
  | c :: l' => if is_space c then lstrip l' else l
  end.

Definition strip (l : list ascii) : list ascii := reverse (lstrip (reverse (lstrip l))).

(** [v.split(",")] *)
Fixpoint split_comma (l : list ascii) : list (list ascii) :=
  match l with
  | [] => [[]]
  | c :: l' =>
      if bool_decide (c = ","%char) then [] :: split_comma l'
      else match split_comma l' with
           | w :: ws => (c :: w) :: ws
           | [] => [[c]]
           end
  end.

(** [[s.strip() for s in v.split(",") if s.strip()]] *)
Definition env_list (v : string) : list string :=
  (λ w, String.string_of_list_ascii (strip w)) <$>
    filter (λ w, strip w ≠ []) (split_comma (String.list_ascii_of_string v)).

(** A name as it comes out: not empty, without a comma, without space at the
    ends. *)
Definition clean (w : list ascii) : Prop :=
  strip w = w ∧ w ≠ [] ∧ ","%char ∉ w.

Fixpoint join_comma (ws : list (list ascii)) : list ascii :=
  match ws with
  | [] => []
  | [w] => w
  | w :: ws => w ++ ","%char :: join_comma ws
  end.

Lemma split_comma_none w : ","%char ∉ w → split_comma w = [w].
Proof.
  induction w as [|c w IH]; [done|]. intros [Hc Hw]%not_elem_of_cons. cbn [split_comma].
  rewrite bool_decide_eq_false_2; [congruence|]. by rewrite IH.
Qed.

Lemma split_comma_app w l : ","%char ∉ w → split_comma (w ++ ","%char :: l) = w :: split_comma l.
Proof.
  induction w as [|c w IH]; [done|]. intros [Hc Hw]%not_elem_of_cons. cbn [app split_comma].
  rewrite bool_decide_eq_false_2; [congruence|]. by rewrite IH.
Qed.

Lemma split_join ws : ws ≠ [] → Forall (λ w, ","%char ∉ w) ws → split_comma (join_comma ws) = ws.
Proof.
  intros Hne H. induction H as [|w ws Hw Hws IH]; [done|]. destruct ws as [|w' ws]; [by apply split_comma_none|].
  cbn [join_comma]. rewrite split_comma_app //. f_equal. by apply IH.
Qed.

(** What is written with commas between clean names is read back. *)
Lemma env_list_join ws :
  Forall clean ws → env_list (String.string_of_list_ascii (join_comma ws)) = String.string_of_list_ascii <$> ws.
Proof.
  intros Hc. unfold env_list. rewrite String.list_ascii_of_string_of_list_ascii.
  destruct (decide (ws = [])) as [->|Hne]; [done|]. rewrite split_join //.
  { eapply list.Forall_impl; [exact Hc|]. by intros w (_ & _ & ?). }
  clear Hne. induction Hc as [|w ws (H1 & H2 & _) _ IH]; [done|]. rewrite filter_cons_True; [by rewrite H1|]. by rewrite !fmap_cons IH H1.
Qed.

(** ** The script *)

Section seed_discovery.
Context {codec : PayloadCodec}.

(** [main] up to the join. *)
Definition node_app_start (bound : core_start) (refuses : string → pyval → option exn) : M st cid :=
  start bound refuses ;;
  let! sup := new_supervisor OneForOne 3 5000 in
  register_discovery sup.

End seed_discovery.

(** The two rounds; what contacting a peer gives may be different in the
    second.  A node without seeds does nothing. *)
Definition node_app_join (contact1 contact2 : string → contact) (fuel : nat) (local : string) (seeds : list string) :
    option (exn + gset string) :=
  if bool_decide (seeds = []) then Some (inr ∅)
  else
    match join_via_seeds contact1 fuel local seeds with
    | Some (inr b) =>
        let found := connected b in
        match join_via_seeds contact2 fuel local (seeds ++ sorted_known found) with
        | Some (inr b2) => Some (inr (found ∪ connected b2))
        | Some (inl e) => Some (inl e)
        | None => None
        end
    | Some (inl e) => Some (inl e)
    | None => None
    end.

(** The second round catches the stragglers and loses nobody.  Let the ids
    that can be reached be finitely many in both rounds, and contacting one
    end in an answer, a [ConnectionError] or a [TimeoutError].  Then both
    rounds end; what is printed at last is what was found first, which is
    exactly the reachable peers that answer, with what is reachable in the
    second round from the seeds and the peers found before, and answers; in
    particular everybody whom a seed or such a peer has come to know since. *)
Theorem node_app_finds contact1 contact2 local seeds (U : gset string) fuel :
  (∀ p, reachable contact1 local seeds p → p ∈ U) →
  (∀ p e, reachable contact1 local seeds p → contact1 p ≠ Failed e) →
  (∀ known p, reachable contact2 local (seeds ++ known) p → p ∈ known ∨ p ∈ U) →
  (∀ p e, contact2 p ≠ Failed e) →
  seeds ≠ [] → size U + 3 ≤ fuel →
  ∃ first found, node_app_join contact1 contact2 fuel local seeds = Some (inr found) ∧
    (∀ p, p ∈ first ↔ reachable contact1 local seeds p ∧ answers contact1 p) ∧
    (∀ p, p ∈ found ↔ p ∈ first ∨ (reachable contact2 local (seeds ++ sorted_known first) p ∧ answers contact2 p)) ∧
    (∀ q ps p, q ∈ seeds ∨ q ∈ first → q ≠ local → contact2 q = Answered ps → p ∈ ps → p ≠ local → answers contact2 p → p ∈ found).
Proof.
  intros HU1 Hf1 HU2 Hf2 Hs Hfuel.
  destruct (join_finds contact1 local seeds U fuel HU1 Hf1 Hfuel) as (b & Hb & Hc & _).
  set (first := connected b) in *.
  destruct (join_finds contact2 local (seeds ++ sorted_known first) U fuel) as (b2 & Hb2 & Hc2 & _); [|by intros p e _|done|].
  { intros p Hp. destruct (HU2 _ _ Hp) as [Hk|?]; [|done]. apply elem_of_sorted_known, Hc in Hk as [Hk _]. by apply HU1. }
  exists first, (first ∪ connected b2). split_and!; [|done|intros p; by rewrite elem_of_union Hc2|].
  - unfold node_app_join. rewrite bool_decide_eq_false_2 // Hb. fold first. by rewrite Hb2.
  - intros q ps p Hq Hql Hans Hp Hpl Hpa. apply elem_of_union. right. apply Hc2. split; [|done].
    eapply reach_via; [|exact Hans|done|done]. apply reach_seed; [|done]. rewrite elem_of_app elem_of_sorted_known. done.
Qed.

(** A seed that has come to know one more node by the second round. *)
Definition ex_contact_later (p : string) : contact :=
  if String.eqb p "b" then Answered ["a"; "b"; "c"; "d"]
  else if String.eqb p "c" then Answered ["b"; "c"; "a"]
  else if String.eqb p "d" then Answered ["b"]
  else Unreachable.

Lemma node_app_finds_witness :
  ∃ found, node_app_join ex_contact ex_contact_later 6 "a" ["b"; "a"] = Some (inr found) ∧ "d" ∈ found.
Proof.
  destruct (node_app_finds ex_contact ex_contact_later "a" ["b"; "a"] ex_universe 6) as (first & found & Hj & _ & _ & Hst).
  - exact ex_reachable.
  - intros p e _. unfold ex_contact. by repeat case_match.
  - intros known p. induction 1 as [p Hp Hne|p ps c Hp IH He Hin Hne].
    + unfold ex_universe. set_solver.
    + right. unfold ex_contact_later in He. repeat case_match; simplify_eq; unfold ex_universe; set_solver.
  - intros p e. unfold ex_contact_later. by repeat case_match.
  - discriminate.
  - vm_compute. lia.
  - exists found. split; [exact Hj|]. apply (Hst "b" ["a"; "b"; "c"; "d"] "d"); [left; set_solver|discriminate|reflexivity|set_solver|discriminate|].
    by exists ["b"].
Defined.
