(* ===== verification/CurrentNode.v ===== *)
(** * The current node

    [node.py] keeps the node started last in a module variable, and a
    [Supervisor] that is given no node takes it from there when it first needs
    one.  A process is its nodes, that variable and its supervisors. *)

From S2P Require Import Prelude Values NodeId Actors State PeerEvents Asyncio Node NodeProps Supervisor.

(** A [Supervisor] as it was constructed; [so_sid] is where its state is on the
    node it belongs to, once that is known. *)
Record sup_obj := SupObj { so_strategy : strategy; so_max : nat; so_window : Z; so_node : option nat; so_sid : option sid }.
Record proc := Proc { p_nodes : gmap nat st; _current_node : option nat; p_sups : gmap nat sup_obj }.

#[export] Instance sup_obj_settable : Settable sup_obj := λ r, SupObj (so_strategy r) (so_max r) (so_window r) (so_node r) (so_sid r).
#[export] Instance proc_settable : Settable proc := λ r, Proc (p_nodes r) (_current_node r) (p_sups r).

Section current_node.
Context {codec : PayloadCodec}.

(** An object the process does not have is not reached by any code. *)
Definition no_object : exn := KeyError "object".

(** A stretch of code of node [i]. *)
Definition on_proc_node {A} (i : nat) (m : M st A) : M proc A :=
  λ p, match p_nodes p !! i with
       | None => (inl no_object, p)
       | Some s => let '(r, s') := m s in (r, p <| p_nodes ::= <[i := s']> |>)
       end.

(** [Node.start], with its last line. *)
Definition node_start (i : nat) (bound : core_start) (refuses : string → pyval → option exn) : M proc unit :=
  let! started := on_proc_node i (gets _started) in
  on_proc_node i (start bound refuses) ;;
  if (started : bool) then ret tt else modify (λ p, p <| _current_node := Some i |>).

Definition get_current_node (p : proc) : option nat := _current_node p.

(** [Supervisor.__init__] *)
Definition Supervisor_init (k : nat) (strategy : string) (node : option nat) (max_restarts : nat) (restart_window : Z) : M proc unit :=
  let! strat := lift (check_strategy strategy) in
  modify (λ p, p <| p_sups ::= <[k := SupObj strat max_restarts restart_window node None]> |>).

Definition no_node_started : exn := RuntimeError "no node started; start a Node or pass node= to Supervisor".

(** The property [Supervisor.node] *)
Definition supervisor_node (k : nat) : M proc nat :=
  let! p := get in
  match p_sups p !! k with
  | None => raise no_object
  | Some so =>
      let node := match so_node so with Some i => Some i | None => get_current_node p end in
      modify (λ p, p <| p_sups ::= <[k := so <| so_node := node |>]> |>) ;;
      match node with Some i => ret i | None => raise no_node_started end
  end.

(** Its lists and its budget, on the node. *)
Definition supervisor_sid (k i : nat) : M proc sid :=
  let! p := get in
  match p_sups p !! k with
  | None => raise no_object
  | Some so =>
      match so_sid so with
      | Some sp => ret sp
      | None =>
          let! sp := on_proc_node i (new_supervisor (so_strategy so) (so_max so) (so_window so)) in
          modify (λ p, p <| p_sups ::= <[k := so <| so_sid := Some sp |>]> |>) ;; ret sp
      end
  end.

(** [Supervisor.spawn] *)
Definition supervisor_spawn (k : nat) (cls : string) (meta : actor_meta) : M proc cid :=
  let! i := supervisor_node k in
  let! sp := supervisor_sid k i in
  on_proc_node i (spawn sp cls meta).

(** [async with node:] *)
Definition node_aenter := node_start.
Definition node_aexit_begin (i : nat) : M proc (list tid) := on_proc_node i stop_begin.
Definition node_aexit_end (i : nat) : M proc unit := on_proc_node i stop_end.

(** ** What a process does *)

Inductive pact :=
| PStart (i : nat) (bound : core_start) (refuses : string → pyval → option exn)
| PNode (i : nat) (m : M st unit)        (* anything else that node [i] does, its [stop] included *)
| PSupervisor (k : nat) (strategy : string) (node : option nat) (max_restarts : nat) (restart_window : Z)
| PSpawn (k : nat) (cls : string) (meta : actor_meta).

Definition run_pact (a : pact) : M proc unit :=
  match a with
  | PStart i bound refuses => node_start i bound refuses
  | PNode i m => on_proc_node i m
  | PSupervisor k strategy node max window => Supervisor_init k strategy node max window
  | PSpawn k cls meta => supervisor_spawn k cls meta ;; ret tt
  end.

Definition run_pacts (l : list pact) (p : proc) : proc := foldl (λ p a, exec (run_pact a) p) p l.

(** A start that did something: the node is there, was not started, and its
    core came up. *)
Definition starts_node (a : pact) (p : proc) : option nat :=
  match a with
  | PStart i (Bound _) _ => match p_nodes p !! i with Some s => if _started s then None else Some i | None => None end
  | _ => None
  end.

(** The nodes that were started, in order. *)
Fixpoint started_nodes (l : list pact) (p : proc) : list nat :=
  match l with
  | [] => []
  | a :: l => option_list (starts_node a p) ++ started_nodes l (exec (run_pact a) p)
  end.

(** Whether [a] makes supervisor [k], or makes it need its node. *)
Definition touches (k : nat) (a : pact) : bool :=
  match a with PSupervisor k' _ _ _ _ | PSpawn k' _ _ => bool_decide (k' = k) | _ => false end.
Definition makes (k : nat) (a : pact) : bool := match a with PSupervisor k' _ _ _ _ => bool_decide (k' = k) | _ => false end.

(** ** Lemmas *)

Lemma on_proc_node_keeps {A} i (m : M st A) p :
  _current_node (exec (on_proc_node i m) p) = _current_node p ∧ p_sups (exec (on_proc_node i m) p) = p_sups p.
Proof. unfold on_proc_node, exec. destruct (p_nodes p !! i) as [s|]; [|done]. by destruct (m s). Qed.

Lemma node_start_current i bound refuses p :
  _current_node (exec (node_start i bound refuses) p) =
    (match starts_node (PStart i bound refuses) p with Some j => Some j | None => _current_node p end) ∧
  p_sups (exec (node_start i bound refuses) p) = p_sups p.
Proof.
  unfold node_start, on_proc_node, exec, starts_node. cbn. destruct (p_nodes p !! i) as [s|] eqn:Es; [|by destruct bound].
  cbn. rewrite lookup_insert_eq. unfold start. cbn. destruct (_started s); [by destruct bound|]. by destruct bound.
Qed.

Lemma spawn_current k cls meta p : _current_node (exec (supervisor_spawn k cls meta) p) = _current_node p.
Proof.
  unfold supervisor_spawn, supervisor_node, supervisor_sid, exec. cbn [bind get]. destruct (p_sups p !! k) as [so|]; [|done].
  cbn [bind modify]. destruct (match so_node so with Some i => Some i | None => get_current_node p end) as [i|]; [|done].
  cbn. rewrite lookup_insert_eq. cbn. destruct (so_sid so) as [sp|].
  - cbn. unfold on_proc_node. cbn. destruct (p_nodes p !! i) as [s|]; [|done]. by destruct (spawn sp cls meta s).
  - cbn. unfold on_proc_node. cbn. destruct (p_nodes p !! i) as [s|]; [|done]. cbn. rewrite lookup_insert_eq.
    by destruct (spawn _ cls meta _).
Qed.

Lemma run_pact_current a p :
  _current_node (exec (run_pact a) p) = match starts_node a p with Some j => Some j | None => _current_node p end.
Proof.
  destruct a as [i b r|i m|k str n mx w|k cls meta]; cbn [run_pact starts_node].
  - apply node_start_current.
  - apply on_proc_node_keeps.
  - unfold Supervisor_init, exec. cbn. by destruct (check_strategy str).
  - unfold exec. cbn [bind]. destruct (supervisor_spawn k cls meta p) as [r p'] eqn:E.
    pose proof (spawn_current k cls meta p) as H. unfold exec in H. rewrite E in H. by destruct r.
Qed.

(** The variable holds the node that was started last. *)
Lemma current_is_last_started l p :
  _current_node (run_pacts l p) = match list.last (started_nodes l p) with Some i => Some i | None => _current_node p end.
Proof.
  revert p. induction l as [|a l IH]; intros p; [done|]. cbn [run_pacts foldl started_nodes]. fold (run_pacts l (exec (run_pact a) p)).
  rewrite IH list.last_app. destruct (list.last (started_nodes l (exec (run_pact a) p))); [done|].
  rewrite run_pact_current. by destruct (starts_node a p).
Qed.

Definition bound_to (k : nat) (p : proc) : option (option nat) := so_node <$> p_sups p !! k.

Lemma spawn_bound k cls meta k' p :
  bound_to k' (exec (supervisor_spawn k cls meta) p) =
    if bool_decide (k' = k) then (λ so, match so_node so with Some i => Some i | None => _current_node p end) <$> p_sups p !! k
    else bound_to k' p.
Proof.
  unfold supervisor_spawn, supervisor_node, supervisor_sid, exec, bound_to. cbn [bind get].
  destruct (p_sups p !! k) as [so|] eqn:Ek; [|cbn; case_bool_decide; subst; by rewrite ?Ek].
  cbn [bind modify fmap option_fmap option_map]. unfold get_current_node. set (node := match so_node so with Some i => Some i | None => _current_node p end).
  clearbody node.
  assert (∀ X : gmap nat sup_obj, (∃ so', X = <[k := so']> (p_sups p) ∧ so_node so' = node) →
    so_node <$> X !! k' = if bool_decide (k' = k) then Some node else so_node <$> p_sups p !! k') as Hins.
  { intros X (so' & -> & Hn). case_bool_decide as Hk; [rewrite Hk lookup_insert_eq; cbn; by rewrite Hn|by rewrite lookup_insert_ne]. }
  destruct node as [i|] eqn:En; [|cbn; apply Hins; by eexists].
  cbn. rewrite lookup_insert_eq. cbn. destruct (so_sid so) as [sp|].
  - cbn. unfold on_proc_node. cbn. destruct (p_nodes p !! i) as [s|]; [destruct (spawn sp cls meta s)|]; cbn; apply Hins; by eexists.
  - cbn. unfold on_proc_node. cbn. destruct (p_nodes p !! i) as [s|]; [|apply Hins; by eexists]. cbn. rewrite lookup_insert_eq.
    destruct (spawn _ cls meta _); cbn; apply Hins; rewrite insert_insert_eq; by eexists.
Qed.

(** A supervisor that has a node keeps it; one that has none and is not used
    goes on without. *)
Lemma bound_stays k l p b :
  forallb (λ a, negb (makes k a) && (bool_decide (is_Some b) || negb (touches k a))) l = true →
  bound_to k p = Some b → bound_to k (run_pacts l p) = Some b.
Proof.
  revert p. induction l as [|a l IH]; intros p; [done|]. cbn [forallb run_pacts foldl]. intros [Ha Hl]%andb_prop Hb. apply IH; [done|].
  destruct a as [i bd r|i m|k' str n mx w|k' cls meta]; cbn [run_pact].
  - unfold bound_to. by destruct (node_start_current i bd r p) as [_ ->].
  - unfold bound_to. by destruct (on_proc_node_keeps i m p) as [_ ->].
  - unfold Supervisor_init, exec, bound_to. cbn. destruct (check_strategy str); [done|]. cbn in *.
    rewrite lookup_insert_ne //. intros ->. by rewrite bool_decide_eq_true_2 in Ha.
  - assert (exec (supervisor_spawn k' cls meta ;; ret tt) p = exec (supervisor_spawn k' cls meta) p) as ->.
    { unfold exec. cbn [bind]. by destruct (supervisor_spawn k' cls meta p) as [[]]. }
    rewrite spawn_bound. destruct (decide (k = k')) as [<-|Hk]; [rewrite bool_decide_eq_true_2 //|by rewrite bool_decide_eq_false_2]. unfold bound_to in Hb. destruct (p_sups p !! k) as [so|]; [|done].
    injection Hb as <-. cbn in Ha |- *. rewrite (bool_decide_eq_true_2 (k = k)) // orb_false_r in Ha. apply bool_decide_eq_true in Ha as [i ->]. done.
Qed.

(** ** The theorem *)

(** A supervisor that was given no node belongs to the node that was
    started last when it first needs one, not when it is made: without any,
    the call raises and leaves it as it was, to be tried again; otherwise that
    node is its node from then on, whatever is started or stopped later. *)
Theorem supervisor_binding l1 l2 k p :
  bound_to k p = Some None → _current_node p = None →
  forallb (λ a, negb (touches k a)) l1 = true → forallb (λ a, negb (makes k a)) l2 = true →
  let p1 := run_pacts l1 p in
  match list.last (started_nodes l1 p) with
  | None => ∀ cls meta, ∃ p2, supervisor_spawn k cls meta p1 = (inl no_node_started, p2) ∧ bound_to k p2 = Some None ∧ p_nodes p2 = p_nodes p1
  | Some i => ∀ cls meta, bound_to k (run_pacts l2 (exec (supervisor_spawn k cls meta) p1)) = Some (Some i)
  end.
Proof.
  intros Hb Hc H1 H2 p1. pose proof (current_is_last_started l1 p) as Hcur. fold p1 in Hcur.
  assert (bound_to k p1 = Some None) as Hb1.
  { apply bound_stays; [|done]. rewrite forallb_forall in H1. apply forallb_forall. intros a Ha. specialize (H1 a Ha).
    rewrite H1. destruct a; cbn in *; by rewrite ?H1. }
  unfold bound_to in Hb1. destruct (p_sups p1 !! k) as [so|] eqn:Eso; [|done]. injection Hb1 as Hso.
  destruct (list.last (started_nodes l1 p)) as [i|].
  - intros cls meta. apply bound_stays.
    + rewrite forallb_forall in H2. apply forallb_forall. intros a Ha. rewrite (H2 a Ha). rewrite bool_decide_eq_true_2; [by eexists|done].
    + by rewrite spawn_bound bool_decide_eq_true_2 // Eso /= Hso Hcur.
  - intros cls meta. rewrite Hc in Hcur. eexists. unfold supervisor_spawn, supervisor_node. cbn [bind get]. rewrite Eso Hso /get_current_node Hcur. cbn.
    split; [done|]. unfold bound_to. cbn. by rewrite lookup_insert_eq.
Qed.

Lemma settle_core f (is_ : list fid) : ∀ s, _core (foldl (settle_future f) s is_) = _core s.
Proof. induction is_ as [|i is_ IH]; intros s; [done|]. cbn [foldl]. by rewrite IH. Qed.

Lemma stop_end_core s : _core (exec stop_end s) = None.
Proof. unfold stop_end, exec. cbn. by rewrite settle_core. Qed.

Lemma spawn_stopped sp cls meta s : _core s = None → ∃ s', spawn sp cls meta s = (inl not_started, s').
Proof. intros Hc. unfold spawn, register_actor. cbn. rewrite Hc. by eexists. Qed.

(** The variable is not cleared: after the only node was stopped, a new
    supervisor takes it all the same, and its [spawn] says that the node has
    not been started, not that there is none. *)
Theorem current_outlives_stop p i s k strat st' max window cls meta :
  _current_node p = Some i → p_nodes p !! i = Some s → check_strategy strat = inr st' →
  ∃ p', (node_aexit_end i ;; Supervisor_init k strat None max window ;; supervisor_spawn k cls meta) p = (inl not_started, p').
Proof.
  intros Hc Hs Hck. set (s1 := exec stop_end s). pose proof (stop_end_core s) as Hcore. fold s1 in Hcore.
  assert (node_aexit_end i p = (inr tt, p <| p_nodes ::= <[i := s1]> |>)) as He
    by (unfold node_aexit_end, on_proc_node; by rewrite Hs).
  clearbody s1. unfold Supervisor_init. cbn [bind lift]. rewrite He Hck. cbn [modify bind]. unfold supervisor_spawn, supervisor_node, supervisor_sid.
  cbn. rewrite lookup_insert_eq. cbn. rewrite /get_current_node /= Hc. cbn.
  rewrite lookup_insert_eq. cbn. rewrite /on_proc_node /= lookup_insert_eq. cbn. rewrite lookup_insert_eq.
  edestruct spawn_stopped as [s2 ->]; [exact Hcore|]. by eexists.
Qed.

End current_node.
