(* ===== verification/SupervisorProps.v ===== *)
(** * Properties of the supervisor

    The restart budget against a reference that never prunes its history, the
    back-off, which siblings a strategy sweeps in, and what one crash of an
    actor does from the moment its driver dies until it runs again or is
    gone for good. *)

From Stdlib Require Import Sorting.Sorted.
From S2P Require Import Prelude Values NodeId Actors State PeerEvents Asyncio Node NodeProps Supervisor.

Definition is_actor (ch : child) : Prop := ∃ cls meta q, ch_kind ch = ActorChild cls meta q.

(** ** The restart budget *)

(** The requests at times [ts], one after the other: the times at which a
    restart was granted, and the supervisor afterwards. *)
Fixpoint run_budget (ts : list Z) (sup : supervisor) : list Z * supervisor :=
  match ts with
  | [] => ([], sup)
  | now :: ts' =>
      let '(ok, sup') := _allow_restart now sup in
      let '(g, sup'') := run_budget ts' sup' in
      ((if ok then [now] else []) ++ g, sup'')
  end.

(** The reference: the whole history of granted restarts is kept, and a
    request is granted when fewer than [max] of them are younger than the
    window. *)
Definition recent (window now : Z) (hist : list Z) : list Z :=
  filter (λ t, (now - t < window)%Z) hist.

Fixpoint granted_ref (max : nat) (window : Z) (hist ts : list Z) : list Z :=
  match ts with
  | [] => []
  | now :: ts' =>
      if bool_decide (length (recent window now hist) < max)
      then now :: granted_ref max window (hist ++ [now]) ts'
      else granted_ref max window hist ts'
  end.

Lemma recent_recent window now now' hist :
  (now ≤ now')%Z → recent window now' (recent window now hist) = recent window now' hist.
Proof.
  intros Hle. unfold recent. rewrite list_filter_filter. apply list_filter_iff. intros t. lia.
Qed.

(** Pruning never changes a later answer, because the clock is monotonic. *)
Definition remembers (sup : supervisor) (hist : list Z) (last : Z) : Prop :=
  ∀ now, (last ≤ now)%Z →
    recent (s_restart_window sup) now (s_restart_times sup) = recent (s_restart_window sup) now hist.

Lemma allow_restart_ref now sup hist last :
  remembers sup hist last → (last ≤ now)%Z →
  let '(ok, sup') := _allow_restart now sup in
  ok = bool_decide (length (recent (s_restart_window sup) now hist) < s_max_restarts sup) ∧
  s_max_restarts sup' = s_max_restarts sup ∧ s_restart_window sup' = s_restart_window sup ∧
  remembers sup' (if ok then hist ++ [now] else hist) now.
Proof.
  intros Hr Hle. unfold _allow_restart. pose proof (Hr now Hle) as Hnow. unfold recent in Hnow.
  case_bool_decide as Hc; simpl.
  - rewrite Hnow in Hc. rewrite bool_decide_eq_false_2; [unfold recent; lia|]. split_and!; try done.
    intros n Hn. simpl. rewrite -(Hr n); [lia|]. apply recent_recent; lia.
  - rewrite Hnow in Hc. rewrite bool_decide_eq_true_2; [unfold recent; lia|]. split_and!; try done.
    intros n Hn. simpl. pose proof (Hr n ltac:(lia)) as H. unfold recent in *.
    rewrite !list.filter_app -H. f_equal. apply recent_recent; lia.
Qed.

Lemma run_budget_ref ts : ∀ sup hist last,
  remembers sup hist last → Sorted Z.le (last :: ts) →
  (run_budget ts sup).1 = granted_ref (s_max_restarts sup) (s_restart_window sup) hist ts.
Proof.
  induction ts as [|now ts IH]; intros sup hist last Hr Hs; simpl; [done|].
  apply Sorted_inv in Hs as [Hs Hhd]. apply HdRel_inv in Hhd.
  pose proof (allow_restart_ref now sup hist last Hr Hhd) as H.
  destruct (_allow_restart now sup) as [ok sup']. destruct H as (Hok & Hm & Hw & Hr').
  specialize (IH sup' _ now Hr' Hs). rewrite Hm Hw in IH.
  destruct (run_budget ts sup') as [g sup'']; simpl in *. rewrite IH.
  rewrite -Hok. by destruct ok.
Qed.

(** Counting: no window holds more than [max] granted restarts. *)
Definition in_window (a window : Z) (ts : list Z) : nat :=
  length (filter (λ t, (a ≤ t < a + window)%Z) ts).

Lemma in_window_app a w l1 l2 : in_window a w (l1 ++ l2) = in_window a w l1 + in_window a w l2.
Proof. unfold in_window. by rewrite list.filter_app length_app. Qed.

Lemma in_window_recent a w now hist :
  (a ≤ now < a + w)%Z → Forall (λ t, (t ≤ now)%Z) hist →
  in_window a w hist ≤ length (recent w now hist).
Proof.
  intros Hn Hall. unfold in_window, recent. induction Hall as [|t hist Ht Hall IH]; [done|].
  rewrite !filter_cons. repeat case_decide; simpl; lia.
Qed.

Lemma granted_ref_window max w a ts : ∀ hist last,
  Sorted Z.le (last :: ts) → Forall (λ t, (t ≤ last)%Z) hist →
  in_window a w hist ≤ max →
  in_window a w (hist ++ granted_ref max w hist ts) ≤ max.
Proof.
  induction ts as [|now ts IH]; intros hist last Hs Hall Hw; simpl.
  { by rewrite app_nil_r. }
  apply Sorted_inv in Hs as [Hs Hhd]. apply HdRel_inv in Hhd.
  assert (Forall (λ t, (t ≤ now)%Z) hist) as Hall'.
  { eapply Forall_impl; [|exact Hall]. simpl; intros; lia. }
  case_bool_decide as Hc; [|by apply (IH hist now)].
  rewrite (app_assoc hist [now]). apply (IH _ now); [done| |].
  - apply Forall_app; split; [done|]. by apply Forall_singleton.
  - rewrite in_window_app. destruct (decide (a ≤ now < a + w)%Z) as [Hin|Hout].
    + pose proof (in_window_recent a w now hist Hin Hall').
      unfold in_window at 2. rewrite filter_cons_True //= . lia.
    + unfold in_window at 2. rewrite filter_cons_False //=. lia.
Qed.

(** (C1) The restart budget.  For requests in the order of a monotonic
    clock, a fresh supervisor grants exactly the restarts that the reference
    with the full history grants; so in no interval of length
    [restart_window] are more than [max_restarts] restarts granted. *)
Theorem restart_budget strat max window ts :
  Sorted Z.le ts →
  let g := (run_budget ts (fresh_supervisor strat max window)).1 in
  g = granted_ref max window [] ts ∧ ∀ a, in_window a window g ≤ max.
Proof.
  intros Hs g.
  assert (∃ last, Sorted Z.le (last :: ts)) as [last Hl].
  { destruct ts as [|t ts]; [exists 0%Z; by repeat constructor|exists t].
    constructor; [done|]. constructor. lia. }
  assert (g = granted_ref max window [] ts) as Hg.
  { by apply (run_budget_ref _ (fresh_supervisor strat max window) [] last). }
  split; [done|]. intros a. rewrite Hg.
  apply (granted_ref_window max window a ts [] last); [done|by constructor|unfold in_window; simpl; lia].
Qed.

Lemma restart_budget_witness :
  (run_budget [0; 1000; 2000; 4999; 5000]%Z (fresh_supervisor OneForOne 3 5000)).1 = [0; 1000; 2000; 5000]%Z ∧
  in_window 0 5000 [0; 1000; 2000; 5000]%Z ≤ 3.
Proof.
  pose proof (restart_budget OneForOne 3 5000 [0; 1000; 2000; 4999; 5000]%Z
    ltac:(repeat constructor; lia)) as [Hg Hw].
  split; [rewrite Hg; reflexivity|]. specialize (Hw 0%Z). rewrite Hg in Hw. exact Hw.
Defined.

(** ** The back-off *)

Lemma backoff_bounds_len sup :
  (0 < length (s_restart_times sup) → (100 ≤ _backoff sup)%Z) ∧ (50 ≤ _backoff sup ≤ 1000)%Z.
Proof.
  unfold _backoff. set (n := length _).
  assert (0 < 2 ^ Z.of_nat n)%Z by (apply Z.pow_pos_nonneg; lia).
  split; [|lia]. intros Hn. destruct n as [|n]; [simpl in Hn; lia|].
  rewrite Nat2Z.inj_succ Z.pow_succ_r; [lia|].
  assert (0 < 2 ^ Z.of_nat n)%Z by (apply Z.pow_pos_nonneg; lia). lia.
Qed.

(** The pause before a granted restart is between 100 ms and one
    second; it doubles with every restart still in the window until it
    reaches the second, which it does from the fifth on. *)
Theorem backoff_bounds now sup sup' :
  _allow_restart now sup = (true, sup') →
  let n := length (s_restart_times sup') in
  1 ≤ n ≤ s_max_restarts sup ∧ (100 ≤ _backoff sup' ≤ 1000)%Z ∧
  (n ≤ 4 → _backoff sup' = (2 ^ Z.of_nat n * 50)%Z) ∧ (5 ≤ n → _backoff sup' = 1000%Z).
Proof.
  intros Ha n.
  assert (1 ≤ n ≤ s_max_restarts sup) as Hn.
  { unfold _allow_restart in Ha. case_bool_decide as Hc; simplify_eq. unfold n; simpl.
    rewrite length_app /=. lia. }
  pose proof (backoff_bounds_len sup') as [Hlo Hb]. fold n in Hlo.
  split; [done|]. split; [lia|]. unfold _backoff; fold n. clear Hb Hlo. split; intros H.
  - do 5 (destruct n as [|n]; [simpl; lia|]); lia.
  - assert (2 ^ 5 ≤ 2 ^ Z.of_nat n)%Z by (apply Z.pow_le_mono_r; lia). lia.
Qed.

Lemma backoff_bounds_witness :
  _allow_restart 7000 (Supervisor OneForOne 3 5000 [0; 6000]%Z [] None false) =
    (true, Supervisor OneForOne 3 5000 [6000; 7000]%Z [] None false) ∧
  _backoff (Supervisor OneForOne 3 5000 [6000; 7000]%Z [] None false) = 200%Z.
Proof.
  split; [reflexivity|].
  pose proof (backoff_bounds 7000 (Supervisor OneForOne 3 5000 [0; 6000]%Z [] None false)
    (Supervisor OneForOne 3 5000 [6000; 7000]%Z [] None false) eq_refl) as (_ & _ & H & _).
  rewrite H; [simpl; lia|reflexivity].
Defined.

(** ** Which children a crash sweeps in *)

Lemma from_child_split c pre post :
  c ∉ pre → from_child c (pre ++ c :: post) = Some (c :: post).
Proof.
  induction pre as [|x pre IH]; intros Hc; simpl.
  - by rewrite bool_decide_eq_true_2.
  - rewrite bool_decide_eq_false_2; [set_solver|]. apply IH. set_solver.
Qed.

Lemma filter_other (c : cid) (l : list cid) : c ∉ l → filter (λ c', c' ≠ c) l = l.
Proof.
  induction l as [|x l IH]; intros Hc; [done|].
  rewrite filter_cons_True; [set_solver|]. rewrite IH //. set_solver.
Qed.

(** The siblings that [_handle_child_crash] tears down and respawns. *)
Definition swept (sup : supervisor) (c : cid) : exn + list cid :=
  match _affected_children sup c with
  | inl e => inl e
  | inr l => inr (filter (λ c', c' ≠ c) l)
  end.

(** The strategies.  For a child [c] between the children [pre] spawned
    before it and [post] spawned after it: [one_for_one] sweeps in nobody
    else, [one_for_all] all of [pre] and [post] in spawn order,
    [rest_for_one] exactly [post]; the crashed child itself is never torn
    down by its own restart. *)
Theorem strategy_sweep sup c pre post :
  s_children sup = pre ++ c :: post → NoDup (s_children sup) →
  swept sup c = inr match s_strategy sup with
                    | OneForOne => []
                    | OneForAll => pre ++ post
                    | RestForOne => post
                    end.
Proof.
  intros Hch Hnd. rewrite Hch in Hnd.
  apply list.NoDup_app in Hnd as (Hpre & Hdis & [Hc Hpost]%list.NoDup_cons).
  assert (c ∉ pre) as Hcp by set_solver.
  unfold swept, _affected_children. destruct (s_strategy sup); simpl.
  - rewrite filter_cons_False; [by intros []|done].
  - rewrite Hch list.filter_app filter_cons_False; [by intros []|]. by rewrite !filter_other.
  - rewrite Hch from_child_split // filter_cons_False; [by intros []|]. by rewrite filter_other.
Qed.

Lemma strategy_sweep_witness :
  swept (Supervisor RestForOne 3 5000 [] [1; 2; 3; 4] None false) 2 = inr [3; 4].
Proof.
  apply (strategy_sweep (Supervisor RestForOne 3 5000 [] [1; 2; 3; 4] None false) 2 [1] [3; 4]);
    [reflexivity|]. simpl. repeat constructor; set_solver.
Defined.

(** ** The end of a generation *)

Section generation.
Context {codec : PayloadCodec}.

(** The node once everything a generation of [name] had is taken back. *)
Definition ended (name : string) (s : st) : st :=
  let me := (local_id s, name) in
  s <| _mailboxes ::= delete name |>
    <| _core ::= fmap (λ co, co <| co_routing ::= λ r, r ∖ {[name]} |>) |>
    <| _live_children ::= delete name |>
    <| _trap_exit ::= delete name |>
    <| _links ::= delete name |>
    <| _monitor_watchers ::= delete name |>
    <| _groups ::= fmap (λ ms, ms ∖ {[me]}) |>
    <| _registry ::= filter (λ kv : string * member, kv.2 ≠ me) |>
    <| jobs ::= λ js, js ++ leave_jobs s me (groups_of s me) ++ release_jobs s me (names_of s me) |>.

Lemma cleanup_generation_spec name s :
  running s →
  cleanup_generation name s = (inr (_links s !! name, _monitor_watchers s !! name), ended name s).
Proof.
  intros Hrun. unfold cleanup_generation; simpl. rewrite unregister_actor_spec //=.
  set (s1 := s <| _mailboxes ::= delete name |>
               <| _core ::= fmap (λ co, co <| co_routing ::= λ r, r ∖ {[name]} |>) |>
               <| _live_children ::= delete name |> <| _trap_exit ::= delete name |>
               <| _links ::= delete name |> <| _monitor_watchers ::= delete name |>).
  rewrite -/s1 clear_groups_spec /= clear_registry_spec /=.
  assert (local_id s1 = local_id s) as Hl.
  { unfold local_id, s1; simpl. by destruct (_core s). }
  change (_links s1 !! name) with (delete name (_links s) !! name).
  unfold ended. destruct s; unfold local_id in *; simpl in *. rewrite Hl. by rewrite -app_assoc.
Qed.

(** The tasks created to tell the links and the monitors of an actor. *)
Definition exit_jobs (name : string) (linked : option (gset target)) (reason : string) : list job :=
  (λ t : target, match t with
         | (None, target_name) => JDeliverExit name target_name reason
         | (Some peer_id, target_name) => JNotifyRemoteExit peer_id target_name name reason
         end) <$> elements (default ∅ linked).

Definition down_jobs (name : string) (watchers : option (gmap string target)) (reason : string) : list job :=
  (λ w : string * target, match w with
         | (ref, (None, _)) => JDeliverDown ref name reason
         | (ref, (Some watcher_node, _)) => JNotifyRemoteDown watcher_node ref name reason
         end) <$> map_to_list (default ∅ watchers).

Lemma notify_exit_spec name linked monitored reason s :
  notify_exit name linked monitored reason s =
  (inr tt, s <| jobs ::= λ js, js ++ exit_jobs name linked reason ++ down_jobs name monitored reason |>).
Proof.
  unfold notify_exit, _notify_links, _notify_monitors; simpl.
  rewrite (for_each_ext _ (λ t : target, create_job match t with
         | (None, target_name) => JDeliverExit name target_name reason
         | (Some peer_id, target_name) => JNotifyRemoteExit peer_id target_name name reason
         end)); [by intros [[] ?]|].
  rewrite for_each_create_job /=.
  rewrite (for_each_ext _ (λ w : string * target, create_job match w with
         | (ref, (None, _)) => JDeliverDown ref name reason
         | (ref, (Some watcher_node, _)) => JNotifyRemoteDown watcher_node ref name reason
         end)); [by intros [? [[] ?]]|].
  rewrite for_each_create_job /=. by rewrite -app_assoc.
Qed.

(** ** One turn of a child's task *)

Lemma upd_task_id t f s tk : tasks s !! t = Some tk → f tk = tk → upd_task t f s = s.
Proof.
  intros Ht Hf. unfold upd_task. destruct s; simpl in *.
  by rewrite (alter_present _ _ _ _ Ht) Hf insert_id.
Qed.

Lemma step_child_run t ctor now s sp c p w wk :
  tasks s !! t = Some (Task (CodeChild sp c p) w false None) → pending_wake s w = Some wk →
  step_child t ctor now s = guard_task t (run_child t sp c p wk ctor now) s.
Proof.
  intros Ht Hw. unfold step_child; simpl. rewrite Ht /= Hw /=.
  by rewrite (upd_task_id _ _ _ _ Ht).
Qed.

Lemma suspend_spec t cd w s tk :
  tasks s !! t = Some tk → t_must_cancel tk = false →
  suspend t cd w s = (inr tt, s <| tasks ::= <[t := Task cd w false (t_out tk)]> |>).
Proof. intros Ht Hm. unfold suspend; simpl. by rewrite Ht Hm. Qed.

Lemma finish_spec t o s tk :
  tasks s !! t = Some tk →
  finish t o s = (inr tt, s <| tasks ::= <[t := tk <| t_out := Some o |>]> |>
                            <| _actor_tasks ::= λ l, l ∖ {[t]} |>).
Proof. intros Ht. unfold finish, upd_task; simpl. by rewrite (alter_present _ _ _ _ Ht). Qed.

Lemma handle_crash_granted t sp c name k now s sup sup' tk :
  sups s !! sp = Some sup → _allow_restart now sup = (true, sup') →
  tasks s !! t = Some tk → t_must_cancel tk = false →
  _handle_child_crash t sp c name k now s =
  (inr tt, s <| sups ::= <[sp := sup']> |>
             <| tasks ::= <[t := Task (CodeChild sp c (PcBackoff k)) (WSleep (_backoff sup'))
                                      false (t_out tk)]> |>).
Proof.
  intros Hs Ha Ht Hm. unfold _handle_child_crash; simpl. rewrite Hs Ha /=.
  rewrite (suspend_spec _ _ _ _ tk) //=. by rewrite (alter_present _ _ _ _ Hs).
Qed.

(** How the generation of child [ch] that driver [d] runs has died with [e]:
    a handler raised it, or a linked actor's exit was turned into it. *)
Definition died (s : st) (ch : child) (d : tid) (e : exn) : Prop :=
  ∃ dk, tasks s !! d = Some dk ∧
    (t_out dk = Some (OExn e) ∨ t_out dk = Some OCancelled ∧ ch_pending_exit ch = Some e).

(** The child's record after the crash was noted. *)
Definition noted (s : st) (ch : child) (d : tid) : child :=
  if bool_decide (tasks s !! d ≫= t_out = Some OCancelled)
  then ch <| ch_pending_exit := None |> else ch.


Definition crash_of (s : st) (name : string) (e : exn) : crash :=
  Crash e (_links s !! name) (_monitor_watchers s !! name).

(** Both ways of dying end in [_handle_child_crash], after the generation was
    cleaned up, with the links and watchers it had. *)
Lemma crash_reaches_handler t sp c ctor now s d ch e :
  running s → children s !! c = Some ch →
  tasks s !! t = Some (Task (CodeChild sp c PcAwaitDriver) (WTask d) false None) →
  died s ch d e →
  step_child t ctor now s =
  guard_task t (_handle_child_crash t sp c (ch_name ch) (crash_of s (ch_name ch) e) now)
    (ended (ch_name ch) s <| children ::= <[c := noted s ch d]> |>).
Proof.
  intros Hrun Hch Ht (dk & Hd & Hout). unfold noted. rewrite Hd /=.
  assert (∃ o, t_out dk = Some o) as [o Ho] by naive_solver.
  rewrite (step_child_run _ _ _ _ sp c PcAwaitDriver (WTask d) (wake_of_outcome o)) //;
    [by rewrite /= Hd /= Ho|].
  unfold guard_task, run_child; simpl. rewrite Hch.
  destruct Hout as [Hout|[Hout Hp]]; simplify_eq; rewrite Hout /=.
  - unfold actor_crashed; simpl. rewrite cleanup_generation_spec //=.
    destruct s; simpl in *. by rewrite (insert_id _ _ _ Hch).
  - unfold actor_cancelled; simpl. rewrite cleanup_generation_spec //=.
    rewrite Hch /= Hp /=. by rewrite (alter_present _ _ _ _ Hch).
Qed.

(** (C2) A crash within the budget.  Whether a handler raised or a linked
    actor's exit arrived, the turn of the child's task that notices it takes
    back everything the generation had (name, links, monitors, groups,
    registered names), schedules no exit and no down signal, and leaves the
    task asleep for the back-off with what it would have to tell if the
    restart never happens; every mailbox keeps its messages and every other
    task and child is untouched. *)
Theorem crash_within_budget t sp c ctor now s d ch e sup sup' :
  running s → children s !! c = Some ch →
  tasks s !! t = Some (Task (CodeChild sp c PcAwaitDriver) (WTask d) false None) →
  died s ch d e → sups s !! sp = Some sup → _allow_restart now sup = (true, sup') →
  step_child t ctor now s =
  (inr tt, ended (ch_name ch) s
     <| children ::= <[c := noted s ch d]> |>
     <| sups ::= <[sp := sup']> |>
     <| tasks ::= <[t := Task (CodeChild sp c (PcBackoff (crash_of s (ch_name ch) e)))
                              (WSleep (_backoff sup')) false None]> |>).
Proof.
  intros Hrun Hch Ht Hdied Hs Ha.
  rewrite (crash_reaches_handler _ sp c _ _ _ d ch e) // /guard_task /=.
  by rewrite (handle_crash_granted _ _ _ _ _ _ _ sup sup'
                (Task (CodeChild sp c PcAwaitDriver) (WTask d) false None)).
Qed.

(** The node once a generation of [ch] is up: its name registered with its
    mailbox, and a fresh driver [d] scheduled, which task [t] awaits. *)
Definition started_generation (t sp c : nat) (ch : child) (q : qid) (d : tid) (s : st) : st :=
  s <| _mailboxes ::= <[ch_name ch := q]> |>
    <| _core ::= fmap (λ co, co <| co_routing ::= union {[ch_name ch]} |>) |>
    <| _live_children ::= <[ch_name ch := c]> |>
    <| children ::= <[c := ch <| ch_driver := Some d |>]> |>
    <| tasks ::= λ ts, <[t := Task (CodeChild sp c PcAwaitDriver) (WTask d) false None]>
                        (<[d := Task (CodeDrive c None) (WReady WkOk) false None]> ts) |>
    <| next_id ::= S |>.

Lemma actor_head_ok t sp c ch cls meta q now s cd w :
  running s → children s !! c = Some ch → ch_kind ch = ActorChild cls meta q →
  _mailboxes s !! ch_name ch = None ∨ _mailboxes s !! ch_name ch = Some q →
  tasks s !! t = Some (Task cd w false None) → t ≠ next_id s →
  child_head t sp c None now s = (inr tt, started_generation t sp c ch q (next_id s) s).
Proof.
  intros Hrun Hch Hk Hm Ht Hfresh. unfold child_head; simpl. rewrite Hch Hk.
  unfold actor_head; simpl. rewrite register_actor_ok //= /create_task /=.
  rewrite (alter_present _ _ _ _ Hch).
  rewrite (suspend_spec _ _ _ _ (Task cd w false None)) //=.
  by rewrite lookup_insert_ne.
Qed.

(** The child's task, resumed when its back-off is over and nobody else is
    swept in, starts the next generation in place. *)
Lemma backoff_over t sp c k ms ch cls meta q sup now s :
  running s → children s !! c = Some ch → ch_kind ch = ActorChild cls meta q →
  tasks s !! t = Some (Task (CodeChild sp c (PcBackoff k)) (WSleep ms) false None) →
  t ≠ next_id s → sups s !! sp = Some sup → swept sup c = inr [] →
  _mailboxes s !! ch_name ch = None ∨ _mailboxes s !! ch_name ch = Some q →
  (fire_timer t ;; step_child t None now) s =
  (inr tt, started_generation t sp c ch q (next_id s) s).
Proof.
  intros Hrun Hch Hk Ht Hfresh Hsup Hsw Hm.
  set (s1 := s <| tasks ::= <[t := Task (CodeChild sp c (PcBackoff k)) (WReady WkOk) false None]> |>).
  assert (fire_timer t s = (inr tt, s1)) as Hf.
  { unfold fire_timer, upd_task, s1; simpl. by rewrite (alter_present _ _ _ _ Ht). }
  cbn [bind]. rewrite Hf.
  rewrite (step_child_run _ _ _ s1 sp c (PcBackoff k) (WReady WkOk) WkOk) //;
    [by rewrite /s1 /= lookup_insert_eq|].
  unfold guard_task, run_child; simpl. rewrite Hch Hsup. unfold swept in Hsw.
  destruct (_affected_children sup c) as [|l]; [done|]. injection Hsw as Hl. simpl. rewrite Hl.
  unfold restart_group; simpl.
  erewrite (actor_head_ok t sp c ch cls meta q now s1); try done.
  - unfold started_generation, s1; simpl. do 2 f_equal.
    rewrite (insert_insert_ne _ t) // insert_insert_eq. by rewrite (insert_insert_ne _ (next_id s) t).
  - by rewrite /s1 /= lookup_insert_eq.
Qed.

(** (C3) The restart.  When the back-off of a crashed actor ends and its
    strategy sweeps in nobody else, its own task starts the next generation:
    the name is registered again with the very mailbox it had, whose queued
    messages (like every other mailbox, link, group and name) are as they
    were, the restart is signalled to nobody, and the only new task is the
    driver it then awaits. *)
Theorem restart_in_place t sp c k ms ch cls meta q sup now s :
  running s → children s !! c = Some ch → ch_kind ch = ActorChild cls meta q →
  tasks s !! t = Some (Task (CodeChild sp c (PcBackoff k)) (WSleep ms) false None) →
  t ≠ next_id s → sups s !! sp = Some sup → swept sup c = inr [] →
  _mailboxes s !! ch_name ch = None →
  let r := (fire_timer t ;; step_child t None now) s in
  r.1 = inr tt ∧ _mailboxes r.2 = <[ch_name ch := q]> (_mailboxes s) ∧
  _live_children r.2 = <[ch_name ch := c]> (_live_children s) ∧
  queues r.2 = queues s ∧ jobs r.2 = jobs s ∧ _links r.2 = _links s ∧
  _groups r.2 = _groups s ∧ _registry r.2 = _registry s ∧ sups r.2 = sups s ∧
  children r.2 = <[c := ch <| ch_driver := Some (next_id s) |>]> (children s) ∧
  (∀ t', t' ≠ t → t' ≠ next_id s → tasks r.2 !! t' = tasks s !! t') ∧
  tasks r.2 !! next_id s = Some (Task (CodeDrive c None) (WReady WkOk) false None) ∧
  tasks r.2 !! t = Some (Task (CodeChild sp c PcAwaitDriver) (WTask (next_id s)) false None).
Proof.
  intros Hrun Hch Hk Ht Hfresh Hsup Hsw Hm r.
  assert (r = (inr tt, started_generation t sp c ch q (next_id s) s)) as ->
    by (apply (backoff_over _ _ _ k ms ch cls meta q sup); eauto).
  simpl. split_and!; try done.
  - intros t' H1 H2. by rewrite !lookup_insert_ne.
  - by rewrite lookup_insert_ne // lookup_insert_eq.
  - by rewrite lookup_insert_eq.
Qed.

(** ** Giving up *)

Lemma crash_for_good_spec t name k s tk :
  tasks s !! t = Some tk →
  crash_for_good t name k s =
  (inr tt, s <| jobs ::= λ js, js ++ exit_jobs name (k_linked k) (exn_detail (k_exn k))
                                  ++ down_jobs name (k_monitored k) (exn_detail (k_exn k)) |>
             <| tasks ::= <[t := tk <| t_out := Some (OExn (k_exn k)) |>]> |>
             <| _actor_tasks ::= λ l, l ∖ {[t]} |>).
Proof.
  intros Ht. unfold crash_for_good; simpl. rewrite notify_exit_spec /=. by rewrite (finish_spec _ _ _ tk).
Qed.

(** The supervisor after child [c] gave up alone. *)
Definition lost_child (sup : supervisor) (c : cid) (e : exn) : supervisor :=
  let sup := sup <| s_children ::= remove_first c |> in
  if bool_decide (s_children sup = []) then sup <| s_give_up_exc := Some e |> <| s_given_up := true |>
  else sup.

Lemma allow_restart_same now sup ok sup' :
  _allow_restart now sup = (ok, sup') →
  s_strategy sup' = s_strategy sup ∧ s_children sup' = s_children sup.
Proof. unfold _allow_restart. case_bool_decide; intros [= <- <-]; done. Qed.

Lemma handle_crash_refused_one t sp c name k now s sup sup' tk :
  sups s !! sp = Some sup → s_strategy sup = OneForOne → _allow_restart now sup = (false, sup') →
  tasks s !! t = Some tk →
  let ev := EvSupervisorGaveUp name (exn_detail (k_exn k)) in
  _handle_child_crash t sp c name k now s =
  (inr tt, s <| sups ::= <[sp := lost_child sup' c (k_exn k)]> |>
             <| reported ::= λ l, l ++ user_reports (_event_listeners s) ev |>
             <| jobs ::= λ js, js ++ exit_jobs name (k_linked k) (exn_detail (k_exn k))
                                  ++ down_jobs name (k_monitored k) (exn_detail (k_exn k)) |>
             <| tasks ::= <[t := tk <| t_out := Some (OExn (k_exn k)) |>]> |>
             <| _actor_tasks ::= λ l, l ∖ {[t]} |>).
Proof.
  intros Hs Hst Ha Ht ev. unfold _handle_child_crash, _discard_child, set_given_up, upd_sup; simpl. rewrite Hs Ha /= quiet_event //= Hst /=.
  rewrite (alter_present _ _ _ _ Hs) (alter_present _ sp _ sup') ?lookup_insert_eq //.
  rewrite insert_insert_eq /=. unfold lost_child; simpl.
  destruct (decide (remove_first c (s_children sup') = [])) as [Hnil|Hnil].
  - rewrite !bool_decide_eq_true_2 //=; [by rewrite Hnil|].
    rewrite (crash_for_good_spec _ _ _ _ tk) //=.
    by rewrite (alter_present _ sp _ (sup' <| s_children ::= remove_first c |>)) ?lookup_insert_eq // insert_insert_eq.
  - rewrite !bool_decide_eq_false_2 //=; [by intros [=]|].
    by rewrite (crash_for_good_spec _ _ _ _ tk).
Qed.

(** (C4) Giving up under [one_for_one] is isolated and signalled.  When the
    budget refuses the restart, the crashed child's task ends with the
    exception; every actor linked to it gets one exit signal and every
    monitor one [Down], with the exception as the reason;
    [supervisor_gave_up] is reported to every listener; the child leaves the
    supervisor's list, and the supervisor itself gives up only when that list
    is now empty; no sibling's task, record or mailbox changes. *)
Theorem one_for_one_gives_up t sp c ctor now s d ch e sup sup' :
  running s → children s !! c = Some ch →
  tasks s !! t = Some (Task (CodeChild sp c PcAwaitDriver) (WTask d) false None) →
  died s ch d e → sups s !! sp = Some sup → s_strategy sup = OneForOne →
  _allow_restart now sup = (false, sup') →
  let name := ch_name ch in
  let s' := exec (step_child t ctor now) s in
  t_out <$> tasks s' !! t = Some (Some (OExn e)) ∧
  (∀ t', t' ≠ t → tasks s' !! t' = tasks s !! t') ∧
  (∀ c', c' ≠ c → children s' !! c' = children s !! c') ∧
  _mailboxes s' = delete name (_mailboxes s) ∧ queues s' = queues s ∧
  jobs s' = jobs (ended name s) ++ exit_jobs name (_links s !! name) (exn_detail e)
                                ++ down_jobs name (_monitor_watchers s !! name) (exn_detail e) ∧
  reported s' = reported s ++ user_reports (_event_listeners s) (EvSupervisorGaveUp name (exn_detail e)) ∧
  sups s' = <[sp := lost_child sup' c e]> (sups s).
Proof.
  intros Hrun Hch Ht Hdied Hs Hst Ha name s'.
  assert (s' = exec (guard_task t (_handle_child_crash t sp c name (crash_of s name e) now))
                 (ended name s <| children ::= <[c := noted s ch d]> |>)) as ->.
  { unfold s'. cbn [exec]. by rewrite (crash_reaches_handler _ sp c _ _ _ d ch e). }
  unfold guard_task; simpl.
  rewrite (handle_crash_refused_one _ _ _ _ _ _ _ sup sup'
            (Task (CodeChild sp c PcAwaitDriver) (WTask d) false None)) //=.
  rewrite lookup_insert_eq. split_and!; try done.
  - intros t' Hne. by rewrite lookup_insert_ne.
  - intros c' Hne. by rewrite lookup_insert_ne.
Qed.

(** *** The whole group *)

(** A task that the loop will resume with [CancelledError]. *)
Definition doomed (s : st) (t : tid) : Prop :=
  ∃ tk, tasks s !! t = Some tk ∧ t_out tk = None ∧ t_wait tk = WReady WkCancel.

(** An actor whose task [t] awaits driver [d], which waits for a message, is
    inside a handler, or is about to be cancelled. *)
Definition stoppable (s : st) (t d : tid) : Prop :=
  ∃ tk dk, tasks s !! t = Some tk ∧ t_out tk = None ∧ t_wait tk = WTask d ∧
           tasks s !! d = Some dk ∧ t_out dk = None ∧
           (t_wait dk = WGet ∨ t_wait dk = WUser ∨ t_wait dk = WReady WkCancel).

(** What [cancel_task] may do to the wait of one task. *)
Definition cancel_move (w w' : wait) : Prop :=
  w' = w ∨
  (w' = WReady WkCancel ∧ match w with WSleep _ | WEvent _ | WGet | WUser => True | _ => False end) ∨
  (∃ ts b, w = WGather ts b ∧ w' = WGather ts true).

Definition cancel_moves (s s' : st) : Prop :=
  ∀ t, option_Forall2 (λ tk tk', (t_out tk', t_code tk') = (t_out tk, t_code tk) ∧
                                 cancel_move (t_wait tk) (t_wait tk'))
         (tasks s !! t) (tasks s' !! t).

#[local] Instance cancel_moves_preorder : PreOrder cancel_moves.
Proof.
  split.
  - intros s t. destruct (tasks s !! t); constructor. split; [done|by left].
  - intros s1 s2 s3 H12 H23 t. specialize (H12 t); specialize (H23 t).
    destruct H12 as [tk1 tk2 [Ho12 Hw12]|]; inversion H23 as [? tk3 [Ho23 Hw23]|]; subst; constructor.
    split; [congruence|]. clear -Hw12 Hw23.
    destruct Hw12 as [E|[[E ?]|(ts & b & E1 & E)]]; rewrite E in Hw23; try done.
    + destruct Hw23 as [E'|[[? []]|(? & ? & ? & ?)]]; [|done]. right; left. by rewrite E'.
    + destruct Hw23 as [E'|[[? []]|(? & ? & [= <- <-] & E')]]; right; right; eauto 10.
Qed.

Lemma upd_task_moves s t f :
  (∀ tk, tasks s !! t = Some tk → (t_out (f tk), t_code (f tk)) = (t_out tk, t_code tk) ∧
                                  cancel_move (t_wait tk) (t_wait (f tk))) →
  cancel_moves s (upd_task t f s).
Proof.
  intros Hf t'. simpl. rewrite lookup_alter. case_decide; subst.
  - destruct (tasks s !! t') as [tk|]; constructor. by apply Hf.
  - destruct (tasks s !! t'); constructor. split; [done|by left].
Qed.

Lemma cancel_task_moves n : ∀ t s, cancel_moves s (cancel_task n t s).2.
Proof.
  induction n as [|n IH]; intros t s; simpl; [done|].
  destruct (tasks s !! t) as [tk|] eqn:Et; simpl; [|done].
  case_bool_decide; [done|].
  assert (∀ s', cancel_moves s' (upd_task t (λ tk, tk <| t_must_cancel := true |>) s')) as Hrem.
  { intros s'. apply upd_task_moves. intros tk' _. split; [done|by left]. }
  destruct (t_wait tk) as [| |t'|ts rq| | |] eqn:Ew; simpl; try done;
    try (apply upd_task_moves; intros tk' Htk'; simplify_eq; split; [done|];
         right; left; rewrite Ew; done).
  - specialize (IH t' s). destruct (cancel_task n t' s) as [[] s']; simpl in *; [done|].
    by etrans.
  - assert (∀ r s0, cancel_moves s0
      (foldl (λ acc t', let '(r, s) := acc in
                        let '(r', s') := cancel_task n t' s in
                        (r || r', s')) (r, s0) ts).2) as Hf.
    { clear Ew. induction ts as [|t1 ts IHts]; intros r s0; simpl; [done|].
      specialize (IH t1 s0). destruct (cancel_task n t1 s0) as [r1 s1]; simpl in *.
      etrans; [exact IH|apply IHts]. }
    specialize (Hf false s). destruct (foldl _ _ ts) as [[] s'] eqn:Ef; simpl in *; [|by etrans].
    etrans; [exact Hf|]. apply upd_task_moves. intros tk' Htk'. split; [done|].
    specialize (Hf t). rewrite Et Htk' in Hf. inversion Hf as [? ? [_ Hm]|]; subst.
    rewrite Ew in Hm. right; right. destruct Hm as [->|[[_ []]|(? & ? & [= <- <-] & ->)]]; eauto.
Qed.

Lemma doomed_moves s s' t : cancel_moves s s' → doomed s t → doomed s' t.
Proof.
  intros Hm (tk & Ht & Ho & Hw). specialize (Hm t). rewrite Ht in Hm.
  inversion Hm as [? tk' [Ho' Hw'] Heq|]; subst. exists tk'. split; [done|]. split; [congruence|].
  rewrite Hw in Hw'. by destruct Hw' as [->|[[? []]|(? & ? & ? & ?)]].
Qed.

Lemma stoppable_moves s s' t d : cancel_moves s s' → stoppable s t d → stoppable s' t d.
Proof.
  intros Hm (tk & dk & Ht & Ho & Hw & Hd & Hdo & Hdw).
  pose proof (Hm t) as H1. pose proof (Hm d) as H2. rewrite Ht in H1. rewrite Hd in H2.
  inversion H1 as [? tk' [Ho1 Hw1]|]; subst. inversion H2 as [? dk' [Ho2 Hw2]|]; subst.
  exists tk', dk'. split_and!; try done; try congruence.
  - rewrite Hw in Hw1. by destruct Hw1 as [->|[[? []]|(? & ? & ? & ?)]].
  - destruct Hw2 as [->|[[-> _]|(? & ? & Hw2 & _)]]; [done|auto|]. rewrite Hw2 in Hdw. naive_solver.
Qed.

Lemma cancel_dooms s t d : stoppable s t d → doomed (exec (cancel t) s) d.
Proof.
  intros (tk & dk & Ht & Ho & Hw & Hd & Hdo & Hdw). unfold cancel; simpl.
  rewrite Ht Ho /= Hw. destruct (size (tasks s)) as [|n] eqn:E.
  { apply map_size_empty_iff in E. by rewrite E lookup_empty in Ht. }
  simpl. rewrite Hd Hdo /=. unfold doomed.
  destruct Hdw as [Hdw|[Hdw|Hdw]]; rewrite Hdw /= lookup_alter_eq Hd /=; eauto.
Qed.

(** Cancelling several tasks dooms the driver of every actor among them. *)
Lemma cancel_all_dooms ts : ∀ s t d,
  t ∈ ts → stoppable s t d → doomed (exec (for_each ts cancel) s) d.
Proof.
  induction ts as [|x ts IH]; intros s t d Hin Hs; [by apply elem_of_nil in Hin|].
  change (exec (for_each (x :: ts) cancel) s) with (exec (for_each ts cancel) (exec (cancel x) s)).
  apply elem_of_cons in Hin as [->|Hin].
  - apply (for_each_invariant (λ s, doomed s d)); [|by apply cancel_dooms].
    intros t' s'. apply doomed_moves, cancel_task_moves.
  - apply (IH _ t); [done|]. eapply stoppable_moves; [apply cancel_task_moves|done].
Qed.

Lemma suspend_moves t cd w s s' tk :
  tasks s !! t = Some tk → s' = exec (suspend t cd w) s →
  cancel_moves (s <| tasks ::= <[t := Task cd w false (t_out tk)]> |>) s' ∧ same_but_tasks s s'.
Proof.
  intros Ht ->. unfold suspend; simpl. rewrite Ht /=. destruct (t_must_cancel tk); [|done].
  split; [apply cancel_task_moves|].
  transitivity (s <| tasks ::= <[t := Task cd w false (t_out tk)]> |>); [done|apply cancel_same].
Qed.

Lemma cancel_all_moves ts s : cancel_moves s (exec (for_each ts cancel) s).
Proof.
  apply (for_each_invariant (cancel_moves s)); [|done].
  intros t s' Hs. etrans; [exact Hs|apply cancel_task_moves].
Qed.

Lemma cancel_all_total ts : ∀ s, (for_each ts cancel s).1 = inr tt.
Proof. induction ts as [|t ts IH]; intros s; simpl; [done|]. apply IH. Qed.

Lemma cancel_all_same ts s : same_but_tasks s (exec (for_each ts cancel) s).
Proof.
  apply (for_each_invariant (same_but_tasks s)); [|done].
  intros t s' Hs. etrans; [exact Hs|apply cancel_task_same].
Qed.

Lemma moves_code s s' t tk :
  cancel_moves s s' → tasks s !! t = Some tk →
  ∃ tk', tasks s' !! t = Some tk' ∧ t_code tk' = t_code tk ∧ t_out tk' = t_out tk.
Proof.
  intros Hm Ht. specialize (Hm t). rewrite Ht in Hm. inversion Hm as [? tk' [[= ? ?] _]|]; subst. eauto.
Qed.

(** The tasks of the other children of [sup]. *)
Definition other_tasks (s : st) (sup : supervisor) (c : cid) : list tid :=
  tasks_of s (filter (λ c', Some c' ≠ Some c) (s_children sup)).

Lemma handle_crash_refused_group_eq t sp c name k now s sup sup' :
  sups s !! sp = Some sup → s_strategy sup ≠ OneForOne → _allow_restart now sup = (false, sup') →
  other_tasks s sup c ≠ [] →
  let ev := EvSupervisorGaveUp name (exn_detail (k_exn k)) in
  let s1 := s <| sups ::= <[sp := sup']> |>
              <| reported ::= λ l, l ++ user_reports (_event_listeners s) ev |> in
  _handle_child_crash t sp c name k now s =
  suspend t (CodeChild sp c (PcGiveUp k)) (WGather (other_tasks s sup c) false)
    (exec (for_each (other_tasks s sup c) cancel) s1).
Proof.
  intros Hs Hst Ha Hts ev s1.
  pose proof (allow_restart_same _ _ _ _ Ha) as [_ Hcs].
  assert (_shutdown_except sp (Some c) s1 =
          (inr (other_tasks s sup c), exec (for_each (other_tasks s sup c) cancel) s1)) as Hsh.
  { unfold _shutdown_except, s1; simpl. rewrite lookup_insert_eq /= Hcs.
    change (tasks_of _ _) with (other_tasks s sup c).
    pose proof (cancel_all_total (other_tasks s sup c) s1) as Htot. unfold s1 in *; simpl in Htot.
    by destruct (for_each _ cancel _) as [r s2]; simpl in *; subst. }
  unfold _handle_child_crash, upd_sup; simpl. rewrite Hs Ha /= quiet_event //=.
  rewrite (alter_present _ _ _ _ Hs) -/ev -/s1.
  destruct (s_strategy sup); [done|..]; cbn [bind]; rewrite Hsh;
    by destruct (other_tasks s sup c).
Qed.

Lemma handle_crash_refused_group t sp c name k now s sup sup' tk d s' :
  sups s !! sp = Some sup → s_strategy sup ≠ OneForOne → _allow_restart now sup = (false, sup') →
  tasks s !! t = Some tk → t_out tk = None → t_wait tk = WTask d →
  other_tasks s sup c ≠ [] →
  s' = exec (_handle_child_crash t sp c name k now) s →
  (∃ tk', tasks s' !! t = Some tk' ∧ t_code tk' = CodeChild sp c (PcGiveUp k) ∧ t_out tk' = None) ∧
  (∀ t' d', t' ∈ other_tasks s sup c → stoppable s t' d' → doomed s' d') ∧
  sups s' = <[sp := sup']> (sups s).
Proof.
  intros Hs Hst Ha Ht Ho Hw Hts ->. cbn [exec].
  rewrite (handle_crash_refused_group_eq _ _ _ _ _ _ _ sup sup') //.
  set (ts := other_tasks s sup c). set (s1 := update reported _ _).
  set (s2 := exec (for_each ts cancel) s1).
  destruct (moves_code s1 s2 t tk) as (tk2 & Ht2 & _ & Ho2); [apply cancel_all_moves|done|].
  destruct (suspend_moves t (CodeChild sp c (PcGiveUp k)) (WGather ts false) s2 _ tk2 Ht2 eq_refl)
    as [Hmv Hsame].
  set (s' := exec _ s2) in *. change (suspend _ _ _ s2).2 with s'. split_and!.
  - destruct (moves_code _ s' t (Task (CodeChild sp c (PcGiveUp k)) (WGather ts false) false (t_out tk2)) Hmv)
      as (tk' & Ht' & Hc' & Ho'); [by rewrite /= lookup_insert_eq|].
    exists tk'. split_and!; [done|done|]. rewrite Ho' /=. congruence.
  - intros t' d' Hin Hst'. eapply doomed_moves; [exact Hmv|].
    assert (doomed s2 d') as (dk & Hd & Hrest) by (apply (cancel_all_dooms ts s1 t'); done).
    exists dk. split; [|done]. simpl. rewrite lookup_insert_ne; [|done]. intros ->.
    destruct Hst' as (? & dk0 & _ & _ & _ & Hd0 & _ & Hw0). rewrite Ht in Hd0. injection Hd0 as <-.
    rewrite Hw in Hw0. by destruct Hw0 as [?|[?|?]].
  - assert (same_but_tasks s1 s') as H1 by (etrans; [apply cancel_all_same|exact Hsame]).
    assert (sups s' = sups (s' <| tasks := ∅ |>)) as -> by done. by rewrite -H1.
Qed.

Lemma suspend_total t cd w s : (suspend t cd w s).1 = inr tt.
Proof. unfold suspend; simpl. destruct (tasks s !! t) as [tk|]; [|done]. by destruct (t_must_cancel tk). Qed.

Lemma exec_guard_task t (m : M st unit) s : (m s).1 = inr tt → exec (guard_task t m) s = exec m s.
Proof. intros H. unfold guard_task; simpl. by destruct (m s) as [r s']; simpl in *; subst. Qed.

Lemma tasks_of_noted name s ch c d cs :
  children s !! c = Some ch →
  tasks_of (ended name s <| children ::= <[c := noted s ch d]> |>) cs = tasks_of s cs.
Proof.
  intros Hch. unfold tasks_of. apply list_bind_ext; [|done]. intros c'. simpl.
  destruct (decide (c' = c)) as [->|Hne]; [|by rewrite lookup_insert_ne].
  rewrite lookup_insert_eq Hch /=. unfold noted. by case_bool_decide.
Qed.


(** ** Escalation *)

(** (C6) A nested supervisor that gave up counts as a crash of the subtree in
    its parent.  Within the parent's budget the subtree's task sleeps for the
    parent's back-off; beyond it, under [one_for_one], the task ends with the
    exception that brought the subtree down, [supervisor_gave_up] is reported
    under the subtree's name, the subtree leaves the parent's list, and
    neither exit nor down signals are sent. *)
Theorem give_up_escalates t sp c ctor now s ns nsup ch e sup :
  children s !! c = Some ch → ch_supervisor ch = Some ns →
  tasks s !! t = Some (Task (CodeChild sp c PcSupWait) (WEvent ns) false None) →
  sups s !! ns = Some nsup → s_given_up nsup = true → s_give_up_exc nsup = Some e →
  sups s !! sp = Some sup →
  match _allow_restart now sup with
  | (true, sup') =>
      step_child t ctor now s =
      (inr tt, s <| sups ::= <[sp := sup']> |>
                 <| tasks ::= <[t := Task (CodeChild sp c (PcBackoff (Crash e None None)))
                                          (WSleep (_backoff sup')) false None]> |>)
  | (false, sup') =>
      s_strategy sup = OneForOne →
      let s' := exec (step_child t ctor now) s in
      t_out <$> tasks s' !! t = Some (Some (OExn e)) ∧
      (∀ t', t' ≠ t → tasks s' !! t' = tasks s !! t') ∧
      children s' = children s ∧ jobs s' = jobs s ∧
      reported s' = reported s ++ user_reports (_event_listeners s)
                                    (EvSupervisorGaveUp (ch_name ch) (exn_detail e)) ∧
      sups s' = <[sp := lost_child sup' c e]> (sups s)
  end.
Proof.
  intros Hch Hns Ht Hnsup Hgu He Hs.
  assert (step_child t ctor now s =
    guard_task t (_handle_child_crash t sp c (ch_name ch) (Crash e None None) now) s) as Hstep.
  { rewrite (step_child_run _ _ _ s sp c PcSupWait (WEvent ns) WkOk) //; [by rewrite /= Hnsup Hgu|].
    unfold guard_task, run_child; simpl. by rewrite Hch /= Hns /= Hnsup /= He. }
  destruct (_allow_restart now sup) as [[] sup'] eqn:Ha.
  - rewrite Hstep /guard_task /=.
    by rewrite (handle_crash_granted _ _ _ _ _ _ _ sup sup' _ Hs Ha Ht).
  - intros Hst s'. unfold s', exec. rewrite Hstep /guard_task /=.
    rewrite (handle_crash_refused_one _ _ _ _ _ _ _ sup sup' _ Hs Hst Ha Ht) /=.
    rewrite lookup_insert_eq. split_and!; try done.
    + intros t' Hne. by rewrite lookup_insert_ne.
    + by rewrite /exit_jobs /down_jobs /= elements_empty map_to_list_empty /= app_nil_r.
Qed.

(** ** Stopping *)

Lemma cancel_waiting t d s tk dk :
  tasks s !! t = Some tk → t_out tk = None → t_wait tk = WTask d →
  tasks s !! d = Some dk → t_out dk = None → t_wait dk = WGet ∨ t_wait dk = WUser →
  cancel t s = (inr tt, s <| tasks ::= <[d := dk <| t_wait := WReady WkCancel |>]> |>).
Proof.
  intros Ht Ho Hw Hd Hdo Hdw. unfold cancel; simpl. rewrite Ht Ho /= Hw.
  destruct (size (tasks s)) as [|n] eqn:E.
  { apply map_size_empty_iff in E. by rewrite E lookup_empty in Ht. }
  simpl. rewrite Hd Hdo /=. destruct Hdw as [-> | ->]; rewrite /upd_task /= (alter_present _ _ _ _ Hd); by rewrite Hdo.
Qed.

(** A driver rests while its actor waits for mail ([cur] is [None]) or awaits
    something inside the handler of the message [cur]. *)
Definition rest_wait (cur : option message_meta) : wait :=
  match cur with None => WGet | Some _ => WUser end.

(** The handler, if one is running, does not swallow [CancelledError]. *)
Definition lets_through (cur : option message_meta) (h : handler_result) : Prop :=
  cur = None ∨ h = HCancelled.

Lemma rest_wait_cases cur : rest_wait cur = WGet ∨ rest_wait cur = WUser.
Proof. destruct cur; auto. Qed.

Lemma step_driver_cancelled d h s c cur mc :
  lets_through cur h → tasks s !! d = Some (Task (CodeDrive c cur) (WReady WkCancel) mc None) →
  step_driver d h s =
  (inr tt, s <| tasks ::= <[d := Task (CodeDrive c cur) (WReady WkCancel) false (Some OCancelled)]> |>
             <| _actor_tasks ::= λ l, l ∖ {[d]} |>).
Proof.
  intros Hh Hd. unfold step_driver, upd_task; simpl. rewrite Hd /= orb_true_r (alter_present _ _ _ _ Hd) /=.
  set (s1 := s <| tasks ::= <[d := Task (CodeDrive c cur) (WReady WkCancel) false None]> |>).
  assert (finish d OCancelled s1 =
    (inr tt, s <| tasks ::= <[d := Task (CodeDrive c cur) (WReady WkCancel) false (Some OCancelled)]> |>
               <| _actor_tasks ::= λ l, l ∖ {[d]} |>)) as Hf.
  { rewrite (finish_spec _ _ _ (Task (CodeDrive c cur) (WReady WkCancel) false None)) /=;
      [by rewrite lookup_insert_eq|]. by rewrite insert_insert_eq. }
  destruct cur as [meta|]; [|exact Hf]. destruct Hh as [?| ->]; [done|exact Hf].
Qed.

(** An actor at rest: its task [t] awaits its driver [d], which waits for mail
    or inside a handler. *)
Record idle (s : st) (sp c : nat) (t d : tid) (ch : child) (cur : option message_meta) : Prop := {
  idle_running : running s;
  idle_child : children s !! c = Some ch;
  idle_task : ch_task ch = Some t;
  idle_waits : tasks s !! t = Some (Task (CodeChild sp c PcAwaitDriver) (WTask d) false None);
  idle_driver : tasks s !! d = Some (Task (CodeDrive c cur) (rest_wait cur) false None)
}.

Lemma cancel_child_idle s sp c t d ch cur :
  idle s sp c t d ch cur →
  cancel_child c s = (inr tt, s <| tasks ::= <[d := Task (CodeDrive c cur) (WReady WkCancel) false None]> |>).
Proof.
  intros [Hrun Hch Htk Ht Hd]. unfold cancel_child; simpl. rewrite Hch /= Htk.
  rewrite (cancel_waiting _ d _ _ _ Ht _ _ Hd) //. apply rest_wait_cases.
Qed.

Lemma idle_ne s sp c t d ch cur : idle s sp c t d ch cur → t ≠ d.
Proof. intros [_ _ _ Ht Hd] ->. by rewrite Ht in Hd. Qed.

(** The node once the actor of [ch], asked to stop, has ended. *)
Definition stopped (sp c : nat) (t d : tid) (ch : child) (cur : option message_meta) (s : st) : st :=
  (ended (ch_name ch) s)
    <| jobs ::= λ js, js ++ exit_jobs (ch_name ch) (_links s !! ch_name ch) "shutdown"
                         ++ down_jobs (ch_name ch) (_monitor_watchers s !! ch_name ch) "shutdown" |>
    <| tasks ::= λ ts, <[t := Task (CodeChild sp c PcAwaitDriver) (WTask d) false (Some OCancelled)]>
                        (<[d := Task (CodeDrive c cur) (WReady WkCancel) false (Some OCancelled)]> ts) |>
    <| _actor_tasks ::= λ l, l ∖ {[d]} ∖ {[t]} |>.

(** The turn of the child's task that finds its driver cancelled. *)
Lemma step_child_stopped s sp c t d ch dk ctor now :
  running s → children s !! c = Some ch → ch_pending_exit ch = None →
  tasks s !! t = Some (Task (CodeChild sp c PcAwaitDriver) (WTask d) false None) →
  tasks s !! d = Some dk → t_out dk = Some OCancelled →
  step_child t ctor now s =
  (inr tt, (ended (ch_name ch) s)
    <| jobs ::= λ js, js ++ exit_jobs (ch_name ch) (_links s !! ch_name ch) "shutdown"
                         ++ down_jobs (ch_name ch) (_monitor_watchers s !! ch_name ch) "shutdown" |>
    <| tasks ::= <[t := Task (CodeChild sp c PcAwaitDriver) (WTask d) false (Some OCancelled)]> |>
    <| _actor_tasks ::= λ l, l ∖ {[t]} |>).
Proof.
  intros Hrun Hch Hp Ht Hd Ho.
  rewrite (step_child_run _ _ _ _ sp c PcAwaitDriver (WTask d) WkCancel) //; [by rewrite /= Hd /= Ho|].
  rewrite /guard_task /run_child /= Hch /= /actor_cancelled /= cleanup_generation_spec //=.
  rewrite Hch /= Hp /= notify_exit_spec /=.
  by rewrite (alter_present _ t _ (Task (CodeChild sp c PcAwaitDriver) (WTask d) false None) Ht).
Qed.

(** A turn of the driver and one of the task end an actor asked to stop. *)
Lemma stop_turns s sp c t d ch cur mc h ctor now :
  lets_through cur h → running s → children s !! c = Some ch → ch_pending_exit ch = None →
  tasks s !! t = Some (Task (CodeChild sp c PcAwaitDriver) (WTask d) false None) →
  tasks s !! d = Some (Task (CodeDrive c cur) (WReady WkCancel) mc None) →
  (step_driver d h ;; step_child t ctor now) s = (inr tt, stopped sp c t d ch cur s).
Proof.
  intros Hh Hrun Hch Hp Ht Hd. assert (t ≠ d) by congruence.
  cbn [bind]. rewrite (step_driver_cancelled _ _ _ c cur mc) //=.
  rewrite (step_child_stopped _ sp c t d ch
    (Task (CodeDrive c cur) (WReady WkCancel) false (Some OCancelled))) //=.
  - by rewrite lookup_insert_ne.
  - by rewrite lookup_insert_eq.
Qed.

(** (C7) Stopping an actor that waits for mail, or inside a handler that lets
    [CancelledError] through.  Cancelling the child's task, and then one
    turn of its driver and one of the task, ends both; the name and everything
    else of the generation is taken back, the links and monitors are told
    ["shutdown"], no restart is charged to the budget and no other task or
    mailbox is touched. *)
Theorem cancel_stops_actor s sp c t d ch cur h ctor now :
  idle s sp c t d ch cur → lets_through cur h → ch_pending_exit ch = None →
  let name := ch_name ch in
  let r := (cancel_child c ;; step_driver d h ;; step_child t ctor now) s in
  r.1 = inr tt ∧ t_out <$> tasks r.2 !! t = Some (Some OCancelled) ∧
  t_out <$> tasks r.2 !! d = Some (Some OCancelled) ∧
  (∀ t', t' ≠ t → t' ≠ d → tasks r.2 !! t' = tasks s !! t') ∧
  _mailboxes r.2 = delete name (_mailboxes s) ∧
  _live_children r.2 = delete name (_live_children s) ∧
  queues r.2 = queues s ∧ sups r.2 = sups s ∧ children r.2 = children s ∧
  jobs r.2 = jobs (ended name s) ++ exit_jobs name (_links s !! name) "shutdown"
                                 ++ down_jobs name (_monitor_watchers s !! name) "shutdown".
Proof.
  intros Hi Hh Hp name r. pose proof (idle_ne _ _ _ _ _ _ _ Hi) as Hne.
  set (s1 := s <| tasks ::= <[d := Task (CodeDrive c cur) (WReady WkCancel) false None]> |>).
  assert (r = (inr tt, stopped sp c t d ch cur s1)) as ->.
  { rewrite -(stop_turns s1 sp c t d ch cur false h ctor now).
    - done.
    - apply Hi.
    - apply Hi.
    - done.
    - rewrite /s1 /= lookup_insert_ne //. apply Hi.
    - by rewrite /s1 /= lookup_insert_eq.
    - unfold r. cbn [bind]. by rewrite (cancel_child_idle _ sp c t d ch cur Hi). }
  simpl. rewrite lookup_insert_eq (lookup_insert_ne _ t d) // lookup_insert_eq.
  split_and!; try done. intros t' H1 H2. by rewrite !lookup_insert_ne.
Qed.

(** ** Spawning *)

Definition already_taken (name : string) : exn :=
  ValueError ("actor name " +:+ py_repr name +:+ " is already registered on this node").

(** The node after an actor was spawned under a free name. *)
Definition spawned (sp : sid) (cls : string) (meta : actor_meta) (s : st) : st :=
  let N := next_id s in
  let name := actor_name meta in
  s <| queues ::= <[N := Queue [] (capacity_or_0 (mailbox_capacity s))]> |>
    <| _mailboxes ::= <[name := N]> |>
    <| _core ::= fmap (λ co, co <| co_routing ::= union {[name]} |>) |>
    <| children ::= <[S N := Child name (ActorChild cls meta N) None None None (Some (S (S N)))]> |>
    <| sups ::= alter (λ sup, sup <| s_children ::= λ l, l ++ [S N] |>) sp |>
    <| tasks ::= <[S (S N) := Task (CodeChild sp (S N) PcStart) (WReady WkOk) false None]> |>
    <| _actor_tasks ::= union {[S (S N)]} |>
    <| next_id := S (S (S N)) |>.

Lemma spawn_free sp cls meta s :
  running s → _mailboxes s !! actor_name meta = None →
  spawn sp cls meta s = (inr (S (next_id s)), spawned sp cls meta s).
Proof.
  intros Hrun Hm. unfold spawn. cbn [bind get alloc modify].
  rewrite register_actor_ok; [exact Hrun|by left|]. unfold create_task, upd_child, upd_sup, _register_task; simpl.
  by rewrite (alter_present _ _ _ _ (lookup_insert_eq _ _ _)) insert_insert_eq.
Qed.

Lemma spawn_taken sp cls meta s q :
  running s → _mailboxes s !! actor_name meta = Some q → q ≠ next_id s →
  spawn sp cls meta s =
  (inl (already_taken (actor_name meta)),
   s <| queues ::= <[next_id s := Queue [] (capacity_or_0 (mailbox_capacity s))]> |> <| next_id ::= S |>).
Proof.
  intros (co & Hco & _) Hm Hne. unfold spawn, register_actor. cbn [bind get alloc modify].
  simpl. by rewrite Hco Hm bool_decide_eq_true_2.
Qed.

End generation.
