(* ===== verification/SupervisorGroup.v ===== *)
(** * Stopping and restarting a group of actors

    [Supervisor.shutdown] and the group restart of [one_for_all] and
    [rest_for_one], followed from the request to the end, over the turns that
    the event loop gives to the tasks involved. *)

From S2P Require Import Prelude Values NodeId Actors State PeerEvents Asyncio Node NodeProps.
From S2P Require Import Links Supervisor SupervisorProps.

Section group.
Context {codec : PayloadCodec}.

(** An actor child with its record, its task, its driver and the message it is
    handling. *)
Record member_task := MemberTask { m_c : cid; m_t : tid; m_d : tid; m_ch : child; m_cur : option message_meta }.

Definition m_name (a : member_task) : string := ch_name (m_ch a).
Definition m_tids (gs : list member_task) : list tid := gs ≫= λ a, [m_t a; m_d a].

(** The actors [gs] of supervisor [sp], all at rest. *)
Record idle_group (sp : sid) (gs : list member_task) (s : st) : Prop := {
  ig_idle : ∀ a, a ∈ gs → idle s sp (m_c a) (m_t a) (m_d a) (m_ch a) (m_cur a);
  ig_pending : ∀ a, a ∈ gs → ch_pending_exit (m_ch a) = None;
  ig_tids : NoDup (m_tids gs)
}.

Definition await_driver (sp : sid) (a : member_task) (o : option outcome) : task :=
  Task (CodeChild sp (m_c a) PcAwaitDriver) (WTask (m_d a)) false o.
Definition drive_asked (a : member_task) (o : option outcome) : task :=
  Task (CodeDrive (m_c a) (m_cur a)) (WReady WkCancel) false o.

(** How far an actor that was asked to stop has come; [needs] are the turns it
    still needs, in order. *)
Inductive phase := Asked | DriverEnded | Gone.

Definition in_phase (sp : sid) (s : st) (a : member_task) (p : phase) : Prop :=
  match p with
  | Asked => tasks s !! m_t a = Some (await_driver sp a None) ∧
             tasks s !! m_d a = Some (drive_asked a None)
  | DriverEnded => tasks s !! m_t a = Some (await_driver sp a None) ∧
                   tasks s !! m_d a = Some (drive_asked a (Some OCancelled))
  | Gone => tasks s !! m_t a = Some (await_driver sp a (Some OCancelled)) ∧
            tasks s !! m_d a = Some (drive_asked a (Some OCancelled)) ∧
            _mailboxes s !! m_name a = None ∧ _live_children s !! m_name a = None
  end.

Definition needs (a : member_task) (p : phase) : list tid :=
  match p with Asked => [m_d a; m_t a] | DriverEnded => [m_t a] | Gone => [] end.

(** One turn of the loop for task [tu_task]. *)
Record turn := Turn { tu_task : tid; tu_handler : handler_result; tu_ctor : option exn; tu_now : Z }.

(** A turn of the group's tasks in which no handler swallows the cancellation. *)
Definition fair_turn (gs : list member_task) (u : turn) : Prop :=
  tu_task u ∈ m_tids gs ∧ ∀ a, a ∈ gs → tu_task u = m_d a → lets_through (m_cur a) (tu_handler u).

Definition run_turn (u : turn) : M st unit :=
  step_driver (tu_task u) (tu_handler u) ;; step_child (tu_task u) (tu_ctor u) (tu_now u).

(** What stopping actors leaves alone, apart from the tasks [ts] and the names
    [ns]. *)
Record stop_frame (ts : list tid) (ns : list string) (s s' : st) : Prop := {
  sf_children : children s' = children s;
  sf_sups : sups s' = sups s;
  sf_queues : queues s' = queues s;
  sf_next : next_id s' = next_id s;
  sf_reported : reported s' = reported s;
  sf_tasks : ∀ t, t ∉ ts → tasks s' !! t = tasks s !! t;
  sf_mailboxes : ∀ n, n ∉ ns → _mailboxes s' !! n = _mailboxes s !! n;
  sf_dropped : ∀ n, _mailboxes s !! n = None → _mailboxes s' !! n = None;
  sf_live : ∀ n, _live_children s !! n = None → _live_children s' !! n = None;
  sf_running : running s → running s';
  sf_jobs : ∃ js, jobs s' = jobs s ++ js
}.

Abbreviation group_frame gs := (stop_frame (m_tids gs) (fmap m_name gs%list)).

#[export] Instance stop_frame_preorder ts ns : PreOrder (stop_frame ts ns).
Proof.
  split.
  - intros s. split; try done. exists []. by rewrite app_nil_r.
  - intros s1 s2 s3 [A1 A2 A3 A4 A5 A6 A7 A8 A9 A10 [j1 A11]] [B1 B2 B3 B4 B5 B6 B7 B8 B9 B10 [j2 B11]].
    split; try congruence; eauto.
    + intros t Ht. rewrite B6 //. by apply A6.
    + intros n Hn. rewrite B7 //. by apply A7.
    + exists (j1 ++ j2). by rewrite B11 A11 app_assoc.
Qed.

(** ** One turn *)

Lemma elem_of_m_tids gs t : t ∈ m_tids gs ↔ ∃ a, a ∈ gs ∧ (t = m_t a ∨ t = m_d a).
Proof.
  unfold m_tids. rewrite list_elem_of_bind. split.
  - intros (a & Ht & Ha). exists a. set_solver.
  - intros (a & Ha & Ht). exists a. set_solver.
Qed.

Lemma m_tids_inj gs a b t :
  NoDup (m_tids gs) → a ∈ gs → b ∈ gs →
  t = m_t a ∨ t = m_d a → t = m_t b ∨ t = m_d b → a = b.
Proof.
  induction gs as [|x gs IH]; intros Hnd Ha Hb Hta Htb; [by apply elem_of_nil in Ha|].
  unfold m_tids in Hnd; simpl in Hnd. fold (m_tids gs) in Hnd.
  apply list.NoDup_cons in Hnd as (H1 & (H2 & Hnd)%list.NoDup_cons).
  assert (∀ y, y ∈ gs → t = m_t y ∨ t = m_d y → t ≠ m_t x ∧ t ≠ m_d x) as Hx.
  { intros y Hy Hty. assert (t ∈ m_tids gs) by (apply elem_of_m_tids; eauto). set_solver. }
  apply elem_of_cons in Ha, Hb.
  destruct Ha as [->|Ha], Hb as [->|Hb]; [done|..].
  - destruct (Hx b Hb Htb); naive_solver.
  - destruct (Hx a Ha Hta); naive_solver.
  - by apply IH.
Qed.

Lemma m_tids_ne gs a : NoDup (m_tids gs) → a ∈ gs → m_t a ≠ m_d a.
Proof.
  induction gs as [|x gs IH]; intros Hnd Ha; [by apply elem_of_nil in Ha|].
  unfold m_tids in Hnd; simpl in Hnd. fold (m_tids gs) in Hnd.
  apply list.NoDup_cons in Hnd as (H1 & (H2 & Hnd)%list.NoDup_cons).
  apply elem_of_cons in Ha as [->|Ha]; [set_solver|by apply IH].
Qed.

Lemma step_driver_none t h s tk :
  tasks s !! t = Some tk → is_Some (t_out tk) ∨ (∃ sp c p, t_code tk = CodeChild sp c p) →
  step_driver t h s = (inr tt, s).
Proof.
  intros Ht H. unfold step_driver; simpl. rewrite Ht.
  destruct H as [(o & ->)|(sp & c & p & ->)]; [done|]. by destruct (t_out tk).
Qed.

Lemma step_child_none t ctor now s tk :
  tasks s !! t = Some tk →
  is_Some (t_out tk) ∨ (∃ c cur, t_code tk = CodeDrive c cur) ∨ pending_wake s (t_wait tk) = None →
  step_child t ctor now s = (inr tt, s).
Proof.
  intros Ht H. unfold step_child; simpl. rewrite Ht.
  destruct H as [(o & ->)|[(c & cur & ->)| ->]]; [done|by destruct (t_out tk)|].
  destruct (t_out tk); [done|]. by destruct (t_code tk).
Qed.

Lemma turn_driver gs a u s sp :
  a ∈ gs → in_phase sp s a Asked → tu_task u = m_d a → lets_through (m_cur a) (tu_handler u) →
  ∃ s', run_turn u s = (inr tt, s') ∧ group_frame gs s s' ∧
        tasks s' = <[m_d a := drive_asked a (Some OCancelled)]> (tasks s) ∧
        _mailboxes s' = _mailboxes s ∧ _live_children s' = _live_children s.
Proof.
  intros Ha [Ht Hd] Hu Hh. unfold run_turn. cbn [bind]. rewrite Hu.
  rewrite (step_driver_cancelled _ _ _ (m_c a) (m_cur a) false) //.
  rewrite (step_child_none _ _ _ _ (drive_asked a (Some OCancelled))); [by rewrite /= lookup_insert_eq|by left|].
  eexists. split; [done|]. split_and!; try done. split; try done; simpl.
  - intros t Hnt. rewrite lookup_insert_ne //. intros <-. apply Hnt, elem_of_m_tids. eauto.
  - exists []. by rewrite app_nil_r.
Qed.

Lemma turn_task gs a u s sp :
  a ∈ gs → running s → children s !! m_c a = Some (m_ch a) → ch_pending_exit (m_ch a) = None →
  in_phase sp s a DriverEnded → tu_task u = m_t a →
  ∃ s', run_turn u s = (inr tt, s') ∧ group_frame gs s s' ∧
        tasks s' = <[m_t a := await_driver sp a (Some OCancelled)]> (tasks s) ∧
        _mailboxes s' = delete (m_name a) (_mailboxes s) ∧
        _live_children s' = delete (m_name a) (_live_children s).
Proof.
  intros Ha Hrun Hch Hp [Ht Hd] Hu. unfold run_turn. cbn [bind]. rewrite Hu.
  rewrite (step_driver_none _ _ _ _ Ht); [right; by do 3 eexists|].
  rewrite (step_child_stopped s sp (m_c a) (m_t a) (m_d a) (m_ch a) _ _ _ Hrun Hch Hp Ht Hd) //.
  eexists. split; [done|]. split_and!; try done. split; try done; simpl.
  - intros t Hnt. rewrite lookup_insert_ne //. intros <-. apply Hnt, elem_of_m_tids. eauto.
  - intros n Hn. rewrite lookup_delete_ne //. intros <-. apply Hn, list_elem_of_fmap. by exists a.
  - intros n Hn. rewrite lookup_delete. by case_decide.
  - intros n Hn. rewrite lookup_delete. by case_decide.
  - intros (co & Hco & Hr). eexists. rewrite /= Hco. by split.
  - rewrite -!app_assoc. eauto.
Qed.

(** ** Any schedule *)

(** The group while it is being stopped. *)
Record stopping (sp : sid) (gs : list member_task) (s : st) : Prop := {
  sg_running : running s;
  sg_child : ∀ a, a ∈ gs → children s !! m_c a = Some (m_ch a);
  sg_pending : ∀ a, a ∈ gs → ch_pending_exit (m_ch a) = None;
  sg_tids : NoDup (m_tids gs)
}.

Lemma stopping_frame sp gs s s' : stopping sp gs s → group_frame gs s s' → stopping sp gs s'.
Proof.
  intros [Hr Hc Hp Hn] Hf. split; try done; [by apply Hf|]. intros a Ha. rewrite (sf_children _ _ _ _ Hf). auto.
Qed.

(** A phase survives changes of other tasks. *)
Lemma in_phase_other sp gs s s' a p t v :
  group_frame gs s s' → tasks s' = <[t := v]> (tasks s) → t ≠ m_t a → t ≠ m_d a →
  in_phase sp s a p → in_phase sp s' a p.
Proof.
  intros Hf Ht H1 H2. destruct p; simpl; rewrite Ht !lookup_insert_ne //.
  intros (? & ? & Hm & Hl). split_and!; try done; by apply Hf.
Qed.

(** The turns [l] still needed, after a turn of [t]. *)
Definition after_turn (t : tid) (l : list tid) : list tid :=
  match l with
  | x :: rest => if bool_decide (x = t) then rest else l
  | [] => []
  end.

Definition turn_effect (sp : sid) (gs : list member_task) (u : turn) (s : st) (ph : member_task → phase) : Prop :=
  ∃ s' ph', run_turn u s = (inr tt, s') ∧ group_frame gs s s' ∧
    ∀ a, a ∈ gs → in_phase sp s' a (ph' a) ∧ needs a (ph' a) = after_turn (tu_task u) (needs a (ph a)).

Lemma needs_other gs u a b p :
  NoDup (m_tids gs) → a ∈ gs → b ∈ gs → tu_task u = m_t a ∨ tu_task u = m_d a → m_t b ≠ m_t a →
  tu_task u ≠ m_t b ∧ tu_task u ≠ m_d b ∧ needs b p = after_turn (tu_task u) (needs b p).
Proof.
  intros Hnd Ha Hb Hu Hba.
  assert (tu_task u ≠ m_t b ∧ tu_task u ≠ m_d b) as [H1 H2].
  { split; intros E; apply Hba; f_equal; apply (m_tids_inj gs b a (tu_task u)); auto. }
  split_and!; [done..|]. destruct p; simpl; [| |done]; by rewrite bool_decide_eq_false_2.
Qed.

(** A turn that the actor [a] was waiting for. *)
Lemma turn_moves sp gs u s ph a s' p' v :
  NoDup (m_tids gs) → (∀ b, b ∈ gs → in_phase sp s b (ph b)) →
  a ∈ gs → tu_task u = m_t a ∨ tu_task u = m_d a →
  run_turn u s = (inr tt, s') → group_frame gs s s' → tasks s' = <[tu_task u := v]> (tasks s) →
  in_phase sp s' a p' → needs a (ph a) = tu_task u :: needs a p' → turn_effect sp gs u s ph.
Proof.
  intros Hnd Hph Ha Hu Hr Hf Ht Hp' Hn.
  exists s', (λ b, if bool_decide (m_t b = m_t a) then p' else ph b). split_and!; [done..|].
  intros b Hb. case_bool_decide as Hba.
  - assert (b = a) as -> by (apply (m_tids_inj gs b a (m_t b)); auto).
    split; [done|]. by rewrite Hn /= bool_decide_eq_true_2.
  - destruct (needs_other gs u a b (ph b)) as (H1 & H2 & Hnb); try done. split; [|done].
    by apply (in_phase_other sp gs s s' b _ (tu_task u) v); auto.
Qed.

(** A turn that it was not waiting for. *)
Lemma turn_stays sp gs u s ph a :
  NoDup (m_tids gs) → (∀ b, b ∈ gs → in_phase sp s b (ph b)) →
  a ∈ gs → tu_task u = m_t a ∨ tu_task u = m_d a →
  step_driver (tu_task u) (tu_handler u) s = (inr tt, s) →
  step_child (tu_task u) (tu_ctor u) (tu_now u) s = (inr tt, s) →
  needs a (ph a) = after_turn (tu_task u) (needs a (ph a)) → turn_effect sp gs u s ph.
Proof.
  intros Hnd Hph Ha Hu H1 H2 Hn. exists s, ph. split_and!; [|done|].
  { unfold run_turn. cbn [bind]. by rewrite H1. }
  intros b Hb. split; [auto|]. destruct (decide (m_t b = m_t a)) as [E|Hne].
  - assert (b = a) as -> by (apply (m_tids_inj gs b a (m_t b)); auto). done.
  - by apply (needs_other gs u a b (ph b)).
Qed.

(** A turn of a task of the group moves exactly the actor that was waiting for
    it, and does nothing when nobody was. *)
Lemma run_turn_progress sp gs u s ph :
  stopping sp gs s → (∀ a, a ∈ gs → in_phase sp s a (ph a)) → fair_turn gs u →
  turn_effect sp gs u s ph.
Proof.
  intros Hs Hph [(a & Ha & Hu)%elem_of_m_tids Hh]. pose proof (sg_tids _ _ _ Hs) as Hnd.
  pose proof (m_tids_ne gs a Hnd Ha) as Hne. pose proof (Hph a Ha) as Hpa.
  destruct Hu as [Hu|Hu], (ph a) eqn:Ep.
  - destruct Hpa as [Ht Hd]. eapply (turn_stays _ _ _ _ _ a); auto; rewrite Hu ?Ep /=.
    + apply (step_driver_none _ _ _ _ Ht). right. by do 3 eexists.
    + apply (step_child_none _ _ _ _ _ Ht). right; right. by rewrite /= Hd.
    + by rewrite bool_decide_eq_false_2.
  - destruct (turn_task gs a u s sp) as (s' & Hr & Hf & Ht & Hm & Hl); try done;
      [apply Hs|by apply Hs|by eapply sg_pending|]. rewrite -Hu in Ht.
    eapply (turn_moves _ _ _ _ _ a s' Gone); eauto; [|by rewrite Ep Hu].
    destruct Hpa as [_ Hd]. rewrite /= Ht Hu lookup_insert_eq lookup_insert_ne // Hd Hm Hl.
    by rewrite !lookup_delete_eq.
  - destruct Hpa as (Ht & Hd & _). eapply (turn_stays _ _ _ _ _ a); auto; rewrite Hu ?Ep //.
    + apply (step_driver_none _ _ _ _ Ht). by left.
    + apply (step_child_none _ _ _ _ _ Ht). by left.
  - destruct (turn_driver gs a u s sp) as (s' & Hr & Hf & Ht & Hm & Hl); auto. rewrite -Hu in Ht.
    eapply (turn_moves _ _ _ _ _ a s' DriverEnded); eauto; [|by rewrite Ep Hu].
    destruct Hpa as [Ht0 _]. by rewrite /= Ht Hu lookup_insert_eq lookup_insert_ne // Ht0.
  - destruct Hpa as [_ Hd]. eapply (turn_stays _ _ _ _ _ a); auto; rewrite Hu ?Ep /=.
    + apply (step_driver_none _ _ _ _ Hd). by left.
    + apply (step_child_none _ _ _ _ _ Hd). by left.
    + by rewrite bool_decide_eq_false_2.
  - destruct Hpa as (_ & Hd & _). eapply (turn_stays _ _ _ _ _ a); auto; rewrite Hu ?Ep //.
    + apply (step_driver_none _ _ _ _ Hd). by left.
    + apply (step_child_none _ _ _ _ _ Hd). by left.
Qed.

Lemma after_turn_sublist t l us :
  l `sublist_of` (t :: us) → after_turn t l `sublist_of` us.
Proof.
  intros [H|(l' & -> & H)]%sublist_cons_r.
  - etrans; [|exact H]. destruct l as [|x l]; simpl; [done|]. case_bool_decide; [by apply sublist_cons|done].
  - simpl. by rewrite bool_decide_eq_true_2.
Qed.

Lemma needs_nil a p : needs a p `sublist_of` [] → p = Gone.
Proof. destruct p; simpl; [| |done]; intros H; by apply sublist_nil_r in H. Qed.

(** A schedule that gives every actor the turns it needs, in whatever order and
    with whatever else in between, ends the whole group. *)
Lemma schedule_stops sp gs us : ∀ s ph,
  stopping sp gs s → (∀ a, a ∈ gs → in_phase sp s a (ph a)) →
  Forall (fair_turn gs) us →
  (∀ a, a ∈ gs → needs a (ph a) `sublist_of` (tu_task <$> us)) →
  ∃ s', for_each us run_turn s = (inr tt, s') ∧ group_frame gs s s' ∧
        ∀ a, a ∈ gs → in_phase sp s' a Gone.
Proof.
  induction us as [|u us IH]; intros s ph Hs Hph Hin Hn.
  { exists s. split_and!; [done..|]. intros a Ha. rewrite -(needs_nil a (ph a)); auto. }
  apply list.Forall_cons in Hin as [Hu Hin].
  destruct (run_turn_progress sp gs u s ph Hs Hph Hu) as (s1 & ph1 & Hr & Hf & Hph1).
  destruct (IH s1 ph1) as (s2 & Hr2 & Hf2 & Hg).
  - by eapply stopping_frame.
  - intros a Ha. by apply Hph1.
  - done.
  - intros a Ha. destruct (Hph1 a Ha) as [_ ->]. by apply after_turn_sublist, Hn.
  - exists s2. split_and!; [by rewrite /= Hr|by etrans|done].
Qed.

(** ** Asking a group to stop *)

Lemma cancel_all_asks sp l : ∀ s,
  NoDup (m_tids l) →
  (∀ a, a ∈ l → tasks s !! m_t a = Some (await_driver sp a None) ∧
                tasks s !! m_d a = Some (Task (CodeDrive (m_c a) (m_cur a)) (rest_wait (m_cur a)) false None)) →
  ∃ s', for_each (m_t <$> l) cancel s = (inr tt, s') ∧ same_but_tasks s s' ∧
        (∀ a, a ∈ l → in_phase sp s' a Asked) ∧
        ∀ t, t ∉ m_tids l → tasks s' !! t = tasks s !! t.
Proof.
  induction l as [|a l IH]; intros s Hnd Hl.
  { exists s. split_and!; try done. by intros a ?%elem_of_nil. }
  unfold m_tids in Hnd; simpl in Hnd. fold (m_tids l) in Hnd.
  apply list.NoDup_cons in Hnd as (H1 & (H2 & Hnd)%list.NoDup_cons).
  destruct (Hl a) as [Ht Hd]; [by left|].
  set (s1 := s <| tasks ::= <[m_d a := drive_asked a None]> |>).
  assert (cancel (m_t a) s = (inr tt, s1)) as Hc.
  { rewrite (cancel_waiting _ (m_d a) _ _ _ Ht _ _ Hd) //. apply rest_wait_cases. }
  assert (m_t a ≠ m_d a) as Hne by set_solver.
  destruct (IH s1 Hnd) as (s' & Hr & Hsame & Hph & Hoth).
  { intros b Hb. assert (m_t b ∈ m_tids l ∧ m_d b ∈ m_tids l) as [Hbt Hbd].
    { split; apply elem_of_m_tids; eauto. }
    unfold s1; simpl. rewrite !lookup_insert_ne; [set_solver..|]. apply Hl. by right. }
  exists s'. split_and!.
  - rewrite fmap_cons. cbn [for_each bind]. by rewrite Hc.
  - etrans; [|exact Hsame]. done.
  - intros b [->|Hb]%elem_of_cons; [|auto].
    simpl. rewrite !Hoth; [set_solver..|]. rewrite /s1 /= lookup_insert_eq lookup_insert_ne //.
  - intros t Ht'. rewrite Hoth; [unfold m_tids in Ht'; simpl in Ht'; set_solver|].
    rewrite /s1 /= lookup_insert_ne //. unfold m_tids in Ht'; simpl in Ht'. set_solver.
Qed.

Lemma same_tasks_stop ts ns s s' :
  same_but_tasks s s' → (∀ t, t ∉ ts → tasks s' !! t = tasks s !! t) → stop_frame ts ns s s'.
Proof.
  intros Hsame Ht. assert (∀ {A} (f : st → A), (∀ x, f (x <| tasks := ∅ |>) = f x) → f s' = f s) as Hf.
  { intros A f Hx. by rewrite -(Hx s) -(Hx s') Hsame. }
  split; try by apply Hf.
  - done.
  - intros n _. by rewrite (Hf _ _mailboxes).
  - intros n. by rewrite (Hf _ _mailboxes).
  - intros n. by rewrite (Hf _ _live_children).
  - unfold running. by rewrite (Hf _ _core).
  - exists []. by rewrite app_nil_r (Hf _ jobs).
Qed.

Lemma same_tasks_frame sp gs s s' :
  same_but_tasks s s' → (∀ t, t ∉ m_tids gs → tasks s' !! t = tasks s !! t) →
  idle_group sp gs s → running s → group_frame gs s s' ∧ stopping sp gs s'.
Proof.
  intros Hsame Ht [Hi Hp Hn] Hrun. assert (group_frame gs s s') as Hframe by (by apply same_tasks_stop).
  split; [done|]. eapply stopping_frame; [|exact Hframe]. split; try done.
  intros a Ha. apply (Hi a Ha).
Qed.

Lemma tasks_of_group sp gs s :
  idle_group sp gs s → tasks_of s (m_c <$> gs) = m_t <$> gs.
Proof.
  intros [Hi _ _]. unfold tasks_of. induction gs as [|a gs IH]; [done|].
  rewrite !fmap_cons bind_cons IH; [intros b Hb; apply Hi; by right|].
  destruct (Hi a) as [_ Hch Ht _ _]; [by left|]. by rewrite Hch /= Ht.
Qed.

(** Shutting a supervisor down ends.  Let the children of a supervisor
    be actors that wait for mail or inside handlers that let [CancelledError]
    through.  After [shutdown()], whatever the order in which the event
    loop gives the tasks of the group their turns, as long as every driver
    gets one and the child's task one after it, all of them have ended by
    cancellation and [shutdown()] returns: every name is free again and no
    longer live, and nothing was restarted, charged to the budget or reported,
    no mailbox lost a message, and no other task or name was touched. *)
Theorem shutdown_completes sp gs sup s us :
  running s → idle_group sp gs s → sups s !! sp = Some sup → s_children sup = m_c <$> gs →
  Forall (fair_turn gs) us →
  (∀ a, a ∈ gs → [m_d a; m_t a] `sublist_of` (tu_task <$> us)) →
  let s' := exec (shutdown sp ;; for_each us run_turn) s in
  forallb (task_done s') (tasks_of s (s_children sup)) = true ∧
  (∀ a, a ∈ gs → t_out <$> tasks s' !! m_t a = Some (Some OCancelled) ∧
                 _mailboxes s' !! m_name a = None ∧ _live_children s' !! m_name a = None) ∧
  group_frame gs s s'.
Proof.
  intros Hrun Hg Hsup Hcs Hin Hus s'.
  destruct (cancel_all_asks sp gs s) as (s1 & Hc & Hsame & Hph & Hoth).
  { apply Hg. }
  { intros a Ha. split; apply (ig_idle _ _ _ Hg a Ha). }
  destruct (same_tasks_frame sp gs s s1 Hsame Hoth Hg Hrun) as [Hf1 Hs1].
  destruct (schedule_stops sp gs us s1 (λ _, Asked)) as (s2 & Hr & Hf2 & Hgone); try done.
  assert (tasks_of s (s_children sup) = m_t <$> gs) as Hts by (rewrite Hcs; by eapply tasks_of_group).
  assert (s' = s2) as ->.
  { unfold s', shutdown, _shutdown_except. cbn [exec bind get]. rewrite Hsup.
    rewrite filter_every; [done|]. cbn [bind]. by rewrite Hts Hc /= Hr. }
  split_and!.
  - rewrite Hts. apply Is_true_eq_true, forallb_True, list.Forall_forall. intros t (a & -> & Ha)%list_elem_of_fmap.
    destruct (Hgone a Ha) as [Ht _]. rewrite /task_done Ht. done.
  - intros a Ha. destruct (Hgone a Ha) as (Ht & _ & Hm & Hl). by rewrite Ht.
  - by etrans.
Qed.

(** ** Restarting a group *)

Lemma list_subseteq_app_mid {A} (l1 l2 l3 : list A) : l2 ⊆ l1 ++ l2 ++ l3.
Proof. set_solver. Qed.
Lemma list_subseteq_insert {A} (l1 l2 l3 : list A) : l1 ++ l3 ⊆ l1 ++ l2 ++ l3.
Proof. set_solver. Qed.

(** What respawning children and starting generations does not touch, apart
    from names and the live table. *)
Definition quiet_view (s : st) := (queues s, sups s, jobs s, reported s, _links s, _groups s, _registry s).

(** The record of a swept child once it has its new task. *)
Definition respawned (a : member_task) (t : tid) : child :=
  (m_ch a) <| ch_driver := None |> <| ch_task := Some t |>.

Lemma respawn_all sp l : ∀ s,
  NoDup (m_c <$> l) → (∀ a, a ∈ l → children s !! m_c a = Some (m_ch a) ∧ is_actor (m_ch a)) →
  ∃ s', for_each (m_c <$> l) (_respawn_child sp) s = (inr tt, s') ∧
    next_id s' = next_id s + length l ∧ quiet_view s' = quiet_view s ∧
    _mailboxes s' = _mailboxes s ∧ _live_children s' = _live_children s ∧ _core s' = _core s ∧
    (∀ c, c ∉ m_c <$> l → children s' !! c = children s !! c) ∧
    (∀ t, t < next_id s → tasks s' !! t = tasks s !! t) ∧
    (∀ i a, l !! i = Some a →
       children s' !! m_c a = Some (respawned a (next_id s + i)) ∧
       tasks s' !! (next_id s + i) = Some (Task (CodeChild sp (m_c a) PcStart) (WReady WkOk) false None)).
Proof.
  induction l as [|a l IH]; intros s Hnd Hl.
  { exists s. rewrite Nat.add_0_r. by split_and!. }
  rewrite fmap_cons in Hnd. apply list.NoDup_cons in Hnd as [Ha Hnd].
  destruct (Hl a ltac:(by left)) as [Hch (cls & meta & q & Hk)].
  set (s1 := s <| children ::= <[m_c a := respawned a (next_id s)]> |>
               <| tasks ::= <[next_id s := Task (CodeChild sp (m_c a) PcStart) (WReady WkOk) false None]> |>
               <| next_id ::= S |> <| _actor_tasks ::= union {[next_id s]} |>).
  assert (_respawn_child sp (m_c a) s = (inr tt, s1)) as Hr.
  { unfold _respawn_child; simpl. rewrite Hch Hk /create_task /upd_child /=.
    rewrite (alter_present _ _ _ _ Hch) (alter_present _ _ _ ((m_ch a) <| ch_driver := None |>)).
    - by rewrite lookup_insert_eq.
    - by rewrite insert_insert_eq. }
  destruct (IH s1 Hnd) as (s' & Hr' & Hn & Hq & Hm & Hlc & Hco & Hc & Ht & Hnew).
  { intros b Hb. unfold s1; simpl. rewrite lookup_insert_ne; [|apply Hl; by right].
    intros E. apply Ha, list_elem_of_fmap. eauto. }
  exists s'. split_and!.
  - rewrite fmap_cons. cbn [for_each bind]. by rewrite Hr.
  - rewrite Hn /=. lia.
  - by rewrite Hq.
  - by rewrite Hm.
  - by rewrite Hlc.
  - by rewrite Hco.
  - intros c Hcn. rewrite fmap_cons in Hcn. rewrite Hc; [set_solver|]. rewrite /s1 /= lookup_insert_ne //. set_solver.
  - intros t Hlt. rewrite Ht /=; [lia|]. rewrite lookup_insert_ne //. lia.
  - intros [|i] b Hi; simpl in Hi.
    + injection Hi as <-. rewrite Nat.add_0_r Ht /=; [lia|]. rewrite Hc // lookup_insert_eq. by rewrite lookup_insert_eq.
    + destruct (Hnew i b Hi) as [H1 H2]. simpl in H1, H2. rewrite -Nat.add_succ_comm. done.
Qed.

(** The crashed child [c], whose task [t] restarts the group. *)
Section restart.
Context (t : tid) (sp : sid) (c : cid) (k : crash) (sibs : list cid).

(** The turns that end swept child [a] and let [t] go on. *)
Definition swept_turns (h : handler_result) (ctor : option exn) (now : Z) (a : member_task) : M st unit :=
  step_driver (m_d a) h ;; step_child (m_t a) ctor now ;; step_child t None now.

Lemma stop_frame_weaken ts ns ts' ns' s s' :
  stop_frame ts ns s s' → ts ⊆ ts' → ns ⊆ ns' → stop_frame ts' ns' s s'.
Proof. intros [] Hts Hns. split; auto. Qed.

(** [t] asks the next sibling to stop and waits for it. *)
Lemma teardown_asks a rest s cd w now :
  idle s sp (m_c a) (m_t a) (m_d a) (m_ch a) (m_cur a) → t ≠ m_t a → t ≠ m_d a →
  tasks s !! t = Some (Task cd w false None) →
  restart_group t sp c k sibs (m_c a :: rest) None now s =
  (inr tt, s <| tasks ::= λ ts, <[t := Task (CodeChild sp c (PcTeardown k sibs rest)) (WTask (m_t a)) false None]>
                               (<[m_d a := drive_asked a None]> ts) |>).
Proof.
  intros [Hrun Hch Htk Ht Hd] H1 H2 Htt. unfold restart_group. cbn [teardown bind get].
  assert (children s !! m_c a ≫= ch_task = Some (m_t a)) as -> by (by rewrite Hch /= Htk).
  assert (task_done s (m_t a) = false) as -> by (by rewrite /task_done Ht).
  cbn [bind]. rewrite (cancel_waiting _ (m_d a) _ _ _ Ht _ _ Hd) //; [apply rest_wait_cases|].
  rewrite (suspend_spec _ _ _ _ (Task cd w false None)) //. by rewrite /= lookup_insert_ne.
Qed.

Lemma stopped_frame a s :
  stop_frame [m_t a; m_d a] [m_name a] s (stopped sp (m_c a) (m_t a) (m_d a) (m_ch a) (m_cur a) s).
Proof.
  split; try done; simpl.
  - intros x Hx. rewrite !lookup_insert_ne //; set_solver.
  - intros n Hn. rewrite lookup_delete_ne //. set_solver.
  - intros n Hn. rewrite lookup_delete. by case_decide.
  - intros n Hn. rewrite lookup_delete. by case_decide.
  - intros (co & Hco & Hr). eexists. rewrite /= Hco. by split.
  - rewrite -!app_assoc. eauto.
Qed.

(** One swept child [a]: it is gone, and [t] goes on with [rest]. *)
Lemma teardown_one h ctor now a rest s cd w ch :
  children s !! c = Some ch → tasks s !! t = Some (Task cd w false None) →
  idle s sp (m_c a) (m_t a) (m_d a) (m_ch a) (m_cur a) → ch_pending_exit (m_ch a) = None → lets_through (m_cur a) h →
  t ≠ m_t a → t ≠ m_d a → m_t a ≠ m_d a →
  ∃ s3 cd' w', stop_frame [t; m_t a; m_d a] [m_name a] s s3 ∧ tasks s3 !! t = Some (Task cd' w' false None) ∧
    in_phase sp s3 a Gone ∧
    ∀ s', restart_group t sp c k sibs rest None now s3 = (inr tt, s') →
      (restart_group t sp c k sibs (m_c a :: rest) None now ;; swept_turns h ctor now a) s = (inr tt, s').
Proof.
  intros Hch Ht Hia Hp Hh H1 H2 Htd.
  set (X := Task (CodeChild sp c (PcTeardown k sibs rest)) (WTask (m_t a)) false None).
  set (s2 := s <| tasks ::= λ ts, <[t := X]> (<[m_d a := drive_asked a None]> ts) |>).
  set (s3 := stopped sp (m_c a) (m_t a) (m_d a) (m_ch a) (m_cur a) s2).
  assert ((step_driver (m_d a) h ;; step_child (m_t a) ctor now) s2 = (inr tt, s3)) as Hstop.
  { destruct Hia as [Hrun Hcha _ Hta Hda]. apply (stop_turns s2 sp (m_c a) (m_t a) (m_d a) (m_ch a) (m_cur a) false); try done.
    - unfold s2; simpl. by rewrite lookup_insert_ne // lookup_insert_ne.
    - unfold s2; simpl. by rewrite lookup_insert_ne // lookup_insert_eq. }
  assert (tasks s3 !! t = Some X) as Ht3.
  { unfold s3, stopped; simpl. by rewrite lookup_insert_ne // lookup_insert_ne // lookup_insert_eq. }
  exists s3. eexists _, _. split_and!; [|exact Ht3| |].
  - transitivity s2.
    + split; try done; [|exists []; by rewrite app_nil_r]. intros x Hx. unfold s2; simpl. rewrite !lookup_insert_ne //; set_solver.
    + eapply stop_frame_weaken; [apply stopped_frame|set_solver|done].
  - unfold s3, stopped, s2, m_name. split_and!; simpl; [by rewrite lookup_insert_eq|by rewrite lookup_insert_ne // lookup_insert_eq|apply lookup_delete_eq..].
  - intros s' Hs'. cbn [bind]. rewrite (teardown_asks _ _ _ cd w) // -/X -/s2. unfold swept_turns. cbn [bind] in Hstop |- *.
    destruct (step_driver (m_d a) h s2) as [[e|[]] s2']; [done|]. rewrite Hstop.
    rewrite (step_child_run _ _ _ s3 sp c _ _ WkCancel Ht3).
    { unfold s3, stopped; simpl. by rewrite lookup_insert_eq. }
    unfold guard_task, run_child. cbn [try_except bind get]. change (children s3) with (children s). by rewrite Hch Hs'.
Qed.

(** Going over the swept children [rest]: once all are gone, what is left of
    the restart runs in a state that differs only by that. *)
Lemma teardown_loop h ctor now rest : ∀ s cd w ch,
  running s → children s !! c = Some ch → tasks s !! t = Some (Task cd w false None) →
  idle_group sp rest s → t ∉ m_tids rest → (∀ a, a ∈ rest → lets_through (m_cur a) h) →
  ∃ s1 cd' w', stop_frame (t :: m_tids rest) (m_name <$> rest) s s1 ∧
    tasks s1 !! t = Some (Task cd' w' false None) ∧
    (∀ a, a ∈ rest → in_phase sp s1 a Gone) ∧
    ∀ s', restart_group t sp c k sibs [] None now s1 = (inr tt, s') →
      (restart_group t sp c k sibs (m_c <$> rest) None now ;;
       for_each rest (swept_turns h ctor now)) s = (inr tt, s').
Proof.
  induction rest as [|a rest IH]; intros s cd w ch Hrun Hch Ht [Hi Hp Hn] Htn Hh.
  { exists s, cd, w. split_and!; [done|done|by intros a ?%elem_of_nil|].
    intros s' Hs'. cbn [bind for_each]. by rewrite Hs'. }
  change (m_tids (a :: rest)) with (m_t a :: m_d a :: m_tids rest) in Hn, Htn |- *.
  apply not_elem_of_cons in Htn as [H1 [H2 Htr]%not_elem_of_cons].
  apply list.NoDup_cons in Hn as [[Htd Ha1]%not_elem_of_cons [Ha2 Hn]%list.NoDup_cons].
  destruct (teardown_one h ctor now a (m_c <$> rest) s cd w ch) as (s3 & cd3 & w3 & Hf3 & Ht3 & Hg3 & Hend3); try done;
    [apply Hi; by left|apply Hp; by left|apply Hh; by left|].
  destruct (IH s3 cd3 w3 ch) as (s1 & cd' & w' & Hf & Ht1 & Hgone & Hend); try done.
  { by apply (sf_running _ _ _ _ Hf3). }
  { by rewrite (sf_children _ _ _ _ Hf3). }
  { split; [|intros b Hb; apply Hp; by right|done]. intros b Hb. destruct (Hi b ltac:(by right)) as [_ Hcb Htkb Htb Hdb].
    assert (m_t b ∈ m_tids rest ∧ m_d b ∈ m_tids rest) as [Hbt Hbd] by (split; apply elem_of_m_tids; eauto).
    split; [by apply (sf_running _ _ _ _ Hf3)|by rewrite (sf_children _ _ _ _ Hf3)|done| |];
      (rewrite (sf_tasks _ _ _ _ Hf3) //; rewrite !not_elem_of_cons; split_and!; [by intros E; rewrite E in Hbt Hbd..|by apply not_elem_of_nil]). }
  { intros b Hb. apply Hh. by right. }
  exists s1, cd', w'. split_and!; [|done| |].
  - transitivity s3.
    + eapply stop_frame_weaken; [exact Hf3|apply (list_subseteq_app_mid [] [t; m_t a; m_d a])|apply (list_subseteq_app_mid [] [m_name a])].
    + eapply stop_frame_weaken; [exact Hf|apply (list_subseteq_insert [t] [m_t a; m_d a])|apply (list_subseteq_insert [] [m_name a])].
  - intros b [->|Hb]%elem_of_cons; [|auto]. destruct Hg3 as (G1 & G2 & G3 & G4).
    split_and!; [rewrite (sf_tasks _ _ _ _ Hf) //; set_solver..|by apply (sf_dropped _ _ _ _ Hf)|by apply (sf_live _ _ _ _ Hf)].
  - intros s' Hs'. specialize (Hend s' Hs'). rewrite fmap_cons. cbn [bind for_each] in Hend, Hend3 |- *.
    destruct (restart_group t sp c k sibs (m_c <$> rest) None now s3) as [[e|[]] s4]; [done|]. specialize (Hend3 s4 eq_refl).
    destruct (restart_group t sp c k sibs (m_c a :: (m_c <$> rest)) None now s) as [[e|[]] s5]; [done|]. by rewrite Hend3.
Qed.

End restart.

(** A generation of child [c] is up: its task [t] awaits a driver [d] that is
    about to run, its name leads to mailbox [q]. *)
Record up (s : st) (sp c : nat) (ch : child) (q : qid) (t d : tid) : Prop := {
  up_child : children s !! c = Some (ch <| ch_driver := Some d |> <| ch_task := Some t |>);
  up_task : tasks s !! t = Some (Task (CodeChild sp c PcAwaitDriver) (WTask d) false None);
  up_driver : tasks s !! d = Some (Task (CodeDrive c None) (WReady WkOk) false None);
  up_name : _mailboxes s !! ch_name ch = Some q;
  up_live : _live_children s !! ch_name ch = Some c
}.

Lemma started_up t sp c ch ch0 q d s :
  t ≠ d → ch <| ch_driver := Some d |> = ch0 <| ch_driver := Some d |> <| ch_task := Some t |> →
  up (started_generation t sp c ch q d s) sp c ch0 q t d.
Proof.
  intros Hne Hch. assert (ch_name ch0 = ch_name ch) as Hn by (destruct ch, ch0; by injection Hch).
  simpl in Hch. split; simpl; rewrite ?Hn ?lookup_insert_eq //; [by rewrite Hch Hn|].
  by rewrite lookup_insert_ne // lookup_insert_eq.
Qed.

Lemma up_other s sp c ch q t d t' c' ch' q' d' :
  up s sp c ch q t d → c' ≠ c → ch_name ch' ≠ ch_name ch →
  t' ≠ t → t' ≠ d → d' ≠ t → d' ≠ d →
  up (started_generation t' sp c' ch' q' d' s) sp c ch q t d.
Proof. intros [H1 H2 H3 H4 H5] ? ? ? ? ? ?. by split; simpl; rewrite !lookup_insert_ne. Qed.

(** The first turn of a fresh task starts its generation. *)
Lemma first_turn t sp c ch cls meta q now s :
  running s → children s !! c = Some ch → ch_kind ch = ActorChild cls meta q →
  _mailboxes s !! ch_name ch = None → t ≠ next_id s →
  tasks s !! t = Some (Task (CodeChild sp c PcStart) (WReady WkOk) false None) →
  step_child t None now s = (inr tt, started_generation t sp c ch q (next_id s) s).
Proof.
  intros Hrun Hch Hk Hm Hne Ht. rewrite (step_child_run _ _ _ _ sp c PcStart (WReady WkOk) WkOk) //.
  unfold guard_task, run_child. cbn [try_except bind get]. rewrite Hch.
  by rewrite (actor_head_ok t sp c ch cls meta q now s _ _ Hrun Hch Hk (or_introl Hm) Ht Hne).
Qed.

(** Members [l] with fresh tasks from [base] on. *)
Definition fresh_tasks (sp : sid) (base : tid) (l : list member_task) (s : st) : Prop :=
  ∀ i a, l !! i = Some a →
    children s !! m_c a = Some (respawned a (base + i)) ∧ _mailboxes s !! m_name a = None ∧
    tasks s !! (base + i) = Some (Task (CodeChild sp (m_c a) PcStart) (WReady WkOk) false None).

Definition mailbox_of (a : member_task) (q : qid) : Prop :=
  ∃ cls meta, ch_kind (m_ch a) = ActorChild cls meta q.

Lemma first_turns sp now l : ∀ base s,
  running s → NoDup (m_c <$> l) → NoDup (m_name <$> l) → (∀ a, a ∈ l → is_actor (m_ch a)) →
  fresh_tasks sp base l s → base + length l ≤ next_id s →
  ∃ s', for_each (seq base (length l)) (λ t, step_child t None now) s = (inr tt, s') ∧
    quiet_view s' = quiet_view s ∧
    (∀ c, c ∉ m_c <$> l → children s' !! c = children s !! c) ∧
    (∀ n, n ∉ m_name <$> l → _mailboxes s' !! n = _mailboxes s !! n ∧ _live_children s' !! n = _live_children s !! n) ∧
    (∀ t, t < base ∨ base + length l ≤ t < next_id s → tasks s' !! t = tasks s !! t) ∧
    (∀ i a, l !! i = Some a → ∃ q, mailbox_of a q ∧ up s' sp (m_c a) (m_ch a) q (base + i) (next_id s + i)).
Proof.
  induction l as [|a l IH]; intros base s Hrun Hc Hn Hact Hfr Hb; simpl in Hb.
  { exists s. by split_and!. }
  rewrite !fmap_cons in Hc Hn.
  apply list.NoDup_cons in Hc as [Hca Hc]. apply list.NoDup_cons in Hn as [Hna Hn].
  destruct (Hact a ltac:(by left)) as (cls & meta & q & Hk).
  destruct (Hfr 0 a eq_refl) as (Hch & Hm & Ht). rewrite Nat.add_0_r in Hch Ht.
  set (s1 := started_generation base sp (m_c a) (respawned a base) q (next_id s) s).
  assert (step_child base None now s = (inr tt, s1)) as Hstep.
  { apply (first_turn _ _ _ (respawned a base) cls meta); try done. lia. }
  destruct (IH (S base) s1) as (s' & Hr & Hq & Hoc & Hon & Hot & Hup); try done.
  { destruct Hrun as (co & Hco & Hr). unfold running, s1, started_generation; simpl. rewrite Hco; simpl. eauto. }
  { intros b Hb'. apply Hact. by right. }
  { intros i b Hi. destruct (Hfr (S i) b Hi) as (H1 & H2 & H3). rewrite Nat.add_succ_r in H1 H3.
    assert (m_c b ∈ m_c <$> l ∧ m_name b ∈ m_name <$> l) as [Hb1 Hb2].
    { apply list_elem_of_lookup_2 in Hi. split; apply list_elem_of_fmap; eauto. }
    assert (m_c a ≠ m_c b) by (intros E; apply Hca; by rewrite E).
    assert (ch_name (m_ch a) ≠ m_name b) by (intros E; apply Hna; by rewrite -E in Hb2).
    apply lookup_lt_Some in Hi. unfold s1, started_generation; simpl. by rewrite !lookup_insert_ne; try lia. }
  { simpl. lia. }
  exists s'. split_and!.
  - simpl. by rewrite Hstep.
  - by rewrite Hq.
  - intros c [H1 H2]%not_elem_of_cons. rewrite Hoc // /s1 /= lookup_insert_ne //.
  - intros n [H1 H2]%not_elem_of_cons. destruct (Hon n H2) as [-> ->].
    rewrite /s1 /=. unfold m_name in H1. by rewrite !lookup_insert_ne.
  - intros t Ht'. simpl in Ht'. rewrite Hot /=; [lia|]. rewrite !lookup_insert_ne //; lia.
  - intros [|i] b Hi; simpl in Hi.
    + injection Hi as <-. exists q. split; [by exists cls, meta|]. rewrite !Nat.add_0_r.
      assert (up s1 sp (m_c a) (m_ch a) q base (next_id s)) as [U1 U2 U3 U4 U5].
      { apply started_up; [lia|done]. }
      destruct (Hon (ch_name (m_ch a)) Hna) as [Hmb Hlv].
      split; [by rewrite Hoc|by rewrite Hot; [lia|]|by rewrite Hot; [simpl; lia|]|by rewrite Hmb|by rewrite Hlv].
    + destruct (Hup i b Hi) as (q' & Hq' & Hu). exists q'. split; [done|].
      simpl in Hu. by rewrite -!Nat.add_succ_comm.
Qed.

(** The actor child [c] sleeps in its back-off, with the idle actors [gs] as
    those its strategy sweeps in; records and names are distinct, its own name
    is free, and no task has an identity of the future. *)
Record crashed_group (t sp c : nat) (k : crash) (ch : child) (q : qid) (gs : list member_task) (s : st) : Prop := {
  cg_running : running s;
  cg_child : children s !! c = Some ch;
  cg_actor : ∃ cls meta, ch_kind ch = ActorChild cls meta q;
  cg_task : ch_task ch = Some t;
  cg_sleeps : ∃ ms, tasks s !! t = Some (Task (CodeChild sp c (PcBackoff k)) (WSleep ms) false None);
  cg_swept : ∃ sup, sups s !! sp = Some sup ∧ swept sup c = inr (m_c <$> gs);
  cg_idle : idle_group sp gs s;
  cg_actors : ∀ a, a ∈ gs → is_actor (m_ch a);
  cg_records : NoDup (c :: (m_c <$> gs));
  cg_names : NoDup (ch_name ch :: (m_name <$> gs));
  cg_other : t ∉ m_tids gs;
  cg_fresh : ∀ x, is_Some (tasks s !! x) → x < next_id s;
  cg_free : _mailboxes s !! ch_name ch = None
}.

Definition restart_turns (t : tid) (h : handler_result) (ctor : option exn) (now : Z) (gs : list member_task) : M st unit :=
  fire_timer t ;; step_child t None now ;; for_each gs (swept_turns t h ctor now).

(** The group once everybody was stopped: the siblings have their new tasks,
    and the crashed child's generation is the next thing to start. *)
Record torn_down (t sp c : nat) (ch : child) (gs : list member_task) (s s2 : st) : Prop := {
  td_running : running s2;
  td_next : next_id s2 = next_id s + length gs;
  td_fresh : fresh_tasks sp (next_id s) gs s2;
  td_child : children s2 !! c = Some ch;
  td_task : ∃ cd w, tasks s2 !! t = Some (Task cd w false None);
  td_free : _mailboxes s2 !! ch_name ch = None;
  td_gone : ∀ a, a ∈ gs → t_out <$> tasks s2 !! m_t a = Some (Some OCancelled);
  td_kept : (queues s2, sups s2, reported s2) = (queues s, sups s, reported s);
  td_others : ∀ x, x < next_id s → x ∉ (t :: m_tids gs) → tasks s2 !! x = tasks s !! x
}.

(** Once the siblings are torn down and respawned. *)
Lemma torn_down_respawned t sp c k ch q gs s s0 s1 s2 w cd :
  crashed_group t sp c k ch q gs s → s0 = s <| tasks ::= <[t := w]> |> →
  stop_frame (t :: m_tids gs) (m_name <$> gs) s0 s1 →
  tasks s1 !! t = Some cd → t_must_cancel cd = false → t_out cd = None →
  (∀ a, a ∈ gs → in_phase sp s1 a Gone) →
  for_each (m_c <$> gs) (_respawn_child sp) s1 = (inr tt, s2) → torn_down t sp c ch gs s s2.
Proof.
  intros [Hrun Hch Hact _ [ms Ht] _ Hg Hacts Hcs _ Htg Hfresh Hm] -> Hf1 Ht1 Hmc Hto Hgone Hr.
  apply list.NoDup_cons in Hcs as [Hcn Hcs]. pose proof (Hfresh t ltac:(eauto)) as HtN.
  destruct (respawn_all sp gs s1 Hcs) as (s2' & Hr2 & Hn2 & Hq2 & Hm2 & Hl2 & Hco2 & Hc2 & Ht2 & Hnew).
  { intros a Ha. rewrite (sf_children _ _ _ _ Hf1). split; [|auto]. apply (ig_idle _ _ _ Hg a Ha). }
  rewrite Hr in Hr2. injection Hr2 as <-.
  pose proof (sf_next _ _ _ _ Hf1) as Hn1. change (next_id (s <| tasks ::= _ |>)) with (next_id s) in Hn1.
  rewrite Hn1 in Hn2 Ht2 Hnew. split.
  - destruct (sf_running _ _ _ _ Hf1 Hrun) as (co & Hco & Hr'). exists co. by rewrite Hco2.
  - done.
  - intros i a Hi. destruct (Hnew i a Hi) as [H1 H2]. rewrite Hm2. split_and!; try done.
    by destruct (Hgone a (list_elem_of_lookup_2 _ _ _ Hi)) as (_ & _ & ? & _).
  - by rewrite Hc2 // (sf_children _ _ _ _ Hf1).
  - rewrite Ht2 // Ht1. destruct cd; simpl in *; subst. eauto.
  - rewrite Hm2. by apply (sf_dropped _ _ _ _ Hf1).
  - intros a Ha. pose proof (idle_waits _ _ _ _ _ _ _ (ig_idle _ _ _ Hg a Ha)) as Hwa.
    destruct (Hgone a Ha) as [Hta _]. rewrite Ht2 ?Hta //. apply Hfresh. eauto.
  - unfold quiet_view in Hq2. destruct Hf1 as [_ F2 F3 _ F5 _ _ _ _ _ _]. simpl in *. simplify_eq. congruence.
  - intros x Hx Hxg. rewrite Ht2 // (sf_tasks _ _ _ _ Hf1) //=. rewrite lookup_insert_ne //.
    intros ->. apply Hxg. by left.
Qed.

Lemma group_torn_down t sp c k ch q gs h ctor now s :
  crashed_group t sp c k ch q gs s → (∀ a, a ∈ gs → lets_through (m_cur a) h) →
  ∃ s2, torn_down t sp c ch gs s s2 ∧
    ∀ s3, child_head t sp c None now s2 = (inr tt, s3) → restart_turns t h ctor now gs s = (inr tt, s3).
Proof.
  intros Hcg Hh. pose proof Hcg as [Hrun Hch _ _ [ms Ht] (sup & Hsup & Hsw) Hg Hacts Hcs _ Htg _ _].
  set (X := Task (CodeChild sp c (PcBackoff k)) (WReady WkOk) false None).
  set (s0 := s <| tasks ::= <[t := X]> |>).
  assert (fire_timer t s = (inr tt, s0)) as Hfire.
  { unfold fire_timer, upd_task, s0; simpl. by rewrite (alter_present _ _ _ _ Ht). }
  assert (idle_group sp gs s0) as Hg0.
  { destruct Hg as [Hi Hp Hn]. split; try done. intros a Ha. destruct (Hi a Ha) as [? ? ? H1 H2].
    assert (m_t a ∈ m_tids gs ∧ m_d a ∈ m_tids gs) as [Ha1 Ha2] by (split; apply elem_of_m_tids; eauto).
    split; try done; unfold s0; simpl; rewrite lookup_insert_ne //; intros ->; done. }
  destruct (teardown_loop t sp c k (m_c <$> gs) h ctor now gs s0 _ _ ch Hrun Hch (lookup_insert_eq _ _ _) Hg0 Htg Hh)
    as (s1 & cd & w & Hf1 & Ht1 & Hgone & Hend).
  destruct (respawn_all sp gs s1) as (s2 & Hr2 & _).
  { by apply list.NoDup_cons in Hcs as [_ ?]. }
  { intros a Ha. rewrite (sf_children _ _ _ _ Hf1). split; [|auto]. apply (ig_idle _ _ _ Hg a Ha). }
  exists s2. split; [by eapply (torn_down_respawned t sp c k ch q gs s s0 s1 s2 X)|].
  intros s3 Hhead. assert (restart_group t sp c k (m_c <$> gs) [] None now s1 = (inr tt, s3)) as Hrg.
  { unfold restart_group. cbn [teardown bind ret]. by rewrite Hr2. }
  specialize (Hend s3 Hrg). unfold restart_turns. cbn [bind] in Hend |- *. rewrite Hfire.
  rewrite (step_child_run _ _ _ s0 sp c (PcBackoff k) (WReady WkOk) WkOk); [by rewrite /s0 /= lookup_insert_eq|done|].
  unfold guard_task, run_child. cbn [try_except bind get]. change (children s0) with (children s). rewrite Hch.
  change (sups s0) with (sups s). rewrite Hsup. unfold swept in Hsw.
  destruct (_affected_children sup c) as [|l]; [done|]. injection Hsw as Hl. cbn [bind lift]. rewrite Hl.
  by destruct (restart_group t sp c k (m_c <$> gs) (m_c <$> gs) None now s0) as [[e|[]] s4].
Qed.

Lemma group_restarted t sp c k ch q gs h ctor now s :
  crashed_group t sp c k ch q gs s → (∀ a, a ∈ gs → lets_through (m_cur a) h) →
  let N := next_id s in
  let n := length gs in
  ∃ s',
    (restart_turns t h ctor now gs ;; for_each (seq N n) (λ t', step_child t' None now)) s = (inr tt, s') ∧
    up s' sp c ch q t (N + n) ∧
    (∀ i a, gs !! i = Some a →
       (∃ qa, mailbox_of a qa ∧ up s' sp (m_c a) (m_ch a) qa (N + i) (S (N + n) + i)) ∧
       t_out <$> tasks s' !! m_t a = Some (Some OCancelled)) ∧
    (queues s', sups s', reported s') = (queues s, sups s, reported s) ∧
    (∀ x, x < N → x ∉ (t :: m_tids gs) → tasks s' !! x = tasks s !! x).
Proof.
  intros Hcg Hh N n. destruct (group_torn_down t sp c k ch q gs h ctor now s Hcg Hh) as (s2 & Htd & Hgo).
  destruct Hcg as [Hrun Hch (cls & meta & Hk) Htk [ms Ht] _ Hg Hacts Hcs Hns Htg Hfresh _].
  destruct Htd as [Hrun2 Hn2 Hfr Hch2 (cd & w & Ht2) Hm2 Hgone Hkept Hoth].
  apply list.NoDup_cons in Hcs as [Hcn Hcs]. apply list.NoDup_cons in Hns as [Hnn Hns].
  pose proof (Hfresh t ltac:(eauto)) as HtN. fold N in Hn2, HtN, Hfr, Hoth. fold n in Hn2.
  set (s3 := started_generation t sp c ch q (N + n) s2).
  assert (child_head t sp c None now s2 = (inr tt, s3)) as Hhead.
  { unfold s3. rewrite -Hn2. apply (actor_head_ok t sp c ch cls meta q now s2 cd w); auto. lia. }
  destruct (first_turns sp now gs N s3) as (s' & Hr & Hq & Hoc & Hon & Hot & Hup); try done.
  { destruct Hrun2 as (co & Hco & Hr). unfold running, s3, started_generation; simpl. rewrite Hco; simpl. eauto. }
  { intros i a Hi. destruct (Hfr i a Hi) as (H1 & H2 & H3). pose proof (list_elem_of_lookup_2 _ _ _ Hi) as Ha.
    assert (c ≠ m_c a) by (intros ->; apply Hcn, list_elem_of_fmap; eauto).
    assert (ch_name ch ≠ m_name a) by (intros E; apply Hnn; rewrite E; apply list_elem_of_fmap; eauto).
    apply lookup_lt_Some in Hi. unfold s3, started_generation, n; simpl. rewrite !lookup_insert_ne //; lia. }
  { unfold s3; simpl. rewrite Hn2. unfold n. lia. }
  change (next_id s3) with (S (next_id s2)) in Hup, Hot. rewrite Hn2 in Hup, Hot.
  assert (∀ x, x < N → x ≠ t → tasks s' !! x = tasks s2 !! x) as Hold.
  { intros x Hx Hxt. rewrite Hot; [by left|]. unfold s3, started_generation; simpl. rewrite !lookup_insert_ne //. lia. }
  exists s'. split_and!.
  - cbn [bind]. by rewrite (Hgo s3 Hhead).
  - assert (up s3 sp c ch q t (N + n)) as [U1 U2 U3 U4 U5].
    { apply started_up; [lia|]. by destruct ch; simpl in *; subst. }
    destruct (Hon _ Hnn) as [Hmb Hlv].
    split; [by rewrite Hoc|by rewrite Hot; [lia|]|by rewrite Hot; [unfold n; lia|]|by rewrite Hmb|by rewrite Hlv].
  - intros i a Hi. split; [by apply Hup|]. pose proof (list_elem_of_lookup_2 _ _ _ Hi) as Ha.
    pose proof (idle_waits _ _ _ _ _ _ _ (ig_idle _ _ _ Hg a Ha)) as Hwa.
    rewrite Hold; [apply Hfresh; eauto| |by apply Hgone]. intros E. apply Htg, elem_of_m_tids. eauto.
  - unfold quiet_view in Hq. simpl in Hq. simplify_eq. congruence.
  - intros x Hx Hxg. rewrite Hold //; [|by apply Hoth]. intros ->. apply Hxg. by left.
Qed.



End group.
