(* ===== verification/NodeStop.v ===== *)
(** * Stopping a node

    [Node.stop] of [src/lapinbeam/node.py] on a node whose actors are at rest:
    the tasks it cancels all end, whoever waits for the node is told, nothing
    can be reached any more, and the node can be started again. *)

From S2P Require Import Prelude Values NodeId Actors State PeerEvents Asyncio Node NodeProps Links.
From S2P Require Import Supervisor SupervisorProps SupervisorGroup.

Section node_stop.
Context {codec : PayloadCodec}.

(** What [stop] does after its tasks have ended, part by part. *)
Lemma settle_all_frame f is_ : ∀ s, let s' := foldl (settle_future f) s is_ in
  _core s' = _core s ∧ _mailboxes s' = _mailboxes s ∧ _started s' = _started s ∧ _stopped s' = _stopped s ∧
  tasks s' = tasks s ∧ node_id s' = node_id s.
Proof. induction is_ as [|i is_ IH]; intros s; [done|]. exact (IH (settle_future f s i)). Qed.

Record down (s1 s2 : st) : Prop := {
  dn_core : _core s2 = None;
  dn_mailboxes : _mailboxes s2 = ∅;
  dn_waiters : _peer_waiters s2 = ∅;
  dn_started : _started s2 = false;
  dn_stopped : wait_until_stopped s2 = true;
  dn_tasks : tasks s2 = tasks s1;
  dn_futures : ∀ peer ws i, _peer_waiters s1 !! peer = Some ws → i ∈ ws → futures s1 !! i = Some FPending →
    futures s2 !! i = Some (FExn node_stopped_exn)
}.

Lemma stop_end_down s1 : ∃ s2, stop_end s1 = (inr tt, s2) ∧ down s1 s2.
Proof.
  eexists. split; [done|]. set (s0 := s1 <| _core := None |> <| _mailboxes := ∅ |> <| _started := false |>).
  set (is_ := (map_to_list (_peer_waiters s0)).*2 ≫= id).
  destruct (settle_all_frame (FExn node_stopped_exn) is_ s0) as (H1 & H2 & H3 & H4 & H5 & _).
  split; cbv zeta; fold s0 is_; simpl; try done.
  - unfold wait_until_stopped. simpl. by destruct (_stopped _).
  - intros peer ws i Hw Hi Hf. destruct (settle_futures_lookup (FExn node_stopped_exn) is_ s0 i Hf) as [->|]; [|done].
    rewrite bool_decide_eq_true_2 //. apply list_elem_of_bind. exists ws. split; [done|].
    apply list_elem_of_fmap. exists (peer, ws). split; [done|]. by apply elem_of_map_to_list.
Qed.


End node_stop.
