(* ===== verification/SupervisorTree.v ===== *)
(** * Stopping a tree of supervisors

    [Supervisor.shutdown] of [src/lapinbeam/supervisor.py] on supervisors whose
    children are actors and further supervisors, to any depth.  A nested
    supervisor that is cancelled asks its own children to stop, waits for them,
    and ends only then; the request travels down the tree and the ends travel
    up.  A vertex is a child record with its task; the vertices below it are
    those whose supervisor it runs. *)

From S2P Require Import Prelude Values NodeId Actors State PeerEvents Asyncio Node NodeProps Links.
From S2P Require Import Supervisor SupervisorProps SupervisorGroup.

(** ** Vertices *)

Inductive vertex :=
| VActor (sp : sid) (a : member_task)
| VSup (sp : sid) (c : cid) (t : tid) (ch : child) (ns : sid).

Definition v_parent (v : vertex) : sid := match v with VActor sp _ | VSup sp _ _ _ _ => sp end.
Definition v_child (v : vertex) : cid := match v with VActor _ a => m_c a | VSup _ c _ _ _ => c end.
Definition v_record (v : vertex) : child := match v with VActor _ a => m_ch a | VSup _ _ _ ch _ => ch end.
Definition v_task (v : vertex) : tid := match v with VActor _ a => m_t a | VSup _ _ t _ _ => t end.
Definition v_tids (v : vertex) : list tid := match v with VActor _ a => [m_t a; m_d a] | VSup _ _ t _ _ => [t] end.
Definition v_names (v : vertex) : list string := match v with VActor _ a => [m_name a] | VSup _ _ _ _ _ => [] end.

Definition kids (vs : list vertex) (sp : sid) : list vertex := filter (λ v, v_parent v = sp) vs.
Definition all_tids (vs : list vertex) : list tid := vs ≫= v_tids.
Definition all_names (vs : list vertex) : list string := vs ≫= v_names.

(** ** How far a vertex has come *)

Inductive vphase := VResting | VAsked | VHalf | VGone.

#[export] Instance vphase_eq_dec : EqDecision vphase.
Proof. solve_decision. Defined.

Definition actor_in (sp : sid) (s : st) (a : member_task) (p : vphase) : Prop :=
  match p with
  | VResting => tasks s !! m_t a = Some (await_driver sp a None) ∧
                tasks s !! m_d a = Some (Task (CodeDrive (m_c a) (m_cur a)) (rest_wait (m_cur a)) false None)
  | VAsked => in_phase sp s a Asked
  | VHalf => in_phase sp s a DriverEnded
  | VGone => in_phase sp s a Gone
  end.

(** A nested supervisor's task waits for the supervisor to give up, then for
    the tasks of its children. *)
Definition sup_in (sp : sid) (c : cid) (t : tid) (ns : sid) (ks : list tid) (s : st) (p : vphase) : Prop :=
  match p with
  | VResting => tasks s !! t = Some (Task (CodeChild sp c PcSupWait) (WEvent ns) false None)
  | VAsked => tasks s !! t = Some (Task (CodeChild sp c PcSupWait) (WReady WkCancel) false None)
  | VHalf => tasks s !! t = Some (Task (CodeChild sp c PcSupShutdown) (WGather ks false) false None)
  | VGone => ∃ cd w, tasks s !! t = Some (Task cd w false (Some OCancelled))
  end.

Definition v_in (vs : list vertex) (s : st) (v : vertex) (p : vphase) : Prop :=
  match v with
  | VActor sp a => actor_in sp s a p
  | VSup sp c t _ ns => sup_in sp c t ns (v_task <$> kids vs ns) s p
  end.

(** What does not change while the tree is stopped. *)
Record v_fixed (vs : list vertex) (root : sid) (s : st) (v : vertex) : Prop := {
  vf_child : children s !! v_child v = Some (v_record v);
  vf_task : ch_task (v_record v) = Some (v_task v);
  vf_kind : match v with
            | VActor _ a => ch_pending_exit (m_ch a) = None
            | VSup sp _ _ ch ns =>
                sp < ns ∧ ch_supervisor ch = Some ns ∧
                ∃ sup, sups s !! ns = Some sup ∧ s_given_up sup = false ∧ s_children sup = v_child <$> kids vs ns
            end;
  vf_parent : v_parent v = root ∨ ∃ sp c t ch, VSup sp c t ch (v_parent v) ∈ vs
}.

(** The phases of a supervisor and of its children. *)
Definition coupled (p k : vphase) : Prop :=
  match p with
  | VResting | VAsked => k = VResting
  | VHalf => k ≠ VResting
  | VGone => k = VGone
  end.

Record tree (vs : list vertex) (root : sid) (s : st) (ph : tid → vphase) : Prop := {
  tr_running : running s;
  tr_nodup : NoDup (all_tids vs);
  tr_fixed : ∀ v, v ∈ vs → v_fixed vs root s v;
  tr_unique : ∀ sp c t ch sp' c' t' ch' ns, VSup sp c t ch ns ∈ vs → VSup sp' c' t' ch' ns ∈ vs → t = t';
  tr_root : ∀ sp c t ch, VSup sp c t ch root ∉ vs;
  tr_phase : ∀ v, v ∈ vs → v_in vs s v (ph (v_task v));
  tr_coupled : ∀ sp c t ch ns k, VSup sp c t ch ns ∈ vs → k ∈ kids vs ns → coupled (ph t) (ph (v_task k))
}.

(** ** Turns *)

(** The loop gives a turn to a task that was woken: it is scheduled, or what it
    awaits has come. *)
Definition woken (s : st) (t : tid) : bool :=
  match tasks s !! t with
  | Some tk => match t_out tk with
               | None => bool_decide (is_Some (pending_wake s (t_wait tk)))
               | Some _ => false
               end
  | None => false
  end.

Section tree.
Context {codec : PayloadCodec}.

Definition loop_turn (u : turn) : M st unit :=
  let! s := get in
  if woken s (tu_task u) then run_turn u else ret tt.

(** A turn in which no handler swallows the cancellation. *)
Definition yields (vs : list vertex) (u : turn) : Prop :=
  tu_task u ∈ all_tids vs ∧
  ∀ sp a, VActor sp a ∈ vs → tu_task u = m_d a → lets_through (m_cur a) (tu_handler u).

(** Turns still to come, at most. *)
Definition phase_weight (p : vphase) : nat := match p with VResting => 3 | VAsked => 2 | VHalf => 1 | VGone => 0 end.
Definition tree_weight (vs : list vertex) (ph : tid → vphase) : nat := sum_list_with (λ v, phase_weight (ph (v_task v))) vs.

Abbreviation tree_frame vs := (stop_frame (all_tids vs) (all_names vs)).

(** ** Identities *)

Lemma elem_of_all_tids vs t : t ∈ all_tids vs ↔ ∃ v, v ∈ vs ∧ t ∈ v_tids v.
Proof. unfold all_tids. rewrite list_elem_of_bind. naive_solver. Qed.

Lemma v_task_tids v : v_task v ∈ v_tids v.
Proof. destruct v; by left. Qed.

Lemma v_tids_all vs v t : v ∈ vs → t ∈ v_tids v → t ∈ all_tids vs.
Proof. intros. apply elem_of_all_tids. eauto. Qed.

Lemma all_tids_inj vs v w t : NoDup (all_tids vs) → v ∈ vs → w ∈ vs → t ∈ v_tids v → t ∈ v_tids w → v = w.
Proof.
  induction vs as [|x vs IH]; intros Hnd Hv Hw Htv Htw; [by apply elem_of_nil in Hv|].
  unfold all_tids in Hnd; simpl in Hnd. fold (all_tids vs) in Hnd. apply list.NoDup_app in Hnd as (_ & Hx & Hnd).
  apply elem_of_cons in Hv as [->|Hv], Hw as [->|Hw]; [done| | |by apply IH].
  - destruct (Hx t Htv). by eapply v_tids_all.
  - destruct (Hx t Htw). by eapply v_tids_all.
Qed.

Lemma v_task_inj vs v w : NoDup (all_tids vs) → v ∈ vs → w ∈ vs → v_task v = v_task w → v = w.
Proof. intros Hnd Hv Hw E. apply (all_tids_inj vs v w (v_task v)); try done; [|rewrite E]; apply v_task_tids. Qed.

Lemma v_tids_NoDup vs v : NoDup (all_tids vs) → v ∈ vs → NoDup (v_tids v).
Proof.
  induction vs as [|x vs IH]; intros Hnd Hv; [by apply elem_of_nil in Hv|].
  unfold all_tids in Hnd; simpl in Hnd. fold (all_tids vs) in Hnd. apply list.NoDup_app in Hnd as (H & _ & Hnd).
  by apply elem_of_cons in Hv as [->|Hv]; auto.
Qed.

Lemma elem_of_kids vs sp v : v ∈ kids vs sp ↔ v ∈ vs ∧ v_parent v = sp.
Proof. unfold kids. rewrite list_elem_of_filter. naive_solver. Qed.

Lemma all_tids_filter (P : vertex → Prop) `{!∀ v, Decision (P v)} vs : NoDup (all_tids vs) → NoDup (all_tids (filter P vs)).
Proof.
  induction vs as [|v vs IH]; intros Hnd; [done|].
  unfold all_tids in Hnd; simpl in Hnd. fold (all_tids vs) in Hnd. apply list.NoDup_app in Hnd as (H1 & H2 & H3).
  rewrite filter_cons. case_decide; [|by apply IH]. unfold all_tids; simpl. fold (all_tids (filter P vs)).
  apply list.NoDup_app. split_and!; [done| |by apply IH].
  intros t Ht (w & [_ Hw]%list_elem_of_filter & Htw)%elem_of_all_tids. apply (H2 t Ht). by eapply v_tids_all.
Qed.

(** ** What a turn leaves alone *)

Lemma vertex_frame vs v s s' : v ∈ vs → stop_frame (v_tids v) (v_names v) s s' → tree_frame vs s s'.
Proof.
  intros Hv Hf. eapply stop_frame_weaken; [exact Hf| |].
  - intros t Ht. by eapply v_tids_all.
  - intros n Hn. apply list_elem_of_bind. eauto.
Qed.

(** A phase survives what happens to other tasks. *)
Lemma v_in_other vs ts ns s s' v p :
  stop_frame ts ns s s' → (∀ t, t ∈ v_tids v → tasks s' !! t = tasks s !! t) → v_in vs s v p → v_in vs s' v p.
Proof.
  intros Hf Ht. destruct v as [sp a|sp c t ch ns0]; simpl in *.
  - destruct p; simpl; rewrite !Ht; try set_solver. intros (? & ? & Hm & Hl). split_and!; try done; by apply Hf.
  - destruct p; simpl; rewrite !Ht; set_solver.
Qed.

Lemma tree_advance vs root s ph s' ph' :
  tree vs root s ph → tree_frame vs s s' → (∀ v, v ∈ vs → v_in vs s' v (ph' (v_task v))) →
  (∀ sp c t ch ns k, VSup sp c t ch ns ∈ vs → k ∈ kids vs ns → coupled (ph' t) (ph' (v_task k))) →
  tree vs root s' ph'.
Proof.
  intros [T1 T2 T3 T4 T5 T6 T7] Hf Hv Hc. split; try done; [by apply Hf|]. intros v Hin. destruct (T3 v Hin) as [F1 F2 F3 F4].
  split; try done; [by rewrite (sf_children _ _ _ _ Hf)|]. by rewrite (sf_sups _ _ _ _ Hf).
Qed.

Definition moved (ph : tid → vphase) (x : tid) (p : vphase) : tid → vphase := λ t, if bool_decide (t = x) then p else ph t.

Lemma moved_eq ph x p : moved ph x p x = p.
Proof. unfold moved. by rewrite bool_decide_eq_true_2. Qed.
Lemma moved_ne ph x p t : t ≠ x → moved ph x p t = ph t.
Proof. intros. unfold moved. by rewrite bool_decide_eq_false_2. Qed.

(** One vertex moves on, beyond [VAsked], and no other. *)
Lemma tree_move vs root s ph s' v p :
  tree vs root s ph → v ∈ vs → stop_frame (v_tids v) (v_names v) s s' → v_in vs s' v p →
  ph (v_task v) = VAsked ∨ ph (v_task v) = VHalf → p ≠ VResting →
  match v with
  | VActor _ _ => True
  | VSup _ _ _ _ ns => ∀ k, k ∈ kids vs ns → coupled p (ph (v_task k))
  end →
  tree vs root s' (moved ph (v_task v) p).
Proof.
  intros Ht Hv Hf Hp Hold Hnew Hk. pose proof (tr_nodup _ _ _ _ Ht) as Hnd.
  apply (tree_advance vs root s ph); [done|by eapply vertex_frame| |].
  - intros w Hw. destruct (decide (v_task w = v_task v)) as [E|Hne].
    + apply (v_task_inj vs) in E as ->; try done. by rewrite moved_eq.
    + rewrite moved_ne //. eapply v_in_other; [exact Hf| |by apply Ht]. intros t Htw. apply Hf. intros Htv.
      apply Hne. f_equal. by apply (all_tids_inj vs w v t).
  - intros sp c t ch ns k Hs Hin. assert (k ∈ vs) as Hkv by (by apply elem_of_kids in Hin as [? _]).
    pose proof (tr_coupled _ _ _ _ Ht _ _ _ _ _ _ Hs Hin) as Hc.
    destruct (decide (t = v_task v)) as [->|Hne].
    + assert (VSup sp c (v_task v) ch ns = v) as E by (apply (v_task_inj vs); done). rewrite -E in Hk.
      rewrite moved_eq moved_ne; [|by apply Hk]. intros Ek. assert (k = VSup sp c (v_task v) ch ns) as -> by (apply (v_task_inj vs); done).
      apply elem_of_kids in Hin as [_ Hin]. destruct (vf_kind _ _ _ _ (tr_fixed _ _ _ _ Ht _ Hs)) as [Hlt _]. simpl in Hin. lia.
    + rewrite (moved_ne _ _ _ t) //. destruct (decide (v_task k = v_task v)) as [Ek|Hk'].
      * rewrite Ek moved_eq. rewrite Ek in Hc. destruct (ph t); simpl in *; try done; destruct Hold as [E|E]; rewrite E in Hc; done.
      * by rewrite moved_ne.
Qed.

(** ** Which turns do something *)

Inductive woken_case (vs : list vertex) (s : st) (ph : tid → vphase) (t : tid) : Prop :=
| wc_driver sp a : VActor sp a ∈ vs → t = m_d a → ph (m_t a) = VAsked → woken_case vs s ph t
| wc_actor sp a : VActor sp a ∈ vs → t = m_t a → ph (m_t a) = VHalf → woken_case vs s ph t
| wc_asked sp c ch ns : VSup sp c t ch ns ∈ vs → ph t = VAsked → woken_case vs s ph t
| wc_half sp c ch ns : VSup sp c t ch ns ∈ vs → ph t = VHalf →
    (∀ k, k ∈ kids vs ns → ph (v_task k) = VGone) → woken_case vs s ph t.

Lemma v_done vs s v p : v_in vs s v p → task_done s (v_task v) = bool_decide (p = VGone).
Proof.
  unfold task_done. destruct v as [sp a|sp c t ch ns], p; simpl; first [intros [-> _]|intros (cd & w & ->)|intros ->]; done.
Qed.

Lemma kids_done vs root s ph ns :
  tree vs root s ph → forallb (task_done s) (v_task <$> kids vs ns) = true ↔ ∀ k, k ∈ kids vs ns → ph (v_task k) = VGone.
Proof.
  intros Ht. rewrite -(Is_true_true (forallb _ _)) forallb_True Forall_fmap list.Forall_forall. apply forall_proper. intros k.
  split; intros H Hk; specialize (H Hk); assert (k ∈ vs) as Hv by (by apply elem_of_kids in Hk as [? _]);
    pose proof (v_done _ _ _ _ (tr_phase _ _ _ _ Ht k Hv)) as Hd; simpl in *.
  - rewrite Hd in H. by apply bool_decide_unpack in H.
  - by rewrite Hd H.
Qed.

Lemma woken_cases vs root s ph t : tree vs root s ph → t ∈ all_tids vs → woken s t = true → woken_case vs s ph t.
Proof.
  intros Ht (v & Hv & Htv)%elem_of_all_tids Hw. pose proof (tr_phase _ _ _ _ Ht v Hv) as Hp.
  unfold woken in Hw. destruct v as [sp a|sp c t' ch ns]; simpl in Hp, Htv.
  - apply elem_of_cons in Htv as [->| ->%list_elem_of_singleton]; destruct (ph (m_t a)) eqn:E; simpl in Hp.
    + destruct Hp as [Hp1 Hp2]. by rewrite Hp1 /= Hp2 in Hw.
    + destruct Hp as [Hp1 Hp2]. by rewrite Hp1 /= Hp2 in Hw.
    + by eapply wc_actor.
    + destruct Hp as [Hp1 _]. by rewrite Hp1 in Hw.
    + destruct Hp as [_ Hp2]. rewrite Hp2 /= in Hw. by destruct (rest_wait_cases (m_cur a)) as [E'|E']; rewrite E' in Hw.
    + by eapply wc_driver.
    + destruct Hp as [_ Hp2]. by rewrite Hp2 in Hw.
    + destruct Hp as (_ & Hp2 & _). by rewrite Hp2 in Hw.
  - apply list_elem_of_singleton in Htv as ->. destruct (ph t') eqn:E; simpl in Hp.
    + rewrite Hp /= in Hw. destruct (vf_kind _ _ _ _ (tr_fixed _ _ _ _ Ht _ Hv)) as (_ & _ & sup & Hs & Hg & _).
      by rewrite Hs Hg in Hw.
    + by eapply wc_asked.
    + eapply wc_half; [done..|]. apply (kids_done _ _ _ _ _ Ht). rewrite Hp /= in Hw.
      by destruct (forallb (task_done s) (v_task <$> kids vs ns)).
    + destruct Hp as (cd & w & Hp). by rewrite Hp in Hw.
Qed.

(** ** Asking the children of a nested supervisor *)

Lemma cancel_event t s tk ns :
  tasks s !! t = Some tk → t_out tk = None → t_wait tk = WEvent ns →
  cancel t s = (inr tt, s <| tasks ::= <[t := tk <| t_wait := WReady WkCancel |>]> |>).
Proof.
  intros Ht Ho Hw. unfold cancel; simpl. rewrite Ht Ho /= Hw /upd_task /=. by rewrite (alter_present _ _ _ _ Ht) Ho.
Qed.

Lemma cancel_vertex vs s v :
  NoDup (v_tids v) → v_in vs s v VResting →
  ∃ x tk, x ∈ v_tids v ∧ cancel (v_task v) s = (inr tt, s <| tasks ::= <[x := tk]> |>) ∧
    v_in vs (s <| tasks ::= <[x := tk]> |>) v VAsked.
Proof.
  destruct v as [sp a|sp c t ch ns]; simpl.
  - intros Hnd [Ht Hd]. exists (m_d a), (drive_asked a None). split_and!; [set_solver|..].
    + rewrite (cancel_waiting _ (m_d a) _ _ _ Ht _ _ Hd) //. apply rest_wait_cases.
    + assert (m_t a ≠ m_d a) by (apply list.NoDup_cons in Hnd as [Hnd _]; set_solver). by rewrite lookup_insert_ne.
    + by rewrite lookup_insert_eq.
  - intros _ Ht. eexists t, _. split_and!; [set_solver|by apply (cancel_event _ _ _ ns Ht)|]. by rewrite lookup_insert_eq.
Qed.

Lemma cancel_vertices vs l : ∀ s,
  NoDup (all_tids l) → (∀ v, v ∈ l → v_in vs s v VResting) →
  ∃ s', for_each (v_task <$> l) cancel s = (inr tt, s') ∧ same_but_tasks s s' ∧
    (∀ v, v ∈ l → v_in vs s' v VAsked) ∧ ∀ t, t ∉ all_tids l → tasks s' !! t = tasks s !! t.
Proof.
  induction l as [|v l IH]; intros s Hnd Hl.
  { exists s. split_and!; try done. by intros v ?%elem_of_nil. }
  unfold all_tids in Hnd; simpl in Hnd. fold (all_tids l) in Hnd. apply list.NoDup_app in Hnd as (Hv & Hdis & Hnd).
  destruct (cancel_vertex vs s v Hv (Hl v ltac:(by left))) as (x & tk & Hx & Hc & Hin).
  set (s1 := s <| tasks ::= <[x := tk]> |>) in *.
  destruct (IH s1 Hnd) as (s' & Hr & Hsame & Hph & Hoth).
  { intros w Hw. apply (v_in_other vs [x] [] s); [|intros t Ht; unfold s1; simpl; rewrite lookup_insert_ne //|apply Hl; by right].
    - split; try done; [|exists []; by rewrite app_nil_r]. intros t Ht. unfold s1; simpl. rewrite lookup_insert_ne //. set_solver.
    - intros <-. apply (Hdis x Hx). by eapply v_tids_all. }
  assert (stop_frame (all_tids l) [] s1 s') as Hf by (by apply same_tasks_stop).
  exists s'. split_and!.
  - rewrite fmap_cons. cbn [for_each bind]. by rewrite Hc.
  - etrans; [|exact Hsame]. done.
  - intros w [->|Hw]%elem_of_cons; [|auto]. eapply v_in_other; [exact Hf| |exact Hin].
    intros t Ht. apply Hoth. by apply Hdis.
  - intros t Ht. unfold all_tids in Ht; simpl in Ht. fold (all_tids l) in Ht. rewrite Hoth; [set_solver|].
    unfold s1; simpl. rewrite lookup_insert_ne //. set_solver.
Qed.

(** ** One turn *)

(** The supervisor at [t] has passed the request on. *)
Definition passed_on (vs : list vertex) (ns : sid) (ph : tid → vphase) (t : tid) (p : vphase) : tid → vphase :=
  λ x, if bool_decide (x = t) then p else if bool_decide (x ∈ v_task <$> kids vs ns) then VAsked else ph x.

Lemma passed_on_self vs ns ph t p : passed_on vs ns ph t p t = p.
Proof. unfold passed_on. by rewrite bool_decide_eq_true_2. Qed.

Lemma passed_on_same vs root s ph ns t p w :
  tree vs root s ph → w ∈ vs → v_task w ≠ t → v_parent w ≠ ns → passed_on vs ns ph t p (v_task w) = ph (v_task w).
Proof.
  intros Ht Hw Hne Hnk. unfold passed_on. rewrite !bool_decide_eq_false_2 //.
  intros (k & E & [Hk Hp]%elem_of_kids)%list_elem_of_fmap. apply Hnk.
  apply (v_task_inj vs) in E as ->; [done|apply Ht|done|done].
Qed.

Lemma passed_on_kid vs root s ph sp c t ch ns p k :
  tree vs root s ph → VSup sp c t ch ns ∈ vs → k ∈ kids vs ns → v_task k ≠ t ∧ passed_on vs ns ph t p (v_task k) = VAsked.
Proof.
  intros Ht Hv Hin. apply elem_of_kids in Hin as Hin'. destruct Hin' as [Hkv Hkp].
  destruct (vf_kind _ _ _ _ (tr_fixed _ _ _ _ Ht _ Hv)) as [Hlt _]. assert (v_task k ≠ t) as Hne.
  { intros E. assert (k = VSup sp c t ch ns) as -> by (by apply (v_task_inj vs); [apply Ht|..]). simpl in Hkp. lia. }
  split; [done|]. unfold passed_on. rewrite bool_decide_eq_false_2 // bool_decide_eq_true_2 //. apply list_elem_of_fmap. eauto.
Qed.

Lemma passed_on_coupled vs root s ph sp c t ch ns p sp' c' t' ch' ns' k :
  tree vs root s ph → VSup sp c t ch ns ∈ vs → ph t = VAsked → p = VHalf ∨ p = VGone ∧ kids vs ns = [] →
  VSup sp' c' t' ch' ns' ∈ vs → k ∈ kids vs ns' →
  coupled (passed_on vs ns ph t p t') (passed_on vs ns ph t p (v_task k)).
Proof.
  intros Ht Hv Hph Hpc Hs Hin. pose proof (tr_coupled _ _ _ _ Ht _ _ _ _ _ _ Hs Hin) as Hc.
  apply elem_of_kids in Hin as Hin'. destruct Hin' as [Hkv Hkp].
  destruct (decide (t' = t)) as [->|Hne].
  { assert (VSup sp' c' t ch' ns' = VSup sp c t ch ns) as [= -> -> -> ->] by (by apply (v_task_inj vs); [apply Ht|..]).
    destruct (passed_on_kid vs root s ph sp c t ch ns p k) as [_ ->]; try done. rewrite passed_on_self.
    destruct Hpc as [->|[_ E]]; [done|]. rewrite E in Hin. by apply elem_of_nil in Hin. }
  assert (ns' ≠ ns) as Hns by (intros ->; apply Hne; by eapply (tr_unique _ _ _ _ Ht)).
  assert (v_task k ≠ t → passed_on vs ns ph t p (v_task k) = ph (v_task k)) as Hk.
  { intros Hkt. apply (passed_on_same vs root s); try done. by rewrite Hkp. }
  destruct (decide (sp' = ns)) as [->|Hsp].
  - assert (VSup ns c' t' ch' ns' ∈ kids vs ns) as Hsk by (by apply elem_of_kids).
    pose proof (tr_coupled _ _ _ _ Ht _ _ _ _ _ _ Hv Hsk) as Hc0. rewrite Hph in Hc0. simpl in Hc0. rewrite Hc0 in Hc.
    destruct (passed_on_kid vs root s ph sp c t ch ns p _ Ht Hv Hsk) as [_ Ek]. simpl in Ek. rewrite Ek Hk //.
    intros E. by rewrite E Hph in Hc.
  - pose proof (passed_on_same vs root s ph ns t p _ Ht Hs Hne Hsp) as Es. simpl in Es. rewrite Es.
    destruct (decide (v_task k = t)) as [E|Hkt]; [|by rewrite Hk].
    rewrite E passed_on_self. rewrite E Hph in Hc. destruct (ph t'); try done. destruct Hpc as [->|[-> _]]; done.
Qed.

Lemma tree_pass_on vs root s ph s' sp c t ch ns p :
  tree vs root s ph → VSup sp c t ch ns ∈ vs → ph t = VAsked → tree_frame vs s s' →
  (∀ x, x ∈ all_tids vs → x ≠ t → x ∉ all_tids (kids vs ns) → tasks s' !! x = tasks s !! x) →
  (∀ k, k ∈ kids vs ns → v_in vs s' k VAsked) → sup_in sp c t ns (v_task <$> kids vs ns) s' p →
  p = VHalf ∨ p = VGone ∧ kids vs ns = [] →
  tree vs root s' (passed_on vs ns ph t p).
Proof.
  intros Ht Hv Hph Hf Hoth Hk Hp Hpc. pose proof (tr_nodup _ _ _ _ Ht) as Hnd.
  apply (tree_advance vs root s ph); [done|done| |intros; by eapply passed_on_coupled].
  intros w Hw. destruct (decide (v_task w = t)) as [E|Hne].
  { assert (w = VSup sp c t ch ns) as -> by (by apply (v_task_inj vs)). simpl. by rewrite passed_on_self. }
  destruct (decide (v_parent w = ns)) as [Hwp|Hwp].
  { assert (w ∈ kids vs ns) as Hin by (by apply elem_of_kids).
    destruct (passed_on_kid vs root s ph sp c t ch ns p w Ht Hv Hin) as [_ ->]. by apply Hk. }
  rewrite (passed_on_same vs root s) //.
  eapply v_in_other; [exact Hf| |by apply Ht]. intros x Hx. apply Hoth; [by eapply v_tids_all| |].
  - intros ->. apply Hne. assert (w = VSup sp c t ch ns) as ->; [|done]. apply (all_tids_inj vs _ _ t); try done. by left.
  - intros (k & [Hkv Hkp]%elem_of_kids & Hxk)%elem_of_all_tids. apply Hwp. rewrite -Hkp. f_equal. by apply (all_tids_inj vs _ _ x).
Qed.

(** A turn that brings the tree further. *)
Definition gains (vs : list vertex) (root : sid) (u : turn) (s : st) (ph : tid → vphase) : Prop :=
  ∃ s' ph', run_turn u s = (inr tt, s') ∧ tree_frame vs s s' ∧ tree vs root s' ph' ∧
    (∀ v, v ∈ vs → phase_weight (ph' (v_task v)) ≤ phase_weight (ph (v_task v))) ∧
    ∃ v, v ∈ vs ∧ phase_weight (ph' (v_task v)) < phase_weight (ph (v_task v)).

Lemma gains_move vs root u s ph s' v p :
  tree vs root s ph → v ∈ vs → run_turn u s = (inr tt, s') → stop_frame (v_tids v) (v_names v) s s' → v_in vs s' v p →
  ph (v_task v) = VAsked ∧ p = VHalf ∨ ph (v_task v) = VHalf ∧ p = VGone →
  match v with
  | VActor _ _ => True
  | VSup _ _ _ _ ns => ∀ k, k ∈ kids vs ns → coupled p (ph (v_task k))
  end →
  gains vs root u s ph.
Proof.
  intros Ht Hv Hr Hf Hp Hold Hk. assert (phase_weight p < phase_weight (ph (v_task v))) as Hlt.
  { by destruct Hold as [[-> ->]|[-> ->]]; simpl; lia. }
  exists s', (moved ph (v_task v) p). split_and!; [done|by eapply vertex_frame| | |].
  - eapply tree_move; try done; [|by destruct Hold as [[_ ->]|[_ ->]]]. naive_solver.
  - intros w _. unfold moved. case_bool_decide as E; [rewrite E; lia|lia].
  - exists v. by rewrite moved_eq.
Qed.

Lemma gains_driver vs root u s ph sp a :
  tree vs root s ph → VActor sp a ∈ vs → tu_task u = m_d a → ph (m_t a) = VAsked → lets_through (m_cur a) (tu_handler u) →
  gains vs root u s ph.
Proof.
  intros Ht Hv Hu Hph Hl. pose proof (tr_phase _ _ _ _ Ht _ Hv) as Hp. simpl in Hp. rewrite Hph in Hp.
  pose proof (v_tids_NoDup vs _ (tr_nodup _ _ _ _ Ht) Hv) as Hnd.
  assert (m_t a ≠ m_d a) as Hne by (simpl in Hnd; apply list.NoDup_cons in Hnd as [Hnd _]; set_solver).
  destruct (turn_driver [a] a u s sp) as (s' & Hr & Hf & Ht' & _ & _); try done; [by left|].
  apply (gains_move vs root u s ph s' (VActor sp a) VHalf); try done; [|by left].
  simpl. rewrite Ht' lookup_insert_eq lookup_insert_ne //. by destruct Hp as [-> _].
Qed.

Lemma gains_actor vs root u s ph sp a :
  tree vs root s ph → VActor sp a ∈ vs → tu_task u = m_t a → ph (m_t a) = VHalf → gains vs root u s ph.
Proof.
  intros Ht Hv Hu Hph. pose proof (tr_phase _ _ _ _ Ht _ Hv) as Hp. simpl in Hp. rewrite Hph in Hp.
  destruct (tr_fixed _ _ _ _ Ht _ Hv) as [F1 F2 F3 _]. simpl in F1, F2, F3.
  pose proof (v_tids_NoDup vs _ (tr_nodup _ _ _ _ Ht) Hv) as Hnd.
  assert (m_t a ≠ m_d a) as Hne by (simpl in Hnd; apply list.NoDup_cons in Hnd as [Hnd _]; set_solver).
  destruct (turn_task [a] a u s sp) as (s' & Hr & Hf & Ht' & Hm & Hl); try done; [by left|apply Ht|].
  apply (gains_move vs root u s ph s' (VActor sp a) VGone); try done; [|by right].
  simpl. rewrite Ht' lookup_insert_eq lookup_insert_ne // Hm Hl !lookup_delete_eq. by destruct Hp as [_ ->].
Qed.

(** A turn of a nested supervisor's task. *)
Lemma sup_turn u s sp c p w wk :
  tasks s !! tu_task u = Some (Task (CodeChild sp c p) w false None) → pending_wake s w = Some wk →
  run_turn u s = guard_task (tu_task u) (run_child (tu_task u) sp c p wk (tu_ctor u) (tu_now u)) s.
Proof.
  intros Ht Hw. unfold run_turn. cbn [bind]. rewrite (step_driver_none _ _ _ _ Ht); [right; by do 3 eexists|].
  by apply (step_child_run _ _ _ _ _ _ _ w).
Qed.

Lemma gains_half vs root u s ph sp c ch ns :
  tree vs root s ph → VSup sp c (tu_task u) ch ns ∈ vs → ph (tu_task u) = VHalf →
  (∀ k, k ∈ kids vs ns → ph (v_task k) = VGone) → gains vs root u s ph.
Proof.
  intros Ht Hv Hph Hk. pose proof (tr_phase _ _ _ _ Ht _ Hv) as Hp. simpl in Hp. rewrite Hph in Hp. simpl in Hp.
  destruct (tr_fixed _ _ _ _ Ht _ Hv) as [F1 _ _ _]. simpl in F1.
  pose proof (proj2 (kids_done _ _ _ _ ns Ht) Hk) as Hd.
  set (s' := s <| tasks ::= <[tu_task u := Task (CodeChild sp c PcSupShutdown) (WGather (v_task <$> kids vs ns) false) false (Some OCancelled)]> |>
               <| _actor_tasks ::= λ l, l ∖ {[tu_task u]} |>).
  assert (run_turn u s = (inr tt, s')) as Hr.
  { rewrite (sup_turn u s sp c _ _ WkOk Hp); [by rewrite /= Hd|]. unfold guard_task, run_child; simpl. by rewrite F1 (finish_spec _ _ _ _ Hp). }
  apply (gains_move vs root u s ph s' (VSup sp c (tu_task u) ch ns) VGone); try done; [| |by right].
  - split; try done; [|exists []; by rewrite app_nil_r]. simpl. intros t Hnt. rewrite lookup_insert_ne //. set_solver.
  - simpl. rewrite lookup_insert_eq. by do 2 eexists.
Qed.

Lemma tasks_of_vertices vs root s ph l :
  tree vs root s ph → (∀ v, v ∈ l → v ∈ vs) → tasks_of s (v_child <$> l) = v_task <$> l.
Proof.
  intros Ht. unfold tasks_of. induction l as [|v l IH]; intros Hl; [done|].
  rewrite !fmap_cons bind_cons IH; [intros w Hw; apply Hl; by right|].
  destruct (tr_fixed _ _ _ _ Ht v (Hl v ltac:(by left))) as [F1 F2 _ _]. by rewrite F1 /= F2.
Qed.

Lemma set_task_frame t tk s : stop_frame [t] [] s (s <| tasks ::= <[t := tk]> |>).
Proof. apply same_tasks_stop; [done|]. intros x Hx. simpl. rewrite lookup_insert_ne //. set_solver. Qed.

(** The turn in which a nested supervisor, whose children rest, passes the
    request on. *)
Lemma pass_on_turn vs root u s ph sp c ch ns :
  tree vs root s ph → VSup sp c (tu_task u) ch ns ∈ vs → ph (tu_task u) = VAsked →
  (∀ k, k ∈ kids vs ns → ph (v_task k) = VResting) → tu_task u ∉ all_tids (kids vs ns) →
  ∃ s1 s' tk p, run_turn u s = (inr tt, s') ∧ stop_frame (all_tids (kids vs ns)) [] s s1 ∧ stop_frame [tu_task u] [] s1 s' ∧
    (∀ k, k ∈ kids vs ns → v_in vs s1 k VAsked) ∧ tasks s' = <[tu_task u := tk]> (tasks s1) ∧
    sup_in sp c (tu_task u) ns (v_task <$> kids vs ns) s' p ∧ (p = VHalf ∨ p = VGone ∧ kids vs ns = []).
Proof.
  intros Ht Hv Hph Hrest Htk. set (t := tu_task u) in *.
  pose proof (tr_phase _ _ _ _ Ht _ Hv) as Hp. simpl in Hp. rewrite Hph in Hp. simpl in Hp.
  destruct (tr_fixed _ _ _ _ Ht _ Hv) as [F1 _ (Hlt & F3 & sup & Hs & _ & Hcs) _]. simpl in F1.
  assert (∀ k, k ∈ kids vs ns → k ∈ vs) as Hkv by (by intros k [? _]%elem_of_kids).
  destruct (cancel_vertices vs (kids vs ns) s) as (s1 & Hc & Hsame & Hk & Hoth).
  { apply all_tids_filter, Ht. }
  { intros k Hin. rewrite -(Hrest k Hin). by apply Ht, Hkv. }
  assert (tasks s1 !! t = Some (Task (CodeChild sp c PcSupWait) (WReady WkCancel) false None)) as Hp1 by (by rewrite Hoth).
  assert (run_turn u s = match v_task <$> kids vs ns with
                         | [] => finish t OCancelled s1
                         | ts => suspend t (CodeChild sp c PcSupShutdown) (WGather ts false) s1
                         end) as Hr.
  { rewrite (sup_turn u s sp c _ _ WkCancel Hp) //. unfold guard_task, run_child. cbn [try_except bind get]. rewrite F1 F3.
    unfold _shutdown_except. cbn [bind get]. rewrite Hs filter_every // Hcs (tasks_of_vertices _ _ _ _ _ Ht Hkv). fold t. cbn [bind].
    rewrite Hc. cbn [bind ret]. destruct (v_task <$> kids vs ns) as [|x xs].
    - by rewrite (finish_spec _ _ _ _ Hp1).
    - by rewrite (suspend_spec _ _ _ _ _ Hp1). }
  assert (stop_frame (all_tids (kids vs ns)) [] s s1) as Hf1 by (by apply same_tasks_stop).
  destruct (kids vs ns) as [|k ks] eqn:Ek.
  - rewrite fmap_nil (finish_spec _ _ _ _ Hp1) in Hr. eexists s1, _, _, VGone. split_and!; [exact Hr|done| |done|done| |by right].
    + by destruct (set_task_frame t (Task (CodeChild sp c PcSupWait) (WReady WkCancel) false (Some OCancelled)) s1).
    + simpl. rewrite lookup_insert_eq. by do 2 eexists.
  - rewrite fmap_cons (suspend_spec _ _ _ _ _ Hp1) // in Hr. eexists s1, _, _, VHalf.
    split_and!; [exact Hr|done|apply set_task_frame|done|done| |by left]. simpl. by rewrite lookup_insert_eq.
Qed.

Lemma gains_asked vs root u s ph sp c ch ns :
  tree vs root s ph → VSup sp c (tu_task u) ch ns ∈ vs → ph (tu_task u) = VAsked → gains vs root u s ph.
Proof.
  intros Ht Hv Hph.
  assert (∀ k, k ∈ kids vs ns → ph (v_task k) = VResting) as Hrest.
  { intros k Hin. pose proof (tr_coupled _ _ _ _ Ht _ _ _ _ _ _ Hv Hin) as Hc. by rewrite Hph in Hc. }
  assert (tu_task u ∉ all_tids (kids vs ns)) as Htk.
  { intros (k & Hin & Htk)%elem_of_all_tids. assert (VSup sp c (tu_task u) ch ns = k) as <-.
    { apply elem_of_kids in Hin as [? _]. apply (all_tids_inj vs _ _ (tu_task u)); [apply Ht|done|done|by left|done]. }
    specialize (Hrest _ Hin). simpl in Hrest. congruence. }
  destruct (pass_on_turn vs root u s ph sp c ch ns) as (s1 & s' & tk & p & Hr & Hf1 & Hf2 & Hk & Htk' & Hp & Hpc); try done.
  assert (all_tids (kids vs ns) ⊆ all_tids vs ∧ [tu_task u] ⊆ all_tids vs) as [Hsub1 Hsub2].
  { split; intros x; [intros (k & [Hk' _]%elem_of_kids & Hx)%elem_of_all_tids; by eapply v_tids_all|].
    intros ->%list_elem_of_singleton. eapply v_tids_all; [exact Hv|by left]. }
  assert (tree_frame vs s s') as Hf.
  { trans s1; eapply stop_frame_weaken; try done; set_solver. }
  exists s', (passed_on vs ns ph (tu_task u) p). split_and!; [done|done| | |].
  - apply (tree_pass_on vs root s ph s' sp c _ ch); try done.
    + intros x Hx Hxt Hxk. rewrite Htk' lookup_insert_ne //. by apply Hf1.
    + intros k Hin. eapply v_in_other; [exact Hf2| |by apply Hk]. intros x Hx. rewrite Htk' lookup_insert_ne //.
      intros <-. apply Htk, elem_of_all_tids. eauto.
  - intros w Hw. destruct (decide (v_task w = tu_task u)) as [E|Hne].
    + rewrite E passed_on_self Hph. destruct Hpc as [->|[-> _]]; simpl; lia.
    + destruct (decide (v_parent w = ns)) as [Hwp|Hwp]; [|by rewrite (passed_on_same vs root s)].
      assert (w ∈ kids vs ns) as Hin by (by apply elem_of_kids).
      destruct (passed_on_kid vs root s ph sp c _ ch ns p w Ht Hv Hin) as [_ ->]. rewrite (Hrest w Hin). simpl. lia.
  - eexists. split; [exact Hv|]. simpl. rewrite passed_on_self Hph. destruct Hpc as [->|[-> _]]; simpl; lia.
Qed.

(** Every turn brings the tree further, or the task was not woken. *)
Lemma woken_gains vs root u s ph : tree vs root s ph → yields vs u → woken s (tu_task u) = true → gains vs root u s ph.
Proof.
  intros Ht [Hin Hl] Hw. destruct (woken_cases vs root s ph _ Ht Hin Hw) as [sp a Hv E Hph|sp a Hv E Hph|sp c ch ns Hv Hph|sp c ch ns Hv Hph Hk].
  - by eapply gains_driver; eauto.
  - by eapply gains_actor; eauto.
  - by eapply gains_asked.
  - by eapply gains_half.
Qed.

(** ** No deadlock *)

(** Above a vertex that rests there is a supervisor that was asked. *)
Lemma asked_above vs root s ph : tree vs root s ph → (∀ v, v ∈ kids vs root → ph (v_task v) ≠ VResting) →
  ∀ n v, v ∈ vs → v_parent v ≤ n → ph (v_task v) = VResting → ∃ t, t ∈ all_tids vs ∧ woken s t = true.
Proof.
  intros Ht Hroot. induction n as [|n IH]; intros v Hv Hn Hr.
  all: destruct (vf_parent _ _ _ _ (tr_fixed _ _ _ _ Ht v Hv)) as [Hp|(sp & c & t & ch & Hw)];
    [by destruct (Hroot v); [apply elem_of_kids|]|].
  all: destruct (vf_kind _ _ _ _ (tr_fixed _ _ _ _ Ht _ Hw)) as [Hlt _]; [try lia].
  assert (v ∈ kids vs (v_parent v)) as Hin by (by apply elem_of_kids).
  pose proof (tr_coupled _ _ _ _ Ht _ _ _ _ _ _ Hw Hin) as Hc. rewrite Hr in Hc. destruct (ph t) eqn:Ept; try done.
  - apply (IH _ Hw); [simpl; lia|done].
  - exists t. split; [eapply v_tids_all; [exact Hw|by left]|]. pose proof (tr_phase _ _ _ _ Ht _ Hw) as Hp. simpl in Hp.
    rewrite Ept in Hp. simpl in Hp. unfold woken. by rewrite Hp.
Qed.

(** Below a vertex that was asked and is not gone there is a task that was
    woken. *)
Lemma woken_below vs root s ph B : tree vs root s ph → (∀ sp c t ch ns, VSup sp c t ch ns ∈ vs → ns < B) →
  ∀ n v, v ∈ vs → B - v_parent v ≤ n → ph (v_task v) ≠ VResting → ph (v_task v) ≠ VGone →
  ∃ t, t ∈ all_tids vs ∧ woken s t = true.
Proof.
  intros Ht HB. induction n as [|n IH]; intros v Hv Hn Hr Hg.
  all: pose proof (tr_phase _ _ _ _ Ht v Hv) as Hp; destruct v as [sp a|sp c t ch ns]; simpl in Hp, Hn, Hr, Hg.
  all: try by (destruct (ph (m_t a)); [done| | |done]; simpl in Hp; destruct Hp as [Hp1 Hp2];
    [exists (m_d a); split; [eapply v_tids_all; [exact Hv|by right; left]|]; unfold woken; by rewrite Hp2
    |exists (m_t a); split; [eapply v_tids_all; [exact Hv|by left]|]; unfold woken; by rewrite Hp1 /= Hp2]).
  all: specialize (HB _ _ _ _ _ Hv); destruct (vf_kind _ _ _ _ (tr_fixed _ _ _ _ Ht _ Hv)) as [Hlt _]; [try lia].
  assert (t ∈ all_tids vs) as Htin by (eapply v_tids_all; [exact Hv|by left]).
  destruct (ph t) eqn:Ept; [done| | |done]; simpl in Hp.
  - exists t. split; [done|]. unfold woken. by rewrite Hp.
  - destruct (forallb (task_done s) (v_task <$> kids vs ns)) eqn:Hd.
    { exists t. split; [done|]. unfold woken. by rewrite Hp /= Hd. }
    assert (∃ k, k ∈ kids vs ns ∧ ph (v_task k) ≠ VGone) as (k & Hin & Hk).
    { apply not_true_iff_false in Hd. rewrite (kids_done _ _ _ _ _ Ht) in Hd.
      destruct (decide (Exists (λ k, ph (v_task k) ≠ VGone) (kids vs ns))) as [He|He].
      - by apply list.Exists_exists in He as (k & ? & ?); exists k.
      - exfalso. apply Hd. intros k Hin. destruct (decide (ph (v_task k) = VGone)); [done|]. exfalso. apply He.
        apply list.Exists_exists. by exists k. }
    pose proof (tr_coupled _ _ _ _ Ht _ _ _ _ _ _ Hv Hin) as Hc. rewrite Ept in Hc. apply elem_of_kids in Hin as [Hkv Hkp].
    apply (IH k Hkv); [rewrite Hkp; lia|done|done].
Qed.

Lemma tree_progress vs root s ph :
  tree vs root s ph → (∀ v, v ∈ kids vs root → ph (v_task v) ≠ VResting) → tree_weight vs ph ≠ 0 →
  ∃ t, t ∈ all_tids vs ∧ woken s t = true.
Proof.
  intros Ht Hroot Hw. assert (∃ v, v ∈ vs ∧ ph (v_task v) ≠ VGone) as (v & Hv & Hg).
  { unfold tree_weight in Hw. clear -Hw. induction vs as [|v vs IH]; [done|]. simpl in Hw.
    destruct (decide (ph (v_task v) = VGone)) as [E|E]; [|exists v; split; [by left|done]].
    rewrite E /= in Hw. destruct (IH Hw) as (w & ? & ?). exists w. split; [by right|done]. }
  destruct (decide (ph (v_task v) = VResting)) as [Hr|Hr]; [by eapply asked_above|].
  set (B := S (sum_list_with (λ v, match v with VSup _ _ _ _ ns => ns | VActor _ _ => 0 end) vs)).
  apply (woken_below vs root s ph B) with (n := B - v_parent v) (v := v); try done.
  intros sp c t ch ns Hs. pose proof (sum_list_with_in _ (λ v, match v with VSup _ _ _ _ ns => ns | VActor _ _ => 0 end) _ Hs) as H.
  simpl in H. unfold B. lia.
Qed.

(** ** Rounds *)

Lemma sum_list_le {A} (f g : A → nat) l : (∀ x, x ∈ l → f x ≤ g x) → sum_list_with f l ≤ sum_list_with g l.
Proof.
  induction l as [|x l IH]; intros H; [done|]. simpl. pose proof (H x ltac:(by left)).
  assert (sum_list_with f l ≤ sum_list_with g l) by (apply IH; intros y Hy; apply H; by right). lia.
Qed.

Lemma sum_list_lt {A} (f g : A → nat) l :
  (∀ x, x ∈ l → f x ≤ g x) → (∃ x, x ∈ l ∧ f x < g x) → sum_list_with f l < sum_list_with g l.
Proof.
  induction l as [|x l IH]; intros H (y & Hy & Hlt); [by apply elem_of_nil in Hy|]. simpl.
  assert (∀ z, z ∈ l → f z ≤ g z) as Hl by (intros z Hz; apply H; by right).
  apply elem_of_cons in Hy as [->|Hy].
  - pose proof (sum_list_le f g l Hl). lia.
  - pose proof (H x ltac:(by left)). assert (sum_list_with f l < sum_list_with g l) by (apply IH; eauto). lia.
Qed.

(** Turns in whatever order: the tree is further, or none of the tasks was
    woken. *)
Lemma loop_turns vs root us : ∀ s ph,
  tree vs root s ph → Forall (yields vs) us →
  ∃ s' ph', for_each us loop_turn s = (inr tt, s') ∧ tree_frame vs s s' ∧ tree vs root s' ph' ∧
    (∀ v, v ∈ vs → phase_weight (ph' (v_task v)) ≤ phase_weight (ph (v_task v))) ∧
    ((∀ u, u ∈ us → woken s (tu_task u) = false) ∨ tree_weight vs ph' < tree_weight vs ph).
Proof.
  induction us as [|u us IH]; intros s ph Ht Hus.
  { exists s, ph. split_and!; try done. left. by intros u ?%elem_of_nil. }
  apply list.Forall_cons in Hus as [Hu Hus]. destruct (woken s (tu_task u)) eqn:Hw.
  - destruct (woken_gains vs root u s ph Ht Hu Hw) as (s1 & ph1 & Hr & Hf & Ht1 & Hle & Hlt).
    destruct (IH s1 ph1 Ht1 Hus) as (s2 & ph2 & Hr2 & Hf2 & Ht2 & Hle2 & _).
    exists s2, ph2. split_and!; [|by trans s1|done| |].
    + cbn [for_each bind]. unfold loop_turn at 1. cbn [bind get]. by rewrite Hw Hr.
    + intros v Hv. specialize (Hle v Hv). specialize (Hle2 v Hv). lia.
    + right. apply (Nat.le_lt_trans _ (tree_weight vs ph1)); [by apply sum_list_le|by apply sum_list_lt].
  - destruct (IH s ph Ht Hus) as (s2 & ph2 & Hr2 & Hf2 & Ht2 & Hle2 & Hcase). exists s2, ph2. split_and!; try done.
    + cbn [for_each bind]. unfold loop_turn at 1. cbn [bind get]. by rewrite Hw.
    + destruct Hcase as [Hno|Hlt]; [left|by right]. intros u' [->|Hu']%elem_of_cons; auto.
Qed.

(** A round gives every task of the tree a turn. *)
Definition round (vs : list vertex) (us : list turn) : Prop :=
  Forall (yields vs) us ∧ ∀ t, t ∈ all_tids vs → t ∈ tu_task <$> us.

Lemma rounds_stop vs root rs : ∀ s ph,
  tree vs root s ph → (∀ v, v ∈ kids vs root → ph (v_task v) ≠ VResting) → Forall (round vs) rs → tree_weight vs ph ≤ length rs →
  ∃ s' ph', for_each (concat rs) loop_turn s = (inr tt, s') ∧ tree_frame vs s s' ∧ tree vs root s' ph' ∧ tree_weight vs ph' = 0.
Proof.
  induction rs as [|us rs IH]; intros s ph Ht Hroot Hrs Hlen.
  { exists s, ph. split_and!; try done. simpl in Hlen. lia. }
  apply list.Forall_cons in Hrs as [[Hus Hall] Hrs].
  destruct (loop_turns vs root us s ph Ht Hus) as (s1 & ph1 & Hr1 & Hf1 & Ht1 & Hle & Hcase).
  assert (tree_weight vs ph1 ≤ tree_weight vs ph) as Hmono by (by apply sum_list_le).
  destruct (IH s1 ph1 Ht1) as (s2 & ph2 & Hr2 & Hf2 & Ht2 & Hw2); [|done| |].
  - intros v Hv E. apply (Hroot v Hv). apply elem_of_kids in Hv as [Hv _]. specialize (Hle v Hv). rewrite E in Hle.
    destruct (ph (v_task v)); simpl in Hle; [done|lia..].
  - destruct Hcase as [Hno|Hlt]; [|simpl in Hlen; lia].
    destruct (decide (tree_weight vs ph = 0)) as [E|E]; [simpl in Hlen; lia|].
    destruct (tree_progress vs root s ph Ht Hroot E) as (t & Hin & Hw).
    apply Hall, list_elem_of_fmap in Hin as (u & -> & Hu). by rewrite Hno in Hw.
  - exists s2, ph2. split_and!; [|by trans s1|done|done]. simpl. rewrite for_each_app. cbn [bind]. by rewrite Hr1.
Qed.

Lemma tree_over vs root s ph v : tree vs root s ph → tree_weight vs ph = 0 → v ∈ vs → v_in vs s v VGone.
Proof.
  intros Ht Hw Hv. pose proof (tr_phase _ _ _ _ Ht v Hv) as Hp.
  pose proof (sum_list_with_in _ (λ v, phase_weight (ph (v_task v))) _ Hv) as H. unfold tree_weight in Hw. rewrite Hw in H.
  destruct (ph (v_task v)); simpl in H; [lia..|done].
Qed.

Lemma tree_weight_bound vs ph : tree_weight vs ph ≤ 3 * length vs.
Proof.
  unfold tree_weight. induction vs as [|v vs IH]; [done|]. simpl.
  assert (phase_weight (ph (v_task v)) ≤ 3) by (destruct (ph (v_task v)); simpl; lia). lia.
Qed.

(** The children of the root have been asked, and nobody below. *)
Lemma tree_asked vs root s s' :
  tree vs root s (λ _, VResting) → tree_frame vs s s' →
  (∀ x, x ∉ all_tids (kids vs root) → tasks s' !! x = tasks s !! x) → (∀ k, k ∈ kids vs root → v_in vs s' k VAsked) →
  tree vs root s' (λ t, if bool_decide (t ∈ v_task <$> kids vs root) then VAsked else VResting).
Proof.
  intros Ht Hf Hoth Hk. pose proof (tr_nodup _ _ _ _ Ht) as Hnd.
  assert (∀ w, w ∈ vs → (v_task w ∈ v_task <$> kids vs root) ↔ v_parent w = root) as Hiff.
  { intros w Hw. rewrite list_elem_of_fmap. split.
    - intros (k & E & [Hkv Hkp]%elem_of_kids). by apply (v_task_inj vs) in E as ->.
    - intros Hp. exists w. split; [done|]. by apply elem_of_kids. }
  apply (tree_advance vs root s (λ _, VResting)); [done|done| |].
  - intros w Hw. case_bool_decide as Hin; rewrite Hiff // in Hin; [by apply Hk, elem_of_kids|].
    eapply v_in_other; [exact Hf| |by apply Ht]. intros x Hx. apply Hoth. intros (k & [Hkv Hkp]%elem_of_kids & Hxk)%elem_of_all_tids.
    apply Hin. rewrite -Hkp. f_equal. by apply (all_tids_inj vs _ _ x).
  - intros sp c t ch ns k Hs [Hkv Hkp]%elem_of_kids. rewrite (bool_decide_eq_false_2 (v_task k ∈ _)); [|by case_bool_decide].
    rewrite Hiff // Hkp. intros ->. by eapply (tr_root _ _ _ _ Ht).
Qed.

(** (C13) Shutting a tree of supervisors down ends.  Let the vertices [vs] be the
    children of [root] and everything below them, all at rest: the actors wait
    for mail or inside handlers that let [CancelledError] through, and the
    nested supervisors for one of their own to give up.  After [shutdown()],
    let the loop run in rounds, each of which gives every task of the tree a
    turn, in whatever order and as often as it likes, if it was woken; a task
    that rests is woken by nothing but the request.  After three rounds per
    vertex all of them have ended by cancellation, children before their
    supervisors, and [shutdown()] returns: every name is free again and no
    longer live, nothing was restarted, charged to a budget or reported, no
    mailbox lost a message, and no other task or name was touched. *)
Theorem tree_shutdown_completes root vs sup s rs :
  tree vs root s (λ _, VResting) → sups s !! root = Some sup → s_children sup = v_child <$> kids vs root →
  Forall (round vs) rs → 3 * length vs ≤ length rs →
  let s' := exec (shutdown root ;; for_each (concat rs) loop_turn) s in
  forallb (task_done s') (tasks_of s (s_children sup)) = true ∧
  (∀ v, v ∈ vs → t_out <$> tasks s' !! v_task v = Some (Some OCancelled)) ∧
  (∀ sp a, VActor sp a ∈ vs → _mailboxes s' !! m_name a = None ∧ _live_children s' !! m_name a = None) ∧
  stop_frame (all_tids vs) (all_names vs) s s'.
Proof.
  intros Ht Hsup Hcs Hrs Hlen s'. assert (∀ k, k ∈ kids vs root → k ∈ vs) as Hkv by (by intros k [? _]%elem_of_kids).
  destruct (cancel_vertices vs (kids vs root) s) as (s1 & Hc & Hsame & Hk & Hoth).
  { apply all_tids_filter, Ht. }
  { intros k Hin. by apply (tr_phase _ _ _ _ Ht), Hkv. }
  pose proof (tasks_of_vertices _ _ _ _ _ Ht Hkv) as Hts.
  set (ph := λ t, if bool_decide (t ∈ v_task <$> kids vs root) then VAsked else VResting).
  assert (tree_frame vs s s1) as Hf1.
  { apply same_tasks_stop; [done|]. intros t Hn. apply Hoth. intros (k & Hin & Htk)%elem_of_all_tids. apply Hn.
    by eapply v_tids_all; [apply Hkv|]. }
  assert (tree vs root s1 ph) as Ht1 by (by eapply tree_asked).
  destruct (rounds_stop vs root rs s1 ph) as (s2 & ph2 & Hr & Hf2 & Ht2 & Hw); try done.
  { intros v Hv. unfold ph. rewrite bool_decide_eq_true_2 //. apply list_elem_of_fmap. eauto. }
  { etrans; [apply tree_weight_bound|exact Hlen]. }
  assert (s' = s2) as ->.
  { unfold s', shutdown, _shutdown_except. cbn [exec bind get]. rewrite Hsup filter_every // Hcs Hts. cbn [bind]. by rewrite Hc /= Hr. }
  assert (∀ v, v ∈ vs → t_out <$> tasks s2 !! v_task v = Some (Some OCancelled)) as Hout.
  { intros v Hv. pose proof (tree_over _ _ _ _ v Ht2 Hw Hv) as Hg. destruct v; simpl in *; [by destruct Hg as [-> _]|by destruct Hg as (? & ? & ->)]. }
  split_and!; [|done| |by trans s1].
  - rewrite Hcs Hts. apply Is_true_eq_true, forallb_True, list.Forall_forall. intros t (k & -> & Hin)%list_elem_of_fmap.
    by rewrite (v_done vs _ _ VGone (tree_over _ _ _ _ _ Ht2 Hw (Hkv k Hin))).
  - intros sp a Hv. pose proof (tree_over _ _ _ _ _ Ht2 Hw Hv) as (_ & _ & Hg). done.
Qed.

End tree.
