(* ===== verification/SupervisorGaps.v ===== *)
(** * Where the supervisor does less than its documentation says

    Five behaviours of [src/lapinbeam/supervisor.py] that follow from the
    order of its steps: an actor stopped while it waits out its back-off is
    never reported to those linked to it; a restart that finds its name taken
    takes the name away from the actor that now has it; an exit signal that
    arrives between a shutdown request and the end of the driver turns the
    shutdown into a restart; a subtree whose [build] raises half way leaves
    behind what it had spawned; and one whose strategy does not exist ends
    without anybody being told. *)

From S2P Require Import Prelude Values NodeId Actors State PeerEvents Asyncio Node NodeProps Links.
From S2P Require Import Supervisor SupervisorProps.

Section gaps.
Context {codec : PayloadCodec}.

(** Stopping an actor during its back-off ends its task and does
    nothing else: the exit and down signals owed to the links and watchers
    that the dying generation had (kept in [k] until then) are never
    scheduled. *)
Theorem backoff_cancel_silent s t sp c k ms ctor now ch :
  tasks s !! t = Some (Task (CodeChild sp c (PcBackoff k)) (WSleep ms) false None) →
  children s !! c = Some ch →
  (cancel t ;; step_child t ctor now) s =
  (inr tt, s <| tasks ::= <[t := Task (CodeChild sp c (PcBackoff k)) (WReady WkCancel) false (Some OCancelled)]> |>
             <| _actor_tasks ::= λ l, l ∖ {[t]} |>).
Proof.
  intros Ht Hch.
  set (tk := Task (CodeChild sp c (PcBackoff k)) (WReady WkCancel) false None).
  assert (cancel t s = (inr tt, s <| tasks ::= <[t := tk]> |>)) as Hc.
  { unfold cancel; simpl. rewrite Ht /= /upd_task /=. by rewrite (alter_present _ _ _ _ Ht). }
  cbn [bind]. rewrite Hc.
  rewrite (step_child_run _ _ _ _ sp c (PcBackoff k) (WReady WkCancel) WkCancel) //;
    [by rewrite /= lookup_insert_eq|].
  unfold guard_task, run_child; simpl. rewrite Hch /=.
  rewrite (alter_present _ t _ tk) /=; [by rewrite lookup_insert_eq|]. by rewrite insert_insert_eq.
Qed.

(** While an actor waits out its back-off its name is free, and another
    supervisor may spawn an actor under it.  The restart then fails to
    register, and its cleanup unregisters the name: the other actor, whose
    task and mailbox are untouched, can no longer be reached. *)
Theorem restart_evicts_namesake s t sp c k ms now ch cls meta q q' sup sup' :
  running s → children s !! c = Some ch → ch_kind ch = ActorChild cls meta q →
  tasks s !! t = Some (Task (CodeChild sp c (PcBackoff k)) (WSleep ms) false None) →
  sups s !! sp = Some sup → swept sup c = inr [] → _allow_restart now sup = (true, sup') →
  _mailboxes s !! ch_name ch = Some q' → q' ≠ q →
  let r := (fire_timer t ;; step_child t None now) s in
  r.1 = inr tt ∧ _mailboxes r.2 = delete (ch_name ch) (_mailboxes s) ∧
  _live_children r.2 = delete (ch_name ch) (_live_children s) ∧
  (∀ t', t' ≠ t → tasks r.2 !! t' = tasks s !! t') ∧ queues r.2 = queues s.
Proof.
  intros Hrun Hch Hk Ht Hs Hsw Ha Hm Hne r.
  set (tk := Task (CodeChild sp c (PcBackoff k)) (WReady WkOk) false None).
  assert (fire_timer t s = (inr tt, s <| tasks ::= <[t := tk]> |>)) as Hf.
  { unfold fire_timer, upd_task; simpl. by rewrite (alter_present _ _ _ _ Ht). }
  assert (r = (fire_timer t ;; step_child t None now) s) as Hr by done.
  cbn [bind] in Hr. rewrite Hf in Hr. set (s1 := s <| tasks ::= <[t := tk]> |>) in Hr.
  assert (tasks s1 !! t = Some tk) as Ht1 by by rewrite /s1 /= lookup_insert_eq.
  assert (∃ e, register_actor (ch_name ch) q s1 = (inl e, s1)) as [e Hreg].
  { destruct Hrun as (co & Hco & _). unfold register_actor; simpl. rewrite Hco Hm.
    rewrite bool_decide_eq_true_2 //. by eexists. }
  rewrite (step_child_run _ _ _ s1 sp c (PcBackoff k) (WReady WkOk) WkOk) // in Hr.
  rewrite /guard_task /run_child /= Hch Hs in Hr. unfold swept in Hsw.
  destruct (_affected_children sup c) as [|l]; [done|]. injection Hsw as Hl.
  rewrite /= Hl /restart_group /= /child_head /= Hch Hk /actor_head /= Hreg /actor_crashed /= in Hr.
  rewrite cleanup_generation_spec // /= in Hr.
  rewrite (handle_crash_granted _ _ _ _ _ _ _ sup sup' tk) //= in Hr.
  rewrite Hr; simpl. split_and!; try done. intros t' Ht'. by rewrite !lookup_insert_ne.
Qed.

(** The exit signal that reaches an actor whose driver is already doomed. *)
Lemma deliver_exit_doomed from name reason s c ch d cur :
  default false (_trap_exit s !! name) = false →
  _live_children s !! name = Some c → children s !! c = Some ch → ch_driver ch = Some d →
  tasks s !! d = Some (Task (CodeDrive c cur) (WReady WkCancel) false None) →
  _deliver_exit from name reason s =
  (inr tt, s <| children ::= <[c := ch <| ch_pending_exit := Some (link_exit_exn from reason) |>]> |>
             <| tasks ::= <[d := Task (CodeDrive c cur) (WReady WkCancel) true None]> |>).
Proof.
  intros Htrap Hlive Hch Hdr Hd.
  rewrite (deliver_exit_kill _ _ _ _ c ch d) //; [by rewrite /task_done Hd|].
  rewrite (cancel_scheduled _ _ (Task (CodeDrive c cur) (WReady WkCancel) false None) WkCancel) //=.
  by rewrite (alter_present _ _ _ _ Hch).
Qed.

(** The child's task, after its driver ended cancelled with an exit pending. *)
Lemma link_kill_granted s t sp c d ch e sup sup' ctor now :
  running s → children s !! c = Some ch → ch_pending_exit ch = Some e →
  tasks s !! t = Some (Task (CodeChild sp c PcAwaitDriver) (WTask d) false None) →
  tasks s !! d ≫= t_out = Some OCancelled →
  sups s !! sp = Some sup → _allow_restart now sup = (true, sup') →
  let r := step_child t ctor now s in
  r.1 = inr tt ∧
  tasks r.2 !! t = Some (Task (CodeChild sp c (PcBackoff (crash_of s (ch_name ch) e)))
                              (WSleep (_backoff sup')) false None).
Proof.
  intros Hrun Hch Hp Ht Hd Hs Ha r. unfold r.
  destruct (tasks s !! d) as [dk|] eqn:Edk; [|done].
  rewrite (crash_reaches_handler _ sp c _ _ _ d ch e) //.
  { exists dk. split; [done|]. by right. }
  rewrite /guard_task /= (handle_crash_granted _ _ _ _ _ _ _ sup sup'
    (Task (CodeChild sp c PcAwaitDriver) (WTask d) false None)) //=.
  by rewrite lookup_insert_eq.
Qed.

(** (C38) A shutdown undone.  An actor at rest is asked to stop; before its driver
    had its turn, the exit signal of a linked actor arrives.  When driver and
    task have had their turns, the task has not ended: it is waiting to
    restart the actor, although it was told to stop; whoever awaits it (a
    [shutdown], a [Node.stop]) waits on. *)
Theorem shutdown_undone_by_exit s sp c t d ch cur sup sup' from reason h ctor now :
  idle s sp c t d ch cur → lets_through cur h → ch_driver ch = Some d →
  _live_children s !! ch_name ch = Some c →
  default false (_trap_exit s !! ch_name ch) = false →
  sups s !! sp = Some sup → _allow_restart now sup = (true, sup') →
  let r := (cancel_child c ;; _deliver_exit from (ch_name ch) reason ;;
            step_driver d h ;; step_child t ctor now) s in
  r.1 = inr tt ∧
  ∃ k, k_exn k = link_exit_exn from reason ∧
    tasks r.2 !! t = Some (Task (CodeChild sp c (PcBackoff k)) (WSleep (_backoff sup')) false None).
Proof.
  intros Hi Hh Hdr Hlive Htrap Hs Ha. pose proof (idle_ne _ _ _ _ _ _ _ Hi) as Hne. cbn [bind].
  rewrite (cancel_child_idle _ sp c t d ch cur Hi). destruct Hi as [Hrun Hch Htk Ht Hd].
  rewrite (deliver_exit_doomed _ _ _ _ c ch d cur) //; [by rewrite /= lookup_insert_eq|].
  rewrite (step_driver_cancelled _ _ _ c cur true); [done|by rewrite /= lookup_insert_eq|].
  match goal with |- context [step_child t ctor now ?s'] =>
    pose proof (link_kill_granted s' t sp c d
      (ch <| ch_pending_exit := Some (link_exit_exn from reason) |>)
      (link_exit_exn from reason) sup sup' ctor now) as H
  end.
  destruct H as [H1 H2]; try done.
  - by rewrite /= lookup_insert_eq.
  - by rewrite /= !lookup_insert_ne.
  - by rewrite /= lookup_insert_eq.
  - split; [exact H1|]. eexists; split; [|exact H2]. done.
Qed.

(** One turn of a subtree's task whose [build] spawns an actor and then raises:
    the supervisor it built is dropped as it is. *)
Lemma build_raises t sp c ctor now s ch cls meta e ops name strat max window sup sup' :
  check_strategy name = inr strat → running s → children s !! c = Some ch → c < next_id s → sp < next_id s → t < next_id s →
  ch_kind ch = SupervisorChild (BSpawn cls meta :: BRaise e :: ops) name max window →
  tasks s !! t = Some (Task (CodeChild sp c PcStart) (WReady WkOk) false None) →
  sups s !! sp = Some sup → _allow_restart now sup = (true, sup') →
  _mailboxes s !! actor_name meta = None →
  let N := next_id s in
  let s1 := spawned N cls meta
              (s <| sups ::= <[N := fresh_supervisor strat max window]> |>
                 <| children ::= <[c := ch <| ch_supervisor := Some N |>]> |> <| next_id ::= S |>) in
  step_child t ctor now s =
  (inr tt, s1 <| sups ::= <[sp := sup']> |>
              <| tasks ::= <[t := Task (CodeChild sp c (PcBackoff (Crash e None None)))
                                       (WSleep (_backoff sup')) false None]> |>).
Proof.
  intros Hstr Hrun Hch Hc Hsp Ht' Hk Ht Hs Ha Hm N s1.
  rewrite (step_child_run _ _ _ s sp c PcStart (WReady WkOk) WkOk) //.
  unfold guard_task, run_child. cbn [try_except bind get]. rewrite Hch.
  unfold child_head. cbn [bind get]. rewrite Hch Hk.
  unfold supervisor_head, Supervisor_new, new_supervisor, upd_child. rewrite Hstr. cbn [bind get alloc modify ret lift].
  set (s0 := s <| next_id ::= S |> <| sups ::= <[N := fresh_supervisor strat max window]> |>
               <| children ::= alter (λ ch, ch <| ch_supervisor := Some N |>) c |>).
  assert (run_build N (BSpawn cls meta :: BRaise e :: ops) s0 = (inl e, spawned N cls meta s0)) as Hb.
  { cbn [run_build bind]. by rewrite spawn_free. }
  change (next_id s) with N. rewrite -/s0 Hb.
  assert (spawned N cls meta s0 = s1) as Hs1.
  { unfold s1, s0; simpl. by rewrite (alter_present _ _ _ _ Hch). }
  rewrite Hs1 (handle_crash_granted _ _ _ _ _ _ _ sup sup' (Task (CodeChild sp c PcStart) (WReady WkOk) false None)) //.
  - unfold s1; simpl. rewrite lookup_alter_ne; [|rewrite lookup_insert_ne //]; unfold N; lia.
  - unfold s1; simpl. rewrite lookup_insert_ne //. unfold N; lia.
Qed.

(** And the turn that builds it again, while the actor is still there. *)
Lemma rebuild_fails t sp c k ms ctor now s ch cls meta ops name strat max window sup sup' q :
  check_strategy name = inr strat → running s → children s !! c = Some ch → sp < next_id s → q < next_id s →
  ch_kind ch = SupervisorChild (BSpawn cls meta :: ops) name max window →
  tasks s !! t = Some (Task (CodeChild sp c (PcBackoff k)) (WSleep ms) false None) →
  sups s !! sp = Some sup → s_strategy sup = OneForOne → _allow_restart now sup = (true, sup') →
  _mailboxes s !! actor_name meta = Some q →
  let N := next_id s in
  let s' := exec (fire_timer t ;; step_child t ctor now) s in
  tasks s' = <[t := Task (CodeChild sp c (PcBackoff (Crash (already_taken (actor_name meta)) None None)))
                         (WSleep (_backoff sup')) false None]> (tasks s) ∧
  _mailboxes s' = _mailboxes s ∧ _live_children s' = _live_children s ∧
  children s' = <[c := ch <| ch_supervisor := Some N |>]> (children s) ∧
  (∀ sp', sp' ≠ sp → sp' < N → sups s' !! sp' = sups s !! sp').
Proof.
  intros Hstr Hrun Hch Hsp Hq Hk Ht Hs Hst Ha Hm N s'.
  set (X := Task (CodeChild sp c (PcBackoff k)) (WReady WkOk) false None).
  set (s0 := s <| tasks ::= <[t := X]> |>).
  set (s1 := s0 <| next_id ::= S |> <| sups ::= <[N := fresh_supervisor strat max window]> |>
                <| children ::= <[c := ch <| ch_supervisor := Some N |>]> |>).
  assert (fire_timer t s = (inr tt, s0)) as Hf.
  { unfold fire_timer, upd_task, s0; simpl. by rewrite (alter_present _ _ _ _ Ht). }
  assert (run_build N (BSpawn cls meta :: ops) s1 = (inl (already_taken (actor_name meta)),
    s1 <| queues ::= <[next_id s1 := Queue [] (capacity_or_0 (mailbox_capacity s1))]> |> <| next_id ::= S |>)) as Hb.
  { cbn [run_build bind]. rewrite (spawn_taken _ _ _ _ q) //. simpl. lia. }
  assert (child_head t sp c ctor now s0 = _handle_child_crash t sp c (ch_name ch)
    (Crash (already_taken (actor_name meta)) None None) now
    (s1 <| queues ::= <[next_id s1 := Queue [] (capacity_or_0 (mailbox_capacity s1))]> |> <| next_id ::= S |>)) as Hhead.
  { unfold child_head. cbn [bind get]. change (children s0) with (children s). rewrite Hch Hk.
    unfold supervisor_head, Supervisor_new, new_supervisor, upd_child. rewrite Hstr. cbn [bind get alloc modify ret lift].
    assert (s0 <| next_id ::= S |> <| sups ::= <[N := fresh_supervisor strat max window]> |>
      <| children ::= alter (λ ch, ch <| ch_supervisor := Some N |>) c |> = s1) as Hs1.
    { unfold s1, s0; simpl. by rewrite (alter_present _ _ _ _ Hch). }
    change (next_id s0) with N. by rewrite Hs1 Hb. }
  assert (s' = exec (child_head t sp c ctor now) s0) as ->.
  { unfold s', exec. cbn [bind]. rewrite Hf.
    rewrite (step_child_run _ _ _ s0 sp c (PcBackoff k) (WReady WkOk) WkOk); [by rewrite /s0 /= lookup_insert_eq|done|].
    unfold guard_task, run_child. cbn [try_except bind get]. change (children s0) with (children s). rewrite Hch.
    change (sups s0) with (sups s). rewrite Hs /_affected_children Hst. cbn [bind lift].
    rewrite filter_cons_False; [by intros []|]. unfold restart_group. cbn [filter list_filter teardown bind ret for_each].
    rewrite Hhead (handle_crash_granted _ _ _ _ _ _ _ sup sup' X) //.
    - unfold s1; simpl. rewrite lookup_insert_ne //. unfold N; lia.
    - by rewrite /s1 /s0 /= lookup_insert_eq. }
  unfold exec. rewrite Hhead (handle_crash_granted _ _ _ _ _ _ _ sup sup' X) //.
  - unfold s1; simpl. rewrite lookup_insert_ne //. unfold N; lia.
  - by rewrite /s1 /s0 /= lookup_insert_eq.
  - simpl. split_and!; try done; [by rewrite insert_insert_eq|].
    intros sp' H1 H2. rewrite !lookup_insert_ne //. unfold N; lia.
Qed.

(** A [build] that fails half way leaks what it spawned and never
    recovers.  Let the [build] of a subtree spawn an actor and then raise.  In
    the turn that runs it, the subtree counts as crashed with that exception
    and waits out the parent's back-off, but the actor stays: its name is
    registered and its task scheduled, under a supervisor nobody refers to any
    more.  When the back-off is over the subtree is built afresh; the spawn
    now raises [ValueError], since the name is taken, and so every further
    attempt charges the budget for that exception instead of the original one;
    the leaked actor's task and name are still untouched. *)
Theorem build_failure_leaks t sp c ctor now now2 s ch cls meta e ops name strat max window sup sup1 sup2 :
  check_strategy name = inr strat → running s → children s !! c = Some ch → c < next_id s → sp < next_id s → t < next_id s →
  ch_kind ch = SupervisorChild (BSpawn cls meta :: BRaise e :: ops) name max window →
  tasks s !! t = Some (Task (CodeChild sp c PcStart) (WReady WkOk) false None) →
  sups s !! sp = Some sup → s_strategy sup = OneForOne →
  _allow_restart now sup = (true, sup1) → _allow_restart now2 sup1 = (true, sup2) →
  _mailboxes s !! actor_name meta = None →
  let N := next_id s in
  let leaked := Task (CodeChild N (N + 2) PcStart) (WReady WkOk) false None in
  let s1 := exec (step_child t ctor now) s in
  let s2 := exec (fire_timer t ;; step_child t ctor now2) s1 in
  (t_code <$> tasks s1 !! t = Some (CodeChild sp c (PcBackoff (Crash e None None))) ∧
   _mailboxes s1 !! actor_name meta = Some (N + 1) ∧ tasks s1 !! (N + 3) = Some leaked) ∧
  (t_code <$> tasks s2 !! t =
     Some (CodeChild sp c (PcBackoff (Crash (already_taken (actor_name meta)) None None))) ∧
   _mailboxes s2 !! actor_name meta = Some (N + 1) ∧ tasks s2 !! (N + 3) = Some leaked ∧
   ch_supervisor <$> children s2 !! c ≠ Some (Some N)).
Proof.
  intros Hstr Hrun Hch Hc Hsp Ht' Hk Ht Hs Hst Ha1 Ha2 Hm N leaked s1 s2.
  assert (t ≠ N + 3 ∧ c ≠ N + 2 ∧ sp ≠ N) as (Hne1 & Hne2 & Hne3) by (unfold N; lia).
  pose proof (build_raises t sp c ctor now s ch cls meta e ops name strat max window sup sup1
    Hstr Hrun Hch Hc Hsp Ht' Hk Ht Hs Ha1 Hm) as Hstep. cbn zeta in Hstep. fold N in Hstep.
  assert (s1 = exec (step_child t ctor now) s) as Hs1 by done. unfold exec in Hs1. rewrite Hstep in Hs1.
  assert (tasks s1 !! t = Some (Task (CodeChild sp c (PcBackoff (Crash e None None))) (WSleep (_backoff sup1)) false None)) as Ht1.
  { rewrite Hs1; simpl. by rewrite lookup_insert_eq. }
  assert (_mailboxes s1 !! actor_name meta = Some (N + 1)) as Hm1.
  { rewrite Hs1; simpl. rewrite lookup_insert_eq. f_equal. unfold N. lia. }
  assert (tasks s1 !! (N + 3) = Some leaked) as Hl1.
  { rewrite Hs1; simpl. rewrite lookup_insert_ne //. replace (N + 3) with (S (S (S N))) by lia.
    rewrite lookup_insert_eq. unfold leaked. by replace (N + 2) with (S (S N)) by lia. }
  split; [by rewrite Ht1|].
  destruct (rebuild_fails t sp c (Crash e None None) (_backoff sup1) ctor now2 s1 (ch <| ch_supervisor := Some N |>)
    cls meta (BRaise e :: ops) name strat max window sup1 sup2 (N + 1)) as (H1 & H2 & _ & H4 & _); try done.
  - rewrite Hs1. destruct Hrun as (co & Hco & Hr). unfold running; simpl. rewrite Hco; simpl. eauto.
  - rewrite Hs1; simpl. rewrite lookup_insert_ne; [unfold N in *; lia|]. by rewrite lookup_insert_eq.
  - rewrite Hs1; simpl. unfold N in *. lia.
  - rewrite Hs1; simpl. unfold N. lia.
  - rewrite Hs1; simpl. by rewrite lookup_insert_eq.
  - unfold _allow_restart in Ha1. case_bool_decide; by simplify_eq.
  - fold s2 in H1, H2, H4. rewrite H1 H2 H4 lookup_insert_eq lookup_insert_ne // lookup_insert_eq.
    split_and!; try done. simpl. intros [= E]. rewrite Hs1 in E; simpl in E. unfold N in *. lia.
Qed.

(** A nested supervisor with a strategy that is none is not refused when it is
    spawned: its task ends with [ValueError] in its first turn, before the code
    that would charge the budget, restart it, give it up or tell anyone; the
    parent still lists it. *)
Theorem bad_strategy_dies_unseen t sp c ctor now s ch build name max window e :
  check_strategy name = inl e → children s !! c = Some ch → ch_kind ch = SupervisorChild build name max window →
  tasks s !! t = Some (Task (CodeChild sp c PcStart) (WReady WkOk) false None) →
  step_child t ctor now s =
  (inr tt, s <| tasks ::= <[t := Task (CodeChild sp c PcStart) (WReady WkOk) false (Some (OExn e))]> |>
             <| _actor_tasks ::= λ l, l ∖ {[t]} |>).
Proof.
  intros Hstr Hch Hk Ht. rewrite (step_child_run _ _ _ s sp c PcStart (WReady WkOk) WkOk) //.
  unfold guard_task, run_child. cbn [try_except bind get]. rewrite Hch. unfold child_head. cbn [bind get]. rewrite Hch Hk.
  unfold supervisor_head, Supervisor_new. rewrite Hstr. cbn [bind lift].
  by rewrite (finish_spec _ _ _ (Task (CodeChild sp c PcStart) (WReady WkOk) false None)).
Qed.

End gaps.
