(* ===== verification/Codec.v ===== *)
(** * Codec

    [src/lapinbeam/codec.py]: how typed objects become JSON-compatible
    payloads and back.  The code avoids copies by returning the argument
    itself when nothing inside it changed, and finds out by comparing with
    [is]; a result is therefore [Same], the argument itself, or [New v], an
    object distinct from it.  What lives outside the file (the user's classes,
    the modules that can be imported, the registered codecs, Pydantic) is a
    [codec_env], an argument of the definitions. *)

From S2P Require Import Prelude Values.

(** ** Strings with dots *)

Definition dot : ascii := ascii_of_code 46.

(** [s.split(".")] *)
Fixpoint split_dot (s : string) : list string :=
  match s with
  | EmptyString => [""]
  | String c s' =>
      if bool_decide (c = dot) then "" :: split_dot s'
      else match split_dot s' with
           | [] => [String c ""]
           | p :: ps => String c p :: ps
           end
  end.

(** [module_name, _, qualname = s.rpartition(".")] *)
Fixpoint rpartition_dot (s : string) : string * string :=
  match s with
  | EmptyString => ("", "")
  | String c s' =>
      if char_in dot s' then let '(m, q) := rpartition_dot s' in (String c m, q)
      else if bool_decide (c = dot) then ("", s')
      else ("", s)
  end.

Example rpartition_nested : rpartition_dot "pkg.mod.Outer.Inner" = ("pkg.mod.Outer", "Inner").
Proof. reflexivity. Qed.

(** ** The world outside the file *)

(** What a class is to the codec: its dataclass fields in order, a Pydantic
    model ([_is_pydantic]), or neither. *)
Inductive class_kind := KDataclass (fields : list string) | KPydantic | KOther.

(** A module or an object found in one: the tag of the class it is, if it is
    one, and its attributes. *)
Inductive pyobject := PyObject (cls : option string) (attrs : list (string * pyobject)).

(** The value of [_registry[tag]]. *)
Record codec_entry := CodecEntry {
  e_encode : pyval → exn + pyval;
  e_decode : pyval → exn + pyval
}.

Record codec_env := CodecEnv {
  registry : gmap string codec_entry;
  kind_of : string → class_kind;
  import_module : string → exn + pyobject;
  construct : string → list (string * pyval) → exn + pyval;
  model_dump : string → list (string * pyval) → exn + pyval;
  model_validate : string → pyval → exn + pyval
}.

#[export] Instance codec_env_settable : Settable codec_env :=
  λ r, CodecEnv (registry r) (kind_of r) (import_module r) (construct r) (model_dump r) (model_validate r).

(** [register_codec] *)
Definition register_codec (cls : string) (enc dec : pyval → exn + pyval) (env : codec_env) : codec_env :=
  env <| registry ::= <[cls := CodecEntry enc dec]> |>.

(** ** Encoding *)

Inductive res := Same | New (v : pyval).

Definition res_value (v : pyval) (r : res) : pyval :=
  match r with Same => v | New v' => v' end.
Definition is_new (r : res) : bool := match r with Same => false | New _ => true end.

(** The loops of [_encode_obj] and [_decode_obj] over a container: whether an
    item changed, and the items of the rebuilt container. *)
Fixpoint loop_list (f : pyval → exn + res) (xs : list pyval) : exn + (bool * list pyval) :=
  match xs with
  | [] => inr (false, [])
  | x :: xs' =>
      match f x with
      | inl e => inl e
      | inr r =>
          match loop_list f xs' with
          | inl e => inl e
          | inr (changed, out) => inr (is_new r || changed, res_value x r :: out)
          end
      end
  end.

Fixpoint loop_dict (f : pyval → exn + res) (kvs : list (string * pyval)) : exn + (bool * list (string * pyval)) :=
  match kvs with
  | [] => inr (false, [])
  | (k, x) :: kvs' =>
      match f x with
      | inl e => inl e
      | inr r =>
          match loop_dict f kvs' with
          | inl e => inl e
          | inr (changed, out) => inr (is_new r || changed, (k, res_value x r) :: out)
          end
      end
  end.

(** [{RESERVED: tag, "data": data}] *)
Definition tagged (tag : string) (data : pyval) : pyval :=
  PDict [(RESERVED, PStr tag); ("data", data)].

(** [{f.name: _encode_obj(getattr(obj, f.name)) for f in fields(obj)}] *)
Fixpoint encode_fields (f : pyval → exn + res) (attrs : list (string * pyval)) (names : list string)
    : exn + list (string * pyval) :=
  match names with
  | [] => inr []
  | n :: names' =>
      match assoc n attrs with
      | None => inl (Exn "AttributeError" ("object has no attribute " +:+ py_repr n))
      | Some x =>
          match f x with
          | inl e => inl e
          | inr r =>
              match encode_fields f attrs names' with
              | inl e => inl e
              | inr out => inr ((n, res_value x r) :: out)
              end
          end
      end
  end.

Definition recursion_error : exn := Exn "RecursionError" "maximum recursion depth exceeded".

(** [_encode_obj]; the fuel is the depth of calls it may still make. *)
Fixpoint _encode_obj (env : codec_env) (fuel : nat) (obj : pyval) : exn + res :=
  match fuel with
  | O => inl recursion_error
  | S n =>
      match obj with
      | PNone | PBool _ | PInt _ | PFloat _ | PStr _ => inr Same
      | PObj tag attrs =>
          match registry env !! tag with
          | Some entry =>
              match e_encode entry obj with
              | inl e => inl e
              | inr data => inr (New (tagged tag data))
              end
          | None =>
              match kind_of env tag with
              | KDataclass names =>
                  match encode_fields (_encode_obj env n) attrs names with
                  | inl e => inl e
                  | inr data => inr (New (tagged tag (PDict data)))
                  end
              | KPydantic =>
                  match model_dump env tag attrs with
                  | inl e => inl e
                  | inr data => inr (New (tagged tag data))
                  end
              | KOther => inr Same
              end
          end
      | PDict kvs =>
          match loop_dict (_encode_obj env n) kvs with
          | inl e => inl e
          | inr (changed, out) => inr (if changed : bool then New (PDict out) else Same)
          end
      | PList xs | PTuple xs =>
          match loop_list (_encode_obj env n) xs with
          | inl e => inl e
          | inr (changed, out) => inr (if changed : bool then New (PList out) else Same)
          end
      end
  end.

(** ** Decoding *)

(** [_import_class] *)
Fixpoint getattrs (o : pyobject) (parts : list string) : exn + pyobject :=
  match parts with
  | [] => inr o
  | p :: ps =>
      let 'PyObject _ attrs := o in
      match assoc p attrs with
      | None => inl (Exn "AttributeError" ("no attribute " +:+ py_repr p))
      | Some o' => getattrs o' ps
      end
  end.

Definition _import_class (env : codec_env) (tag : string) : exn + pyobject :=
  let '(module_name, qualname) := rpartition_dot tag in
  if bool_decide (module_name = "") then inl (ValueError "Empty module name")
  else
    match import_module env module_name with
    | inl e => inl e
    | inr m => getattrs m (split_dot qualname)
    end.

Definition no_codec (tag : string) : exn := ValueError ("no codec registered for " +:+ py_repr tag).

(** [except (ImportError, AttributeError)], with the subclass of the first. *)
Definition import_failure (e : exn) : bool :=
  bool_decide (exn_type e ∈ ["ImportError"; "ModuleNotFoundError"; "AttributeError"]).

(** [_rebuild]; [dec] is [_decode_obj]. *)
Definition _rebuild (env : codec_env) (dec : pyval → exn + res) (tag : string) (data : pyval) : exn + pyval :=
  match registry env !! tag with
  | Some entry => e_decode entry data
  | None =>
      match _import_class env tag with
      | inl e => if import_failure e then inl (no_codec tag) else inl e
      | inr (PyObject None _) => inl (no_codec tag)
      | inr (PyObject (Some cls) _) =>
          match kind_of env cls with
          | KDataclass _ =>
              match as_items data with
              | inl e => inl e
              | inr kvs =>
                  match loop_dict dec kvs with
                  | inl e => inl e
                  | inr (_, kwargs) => construct env cls kwargs
                  end
              end
          | KPydantic => model_validate env cls data
          | KOther => inl (no_codec tag)
          end
      end
  end.

(** [_decode_obj] *)
Fixpoint _decode_obj (env : codec_env) (fuel : nat) (obj : pyval) : exn + res :=
  match fuel with
  | O => inl recursion_error
  | S n =>
      match obj with
      | PDict kvs =>
          match assoc RESERVED kvs with
          | None | Some PNone =>
              match loop_dict (_decode_obj env n) kvs with
              | inl e => inl e
              | inr (changed, out) => inr (if changed : bool then New (PDict out) else Same)
              end
          | Some tag =>
              match getitem obj "data" with
              | inl e => inl e
              | inr data =>
                  match tag with
                  | PStr tag =>
                      match _rebuild env (_decode_obj env n) tag data with
                      | inl e => inl e
                      | inr v => inr (New v)
                      end
                  | PList _ | PDict _ => inl (TypeError "unhashable type")
                  | _ => inl (ValueError "no codec registered for a tag that is not a string")
                  end
              end
          end
      | PList xs =>
          match loop_list (_decode_obj env n) xs with
          | inl e => inl e
          | inr (changed, out) => inr (if changed : bool then New (PList out) else Same)
          end
      | _ => inr Same
      end
  end.

(** Enough fuel for a value: one call per level. *)
Fixpoint depth (v : pyval) : nat :=
  match v with
  | PNone | PBool _ | PInt _ | PFloat _ | PStr _ => 0
  | PList xs | PTuple xs => S (foldr (λ x n, Nat.max (depth x) n) 0 xs)
  | PDict kvs | PObj _ kvs => S (foldr (λ kv n, Nat.max (depth kv.2) n) 0 kvs)
  end.

(** [encode_payload] and [decode_payload] *)
Definition encode_value (env : codec_env) (v : pyval) : exn + pyval :=
  match _encode_obj env (S (depth v)) v with
  | inl e => inl e
  | inr r => inr (res_value v r)
  end.

Definition decode_value (env : codec_env) (v : pyval) : exn + pyval :=
  match _decode_obj env (S (depth v)) v with
  | inl e => inl e
  | inr r => inr (res_value v r)
  end.
