(* ===== verification/CodecProps.v ===== *)
(** * Properties of the codec

    The fuel is never exhausted; the copy-avoiding encoder agrees with one
    that always copies; plain payloads pass unchanged, which discharges the
    interface the node relies on; and the round trip through the wire gives
    the receiver the sender's object, tuples turned into lists. *)

From S2P Require Import Prelude Values Codec.

(** ** Depth and fuel *)

Lemma depth_list x xs : x ∈ xs → depth x < depth (PList xs).
Proof.
  simpl. induction 1 as [x xs|x y xs Hx IH]; simpl; lia.
Qed.

Lemma depth_dict k x kvs : (k, x) ∈ kvs → depth x < depth (PDict kvs).
Proof.
  simpl. intros H. remember (k, x) as kv eqn:E. revert k x E.
  induction H as [kv kvs|kv kv' kvs _ IH]; intros k x ->; simpl; [lia|].
  specialize (IH k x eq_refl). lia.
Qed.

Lemma assoc_elem {A} k (kvs : list (string * A)) x : assoc k kvs = Some x → (k, x) ∈ kvs.
Proof.
  induction kvs as [|[k' y] kvs IH]; simpl; [done|]. case_bool_decide; subst.
  - intros [= ->]. by left.
  - intros Hk. right. by apply IH.
Qed.

Lemma loop_list_ext f g xs : (∀ x, x ∈ xs → f x = g x) → loop_list f xs = loop_list g xs.
Proof.
  induction xs as [|x xs IH]; intros H; simpl; [done|].
  rewrite (H x); [by left|]. rewrite IH //. intros y Hy. apply H. by right.
Qed.

Lemma loop_dict_ext f g kvs : (∀ k x, (k, x) ∈ kvs → f x = g x) → loop_dict f kvs = loop_dict g kvs.
Proof.
  induction kvs as [|[k x] kvs IH]; intros H; simpl; [done|].
  rewrite (H k x); [by left|]. rewrite IH //. intros k' y Hy. apply (H k'). by right.
Qed.

Lemma encode_fields_ext f g attrs names :
  (∀ k x, (k, x) ∈ attrs → f x = g x) → encode_fields f attrs names = encode_fields g attrs names.
Proof.
  intros H. induction names as [|n names IH]; simpl; [done|].
  destruct (assoc n attrs) as [x|] eqn:E; [|done]. by rewrite (H n x (assoc_elem _ _ _ E)) IH.
Qed.

Lemma encode_fuel env v : ∀ n m, depth v < n → depth v < m → _encode_obj env n v = _encode_obj env m v.
Proof.
  enough (∀ k v, depth v < k → ∀ n m, depth v < n → depth v < m →
            _encode_obj env n v = _encode_obj env m v) as H by (intros; apply (H (S (depth v))); lia).
  clear v. induction k as [|k IH]; intros v Hk; [lia|].
  intros [|n] [|m] Hn Hm; try lia. simpl.
  destruct v as [| | | | |xs|xs|kvs|tag attrs]; try done.
  - rewrite (loop_list_ext _ (_encode_obj env m)) //.
    intros x Hx. pose proof (depth_list x xs Hx). apply IH; lia.
  - rewrite (loop_list_ext _ (_encode_obj env m)) //.
    intros x Hx. pose proof (depth_list x xs Hx). simpl in *. apply IH; lia.
  - rewrite (loop_dict_ext _ (_encode_obj env m)) //.
    intros y x Hx. pose proof (depth_dict y x kvs Hx). apply IH; lia.
  - destruct (registry env !! tag); [done|]. destruct (kind_of env tag) as [names| |]; try done.
    rewrite (encode_fields_ext _ (_encode_obj env m)) //.
    intros y x Hx. pose proof (depth_dict y x attrs Hx). simpl in *. apply IH; lia.
Qed.

Lemma rebuild_ext env f g tag data :
  (∀ k x kvs, data = PDict kvs → (k, x) ∈ kvs → f x = g x) →
  _rebuild env f tag data = _rebuild env g tag data.
Proof.
  intros H. unfold _rebuild. destruct (registry env !! tag); [done|].
  destruct (_import_class env tag) as [e|[[cls|] attrs]]; try done.
  destruct (kind_of env cls); try done. destruct data; try done. simpl.
  rewrite (loop_dict_ext f g) //. eauto.
Qed.

Lemma decode_fuel env v : ∀ n m, depth v < n → depth v < m → _decode_obj env n v = _decode_obj env m v.
Proof.
  enough (∀ k v, depth v < k → ∀ n m, depth v < n → depth v < m →
            _decode_obj env n v = _decode_obj env m v) as H by (intros; apply (H (S (depth v))); lia).
  clear v. induction k as [|k IH]; intros v Hk; [lia|].
  intros [|n] [|m] Hn Hm; try lia. simpl.
  destruct v as [| | | | |xs|xs|kvs|tag attrs]; try done.
  - rewrite (loop_list_ext _ (_decode_obj env m)) //.
    intros x Hx. pose proof (depth_list x xs Hx). apply IH; lia.
  - assert (loop_dict (_decode_obj env n) kvs = loop_dict (_decode_obj env m) kvs) as ->.
    { apply loop_dict_ext. intros y x Hx. pose proof (depth_dict y x kvs Hx). apply IH; lia. }
    destruct (assoc RESERVED kvs) as [[]|]; try done.
    unfold getitem. destruct (assoc "data" kvs) as [data|] eqn:E; [|done].
    rewrite (rebuild_ext env _ (_decode_obj env m)) //.
    intros y x kvs' -> Hx. pose proof (depth_dict _ _ _ Hx) as H1.
    pose proof (depth_dict _ _ _ (assoc_elem _ _ _ E)) as H2. apply IH; lia.
Qed.

(** ** Plain payloads *)

Lemma loop_list_all_same f xs : (∀ x, x ∈ xs → f x = inr Same) → loop_list f xs = inr (false, xs).
Proof.
  induction xs as [|x xs IH]; intros H; simpl; [done|].
  rewrite (H x); [by left|]. rewrite IH //. intros y Hy. apply H. by right.
Qed.

Lemma loop_dict_all_same f kvs :
  (∀ k x, (k, x) ∈ kvs → f x = inr Same) → loop_dict f kvs = inr (false, kvs).
Proof.
  induction kvs as [|[k x] kvs IH]; intros H; simpl; [done|].
  rewrite (H k x); [by left|]. rewrite IH //. intros k' y Hy. apply (H k'). by right.
Qed.

Lemma forallb_elem {A} (P : A → bool) xs x : forallb P xs = true → x ∈ xs → P x = true.
Proof. intros H Hx. apply (proj1 (forallb_forall P xs)); [done|]. by apply list_elem_of_In. Qed.

Lemma plain_items (kvs : list (string * pyval)) k x : forallb (λ kv, plain kv.2) kvs = true → (k, x) ∈ kvs → plain x = true.
Proof. intros H Hx. apply (forallb_elem _ _ (k, x) H Hx). Qed.

Lemma encode_plain_same env n : ∀ v, depth v < n → plain v = true → _encode_obj env n v = inr Same.
Proof.
  induction n as [|n IH]; intros v Hn Hp; [lia|].
  destruct v as [| | | | |xs|xs|kvs|tag attrs]; simpl in Hp |- *; try done.
  - rewrite loop_list_all_same //. intros x Hx. pose proof (depth_list x xs Hx).
    apply IH; [lia|]. by eapply forallb_elem.
  - rewrite loop_list_all_same //. intros x Hx. pose proof (depth_list x xs Hx). simpl in *.
    apply IH; [lia|]. by eapply forallb_elem.
  - apply andb_prop in Hp as [_ Hp]. rewrite loop_dict_all_same //. intros k x Hx.
    pose proof (depth_dict k x kvs Hx). apply IH; [lia|]. by eapply plain_items.
Qed.

Lemma decode_plain_same env n : ∀ v, depth v < n → plain v = true → _decode_obj env n v = inr Same.
Proof.
  induction n as [|n IH]; intros v Hn Hp; [lia|].
  destruct v as [| | | | |xs|xs|kvs|tag attrs]; simpl in Hp |- *; try done.
  - rewrite loop_list_all_same //. intros x Hx. pose proof (depth_list x xs Hx).
    apply IH; [lia|]. by eapply forallb_elem.
  - apply andb_prop in Hp as [Hr%bool_decide_eq_true Hp]. rewrite Hr.
    rewrite loop_dict_all_same //. intros k x Hx.
    pose proof (depth_dict k x kvs Hx). apply IH; [lia|]. by eapply plain_items.
Qed.

(** The codec keeps the promise the node relies on. *)
Program Definition lapinbeam_codec (env : codec_env) : PayloadCodec :=
  {| encode_payload := encode_value env; decode_payload := decode_value env |}.
Next Obligation.
  intros env v Hp. unfold encode_value. rewrite encode_plain_same //. lia.
Qed.
Next Obligation.
  intros env v Hp. unfold decode_value. rewrite decode_plain_same //. lia.
Qed.

(** ** The encoder that always copies *)

Fixpoint encode_copy (env : codec_env) (fuel : nat) (obj : pyval) : exn + pyval :=
  match fuel with
  | O => inl recursion_error
  | S n =>
      match obj with
      | PNone | PBool _ | PInt _ | PFloat _ | PStr _ => inr obj
      | PObj tag attrs =>
          match registry env !! tag with
          | Some entry =>
              match e_encode entry obj with inl e => inl e | inr data => inr (tagged tag data) end
          | None =>
              match kind_of env tag with
              | KDataclass names =>
                  match encode_fields (λ x, match encode_copy env n x with
                                            | inl e => inl e | inr y => inr (New y) end) attrs names with
                  | inl e => inl e
                  | inr data => inr (tagged tag (PDict data))
                  end
              | KPydantic =>
                  match model_dump env tag attrs with inl e => inl e | inr data => inr (tagged tag data) end
              | KOther => inr obj
              end
          end
      | PDict kvs =>
          match try_dict (encode_copy env n) kvs with inl e => inl e | inr out => inr (PDict out) end
      | PList xs | PTuple xs =>
          match try_list (encode_copy env n) xs with inl e => inl e | inr out => inr (PList out) end
      end
  end.

(** Whether a value holds an object that the codec has to encode. *)
Fixpoint touched (env : codec_env) (v : pyval) : bool :=
  match v with
  | PNone | PBool _ | PInt _ | PFloat _ | PStr _ => false
  | PList xs | PTuple xs => existsb (touched env) xs
  | PDict kvs => existsb (λ kv, touched env kv.2) kvs
  | PObj tag _ =>
      match registry env !! tag, kind_of env tag with
      | None, KOther => false
      | _, _ => true
      end
  end.

(** The two encoders agree on [v]. *)
Definition agree (env : codec_env) (v : pyval) (r : exn + res) (r' : exn + pyval) : Prop :=
  match r, r' with
  | inl e, inl e' => e = e'
  | inr r, inr v' => wire_transfer (res_value v r) = wire_transfer v' ∧ is_new r = touched env v
  | _, _ => False
  end.

Lemma loop_list_agree env f g xs :
  (∀ x, x ∈ xs → agree env x (f x) (g x)) →
  match loop_list f xs, try_list g xs with
  | inl e, inl e' => e = e'
  | inr (ch, out), inr out' =>
      try_list wire_transfer out = try_list wire_transfer out' ∧
      ch = existsb (touched env) xs ∧ (ch = false → out = xs)
  | _, _ => False
  end.
Proof.
  induction xs as [|x xs IH]; intros H; simpl; [done|].
  pose proof (H x ltac:(by left)) as Hx. unfold agree in Hx.
  destruct (f x) as [e|r], (g x) as [e'|y]; try done. destruct Hx as [Hw Hn].
  specialize (IH (λ y Hy, H y ltac:(by right))).
  destruct (loop_list f xs) as [e|[ch out]], (try_list g xs) as [e'|out']; try done.
  destruct IH as (Hw' & -> & Hsame). simpl. rewrite Hw Hw' Hn. split_and!; try done.
  intros [H1 H2]%orb_false_iff. rewrite Hsame //. f_equal. rewrite -Hn in H1. by destruct r.
Qed.

Lemma loop_dict_agree env f g kvs :
  (∀ k x, (k, x) ∈ kvs → agree env x (f x) (g x)) →
  match loop_dict f kvs, try_dict g kvs with
  | inl e, inl e' => e = e'
  | inr (ch, out), inr out' =>
      try_dict wire_transfer out = try_dict wire_transfer out' ∧
      ch = existsb (λ kv, touched env kv.2) kvs ∧ (ch = false → out = kvs)
  | _, _ => False
  end.
Proof.
  induction kvs as [|[k x] kvs IH]; intros H; simpl; [done|].
  pose proof (H k x ltac:(by left)) as Hx. unfold agree in Hx.
  destruct (f x) as [e|r], (g x) as [e'|y]; try done. destruct Hx as [Hw Hn].
  specialize (IH (λ k' y Hy, H k' y ltac:(by right))).
  destruct (loop_dict f kvs) as [e|[ch out]], (try_dict g kvs) as [e'|out']; try done.
  destruct IH as (Hw' & -> & Hsame). simpl. rewrite Hw Hw' Hn. split_and!; try done.
  intros [H1 H2]%orb_false_iff. rewrite Hsame //. do 2 f_equal. rewrite -Hn in H1. by destruct r.
Qed.

Lemma encode_fields_agree env f g attrs names :
  (∀ k x, (k, x) ∈ attrs → agree env x (f x) (g x)) →
  match encode_fields f attrs names,
        encode_fields (λ x, match g x with inl e => inl e | inr y => inr (New y) end) attrs names with
  | inl e, inl e' => e = e'
  | inr out, inr out' => try_dict wire_transfer out = try_dict wire_transfer out'
  | _, _ => False
  end.
Proof.
  intros H. induction names as [|n names IH]; simpl; [done|].
  destruct (assoc n attrs) as [x|] eqn:E; [|done].
  pose proof (H n x (assoc_elem _ _ _ E)) as Hx. unfold agree in Hx.
  destruct (f x) as [e|r], (g x) as [e'|y]; try done. destruct Hx as [Hw Hn].
  destruct (encode_fields f attrs names) as [e|out],
    (encode_fields _ attrs names) as [e'|out']; try done. simpl. by rewrite Hw IH.
Qed.

Lemma encode_agree env n : ∀ v, depth v < n → agree env v (_encode_obj env n v) (encode_copy env n v).
Proof.
  induction n as [|n IH]; intros v Hn; [lia|].
  assert (∀ xs, v = PList xs ∨ v = PTuple xs → ∀ x, x ∈ xs →
            agree env x (_encode_obj env n x) (encode_copy env n x)) as Hl.
  { intros xs Hv x Hx. apply IH. pose proof (depth_list x xs Hx). destruct Hv; subst; simpl in *; lia. }
  assert (∀ kvs, v = PDict kvs ∨ (∃ t, v = PObj t kvs) → ∀ k x, (k, x) ∈ kvs →
            agree env x (_encode_obj env n x) (encode_copy env n x)) as Hd.
  { intros kvs Hv k x Hx. apply IH. pose proof (depth_dict k x kvs Hx).
    destruct Hv as [->|[? ->]]; simpl in *; lia. }
  destruct v as [| | | | |xs|xs|kvs|tag attrs]; simpl; try (split; done).
  1, 2: pose proof (loop_list_agree env _ _ xs (Hl xs ltac:(auto))) as H;
    destruct (loop_list _ xs) as [e|[ch out]], (try_list _ xs) as [e'|out']; try done;
    destruct H as (Hw & -> & Hsame); simpl; destruct (existsb _ xs); simpl; rewrite -?Hw //;
    by rewrite Hsame.
  - pose proof (loop_dict_agree env _ _ kvs (Hd kvs ltac:(auto))) as H.
    destruct (loop_dict _ kvs) as [e|[ch out]], (try_dict _ kvs) as [e'|out']; try done.
    destruct H as (Hw & -> & Hsame); simpl. destruct (existsb _ kvs); simpl; rewrite -?Hw //.
    by rewrite Hsame.
  - unfold agree; simpl. destruct (registry env !! tag) as [entry|].
    { by destruct (e_encode entry _). }
    destruct (kind_of env tag) as [names| |]; [|by destruct (model_dump env tag attrs)|done].
    pose proof (encode_fields_agree env _ _ attrs names (Hd attrs ltac:(eauto))) as H.
    destruct (encode_fields _ attrs names) as [e|out], (encode_fields _ attrs names) as [e'|out']; try done.
    simpl. by rewrite H.
Qed.

(** (C11) Avoiding copies is invisible.  The encoder raises exactly when the
    one that copies every container does, with the same exception; what it
    returns is the same on the wire; and it returns its argument itself
    exactly when no object inside needs encoding. *)
Theorem encode_sharing_sound env v :
  match encode_value env v, encode_copy env (S (depth v)) v with
  | inl e, inl e' => e = e'
  | inr p, inr p' =>
      wire_transfer p = wire_transfer p' ∧
      (_encode_obj env (S (depth v)) v = inr Same ↔ touched env v = false)
  | _, _ => False
  end.
Proof.
  pose proof (encode_agree env (S (depth v)) v ltac:(lia)) as H. unfold encode_value, agree in *.
  destruct (_encode_obj env (S (depth v)) v) as [e|r], (encode_copy env (S (depth v)) v) as [e'|p];
    try done.
  destruct H as [Hw Hn]. split; [done|]. rewrite -Hn. destruct r; simpl; split; congruence.
Qed.

(** ** The round trip *)

Fixpoint All {A} (P : A → Prop) (xs : list A) : Prop :=
  match xs with
  | [] => True
  | x :: xs' => P x ∧ All P xs'
  end.

(** What a registered codec or a Pydantic model has to do: the object comes
    back from its own dump, after the wire. *)
Definition dump_roundtrip (v : pyval) (dump : exn + pyval) (load : pyval → exn + pyval) : Prop :=
  ∃ data, dump = inr data ∧ ∀ w, wire_transfer data = inr w → load w = inr v.

(** Values that travel: no dict uses the reserved key; an instance of a
    dataclass has exactly the declared fields and its class can be imported
    by its tag on the receiving side; an instance of another class has a
    codec that brings it back. *)
Fixpoint codable (env : codec_env) (v : pyval) : Prop :=
  match v with
  | PNone | PBool _ | PInt _ | PFloat _ | PStr _ => True
  | PList xs | PTuple xs => All (codable env) xs
  | PDict kvs => assoc RESERVED kvs = None ∧ All (λ kv, codable env kv.2) kvs
  | PObj tag attrs =>
      match registry env !! tag with
      | Some entry => dump_roundtrip v (e_encode entry v) (e_decode entry)
      | None =>
          (∃ members, _import_class env tag = inr (PyObject (Some tag) members)) ∧
          match kind_of env tag with
          | KDataclass names => attrs.*1 = names ∧ NoDup names ∧ All (λ kv, codable env kv.2) attrs
          | KPydantic => dump_roundtrip v (model_dump env tag attrs) (model_validate env tag)
          | KOther => False
          end
      end
  end.

(** What the receiver gets: tuples have become lists, also in the fields of
    dataclasses. *)
Fixpoint delivered (env : codec_env) (v : pyval) : pyval :=
  match v with
  | PList xs | PTuple xs => PList (delivered env <$> xs)
  | PDict kvs => PDict ((λ kv, (kv.1, delivered env kv.2)) <$> kvs)
  | PObj tag attrs =>
      match registry env !! tag, kind_of env tag with
      | None, KDataclass _ => PObj tag ((λ kv, (kv.1, delivered env kv.2)) <$> attrs)
      | _, _ => v
      end
  | _ => v
  end.

(** The generated [__init__] of a dataclass, given its fields by keyword,
    stores them. *)
Definition dataclass_init (env : codec_env) : Prop :=
  ∀ tag names kwargs, kind_of env tag = KDataclass names → kwargs.*1 = names →
    construct env tag kwargs = inr (PObj tag kwargs).

(** Encoding [v] gives something whose wire image decodes to [delivered v]. *)
Definition travels (env : codec_env) (v : pyval) (r : exn + res) : Prop :=
  ∃ r', r = inr r' ∧ ∀ w, wire_transfer (res_value v r') = inr w →
    ∀ m, depth w < m → ∃ r'', _decode_obj env m w = inr r'' ∧ res_value w r'' = delivered env v.

Lemma loop_list_travels env f xs :
  (∀ x, x ∈ xs → travels env x (f x)) →
  ∃ ch out, loop_list f xs = inr (ch, out) ∧ (ch = false → out = xs) ∧
    ∀ ws, try_list wire_transfer out = inr ws →
      ∀ m, (∀ w, w ∈ ws → depth w < m) →
        ∃ ch' out', loop_list (_decode_obj env m) ws = inr (ch', out') ∧
          out' = delivered env <$> xs ∧ (ch' = false → out' = ws).
Proof.
  induction xs as [|x xs IH]; intros H; simpl.
  { exists false, []. split_and!; try done. intros ws [= <-] m _. exists false, []. done. }
  destruct (H x ltac:(by left)) as (r & -> & Hx).
  destruct (IH (λ y Hy, H y ltac:(by right))) as (ch & out & -> & Hsame & Hws).
  eexists _, _. split; [done|]. split.
  { intros [H1 H2]%orb_false_iff. rewrite Hsame //. f_equal. by destruct r. }
  intros ws. simpl. destruct (wire_transfer (res_value x r)) as [|w] eqn:Ew; [done|].
  destruct (try_list wire_transfer out) as [|ws'] eqn:Ews; [done|]. intros [= <-] m Hm.
  destruct (Hx w eq_refl m ltac:(apply Hm; by left)) as (r'' & Hr'' & Hv).
  destruct (Hws ws' eq_refl m ltac:(intros; apply Hm; by right)) as (ch' & out' & Hout' & -> & Hsame').
  simpl. rewrite Hr'' Hout'. eexists _, _. split; [done|]. rewrite Hv. split; [done|].
  intros [H1 H2]%orb_false_iff. rewrite Hsame' //. f_equal. rewrite -Hv. by destruct r''.
Qed.

Lemma loop_dict_travels env f kvs :
  (∀ k x, (k, x) ∈ kvs → travels env x (f x)) →
  ∃ ch out, loop_dict f kvs = inr (ch, out) ∧ (ch = false → out = kvs) ∧ out.*1 = kvs.*1 ∧
    ∀ ws, try_dict wire_transfer out = inr ws →
      ws.*1 = kvs.*1 ∧
      ∀ m, (∀ k w, (k, w) ∈ ws → depth w < m) →
        ∃ ch' out', loop_dict (_decode_obj env m) ws = inr (ch', out') ∧
          out' = (λ kv, (kv.1, delivered env kv.2)) <$> kvs ∧ (ch' = false → out' = ws).
Proof.
  induction kvs as [|[k x] kvs IH]; intros H; simpl.
  { exists false, []. split_and!; try done. intros ws [= <-]. split; [done|]. intros m _.
    exists false, []. done. }
  destruct (H k x ltac:(by left)) as (r & -> & Hx).
  destruct (IH (λ k' y Hy, H k' y ltac:(by right))) as (ch & out & -> & Hsame & Hkeys & Hws).
  eexists _, _. split; [done|]. split.
  { intros [H1 H2]%orb_false_iff. rewrite Hsame //. do 2 f_equal. by destruct r. }
  split; [by rewrite fmap_cons Hkeys|].
  intros ws. simpl. destruct (wire_transfer (res_value x r)) as [|w] eqn:Ew; [done|].
  destruct (try_dict wire_transfer out) as [|ws'] eqn:Ews; [done|]. intros [= <-].
  destruct (Hws ws' eq_refl) as [Hk' Hws']. split; [by rewrite fmap_cons Hk'|]. intros m Hm.
  destruct (Hx w eq_refl m ltac:(apply (Hm k); by left)) as (r'' & Hr'' & Hv).
  destruct (Hws' m ltac:(intros k' w' ?; apply (Hm k'); by right)) as (ch' & out' & Hout' & -> & Hsame').
  simpl. rewrite Hr'' Hout'. eexists _, _. split; [done|]. rewrite Hv. split; [done|].
  intros [H1 H2]%orb_false_iff. rewrite Hsame' //. do 2 f_equal. rewrite -Hv. by destruct r''.
Qed.

Lemma assoc_None_keys {A B} k (kvs : list (string * A)) (kvs' : list (string * B)) :
  kvs'.*1 = kvs.*1 → assoc k kvs = None → assoc k kvs' = None.
Proof.
  revert kvs. induction kvs' as [|[k' y] kvs' IH]; intros [|[k0 x] kvs]; try done.
  rewrite !fmap_cons. intros [= -> Hk]. simpl. case_bool_decide; [done|]. by apply IH.
Qed.

Lemma assoc_NoDup {A} (kvs : list (string * A)) k x :
  NoDup kvs.*1 → (k, x) ∈ kvs → assoc k kvs = Some x.
Proof.
  induction kvs as [|[k' y] kvs IH]; intros Hnd Hin; [by apply elem_of_nil in Hin|].
  rewrite fmap_cons in Hnd. apply list.NoDup_cons in Hnd as [Hk Hnd].
  apply elem_of_cons in Hin as [[= -> ->]|Hin]; simpl; [by rewrite bool_decide_eq_true_2|].
  rewrite bool_decide_eq_false_2; [|by apply IH]. intros ->. apply Hk.
  apply list_elem_of_fmap. by exists (k, x).
Qed.

Lemma encode_fields_all f attrs :
  NoDup attrs.*1 →
  encode_fields f attrs attrs.*1 =
  match loop_dict f attrs with inl e => inl e | inr (_, out) => inr out end.
Proof.
  intros Hnd.
  enough (∀ l, (∀ k x, (k, x) ∈ l → assoc k attrs = Some x) →
    encode_fields f attrs l.*1 = match loop_dict f l with inl e => inl e | inr (_, out) => inr out end) as H
    by (apply H; intros; by apply assoc_NoDup).
  induction l as [|[k x] l IH]; intros Ha; [done|].
  rewrite fmap_cons; cbn -[fmap]. rewrite (Ha k x); [by left|]. destruct (f x) as [e|r]; [done|].
  rewrite IH; [intros k' y Hy; apply Ha; by right|]. by destruct (loop_dict f l) as [|[]].
Qed.

Lemma All_elem {A} (P : A → Prop) xs x : All P xs → x ∈ xs → P x.
Proof. intros H Hx. induction Hx; destruct H; eauto. Qed.

(** The instance comes back from its tagged dict. *)
Lemma tagged_travels env tag data v w m :
  wire_transfer (tagged tag data) = inr w → depth w < m →
  (∀ d n, wire_transfer data = inr d → depth d < n →
     _rebuild env (_decode_obj env n) tag d = inr v) →
  ∃ r, _decode_obj env m w = inr r ∧ res_value w r = v.
Proof.
  intros Hw Hm Hrb. cbn in Hw. destruct (wire_transfer data) as [e|d]; [done|]. injection Hw as <-.
  destruct m as [|m]; [lia|]. exists (New v). split; [|done]. simpl.
  rewrite (Hrb d m) //. simpl in Hm. lia.
Qed.

(** A rebuilt or shared container looks the same on the wire. *)
Lemma wire_shared_list ch out xs :
  (ch = false → out = xs) →
  wire_transfer (res_value (PList xs) (if ch : bool then New (PList out) else Same)) =
  wire_transfer (PList out).
Proof. intros H. destruct ch; [done|]. by rewrite H. Qed.

Lemma wire_shared_dict ch out kvs :
  (ch = false → out = kvs) →
  wire_transfer (res_value (PDict kvs) (if ch : bool then New (PDict out) else Same)) =
  wire_transfer (PDict out).
Proof. intros H. destruct ch; [done|]. by rewrite H. Qed.

Lemma list_travels env f xs v :
  v = PList xs ∨ v = PTuple xs → (∀ x, x ∈ xs → travels env x (f x)) →
  travels env v match loop_list f xs with
                | inl e => inl e
                | inr (changed, out) => inr (if changed : bool then New (PList out) else Same)
                end.
Proof.
  intros Hv Hxs. destruct (loop_list_travels env f xs Hxs) as (ch & out & -> & Hsame & Hws).
  eexists; split; [done|]. intros w Hw m Hm.
  assert (wire_transfer (PList out) = inr w) as Hw'.
  { rewrite -(wire_shared_list ch out xs Hsame) -Hw. destruct Hv; subst; by destruct ch. }
  simpl in Hw'. destruct (try_list wire_transfer out) as [|ws]; [done|]. injection Hw' as <-.
  destruct m as [|m]; [lia|].
  destruct (Hws ws eq_refl m) as (ch' & out' & Hl & -> & Hsame').
  { intros w Hin. pose proof (depth_list w ws Hin). lia. }
  simpl. rewrite Hl. eexists; split; [done|].
  assert (delivered env v = PList (delivered env <$> xs)) as -> by (destruct Hv; by subst).
  destruct ch'; [done|]. simpl. by rewrite Hsame'.
Qed.

Lemma dict_travels env f kvs :
  assoc RESERVED kvs = None → (∀ k x, (k, x) ∈ kvs → travels env x (f x)) →
  travels env (PDict kvs) match loop_dict f kvs with
                | inl e => inl e
                | inr (changed, out) => inr (if changed : bool then New (PDict out) else Same)
                end.
Proof.
  intros Hr Hkvs. destruct (loop_dict_travels env f kvs Hkvs) as (ch & out & -> & Hsame & _ & Hws).
  eexists; split; [done|]. intros w Hw m Hm. rewrite (wire_shared_dict ch out kvs Hsame) in Hw.
  simpl in Hw. destruct (try_dict wire_transfer out) as [|ws]; [done|]. injection Hw as <-.
  destruct (Hws ws eq_refl) as [Hkeys Hws']. destruct m as [|m]; [lia|].
  destruct (Hws' m) as (ch' & out' & Hl & -> & Hsame').
  { intros k w Hin. pose proof (depth_dict k w ws Hin). lia. }
  simpl. rewrite (assoc_None_keys RESERVED kvs ws Hkeys Hr) Hl. eexists; split; [done|].
  destruct ch'; [done|]. simpl. by rewrite Hsame'.
Qed.

Lemma dataclass_travels env (Hinit : dataclass_init env) f tag attrs members :
  registry env !! tag = None → _import_class env tag = inr (PyObject (Some tag) members) →
  kind_of env tag = KDataclass attrs.*1 → NoDup attrs.*1 →
  (∀ k x, (k, x) ∈ attrs → travels env x (f x)) →
  travels env (PObj tag attrs) match encode_fields f attrs attrs.*1 with
                               | inl e => inl e
                               | inr data => inr (New (tagged tag (PDict data)))
                               end.
Proof.
  intros Hreg Himp Hk Hnd Hattrs. rewrite encode_fields_all //.
  destruct (loop_dict_travels env f attrs Hattrs) as (ch & out & -> & _ & _ & Hws).
  eexists; split; [done|]. intros w Hw m Hm. eapply tagged_travels; [done|done|].
  intros d n Hd Hn. simpl in Hd. destruct (try_dict wire_transfer out) as [|ws]; [done|]. injection Hd as <-.
  destruct (Hws ws eq_refl) as [Hkeys Hws']. destruct (Hws' n) as (ch' & out' & Hl & -> & _).
  { intros k x Hin. pose proof (depth_dict k x ws Hin). lia. }
  unfold _rebuild. rewrite Hreg Himp Hk /= Hl Hreg Hk.
  apply (Hinit tag attrs.*1); [done|]. rewrite -list_fmap_compose. by apply list_fmap_ext.
Qed.

Lemma codable_travels env (Hinit : dataclass_init env) n : ∀ v,
  depth v < n → codable env v → travels env v (_encode_obj env n v).
Proof.
  induction n as [|n IH]; intros v Hn Hc; [lia|].
  destruct v as [| | |fl| |xs|xs|kvs|tag attrs]; simpl _encode_obj.
  all: try (exists Same; split; [done|]; intros w Hw [|m] Hm; [lia|]; simpl in Hw;
            repeat case_match; simplify_eq; by exists Same).
  - apply list_travels; [auto|]. intros x Hx. pose proof (depth_list x xs Hx).
    apply IH; [lia|]. by eapply All_elem.
  - apply list_travels; [auto|]. intros x Hx. pose proof (depth_list x xs Hx). simpl in *.
    apply IH; [lia|]. by eapply All_elem.
  - destruct Hc as [Hr Hc]. apply dict_travels; [done|]. intros k x Hx.
    pose proof (depth_dict k x kvs Hx). apply IH; [lia|]. by apply (All_elem _ _ (k, x)) in Hc.
  - simpl in Hc. destruct (registry env !! tag) as [entry|] eqn:Hreg.
    { destruct Hc as (data & -> & Hload). eexists; split; [done|]. intros w Hw m Hm.
      eapply tagged_travels; [done|done|]. intros d n' Hd _. unfold _rebuild. rewrite Hreg Hload //.
      simpl. by rewrite Hreg. }
    destruct Hc as [[members Himp] Hc]. destruct (kind_of env tag) as [names| |] eqn:Hk; [| |done].
    + destruct Hc as (<- & Hnd & Hall). eapply dataclass_travels; try done.
      intros k x Hx. pose proof (depth_dict k x attrs Hx). simpl in *. apply IH; [lia|].
      by apply (All_elem _ _ (k, x)) in Hall.
    + destruct Hc as (data & -> & Hload). eexists; split; [done|]. intros w Hw m Hm.
      eapply tagged_travels; [done|done|]. intros d n' Hd _. unfold _rebuild.
      rewrite Hreg Himp Hk Hload //=. by rewrite Hreg Hk.
Qed.


(** An application with one dataclass, [app.Order], for concrete runs. *)
Definition demo_env : codec_env := {|
  registry := ∅;
  kind_of := λ tag, if String.eqb tag "app.Order" then KDataclass ["id"; "items"] else KOther;
  import_module := λ m, if String.eqb m "app"
                        then inr (PyObject None [("Order", PyObject (Some "app.Order") [])])
                        else inl (Exn "ModuleNotFoundError" ("No module named " +:+ py_repr m));
  construct := λ tag kwargs, inr (PObj tag kwargs);
  model_dump := λ _ _, inl (TypeError "not a model");
  model_validate := λ _ _, inl (TypeError "not a model")
|}.

Definition demo_order : pyval :=
  PObj "app.Order" [("id", PInt 7); ("items", PTuple [PStr "a"; PStr "b"])].


(** ** Nested classes *)

Lemma char_in_app c s1 s2 : char_in c (s1 +:+ s2) = char_in c s1 || char_in c s2.
Proof. induction s1 as [|a s1 IH]; simpl; [done|]. by rewrite IH orb_assoc. Qed.

Lemma append_assoc s1 s2 s3 : s1 +:+ (s2 +:+ s3) = (s1 +:+ s2) +:+ s3.
Proof.
  induction s1 as [|a s1 IH]; [done|].
  change (String a (s1 +:+ (s2 +:+ s3)) = String a ((s1 +:+ s2) +:+ s3)). by rewrite IH.
Qed.

Lemma rpartition_app m q :
  char_in dot q = false → rpartition_dot (m +:+ String dot q) = (m, q).
Proof.
  intros Hq. induction m as [|a m IH]; simpl.
  - by rewrite Hq.
  - rewrite char_in_app /= orb_true_r. by rewrite IH.
Qed.

(** A class nested in another one cannot be received.  The tag of such a
    class is [module.Outer.Inner]; splitting it at the last dot makes
    [module.Outer] the module to import, so that decoding any instance raises
    [ValueError], whatever [module] holds and although the lookup that
    follows is written for a dotted [qualname]. *)
Theorem nested_class_undecodable env module outer inner data msg :
  let tag := module +:+ String dot outer +:+ String dot inner in
  char_in dot inner = false → registry env !! tag = None →
  import_module env (module +:+ String dot outer) = inl (Exn "ModuleNotFoundError" msg) →
  decode_value env (tagged tag data) = inl (no_codec tag).
Proof.
  intros tag Hinner Hreg Himp.
  assert (rpartition_dot tag = (module +:+ String dot outer, inner)) as Hrp.
  { unfold tag. change (String dot outer +:+ String dot inner) with (String dot (outer +:+ String dot inner)).
    rewrite -(rpartition_app (module +:+ String dot outer) inner) //. f_equal.
    apply (append_assoc module (String dot outer) (String dot inner)). }
  clearbody tag.
  assert (_import_class env tag = inl (Exn "ModuleNotFoundError" msg)) as Hi.
  { unfold _import_class. rewrite Hrp. rewrite bool_decide_eq_false_2; [by destruct module|].
    by rewrite Himp. }
  unfold decode_value. simpl. unfold _rebuild. by rewrite Hreg Hi.
Qed.

Lemma nested_class_undecodable_witness :
  decode_value demo_env (tagged "app.Order.Line" (PDict [("n", PInt 1)])) = inl (no_codec "app.Order.Line").
Proof.
  apply (nested_class_undecodable demo_env "app" "Order" "Line" _ "No module named 'app.Order'");
    vm_compute; reflexivity.
Defined.
