(* ===== verification/Refs.v ===== *)
(** * Asking and replying

    [src/lapinbeam/refs.py] and [src/lapinbeam/context.py]: [send], [ask] and
    [ask_stream] of a reference, and the replies of [MessageMeta].  [ask] is
    cut at its wait for the reply: [ask_begin] registers the hidden mailbox
    and sends, [ask_end] is what runs when a reply is there or the timeout
    has passed. *)

From stdpp Require Import pretty.
From S2P Require Import Prelude Values NodeId Actors State PeerEvents Asyncio Node NodeProps Links.

Definition STREAM_KEY : string := "__lapinbeam_stream__".

(** [f"__lapinbeam_ask_{n}__"] *)
Definition ask_name (n : N) : string := "__lapinbeam_ask_" +:+ pretty n +:+ "__".

Section refs.
Context {codec : PayloadCodec}.

(** [ActorRef.send] and [RemoteRef.send] *)
Definition ref_send (ref : actor_ref) (msg : pyval) (rt : option string) (corr : option Z) : M st unit :=
  match ref with
  | ActorRef name => _send_local name msg rt corr
  | RemoteRef peer_id actor_name => _send_remote peer_id actor_name msg rt corr
  end.

(** [finally: node.unregister_actor(name)] after an exception [e]. *)
Definition finally_unregister {A} (name : string) (e : exn) : M st A :=
  unregister_actor name ;; raise e.

(** [_ask] and [_ask_stream] up to the wait: the hidden mailbox.  [maxsize] is
    1 for [_ask] and 0, unbounded, for [_ask_stream]. *)
Definition ask_begin (ref : actor_ref) (n : N) (maxsize : nat) (msg : pyval) : M st qid :=
  let name := ask_name n in
  let! q := alloc in
  modify (λ s, s <| queues ::= <[q := Queue [] maxsize]> |>) ;;
  register_actor name q ;;
  try_except (ref_send ref msg (Some name) (Some (Z.of_N n)) ;; ret q)
             (finally_unregister name).

(** [await mailbox.get()]: the oldest reply, or the timeout. *)
Definition mailbox_get (q : qid) : M st envelope :=
  let! s := get in
  match queues s !! q ≫= get_nowait with
  | Some (item, qu') => modify (λ s, s <| queues ::= <[q := qu']> |>) ;; ret item
  | None => raise (Exn "TimeoutError" "")
  end.

(** The rest of [_ask]. *)
Definition ask_end (n : N) (q : qid) : M st pyval :=
  let name := ask_name n in
  let! item := try_except (mailbox_get q) (finally_unregister name) in
  unregister_actor name ;;
  ret item.1.

Definition stream_misuse : exn :=
  RuntimeError "ask_stream() received a reply not sent via reply_stream()/reply_final() — did the handler use current_message().reply() instead?".

(** One item of [_ask_stream]: what it yields and whether it was the last. *)
Definition stream_item (reply : pyval) : exn + (pyval * bool) :=
  match reply with
  | PDict kvs =>
      match assoc STREAM_KEY kvs with
      | None => inl stream_misuse
      | Some mark =>
          match getitem reply "value" with
          | inl e => inl e
          | inr v => inr (v, is_str mark "final")
          end
      end
  | _ => inl stream_misuse
  end.

(** The loop of [_ask_stream] over the replies that are there: the values it
    yields, and whether it ended ([true]) or waits for the next reply.  Each
    turn takes one reply from the mailbox, so its length bounds the turns. *)
Fixpoint stream_loop (fuel : nat) (n : N) (q : qid) : M st (list pyval * bool) :=
  match fuel with
  | O => ret ([], false)
  | S fuel' =>
      let! s := get in
      match queues s !! q ≫= get_nowait with
      | None => ret ([], false)
      | Some (item, qu') =>
          modify (λ s, s <| queues ::= <[q := qu']> |>) ;;
          match stream_item item.1 with
          | inl e => finally_unregister (ask_name n) e
          | inr (v, true) => unregister_actor (ask_name n) ;; ret ([v], true)
          | inr (v, false) =>
              let! rest := stream_loop fuel' n q in
              ret (v :: rest.1, rest.2)
          end
      end
  end.

(** ** [MessageMeta] *)

(** [_reply_ref] *)
Definition reply_ref (meta : message_meta) (rt : string) (s : st) : actor_ref :=
  if bool_decide (src meta = Some (local_id s)) then ActorRef rt
  else RemoteRef (default "" (src meta)) rt.

Definition no_reply_to : exn := RuntimeError "message has no reply_to; nothing to reply to".

(** [reply] *)
Definition reply (meta : message_meta) (msg : pyval) : M st unit :=
  match reply_to meta with
  | None => raise no_reply_to
  | Some rt =>
      let! s := get in
      ref_send (reply_ref meta rt s) msg None (correlation_id meta)
  end.

(** [_send_stream]; [reply_stream] is [final = false], [reply_final] is
    [final = true]. *)
Definition stream_envelope (msg : pyval) (final : bool) : pyval :=
  PDict [(STREAM_KEY, PStr (if final then "final" else "item")); ("value", msg)].

Definition send_stream (meta : message_meta) (msg : pyval) (final : bool) : M st unit :=
  match reply_to meta with
  | None => raise no_reply_to
  | Some rt =>
      let! s := get in
      ref_send (reply_ref meta rt s) (stream_envelope msg final) None (correlation_id meta)
  end.

Definition reply_stream (meta : message_meta) (msg : pyval) : M st unit := send_stream meta msg false.
Definition reply_final (meta : message_meta) (msg : pyval) : M st unit := send_stream meta msg true.

(** ** Properties *)

Lemma send_local_room name msg rt corr s q qu :
  _mailboxes s !! name = Some q → queues s !! q = Some qu → q_full qu = false →
  _send_local name msg rt corr s =
  (inr tt, s <| queues ::= <[q := qu <| q_items ::= λ l,
                  l ++ [(msg, MessageMeta (Some (local_id s)) rt corr None)] |>]> |>).
Proof.
  intros Hm Hq Hf. rewrite (send_local_spec _ _ _ _ _ q qu) //. unfold put_nowait. by rewrite Hf.
Qed.

(** What an asked handler sees about the message. *)
Definition asked_by (node : string) (n : N) : message_meta :=
  MessageMeta (Some node) (Some (ask_name n)) (Some (Z.of_N n)) None.

(** The asker waits: its hidden mailbox is registered and has room [maxsize]. *)
Record waiting (s : st) (node : string) (n : N) (q : qid) (maxsize : nat) : Prop := {
  wt_running : running s;
  wt_local : local_id s = node;
  wt_mailbox : _mailboxes s !! ask_name n = Some q;
  wt_queue : queues s !! q = Some (Queue [] maxsize)
}.

Lemma ask_begin_local target n maxsize msg s qt qu :
  running s → _mailboxes s !! ask_name n = None →
  _mailboxes s !! target = Some qt → queues s !! qt = Some qu → q_full qu = false →
  queues s !! next_id s = None →
  let q := next_id s in
  let r := ask_begin (ActorRef target) n maxsize msg s in
  r.1 = inr q ∧ waiting r.2 (local_id s) n q maxsize ∧
  queues r.2 !! qt = Some (qu <| q_items ::= λ l, l ++ [(msg, asked_by (local_id s) n)] |>) ∧
  _mailboxes r.2 = <[ask_name n := q]> (_mailboxes s).
Proof.
  intros Hrun Hfree Hm Hq Hf Hnew q r. assert (qt ≠ q) as Hne by (intros ->; unfold q in Hq; by rewrite Hnew in Hq).
  assert (target ≠ ask_name n) as Hne' by (intros ->; congruence).
  unfold r, ask_begin; simpl. rewrite register_actor_ok //=; [by left|].
  set (s1 := s <| next_id ::= S |> <| queues ::= <[q := Queue [] maxsize]> |>
               <| _mailboxes ::= <[ask_name n := q]> |>
               <| _core ::= fmap (λ co, co <| co_routing ::= union {[ask_name n]} |>) |>).
  assert (local_id s1 = local_id s) as Hl by (unfold local_id, s1; simpl; by destruct (_core s)).
  rewrite (send_local_room _ _ _ _ s1 qt qu) //=; [by rewrite lookup_insert_ne|by rewrite lookup_insert_ne|].
  fold s1. rewrite Hl. split; [done|]. split; [|split; [by rewrite lookup_insert_eq|done]].
  destruct Hrun as (co & Hco & Hr). split; simpl.
  - exists (co <| co_routing ::= union {[ask_name n]} |>). by rewrite /s1 /= Hco.
  - exact Hl.
  - by rewrite lookup_insert_eq.
  - by rewrite lookup_insert_ne // lookup_insert_eq.
Qed.

Lemma reply_local s node n q maxsize v items :
  local_id s = node → _mailboxes s !! ask_name n = Some q →
  queues s !! q = Some (Queue items maxsize) → q_full (Queue items maxsize) = false →
  ∀ msg, ref_send (reply_ref (asked_by node n) (ask_name n) s) msg None (Some v) s =
  (inr tt, s <| queues ::= <[q := Queue (items ++ [(msg, MessageMeta (Some node) None (Some v) None)]) maxsize]> |>).
Proof.
  intros <- Hm Hq Hf msg. unfold reply_ref; simpl. rewrite bool_decide_eq_true_2 //=.
  by rewrite (send_local_room _ _ _ _ s q _ Hm Hq Hf).
Qed.

Lemma unregister_mailboxes name s :
  running s → ∃ s', unregister_actor name s = (inr tt, s') ∧
    _mailboxes s' = delete name (_mailboxes s) ∧ queues s' = queues s ∧ reported s' = reported s.
Proof. intros Hrun. rewrite unregister_actor_spec //. by eexists. Qed.

Lemma ask_end_reply n q s item items maxsize :
  running s → queues s !! q = Some (Queue (item :: items) maxsize) →
  ∃ s', ask_end n q s = (inr item.1, s') ∧
    _mailboxes s' = delete (ask_name n) (_mailboxes s) ∧ reported s' = reported s.
Proof.
  intros Hrun Hq. unfold ask_end, mailbox_get; simpl. rewrite Hq /=.
  destruct (unregister_mailboxes (ask_name n) (s <| queues ::= <[q := Queue items maxsize]> |>))
    as (s' & Hu & Hm & _ & Hr); [done|]. simpl in Hu. rewrite Hu. by eexists.
Qed.

(** The state after a report keeps a started node started. *)
Lemma on_core_event_running ev s s' :
  _on_core_event ev s = (inr tt, s') → running s → running s'.
Proof.
  intros He (co & Hco & Hr). pose proof (on_core_event_frame ev s) as Hf. simpl in Hf.
  rewrite He in Hf. exists co. by rewrite (ef_core _ _ Hf).
Qed.

(** Ask and reply on one node.  The asked actor finds the message at the
    end of its mailbox with the asker's hidden address and correlation id;
    whatever happens in between, its first reply is what the asker gets, a
    second one is dropped (and reported) instead of reaching anybody; when
    nobody replied the asker gets [TimeoutError]; and in both cases the hidden
    address is gone afterwards. *)
Theorem ask_reply_local target n msg s qt qu :
  running s → _mailboxes s !! ask_name n = None →
  _mailboxes s !! target = Some qt → queues s !! qt = Some qu → q_full qu = false →
  queues s !! next_id s = None →
  let me := local_id s in
  let r := ask_begin (ActorRef target) n 1 msg s in
  ∃ q, r.1 = inr q ∧ waiting r.2 me n q 1 ∧
  queues r.2 !! qt = Some (qu <| q_items ::= λ l, l ++ [(msg, asked_by me n)] |>) ∧
  ∀ s2, waiting s2 me n q 1 →
    (∃ s3, ask_end n q s2 = (inl (Exn "TimeoutError" ""), s3) ∧
           _mailboxes s3 = delete (ask_name n) (_mailboxes s2)) ∧
    (∀ v v', ∃ s3, (reply (asked_by me n) v ;; reply (asked_by me n) v' ;; ask_end n q) s2 = (inr v, s3) ∧
       _mailboxes s3 = delete (ask_name n) (_mailboxes s2) ∧
       reported s3 = reported s2 ++ user_reports (_event_listeners s2) (EvMailboxFull (ask_name n))).
Proof.
  intros Hrun Hfree Hm Hq Hf Hnew me r.
  destruct (ask_begin_local target n 1 msg s qt qu Hrun Hfree Hm Hq Hf Hnew) as (Hr & Hw & Hqt & _).
  exists (next_id s). split_and!; [done..|]. intros s2 [Hrun2 Hl2 Hm2 Hq2]. split.
  - unfold ask_end, mailbox_get; simpl. rewrite Hq2 /=.
    destruct (unregister_mailboxes (ask_name n) s2 Hrun2) as (s3 & Hu & Hm3 & _ & _).
    unfold finally_unregister; simpl. rewrite Hu. by eexists.
  - intros v v'. unfold reply; simpl.
    rewrite (reply_local s2 me n (next_id s) 1 _ []) //.
    set (item := (v, MessageMeta (Some me) None (Some (Z.of_N n)) None)).
    set (s3 := s2 <| queues ::= <[next_id s := Queue ([] ++ [item]) 1]> |>).
    assert (local_id s3 = me) as Hl3 by done.
    assert (queues s3 !! next_id s = Some (Queue [item] 1)) as Hq3 by by rewrite /s3 /= lookup_insert_eq.
    unfold reply_ref; simpl. rewrite bool_decide_eq_true_2; [by rewrite Hl3|]. simpl.
    rewrite (send_local_spec _ _ _ _ s3 (next_id s) (Queue [item] 1)) // /put_nowait /=.
    destruct (on_core_event_total (EvMailboxFull (ask_name n)) s3) as [s4 H4]. rewrite H4.
    pose proof (on_core_event_frame (EvMailboxFull (ask_name n)) s3) as Hfr.
    pose proof (on_core_event_spec (EvMailboxFull (ask_name n)) s3) as [_ Hrep].
    simpl in Hfr, Hrep. rewrite H4 in Hfr, Hrep.
    destruct (ask_end_reply n (next_id s) s4 item [] 1) as (s5 & -> & Hm5 & Hr5).
    { by eapply on_core_event_running. }
    { by rewrite (ef_queues _ _ Hfr). }
    eexists; split; [done|]. rewrite Hm5 (ef_mailboxes _ _ Hfr) Hr5 Hrep. done.
Qed.

(** *** Streams *)

Definition stream_items (node : string) (n : N) (vs : list pyval) : list envelope :=
  (λ v, (stream_envelope v false, MessageMeta (Some node) None (Some (Z.of_N n)) None)) <$> vs.

Lemma reply_stream_all node n q vs : ∀ s items,
  local_id s = node → _mailboxes s !! ask_name n = Some q → queues s !! q = Some (Queue items 0) →
  ∃ s', for_each vs (reply_stream (asked_by node n)) s = (inr tt, s') ∧
    local_id s' = node ∧ _mailboxes s' = _mailboxes s ∧ _core s' = _core s ∧
    queues s' !! q = Some (Queue (items ++ stream_items node n vs) 0).
Proof.
  induction vs as [|v vs IH]; intros s items Hl Hm Hq; simpl.
  { eexists; split; [done|]. by rewrite app_nil_r. }
  unfold reply_stream, send_stream; simpl. rewrite (reply_local s node n q 0 _ items) //.
  set (it := (stream_envelope v false, MessageMeta (Some node) None (Some (Z.of_N n)) None)).
  destruct (IH (s <| queues ::= <[q := Queue (items ++ [it]) 0]> |>) (items ++ [it]))
    as (s' & Hs' & Hl' & Hm' & Hc' & Hq'); [done|done|by rewrite /= lookup_insert_eq|].
  exists s'. split; [exact Hs'|]. split_and!; try done. by rewrite Hq' -app_assoc.
Qed.

Lemma stream_loop_items node n q vs v fin : ∀ s fuel,
  running s → length vs < fuel →
  queues s !! q = Some (Queue (stream_items node n vs ++ [(stream_envelope v true, fin)]) 0) →
  ∃ s', stream_loop fuel n q s = (inr (vs ++ [v], true), s') ∧
    _mailboxes s' = delete (ask_name n) (_mailboxes s).
Proof.
  induction vs as [|x vs IH]; intros s [|fuel] Hrun Hlen Hq; simpl in Hlen; try lia.
  - simpl. rewrite Hq /=.
    destruct (unregister_mailboxes (ask_name n) (s <| queues ::= <[q := Queue [] 0]> |>))
      as (s' & Hu & Hm & _); [done|]. simpl in Hu. rewrite Hu. by eexists.
  - simpl. rewrite Hq /=.
    set (qu := Queue (stream_items node n vs ++ [(stream_envelope v true, fin)]) 0).
    destruct (IH (s <| queues ::= <[q := qu]> |>) fuel) as (s' & Hs' & Hm');
      [done|lia|by rewrite /= lookup_insert_eq|].
    simpl in Hs'. rewrite Hs'. by eexists.
Qed.


(** *** Across nodes *)

(** A started node with id [me] that is connected to [peer] and whose
    transport takes every payload. *)
Record connected (s : st) (me peer : string) (co : core_t) : Prop := {
  cn_core : _core s = Some co;
  cn_running : co_running co = true;
  cn_local : local_id s = me;
  cn_peer : is_peer co peer;
  cn_open : ∀ p v, co_refuses co p v = None
}.

Lemma deliver_room name q payload meta s qu :
  plain payload = true → queues s !! q = Some qu → q_full qu = false →
  deliver_callback name q payload meta s =
  (inr tt, s <| queues ::= <[q := qu <| q_items ::= λ l, l ++ [(payload, meta)] |>]> |>).
Proof.
  intros Hp Hq Hf. unfold deliver_callback. rewrite decode_plain //; simpl.
  unfold mailbox_put. by rewrite Hq /put_nowait Hf.
Qed.

Lemma u64_arg_ok n : (n < 2 ^ 64)%N → u64_arg (Some (Z.of_N n)) = inr tt.
Proof. intros Hn. unfold u64_arg. rewrite !bool_decide_eq_false_2 //; lia. Qed.

Lemma ask_begin_remote peer target n msg s me co :
  connected s me peer co → (n < 2 ^ 64)%N → _mailboxes s !! ask_name n = None →
  plain msg = true → wire_safe msg = true →
  let q := next_id s in
  let r := ask_begin (RemoteRef peer target) n 1 msg s in
  r.1 = inr q ∧ waiting r.2 me n q 1 ∧
  option_map co_out (_core r.2) = Some (co_out co ++
    [Frame peer target msg (Some (ask_name n)) (Some (Z.of_N n)) (co_next_msg_id co)]).
Proof.
  intros [Hco Hrun Hl Hp Ho] Hn%u64_arg_ok Hfree Hpl Hws q r.
  unfold r, ask_begin; simpl. rewrite register_actor_ok //=; [by eexists|by left|].
  set (co1 := co <| co_routing ::= union {[ask_name n]} |>).
  rewrite (send_remote_ok peer target msg _ _ _ co1) //=; [by rewrite Hco|].
  split; [done|]. split; [|done]. split; simpl.
  - eexists; split; [done|]. done.
  - rewrite -Hl. unfold local_id; simpl. by rewrite Hco.
  - by rewrite lookup_insert_eq.
  - by rewrite lookup_insert_eq.
Qed.


End refs.
