(* ===== verification/Pool.v ===== *)
(** * Worker pools

    [Supervisor._spawn_pool] of [src/lapinbeam/supervisor.py] and [PoolRef] of
    [src/lapinbeam/refs.py]: the dispatcher that puts messages on the shared
    queue or, with a [key], on the queue of the worker the key selects; the
    workers' loop; spawning and stopping.  The queues belong to the closures
    of [_spawn_pool], not to the node, so they are a state of their own, and
    so is how far each worker's [receive] has come. *)

From stdpp Require Import pretty.
From S2P Require Import Prelude Values NodeId Actors State PeerEvents Asyncio Node NodeProps Links.
From S2P Require Import Supervisor SupervisorProps Refs.

(** ** Arguments *)

(** [handler]: a function, which may be a coroutine function, or an [@actor]
    class. *)
Inductive pool_handler := HFunction (is_coroutine : bool) | HActorClass (cls : string) (meta : actor_meta).

(** The checks on [executor], the last one by the executor itself. *)
Definition check_executor (handler : pool_handler) (executor : option string) (n_workers : nat) : exn + unit :=
  match executor with
  | None => inr tt
  | Some x =>
      if negb (bool_decide (x ∈ ["thread"; "process"]))
      then inl (ValueError ("executor must be 'thread', 'process', or None, not " +:+ py_repr x))
      else
        match handler with
        | HActorClass _ _ =>
            inl (TypeError ("spawn_pool(executor=...) doesn't support an @actor class handler " +:+
              "— per-instance state can't cross a thread/process boundary; use a " +:+ "plain function"))
        | HFunction true =>
            inl (TypeError ("spawn_pool(executor=...) requires a synchronous handler (def, not " +:+
              "async def) — it runs off the event loop, in a real thread/process"))
        | HFunction false =>
            if bool_decide (n_workers = 0) then inl (ValueError "max_workers must be greater than 0") else inr tt
        end
  end.

(** ** The closures' state *)

(** Worker [i]'s [receive]: not called yet, waiting for its queue, inside the
    handler of an item, or ended by [CancelledError]. *)
Inductive wstate := WUnstarted | WWaiting | WHandling (item : envelope) | WEnded.

Record pool := Pool {
  p_name : string;
  p_workers : nat;
  p_maxsize : nat;
  (* [hash(key(msg))], or what [key] raises *)
  p_key : option (pyval → exn + Z);
  p_handler : pool_handler;
  p_executor : bool;
  p_queues : list (queue envelope);
  p_states : list wstate;
  (* [exec_pool.shutdown()] was called *)
  p_shut : bool
}.

#[export] Instance pool_settable : Settable pool :=
  λ r, Pool (p_name r) (p_workers r) (p_maxsize r) (p_key r) (p_handler r) (p_executor r) (p_queues r)
            (p_states r) (p_shut r).

Definition new_pool (name : string) (n_workers : nat) (queue_capacity : option nat)
    (key : option (pyval → exn + Z)) (handler : pool_handler) (executor : bool) : pool :=
  let maxsize := capacity_or_0 queue_capacity in
  let queues := match key with
                | Some _ => replicate n_workers (Queue [] maxsize)
                | None => [Queue [] maxsize]
                end in
  Pool name n_workers maxsize key handler executor queues (replicate n_workers WUnstarted) false.

(** [hash(key(msg)) % n_workers] *)
Definition shard (n_workers : nat) (key : pyval → exn + Z) (msg : pyval) : exn + nat :=
  match key msg with
  | inl e => inl e
  | inr h =>
      if bool_decide (n_workers = 0) then inl (Exn "ZeroDivisionError" "integer modulo by zero")
      else inr (Z.to_nat (h mod Z.of_nat n_workers))
  end.

(** [worker_queue = queues[index] if sharded else queue] *)
Definition queue_index (p : pool) (worker : nat) : nat :=
  match p_key p with Some _ => worker | None => 0 end.

(** ** The dispatcher *)

Definition put_target (p : pool) (i : nat) (item : envelope) : M st pool :=
  match p_queues p !! i ≫= put_nowait item with
  | Some qu => ret (p <| p_queues ::= <[i := qu]> |>)
  | None =>
      _on_core_event (EvPoolQueueFull (p_name p)
        ("pool " +:+ py_repr (p_name p) +:+ "'s queue is full (capacity=" +:+ pretty (p_maxsize p) +:+ ")")) ;;
      ret p
  end.

(** [_Dispatcher.receive] *)
Definition dispatcher_receive (p : pool) (msg : pyval) (meta : message_meta) : M st pool :=
  match p_key p with
  | Some key =>
      match shard (p_workers p) key msg with
      | inl exc =>
          _on_core_event (EvPoolWorkerError (p_name p) ("key() raised " +:+ exn_detail exc)) ;; ret p
      | inr i => put_target p i (msg, meta)
      end
  | None => put_target p 0 (msg, meta)
  end.

(** ** The workers *)

(** What a handler does with one item: it returns (a value, with an
    executor) or raises. *)
Inductive pool_outcome := PReturn (v : pyval) | PRaise (e : exn).

Section pool.
Context {codec : PayloadCodec}.

(** The body of the inner [try]. *)
Definition worker_body (p : pool) (item : envelope) (o : pool_outcome) : M st unit :=
  let run := match o with PReturn v => ret v | PRaise e => raise e end in
  if p_executor p then
    let! result := run in
    if bool_decide (is_Some (reply_to item.2)) then reply item.2 result else ret tt
  else
    match p_handler p with
    | HActorClass cls meta => lift (dispatch cls meta item.1) ;; run ;; ret tt
    | HFunction _ => run ;; ret tt
    end.

(** What submitting to an executor that was shut down raises. *)
Definition executor_shut : exn := RuntimeError "cannot schedule new futures after shutdown".

(** [except Exception as exc] *)
Definition worker_error (p : pool) (exc : exn) : M st unit :=
  _on_core_event (EvPoolWorkerError (p_name p) (exn_detail exc)).

(** The worker is called with its start message. *)
Definition worker_start (p : pool) (i : nat) : pool :=
  match p_states p !! i with
  | Some WUnstarted => p <| p_states ::= <[i := WWaiting]> |>
  | _ => p
  end.

(** [item, meta = await worker_queue.get()] and the start of the handler;
    [None] when worker [i] is busy or its queue is empty. *)
Definition worker_begin (p : pool) (i : nat) : M st (option envelope * pool) :=
  match p_states p !! i, p_queues p !! queue_index p i ≫= get_nowait with
  | Some WWaiting, Some (item, qu) =>
      let p1 := p <| p_queues ::= <[queue_index p i := qu]> |> in
      if p_executor p && p_shut p
      then worker_error p executor_shut ;; ret (Some item, p1)
      else ret (Some item, p1 <| p_states ::= <[i := WHandling item]> |>)
  | _, _ => ret (None, p)
  end.

(** The handler ends. *)
Definition worker_end (p : pool) (i : nat) (o : pool_outcome) : M st pool :=
  match p_states p !! i with
  | Some (WHandling item) =>
      try_except (worker_body p item o) (worker_error p) ;;
      ret (p <| p_states ::= <[i := WWaiting]> |>)
  | _ => ret p
  end.

(** [CancelledError] in [receive]: [finally: exec_pool.shutdown(...)]. *)
Definition worker_cancelled (p : pool) (i : nat) : pool :=
  match p_states p !! i with
  | Some (WWaiting | WHandling _) =>
      p <| p_states ::= <[i := WEnded]> |> <| p_shut ::= orb (p_executor p) |>
  | _ => p
  end.

(** A new generation of the worker's actor: a fresh instance. *)
Definition worker_reborn (p : pool) (i : nat) : pool :=
  match p_states p !! i with
  | Some WEnded => p <| p_states ::= <[i := WUnstarted]> |>
  | _ => p
  end.

(** ** Spawning and stopping *)

(** [f"__{name}_worker_{index}__"] *)
Definition worker_name (name : string) (index : nat) : string :=
  "__" +:+ name +:+ "_worker_" +:+ pretty index +:+ "__".

Fixpoint spawn_workers (sp : sid) (name : string) (indices : list nat) : M st (list cid) :=
  match indices with
  | [] => ret []
  | i :: rest =>
      let! c := spawn sp "_Worker" (plain_actor (worker_name name i)) in
      _send_local (worker_name name i) (PDict [("start", PBool true)]) None None ;;
      let! cs := spawn_workers sp name rest in
      ret (c :: cs)
  end.

(** [_spawn_pool]: the pool, its dispatcher and its workers. *)
Definition _spawn_pool (sp : sid) (handler : pool_handler) (n_workers : nat) (name : string)
    (queue_capacity : option nat) (executor : option string) (key : option (pyval → exn + Z))
    : M st (pool * cid * list cid) :=
  lift (check_executor handler executor n_workers) ;;
  let p := new_pool name n_workers queue_capacity key handler (bool_decide (is_Some executor)) in
  let! d := spawn sp "_Dispatcher" (plain_actor name) in
  let! ws := spawn_workers sp name (seq 0 n_workers) in
  ret (p, d, ws).

(** [PoolRef.stop] up to its [await gather(...)], and the rest. *)
Definition pool_stop_begin (d : cid) (ws : list cid) : M st (list tid) :=
  let! s := get in
  let ts := tasks_of s (d :: ws) in
  for_each ts cancel ;; ret ts.

Definition pool_stop_end (sp : sid) (d : cid) (ws : list cid) : M st unit :=
  for_each (d :: ws) (_discard_child sp).

(** ** Whatever happens in a pool *)

Inductive pool_op :=
| ODispatch (msg : pyval) (meta : message_meta)
| OStart (i : nat)
| OBegin (i : nat)
| OEnd (i : nat) (o : pool_outcome)
| OCancel (i : nat)
| OReborn (i : nat).

(** What can be observed of it: a worker began with an item, and was done with
    it (its handler ended, could not start, or was cancelled). *)
Inductive pool_event := Began (i : nat) (item : envelope) | Done (i : nat) (item : envelope).

Definition handling (p : pool) (i : nat) : option envelope :=
  match p_states p !! i with Some (WHandling item) => Some item | _ => None end.

Definition done_events (p : pool) (i : nat) : list pool_event :=
  match handling p i with Some item => [Done i item] | None => [] end.

Definition pool_act (o : pool_op) (p : pool) : M st (pool * list pool_event) :=
  match o with
  | ODispatch msg meta => let! p' := dispatcher_receive p msg meta in ret (p', [])
  | OStart i => ret (worker_start p i, [])
  | OBegin i =>
      let! r := worker_begin p i in
      ret (r.2, match r.1 with
                | Some item => Began i item :: (if p_executor p && p_shut p then [Done i item] else [])
                | None => []
                end)
  | OEnd i o => let! p' := worker_end p i o in ret (p', done_events p i)
  | OCancel i => ret (worker_cancelled p i, done_events p i)
  | OReborn i => ret (worker_reborn p i, [])
  end.

Fixpoint pool_run (ops : list pool_op) (p : pool) : M st (pool * list pool_event) :=
  match ops with
  | [] => ret (p, [])
  | o :: rest =>
      let! r := pool_act o p in
      let! rs := pool_run rest r.1 in
      ret (rs.1, r.2 ++ rs.2)
  end.

(** ** Properties *)

(** The queue that the dispatcher puts [msg] on. *)
Definition route (p : pool) (msg : pyval) : option nat :=
  match p_key p with
  | Some key => match shard (p_workers p) key msg with inr j => Some j | inl _ => None end
  | None => Some 0
  end.

Definition routed (p : pool) (j : nat) (ops : list pool_op) : list envelope :=
  omap (λ o, match o with
             | ODispatch msg meta => if bool_decide (route p msg = Some j) then Some (msg, meta) else None
             | _ => None
             end) ops.

(** What was taken from queue [j]. *)
Definition taken (p : pool) (j : nat) (evs : list pool_event) : list envelope :=
  omap (λ e, match e with
             | Began i item => if bool_decide (queue_index p i = j) then Some item else None
             | Done _ _ => None
             end) evs.

(** Worker [i], which has the item [cur], begins with one only when it is done
    with the one before, and ends up with [fin]. *)
Fixpoint serial (i : nat) (cur : option envelope) (evs : list pool_event) (fin : option envelope) : Prop :=
  match evs with
  | [] => fin = cur
  | Began i' item :: rest =>
      if bool_decide (i' = i) then cur = None ∧ serial i (Some item) rest fin else serial i cur rest fin
  | Done i' item :: rest =>
      if bool_decide (i' = i) then cur = Some item ∧ serial i None rest fin else serial i cur rest fin
  end.

Lemma serial_app i evs1 evs2 mid fin : ∀ cur,
  serial i cur evs1 mid → serial i mid evs2 fin → serial i cur (evs1 ++ evs2) fin.
Proof.
  induction evs1 as [|[i' item|i' item] evs1 IH]; intros cur; simpl; [by intros ->| |]; case_bool_decide; auto.
  - intros [-> ?] ?. auto.
  - intros [-> ?] ?. auto.
Qed.

(** A pool without a capacity. *)
Record unbounded (p : pool) : Prop := {
  ub_queues : length (p_queues p) = match p_key p with Some _ => p_workers p | None => 1 end;
  ub_max : Forall (λ qu, q_maxsize qu = 0) (p_queues p)
}.

(** What no operation changes. *)
Definition fixed (p : pool) := (p_name p, p_workers p, p_key p, p_handler p, p_executor p).

Lemma omap_same {A B} (f g : A → option B) (l : list A) : (∀ x, f x = g x) → omap f l = omap g l.
Proof. intros H. apply list_omap_ext. by apply Forall_Forall2_diag, list.Forall_forall. Qed.

Lemma fixed_route p p' : fixed p' = fixed p →
  (∀ msg, route p' msg = route p msg) ∧ ∀ i, queue_index p' i = queue_index p i.
Proof. unfold fixed, route, queue_index. intros [= H1 H2 H3 H4 H5]. by rewrite H2 H3. Qed.

Record act_ok (p : pool) (o : pool_op) (p' : pool) (evs : list pool_event) : Prop := {
  ao_unbounded : unbounded p';
  ao_fixed : fixed p' = fixed p;
  ao_queues : ∀ j qu, p_queues p !! j = Some qu → ∃ qu', p_queues p' !! j = Some qu' ∧
                taken p j evs ++ q_items qu' = q_items qu ++ routed p j [o];
  ao_serial : ∀ i, serial i (handling p i) evs (handling p' i)
}.

(** Nothing but the workers' states is different. *)
Lemma act_ok_states p o p' evs :
  unbounded p → fixed p' = fixed p → p_queues p' = p_queues p → (∀ j, routed p j [o] = []) →
  (∀ j, taken p j evs = []) → (∀ i, serial i (handling p i) evs (handling p' i)) → act_ok p o p' evs.
Proof.
  intros [H1 H2] Hf Hq Hr Ht Hs. pose proof Hf as [= _ Hw Hk _ _]. split; try done.
  - split; by rewrite Hq ?Hk ?Hw.
  - intros j qu Hj. exists qu. by rewrite Hq Hr Ht app_nil_r.
Qed.

Lemma handling_insert p i st' i' :
  handling (p <| p_states ::= <[i := st']> |>) i' =
  if bool_decide (i' = i ∧ i < length (p_states p))
  then match st' with WHandling item => Some item | _ => None end else handling p i'.
Proof.
  unfold handling; simpl. case_bool_decide as Hd.
  - destruct Hd as [-> Hlt]. by rewrite list_lookup_insert_eq.
  - destruct (decide (i' = i)) as [->|Hne]; [|by rewrite list_lookup_insert_ne].
    rewrite list_insert_ge //. lia.
Qed.

Lemma serial_other p p' i evs :
  handling p' i = handling p i → (∀ e, e ∈ evs → match e with Began i' _ | Done i' _ => i' ≠ i end) →
  serial i (handling p i) evs (handling p' i).
Proof.
  intros ->. generalize (handling p i) as cur. induction evs as [|e evs IH]; intros cur Hev; [done|].
  assert (serial i cur evs cur) as Hrest by (apply IH; intros e' He'; apply Hev; by right).
  specialize (Hev e ltac:(by left)). destruct e; simpl; by rewrite bool_decide_eq_false_2.
Qed.

Lemma put_target_room p i item s qu :
  p_queues p !! i = Some qu → q_full qu = false →
  put_target p i item s =
  (inr (p <| p_queues ::= <[i := qu <| q_items ::= λ l, l ++ [item] |>]> |>), s).
Proof. intros Hq Hf. unfold put_target. rewrite Hq /= /put_nowait Hf. done. Qed.

Lemma shard_bound n key msg i : shard n key msg = inr i → i < n.
Proof.
  unfold shard. destruct (key msg) as [|h]; [done|]. case_bool_decide; [done|]. intros [= <-].
  pose proof (Z.mod_pos_bound h (Z.of_nat n) ltac:(lia)). lia.
Qed.

Lemma route_bound p msg j : unbounded p → route p msg = Some j → is_Some (p_queues p !! j).
Proof.
  intros [Hl _] Hr. apply lookup_lt_is_Some. rewrite Hl. unfold route in Hr. destruct (p_key p) as [key|].
  - destruct (shard (p_workers p) key msg) as [|j'] eqn:E; simplify_eq. by eapply shard_bound.
  - simplify_eq. lia.
Qed.

Lemma dispatch_ok p msg meta s :
  unbounded p → ∃ p' s', dispatcher_receive p msg meta s = (inr p', s') ∧ act_ok p (ODispatch msg meta) p' [].
Proof.
  intros Hub.
  assert (∀ j, route p msg = Some j → ∃ p', put_target p j (msg, meta) s = (inr p', s) ∧
    act_ok p (ODispatch msg meta) p' []) as Hput.
  { intros j Hj. destruct (route_bound p msg j Hub Hj) as [qu Hq].
    pose proof (proj1 (Forall_lookup _ _) (ub_max _ Hub) j qu Hq) as Hmax. simpl in Hmax.
    rewrite (put_target_room p j (msg, meta) s qu) //; [by rewrite /q_full Hmax|].
    eexists. split; [done|]. split.
    - destruct Hub as [H1 H2]. split; simpl; [by rewrite length_insert|]. by apply Forall_insert.
    - done.
    - intros j' qu' Hq'. unfold routed; simpl. rewrite Hj. destruct (decide (j' = j)) as [->|Hne].
      + rewrite list_lookup_insert_eq; [by eapply lookup_lt_Some|]. rewrite bool_decide_eq_true_2 //. simplify_eq. eauto.
      + rewrite list_lookup_insert_ne // bool_decide_eq_false_2; [congruence|]. exists qu'. by rewrite app_nil_r.
    - done. }
  unfold dispatcher_receive. unfold route in Hput. destruct (p_key p) as [key|] eqn:Hk.
  - destruct (shard (p_workers p) key msg) as [exc|j] eqn:Esh.
    + set (ev := EvPoolWorkerError _ _). cbn [bind]. destruct (on_core_event_total ev s) as [s' ->].
      exists p, s'. split; [done|]. apply act_ok_states; try done. intros j. unfold routed, route; simpl.
      by rewrite Hk Esh.
    + destruct (Hput j eq_refl) as (p' & Hp & Hok). by exists p', s.
  - destruct (Hput 0 eq_refl) as (p' & Hp & Hok). by exists p', s.
Qed.

Lemma get_nowait_items {A} (qu : queue A) x qu' :
  get_nowait qu = Some (x, qu') → q_items qu = x :: q_items qu' ∧ q_maxsize qu' = q_maxsize qu.
Proof. unfold get_nowait. destruct (q_items qu); [done|]. by intros [= <- <-]. Qed.

Lemma taken_began p j i item l :
  taken p j (Began i item :: l) = (if bool_decide (queue_index p i = j) then [item] else []) ++ taken p j l.
Proof. unfold taken. simpl. by case_bool_decide. Qed.

(** Worker [i] took the first item of its queue. *)
Lemma take_queue p i qu item qu' :
  unbounded p → p_queues p !! queue_index p i = Some qu → get_nowait qu = Some (item, qu') →
  let p1 := p <| p_queues ::= <[queue_index p i := qu']> |> in
  unbounded p1 ∧ ∀ j qu0 l, taken p j l = [] → p_queues p !! j = Some qu0 →
    ∃ qu1, p_queues p1 !! j = Some qu1 ∧ taken p j (Began i item :: l) ++ q_items qu1 = q_items qu0 ++ [].
Proof.
  intros [H1 H2] Hq Hg p1. destruct (get_nowait_items _ _ _ Hg) as [Hi Hmax]. split.
  - split; simpl; [by rewrite length_insert|]. apply Forall_insert; [done|].
    rewrite Hmax. by apply (proj1 (Forall_lookup _ _) H2 _ _ Hq).
  - intros j qu0 l Hl Hj. rewrite taken_began Hl !app_nil_r. unfold p1; simpl. case_bool_decide as Hd.
    + subst j. rewrite list_lookup_insert_eq; [by eapply lookup_lt_Some|]. exists qu'. simplify_eq. by rewrite Hi.
    + rewrite list_lookup_insert_ne //. by exists qu0.
Qed.

Lemma begin_ok p i s :
  unbounded p → ∃ p' evs s', pool_act (OBegin i) p s = (inr (p', evs), s') ∧ act_ok p (OBegin i) p' evs.
Proof.
  intros Hub. assert (act_ok p (OBegin i) p []) as Hno by (by apply act_ok_states).
  unfold pool_act, worker_begin.
  destruct (p_states p !! i) as [[| |item0|]|] eqn:Hst; try by (eexists _, _, s; split; [done|done]).
  destruct (p_queues p !! queue_index p i) as [qu|] eqn:Hq; simpl; [|by eexists _, _, s].
  destruct (get_nowait qu) as [[item qu']|] eqn:Hg; simpl; [|by eexists _, _, s].
  destruct (take_queue p i qu item qu' Hub Hq Hg) as [Hub1 Hqs]. set (p1 := p <| p_queues ::= _ |>) in *.
  assert (handling p i = None) as Hfree by (by rewrite /handling Hst).
  destruct (p_executor p && p_shut p).
  - unfold worker_error. cbn [bind].
    match goal with |- context [_on_core_event ?ev s] => destruct (on_core_event_total ev s) as [s' ->] end.
    simpl. eexists _, _, s'. split; [done|]. split; try done; [by intros j qu0; apply Hqs|].
    intros i'. change (handling p1 i') with (handling p i'). destruct (decide (i = i')) as [<-|Hne]; simpl.
    + by rewrite bool_decide_eq_true_2 // Hfree.
    + by rewrite bool_decide_eq_false_2.
  - simpl. eexists _, _, s. split; [done|]. assert (i < length (p_states p)) as Hlt by (by eapply lookup_lt_Some).
    split; [by destruct Hub1|done|by intros j qu0; apply Hqs|].
    intros i'. rewrite (handling_insert p1 i (WHandling item) i'). change (handling p1 i') with (handling p i'). simpl.
    destruct (decide (i = i')) as [<-|Hne].
    + by rewrite !bool_decide_eq_true_2.
    + rewrite !bool_decide_eq_false_2 //; naive_solver.
Qed.

(** A worker leaves its handler, or was in none. *)
Lemma leave_ok p o i st' p' :
  unbounded p → (∀ j, routed p j [o] = []) → fixed p' = fixed p → p_queues p' = p_queues p →
  p_states p' = <[i := st']> (p_states p) → (∀ item, st' ≠ WHandling item) →
  act_ok p o p' (done_events p i).
Proof.
  intros Hub Hr Hf Hq Hs Hst. apply act_ok_states; try done.
  - intros j. unfold done_events. by destruct (handling p i).
  - intros i'. assert (handling p' i' = handling (p <| p_states ::= <[i := st']> |>) i') as ->
      by (unfold handling; simpl; by rewrite Hs).
    rewrite handling_insert. unfold done_events.
    destruct (handling p i) as [item|] eqn:Hh; simpl.
    + destruct (decide (i = i')) as [<-|Hne]; [|rewrite !bool_decide_eq_false_2 //; naive_solver].
      assert (i < length (p_states p)) as Hlt.
      { unfold handling in Hh. destruct (p_states p !! i) as [ws|] eqn:E; [|done]. by apply lookup_lt_Some in E. }
      rewrite !bool_decide_eq_true_2 //. split; [done|].
      destruct st'; try done. by edestruct Hst.
    + case_bool_decide as Hd; [|done]. destruct Hd as [-> _]. rewrite Hh. destruct st'; try done. by edestruct Hst.
Qed.

Lemma pool_act_ok o p s :
  unbounded p → ∃ p' evs s', pool_act o p s = (inr (p', evs), s') ∧ act_ok p o p' evs.
Proof.
  intros Hub. assert (∀ o, (∀ j, routed p j [o] = []) → act_ok p o p []) as Hno by (intros; by apply act_ok_states).
  destruct o as [msg meta|i|i|i o|i|i].
  - destruct (dispatch_ok p msg meta s Hub) as (p' & s' & Hd & Hok). exists p', [], s'. unfold pool_act; simpl. by rewrite Hd.
  - eexists _, _, s. split; [done|]. unfold worker_start.
    destruct (p_states p !! i) as [[]|] eqn:Hst; try by apply Hno.
    assert (done_events p i = []) as <- by (by rewrite /done_events /handling Hst). by eapply leave_ok.
  - by apply begin_ok.
  - unfold pool_act, worker_end. cbn [bind].
    destruct (p_states p !! i) as [[| |item|]|] eqn:Hst;
      try by (eexists _, _, s; split; [done|]; rewrite /done_events /handling Hst; apply Hno).
    assert (∃ s', try_except (worker_body p item o) (worker_error p) s = (inr tt, s')) as [s' Hb].
    { simpl. destruct (worker_body p item o s) as [[e|[]] s1]; [|by eexists]. apply on_core_event_total. }
    cbn [bind]. rewrite Hb. eexists _, _, s'. split; [done|]. by eapply leave_ok.
  - eexists _, _, s. split; [done|]. unfold worker_cancelled.
    destruct (p_states p !! i) as [[| |item|]|] eqn:Hst;
      first [by eapply leave_ok|by rewrite /done_events /handling Hst; apply Hno].
  - eexists _, _, s. split; [done|]. unfold worker_reborn.
    destruct (p_states p !! i) as [[]|] eqn:Hst; try by apply Hno.
    assert (done_events p i = []) as <- by (by rewrite /done_events /handling Hst). by eapply leave_ok.
Qed.

(** (C9) Every message exactly once, and one at a time.  Whatever a pool
    without a capacity goes through, in whatever order messages are dispatched
    and workers start, begin, end, are cancelled and reborn: nothing raises,
    and for each of its queues the messages that workers took from it, in the
    order they took them, followed by those still waiting, are exactly the
    messages dispatched to it, in the order they arrived, none lost and none
    twice; and no worker begins with a message before it is done with the one
    before.  With a [key], the queue and so the worker is a function of the
    key, so the messages of one key are handled one after the other, in order. *)
Theorem pool_exactly_once ops : ∀ p s,
  unbounded p →
  ∃ p' evs s', pool_run ops p s = (inr (p', evs), s') ∧ unbounded p' ∧ fixed p' = fixed p ∧
    (∀ j qu, p_queues p !! j = Some qu → ∃ qu', p_queues p' !! j = Some qu' ∧
       taken p j evs ++ q_items qu' = q_items qu ++ routed p j ops) ∧
    ∀ i, serial i (handling p i) evs (handling p' i).
Proof.
  induction ops as [|o ops IH]; intros p s Hub.
  { exists p, [], s. split_and!; try done. intros j qu Hj. exists qu. by rewrite app_nil_r. }
  destruct (pool_act_ok o p s Hub) as (p1 & ev1 & s1 & H1 & [Hub1 Hf1 Hq1 Hs1]).
  destruct (IH p1 s1 Hub1) as (p2 & ev2 & s2 & H2 & Hub2 & Hf2 & Hq2 & Hs2).
  destruct (fixed_route p p1 Hf1) as [Hro Hqi]. exists p2, (ev1 ++ ev2), s2. split_and!.
  - cbn [pool_run bind]. rewrite H1. cbn [fst snd]. by rewrite H2.
  - done.
  - congruence.
  - intros j qu Hj. destruct (Hq1 j qu Hj) as (qu1 & Hj1 & E1). destruct (Hq2 j qu1 Hj1) as (qu2 & Hj2 & E2).
    exists qu2. split; [done|]. assert (taken p1 j ev2 = taken p j ev2) as Ht.
    { unfold taken. apply omap_same. intros []; by rewrite ?Hqi. }
    assert (routed p1 j ops = routed p j ops) as Hr.
    { unfold routed. apply omap_same. intros []; by rewrite ?Hro. }
    rewrite Ht Hr in E2. unfold taken in E1, E2 |- *. rewrite omap_app -app_assoc E2 app_assoc E1 -app_assoc.
    f_equal. unfold routed. by rewrite -omap_app.
  - intros i. eapply serial_app; [apply Hs1|apply Hs2].
Qed.

(** One message by worker [i], from [get] to the end of the handler. *)
Definition worker_turn (p : pool) (i : nat) (o : pool_outcome) : M st (option envelope * pool) :=
  let! r := worker_begin p i in
  let! p' := worker_end r.2 i o in
  ret (r.1, p').

(** The turns of worker [i], with what the handler does in each. *)
Fixpoint worker_run (p : pool) (i : nat) (os : list pool_outcome) : M st (list envelope * pool) :=
  match os with
  | [] => ret ([], p)
  | o :: rest =>
      let! r := worker_turn p i o in
      let! rs := worker_run r.2 i rest in
      ret (match r.1 with Some item => item :: rs.1 | None => rs.1 end, rs.2)
  end.

(** What the handling of [item] raises when the handler does [o]: an [@actor]
    class may have no handler for it. *)
Definition raised (p : pool) (item : envelope) (o : pool_outcome) : option exn :=
  match p_handler p with
  | HActorClass cls meta =>
      match dispatch cls meta item.1, o with
      | inl e, _ => Some e
      | inr _, PRaise e => Some e
      | inr _, PReturn _ => None
      end
  | HFunction _ => match o with PRaise e => Some e | PReturn _ => None end
  end.

Definition worker_reports (p : pool) (ls : list listener) (w : envelope * pool_outcome) : list (nat * event) :=
  match raised p w.1 w.2 with
  | None => []
  | Some e => user_reports ls (EvPoolWorkerError (p_name p) (exn_detail e))
  end.

Lemma worker_body_plain p item o s :
  p_executor p = false → worker_body p item o s = (match raised p item o with Some e => inl e | None => inr tt end, s).
Proof.
  intros He. unfold worker_body, raised. rewrite He. destruct (p_handler p) as [b|cls meta]; [by destruct o|].
  cbn [bind lift]. destruct (dispatch cls meta item.1); [done|]. by destruct o.
Qed.

Lemma worker_turn_plain p i o s item items m :
  p_executor p = false → p_states p !! i = Some WWaiting →
  p_queues p !! queue_index p i = Some (Queue (item :: items) m) →
  worker_turn p i o s =
  (inr (Some item, p <| p_queues ::= <[queue_index p i := Queue items m]> |>),
   s <| reported ::= λ l, l ++ worker_reports p (_event_listeners s) (item, o) |>).
Proof.
  intros He Hst Hq. unfold worker_turn, worker_begin. rewrite Hst Hq He /=. unfold worker_end.
  set (p1 := Pool _ _ _ _ _ _ _ _ _).
  assert (p_states p1 !! i = Some (WHandling item)) as ->.
  { unfold p1; simpl. apply list_lookup_insert_eq. by eapply lookup_lt_Some. }
  assert (p1 <| p_states ::= <[i := WWaiting]> |> = p <| p_queues ::= <[queue_index p i := Queue items m]> |>) as Hp.
  { unfold p1; simpl. by rewrite list_insert_insert_eq (list_insert_id _ _ _ Hst). }
  cbn [try_except bind ret]. rewrite worker_body_plain //. change (raised p1 item o) with (raised p item o).
  unfold worker_reports. cbn [fst snd]. destruct (raised p item o) as [e|].
  - unfold worker_error. change (p_name p1) with (p_name p). by rewrite quiet_event // Hp.
  - rewrite Hp. destruct s; simpl. by rewrite app_nil_r.
Qed.

(** A failing handler costs one message.  However its handlers end, and
    also when an [@actor] class has no handler for a message, a worker goes on
    with the next message: in as many turns as there are outcomes it handles
    exactly that many messages of its queue, oldest first, leaves the rest and
    every other queue and worker alone, and reports one [pool_worker_error] to
    every listener for each message that failed. *)
Theorem pool_worker_survives i m os : ∀ p s items,
  p_executor p = false → p_states p !! i = Some WWaiting →
  p_queues p !! queue_index p i = Some (Queue items m) → length os ≤ length items →
  worker_run p i os s =
    (inr (take (length os) items,
          p <| p_queues ::= <[queue_index p i := Queue (drop (length os) items) m]> |>),
     s <| reported ::= λ l, l ++ (zip items os ≫= worker_reports p (_event_listeners s)) |>).
Proof.
  induction os as [|o os IH]; intros p s items He Hst Hq Hlen.
  { assert (zip items ([] : list pool_outcome) = []) as -> by (by destruct items).
    simpl. rewrite (list_insert_id _ _ _ Hq). destruct s, p; simpl. by rewrite app_nil_r. }
  destruct items as [|item items]; simpl in Hlen; [lia|].
  cbn [worker_run bind]. rewrite (worker_turn_plain p i o s item items m) //.
  set (p1 := p <| p_queues ::= <[queue_index p i := Queue items m]> |>).
  rewrite (IH p1 _ items) //; [by unfold p1; simpl; rewrite list_lookup_insert_eq //; eapply lookup_lt_Some|lia|].
  cbn [fst snd bind ret]. unfold p1; simpl. rewrite list_insert_insert_eq -app_assoc. done.
Qed.

End pool.
