(* ===== verification/Runtime.v ===== *)
(** * The node as a transition system

    [run_job] runs one of the tasks that the code creates and forgets;
    [run_step] has one case per thing that can happen on a node: a turn of a
    child's or a driver's task, a timer, a delivery, a call of the public
    functions, a message to a reserved actor, an event of the core.  What
    [Heap.v] proves of every step holds in every state a program on top of
    the library can reach, in whatever order things happen. *)

From stdpp Require Import pretty.
From S2P Require Import Prelude Values NodeId Actors State PeerEvents Asyncio Node NodeProps Links.
From S2P Require Import Monitors Groups Registry Supervisor Setup SupervisorProps Refs Pool.

Section runtime.
Context {codec : PayloadCodec}.

(** ** Jobs *)

Definition job_body (j : job) : M st unit :=
  match j with
  | JDeliverExit from_label target_name reason => _deliver_exit from_label target_name reason
  | JNotifyRemoteExit peer_id target_name actor_name reason =>
      _notify_remote_exit peer_id target_name actor_name reason
  | JDeliverDown ref actor_label reason => _deliver_down ref actor_label reason
  | JNotifyRemoteDown peer_id ref actor_name reason =>
      _notify_remote_down peer_id ref actor_name reason
  | JGroupDelta peer_id group m v => group_send_delta peer_id group m v
  | JGroupSnapshot peer_id => group_send_snapshot peer_id
  | JRegistryDelta peer_id name o v => registry_send_delta peer_id name o v
  | JRegistrySnapshot peer_id => registry_send_snapshot peer_id
  end.

(** The loop runs the oldest of them; an exception stays in its task. *)
Definition run_job : M st unit :=
  let! s := get in
  match jobs s with
  | [] => ret tt
  | j :: js => modify (λ s, s <| jobs := js |>) ;; try_except (job_body j) (λ _, ret tt)
  end.

(** ** What can happen *)

Inductive feature := FLinks | FMonitors | FGroups | FRegistry | FDiscovery.

Inductive api :=
| ASpawn (sp : sid) (cls : string) (meta : actor_meta)
| ASpawnSupervisor (sp : sid) (name : string) (build : list build_op) (strat : string)
    (max : nat) (window : Z)
| ASupervisor (strat : string) (max : nat) (window : Z)
| ACancel (c : cid)
| AShutdown (sp : sid)
| ASend (ref : actor_ref) (msg : pyval) (rt : option string) (corr : option Z)
| ALink (me : option string) (other : actor_ref)
| AUnlink (me : option string) (other : actor_ref)
| ATrapExit (me : option string) (enabled : bool)
| AMonitor (me : option string) (uuid : string) (other : actor_ref)
| ADemonitor (me : option string) (ref : string)
| AJoinGroup (group : string) (ref me : option string)
| ALeaveGroup (group : string) (ref me : option string)
| ARegisterName (name : string) (ref me : option string)
| AUnregisterName (name : string) (ref me : option string)
| AAsk (ref : actor_ref) (n : N) (maxsize : nat) (msg : pyval)
| AAskEnd (n : N) (q : qid)
| AReply (meta : message_meta) (msg : pyval)
| ASetup (feature : feature) (sp : sid)
| AListen (id : nat) (raises : bool)
| AStop
| AStart (bound : core_start) (refuses : string → pyval → option exn)
| AConnect (peer_id : string) (connected_since : bool)
| AConnectEnd (peer_id : string) (i : fid)
| AForgetPeer (peer_id : string)
| AStream (fuel : nat) (n : N) (q : qid)
| AReplyStream (meta : message_meta) (msg : pyval) (final : bool)
| ASpawnPool (sp : sid) (handler : pool_handler) (n_workers : nat) (name : string)
    (queue_capacity : option nat) (executor : option string) (key : option (pyval → exn + Z))
| APoolStop (d : cid) (ws : list cid)
| APoolStopEnd (sp : sid) (d : cid) (ws : list cid).

Definition forget {A} (m : M st A) : M st unit := m ;; ret tt.

Definition run_api (a : api) : M st unit :=
  match a with
  | ASpawn sp cls meta => forget (spawn sp cls meta)
  | ASpawnSupervisor sp name b strat max window => forget (spawn_supervisor sp name b strat max window)
  | ASupervisor strat max window => forget (Supervisor_new strat max window)
  | ACancel c => cancel_child c
  | AShutdown sp => shutdown sp
  | ASend ref msg rt corr => ref_send ref msg rt corr
  | ALink me other => link me other
  | AUnlink me other => unlink me other
  | ATrapExit me enabled => trap_exit me enabled
  | AMonitor me uuid other => forget (monitor me uuid other)
  | ADemonitor me ref => demonitor me ref
  | AJoinGroup group ref me => join_group group ref me
  | ALeaveGroup group ref me => leave_group group ref me
  | ARegisterName name ref me => register_name name ref me
  | AUnregisterName name ref me => unregister_name name ref me
  | AAsk ref n maxsize msg => forget (ask_begin ref n maxsize msg)
  | AAskEnd n q => forget (ask_end n q)
  | AReply meta msg => reply meta msg
  | ASetup FLinks sp => forget (register_links sp)
  | ASetup FMonitors sp => forget (register_monitors sp)
  | ASetup FGroups sp => forget (register_groups sp)
  | ASetup FRegistry sp => forget (register_registry sp)
  | ASetup FDiscovery sp => forget (register_discovery sp)
  | AListen id raises => on_event (LUser id raises)
  | AStop => forget stop_begin
  | AStart bound refuses => start bound refuses
  | AConnect peer_id since => forget (connect_peer_begin peer_id since)
  | AConnectEnd peer_id i => connect_peer_end peer_id i
  | AForgetPeer peer_id => forget_peer peer_id
  | AStream fuel n q => forget (stream_loop fuel n q)
  | AReplyStream meta msg final => send_stream meta msg final
  | ASpawnPool sp handler n_workers name queue_capacity executor key =>
      forget (_spawn_pool sp handler n_workers name queue_capacity executor key)
  | APoolStop d ws => forget (pool_stop_begin d ws)
  | APoolStopEnd sp d ws => pool_stop_end sp d ws
  end.

Inductive step :=
| STask (t : tid) (ctor : option exn) (now : Z)                 (* a turn of a child's task *)
| SDrive (t : tid) (h : handler_result)                         (* a turn of a driver *)
| STimer (t : tid)
| SJob
| SApi (a : api)
| SDeliver (name : string) (q : qid) (payload : pyval) (meta : message_meta)   (* a frame arrives *)
| SEvent (ev : event)                                           (* the core reports *)
| SLinks (msg : pyval)                                          (* the reserved actors' handlers *)
| SMonitors (msg : pyval)
| SGroups (msg : pyval)
| SRegistry (msg : pyval)
| SPeers (peers : gset string)                                  (* connections come and go *)
| SRefuses (f : string → pyval → option exn)                    (* so do the reasons to refuse a message *)
| SIds (n : Z)                                                  (* handshakes and heartbeats take numbers *)
| STransmit                                                     (* the core sends its oldest frame *)
| SStopped.                                                     (* the rest of [stop] *)

Definition core_set_peers (peers : gset string) : M core_t unit :=
  modify (λ co, co <| co_peers := peers |>).
Definition core_set_refuses (f : string → pyval → option exn) : M core_t unit :=
  modify (λ co, co <| co_refuses := f |>).
Definition core_used_ids (n : Z) : M core_t unit :=
  modify (λ co, co <| co_next_msg_id ::= λ z, ((z + n) mod 2 ^ 64)%Z |>).
Definition core_transmit : M core_t unit :=
  modify (λ co, co <| co_out ::= tail |>).

Definition run_step (l : step) : M st unit :=
  match l with
  | STask t ctor now => step_child t ctor now
  | SDrive t h => step_driver t h
  | STimer t => fire_timer t
  | SJob => run_job
  | SApi a => run_api a
  | SDeliver name q payload meta => deliver_callback name q payload meta
  | SEvent ev => _on_core_event ev
  | SLinks msg => link_actor_receive msg
  | SMonitors msg => monitor_actor_receive msg
  | SGroups msg => groups_actor_receive msg
  | SRegistry msg => registry_actor_receive msg
  | SPeers peers => with_core (core_set_peers peers)
  | SRefuses f => with_core (core_set_refuses f)
  | SIds n => with_core (core_used_ids n)
  | STransmit => with_core core_transmit
  | SStopped => stop_end
  end.

(** A program can only name supervisors that it has, and the core writes the
    ids of its peers. *)
Definition valid (l : step) (s : st) : Prop :=
  match l with
  | SApi (ASpawn sp _ _ | ASpawnSupervisor sp _ _ _ _ _ | ASetup _ sp | ASpawnPool sp _ _ _ _ _ _) =>
      is_Some (sups s !! sp)
  | SPeers peers => set_Forall (λ p, canonical p = inr p) peers
  | _ => True
  end.

(** A node from its construction on. *)
Inductive reachable : st → Prop :=
| reach_init id capacity bound refuses :
    reachable (exec (start bound refuses) (Node_init id capacity))
| reach_step s l : reachable s → valid l s → reachable (exec (run_step l) s).

End runtime.
