(* ===== verification/Heap.v ===== *)
(** * What every step of a node preserves

    The objects of a node (mailboxes, child records, supervisors, tasks) live
    in heaps and refer to each other by identity.  [wf] types these heaps:
    every reference leads to an object of the kind it is used as, so that none
    of the model's fallbacks for a missing object is ever taken.  [ext] says
    that objects stay and keep their kind, [flow] that mailboxes are first in,
    first out.  Every operation is shown to keep all three, and so every step
    of [Runtime.v]. *)

From stdpp Require Import pretty.
From S2P Require Import Prelude Values NodeId Actors State PeerEvents Asyncio Node NodeProps Links.
From S2P Require Import Monitors Groups Registry Supervisor Setup SupervisorProps Refs Pool Runtime.

(** ** Typing of the heaps *)

(** Whose coroutine a task runs: a child's, or the driver of one. *)
Definition owner (cd : code) : sid * cid + cid :=
  match cd with
  | CodeChild sp c _ => inl (sp, c)
  | CodeDrive c _ => inr c
  end.

Definition has_child (s : st) (c : cid) : Prop := is_Some (children s !! c).
Definition has_sup (s : st) (sp : sid) : Prop := is_Some (sups s !! sp).
Definition has_task (s : st) (t : tid) : Prop := is_Some (tasks s !! t).
Definition has_queue (s : st) (q : qid) : Prop := is_Some (queues s !! q).

Definition task_of (s : st) (t : tid) (o : sid * cid + cid) : Prop :=
  ∃ tk, tasks s !! t = Some tk ∧ owner (t_code tk) = o.

Record child_ok (s : st) (c : cid) (ch : child) : Prop := {
  ck_mailbox : ∀ cls meta q, ch_kind ch = ActorChild cls meta q → has_queue s q;
  ck_driver : ∀ d, ch_driver ch = Some d → task_of s d (inr c);
  ck_task : ∀ t, ch_task ch = Some t → ∃ sp, task_of s t (inl (sp, c));
  ck_supervisor : ∀ ns, ch_supervisor ch = Some ns → has_sup s ns
}.

Record sup_ok (s : st) (sup : supervisor) : Prop := {
  sk_distinct : NoDup (s_children sup);
  sk_children : ∀ c, c ∈ s_children sup → has_child s c;
  sk_reason : s_given_up sup = true → is_Some (s_give_up_exc sup)
}.

(** Where the coroutine of a child of that kind can be suspended. *)
Definition pc_ok (s : st) (ch : child) (p : pc) : Prop :=
  match p with
  | PcStart | PcBackoff _ | PcGiveUp _ => True
  | PcAwaitDriver => is_actor ch
  | PcTeardown _ siblings rest => (∀ c, c ∈ siblings → has_child s c) ∧ ∀ c, c ∈ rest → has_child s c
  | PcSupWait | PcSupShutdown => ¬ is_actor ch ∧ is_Some (ch_supervisor ch)
  end.

Definition code_ok (s : st) (cd : code) : Prop :=
  match cd with
  | CodeChild sp c p => has_sup s sp ∧ ∃ ch, children s !! c = Some ch ∧ pc_ok s ch p
  | CodeDrive c _ => ∃ ch, children s !! c = Some ch ∧ is_actor ch
  end.

Definition wait_ok (s : st) (w : wait) : Prop :=
  match w with
  | WReady _ | WSleep _ | WGet | WUser => True
  | WTask t => has_task s t
  | WGather ts _ => ∀ t, t ∈ ts → has_task s t
  | WEvent sp => has_sup s sp
  end.

Definition task_ok (s : st) (tk : task) : Prop := code_ok s (t_code tk) ∧ wait_ok s (t_wait tk).

Definition u64 (z : Z) : Prop := (0 ≤ z < 2 ^ 64)%Z.

(** What the core has for a peer names it by the id as the core writes it, holds
    a wire value, and its numbers are 64 bits wide. *)
Record frame_ok (f : frame) : Prop := {
  ff_peer : canonical (fr_peer f) = inr (fr_peer f);
  ff_wire : wire_safe (fr_payload f) = true;
  ff_id : u64 (fr_msg_id f);
  ff_corr : u64_arg (fr_corr f) = inr tt
}.

Record core_ok (co : core_t) : Prop := {
  kk_next : u64 (co_next_msg_id co);
  kk_peers : set_Forall (λ p, canonical p = inr p) (co_peers co);
  kk_out : Forall frame_ok (co_out co)
}.

(** No identity in use is one that is still to be given out. *)
Record fresh_ids (s : st) : Prop := {
  fi_queues : ∀ q, has_queue s q → q < next_id s;
  fi_children : ∀ c, has_child s c → c < next_id s;
  fi_sups : ∀ sp, has_sup s sp → sp < next_id s;
  fi_tasks : ∀ t, has_task s t → t < next_id s
}.

Record wf (s : st) : Prop := {
  wf_fresh : fresh_ids s;
  wf_names : ∀ name q, _mailboxes s !! name = Some q → has_queue s q;
  wf_live : ∀ name c, _live_children s !! name = Some c →
              ∃ ch, children s !! c = Some ch ∧ ch_name ch = name ∧ is_actor ch;
  wf_bounded : queues_bounded s;
  wf_children : ∀ c ch, children s !! c = Some ch → child_ok s c ch;
  wf_sups : ∀ sp sup, sups s !! sp = Some sup → sup_ok s sup;
  wf_tasks : ∀ t tk, tasks s !! t = Some tk → task_ok s tk;
  wf_core : ∀ co, _core s = Some co → core_ok co
}.

(** ** Objects stay *)

Record ext (s s' : st) : Prop := {
  ext_queues : ∀ q, has_queue s q → has_queue s' q;
  ext_children : ∀ c ch, children s !! c = Some ch →
    ∃ ch', children s' !! c = Some ch' ∧ ch_name ch' = ch_name ch ∧ ch_kind ch' = ch_kind ch ∧
           (is_Some (ch_supervisor ch) → is_Some (ch_supervisor ch'));
  ext_sups : ∀ sp, has_sup s sp → has_sup s' sp;
  ext_tasks : ∀ t o, task_of s t o → task_of s' t o
}.

#[export] Instance ext_preorder : PreOrder ext.
Proof.
  split.
  - intros s. split; try done. intros c ch Hc. by exists ch.
  - intros s1 s2 s3 [A1 A2 A3 A4] [B1 B2 B3 B4]. split; [by auto| |by auto|by auto]. intros c ch Hc.
    destruct (A2 c ch Hc) as (ch2 & H2 & N2 & K2 & S2). destruct (B2 c ch2 H2) as (ch3 & H3 & N3 & K3 & S3).
    exists ch3. split_and!; [done|congruence|congruence|auto].
Qed.

Lemma ext_has_child s s' c : ext s s' → has_child s c → has_child s' c.
Proof. intros He [ch Hc]. destruct (ext_children _ _ He c ch Hc) as (ch' & H & _). by exists ch'. Qed.
Lemma ext_has_task s s' t : ext s s' → has_task s t → has_task s' t.
Proof.
  intros He [tk Ht]. destruct (ext_tasks _ _ He t (owner (t_code tk))) as (tk' & H & _); [by exists tk|]. by exists tk'.
Qed.

Lemma is_actor_kind ch ch' : ch_kind ch' = ch_kind ch → is_actor ch ↔ is_actor ch'.
Proof. unfold is_actor. by intros ->. Qed.

Lemma child_ok_ext s s' c ch : ext s s' → child_ok s c ch → child_ok s' c ch.
Proof.
  intros He [H1 H2 H3 H4]. split.
  - intros cls meta q Hk. eapply ext_queues; eauto.
  - intros d Hd. eapply ext_tasks; eauto.
  - intros t Ht. destruct (H3 t Ht) as [sp ?]. exists sp. by eapply ext_tasks.
  - intros ns Hns. eapply ext_sups; eauto.
Qed.

Lemma sup_ok_ext s s' sup : ext s s' → sup_ok s sup → sup_ok s' sup.
Proof. intros He [H1 H2 H3]. split; auto. intros c Hc. eapply ext_has_child; eauto. Qed.

Lemma code_ok_ext s s' cd : ext s s' → code_ok s cd → code_ok s' cd.
Proof.
  intros He. destruct cd as [sp c p|c cur]; simpl.
  - intros (Hsp & ch & Hc & Hp). split; [by eapply ext_sups|].
    destruct (ext_children _ _ He c ch Hc) as (ch' & Hc' & _ & Hk & Hs). exists ch'. split; [done|].
    destruct p; simpl in *; try done.
    + by apply (is_actor_kind ch).
    + destruct Hp. split; intros; eapply ext_has_child; eauto.
    + destruct Hp. split; [by rewrite -(is_actor_kind ch)|auto].
    + destruct Hp. split; [by rewrite -(is_actor_kind ch)|auto].
  - intros (ch & Hc & Ha). destruct (ext_children _ _ He c ch Hc) as (ch' & Hc' & _ & Hk & _).
    exists ch'. split; [done|]. by apply (is_actor_kind ch).
Qed.

Lemma wait_ok_ext s s' w : ext s s' → wait_ok s w → wait_ok s' w.
Proof.
  intros He. destruct w; simpl; try done; [by apply ext_has_task| |by eapply ext_sups].
  intros H t Ht. eapply ext_has_task; eauto.
Qed.

Lemma task_ok_ext s s' tk : ext s s' → task_ok s tk → task_ok s' tk.
Proof. intros He [Hc Hw]. split; [by eapply code_ok_ext|by eapply wait_ok_ext]. Qed.

(** ** Mailboxes are first in, first out

    What is in a mailbox stays there, in order, behind what arrives later;
    only the mailboxes that [rd] allows lose messages, the oldest first. *)

Definition flow (rd : qid → Prop) (s s' : st) : Prop :=
  ∀ q qu, queues s !! q = Some qu →
    ∃ qu' k new, queues s' !! q = Some qu' ∧ q_maxsize qu' = q_maxsize qu ∧
      q_items qu' = drop k (q_items qu) ++ new ∧ (k = 0 ∨ rd q).

#[export] Instance flow_preorder rd : PreOrder (flow rd).
Proof.
  split.
  - intros s q qu Hq. exists qu, 0, []. rewrite app_nil_r. auto.
  - intros s1 s2 s3 H12 H23 q qu Hq. destruct (H12 q qu Hq) as (qu2 & k1 & n1 & Hq2 & Hm2 & Hi2 & Hk1).
    destruct (H23 q qu2 Hq2) as (qu3 & k2 & n2 & Hq3 & Hm3 & Hi3 & Hk2).
    exists qu3, (k1 + k2), (drop (k2 - length (drop k1 (q_items qu))) n1 ++ n2).
    rewrite Hm3 Hm2 Hi3 Hi2 drop_app drop_drop -app_assoc. split_and!; try done.
    destruct Hk1 as [->|]; [|by right]. destruct Hk2 as [->|]; [by left|by right].
Qed.

Lemma flow_same rd s s' : queues s' = queues s → flow rd s s'.
Proof. intros H q qu Hq. exists qu, 0, []. rewrite H app_nil_r. auto. Qed.

(** ** Sound steps *)

Record sound (rd : qid → Prop) (s s' : st) : Prop := {
  so_wf : wf s';
  so_ext : ext s s';
  so_flow : flow rd s s'
}.

Lemma sound_refl rd s : wf s → sound rd s s.
Proof. by split. Qed.
Lemma sound_trans rd s1 s2 s3 : sound rd s1 s2 → sound rd s2 s3 → sound rd s1 s3.
Proof. intros [_ E1 F1] [W E2 F2]. split; [done|by etrans|by etrans]. Qed.

(** What has to be shown about a new state: its objects are those of the old
    one or well typed. *)
Lemma sound_intro rd s s' :
  wf s → ext s s' → flow rd s s' → fresh_ids s' → queues_bounded s' →
  (∀ name q, _mailboxes s' !! name = Some q → _mailboxes s !! name = Some q ∨ has_queue s' q) →
  (∀ name c, _live_children s' !! name = Some c → _live_children s !! name = Some c ∨
     ∃ ch, children s' !! c = Some ch ∧ ch_name ch = name ∧ is_actor ch) →
  (∀ c ch, children s' !! c = Some ch → children s !! c = Some ch ∨ child_ok s' c ch) →
  (∀ sp sup, sups s' !! sp = Some sup → sups s !! sp = Some sup ∨ sup_ok s' sup) →
  (∀ t tk, tasks s' !! t = Some tk → tasks s !! t = Some tk ∨ task_ok s' tk) →
  (∀ co, _core s' = Some co → _core s = Some co ∨ core_ok co) → sound rd s s'.
Proof.
  intros [W1 W2 W3 W4 W5 W6 W7 W8] He Hf Hfr Hb Hn Hl Hc Hs Ht Hco. split; [|done..]. split; try done.
  - intros name q Hq. destruct (Hn name q Hq); [|done]. eapply ext_queues; eauto.
  - intros name c Hq. destruct (Hl name c Hq) as [H|H]; [|done]. destruct (W3 name c H) as (ch & Hch & Hnm & Ha).
    destruct (ext_children _ _ He c ch Hch) as (ch' & Hc' & Hn' & Hk & _). exists ch'. rewrite Hn'.
    split_and!; try done. by apply (is_actor_kind ch).
  - intros c ch Hch. destruct (Hc c ch Hch); [|done]. eapply child_ok_ext; eauto.
  - intros sp sup Hsup. destruct (Hs sp sup Hsup); [|done]. eapply sup_ok_ext; eauto.
  - intros t tk Htk. destruct (Ht t tk Htk); [|done]. eapply task_ok_ext; eauto.
  - intros co H. destruct (Hco co H); eauto.
Qed.

(** ** Updates of the heaps *)

Section updates.
Context (rd : qid → Prop).

Lemma kept_children s s' : children s' = children s →
  ∀ c ch, children s !! c = Some ch →
  ∃ ch', children s' !! c = Some ch' ∧ ch_name ch' = ch_name ch ∧ ch_kind ch' = ch_kind ch ∧
         (is_Some (ch_supervisor ch) → is_Some (ch_supervisor ch')).
Proof. intros -> c ch Hc. by exists ch. Qed.

(** The part of the state that the typing is about, without the core. *)
Definition view (s : st) :=
  (_mailboxes s, queues s, children s, sups s, tasks s, _live_children s, next_id s).

Lemma sound_view s s' :
  wf s → view s' = view s → (∀ co, _core s' = Some co → _core s = Some co ∨ core_ok co) → sound rd s s'.
Proof.
  unfold view. intros Hw [= H1 H2 H3 H4 H5 H6 H7] Hco. apply sound_intro; try done.
  - split; unfold has_queue, has_sup, task_of; rewrite ?H2 ?H4 ?H5 //. by apply kept_children.
  - by apply flow_same.
  - destruct (wf_fresh _ Hw) as [F1 F2 F3 F4].
    split; unfold has_queue, has_child, has_sup, has_task; rewrite ?H2 ?H3 ?H4 ?H5 H7 //.
  - unfold queues_bounded. rewrite H2. apply Hw.
  - rewrite H1. auto.
  - rewrite H6. auto.
  - rewrite H3. auto.
  - rewrite H4. auto.
  - rewrite H5. auto.
Qed.

Lemma sound_same s s' : wf s → view s' = view s → _core s' = _core s → sound rd s s'.
Proof. intros Hw Hv Hc. apply sound_view; [done..|]. intros co. rewrite Hc. auto. Qed.

(** One field is different: the obligations that concern it. *)
Ltac one_field Hw :=
  apply sound_intro; simpl;
  [ done | try done; try (split; simpl; try done; by apply kept_children) | try by apply flow_same
  | destruct (wf_fresh _ Hw) as [F1 F2 F3 F4]; split; simpl; try done | try apply Hw | auto.. ].

Lemma sound_alloc s : wf s → sound rd s (s <| next_id ::= S |>).
Proof.
  intros Hw. one_field Hw.
  - intros q Hq. specialize (F1 q Hq). lia.
  - intros q Hq. specialize (F2 q Hq). lia.
  - intros q Hq. specialize (F3 q Hq). lia.
  - intros q Hq. specialize (F4 q Hq). lia.
Qed.

Lemma insert_kept `{Countable K} {A} (m : gmap K A) k x j : is_Some (m !! j) → is_Some (<[k := x]> m !! j).
Proof. intros Hj. rewrite lookup_insert_is_Some'. by right. Qed.

Lemma insert_below {A} (m : gmap nat A) k x j n :
  k < n → (∀ i, is_Some (m !! i) → i < n) → is_Some (<[k := x]> m !! j) → j < n.
Proof. intros Hk Hm. rewrite lookup_insert_is_Some'. intros [<-|Hj]; auto. Qed.

Lemma sound_queue s q qu' :
  wf s → q < next_id s → queue_bounded qu' →
  (∀ qu, queues s !! q = Some qu → ∃ k new, q_maxsize qu' = q_maxsize qu ∧
     q_items qu' = drop k (q_items qu) ++ new ∧ (k = 0 ∨ rd q)) →
  sound rd s (s <| queues ::= <[q := qu']> |>).
Proof.
  intros Hw Hq Hb Hfl. one_field Hw.
  - split; simpl; try done; [|by apply kept_children]. intros q'. apply insert_kept.
  - intros q0 qu0 H0. simpl. rewrite lookup_insert. case_decide as Hd; [subst|by exists qu0, 0, []; rewrite app_nil_r; auto].
    destruct (Hfl qu0 H0) as (k & new & H1 & H2 & H3). by exists qu', k, new.
  - intros q'. by apply insert_below.
  - apply map_Forall_insert_2; [done|apply Hw].
Qed.

Lemma sound_put s q qu it qu' :
  wf s → queues s !! q = Some qu → put_nowait it qu = Some qu' → sound rd s (s <| queues ::= <[q := qu']> |>).
Proof.
  intros Hw Hq Hp. apply sound_queue; try done.
  - apply (fi_queues _ (wf_fresh _ Hw)). by exists qu.
  - pose proof (mailbox_put_bounded q it s (wf_bounded _ Hw)) as Hb. unfold mailbox_put in Hb. simpl in Hb.
    rewrite Hq Hp in Hb. apply (Hb q). simpl. by rewrite lookup_insert_eq.
  - intros qu0 [= <-]%(eq_trans (eq_sym Hq)). destruct (put_nowait_Some _ _ _ Hp) as [Hi Hm].
    exists 0, [it]. auto.
Qed.

Lemma get_nowait_bounded {A} (qu : queue A) x qu' :
  get_nowait qu = Some (x, qu') → queue_bounded qu → queue_bounded qu'.
Proof.
  unfold get_nowait, queue_bounded. destruct (q_items qu) as [|y l] eqn:E; [done|].
  intros [= <- <-]; simpl. intros [?|?]; [by left|right]. simpl in *. lia.
Qed.

Lemma sound_take s q x qu' :
  wf s → rd q → queues s !! q ≫= get_nowait = Some (x, qu') → sound rd s (s <| queues ::= <[q := qu']> |>).
Proof.
  intros Hw Hrd Hg. destruct (queues s !! q) as [qu|] eqn:Hq; [|done]. simpl in Hg.
  apply sound_queue; [done|apply (fi_queues _ (wf_fresh _ Hw)); by exists qu| |].
  - eapply get_nowait_bounded; [done|]. by apply (wf_bounded _ Hw q).
  - intros qu0 [= <-]%(eq_trans (eq_sym Hq)). unfold get_nowait in Hg.
    destruct (q_items qu) as [|y l] eqn:E; [done|]. injection Hg as <- <-. exists 1, []. simpl.
    rewrite app_nil_r drop_0. auto.
Qed.

Lemma sound_new_queue s q n :
  wf s → q < next_id s → ¬ has_queue s q → sound rd s (s <| queues ::= <[q := Queue [] n]> |>).
Proof.
  intros Hw Hq Hnew. apply sound_queue; try done.
  - unfold queue_bounded; simpl. destruct n; [by left|right; lia].
  - intros qu Hqu. destruct Hnew. by exists qu.
Qed.

Lemma sound_names s m :
  wf s → (∀ name q, m !! name = Some q → _mailboxes s !! name = Some q ∨ has_queue s q) →
  sound rd s (s <| _mailboxes := m |>).
Proof. intros Hw Hm. one_field Hw. Qed.

Lemma sound_live s m :
  wf s → (∀ name c, m !! name = Some c → _live_children s !! name = Some c ∨
            ∃ ch, children s !! c = Some ch ∧ ch_name ch = name ∧ is_actor ch) →
  sound rd s (s <| _live_children := m |>).
Proof. intros Hw Hm. one_field Hw. Qed.

Lemma sound_sup s sp sup : wf s → sp < next_id s → sup_ok s sup → sound rd s (s <| sups ::= <[sp := sup]> |>).
Proof.
  intros Hw Hsp Hok.
  assert (ext s (s <| sups ::= <[sp := sup]> |>)) as He.
  { split; simpl; try done; [by apply kept_children|]. intros sp'. apply insert_kept. }
  one_field Hw.
  - intros sp'. by apply insert_below.
  - intros sp' sup'. rewrite lookup_insert. case_decide; [intros [= <-]; right|by left].
    by eapply sup_ok_ext.
Qed.

Lemma sound_child s c ch' :
  wf s → c < next_id s → child_ok s c ch' →
  (∀ ch, children s !! c = Some ch → ch_name ch' = ch_name ch ∧ ch_kind ch' = ch_kind ch ∧
     (is_Some (ch_supervisor ch) → is_Some (ch_supervisor ch'))) →
  sound rd s (s <| children ::= <[c := ch']> |>).
Proof.
  intros Hw Hc Hok Hsame.
  assert (ext s (s <| children ::= <[c := ch']> |>)) as He.
  { split; simpl; try done. intros c0 ch0 H0. rewrite lookup_insert. case_decide; [subst|by exists ch0].
    exists ch'. split; [done|]. by apply Hsame. }
  one_field Hw.
  - intros c0. by apply insert_below.
  - intros c0 ch0. rewrite lookup_insert. case_decide; [intros [= <-]; subst; right|by left].
    by eapply child_ok_ext.
Qed.

Lemma sound_task s t tk' :
  wf s → t < next_id s → task_ok s tk' →
  (∀ tk, tasks s !! t = Some tk → owner (t_code tk') = owner (t_code tk)) →
  sound rd s (s <| tasks ::= <[t := tk']> |>).
Proof.
  intros Hw Ht Hok Hsame.
  assert (ext s (s <| tasks ::= <[t := tk']> |>)) as He.
  { split; simpl; try done; [by apply kept_children|]. intros t0 o (tk & Htk & Ho).
    unfold task_of; simpl. rewrite lookup_insert. case_decide; [subst|by exists tk]. exists tk'. by rewrite (Hsame tk). }
  one_field Hw.
  - intros t0. by apply insert_below.
  - intros t0 tk0. rewrite lookup_insert. case_decide; [intros [= <-]; right|by left]. by eapply task_ok_ext.
Qed.

End updates.

(** ** Cancelling *)

(** A task that has less to wait for. *)
Record easier (tk tk' : task) : Prop := {
  ea_code : t_code tk' = t_code tk;
  ea_wait : ∀ s, wait_ok s (t_wait tk) → wait_ok s (t_wait tk')
}.

#[export] Instance easier_preorder : PreOrder easier.
Proof. split; [by intros tk; split|]. intros tk1 tk2 tk3 [A1 A2] [B1 B2]. split; [congruence|auto]. Qed.

Definition eased (s s' : st) : Prop :=
  same_but_tasks s s' ∧ ∀ t, option_Forall2 easier (tasks s !! t) (tasks s' !! t).

#[export] Instance eased_preorder : PreOrder eased.
Proof.
  split.
  - intros s. split; [done|]. intros t. by apply option_Forall2_refl.
  - intros s1 s2 s3 [A1 A2] [B1 B2]. split; [by etrans|]. intros t. specialize (A2 t). specialize (B2 t).
    destruct A2 as [tk1 tk2 H12|]; inversion B2; subst; constructor. by etrans.
Qed.

(** Task [t], which was [tk] before, gets an easier wait. *)
Lemma eased_task t tk f s s' :
  tasks s !! t = Some tk → eased s s' → (∀ tk', t_code tk' = t_code tk → easier tk (f tk')) →
  eased s (upd_task t f s').
Proof.
  intros Ht [H1 H2] Hf. split; [by etrans; [|apply upd_task_same]|]. intros x. unfold upd_task; simpl.
  rewrite lookup_alter. case_decide as Hx; [subst x|apply H2]. specialize (H2 t). rewrite Ht in H2 |- *.
  inversion H2 as [? tk' Hs|]; subst. simpl. constructor. apply Hf. by apply ea_code.
Qed.

Lemma cancel_task_eased n : ∀ t s, eased s (cancel_task n t s).2.
Proof.
  induction n as [|n IH]; intros t s; simpl; [done|].
  destruct (tasks s !! t) as [tk|] eqn:Ht; simpl; [|done]. case_bool_decide; [done|].
  assert (∀ s', eased s s' → eased s (upd_task t (λ tk, tk <| t_must_cancel := true |>) s')) as Hrem.
  { intros s' [H1 H2]. split; [by etrans; [|apply upd_task_same]|]. intros x. unfold upd_task; simpl.
    rewrite lookup_alter. case_decide as Hx; [subst x|apply H2]. specialize (H2 t). rewrite Ht in H2 |- *.
    inversion H2 as [? tk' [Hc Hw]|]; subst. simpl. by constructor. }
  assert (eased s (upd_task t (λ tk, tk <| t_wait := WReady WkCancel |>) s)) as Hready.
  { by eapply eased_task. }
  destruct (t_wait tk) as [w|ms|t'|ts rq|sp| |] eqn:Hw; simpl; [by apply Hrem|done| | |done..].
  - specialize (IH t' s). destruct (cancel_task n t' s) as [[] s']; simpl in *; auto.
  - assert (∀ r s0, eased s s0 →
      eased s (foldl (λ acc t', let '(r, s) := acc in
                        let '(r', s') := cancel_task n t' s in (r || r', s')) (r, s0) ts).2) as Hf.
    { clear Hw. induction ts as [|t1 ts IHts]; intros r s0 H0; simpl; [done|].
      specialize (IH t1 s0). destruct (cancel_task n t1 s0) as [r1 s1]; simpl in *. apply IHts. by etrans. }
    specialize (Hf false s (reflexivity _)). destruct (foldl _ _ ts) as [[] s']; simpl in *; auto.
    eapply eased_task; [done..|]. intros tk' Hc. split; [done|]. by rewrite Hw.
Qed.

Lemma sound_eased rd s s' : wf s → eased s s' → sound rd s s'.
Proof.
  intros Hw [Hsame Ht].
  assert (∀ {A} (f : st → A), (∀ x, f (x <| tasks := ∅ |>) = f x) → f s' = f s) as Hf.
  { intros A f Hx. by rewrite -(Hx s) -(Hx s') Hsame. }
  assert (∀ t tk', tasks s' !! t = Some tk' → ∃ tk, tasks s !! t = Some tk ∧ easier tk tk') as Hback.
  { intros t tk' H. specialize (Ht t). rewrite H in Ht. inversion Ht; subst. eauto. }
  assert (ext s s') as He.
  { split; unfold has_queue, has_sup; rewrite ?(Hf _ queues) ?(Hf _ sups) //; [apply kept_children, Hf; done|].
    intros t o (tk & H & Ho). specialize (Ht t). rewrite H in Ht. inversion Ht as [? tk' [Hc _]|]; subst.
    exists tk'. by rewrite Hc. }
  pose proof (wf_fresh _ Hw) as [F1 F2 F3 F4].
  apply sound_intro; try done.
  - by apply flow_same, (Hf _ queues).
  - split; unfold has_queue, has_child, has_sup, has_task; rewrite (Hf _ next_id) ?(Hf _ queues) ?(Hf _ children) ?(Hf _ sups) //.
    intros t [tk' H]. destruct (Hback t tk' H) as (tk & H' & _). apply F4. by exists tk.
  - unfold queues_bounded. rewrite (Hf _ queues) //. apply Hw.
  - rewrite (Hf _ _mailboxes) //. auto.
  - rewrite (Hf _ _live_children) //. auto.
  - rewrite (Hf _ children) //. auto.
  - rewrite (Hf _ sups) //. auto.
  - intros t tk' H. right. destruct (Hback t tk' H) as (tk & H' & [Hc Hwt]). eapply task_ok_ext; [exact He|].
    destruct (wf_tasks _ Hw t tk H') as [K1 K2]. split; [by rewrite Hc|auto].
  - rewrite (Hf _ _core) //. auto.
Qed.

(** ** Computations *)

Section operations.
Context {codec : PayloadCodec} (rd : qid → Prop).

(** From [s], computation [m] is sound; it is from every well-formed state. *)
Definition does {A} (m : M st A) (s : st) : Prop := sound rd s (m s).2.
Definition keeps {A} (m : M st A) : Prop := ∀ s, wf s → does m s.

Lemma does_bind {A B} (m : M st A) (k : A → M st B) s :
  does m s → (∀ a s', wf s' → ext s s' → m s = (inr a, s') → does (k a) s') → does (bind m k) s.
Proof.
  intros Hm Hk. unfold does in *. simpl. destruct (m s) as [[e|a] s'] eqn:E; simpl in *; [done|].
  eapply sound_trans; [exact Hm|]. apply Hk; [apply Hm|apply Hm|done].
Qed.
Lemma does_step {A B} (m : M st A) (k : A → M st B) s a s' :
  m s = (inr a, s') → sound rd s s' → (wf s' → ext s s' → does (k a) s') → does (bind m k) s.
Proof.
  intros E Hs Hk. unfold does. simpl. rewrite E. eapply sound_trans; [exact Hs|]. apply Hk; apply Hs.
Qed.
Lemma does_get {A} (k : st → M st A) s : does (k s) s → does (let! x := get in k x) s.
Proof. done. Qed.
Lemma does_then {A B} (m : M st A) (k : A → M st B) s :
  does m s → (∀ a, keeps (k a)) → does (bind m k) s.
Proof. intros Hm Hk. apply does_bind; [done|]. intros a s' Hw _ _. by apply Hk. Qed.

Lemma keeps_ret {A} (a : A) : keeps (ret a).
Proof. intros s Hs. by apply sound_refl. Qed.
Lemma keeps_raise {A} e : keeps (raise (A := A) e).
Proof. intros s Hs. by apply sound_refl. Qed.
Lemma keeps_get : keeps get.
Proof. intros s Hs. by apply sound_refl. Qed.
Lemma keeps_lift {A} (r : exn + A) : keeps (lift r).
Proof. intros s Hs. by apply sound_refl. Qed.
Lemma keeps_bind {A B} (m : M st A) (k : A → M st B) :
  keeps m → (∀ a, keeps (k a)) → keeps (bind m k).
Proof. intros Hm Hk s Hs. by apply does_then; [apply Hm|]. Qed.
Lemma keeps_try {A} (m : M st A) h : keeps m → (∀ e, keeps (h e)) → keeps (try_except m h).
Proof.
  intros Hm Hh s Hs. specialize (Hm s Hs). unfold does in *. simpl.
  destruct (m s) as [[e|a] s']; simpl in *; [|done]. eapply sound_trans; [exact Hm|]. apply Hh, Hm.
Qed.
Lemma keeps_for_each {A} (xs : list A) body : (∀ x, keeps (body x)) → keeps (for_each xs body).
Proof. intros Hb. induction xs as [|x xs IH]; simpl; [apply keeps_ret|]. by apply keeps_bind. Qed.
Lemma keeps_modify f : (∀ s, view (f s) = view s) → (∀ s, _core (f s) = _core s) → keeps (modify f).
Proof. intros Hf Hc s Hs. apply sound_same; [done|apply Hf|apply Hc]. Qed.

(** Split a computation of the monad down to its calls. *)
Ltac keeps_step :=
  first
    [ assumption
    | solve [auto with lapin nocore]
    | apply keeps_bind; [|intros ?]
    | apply keeps_try; [|intros ?]
    | apply keeps_for_each; intros ?
    | apply keeps_modify; intros ?; reflexivity
    | case_match ].
Ltac keeps_solve := repeat keeps_step.

#[local] Hint Resolve keeps_ret keeps_raise keeps_get keeps_lift : lapin.

(** ** Calls into the core, and operations that do not concern the heaps *)

Definition core_keeps {A} (m : M core_t A) : Prop := ∀ co, core_ok co → core_ok (m co).2.

Lemma keeps_with_core {A} (m : M core_t A) : core_keeps m → keeps (with_core m).
Proof.
  intros Hm s Hs. unfold does, with_core. destruct (_core s) as [co|] eqn:Ec; [|by apply sound_refl].
  specialize (Hm co (wf_core _ Hs co Ec)). destruct (m co) as [r co'].
  apply sound_view; [done..|]. intros co0 [= <-]. by right.
Qed.

Lemma core_keeps_ret {A} (a : A) : core_keeps (ret a).
Proof. by intros co. Qed.
Lemma core_keeps_raise {A} e : core_keeps (raise (A := A) e).
Proof. by intros co. Qed.
Lemma core_keeps_get : core_keeps get.
Proof. by intros co. Qed.
Lemma core_keeps_bind {A B} (m : M core_t A) (k : A → M core_t B) :
  core_keeps m → (∀ a, core_keeps (k a)) → core_keeps (bind m k).
Proof.
  intros Hm Hk co Hco. specialize (Hm co Hco). unfold bind. destruct (m co) as [[e|a] co']; [done|]. by apply Hk.
Qed.
(** What was checked is known from there on. *)
Lemma core_keeps_lift {A B} (r : exn + A) (k : A → M core_t B) :
  (∀ a, r = inr a → core_keeps (k a)) → core_keeps (bind (lift r) k).
Proof. intros Hk co Hco. cbn [bind lift]. destruct r as [e|a]; [done|]. by apply Hk. Qed.
Lemma core_keeps_modify f : (∀ co, core_ok co → core_ok (f co)) → core_keeps (modify f).
Proof. intros Hf co Hco. by apply Hf. Qed.
Lemma core_keeps_require : core_keeps core_require.
Proof. intros co Hco. unfold core_require; simpl. by destruct (co_running co). Qed.

Lemma u64_next z : u64 (next_u64 z).
Proof. apply Z.mod_pos_bound. lia. Qed.
#[local] Hint Resolve u64_next core_keeps_ret core_keeps_raise core_keeps_get core_keeps_require : lapin.

Ltac core_step :=
  first
    [ solve [auto with lapin nocore]
    | apply core_keeps_lift; intros ? ?
    | apply core_keeps_bind; [|intros ?]
    | apply core_keeps_modify; intros ? [? ? ?]; split; simpl; by eauto using u64_next
    | case_match ].
Ltac core_solve := repeat core_step.

Lemma core_keeps_register name : core_keeps (core_register_actor name).
Proof. unfold core_register_actor. core_solve. Qed.
Lemma core_keeps_unregister name : core_keeps (core_unregister_actor name).
Proof. unfold core_unregister_actor. core_solve. Qed.
Lemma core_keeps_notify p d c : core_keeps (core_notify_peer_error p d c).
Proof.
  unfold core_notify_peer_error. core_solve. apply core_keeps_modify. intros co []. by case_bool_decide.
Qed.
Lemma core_keeps_connect p : core_keeps (core_connect_peer p).
Proof. unfold core_connect_peer. core_solve. Qed.
Lemma core_keeps_has p : core_keeps (core_has_peer p).
Proof. unfold core_has_peer. core_solve. Qed.
Lemma core_keeps_forget p : core_keeps (core_forget_peer p).
Proof.
  unfold core_forget_peer. core_solve. apply core_keeps_modify. intros co [H1 H2 H3]. split; simpl; try done.
  intros x [Hx _]%elem_of_difference. by apply H2.
Qed.

(** A frame gets the next number. *)
Lemma core_keeps_send p d v r c : core_keeps (core_send_data p d v r c).
Proof.
  unfold core_send_data. apply core_keeps_lift. intros [] Hu. apply core_keeps_lift. intros peer Hc%canonical_idem.
  apply core_keeps_lift. intros sent Hw. apply core_keeps_bind; [apply core_keeps_require|intros _].
  intros co [H1 H2 H3]. cbn [bind get]. destruct (co_refuses co peer v); [done|]. cbn [bind modify].
  case_bool_decide; split; simpl; auto with lapin.
  rewrite Forall_app. split; [done|]. constructor; [|done]. split; simpl; try done. by eapply wire_transfer_result.
Qed.

Lemma core_keeps_peers ps : set_Forall (λ p, canonical p = inr p) ps → core_keeps (core_set_peers ps).
Proof. intros Hps co [H1 H2 H3]. by split. Qed.
Lemma core_keeps_refuses f : core_keeps (core_set_refuses f).
Proof. intros co [H1 H2 H3]. by split. Qed.
Lemma core_keeps_ids n : core_keeps (core_used_ids n).
Proof. intros co [H1 H2 H3]. split; [|done..]. apply Z.mod_pos_bound. lia. Qed.
Lemma core_keeps_transmit : core_keeps core_transmit.
Proof.
  intros co [H1 H2 H3]. unfold core_transmit. split; simpl; [done..|]. destruct (co_out co); [done|].
  by apply list.Forall_cons in H3 as [_ H3].
Qed.

Lemma keeps_create_job j : keeps (create_job j).
Proof. by apply keeps_modify. Qed.
Lemma keeps_on_core_event ev : keeps (_on_core_event ev).
Proof.
  intros s Hs. destruct (on_core_event_frame ev s). unfold does. apply sound_same; [done| |done].
  unfold view. simpl in *. congruence.
Qed.
Lemma keeps_cancel t : keeps (cancel t).
Proof. intros s Hs. apply sound_eased; [done|]. apply cancel_task_eased. Qed.
Lemma keeps_alloc : keeps alloc.
Proof. intros s Hs. by apply sound_alloc. Qed.
#[local] Hint Resolve keeps_create_job keeps_on_core_event keeps_cancel keeps_alloc : lapin.
#[local] Hint Resolve keeps_with_core core_keeps_require core_keeps_register core_keeps_unregister
  core_keeps_notify core_keeps_send core_keeps_connect core_keeps_has core_keeps_forget core_keeps_ids
  core_keeps_transmit : lapin.

Lemma keeps_register_task t : keeps (_register_task t).
Proof. unfold _register_task. keeps_solve. Qed.
Lemma keeps_send_remote p a m rt c : keeps (_send_remote p a m rt c).
Proof. unfold _send_remote. keeps_solve. Qed.
Lemma keeps_group_broadcast g m v : keeps (group_broadcast g m v).
Proof. unfold group_broadcast. keeps_solve. Qed.
Lemma keeps_registry_broadcast g m v : keeps (registry_broadcast g m v).
Proof. unfold registry_broadcast. keeps_solve. Qed.
#[local] Hint Resolve keeps_register_task keeps_send_remote
  keeps_group_broadcast keeps_registry_broadcast : lapin.

Lemma keeps_send_best_effort p a m : keeps (send_best_effort p a m).
Proof. unfold send_best_effort. keeps_solve. Qed.
Lemma keeps_clear_links name : keeps (_clear_links name).
Proof. unfold _clear_links. keeps_solve. Qed.
Lemma keeps_clear_monitors name : keeps (_clear_monitors name).
Proof. unfold _clear_monitors. keeps_solve. Qed.
Lemma keeps_clear_groups name : keeps (_clear_groups name).
Proof. unfold _clear_groups, group_leave_hook. keeps_solve. Qed.
Lemma keeps_clear_registry name : keeps (_clear_registry name).
Proof. unfold _clear_registry, registry_release_hook. keeps_solve. Qed.
Lemma keeps_notify_exit name l m r : keeps (notify_exit name l m r).
Proof. unfold notify_exit, _notify_links, _notify_monitors. keeps_solve. Qed.
#[local] Hint Resolve keeps_send_best_effort keeps_clear_links keeps_clear_monitors
  keeps_clear_groups keeps_clear_registry keeps_notify_exit : lapin.

(** ** Tasks *)

Lemma does_suspend t cd w s :
  wf s → task_of s t (owner cd) → code_ok s cd → wait_ok s w → does (suspend t cd w) s.
Proof.
  intros Hw (tk & Ht & Ho) Hc Hwt. unfold does, suspend. cbn [bind get]. rewrite Ht. apply does_then.
  - apply sound_task; [done| |done|].
    + apply (fi_tasks _ (wf_fresh _ Hw)). by exists tk.
    + intros tk0 [= <-]%(eq_trans (eq_sym Ht)). done.
  - intros _. destruct (t_must_cancel tk); auto with lapin.
Qed.

Lemma upd_task_eased t f s : (∀ tk, easier tk (f tk)) → eased s (upd_task t f s).
Proof.
  intros Hf. split; [done|]. intros x. unfold upd_task; simpl. rewrite lookup_alter. case_decide; [subst|by apply option_Forall2_refl].
  destruct (tasks s !! x); constructor. apply Hf.
Qed.

Lemma keeps_upd_task t f : (∀ tk, easier tk (f tk)) → keeps (modify (upd_task t f)).
Proof. intros Hf s Hs. apply sound_eased; [done|]. by apply upd_task_eased. Qed.

Lemma keeps_finish t o : keeps (finish t o).
Proof.
  intros s Hs. unfold does, finish. cbn [modify snd]. eapply sound_trans.
  - apply sound_eased; [exact Hs|]. apply (upd_task_eased t (λ tk, tk <| t_out := Some o |>)). by split.
  - apply sound_same; [|done..]. apply (so_wf rd s), sound_eased; [exact Hs|]. apply upd_task_eased. by split.
Qed.

Lemma keeps_fire_timer t : keeps (fire_timer t).
Proof. apply keeps_upd_task. intros tk. destruct (t_wait tk) eqn:E; by split; rewrite ?E. Qed.
#[local] Hint Resolve keeps_finish : lapin.

(** ** Mailboxes *)

Lemma keeps_mailbox_put q it : keeps (mailbox_put q it).
Proof.
  intros s Hs. unfold does, mailbox_put. destruct (queues s !! q) as [qu|] eqn:Hq; [|by apply sound_refl].
  destruct (put_nowait it qu) as [qu'|] eqn:E; [by eapply sound_put|by apply sound_refl].
Qed.
#[local] Hint Resolve keeps_mailbox_put : lapin.

Lemma keeps_send_local name msg rt corr : keeps (_send_local name msg rt corr).
Proof. unfold _send_local. keeps_solve. Qed.
Lemma keeps_deliver_callback name q p meta : keeps (deliver_callback name q p meta).
Proof. unfold deliver_callback. keeps_solve. Qed.
#[local] Hint Resolve keeps_send_local keeps_deliver_callback : lapin.

Lemma keeps_mailbox_get q : rd q → keeps (mailbox_get q).
Proof.
  intros Hrd s Hs. unfold does, mailbox_get. cbn [bind get].
  destruct (queues s !! q ≫= get_nowait) as [[it qu']|] eqn:E; [|by apply sound_refl]. by eapply sound_take.
Qed.

(** A name is only ever registered with a mailbox that exists. *)
Lemma does_register name q s : wf s → has_queue s q → does (register_actor name q) s.
Proof.
  intros Hs Hq. unfold does, register_actor. cbn [bind get]. destruct (_core s) eqn:Ec; [|by apply sound_refl].
  assert (does (modify (λ s, s <| _mailboxes ::= <[name := q]> |>) ;; with_core (core_register_actor name)) s) as H.
  { apply does_then; [|intros _; auto with lapin]. apply sound_names; [done|].
    intros n q'. rewrite lookup_insert. case_decide; [by intros [= <-]; right|by left]. }
  destruct (_mailboxes s !! name); [case_bool_decide; [by apply sound_refl|]|]; exact H.
Qed.

Lemma keeps_unregister name : keeps (unregister_actor name).
Proof.
  unfold unregister_actor. apply keeps_bind; [|intros; keeps_solve].
  intros s Hs. apply sound_names; [done|]. intros n q. rewrite lookup_delete. case_decide; [done|by left].
Qed.
#[local] Hint Resolve keeps_mailbox_get keeps_unregister : lapin.

(** A new mailbox and its registration, as [spawn] and [ask] do it. *)
Lemma does_open_mailbox {A} name (n : st → nat) (k : qid → M st A) s :
  wf s → (∀ s', wf s' → ext s s' → has_queue s' (next_id s) → does (k (next_id s)) s') →
  does (let! q := alloc in
        modify (λ s, s <| queues ::= <[q := Queue [] (n s)]> |>) ;; register_actor name q ;; k q) s.
Proof.
  intros Hs Hk. eapply does_step; [done|by apply sound_alloc|]. intros Hw1 He1.
  eapply does_step; [done| |intros Hw2 He2].
  { apply sound_new_queue; simpl; [done|lia|]. intros Hq. apply (fi_queues _ (wf_fresh _ Hs)) in Hq. lia. }
  apply does_bind.
  { apply does_register; [exact Hw2|]. unfold has_queue; simpl. by rewrite lookup_insert_eq. }
  intros _ s3 Hw3 He3 _. apply Hk; [done| |].
  - etrans; [exact He1|]. by etrans.
  - eapply ext_queues; [exact He3|]. unfold has_queue; simpl. by rewrite lookup_insert_eq.
Qed.

Lemma keeps_ref_send ref msg rt corr : keeps (ref_send ref msg rt corr).
Proof. unfold ref_send. keeps_solve. Qed.
Lemma keeps_finally {A} name e : keeps (finally_unregister (A := A) name e).
Proof. unfold finally_unregister. keeps_solve. Qed.
#[local] Hint Resolve keeps_ref_send keeps_finally : lapin.

Lemma keeps_ask_begin ref n maxsize msg : keeps (ask_begin ref n maxsize msg).
Proof.
  intros s Hs. apply (does_open_mailbox (ask_name n) (λ _, maxsize)); [done|]. intros s' Hw' _ _.
  assert (keeps (try_except (ref_send ref msg (Some (ask_name n)) (Some (Z.of_N n)) ;; ret (next_id s))
    (finally_unregister (ask_name n)))) as Hk by keeps_solve. by apply Hk.
Qed.
Lemma keeps_ask_end n q : rd q → keeps (ask_end n q).
Proof. intros Hrd. unfold ask_end. keeps_solve. Qed.
Lemma keeps_stream_loop fuel n q : rd q → keeps (stream_loop fuel n q).
Proof.
  intros Hrd. induction fuel as [|fuel IH]; simpl; [apply keeps_ret|]. intros s Hs. unfold does. cbn [bind get].
  destruct (queues s !! q ≫= get_nowait) as [[it qu']|] eqn:E; [|by apply sound_refl].
  apply does_then; [by eapply sound_take|]. intros _. keeps_solve.
Qed.
#[local] Hint Resolve keeps_ask_begin keeps_ask_end : lapin.

(** ** Supervisors and children *)

Lemma does_upd_sup sp f s :
  wf s → (∀ sup, sups s !! sp = Some sup → sup_ok s sup → sup_ok s (f sup)) → does (upd_sup sp f) s.
Proof.
  intros Hs Hf. unfold does, upd_sup. cbn [modify snd]. destruct (sups s !! sp) as [sup|] eqn:E.
  - simpl. rewrite (alter_present _ _ _ _ E). apply sound_sup; [done| |].
    + apply (fi_sups _ (wf_fresh _ Hs)). by exists sup.
    + apply Hf; [done|]. by apply (wf_sups _ Hs sp).
  - apply sound_same; [done| |done]. unfold view; simpl. by rewrite alter_id'.
Qed.

Lemma remove_first_sublist c l : remove_first c l `sublist_of` l.
Proof.
  induction l as [|x l IH]; simpl; [done|]. case_bool_decide; [by apply sublist_cons|by apply sublist_skip].
Qed.

Lemma keeps_discard_child sp c : keeps (_discard_child sp c).
Proof.
  intros s Hs. apply does_upd_sup; [done|]. intros sup _ [H1 H2 H3]. pose proof (remove_first_sublist c (s_children sup)) as Hl.
  split; simpl; [by eapply sublist_NoDup| |done]. intros x Hx. apply H2. by eapply elem_of_sublist.
Qed.
Lemma keeps_give_up sp e : keeps (set_given_up sp e).
Proof. intros s Hs. apply does_upd_sup; [done|]. intros sup _ [H1 H2 H3]. split; simpl; eauto. Qed.
#[local] Hint Resolve keeps_discard_child keeps_give_up : lapin.

Lemma does_upd_child c f s :
  wf s → (∀ ch, child_ok s c ch → child_ok s c (f ch) ∧ ch_name (f ch) = ch_name ch ∧ ch_kind (f ch) = ch_kind ch ∧
            (is_Some (ch_supervisor ch) → is_Some (ch_supervisor (f ch)))) →
  does (upd_child c f) s.
Proof.
  intros Hs Hf. unfold does, upd_child. cbn [modify snd]. destruct (children s !! c) as [ch|] eqn:E.
  - simpl. rewrite (alter_present _ _ _ _ E). destruct (Hf ch (wf_children _ Hs c ch E)) as [Hok Hsame].
    apply sound_child; [done| |done|].
    + apply (fi_children _ (wf_fresh _ Hs)). by exists ch.
    + by intros ch0 [= <-]%(eq_trans (eq_sym E)).
  - apply sound_same; [done| |done]. unfold view; simpl. by rewrite alter_id'.
Qed.

Lemma does_new_supervisor {A} strat max window (k : sid → M st A) s :
  wf s → (∀ s', wf s' → ext s s' → has_sup s' (next_id s) → does (k (next_id s)) s') →
  does (let! sp := new_supervisor strat max window in k sp) s.
Proof.
  intros Hs Hk. assert (does (new_supervisor strat max window) s) as Hn.
  { unfold new_supervisor. eapply does_step; [done|by apply sound_alloc|]. intros Hw1 He1.
    eapply does_step; [done| |intros Hw2 _; by apply keeps_ret].
    apply sound_sup; simpl; [done|lia|]. split; simpl; [constructor| |done]. by intros c ?%elem_of_nil. }
  eapply does_step; [done|exact Hn|]. intros Hw He. apply Hk; [done..|].
  unfold has_sup; simpl. by rewrite lookup_insert_eq.
Qed.

Lemma keeps_new_supervisor strat max window : keeps (new_supervisor strat max window).
Proof.
  intros s Hs. pose proof (does_new_supervisor strat max window ret s Hs) as H. unfold does in *.
  apply H. intros s' Hw' _ _. by apply sound_refl.
Qed.

(** A new task for child [c] of supervisor [sp]. *)
Lemma does_create_task {A} cd (k : tid → M st A) s :
  wf s → code_ok s cd →
  (∀ s', wf s' → ext s s' → task_of s' (next_id s) (owner cd) → does (k (next_id s)) s') →
  does (let! t := create_task cd in k t) s.
Proof.
  intros Hs Hc Hk. assert (does (create_task cd) s) as Hn.
  { unfold create_task. eapply does_step; [done|by apply sound_alloc|]. intros Hw1 He1.
    eapply does_step; [done| |intros Hw2 _; by apply keeps_ret].
    apply sound_task; simpl; [done|lia| |].
    - split; simpl; [|done]. by eapply code_ok_ext.
    - intros tk Ht. assert (has_task s (next_id s)) as Hlt by (by exists tk).
      apply (fi_tasks _ (wf_fresh _ Hs)) in Hlt. lia. }
  eapply does_step; [done|exact Hn|]. intros Hw He. apply Hk; [done..|].
  eexists. simpl. by rewrite lookup_insert_eq.
Qed.

Lemma does_set_task c t sp s : wf s → task_of s t (inl (sp, c)) → does (upd_child c (λ ch, ch <| ch_task := Some t |>)) s.
Proof.
  intros Hs Ht. apply does_upd_child; [done|]. intros ch [K1 K2 K3 K4]. split_and!; try done.
  split; simpl; try done. intros t' [= <-]. eauto.
Qed.

(** The end of [spawn] and [spawn_supervisor]: a new child, its place in the
    supervisor's list and its task. *)
Lemma does_add_child sp ch s :
  wf s → has_sup s sp → child_ok s (next_id s) ch →
  does (let! c := alloc in
        modify (λ s, s <| children ::= <[c := ch]> |>) ;;
        upd_sup sp (λ sup, sup <| s_children ::= λ l, l ++ [c] |>) ;;
        let! t := create_task (CodeChild sp c PcStart) in
        upd_child c (λ ch, ch <| ch_task := Some t |>) ;; _register_task t ;; ret c) s.
Proof.
  intros Hs Hsp Hok. set (c := next_id s).
  assert (¬ has_child s c) as Hnew by (intros Hc%(fi_children _ (wf_fresh _ Hs)); unfold c in Hc; lia).
  eapply does_step; [done|by apply sound_alloc|]. intros Hw1 He1.
  eapply does_step; [done| |intros Hw2 He2].
  { apply sound_child; simpl; [done|lia|by eapply child_ok_ext|]. intros ch0 Hc0. destruct Hnew. by exists ch0. }
  fold c in Hw2, He2 |- *. set (s2 := s <| next_id ::= S |> <| children ::= <[c := ch]> |>) in *.
  assert (has_child s2 c) as Hc2 by (unfold has_child, s2; simpl; by rewrite lookup_insert_eq).
  assert (has_sup s2 sp) as Hsp2 by done.
  apply does_bind.
  { apply does_upd_sup; [done|]. intros sup Hsup [K1 K2 K3]. split; simpl; [| |done].
    - apply list.NoDup_app. split_and!; [done| |apply NoDup_singleton]. intros x Hx ->%list_elem_of_singleton.
      apply Hnew. change (sups s !! sp = Some sup) in Hsup. by apply (sk_children _ _ (wf_sups _ Hs sp sup Hsup)).
    - intros x [Hx| ->%list_elem_of_singleton]%elem_of_app; auto. }
  intros _ s3 Hw3 He3 _. apply does_create_task; [done| |].
  { split; [by eapply ext_sups|]. destruct (ext_has_child _ _ _ He3 Hc2) as [ch3 H3]. by exists ch3. }
  intros s4 Hw4 He4 Ht4. apply does_bind; [by eapply does_set_task|].
  intros _ s5 Hw5 _ _. assert (keeps (_register_task (next_id s3) ;; ret c)) as Hk by keeps_solve. by apply Hk.
Qed.

Lemma does_spawn sp cls meta s : wf s → has_sup s sp → does (spawn sp cls meta) s.
Proof.
  intros Hs Hsp. apply does_get, (does_open_mailbox (actor_name meta) (λ s, capacity_or_0 (mailbox_capacity s))); [done|].
  intros s1 Hw1 He1 Hq1. apply does_add_child; [done|by eapply ext_sups|].
  split; simpl; try done. by intros ? ? ? [= _ _ <-].
Qed.

Lemma does_spawn_supervisor sp name b strat max window s :
  wf s → has_sup s sp → does (spawn_supervisor sp name b strat max window) s.
Proof. intros Hs Hsp. apply does_add_child; [done|done|]. by split. Qed.

Lemma does_run_build sp ops : ∀ s, wf s → has_sup s sp → does (run_build sp ops) s.
Proof.
  induction ops as [|[cls meta|name b strat max window|e] ops IH]; intros s Hs Hsp; simpl.
  - by apply keeps_ret.
  - apply does_bind; [by apply does_spawn|]. intros c s' Hw He _. apply IH; [done|by eapply ext_sups].
  - apply does_bind; [by apply does_spawn_supervisor|]. intros c s' Hw He _. apply IH; [done|by eapply ext_sups].
  - by apply keeps_raise.
Qed.

Lemma keeps_shutdown_except sp ex : keeps (_shutdown_except sp ex).
Proof. unfold _shutdown_except. keeps_solve. Qed.
#[local] Hint Resolve keeps_new_supervisor keeps_shutdown_except : lapin.

Lemma does_respawn sp c s : wf s → has_sup s sp → does (_respawn_child sp c) s.
Proof.
  intros Hs Hsp. unfold does, _respawn_child. cbn [bind get]. destruct (children s !! c) as [ch|] eqn:Hc; [|by apply sound_refl].
  apply does_bind.
  { destruct (ch_kind ch); [|by apply keeps_ret]. apply does_upd_child; [done|]. intros ch0 [K1 K2 K3 K4]. by split_and!; try split. }
  intros _ s1 Hw1 He1 _. apply does_create_task; [done| |].
  { split; [by eapply ext_sups|]. destruct (ext_children _ _ He1 c ch Hc) as (ch1 & H1 & _). by exists ch1. }
  intros s2 Hw2 He2 Ht2. apply does_bind; [by eapply does_set_task|].
  intros _ s3 Hw3 _ _. by apply keeps_register_task.
Qed.

(** ** The coroutines *)

(** Task [t] runs child [c] of supervisor [sp]. *)
Record mine (s : st) (t : tid) (sp : sid) (c : cid) : Prop := {
  mi_task : task_of s t (inl (sp, c));
  mi_sup : has_sup s sp;
  mi_child : has_child s c
}.

Lemma mine_ext s s' t sp c : ext s s' → mine s t sp c → mine s' t sp c.
Proof. intros He [H1 H2 H3]. split; [by eapply ext_tasks|by eapply ext_sups|by eapply ext_has_child]. Qed.

(** Suspending it anywhere but at a child of a special kind. *)
Lemma does_park t sp c p w s :
  wf s → mine s t sp c → (∀ ch, children s !! c = Some ch → pc_ok s ch p) → wait_ok s w →
  does (suspend t (CodeChild sp c p) w) s.
Proof.
  intros Hs [H1 H2 [ch H3]] Hp Hwt. apply does_suspend; [done|done| |done]. split; [done|]. exists ch. auto.
Qed.

Lemma keeps_drop_live name : keeps (modify (λ s, s <| _live_children ::= delete name |>)).
Proof.
  intros s Hs. apply sound_live; [done|]. intros n c. rewrite lookup_delete. case_decide; [done|by left].
Qed.
#[local] Hint Resolve keeps_drop_live : lapin.

Lemma keeps_cleanup name : keeps (cleanup_generation name).
Proof. unfold cleanup_generation. keeps_solve. Qed.
Lemma keeps_crash_for_good t name k : keeps (crash_for_good t name k).
Proof. unfold crash_for_good. keeps_solve. Qed.
#[local] Hint Resolve keeps_cleanup keeps_crash_for_good : lapin.

Lemma tasks_of_exist s cs t : wf s → t ∈ tasks_of s cs → has_task s t.
Proof.
  intros Hs (c & Ht & _)%list_elem_of_bind. destruct (children s !! c) as [ch|] eqn:Hc; simpl in Ht; [|by apply elem_of_nil in Ht].
  destruct (ch_task ch) as [t'|] eqn:Et; [apply list_elem_of_singleton in Ht as ->|by apply elem_of_nil in Ht].
  destruct (ck_task _ _ _ (wf_children _ Hs c ch Hc) t' Et) as (sp & tk & H & _). by exists tk.
Qed.

(** [_shutdown_except] returns tasks that exist. *)
Lemma shutdown_tasks sp ex s ts s' t :
  wf s → _shutdown_except sp ex s = (inr ts, s') → t ∈ ts → has_task s t.
Proof.
  intros Hs. unfold _shutdown_except. cbn [bind get]. destruct (sups s !! sp) as [sup|]; [|by intros [= <- <-] ?%elem_of_nil].
  cbn [bind ret]. destruct (for_each _ _ s) as [[e|[]] s1]; [done|]. intros [= <- <-] Ht. by eapply tasks_of_exist.
Qed.

Lemma does_handle_crash t sp c name k now s :
  wf s → mine s t sp c → does (_handle_child_crash t sp c name k now) s.
Proof.
  intros Hs Hm. apply does_get. destruct (sups s !! sp) as [sup|] eqn:E; [|by apply keeps_ret].
  destruct (_allow_restart now sup) as [ok sup'] eqn:Ea. apply does_bind.
  { apply does_upd_sup; [done|]. intros sup0 [= <-]%(eq_trans (eq_sym E)) [K1 K2 K3].
    unfold _allow_restart in Ea. case_bool_decide; simplify_eq; by split. }
  intros _ s1 Hw1 He1 _. apply (mine_ext _ _ _ _ _ He1) in Hm. destruct ok; [by apply does_park|].
  apply does_bind; [by apply keeps_on_core_event|]. intros _ s2 Hw2 He2 _. apply (mine_ext _ _ _ _ _ He2) in Hm.
  assert (does (let! ts := _shutdown_except sp (Some c) in
    match ts with
    | [] => set_given_up sp (k_exn k) ;; crash_for_good t name k
    | _ => suspend t (CodeChild sp c (PcGiveUp k)) (WGather ts false)
    end) s2) as Hgroup.
  { apply does_bind; [by apply keeps_shutdown_except|]. intros ts s3 Hw3 He3 Hts.
    assert (∀ t, t ∈ ts → has_task s3 t) as Hex.
    { intros t0 Ht0. eapply ext_has_task; [exact He3|]. eapply shutdown_tasks; [|exact Hts|]; done. }
    apply (mine_ext _ _ _ _ _ He3) in Hm. destruct ts as [|t0 ts]; [|by apply does_park].
    assert (keeps (set_given_up sp (k_exn k) ;; crash_for_good t name k)) as Hk by keeps_solve. by apply Hk. }
  destruct (s_strategy sup); [|done..]. apply does_then; [by apply keeps_discard_child|]. intros _. keeps_solve.
Qed.

Lemma does_actor_crashed t sp c name e now s : wf s → mine s t sp c → does (actor_crashed t sp c name e now) s.
Proof.
  intros Hs Hm. apply does_bind; [by apply keeps_cleanup|]. intros lm s1 Hw1 He1 _.
  apply does_handle_crash; [done|]. by eapply mine_ext.
Qed.

Lemma does_set_pending c e s : wf s → does (upd_child c (λ ch, ch <| ch_pending_exit := e |>)) s.
Proof. intros Hs. apply does_upd_child; [done|]. intros ch [K1 K2 K3 K4]. by split_and!; try split. Qed.

Lemma does_actor_cancelled t sp c name now s : wf s → mine s t sp c → does (actor_cancelled t sp c name now) s.
Proof.
  intros Hs Hm. apply does_bind; [by apply keeps_cleanup|]. intros lm s1 Hw1 He1 _.
  apply (mine_ext _ _ _ _ _ He1) in Hm. apply does_get. destruct (children s1 !! c ≫= ch_pending_exit) as [e|].
  - apply does_bind; [by apply does_set_pending|]. intros _ s2 Hw2 He2 _.
    apply does_handle_crash; [done|]. by eapply mine_ext.
  - assert (keeps (notify_exit name lm.1 lm.2 "shutdown" ;; finish t OCancelled)) as Hk by keeps_solve. by apply Hk.
Qed.

Lemma keeps_actor_returned t sp c name : keeps (actor_returned t sp c name).
Proof. unfold actor_returned. keeps_solve. Qed.

Lemma does_actor_head t sp c ch cls meta q ctor now s :
  wf s → mine s t sp c → children s !! c = Some ch → ch_kind ch = ActorChild cls meta q →
  does (actor_head t sp c (ch_name ch) q ctor now) s.
Proof.
  intros Hs Hm Hc Hk. unfold actor_head. destruct ctor as [e|]; [by apply does_actor_crashed|].
  assert (is_actor ch) as Ha by (by eexists _, _, _).
  assert (does (λ s, let '(r, s') := register_actor (ch_name ch) q s in (inr r, s')) s) as Hreg.
  { pose proof (does_register (ch_name ch) q s Hs (ck_mailbox _ _ _ (wf_children _ Hs c ch Hc) _ _ _ Hk)) as H.
    unfold does in *. by destruct (register_actor (ch_name ch) q s). }
  apply does_bind; [exact Hreg|]. intros r s1 Hw1 He1 _. apply (mine_ext _ _ _ _ _ He1) in Hm.
  destruct r as [e|_]; [by apply does_actor_crashed|].
  destruct (ext_children _ _ He1 c ch Hc) as (ch1 & Hc1 & Hn1 & Hk1 & _). apply (is_actor_kind ch ch1 Hk1) in Ha.
  apply does_bind.
  { apply sound_live; [done|]. intros n c'. rewrite lookup_insert. case_decide; [intros [= <-]; subst; right|by left].
    by exists ch1. }
  intros _ s2 Hw2 He2 _. apply (mine_ext _ _ _ _ _ He2) in Hm.
  destruct (ext_children _ _ He2 c ch1 Hc1) as (ch2 & Hc2 & _ & Hk2 & _). apply (is_actor_kind ch1 ch2 Hk2) in Ha.
  apply does_create_task; [done|by exists ch2|]. intros s3 Hw3 He3 Hd. apply does_bind.
  { apply does_upd_child; [done|]. intros ch0 [K1 K2 K3 K4]. split_and!; try done. split; simpl; try done. by intros d [= <-]. }
  intros _ s4 Hw4 He4 _. assert (ext s2 s4) as He24 by (by etrans). apply does_park; [done|by eapply mine_ext| |].
  - intros ch4 Hc4. destruct (ext_children _ _ He24 c ch2 Hc2) as (ch' & Hc' & _ & Hk' & _). simplify_eq.
    by apply (is_actor_kind ch2).
  - destruct (ext_tasks _ _ He4 _ _ Hd) as (tk & Htk & _). by exists tk.
Qed.

Lemma does_supervisor_head t sp c ch name b strat max window now s :
  wf s → mine s t sp c → children s !! c = Some ch → ¬ is_actor ch →
  does (supervisor_head t sp c name b strat max window now) s.
Proof.
  intros Hs Hm Hc Hna. unfold supervisor_head, Supervisor_new. destruct (check_strategy strat) as [e|strat']; [by apply keeps_raise|].
  apply does_new_supervisor; [done|]. intros s1 Hw1 He1 Hns.
  destruct (ext_children _ _ He1 c ch Hc) as (ch1 & Hc1 & _ & Hk1 & _). rewrite (is_actor_kind ch ch1 Hk1) in Hna.
  apply (mine_ext _ _ _ _ _ He1) in Hm. set (ns := next_id s) in *.
  set (s2 := s1 <| children ::= <[c := ch1 <| ch_supervisor := Some ns |>]> |>).
  assert (upd_child c (λ ch, ch <| ch_supervisor := Some ns |>) s1 = (inr tt, s2)) as Hup.
  { unfold upd_child, s2; simpl. by rewrite (alter_present _ _ _ _ Hc1). }
  eapply does_step; [exact Hup| |intros Hw2 He2].
  { apply sound_child; [done|apply (fi_children _ (wf_fresh _ Hw1)); by exists ch1| |].
    - destruct (wf_children _ Hw1 c ch1 Hc1) as [K1 K2 K3 K4]. split; simpl; try done. by intros ns' [= <-].
    - by intros ch0 [= <-]%(eq_trans (eq_sym Hc1)). }
  apply (mine_ext _ _ _ _ _ He2) in Hm. assert (has_sup s2 ns) as Hns2 by (by eapply ext_sups).
  assert (does (λ s, let '(r, s') := run_build ns b s in (inr r, s')) s2) as Hb.
  { pose proof (does_run_build ns b s2 Hw2 Hns2) as H. unfold does in *. by destruct (run_build ns b s2). }
  apply does_bind; [exact Hb|]. intros r s3 Hw3 He3 _. apply (mine_ext _ _ _ _ _ He3) in Hm.
  destruct r as [e|_]; [by apply does_handle_crash|]. apply does_park; [done|done| |by eapply ext_sups].
  intros ch3 Hc3. destruct (ext_children _ _ He3 c (ch1 <| ch_supervisor := Some ns |>)) as (ch' & Hc' & _ & Hk' & Hs').
  { unfold s2; simpl. by rewrite lookup_insert_eq. }
  simplify_eq. split; [by rewrite -(is_actor_kind ch1)|]. apply Hs'. by eexists.
Qed.

Lemma does_child_head t sp c ctor now s : wf s → mine s t sp c → does (child_head t sp c ctor now) s.
Proof.
  intros Hs Hm. apply does_get. destruct (children s !! c) as [ch|] eqn:Hc; [|by apply keeps_ret].
  destruct (ch_kind ch) as [cls meta q|b strat max window] eqn:Hk.
  - by eapply does_actor_head.
  - eapply does_supervisor_head; [done|done|exact Hc|]. intros (cls & meta & q & Hk'). by rewrite Hk in Hk'.
Qed.

Definition all_children (s : st) (cs : list cid) : Prop := ∀ c, c ∈ cs → has_child s c.

Lemma all_children_ext s s' cs : ext s s' → all_children s cs → all_children s' cs.
Proof. intros He H c Hc. eapply ext_has_child; [exact He|auto]. Qed.

Lemma does_teardown t sp c k siblings rest : ∀ s,
  wf s → mine s t sp c → all_children s siblings → all_children s rest →
  does (teardown t sp c k siblings rest) s.
Proof.
  induction rest as [|c' rest IH]; intros s Hs Hm Hsib Hrest; [by apply keeps_ret|].
  assert (all_children s rest) as Hrest' by (intros x Hx; apply Hrest; by right).
  apply does_get. destruct (children s !! c' ≫= ch_task) as [t'|] eqn:Et; [|by apply IH].
  destruct (task_done s t'); [by apply IH|].
  assert (has_task s t') as Ht'.
  { apply (tasks_of_exist s [c']); [done|]. apply list_elem_of_bind. exists c'. rewrite Et. split; by left. }
  apply does_bind; [by apply keeps_cancel|]. intros _ s1 Hw1 He1 _. apply does_then; [|intros _; apply keeps_ret].
  apply does_park; [done|by eapply mine_ext| |by eapply ext_has_task].
  intros ch _. split; by eapply all_children_ext.
Qed.

Lemma does_respawn_all sp siblings : ∀ s, wf s → has_sup s sp → does (for_each siblings (_respawn_child sp)) s.
Proof.
  induction siblings as [|c siblings IH]; intros s Hs Hsp; [by apply keeps_ret|].
  apply does_bind; [by apply does_respawn|]. intros _ s1 Hw1 He1 _. apply IH; [done|by eapply ext_sups].
Qed.

Lemma does_restart_group t sp c k siblings rest ctor now s :
  wf s → mine s t sp c → all_children s siblings → all_children s rest →
  does (restart_group t sp c k siblings rest ctor now) s.
Proof.
  intros Hs Hm Hsib Hrest. apply does_bind; [by apply does_teardown|]. intros b s1 Hw1 He1 _.
  apply (mine_ext _ _ _ _ _ He1) in Hm. destruct b; [by apply keeps_ret|].
  apply does_bind; [apply does_respawn_all; [done|apply Hm]|]. intros _ s2 Hw2 He2 _.
  apply does_child_head; [done|by eapply mine_ext].
Qed.

Lemma from_child_subset c l l' : from_child c l = Some l' → l' ⊆ l.
Proof.
  induction l as [|x l IH]; simpl; [done|]. case_bool_decide; [by intros [= <-]|]. intros Hl%IH. set_solver.
Qed.

Lemma affected_exist s sp sup c l :
  wf s → sups s !! sp = Some sup → has_child s c → _affected_children sup c = inr l → all_children s l.
Proof.
  intros Hs Hsup Hc Hl x Hx. pose proof (sk_children _ _ (wf_sups _ Hs sp sup Hsup)) as Hall.
  unfold _affected_children in Hl. destruct (s_strategy sup).
  - injection Hl as <-. by apply list_elem_of_singleton in Hx as ->.
  - injection Hl as <-. auto.
  - destruct (from_child c (s_children sup)) as [l'|] eqn:E; [|done]. injection Hl as <-.
    apply Hall. by apply (from_child_subset c _ l').
Qed.

(** The branch of [run_child] that waits for a nested supervisor. *)
Lemma does_sup_wait t sp c ch p w now s :
  wf s → mine s t sp c → children s !! c = Some ch → p = PcSupWait → pc_ok s ch p →
  does (match w, ch_supervisor ch with
        | WkCancel, Some ns =>
            let! ts := _shutdown_except ns None in
            match ts with
            | [] => finish t OCancelled
            | _ => suspend t (CodeChild sp c PcSupShutdown) (WGather ts false)
            end
        | _, Some ns =>
            match sups s !! ns ≫= s_give_up_exc with
            | Some e => _handle_child_crash t sp c (ch_name ch) (Crash e None None) now
            | None => ret tt
            end
        | _, None => ret tt
        end) s.
Proof.
  intros Hs Hm Hc -> [Hna Hsome].
  assert (∀ ns, does (match sups s !! ns ≫= s_give_up_exc with
    | Some e => _handle_child_crash t sp c (ch_name ch) (Crash e None None) now | None => ret tt end) s) as Hcrash.
  { intros ns. destruct (sups s !! ns ≫= s_give_up_exc); [by apply does_handle_crash|by apply keeps_ret]. }
  destruct w; (destruct (ch_supervisor ch) as [ns|] eqn:Es; [|by apply keeps_ret]); [apply Hcrash..|].
  apply does_bind; [by apply keeps_shutdown_except|]. intros ts s1 Hw1 He1 Hts.
  destruct ts as [|t0 ts]; [by apply keeps_finish|]. apply does_park; [done|by eapply mine_ext| |].
  - intros ch1 Hc1. destruct (ext_children _ _ He1 c ch Hc) as (ch' & Hc' & _ & Hk & Hs'). simplify_eq.
    split; [by rewrite -(is_actor_kind ch)|]. apply Hs'. by rewrite Es.
  - intros t1 Ht1. eapply ext_has_task; [exact He1|]. by eapply shutdown_tasks.
Qed.

Lemma does_run_child t sp c p w ctor now s ch :
  wf s → mine s t sp c → children s !! c = Some ch → pc_ok s ch p → does (run_child t sp c p w ctor now) s.
Proof.
  intros Hs Hm Hc Hp. apply does_get. rewrite Hc. destruct p as [| |k|k siblings rest|k| |].
  - destruct w; [by apply does_child_head..|by apply keeps_finish].
  - destruct w; [by apply keeps_actor_returned|by apply does_actor_crashed|by apply does_actor_cancelled].
  - assert (does (match sups s !! sp with
      | None => ret tt
      | Some sup => let! affected := lift (_affected_children sup c) in
          let siblings := filter (λ c', c' ≠ c) affected in
          restart_group t sp c k siblings siblings ctor now end) s) as H.
    { destruct (sups s !! sp) as [sup|] eqn:Hsup; [|by apply keeps_ret].
      apply does_bind; [by apply keeps_lift|]. intros l s' Hw' He' Hl. cbn [lift] in Hl.
      destruct (_affected_children sup c) as [e|l'] eqn:Ea; [done|]. simplify_eq.
      assert (all_children s' (filter (λ c', c' ≠ c) l)) as Hsib.
      { intros x [_ Hx]%list_elem_of_filter. eapply affected_exist; [done|exact Hsup|by exists ch|done|done]. }
      by apply does_restart_group. }
    destruct w; [done..|by apply keeps_finish].
  - destruct Hp. by apply does_restart_group.
  - assert (keeps (set_given_up sp (k_exn k) ;; crash_for_good t (ch_name ch) k)) as Hk by keeps_solve.
    destruct w; [by apply Hk..|by apply keeps_finish].
  - by apply (does_sup_wait t sp c ch PcSupWait).
  - by apply keeps_finish.
Qed.

Lemma does_guard t m s : wf s → does m s → does (guard_task t m) s.
Proof.
  intros Hs Hm. unfold does, guard_task in *. simpl. destruct (m s) as [[e|[]] s']; simpl in *; [|done].
  eapply sound_trans; [exact Hm|]. apply keeps_finish, Hm.
Qed.

Lemma keeps_step_child t ctor now : keeps (step_child t ctor now).
Proof.
  intros s Hs. apply does_get. destruct (tasks s !! t) as [tk|] eqn:Ht; [|by apply keeps_ret].
  destruct (t_out tk); [by apply keeps_ret|]. destruct (wf_tasks _ Hs t tk Ht) as [Hcode _].
  destruct (t_code tk) as [sp c p|c cur] eqn:Hcd; [|by apply keeps_ret].
  destruct (pending_wake s (t_wait tk)) as [w|]; [|by apply keeps_ret].
  apply does_bind; [by apply keeps_upd_task|]. intros _ s1 Hw1 He1 _.
  assert (code_ok s1 (CodeChild sp c p)) as (Hsp & ch & Hc & Hp) by (by eapply code_ok_ext).
  apply does_guard; [done|]. eapply does_run_child; [done| |done|done]. split; [|done|by exists ch].
  eapply ext_tasks; [exact He1|]. exists tk. by rewrite Hcd.
Qed.

(** ** Drivers *)

(** The mailbox that driver [t] reads. *)
Definition reads_mailbox (s : st) (t : tid) (q : qid) : Prop :=
  ∃ tk c cur ch cls meta, tasks s !! t = Some tk ∧ t_code tk = CodeDrive c cur ∧
    children s !! c = Some ch ∧ ch_kind ch = ActorChild cls meta q.

Lemma does_drive_result t c meta h ch s :
  wf s → task_of s t (inr c) → children s !! c = Some ch → is_actor ch → does (drive_result t c meta h) s.
Proof.
  intros Hs Ht Hc Ha. unfold drive_result. destruct h; try by apply keeps_finish.
  - apply does_suspend; [done..| |done]. by exists ch.
  - apply does_suspend; [done..| |done]. by exists ch.
Qed.

Lemma does_step_driver t h s : wf s → (∀ q, reads_mailbox s t q → rd q) → does (step_driver t h) s.
Proof.
  intros Hs Hrd. apply does_get. destruct (tasks s !! t) as [tk|] eqn:Ht; [|by apply keeps_ret].
  destruct (t_out tk); [by apply keeps_ret|]. destruct (wf_tasks _ Hs t tk Ht) as [Hcode _].
  destruct (t_code tk) as [|c cur] eqn:Hcd; [by apply keeps_ret|]. destruct Hcode as (ch & Hc & cls & meta & q & Hk).
  eapply does_step; [done|apply sound_eased; [done|]; apply upd_task_eased; by split|]. intros Hw1 He1.
  set (s1 := upd_task _ _ _) in *. assert (children s1 !! c = Some ch) as Hc1 by done.
  assert (task_of s1 t (inr c)) as Ht1 by (eapply ext_tasks; [exact He1|]; exists tk; by rewrite Hcd).
  assert (is_actor ch) as Ha by (by eexists _, _, _).
  destruct cur as [m|]; [by eapply does_drive_result|].
  destruct (_ || _); [by apply keeps_finish|]. apply does_get. rewrite Hc1 Hk.
  destruct (queues s1 !! q ≫= get_nowait) as [[[msg m] qu']|] eqn:E.
  - apply does_bind; [apply (sound_take rd s1 q (msg, m) qu' Hw1); [|exact E]; apply Hrd; by exists tk, c, None, ch, cls, meta|].
    intros _ s2 Hw2 He2 _. destruct (dispatch cls meta msg); [by apply keeps_finish|].
    destruct (ext_children _ _ He2 c ch Hc1) as (ch2 & Hc2 & _ & Hk2 & _).
    eapply does_drive_result; [done|by eapply ext_tasks|exact Hc2|]. by apply (is_actor_kind ch).
  - apply does_suspend; [done..| |done]. by exists ch.
Qed.

(** ** Signals, groups, names *)

Lemma keeps_deliver_exit f n r : keeps (_deliver_exit f n r).
Proof.
  unfold _deliver_exit. keeps_solve. intros s Hs. by apply (does_set_pending c (Some (link_exit_exn f r))).
Qed.
Lemma keeps_deliver_down ref l r : keeps (_deliver_down ref l r).
Proof. unfold _deliver_down. keeps_solve. Qed.
#[local] Hint Resolve keeps_deliver_exit keeps_deliver_down : lapin.

Lemma keeps_job_body j : keeps (job_body j).
Proof.
  unfold job_body, _notify_remote_exit, _notify_remote_down, group_send_delta, group_send_snapshot,
    registry_send_delta, registry_send_snapshot. keeps_solve.
Qed.
#[local] Hint Resolve keeps_job_body : lapin.

Lemma keeps_run_job : keeps run_job.
Proof. unfold run_job. keeps_solve. Qed.

Lemma keeps_hear_claim n o : keeps (hear_claim n o).
Proof. unfold hear_claim. keeps_solve. Qed.
Lemma keeps_hear_release n o : keeps (hear_release n o).
Proof. unfold hear_release. keeps_solve. Qed.
#[local] Hint Resolve keeps_hear_claim keeps_hear_release : lapin.

Lemma keeps_link_actor msg : keeps (link_actor_receive msg).
Proof. unfold link_actor_receive. keeps_solve. Qed.
Lemma keeps_monitor_actor msg : keeps (monitor_actor_receive msg).
Proof. unfold monitor_actor_receive. keeps_solve. Qed.
Lemma keeps_groups_actor msg : keeps (groups_actor_receive msg).
Proof. unfold groups_actor_receive, add_snapshot_group. keeps_solve. Qed.
Lemma keeps_registry_actor msg : keeps (registry_actor_receive msg).
Proof. unfold registry_actor_receive. keeps_solve. Qed.

Lemma keeps_link_me me : keeps (link_me me).
Proof. unfold link_me. keeps_solve. Qed.
Lemma keeps_monitor_me me : keeps (monitor_me me).
Proof. unfold monitor_me. keeps_solve. Qed.
#[local] Hint Resolve keeps_link_me keeps_monitor_me : lapin.

(** ** The node *)

Lemma keeps_start bound refuses : keeps (start bound refuses).
Proof.
  assert (∀ id b, core_ok (fresh_core id b refuses)) as Hco by (intros id b; by split).
  intros s Hs. apply does_get. destruct (_started s); [by apply keeps_ret|]. destruct bound as [e|e|id].
  - by apply keeps_raise.
  - apply does_then; [|intros _; apply keeps_raise]. apply sound_view; [done|done|]. intros co [= <-]. by right.
  - apply sound_view; [done|done|]. intros co [= <-]. by right.
Qed.

Lemma keeps_remove_waiter p i : keeps (remove_waiter p i).
Proof.
  apply keeps_modify; intros s; (destruct (_peer_waiters s !! p); [|done]); by case_bool_decide.
Qed.
#[local] Hint Resolve keeps_remove_waiter : lapin.

Lemma settle_futures_view f is_ : ∀ s,
  view (foldl (settle_future f) s is_) = view s ∧ _core (foldl (settle_future f) s is_) = _core s.
Proof. induction is_ as [|i is_ IH]; intros s; simpl; [done|]. by destruct (IH (settle_future f s i)) as [-> ->]. Qed.

Lemma keeps_stop_end : keeps stop_end.
Proof.
  intros s Hs. unfold does, stop_end. cbn [modify snd].
  set (s1 := s <| _core := None |> <| _mailboxes := ∅ |> <| _started := false |>). set (is_ := _ ≫= id).
  eapply (sound_trans _ _ (s <| _mailboxes := ∅ |>)); [by apply sound_names|].
  destruct (settle_futures_view (FExn node_stopped_exn) is_ s1) as [Hv Hc].
  apply sound_view; [|exact Hv|]; [by apply (so_wf rd s), sound_names|].
  intros co Hco. simpl in Hco. rewrite Hc in Hco. done.
Qed.

Lemma does_spawn_workers sp name is_ : ∀ s, wf s → has_sup s sp → does (spawn_workers sp name is_) s.
Proof.
  induction is_ as [|i is_ IH]; intros s Hs Hsp; [by apply keeps_ret|].
  apply does_bind; [by apply does_spawn|]. intros c s1 Hw1 He1 _. apply (ext_sups _ _ He1) in Hsp.
  apply does_bind; [by apply keeps_send_local|]. intros _ s2 Hw2 He2 _. apply (ext_sups _ _ He2) in Hsp.
  apply does_then; [by apply IH|]. intros cs. apply keeps_ret.
Qed.

Lemma does_spawn_pool sp handler n name cap ex key s :
  wf s → has_sup s sp → does (_spawn_pool sp handler n name cap ex key) s.
Proof.
  intros Hs Hsp. apply does_bind; [by apply keeps_lift|]. intros _ s1 Hw1 He1 _. apply (ext_sups _ _ He1) in Hsp.
  apply does_bind; [by apply does_spawn|]. intros d s2 Hw2 He2 _. apply (ext_sups _ _ He2) in Hsp.
  apply does_then; [by apply does_spawn_workers|]. intros ws. apply keeps_ret.
Qed.

Lemma does_forget {A} (m : M st A) s : does m s → does (forget m) s.
Proof. intros Hm. apply does_then; [done|]. intros a. apply keeps_ret. Qed.

(** A feature: what it sets is not about the heaps, then it spawns. *)
Lemma does_setup f sp s : wf s → has_sup s sp → does (run_api (ASetup f sp)) s.
Proof.
  intros Hs Hsp.
  assert (∀ (m : M st unit) (k : M st cid), keeps m → (∀ s, wf s → has_sup s sp → does k s) →
    ∀ s, wf s → has_sup s sp → does (m ;; k) s) as Hthen.
  { intros m k Hm Hk s0 Hs0 Hsp0. apply does_bind; [by apply Hm|]. intros _ s1 Hw1 He1 _.
    apply Hk; [done|by eapply ext_sups]. }
  destruct f; simpl; apply does_forget; [by apply does_spawn..| | |].
  all: repeat (apply Hthen; [by apply keeps_modify|intros ? ? ?| done|done]).
  all: by apply does_spawn.
Qed.

(** The mailboxes that a step may take messages from. *)
Definition reads_of (l : step) (s : st) (q : qid) : Prop :=
  match l with
  | SDrive t _ => reads_mailbox s t q
  | SApi (AAskEnd _ q' | AStream _ _ q') => q = q'
  | _ => False
  end.

Lemma does_run_api a s : wf s → valid (SApi a) s → (∀ q, reads_of (SApi a) s q → rd q) → does (run_api a) s.
Proof.
  intros Hs Hv Hrd.
  destruct a; simpl in Hv, Hrd;
    try (match goal with |- does ?m s => assert (keeps m) as Hk; [|exact (Hk s Hs)] end;
      unfold run_api, forget, cancel_child, shutdown, link, unlink, trap_exit, monitor, demonitor, join_group,
        leave_group, group_me, register_name, unregister_name, registry_me, reply, send_stream, on_event,
        stop_begin, connect_peer_begin, connect_peer_end, forget_peer, pool_stop_begin, pool_stop_end; by keeps_solve).
  - by apply does_forget, does_spawn.
  - by apply does_forget, does_spawn_supervisor.
  - apply does_forget, keeps_ask_end; auto.
  - by apply does_setup.
  - by apply keeps_start.
  - apply does_forget, keeps_stream_loop; auto.
  - by apply does_forget, does_spawn_pool.
Qed.

Lemma does_run_step l s : wf s → valid l s → (∀ q, reads_of l s q → rd q) → does (run_step l) s.
Proof.
  intros Hs Hv Hrd. destruct l; simpl in *.
  - by apply keeps_step_child.
  - by apply does_step_driver.
  - by apply keeps_fire_timer.
  - by apply keeps_run_job.
  - by apply does_run_api.
  - by apply keeps_deliver_callback.
  - by apply keeps_on_core_event.
  - by apply keeps_link_actor.
  - by apply keeps_monitor_actor.
  - by apply keeps_groups_actor.
  - by apply keeps_registry_actor.
  - apply keeps_with_core; [by apply core_keeps_peers|done].
  - apply keeps_with_core; [apply core_keeps_refuses|done].
  - apply keeps_with_core; [apply core_keeps_ids|done].
  - apply keeps_with_core; [apply core_keeps_transmit|done].
  - by apply keeps_stop_end.
Qed.

End operations.

(** ** Every reachable state *)

Section reachable.
Context {codec : PayloadCodec}.

Lemma wf_init id capacity : wf (Node_init id capacity).
Proof.
  split; simpl; try (intros *; by rewrite lookup_empty).
  - split; by intros x [? H].
  - apply map_Forall_empty.
  - done.
Qed.

Lemma step_sound l s : wf s → valid l s → sound (reads_of l s) s (exec (run_step l) s).
Proof. intros Hs Hv. by apply does_run_step. Qed.

Lemma reachable_typed s : reachable s → wf s.
Proof.
  induction 1 as [id capacity bound refuses|s l _ IH Hv].
  - apply (so_wf (λ _, False) (Node_init id capacity)), keeps_start, wf_init.
  - by apply (so_wf _ _ _ (step_sound l s IH Hv)).
Qed.

(** (C8) Type soundness of the heaps.  In every state that a node can reach,
    in whatever order its tasks, timers, messages, connections and calls come:
    every reference leads to an object of the kind it is used as.  A registered
    name and an actor child, also one that waits to be restarted, have a
    mailbox; a live name leads to the actor of that name; the tasks, drivers
    and nested supervisors that child records hold exist and run that child;
    the children of a supervisor are distinct and exist; what a suspended task
    waits for exists and fits its kind; bounded mailboxes are within their
    bounds; the frames that wait to be sent name their peer as the core writes
    it, hold wire values and have numbers and correlation ids of 64 bits; and no
    identity is given out twice. *)
Theorem reachable_wf s : reachable s → wf s.
Proof. apply reachable_typed. Qed.


End reachable.
