(* ===== verification/PoolLife.v ===== *)
(** * The life of a worker pool

    [_PoolSpawn] and [Supervisor._spawn_pool] of [src/lapinbeam/supervisor.py]
    and [PoolRef] of [src/lapinbeam/refs.py], on the node that hosts the pool:
    what spawning leaves behind, asking many workers at once with [map], and
    stopping. *)

From stdpp Require Import pretty.
From S2P Require Import Prelude Values NodeId Actors State PeerEvents Asyncio Node NodeProps Links.
From S2P Require Import Supervisor SupervisorProps SupervisorGroup Refs Pool.

(** ** [PoolRef] *)

Record pool_ref := PoolRef {
  pr_name : string;
  pr_dispatcher : cid;
  pr_workers : list cid;
  pr_supervisor : option sid
}.

(** [size] *)
Definition pool_size (r : pool_ref) : nat := length (pr_workers r).

(** A computation whose exception is kept, as in the task that runs it. *)
Definition attempt {A} (m : M st A) : M st (exn + A) := λ s, let '(r, s') := m s in (inr r, s').

(** [asyncio.gather]: [order] is the order in which its awaitables end. *)
Definition gather {A} (return_exceptions : bool) (order : list nat) (rs : list (exn + A)) : exn + list (exn + A) :=
  if return_exceptions then inr rs
  else
    match omap (λ i, match rs !! i with Some (inl e) => Some e | _ => None end) order with
    | e :: _ => inl e
    | [] => inr rs
    end.

Section poolref.
Context {codec : PayloadCodec}.

(** [send], [ask] and [ask_stream] address the dispatcher. *)
Definition pool_send (r : pool_ref) (msg : pyval) (rt : option string) (corr : option Z) : M st unit :=
  ref_send (ActorRef (pr_name r)) msg rt corr.

Definition pool_ask (r : pool_ref) (n : N) (msg : pyval) : M st qid :=
  ask_begin (ActorRef (pr_name r)) n 1 msg.

(** [map], up to the waiting and from there: the asks of [gather] run one after
    the other to their waits, numbered from [n] on. *)
Fixpoint map_begin (r : pool_ref) (n : N) (items : list pyval) : M st (list (exn + qid)) :=
  match items with
  | [] => ret []
  | item :: rest =>
      let! a := attempt (pool_ask r n item) in
      let! rs := map_begin r (N.succ n) rest in
      ret (a :: rs)
  end.

Fixpoint map_end (n : N) (asks : list (exn + qid)) : M st (list (exn + pyval)) :=
  match asks with
  | [] => ret []
  | a :: rest =>
      let! v := match a with
                | inl e => ret (inl e)
                | inr q => attempt (ask_end n q)
                end in
      let! vs := map_end (N.succ n) rest in
      ret (v :: vs)
  end.

(** [stop] up to its [await gather(...)], and the rest. *)
Definition stop_pool (r : pool_ref) : M st (list tid) := pool_stop_begin (pr_dispatcher r) (pr_workers r).
Definition stopped_pool (r : pool_ref) : M st unit :=
  match pr_supervisor r with
  | Some sp => pool_stop_end sp (pr_dispatcher r) (pr_workers r)
  | None => ret tt
  end.

(** ** [_PoolSpawn] *)

Record pool_spawn := PoolSpawn {
  ps_supervisor : sid;
  ps_handler : pool_handler;
  ps_n_workers : nat;
  ps_name : string;
  ps_queue_capacity : option nat;
  ps_executor : option string;
  ps_key : option (pyval → exn + Z);
  ps_pool : option (pool * pool_ref)
}.

(** [_build], which [__await__] and [__aenter__] call. *)
Definition pool_build (x : pool_spawn) : M st (pool * pool_ref * pool_spawn) :=
  match ps_pool x with
  | Some r => ret (r, x)
  | None =>
      let! pdw := _spawn_pool (ps_supervisor x) (ps_handler x) (ps_n_workers x) (ps_name x)
                    (ps_queue_capacity x) (ps_executor x) (ps_key x) in
      let '(p, d, ws) := pdw in
      let r := (p, PoolRef (ps_name x) d ws (Some (ps_supervisor x))) in
      ret (r, PoolSpawn (ps_supervisor x) (ps_handler x) (ps_n_workers x) (ps_name x)
                (ps_queue_capacity x) (ps_executor x) (ps_key x) (Some r))
  end.

(** [__aexit__] up to its [await]. *)
Definition pool_aexit (x : pool_spawn) : M st (list tid) :=
  match ps_pool x with
  | Some (_, r) => stop_pool r
  | None => ret []
  end.

(** ** Names *)

Lemma append_suffix_inj (t a : string) : ∀ b, a +:+ t = b +:+ t → a = b.
Proof.
  assert (∀ x y, String.length (x +:+ y) = String.length x + String.length y) as Hlen.
  { intros x y. induction x as [|c x IH]; simpl; [done|]. by rewrite IH. }
  induction a as [|c a IH]; intros [|c' b] H; simpl in H.
  - done.
  - apply (f_equal String.length) in H. rewrite !Hlen /= in H. lia.
  - apply (f_equal String.length) in H. rewrite !Hlen /= in H. lia.
  - injection H as -> H. f_equal. by apply IH.
Qed.

Lemma ask_name_inj n m : ask_name n = ask_name m → n = m.
Proof. unfold ask_name. intros H%String.app_inj%append_suffix_inj. by apply pretty_N_inj in H. Qed.

Lemma worker_name_inj name i j : worker_name name i = worker_name name j → i = j.
Proof.
  unfold worker_name. intros H%String.app_inj%String.app_inj%String.app_inj%append_suffix_inj. by apply pretty_nat_inj in H.
Qed.

(** ** Spawning *)

Definition start_message (me : string) : envelope :=
  (PDict [("start", PBool true)], MessageMeta (Some me) None None None).

(** The actor of record [c], spawned under [name] and not yet run: mailbox
    [N] holding [items], record [N + 1], task [N + 2]. *)
Record newborn (s : st) (sp : sid) (cls name : string) (N : nat) (items : list envelope) (cap : nat) : Prop := {
  nb_name : _mailboxes s !! name = Some N;
  nb_queue : queues s !! N = Some (Queue items cap);
  nb_child : children s !! S N = Some (Child name (ActorChild cls (plain_actor name) N) None None None (Some (S (S N))));
  nb_task : tasks s !! S (S N) = Some (Task (CodeChild sp (S N) PcStart) (WReady WkOk) false None)
}.

(** Nothing of what was there before is different, but for the supervisor's
    list. *)
Record grown (sp : sid) (ws : list cid) (names : list string) (s s' : st) : Prop := {
  gr_running : running s';
  gr_local : local_id s' = local_id s;
  gr_cap : mailbox_capacity s' = mailbox_capacity s;
  gr_next : next_id s ≤ next_id s';
  gr_sups : sups s' = alter (λ sup, sup <| s_children ::= λ l, l ++ ws |>) sp (sups s);
  gr_names : ∀ n, n ∉ names → _mailboxes s' !! n = _mailboxes s !! n;
  gr_queues : ∀ x, x < next_id s → queues s' !! x = queues s !! x;
  gr_children : ∀ x, x < next_id s → children s' !! x = children s !! x;
  gr_tasks : ∀ x, x < next_id s → tasks s' !! x = tasks s !! x
}.

Lemma grown_trans sp ws1 ws2 ns1 ns2 s1 s2 s3 :
  grown sp ws1 ns1 s1 s2 → grown sp ws2 ns2 s2 s3 → grown sp (ws1 ++ ws2) (ns1 ++ ns2) s1 s3.
Proof.
  intros [A0 A1 A2 A3 A4 A5 A6 A7 A8] [B0 B1 B2 B3 B4 B5 B6 B7 B8]. split; try congruence; [lia| | | | |].
  - rewrite B4 A4. apply map_eq. intros x. destruct (decide (sp = x)) as [->|Hne]; [|by rewrite !lookup_alter_ne].
    rewrite !lookup_alter_eq. destruct (sups s1 !! x) as [sup|]; [|done]. simpl. by rewrite app_assoc.
  - intros n [H1 H2]%not_elem_of_app. rewrite B5 //. by apply A5.
  - intros x Hx. rewrite B6; [lia|]. by apply A6.
  - intros x Hx. rewrite B7; [lia|]. by apply A7.
  - intros x Hx. rewrite B8; [lia|]. by apply A8.
Qed.

Lemma newborn_grown s s' sp cls name N items cap sp' ws names :
  newborn s sp cls name N items cap → grown sp' ws names s s' → name ∉ names → S (S N) < next_id s →
  newborn s' sp cls name N items cap.
Proof.
  intros [H1 H2 H3 H4] [_ _ _ _ _ G5 G6 G7 G8] Hn Hlt.
  split; [by rewrite G5|by rewrite G6; [lia|]|by rewrite G7; [lia|]|by rewrite G8].
Qed.

Lemma spawn_grows sp cls name s :
  running s → _mailboxes s !! name = None →
  ∃ s', spawn sp cls (plain_actor name) s = (inr (S (next_id s)), s') ∧
    grown sp [S (next_id s)] [name] s s' ∧ next_id s' = next_id s + 3 ∧
    newborn s' sp cls name (next_id s) [] (capacity_or_0 (mailbox_capacity s)).
Proof.
  intros Hrun Hm. rewrite (spawn_free sp cls (plain_actor name)) //. eexists. split; [done|]. split_and!.
  - split; simpl; try done.
    + destruct Hrun as (co & Hco & Hr). eexists. rewrite /= Hco. by split.
    + unfold local_id; simpl. by destruct (_core s).
    + lia.
    + intros n Hn. rewrite lookup_insert_ne //. set_solver.
    + intros x Hx. rewrite lookup_insert_ne //. lia.
    + intros x Hx. rewrite lookup_insert_ne //. lia.
    + intros x Hx. rewrite lookup_insert_ne //. lia.
  - simpl. lia.
  - split; simpl; by rewrite lookup_insert_eq.
Qed.

Lemma q_empty_room (cap : nat) : q_full (Queue ([] : list envelope) cap) = false.
Proof. unfold q_full; simpl. by destruct cap. Qed.

(** A worker and its start message. *)
Lemma spawn_worker sp name i s :
  running s → _mailboxes s !! worker_name name i = None →
  ∃ s', (let! c := spawn sp "_Worker" (plain_actor (worker_name name i)) in
         _send_local (worker_name name i) (PDict [("start", PBool true)]) None None ;; ret c) s =
          (inr (S (next_id s)), s') ∧
    grown sp [S (next_id s)] [worker_name name i] s s' ∧ next_id s' = next_id s + 3 ∧
    newborn s' sp "_Worker" (worker_name name i) (next_id s) [start_message (local_id s)]
      (capacity_or_0 (mailbox_capacity s)).
Proof.
  intros Hrun Hm. destruct (spawn_grows sp "_Worker" (worker_name name i) s Hrun Hm) as (s1 & H1 & Hg & Hn & [N1 N2 N3 N4]).
  cbn [bind]. rewrite H1 (send_local_room _ _ _ _ s1 _ _ N1 N2 (q_empty_room _)). eexists. split; [done|]. split_and!.
  - destruct Hg as [G0 G1 G2 G3 G4 G5 G6 G7 G8]. split; try done. intros x Hx. simpl. rewrite lookup_insert_ne; [lia|]. by apply G6.
  - done.
  - split; simpl; try done. rewrite lookup_insert_eq (gr_local _ _ _ _ _ Hg). done.
Qed.

Lemma spawn_workers_ok sp name is_ : ∀ s,
  running s → NoDup is_ → (∀ i, i ∈ is_ → _mailboxes s !! worker_name name i = None) →
  ∃ ws s', spawn_workers sp name is_ s = (inr ws, s') ∧
    grown sp ws (worker_name name <$> is_) s s' ∧ length ws = length is_ ∧ next_id s' = next_id s + 3 * length is_ ∧
    (∀ k i, is_ !! k = Some i → ws !! k = Some (S (next_id s + 3 * k)) ∧
       newborn s' sp "_Worker" (worker_name name i) (next_id s + 3 * k) [start_message (local_id s)]
         (capacity_or_0 (mailbox_capacity s))).
Proof.
  induction is_ as [|i is_ IH]; intros s Hrun Hnd Hfree.
  { exists [], s. split_and!; [done| |done|simpl; lia|by intros k i]. split; try done.
    apply map_eq. intros x. rewrite lookup_alter. case_decide; [subst|done].
    destruct (sups s !! x) as [[]|]; [|done]. simpl. by rewrite app_nil_r. }
  apply list.NoDup_cons in Hnd as [Hi Hnd].
  destruct (spawn_worker sp name i s Hrun (Hfree i ltac:(by left))) as (s1 & H1 & Hg1 & Hn1 & Hb1).
  assert (∀ j, j ∈ is_ → worker_name name j ≠ worker_name name i) as Hne.
  { intros j Hj ->%worker_name_inj. done. }
  destruct (IH s1 (gr_running _ _ _ _ _ Hg1) Hnd) as (ws & s2 & H2 & Hg2 & Hl2 & Hx2 & Hb2).
  { intros j Hj. rewrite (gr_names _ _ _ _ _ Hg1); [intros E%list_elem_of_singleton; by apply (Hne j)|]. apply Hfree. by right. }
  exists (S (next_id s) :: ws), s2. split_and!.
  - cbn [spawn_workers bind ret] in H1 |- *. destruct (spawn _ _ _ s) as [[e|c] s0]; [done|].
    destruct (_send_local _ _ _ _ s0) as [[e|[]] s0']; [done|]. injection H1 as -> ->. by rewrite H2.
  - apply (grown_trans sp [S (next_id s)] ws [worker_name name i] _ s s1 s2); done.
  - simpl. by rewrite Hl2.
  - rewrite Hx2 Hn1. simpl. lia.
  - intros [|k] j Hk; simpl in Hk.
    + simplify_eq. rewrite Nat.add_0_r. split; [done|]. eapply newborn_grown; [exact Hb1|exact Hg2| |lia].
      intros (j' & Heq & Hj')%list_elem_of_fmap. by eapply Hne.
    + destruct (Hb2 k j Hk) as [Hw Hb]. rewrite Hn1 in Hw. rewrite (gr_local _ _ _ _ _ Hg1) (gr_cap _ _ _ _ _ Hg1) Hn1 in Hb.
      replace (next_id s + 3 * S k) with (next_id s + 3 + 3 * k) by lia. done.
Qed.

(** What spawning a pool leaves behind.  With an [executor] that is not
    one, or one that does not go with the handler or with no workers,
    [spawn_pool] raises and nothing has changed.  Otherwise, on a running node where the names are
    free, there is one new actor under the pool's name and [n_workers] workers,
    registered at once and listed by the supervisor in that order, each with a
    mailbox of its own that holds exactly the start message and a task that is
    about to run; what was there before is untouched, and building the same
    [spawn_pool(...)] again returns the same pool and changes nothing. *)
Theorem spawn_pool_ready x s :
  ps_pool x = None →
  match check_executor (ps_handler x) (ps_executor x) (ps_n_workers x) with
  | inl e => pool_build x s = (inl e, s)
  | inr _ =>
      let name := ps_name x in
      let n := ps_n_workers x in
      let N := next_id s in
      running s → _mailboxes s !! name = None →
      (∀ i, i < n → worker_name name i ≠ name ∧ _mailboxes s !! worker_name name i = None) →
      ∃ p r x' s',
        pool_build x s = (inr (p, r, x'), s') ∧ pool_build x' s' = (inr (p, r, x'), s') ∧
        r = PoolRef name (S N) ((λ k, S (N + 3 + 3 * k)) <$> seq 0 n) (Some (ps_supervisor x)) ∧
        p_states p = replicate n WUnstarted ∧ Forall (λ qu, q_items qu = []) (p_queues p) ∧ next_id s' = N + 3 * S n ∧
        grown (ps_supervisor x) (S N :: pr_workers r) (name :: (worker_name name <$> seq 0 n)) s s' ∧
        newborn s' (ps_supervisor x) "_Dispatcher" name N [] (capacity_or_0 (mailbox_capacity s)) ∧
        ∀ k, k < n → newborn s' (ps_supervisor x) "_Worker" (worker_name name k) (N + 3 + 3 * k)
                       [start_message (local_id s)] (capacity_or_0 (mailbox_capacity s))
  end.
Proof.
  intros Hx.
  assert (∀ s, pool_build x s =
    (let! pdw := _spawn_pool (ps_supervisor x) (ps_handler x) (ps_n_workers x) (ps_name x)
                   (ps_queue_capacity x) (ps_executor x) (ps_key x) in
     let r := (pdw.1.1, PoolRef (ps_name x) pdw.1.2 pdw.2 (Some (ps_supervisor x))) in
     ret (r, PoolSpawn (ps_supervisor x) (ps_handler x) (ps_n_workers x) (ps_name x)
               (ps_queue_capacity x) (ps_executor x) (ps_key x) (Some r))) s) as Hb.
  { intros s0. unfold pool_build. rewrite Hx. cbn [bind]. by destruct (_spawn_pool _ _ _ _ _ _ _ s0) as [[|[[]]]]. }
  rewrite Hb. unfold _spawn_pool.
  destruct (check_executor (ps_handler x) (ps_executor x) (ps_n_workers x)) as [e|[]]; [done|]. cbn zeta. intros Hrun Hm Hfree.
  set (sp := ps_supervisor x). set (name := ps_name x) in *. set (n := ps_n_workers x) in *. set (N := next_id s).
  destruct (spawn_grows sp "_Dispatcher" name s Hrun Hm) as (s1 & H1 & Hg1 & Hn1 & Hb1).
  destruct (spawn_workers_ok sp name (seq 0 n) s1 (gr_running _ _ _ _ _ Hg1) (NoDup_seq _ _)) as (ws & s2 & H2 & Hg2 & Hl2 & Hx2 & Hb2).
  { intros i Hi%elem_of_seq. destruct (Hfree i) as [Hne Hf]; [lia|].
    rewrite (gr_names _ _ _ _ _ Hg1); [by intros ?%list_elem_of_singleton|done]. }
  rewrite (gr_local _ _ _ _ _ Hg1) (gr_cap _ _ _ _ _ Hg1) Hn1 in Hb2.
  assert (ws = (λ k, S (N + 3 + 3 * k)) <$> seq 0 n) as Hws.
  { apply list_eq. intros k. rewrite list_lookup_fmap. destruct (seq 0 n !! k) as [i|] eqn:Hs; simpl.
    - apply lookup_seq in Hs as Hs'. destruct Hs' as [-> _]. exact (proj1 (Hb2 k k Hs)).
    - apply lookup_ge_None in Hs. apply lookup_ge_None. lia. }
  eexists _, _, _, s2. cbn [lift bind]. rewrite H1 H2. split; [done|]. split; [done|]. cbn [fst snd pr_workers].
  split; [by rewrite Hws|]. split; [done|]. split_and!.
  - unfold new_pool; simpl. destruct (ps_key x); [|by repeat constructor]. by apply Forall_replicate.
  - rewrite Hx2 Hn1 length_seq. unfold N. lia.
  - by apply (grown_trans sp [S (next_id s)] ws [name] _ s s1 s2).
  - eapply newborn_grown; [exact Hb1|exact Hg2| |lia]. intros (i & E & Hi%elem_of_seq)%list_elem_of_fmap.
    destruct (Hfree i) as [Hne _]; [lia|]. done.
  - intros k Hk. by apply (Hb2 k k), lookup_seq.
Qed.

(** Cancelling an actor before its first turn ends its task before any of its
    code has run: nothing is taken back, so the name stays registered, and its
    mailbox takes messages that nobody reads. *)
Theorem cancel_before_first_turn s sp cls name N items cap ctor now msg rt corr :
  newborn s sp cls name N items cap → q_full (Queue items cap) = false →
  let s' := exec (cancel_child (S N) ;; step_child (S (S N)) ctor now) s in
  tasks s' !! S (S N) = Some (Task (CodeChild sp (S N) PcStart) (WReady WkOk) false (Some OCancelled)) ∧
  _mailboxes s' = _mailboxes s ∧ children s' = children s ∧ sups s' = sups s ∧ jobs s' = jobs s ∧
  _send_local name msg rt corr s' =
    (inr tt, s' <| queues ::= <[N := Queue (items ++ [(msg, MessageMeta (Some (local_id s)) rt corr None)]) cap]> |>).
Proof.
  intros [N1 N2 N3 N4] Hf s'.
  set (out := λ o, Task (CodeChild sp (S N) PcStart) (WReady WkOk) false o).
  assert (s' = s <| tasks ::= <[S (S N) := out (Some OCancelled)]> |> <| _actor_tasks ::= λ l, l ∖ {[S (S N)]} |>) as Hs.
  { assert (cancel_child (S N) s = (inr tt, s <| tasks ::= <[S (S N) := (out None) <| t_must_cancel := true |>]> |>)) as Hc.
    { unfold cancel_child. cbn [bind get]. rewrite N3. by apply (cancel_scheduled _ _ _ WkOk N4). }
    unfold s', exec. cbn [bind]. rewrite Hc. unfold step_child; simpl. rewrite lookup_insert_eq /= /upd_task /=.
    rewrite (alter_present _ _ _ _ (lookup_insert_eq _ _ _)) insert_insert_eq.
    unfold guard_task, run_child; simpl. rewrite N3 (finish_spec _ _ _ (out None)) /= ?lookup_insert_eq // insert_insert_eq //. }
  rewrite Hs. cbn [_mailboxes children sups jobs tasks]. split_and!; try done; [by rewrite lookup_insert_eq|].
  by rewrite (send_local_room _ _ _ _ _ N (Queue items cap)).
Qed.

(** ** Stopping *)

Lemma remove_first_filter c l : NoDup l → remove_first c l = filter (λ x, x ≠ c) l.
Proof.
  induction l as [|x l IH]; intros Hnd; [done|]. apply list.NoDup_cons in Hnd as [Hx Hnd]. simpl.
  case_bool_decide as Hc; subst.
  - rewrite filter_cons_False; [by intros []|]. clear IH Hnd. induction l as [|y l IHl]; [done|]. apply not_elem_of_cons in Hx as [Hy Hx].
    rewrite filter_cons_True; [congruence|]. by rewrite -IHl.
  - rewrite filter_cons_True //. by rewrite IH.
Qed.

Lemma discard_all sp cs : ∀ s sup,
  sups s !! sp = Some sup → NoDup (s_children sup) →
  for_each cs (_discard_child sp) s =
  (inr tt, s <| sups ::= <[sp := sup <| s_children := filter (λ c, c ∉ cs) (s_children sup) |>]> |>).
Proof.
  induction cs as [|c cs IH]; intros s sup Hs Hnd.
  { simpl. rewrite (filter_every (λ c, c ∉ [])); [by intros x ?%elem_of_nil|].
    rewrite (insert_id (sups s)); [by destruct sup|]. by destruct s. }
  assert (_discard_child sp c s = (inr tt, s <| sups ::= <[sp := sup <| s_children ::= remove_first c |>]> |>)) as Hd.
  { unfold _discard_child, upd_sup; simpl. by rewrite (alter_present _ _ _ _ Hs). }
  cbn [for_each bind]. rewrite Hd (IH _ (sup <| s_children ::= remove_first c |>)).
  - simpl. by rewrite lookup_insert_eq.
  - simpl. rewrite remove_first_filter //. by apply list.NoDup_filter.
  - simpl. rewrite insert_insert_eq remove_first_filter // list_filter_filter. repeat f_equal.
    apply list_filter_iff. intros x. rewrite not_elem_of_cons. naive_solver.
Qed.

(** Stopping a pool ends.  Let the dispatcher and the workers of a pool be
    at rest, the workers inside their loops, whose [finally] lets
    [CancelledError] through.  After [stop()], in whatever order the event loop
    gives the tasks of the pool their turns, as long as every driver gets one
    and the actor's task one after it, all of them have ended by cancellation,
    their names are free again and the supervisor lists exactly its other
    children, in their order; nothing else on the node was touched, no restart
    was charged or reported, and a message for the pool now raises
    [ValueError]. *)
Theorem pool_stop_completes r sp gs sup s us :
  running s → idle_group sp gs s → m_c <$> gs = pr_dispatcher r :: pr_workers r →
  sups s !! sp = Some sup → NoDup (s_children sup) → pr_supervisor r = Some sp →
  pr_name r ∈ m_name <$> gs →
  Forall (fair_turn gs) us → (∀ a, a ∈ gs → [m_d a; m_t a] `sublist_of` (tu_task <$> us)) →
  ∃ s1 s2,
    (stop_pool r ;; for_each us run_turn) s = (inr tt, s1) ∧
    forallb (task_done s1) (tasks_of s (pr_dispatcher r :: pr_workers r)) = true ∧ stop_frame (m_tids gs) (m_name <$> gs) s s1 ∧
    stopped_pool r s1 = (inr tt, s2) ∧
    s2 = s1 <| sups ::= <[sp := sup <| s_children := filter (λ c, c ∉ pr_dispatcher r :: pr_workers r) (s_children sup) |>]> |> ∧
    (∀ a, a ∈ gs → t_out <$> tasks s2 !! m_t a = Some (Some OCancelled) ∧ _mailboxes s2 !! m_name a = None) ∧
    ∀ msg rt corr, pool_send r msg rt corr s2 =
      (inl (ValueError ("no local actor named " +:+ py_repr (pr_name r))), s2).
Proof.
  intros Hrun Hg Hcs Hsup Hnd Hprs Hname Hin Hus.
  destruct (cancel_all_asks sp gs s) as (s0 & Hc & Hsame & Hph & Hoth).
  { apply Hg. }
  { intros a Ha. split; apply (ig_idle _ _ _ Hg a Ha). }
  destruct (same_tasks_frame sp gs s s0 Hsame Hoth Hg Hrun) as [Hf1 Hs1].
  destruct (schedule_stops sp gs us s0 (λ _, Asked)) as (s1 & Hr & Hf2 & Hgone); try done.
  assert (tasks_of s (pr_dispatcher r :: pr_workers r) = m_t <$> gs) as Hts by (rewrite -Hcs; by eapply tasks_of_group).
  assert (stop_frame (m_tids gs) (m_name <$> gs) s s1) as Hf by (by etrans).
  set (s2 := s1 <| sups ::= <[sp := sup <| s_children := filter (λ c, c ∉ pr_dispatcher r :: pr_workers r) (s_children sup) |>]> |>).
  exists s1, s2. split_and!.
  - unfold stop_pool, pool_stop_begin. cbn [bind get]. by rewrite Hts Hc.
  - rewrite Hts. apply Is_true_eq_true, forallb_True, list.Forall_forall. intros t (a & -> & Ha)%list_elem_of_fmap.
    destruct (Hgone a Ha) as [Ht _]. by rewrite /task_done Ht.
  - done.
  - unfold stopped_pool. rewrite Hprs. unfold pool_stop_end. apply discard_all; [|done]. by rewrite (sf_sups _ _ _ _ Hf).
  - done.
  - intros a Ha. destruct (Hgone a Ha) as (Ht & _ & Hm & _). simpl. by rewrite Ht.
  - intros msg rt corr. apply list_elem_of_fmap in Hname as (a & Hn & Ha). destruct (Hgone a Ha) as (_ & _ & Hm & _).
    unfold pool_send, ref_send, _send_local. cbn [bind get]. change (_mailboxes s2) with (_mailboxes s1). by rewrite Hn Hm.
Qed.

(** ** A restart loses the workers *)

(** A worker that is swept into a group restart is lost to its pool.  Its
    [receive] runs because of the start message that [spawn_pool] sent, which
    it has taken from its mailbox.  When a sibling crashes under [one_for_all]
    or [rest_for_one] and the strategy sweeps the worker in, it is up again
    under its name, but in its next turn, and whenever nothing else is sent to
    that name, its driver waits for a message: it is not in its loop, so it
    takes nothing from the pool's queue. *)
Theorem swept_worker_starves t sp c k ch q gs h ctor now s a qa i m :
  crashed_group t sp c k ch q gs s → (∀ a, a ∈ gs → lets_through (m_cur a) h) →
  gs !! i = Some a → mailbox_of a qa → queues s !! qa = Some (Queue [] m) →
  let N := next_id s in
  let n := length gs in
  let d := S (N + n) + i in
  ∃ s', (restart_turns t h ctor now gs ;; for_each (seq N n) (λ t', step_child t' None now)) s = (inr tt, s') ∧
    _mailboxes s' !! m_name a = Some qa ∧
    ∀ h', let s'' := exec (step_driver d h') s' in
      tasks s'' !! d = Some (Task (CodeDrive (m_c a) None) WGet false None) ∧ queues s'' !! qa = Some (Queue [] m).
Proof.
  intros Hcg Hh Hi (cls & meta & Hk) Hq N n d.
  destruct (group_restarted t sp c k ch q gs h ctor now s Hcg Hh) as (s' & Hr & _ & Hg & Heq & _).
  destruct (Hg i a Hi) as [(qa' & (cls' & meta' & Hk') & [U1 U2 U3 U4 U5]) _].
  assert (qa' = qa) as -> by congruence.
  exists s'. split_and!; [exact Hr|exact U4|]. intros h' s''.
  assert (queues s' !! qa = Some (Queue [] m)) as Hq'.
  { apply pair_equal_spec in Heq as [[Heq _]%pair_equal_spec _]. by rewrite Heq. }
  fold N n d in U1, U2, U3. set (tk := Task (CodeDrive (m_c a) None) (WReady WkOk) false None) in *.
  assert (step_driver d h' s' = (inr tt, s' <| tasks ::= <[d := Task (CodeDrive (m_c a) None) WGet false None]> |>)) as Hd.
  { unfold step_driver, upd_task; simpl. rewrite U3 /= (alter_present _ _ _ _ U3) /drive_get /= U1 /= Hk Hq' /=.
    rewrite (suspend_spec _ _ _ _ tk) //=; [by rewrite lookup_insert_eq|]. by rewrite insert_insert_eq. }
  unfold s'', exec. rewrite Hd /=. by rewrite lookup_insert_eq.
Qed.

(** ** [map] *)

(** The asks numbered from [n] on wait for their replies on the mailboxes [qs],
    which are all different. *)
Record all_waiting (s : st) (me : string) (n : N) (qs : list qid) : Prop := {
  aw_running : running s;
  aw_local : local_id s = me;
  aw_distinct : NoDup qs;
  aw_each : ∀ i q, qs !! i = Some q →
    _mailboxes s !! ask_name (n + N.of_nat i) = Some q ∧ queues s !! q = Some (Queue [] 1)
}.

Definition map_messages (me : string) (n : N) (items : list pyval) : list envelope :=
  imap (λ i item, (item, asked_by me (n + N.of_nat i))) items.

Lemma map_messages_cons me n item items :
  map_messages me n (item :: items) = (item, asked_by me n) :: map_messages me (N.succ n) items.
Proof.
  unfold map_messages. cbn [imap]. rewrite N.add_0_r. f_equal. apply imap_ext. intros i x _. cbn beta.
  unfold compose. do 2 f_equal. lia.
Qed.

(** One ask of an actor with an unbounded mailbox, as a whole. *)
Lemma ask_begin_eq target n msg s (qt : qid) items :
  running s → _mailboxes s !! ask_name n = None → _mailboxes s !! target = Some qt →
  queues s !! qt = Some (Queue items 0) → qt ≠ next_id s →
  ∃ s', ask_begin (ActorRef target) n 1 msg s = (inr (next_id s), s') ∧ running s' ∧ local_id s' = local_id s ∧
    next_id s' = S (next_id s) ∧ _mailboxes s' = <[ask_name n := next_id s]> (_mailboxes s) ∧
    queues s' = <[qt := Queue (items ++ [(msg, asked_by (local_id s) n)]) 0]> (<[next_id s := Queue [] 1]> (queues s)).
Proof.
  intros Hrun Hfree Hm Hq Hne. assert (target ≠ ask_name n) as Hne' by (intros ->; congruence).
  unfold ask_begin; simpl. rewrite register_actor_ok //=; [by left|].
  set (s1 := s <| next_id ::= S |> <| queues ::= <[next_id s := Queue [] 1]> |> <| _mailboxes ::= <[ask_name n := next_id s]> |>
               <| _core ::= fmap (λ co, co <| co_routing ::= union {[ask_name n]} |>) |>).
  assert (local_id s1 = local_id s) as Hl by (unfold local_id, s1; simpl; by destruct (_core s)).
  rewrite (send_local_room _ _ _ _ s1 qt (Queue items 0)) //=; [by rewrite lookup_insert_ne|by rewrite lookup_insert_ne|].
  fold s1. rewrite Hl. eexists. split; [done|]. split_and!; try done.
  destruct Hrun as (co & Hco & Hr). eexists. rewrite /= Hco. by split.
Qed.

Lemma map_begin_ok r items : ∀ n s (qt : qid) old,
  running s → _mailboxes s !! pr_name r = Some qt → queues s !! qt = Some (Queue old 0) →
  (∀ q, is_Some (queues s !! q) → q < next_id s) →
  (∀ i, i < length items → _mailboxes s !! ask_name (n + N.of_nat i) = None) →
  ∃ s', map_begin r n items s = (inr (inr <$> seq (next_id s) (length items)), s') ∧
    all_waiting s' (local_id s) n (seq (next_id s) (length items)) ∧
    queues s' !! qt = Some (Queue (old ++ map_messages (local_id s) n items) 0) ∧
    (∀ q, q < next_id s → q ≠ qt → queues s' !! q = queues s !! q) ∧
    (∀ x, (∀ i, i < length items → x ≠ ask_name (n + N.of_nat i)) → _mailboxes s' !! x = _mailboxes s !! x).
Proof.
  induction items as [|item items IH]; intros n s qt old Hrun Hm Hq Hfr Hfree.
  { exists s. simpl. rewrite app_nil_r. split_and!; try done. split; try done. apply NoDup_nil_2. }
  assert (qt < next_id s) as Hqt by (apply Hfr; by eexists).
  pose proof (Hfree 0 ltac:(simpl; lia)) as Hf0. rewrite N.add_0_r in Hf0.
  destruct (ask_begin_eq (pr_name r) n item s qt old Hrun Hf0 Hm Hq ltac:(lia)) as (s1 & H1 & Hr1 & Hl1 & Hn1 & Hm1 & Hq1).
  assert (∀ i, ask_name (N.succ n + N.of_nat i) ≠ ask_name n) as Hnn by (intros i E%ask_name_inj; lia).
  assert (∀ i, (N.succ n + N.of_nat i = n + N.of_nat (S i))%N) as Hsi by lia.
  destruct (IH (N.succ n) s1 qt (old ++ [(item, asked_by (local_id s) n)])) as (s2 & H2 & [W1 W2 W3 W4] & Hqt2 & Hqo & Hmo).
  { done. }
  { rewrite Hm1 lookup_insert_ne //. intros E. congruence. }
  { rewrite Hq1. by rewrite lookup_insert_eq. }
  { intros q. rewrite Hq1 Hn1 !lookup_insert_is_Some'. intros [<-|[<-|Hq']]; [lia..|]. specialize (Hfr q Hq'). lia. }
  { intros i Hi. rewrite Hm1 lookup_insert_ne; [by apply not_eq_sym|]. rewrite Hsi. apply Hfree. simpl. lia. }
  rewrite Hn1 in H2 W3 W4 Hqo. exists s2. split_and!.
  - cbn [map_begin bind]. unfold attempt, pool_ask. rewrite H1 H2. done.
  - split; [done|congruence| |].
    + simpl. apply list.NoDup_cons. split; [|done]. rewrite elem_of_seq. lia.
    + intros [|i] q Hi; simpl in Hi.
      * simplify_eq. rewrite N.add_0_r. split.
        { rewrite Hmo; [by intros i _; apply not_eq_sym|]. by rewrite Hm1 lookup_insert_eq. }
        rewrite Hqo; [lia|lia|]. rewrite Hq1 lookup_insert_ne; [lia|]. by rewrite lookup_insert_eq.
      * rewrite -Hsi. by apply W4.
  - rewrite Hqt2 Hl1 map_messages_cons -app_assoc. done.
  - intros q Hlt Hne. rewrite Hqo; [lia|done|]. rewrite Hq1 !lookup_insert_ne //. lia.
  - intros x Hx. rewrite Hmo; [intros i Hi; rewrite Hsi; apply Hx; simpl; lia|]. rewrite Hm1 lookup_insert_ne //.
    intros E. apply (Hx 0); [simpl; lia|]. by rewrite N.add_0_r.
Qed.

(** What the mailbox of ask [i] holds once its reply [v] is there. *)
Definition answered (me : string) (n : N) (i : nat) (v : pyval) : queue envelope :=
  Queue [(v, MessageMeta (Some me) None (Some (Z.of_N (n + N.of_nat i))) None)] 1.

Definition reply_nth (me : string) (n : N) (vs : list pyval) (i : nat) : M st unit :=
  reply (asked_by me (n + N.of_nat i)) (default PNone (vs !! i)).

(** Replies in whatever order, each once: every mailbox has its own. *)
Lemma replies_arrive me n vs qs order : ∀ s,
  running s → local_id s = me → NoDup order → NoDup qs →
  (∀ i, i ∈ order → ∃ q, qs !! i = Some q ∧ _mailboxes s !! ask_name (n + N.of_nat i) = Some q ∧
                      queues s !! q = Some (Queue [] 1)) →
  ∃ s', for_each order (reply_nth me n vs) s = (inr tt, s') ∧ running s' ∧ _mailboxes s' = _mailboxes s ∧
    ∀ i q, qs !! i = Some q →
      queues s' !! q = if bool_decide (i ∈ order) then Some (answered me n i (default PNone (vs !! i))) else queues s !! q.
Proof.
  induction order as [|i order IH]; intros s Hrun Hl Hnd Hqs Hw.
  { exists s. split_and!; try done. }
  apply list.NoDup_cons in Hnd as [Hi Hnd]. destruct (Hw i ltac:(by left)) as (q & Hq & Hm & Hqu).
  set (v := default PNone (vs !! i)). set (s1 := s <| queues ::= <[q := answered me n i v]> |>).
  assert (reply_nth me n vs i s = (inr tt, s1)) as Hr.
  { unfold reply_nth, reply; simpl. by rewrite (reply_local s me (n + N.of_nat i) q 1 _ []). }
  assert (∀ j q', qs !! j = Some q' → j ≠ i → q' ≠ q) as Hinj.
  { intros j q' Hj Hne ->. apply Hne. by eapply (list.NoDup_lookup qs). }
  destruct (IH s1) as (s2 & Hs2 & Hr2 & Hm2 & Hq2); try done.
  { intros j Hj. destruct (Hw j ltac:(by right)) as (q' & Hq' & Hm' & Hqu'). exists q'. split_and!; try done.
    unfold s1; simpl. rewrite lookup_insert_ne //. apply not_eq_sym, (Hinj j); [done|]. by intros ->. }
  exists s2. split_and!; [cbn [for_each bind]; by rewrite Hr|done|done|].
  intros j q' Hj. rewrite (Hq2 j q' Hj). destruct (decide (j = i)) as [->|Hne].
  - rewrite bool_decide_eq_false_2 // bool_decide_eq_true_2; [by left|]. simplify_eq. unfold s1; simpl. by rewrite lookup_insert_eq.
  - unfold s1; simpl. rewrite lookup_insert_ne; [by apply not_eq_sym, (Hinj j)|].
    destruct (decide (j ∈ order)) as [Hin|Hni].
    + rewrite !bool_decide_eq_true_2 //. by right.
    + rewrite !bool_decide_eq_false_2 //. by rewrite not_elem_of_cons.
Qed.

(** The asks then end one after the other, in the order of the items. *)
Lemma map_end_all me vs : ∀ n qs s,
  running s → NoDup qs → length qs = length vs →
  (∀ i q v, qs !! i = Some q → vs !! i = Some v → queues s !! q = Some (answered me n i v)) →
  ∃ s', map_end n (inr <$> qs) s = (inr (inr <$> vs), s') ∧
    (∀ i, i < length vs → _mailboxes s' !! ask_name (n + N.of_nat i) = None) ∧
    ∀ x, _mailboxes s !! x = None → _mailboxes s' !! x = None.
Proof.
  induction vs as [|v vs IH]; intros n [|q qs] s Hrun Hnd Hlen Hq; try done.
  { exists s. split_and!; try done. simpl. lia. }
  simpl in Hlen. injection Hlen as Hlen. apply list.NoDup_cons in Hnd as [Hqn Hnd].
  pose proof (Hq 0 q v eq_refl eq_refl) as Hq0. unfold answered in Hq0.
  assert (ask_end n q s = (inr v, (unregister_actor (ask_name n) (s <| queues ::= <[q := Queue [] 1]> |>)).2)) as He.
  { unfold ask_end, mailbox_get; simpl. rewrite Hq0 /=. by rewrite unregister_actor_spec. }
  rewrite unregister_actor_spec // in He. set (s1 := (_, _).2) in He.
  assert (running s1) as Hr1 by (destruct Hrun as (co & Hco & Hr); eexists; rewrite /s1 /= Hco; by split).
  destruct (IH (N.succ n) qs s1 Hr1 Hnd Hlen) as (s2 & H2 & Hm2 & Hk2).
  { intros i q' v' Hi Hv. assert (q' ≠ q) by (intros ->; apply Hqn; by eapply list_elem_of_lookup_2).
    unfold s1; simpl. rewrite lookup_insert_ne //. specialize (Hq (S i) q' v' Hi Hv). unfold answered in Hq |- *.
    by replace (N.succ n + N.of_nat i)%N with (n + N.of_nat (S i))%N by lia. }
  exists s2. split_and!.
  - rewrite fmap_cons. cbn [map_end bind]. unfold attempt. rewrite He. cbn [bind]. by rewrite H2.
  - intros [|i] Hi.
    + rewrite N.add_0_r. apply Hk2. unfold s1; simpl. by rewrite lookup_delete_eq.
    + replace (n + N.of_nat (S i))%N with (N.succ n + N.of_nat i)%N by lia. apply Hm2. simpl in Hi. lia.
  - intros x Hx. apply Hk2. unfold s1; simpl. rewrite lookup_delete. by case_decide.
Qed.

Lemma gather_values {A} b order (vs : list A) : gather b order (inr <$> vs) = inr (inr <$> vs).
Proof.
  unfold gather. destruct b; [done|].
  assert (omap (λ i, match ((inr : A → exn + A) <$> vs) !! i with Some (inl e) => Some e | _ => None end) order = []) as ->; [|done].
  induction order as [|i order IH]; [done|]. simpl. rewrite list_lookup_fmap. by destruct (vs !! i).
Qed.

(** [pool.map(items)] answers in the order of the items.  With a pool that
    is reachable under its name and takes every message, the asks put the items
    on the dispatcher's mailbox in their order, each with its own address; from
    whatever state in which they all wait, and in whatever order the workers
    reply, the result is the list of the replies in the order of the items, and
    all addresses are free again. *)
Theorem pool_map_in_order r items vs n s (qt : qid) old :
  running s → _mailboxes s !! pr_name r = Some qt → queues s !! qt = Some (Queue old 0) →
  (∀ q, is_Some (queues s !! q) → q < next_id s) → length vs = length items →
  (∀ i, i < length items → _mailboxes s !! ask_name (n + N.of_nat i) = None) →
  let me := local_id s in
  let qs := seq (next_id s) (length items) in
  ∃ s1, map_begin r n items s = (inr (inr <$> qs), s1) ∧ all_waiting s1 me n qs ∧
    queues s1 !! qt = Some (Queue (old ++ map_messages me n items) 0) ∧
    ∀ s2 order b, all_waiting s2 me n qs → order ≡ₚ seq 0 (length items) →
      ∃ s3, (for_each order (reply_nth me n vs) ;; map_end n (inr <$> qs)) s2 = (inr (inr <$> vs), s3) ∧
        gather b order ((inr : pyval → exn + pyval) <$> vs) = inr (inr <$> vs) ∧
        ∀ i, i < length items → _mailboxes s3 !! ask_name (n + N.of_nat i) = None.
Proof.
  intros Hrun Hm Hq Hfr Hlen Hfree me qs.
  destruct (map_begin_ok r items n s qt old Hrun Hm Hq Hfr Hfree) as (s1 & H1 & Hw1 & Hq1 & _ & _).
  exists s1. split_and!; [done|done|done|]. intros s2 order b [W1 W2 W3 W4] Hperm.
  assert (∀ i, i ∈ order → i < length items) as Hlt by (intros i Hi; rewrite Hperm elem_of_seq in Hi; lia).
  destruct (replies_arrive me n vs qs order s2) as (s3 & H3 & Hr3 & Hm3 & Hq3); try done.
  { rewrite Hperm. apply list.NoDup_seq. }
  { intros i Hi%Hlt. exists (next_id s + i). assert (qs !! i = Some (next_id s + i)) as Hqi by (by apply lookup_seq).
    by destruct (W4 i _ Hqi). }
  destruct (map_end_all me vs n qs s3 Hr3 W3) as (s4 & H4 & Hm4 & _).
  { unfold qs. by rewrite length_seq. }
  { intros i q v Hi Hv. rewrite (Hq3 i q Hi). assert (i ∈ order) as Hin.
    { rewrite Hperm elem_of_seq. apply lookup_lt_Some in Hv. lia. }
    by rewrite bool_decide_eq_true_2 // Hv. }
  exists s4. split_and!.
  - cbn [bind]. by rewrite H3.
  - apply gather_values.
  - intros i Hi. apply Hm4. lia.
Qed.

End poolref.
