(* ===== verification/PoolChurn.v ===== *)
(** * Pools that come and go

    [stop_repeated_create_destroy] of [src/bench/bench_pool.py]: a server that
    creates and stops pools over and over.  After any number of them, the
    supervisor's list and the node's mailboxes are what they were. *)

From S2P Require Import Prelude Values NodeId Actors State PeerEvents Asyncio Node NodeProps Links.
From S2P Require Import Supervisor SupervisorProps SupervisorGroup Refs Pool PoolLife.

Section churn.
Context {codec : PayloadCodec}.

(** ** One cycle *)

Definition drivers_of (s : st) (cs : list cid) : list tid :=
  cs ≫= λ c, match children s !! c ≫= ch_driver with Some d => [d] | None => [] end.

(** The actor of record [c], with its tasks and what its driver is at. *)
Definition member_at (s : st) (c : cid) : option member_task :=
  match children s !! c with
  | Some ch =>
      match ch_task ch, ch_driver ch with
      | Some t, Some d =>
          match tasks s !! d with
          | Some (Task (CodeDrive _ cur) _ _ _) => Some (MemberTask c t d ch cur)
          | _ => None
          end
      | _, _ => None
      end
  | None => None
  end.

(** A pool is spawned; its tasks get their first turn, then the drivers they
    made, whose workers wait for the pool's queue; then it is used
    ([pool.map(...)] in the benchmark, here [work]), and stopped, with the turns
    that [sched] gives its tasks until the [gather] of [stop()] is done. *)
Definition pool_cycle (x : pool_spawn) (work : pool_ref → M st unit) (sched : list member_task → list turn) (now : Z) : M st unit :=
  let! b := pool_build x in
  let r := b.1.2 in
  let cs := pr_dispatcher r :: pr_workers r in
  let! s := get in
  for_each (tasks_of s cs) (λ t, step_child t None now) ;;
  let! s := get in
  for_each (drivers_of s cs) (λ d, step_driver d HAwait) ;;
  work r ;;
  let! s := get in
  (stop_pool r ;; for_each (sched (omap (member_at s) cs)) run_turn) ;;
  stopped_pool r.

(** The loop of the benchmark. *)
Fixpoint stop_repeated_create_destroy (cycles : nat) (x : pool_spawn) (work : pool_ref → M st unit)
    (sched : list member_task → list turn) (now : Z) : M st unit :=
  match cycles with
  | 0 => ret tt
  | S cycles => pool_cycle x work sched now ;; stop_repeated_create_destroy cycles x work sched now
  end.

(** ** The actors of the pool *)

(** Mailbox [b_N], record [b_N + 1], task [b_N + 2]. *)
Record baby := Baby { b_cls : string; b_name : string; b_N : nat; b_items : list envelope }.

Definition b_rec (b : baby) : cid := S (b_N b).
Definition b_task (b : baby) : tid := S (S (b_N b)).
Definition b_child (b : baby) : child :=
  Child (b_name b) (ActorChild (b_cls b) (plain_actor (b_name b)) (b_N b)) None None None (Some (b_task b)).
(** What its driver is at after its first turn. *)
Definition b_cur (b : baby) : option message_meta := match b_items b with [] => None | item :: _ => Some item.2 end.
Definition b_member (b : baby) (d : tid) : member_task :=
  MemberTask (b_rec b) (b_task b) d ((b_child b) <| ch_driver := Some d |>) (b_cur b).

Definition born (sp : sid) (cap : nat) (s : st) (b : baby) : Prop :=
  newborn s sp (b_cls b) (b_name b) (b_N b) (b_items b) cap.

(** The task has had its first turn, its driver [d] is about to run. *)
Record woken (sp : sid) (cap : nat) (s : st) (b : baby) (d : tid) : Prop := {
  wk_child : children s !! b_rec b = Some ((b_child b) <| ch_driver := Some d |>);
  wk_task : tasks s !! b_task b = Some (Task (CodeChild sp (b_rec b) PcAwaitDriver) (WTask d) false None);
  wk_driver : tasks s !! d = Some (Task (CodeDrive (b_rec b) None) (WReady WkOk) false None);
  wk_queue : queues s !! b_N b = Some (Queue (b_items b) cap)
}.

(** And so has the driver. *)
Record resting (sp : sid) (s : st) (b : baby) (d : tid) : Prop := {
  rs_child : children s !! b_rec b = Some ((b_child b) <| ch_driver := Some d |>);
  rs_task : tasks s !! b_task b = Some (Task (CodeChild sp (b_rec b) PcAwaitDriver) (WTask d) false None);
  rs_driver : tasks s !! d = Some (Task (CodeDrive (b_rec b) (b_cur b)) (rest_wait (b_cur b)) false None);
  rs_queue : is_Some (queues s !! b_N b)
}.

(** Objects of their own. *)
Definition three_apart (b b' : baby) : Prop := b_N b + 3 ≤ b_N b' ∨ b_N b' + 3 ≤ b_N b.
Definition older (bs : list baby) (y : nat) : Prop := ∀ b, b ∈ bs → y < b_N b ∨ b_N b + 3 ≤ y.

(** What a step leaves alone: the table of mailboxes, the supervisors and the
    objects of [P]. *)
Record keeps_rest (P : nat → Prop) (s s' : st) : Prop := {
  kr_running : running s → running s';
  kr_sups : sups s' = sups s;
  kr_mailboxes : _mailboxes s' = _mailboxes s;
  kr_next : next_id s ≤ next_id s';
  kr_children : ∀ y, P y → children s' !! y = children s !! y;
  kr_tasks : ∀ y, P y → tasks s' !! y = tasks s !! y;
  kr_queues : ∀ y, P y → queues s' !! y = queues s !! y
}.

Lemma keeps_refl P s : keeps_rest P s s.
Proof. by split. Qed.

Lemma keeps_trans (P P1 P2 : nat → Prop) s1 s2 s3 :
  (∀ y, P y → P1 y ∧ P2 y) → keeps_rest P1 s1 s2 → keeps_rest P2 s2 s3 → keeps_rest P s1 s3.
Proof.
  intros HP [A1 A2 A3 A4 A5 A6 A7] [B1 B2 B3 B4 B5 B6 B7].
  split; [auto|congruence|congruence|lia|..]; intros y [H1 H2]%HP; [rewrite B5 // A5|rewrite B6 // A6|rewrite B7 // A7]; done.
Qed.

Lemma three_apart_sym b b' : three_apart b b' → three_apart b' b.
Proof. unfold three_apart. lia. Qed.

(** ** The first turn of a task *)

Lemma wake_one sp cap now b s :
  running s → born sp cap s b → b_task b < next_id s →
  ∃ s1, step_child (b_task b) None now s = (inr tt, s1) ∧ woken sp cap s1 b (next_id s) ∧ next_id s1 = S (next_id s) ∧
    keeps_rest (λ y, older [b] y ∧ y ≠ next_id s) s s1.
Proof.
  intros Hrun [N1 N2 N3 N4] Hlt. set (ch := b_child b).
  assert (step_child (b_task b) None now s = (inr tt, started_generation (b_task b) sp (b_rec b) ch (b_N b) (next_id s) s)) as Hst.
  { rewrite (step_child_run _ _ _ _ sp (b_rec b) PcStart (WReady WkOk) WkOk) //.
    unfold guard_task, run_child. cbn [try_except bind get]. rewrite N3.
    rewrite (actor_head_ok (b_task b) sp (b_rec b) ch (b_cls b) (plain_actor (b_name b)) (b_N b) now s (CodeChild sp (b_rec b) PcStart) (WReady WkOk)) //;
      [by right|lia]. }
  rewrite Hst. eexists. split; [done|]. unfold b_task in Hlt. split_and!; [|done|].
  - split; simpl; [by rewrite lookup_insert_eq|by rewrite lookup_insert_eq| |done].
    rewrite lookup_insert_ne; [unfold b_task; lia|]. by rewrite lookup_insert_eq.
  - split; simpl; try done.
    + intros (co & Hco & Hr). unfold running. simpl. rewrite Hco. simpl. eauto.
    + apply insert_id. exact N1.
    + lia.
    + intros y [Hy _]. specialize (Hy b ltac:(by left)). rewrite lookup_insert_ne //. unfold b_rec. lia.
    + intros y [Hy Hne]. specialize (Hy b ltac:(by left)). rewrite !lookup_insert_ne //. unfold b_task. lia.
Qed.

(** What is said of an actor is kept by steps that leave its objects alone. *)
Lemma born_keeps P sp cap s s' b :
  keeps_rest P s s' → (∀ y, b_N b ≤ y < b_N b + 3 → P y) → born sp cap s b → born sp cap s' b.
Proof.
  intros [_ _ K3 _ K5 K6 K7] HP [N1 N2 N3 N4].
  split; [by rewrite K3|rewrite K7 //; apply HP; lia|rewrite K5 //; apply HP; lia|rewrite K6 //; apply HP; lia].
Qed.

Lemma woken_keeps P sp cap s s' b d :
  keeps_rest P s s' → (∀ y, b_N b ≤ y < b_N b + 3 → P y) → P d → woken sp cap s b d → woken sp cap s' b d.
Proof.
  intros [_ _ K3 _ K5 K6 K7] HP Hd [N1 N2 N3 N4]. unfold b_rec, b_task in *.
  split; [rewrite K5 //; apply HP; unfold b_rec; lia|rewrite K6 //; apply HP; unfold b_task; lia|by rewrite K6|rewrite K7 //; apply HP; lia].
Qed.

Lemma resting_keeps P sp s s' b d :
  keeps_rest P s s' → (∀ y, b_N b ≤ y < b_N b + 3 → P y) → P d → resting sp s b d → resting sp s' b d.
Proof.
  intros [_ _ K3 _ K5 K6 K7] HP Hd [N1 N2 N3 N4]. unfold b_rec, b_task in *.
  split; [rewrite K5 //; apply HP; unfold b_rec; lia|rewrite K6 //; apply HP; unfold b_task; lia|by rewrite K6|rewrite K7 //; apply HP; lia].
Qed.

Lemma wake_all sp cap now bs : ∀ s,
  running s → ForallOrdPairs three_apart bs → Forall (born sp cap s) bs → Forall (λ b, b_task b < next_id s) bs →
  ∃ s1, for_each (b_task <$> bs) (λ t, step_child t None now) s = (inr tt, s1) ∧
    (∀ i b, bs !! i = Some b → woken sp cap s1 b (next_id s + i)) ∧ next_id s1 = next_id s + length bs ∧
    keeps_rest (λ y, older bs y ∧ y < next_id s) s s1.
Proof.
  induction bs as [|b bs IH]; intros s Hrun Hap Hborn Hlt.
  { exists s. split_and!; [done|done|simpl; lia|apply keeps_refl]. }
  inversion_clear Hap as [|? ? Hb Hap']. apply list.Forall_cons in Hborn as [Hb0 Hborn]. apply list.Forall_cons in Hlt as [Hlt0 Hlt].
  destruct (wake_one sp cap now b s Hrun Hb0 Hlt0) as (s1 & H1 & W1 & X1 & K1). rewrite list.Forall_forall in Hb.
  destruct (IH s1) as (s2 & H2 & W2 & X2 & K2); [by apply K1|done| |eapply list.Forall_impl; [exact Hlt|]; intros ? H; cbn beta in H |- *; lia|].
  { rewrite !list.Forall_forall in Hborn Hlt |- *. intros b' Hb'. eapply born_keeps; [exact K1| |by apply Hborn].
    intros y Hy. specialize (Hb b' Hb'). specialize (Hlt b' Hb'). unfold b_task in Hlt. split; [|lia].
    intros b0 ->%list_elem_of_singleton. unfold three_apart in Hb. lia. }
  unfold b_task in Hlt0. exists s2. split_and!.
  - cbn [fmap list_fmap for_each bind]. by rewrite H1.
  - intros [|i] b' Hi; simpl in Hi.
    + injection Hi as <-. rewrite Nat.add_0_r. eapply woken_keeps; [exact K2| | |exact W1].
      * intros y Hy. split; [|lia]. intros b' Hb'. specialize (Hb b' Hb'). unfold three_apart in Hb. lia.
      * split; [|lia]. intros b' Hb'. rewrite list.Forall_forall in Hlt. specialize (Hlt b' Hb'). unfold b_task in Hlt. lia.
    + rewrite Nat.add_succ_r -Nat.add_succ_l -X1. by apply W2.
  - rewrite X2 X1. simpl. lia.
  - eapply keeps_trans; [|exact K1|exact K2]. intros y [Hy Hyn]. split; split; [|lia| |lia].
    + intros b' ->%list_elem_of_singleton. apply Hy. by left.
    + intros b' Hb'. apply Hy. by right.
Qed.

(** ** The first turn of a driver *)

Lemma drive_one sp cap b d s :
  woken sp cap s b d → d ≠ b_task b →
  ∃ s1, step_driver d HAwait s = (inr tt, s1) ∧ resting sp s1 b d ∧ next_id s1 = next_id s ∧
    keeps_rest (λ y, y ≠ d ∧ y ≠ b_N b) s s1.
Proof.
  intros [W1 W2 W3 W4] Hne. set (tk := Task (CodeDrive (b_rec b) None) (WReady WkOk) false None) in *.
  set (q' := match b_items b with [] => Queue [] cap | _ :: items => Queue items cap end).
  set (s1 := s <| queues ::= <[b_N b := q']> |> <| tasks ::= <[d := Task (CodeDrive (b_rec b) (b_cur b)) (rest_wait (b_cur b)) false None]> |>).
  assert (step_driver d HAwait s = (inr tt, s1)) as Hst.
  { unfold step_driver. cbn [bind get]. rewrite W3. cbn [t_out t_code tk t_must_cancel t_wait orb modify bind].
    rewrite (upd_task_id _ _ _ _ W3) // /drive_get. cbn [bind get]. rewrite W1.
    change (ch_kind ((b_child b) <| ch_driver := Some d |>)) with (ActorChild (b_cls b) (plain_actor (b_name b)) (b_N b)).
    cbv beta iota. rewrite W4. unfold get_nowait, s1, q', b_cur.
    destruct (b_items b) as [|[msg meta] items]; cbn -[insert].
    - rewrite (suspend_spec _ _ _ _ tk) //. cbn. by rewrite (insert_id (queues s) _ _ W4).
    - rewrite /dispatch bool_decide_eq_true_2 // (suspend_spec _ _ _ _ tk) //. }
  rewrite Hst. exists s1. split; [done|]. split_and!; [|done|].
  - split; simpl; [done| |by rewrite lookup_insert_eq|rewrite lookup_insert_eq; by eexists]. by rewrite lookup_insert_ne.
  - split; simpl; try done; [by intros y [? _]; rewrite lookup_insert_ne|by intros y [_ ?]; rewrite lookup_insert_ne].
Qed.

Lemma drive_all sp cap (l : list (baby * tid)) : ∀ s,
  ForallOrdPairs (λ p p', three_apart p.1 p'.1 ∧ p.2 ≠ p'.2) l → Forall (λ p, woken sp cap s p.1 p.2) l →
  (∀ p p', p ∈ l → p' ∈ l → b_N p'.1 + 3 ≤ p.2) →
  ∃ s1, for_each l.*2 (λ d, step_driver d HAwait) s = (inr tt, s1) ∧
    Forall (λ p, resting sp s1 p.1 p.2) l ∧ next_id s1 = next_id s ∧
    keeps_rest (λ y, older l.*1 y ∧ y ∉ l.*2) s s1.
Proof.
  induction l as [|[b d] l IH]; intros s Hap Hw Hd.
  { exists s. split_and!; [done..|apply keeps_refl]. }
  inversion_clear Hap as [|? ? Hb Hap']. apply list.Forall_cons in Hw as [Hw0 Hw]. rewrite list.Forall_forall in Hb. cbn [fst snd] in *.
  pose proof (Hd (b, d) (b, d) ltac:(by left) ltac:(by left)) as Hdd. cbn in Hdd.
  destruct (drive_one sp cap b d s Hw0) as (s1 & H1 & R1 & X1 & K1); [unfold b_task; lia|].
  destruct (IH s1) as (s2 & H2 & R2 & X2 & K2); [done| |by intros p p' Hp Hp'; apply Hd; right|].
  { rewrite !list.Forall_forall in Hw |- *. intros [b' d'] Hp. destruct (Hb _ Hp) as [Hap Hne]. cbn in Hap, Hne.
    pose proof (Hd (b, d) (b', d') ltac:(by left) ltac:(by right)) as Hd1. pose proof (Hd (b', d') (b, d) ltac:(by right) ltac:(by left)) as Hd2.
    cbn in Hd1, Hd2. unfold three_apart in Hap.
    cbn [fst snd]. eapply woken_keeps; [exact K1|intros y Hy; split; lia|split; [congruence|lia]|by apply (Hw (b', d'))]. }
  exists s2. split_and!.
  - cbn [fmap list_fmap for_each bind snd]. by rewrite H1.
  - constructor; [|done]. cbn [fst snd]. eapply resting_keeps; [exact K2| | |exact R1].
    + intros y Hy. split.
      * intros b' ([b0 d'] & -> & Hp)%list_elem_of_fmap. destruct (Hb _ Hp) as [Hap _]. cbn in *. unfold three_apart in Hap. lia.
      * intros ([b' d'] & -> & Hp)%list_elem_of_fmap. pose proof (Hd (b', d') (b, d) ltac:(by right) ltac:(by left)). cbn in *. lia.
    + split.
      * intros b' ([b0 d'] & -> & Hp)%list_elem_of_fmap. pose proof (Hd (b, d) (b0, d') ltac:(by left) ltac:(by right)). cbn in *. lia.
      * intros ([b' d'] & -> & Hp)%list_elem_of_fmap. by destruct (Hb _ Hp).
  - congruence.
  - eapply keeps_trans; [|exact K1|exact K2]. cbn [fmap list_fmap fst snd]. intros y [Hy Hyn]. apply not_elem_of_cons in Hyn as [Hyd Hyn].
    split; split; [done| |intros b' Hb'; apply Hy; by right|done]. specialize (Hy b ltac:(by left)). lia.
Qed.

(** ** The whole pool *)

Lemma ordered_pairs {A} (P : A → A → Prop) (l : list A) :
  (∀ i j a b, i < j → l !! i = Some a → l !! j = Some b → P a b) → ForallOrdPairs P l.
Proof.
  induction l as [|a l IH]; intros Hp; constructor.
  - apply list.Forall_forall. intros b [j Hj]%list_elem_of_lookup. by apply (Hp 0 (S j)); [lia| |].
  - apply IH. intros i j b c Hij Hi Hj. by apply (Hp (S i) (S j)); [lia| |].
Qed.

(** The dispatcher and the workers of a pool spawned when [N] was the next
    identity. *)
Definition pool_babies (x : pool_spawn) (me : string) (N : nat) : list baby :=
  Baby "_Dispatcher" (ps_name x) N [] ::
  ((λ k, Baby "_Worker" (worker_name (ps_name x) k) (N + 3 + 3 * k) [start_message me]) <$> seq 0 (ps_n_workers x)).

Lemma pool_babies_N x me N i b : pool_babies x me N !! i = Some b → b_N b = N + 3 * i ∧ i ≤ ps_n_workers x.
Proof.
  destruct i as [|i]; cbn [pool_babies lookup list_lookup]; [intros [= <-]; cbn; lia|].
  intros (k & Hb & [-> Hk]%lookup_seq)%list_lookup_fmap_Some. subst b. cbn. lia.
Qed.

Lemma pool_babies_length x me N : length (pool_babies x me N) = S (ps_n_workers x).
Proof. cbn. by rewrite length_fmap length_seq. Qed.

Lemma pool_babies_apart x me N : ForallOrdPairs three_apart (pool_babies x me N).
Proof.
  apply ordered_pairs. intros i j a b Hij Ha Hb. apply pool_babies_N in Ha as [Ha _], Hb as [Hb _]. left. lia.
Qed.

Lemma pool_babies_recs x me N : b_rec <$> pool_babies x me N = S N :: ((λ k, S (N + 3 + 3 * k)) <$> seq 0 (ps_n_workers x)).
Proof. cbn. f_equal. by rewrite -list_fmap_compose. Qed.

Lemma pool_babies_names x me N : b_name <$> pool_babies x me N = ps_name x :: (worker_name (ps_name x) <$> seq 0 (ps_n_workers x)).
Proof. cbn. f_equal. by rewrite -list_fmap_compose. Qed.

(** Each with its driver. *)
Definition with_drivers (bs : list baby) (M : nat) : list (baby * tid) := zip bs (seq M (length bs)).

Lemma with_drivers_lookup bs M i p : with_drivers bs M !! i = Some p → bs !! i = Some p.1 ∧ p.2 = M + i.
Proof.
  unfold with_drivers. destruct p as [b d]. intros [Hb Hd]%lookup_zip_Some. apply lookup_seq in Hd as [-> _]. done.
Qed.

Lemma with_drivers_fst bs M : (with_drivers bs M).*1 = bs.
Proof. apply fst_zip. by rewrite length_seq. Qed.

Lemma with_drivers_snd bs M : (with_drivers bs M).*2 = seq M (length bs).
Proof. apply snd_zip. by rewrite length_seq. Qed.

Lemma born_tasks sp cap s bs : Forall (born sp cap s) bs → tasks_of s (b_rec <$> bs) = b_task <$> bs.
Proof.
  unfold tasks_of. induction 1 as [|b bs [_ _ N3 _] _ IH]; [done|]. rewrite fmap_cons bind_cons IH.
  change (children s !! b_rec b) with (children s !! S (b_N b)). by rewrite N3.
Qed.

Lemma woken_drivers sp cap s l : Forall (λ p : baby * tid, woken sp cap s p.1 p.2) l → drivers_of s (b_rec <$> l.*1) = l.*2.
Proof. unfold drivers_of. induction 1 as [|p l [W1 _ _ _] _ IH]; [done|]. rewrite !fmap_cons bind_cons IH. by rewrite W1. Qed.

Definition pool_members (l : list (baby * tid)) : list member_task := (λ p, b_member p.1 p.2) <$> l.

(** The members of an idle group, found from their records. *)
Lemma idle_members sp gs s :
  idle_group sp gs s → (∀ a, a ∈ gs → ch_driver (m_ch a) = Some (m_d a)) → omap (member_at s) (m_c <$> gs) = gs.
Proof.
  intros [Hi _ _]. induction gs as [|a gs IH]; intros Hd; [done|]. rewrite fmap_cons. cbn [omap list_omap].
  destruct (Hi a ltac:(by left)) as [_ I2 I3 _ I5]. unfold member_at at 1. rewrite I2 I3 (Hd a ltac:(by left)) I5.
  rewrite IH; [by intros b Hb; apply Hi; right|by intros b Hb; apply Hd; right|by destruct a].
Qed.

Lemma members_group sp s l :
  running s → ForallOrdPairs (λ p p' : baby * tid, three_apart p.1 p'.1 ∧ p.2 ≠ p'.2) l →
  (∀ p p' : baby * tid, p ∈ l → p' ∈ l → b_N p'.1 + 3 ≤ p.2) → Forall (λ p : baby * tid, resting sp s p.1 p.2) l →
  idle_group sp (pool_members l) s.
Proof.
  intros Hrun Hap Hd Hr. split.
  - intros a ([b d] & -> & Hp)%list_elem_of_fmap. rewrite list.Forall_forall in Hr. destruct (Hr _ Hp) as [R1 R2 R3 _]. by split.
  - intros a ([b d] & -> & Hp)%list_elem_of_fmap. done.
  - clear Hr Hrun. induction Hap as [|[b d] l Hb Hap IH]; [constructor|].
    change (NoDup ([b_task b; d] ++ m_tids (pool_members l))). rewrite list.Forall_forall in Hb.
    assert (∀ t, t ∈ m_tids (pool_members l) → ∃ b' d', (b', d') ∈ l ∧ (t = b_task b' ∨ t = d')) as Hin.
    { intros t (a & ([b' d'] & -> & Hp)%list_elem_of_fmap & Ht)%elem_of_m_tids. eauto. }
    pose proof (Hd (b, d) (b, d) ltac:(by left) ltac:(by left)) as Hdd. cbn in Hdd.
    apply list.NoDup_app. split_and!; [|intros t Ht (b' & d' & Hp & Ht')%Hin|].
    + apply list.NoDup_cons. split; [|apply list.NoDup_singleton]. intros E%list_elem_of_singleton. unfold b_task in E. lia.
    + destruct (Hb _ Hp) as [Ha Hne]. cbn in Ha, Hne. unfold three_apart in Ha.
      pose proof (Hd (b, d) (b', d') ltac:(by left) ltac:(by right)) as H1. pose proof (Hd (b', d') (b, d) ltac:(by right) ltac:(by left)) as H2.
      cbn in H1, H2. unfold b_task in *. apply elem_of_cons in Ht as [E|E%list_elem_of_singleton]; subst t; destruct Ht'; lia.
    + apply IH. intros p p' Hp Hp'. apply Hd; by right.
Qed.

(** ** Cycles *)

(** A running node whose supervisor [sup] lists objects that exist, with the
    pool's names free. *)
Record pool_free (x : pool_spawn) (sup : supervisor) (s : st) : Prop := {
  pf_running : running s;
  pf_sup : sups s !! ps_supervisor x = Some sup;
  pf_children : NoDup (s_children sup) ∧ Forall (λ c, c < next_id s) (s_children sup);
  pf_name : _mailboxes s !! ps_name x = None;
  pf_workers : ∀ i, i < ps_n_workers x → worker_name (ps_name x) i ≠ ps_name x ∧ _mailboxes s !! worker_name (ps_name x) i = None
}.

(** Every driver gets a turn and its task one after it; no handler swallows the
    cancellation. *)
Definition fair_sched (sched : list member_task → list turn) : Prop :=
  ∀ gs, Forall (fair_turn gs) (sched gs) ∧ ∀ a, a ∈ gs → [m_d a; m_t a] `sublist_of` (tu_task <$> sched gs).

(** Using a pool that is at rest, all of whose objects have identities from [N]
    on, ends with it at rest again, and touches nothing that is older. *)
Definition leaves_pool (work : pool_ref → M st unit) : Prop :=
  ∀ r sp gs N s, running s → idle_group sp gs s → m_c <$> gs = pr_dispatcher r :: pr_workers r →
    pr_name r ∈ m_name <$> gs → (∀ a, a ∈ gs → N ≤ m_c a ∧ N ≤ m_t a ∧ N ≤ m_d a ∧ ∃ q, _mailboxes s !! m_name a = Some q ∧ is_Some (queues s !! q) ∧ N ≤ q) →
    ∃ s', work r s = (inr tt, s') ∧ idle_group sp gs s' ∧ keeps_rest (λ y, y < N) s s'.

(** What was there before a pool is what is there after it. *)
Record as_before (s s' : st) : Prop := {
  ab_running : running s';
  ab_sups : sups s' = sups s;
  ab_mailboxes : _mailboxes s' = _mailboxes s;
  ab_next : next_id s ≤ next_id s';
  ab_objects : ∀ y, y < next_id s → children s' !! y = children s !! y ∧ tasks s' !! y = tasks s !! y ∧ queues s' !! y = queues s !! y
}.

Lemma as_before_trans s1 s2 s3 : as_before s1 s2 → as_before s2 s3 → as_before s1 s3.
Proof.
  intros [A1 A2 A3 A4 A5] [B1 B2 B3 B4 B5]. split; [done|congruence|congruence|lia|]. intros y Hy.
  destruct (A5 y Hy) as (<- & <- & <-). apply B5. lia.
Qed.

Lemma pool_free_again x sup s s' : pool_free x sup s → as_before s s' → pool_free x sup s'.
Proof.
  intros [P1 P2 [P3 P4] P5 P6] [A1 A2 A3 A4 A5]. split; rewrite ?A2 ?A3 //. split; [done|].
  eapply list.Forall_impl; [exact P4|]. intros c Hc. cbn beta in Hc |- *. lia.
Qed.

(** The pool is spawned and up. *)
Lemma pool_comes_up x now sup s :
  ps_pool x = None → check_executor (ps_handler x) (ps_executor x) (ps_n_workers x) = inr tt → pool_free x sup s →
  let bs := pool_babies x (local_id s) (next_id s) in
  ∃ p r x' s1 s2 s3 l, pool_build x s = (inr (p, r, x'), s1) ∧
    pr_dispatcher r :: pr_workers r = b_rec <$> bs ∧ pr_name r = ps_name x ∧ pr_supervisor r = Some (ps_supervisor x) ∧
    for_each (tasks_of s1 (b_rec <$> bs)) (λ t, step_child t None now) s1 = (inr tt, s2) ∧
    for_each (drivers_of s2 (b_rec <$> bs)) (λ d, step_driver d HAwait) s2 = (inr tt, s3) ∧
    l.*1 = bs ∧ (∀ d, d ∈ l.*2 → next_id s ≤ d) ∧ (∀ b, b ∈ bs → _mailboxes s3 !! b_name b = Some (b_N b) ∧ is_Some (queues s3 !! b_N b)) ∧
    idle_group (ps_supervisor x) (pool_members l) s3 ∧ running s3 ∧
    grown (ps_supervisor x) (b_rec <$> bs) (b_name <$> bs) s s1 ∧ keeps_rest (λ y, y < next_id s) s1 s3.
Proof.
  intros Hx Hck [P1 P2 P3 P4 P5] bs. pose proof (spawn_pool_ready x s Hx) as Hsp. rewrite Hck in Hsp. cbv zeta in Hsp.
  destruct (Hsp P1 P4 P5) as (p & r & x' & s1 & Hb & _ & Hr & _ & _ & Hn & Hg & Hd & Hw). clear Hsp.
  assert (pr_dispatcher r :: pr_workers r = b_rec <$> bs) as Hrec by (unfold bs; rewrite pool_babies_recs Hr; done).
  set (cap := capacity_or_0 (mailbox_capacity s)) in *. set (sp := ps_supervisor x) in *.
  assert (Forall (born sp cap s1) bs) as Hborn.
  { constructor; [exact Hd|]. apply Forall_fmap, list.Forall_forall. intros k [_ Hk]%elem_of_seq. by apply Hw. }
  assert (∀ i b, bs !! i = Some b → b_N b = next_id s + 3 * i ∧ i ≤ ps_n_workers x) as HN by (intros i b; apply pool_babies_N).
  destruct (wake_all sp cap now bs s1) as (s2 & H2 & W2 & X2 & K2); [by apply Hg|apply pool_babies_apart|done| |].
  { apply list.Forall_forall. intros b [i Hi]%list_elem_of_lookup. destruct (HN i b Hi). unfold b_task. lia. }
  set (l := with_drivers bs (next_id s1)).
  assert (ForallOrdPairs (λ p p', three_apart p.1 p'.1 ∧ p.2 ≠ p'.2) l) as Hap.
  { apply ordered_pairs. intros i j a b Hij [Ha Ea]%with_drivers_lookup [Hb' Eb]%with_drivers_lookup.
    destruct (HN _ _ Ha), (HN _ _ Hb'). destruct a, b. cbn in *. split; [left|]; lia. }
  assert (Forall (λ p, woken sp cap s2 p.1 p.2) l) as Hwk.
  { apply list.Forall_forall. intros q [i [Hi Eq]%with_drivers_lookup]%list_elem_of_lookup. rewrite Eq. by apply W2. }
  assert (∀ q q', q ∈ l → q' ∈ l → b_N q'.1 + 3 ≤ q.2) as Hdr.
  { intros q q' [i [_ Eq]%with_drivers_lookup]%list_elem_of_lookup [j [Hj _]%with_drivers_lookup]%list_elem_of_lookup.
    destruct (HN _ _ Hj), q, q'. cbn in *. lia. }
  destruct (drive_all sp cap l s2 Hap Hwk Hdr) as (s3 & H3 & R3 & X3 & K3).
  assert (l.*1 = bs) as Hl1 by apply with_drivers_fst.
  assert (running s3) as Hrun3 by (apply K3, K2, Hg).
  exists p, r, x', s1, s2, s3, l. rewrite (born_tasks sp cap) // -{3}Hl1 (woken_drivers sp cap) //.
  split_and!; [done|done|by rewrite Hr|by rewrite Hr|done|done|done| | |by apply members_group|done| |].
  - intros d. unfold l. rewrite with_drivers_snd. intros [Hd' _]%elem_of_seq. lia.
  - intros b Hb'. rewrite (kr_mailboxes _ _ _ K3) (kr_mailboxes _ _ _ K2). rewrite list.Forall_forall in Hborn.
    destruct (Hborn b Hb') as [N1 _ _ _]. split; [done|]. rewrite -Hl1 in Hb'. apply list_elem_of_fmap in Hb' as (q & -> & Hq).
    rewrite list.Forall_forall in R3. apply (R3 _ Hq).
  - unfold bs. rewrite pool_babies_names -/bs -Hrec. rewrite Hr in Hg |- *. exact Hg.
  - eapply keeps_trans; [|exact K2|exact K3]. intros y Hy.
    assert (older bs y) as Hold by (intros b [i Hi]%list_elem_of_lookup; destruct (HN _ _ Hi); lia).
    split; [split; [done|lia]|]. rewrite Hl1. split; [done|]. unfold l. rewrite with_drivers_snd. intros [Hy' _]%elem_of_seq. lia.
Qed.

Lemma pool_members_recs l : m_c <$> pool_members l = b_rec <$> l.*1.
Proof. unfold pool_members. by rewrite -!list_fmap_compose. Qed.

Lemma pool_members_names l : m_name <$> pool_members l = b_name <$> l.*1.
Proof. unfold pool_members. by rewrite -!list_fmap_compose. Qed.

Lemma filter_new_children (old new : list cid) :
  (∀ c, c ∈ old → c ∉ new) → filter (λ c, c ∉ new) (old ++ new) = old.
Proof.
  intros Hd. rewrite list.filter_app.
  assert (filter (λ c, c ∉ new) new = []) as ->.
  { assert (∀ l, l ⊆ new → filter (λ c, c ∉ new) l = []) as H.
    { induction l as [|c l IH]; intros Hl; [done|]. rewrite filter_cons_False; [|apply IH; set_solver]. intros Hc. apply Hc, Hl. by left. }
    by apply H. }
  rewrite app_nil_r. induction old as [|c l IH]; [done|]. rewrite filter_cons_True; [apply Hd; by left|].
  f_equal. apply IH. intros c' Hc'. apply Hd. by right.
Qed.

Lemma pool_babies_fresh x me N : NoDup (b_rec <$> pool_babies x me N).
Proof.
  rewrite pool_babies_recs. apply list.NoDup_cons. split; [intros (k & E & _)%list_elem_of_fmap; lia|].
  apply NoDup_fmap_2; [intros ? ? ?; lia|apply NoDup_seq].
Qed.

Lemma names_were_free x sup me N s n : pool_free x sup s → n ∈ b_name <$> pool_babies x me N → _mailboxes s !! n = None.
Proof.
  intros [_ _ _ P4 P5]. rewrite pool_babies_names. intros [->|(k & -> & Hk%elem_of_seq)%list_elem_of_fmap]%elem_of_cons; [done|].
  apply P5. lia.
Qed.

Lemma cycle_as_before sp sup ws names l s s1 s3 s4 :
  sups s !! sp = Some sup → grown sp ws names s s1 → keeps_rest (λ y, y < next_id s) s1 s3 → running s3 →
  stop_frame (m_tids (pool_members l)) names s3 s4 →
  (∀ p, p ∈ l → next_id s ≤ b_N p.1 ∧ next_id s ≤ p.2) →
  (∀ n, n ∈ names → _mailboxes s !! n = None ∧ _mailboxes s4 !! n = None) →
  as_before s (s4 <| sups ::= <[sp := sup]> |>).
Proof.
  intros Hsup [_ _ _ G4 G5 G6 G7 G8 G9] [_ K2 K3 K4 K5 K6 K7] Hrun Hf Hl Hnm. split; simpl.
  - by apply (sf_running _ _ _ _ Hf).
  - rewrite (sf_sups _ _ _ _ Hf) K2 G5. apply map_eq. intros y. destruct (decide (y = sp)) as [->|].
    + by rewrite lookup_insert_eq.
    + by rewrite lookup_insert_ne // lookup_alter_ne.
  - apply map_eq. intros n. destruct (decide (n ∈ names)) as [Hn|Hn]; [by destruct (Hnm n Hn) as [-> ->]|].
    rewrite (sf_mailboxes _ _ _ _ Hf) // K3. by apply G6.
  - rewrite (sf_next _ _ _ _ Hf). lia.
  - intros y Hy. rewrite (sf_children _ _ _ _ Hf) (sf_queues _ _ _ _ Hf) (sf_tasks _ _ _ _ Hf).
    + intros (a & ([b d] & -> & Hp)%list_elem_of_fmap & Ht)%elem_of_m_tids. destruct (Hl _ Hp) as [H1 H2]. cbn in *.
      unfold b_task in Ht. destruct Ht; lia.
    + rewrite K5 // K6 // K7 //. split_and!; [by apply G8|by apply G9|by apply G7].
Qed.

Lemma pool_cycle_ok x work sched now sup s :
  ps_pool x = None → check_executor (ps_handler x) (ps_executor x) (ps_n_workers x) = inr tt →
  leaves_pool work → fair_sched sched → pool_free x sup s →
  ∃ s', pool_cycle x work sched now s = (inr tt, s') ∧ as_before s s'.
Proof.
  intros Hx Hck Hwork Hfair Hpf. pose proof Hpf as [P1 P2 [P3 P3'] P4 P5].
  destruct (pool_comes_up x now sup s Hx Hck Hpf) as (p & r & x' & s1 & s2 & s3 & l & H1 & Hrec & Hn & Hs & H2 & H3 & Hl & Hld & Hmb & Hidle & Hrun & Hg & K).
  set (bs := pool_babies x (local_id s) (next_id s)) in *. set (sp := ps_supervisor x) in *. set (gs := pool_members l) in *.
  set (sup' := sup <| s_children ::= λ cs, cs ++ (b_rec <$> bs) |>).
  assert (∀ b, b ∈ bs → next_id s ≤ b_N b) as HN.
  { intros b [i Hi]%list_elem_of_lookup. apply pool_babies_N in Hi as [? _]. lia. }
  assert (∀ q, q ∈ l → next_id s ≤ b_N q.1 ∧ next_id s ≤ q.2) as HNl.
  { intros q Hq. split; [apply HN; rewrite -Hl; by apply list_elem_of_fmap_2|apply Hld; by apply list_elem_of_fmap_2]. }
  assert (m_c <$> gs = pr_dispatcher r :: pr_workers r) as Hcs by (unfold gs; by rewrite pool_members_recs Hl Hrec).
  assert (m_name <$> gs = b_name <$> bs) as Hnames by (unfold gs; by rewrite pool_members_names Hl).
  destruct (Hwork r sp gs (next_id s) s3 Hrun Hidle Hcs) as (s3' & H3' & Hidle' & K'); [rewrite Hn Hnames; by left| |].
  { intros a ([b d] & -> & Hq)%list_elem_of_fmap. destruct (HNl _ Hq) as [Hb Hd]. cbn in Hb, Hd |- *. unfold b_rec, b_task.
    destruct (Hmb b) as [Hq1 Hq2]; [rewrite -Hl; by apply (list_elem_of_fmap_2 fst l (b, d))|]. split_and!; [lia..|].
    exists (b_N b). by split_and!. }
  assert (keeps_rest (λ y, y < next_id s) s1 s3') as K3 by (eapply keeps_trans; [|exact K|exact K']; done).
  assert (sups s3' !! sp = Some sup') as Hsup by (rewrite (kr_sups _ _ _ K3) (gr_sups _ _ _ _ _ Hg) lookup_alter_eq P2; done).
  assert (∀ c, c ∈ s_children sup → c ∉ b_rec <$> bs) as Hnew.
  { intros c Hc (b & -> & Hb)%list_elem_of_fmap. rewrite list.Forall_forall in P3'. specialize (P3' _ Hc). specialize (HN b Hb). unfold b_rec in P3'. lia. }
  assert (running s3') as Hrun' by (by apply (kr_running _ _ _ K')).
  destruct (pool_stop_completes r sp gs sup' s3' (sched gs) Hrun' Hidle' Hcs Hsup) as (s4 & s5 & H4 & _ & Hf & H5 & E5 & Hgone & _);
    [|done|rewrite Hn Hnames; by left|apply Hfair|apply Hfair|].
  { apply list.NoDup_app. split_and!; [done|exact Hnew|apply pool_babies_fresh]. }
  exists s5. split.
  - unfold pool_cycle. cbn [bind]. rewrite H1. cbn [fst snd get bind]. rewrite Hrec H2 H3 H3'. cbn [get bind].
    assert (omap (member_at s3') (b_rec <$> bs) = gs) as -> by (rewrite -Hrec -Hcs; apply (idle_members sp); [done|]; by intros a (q & -> & _)%list_elem_of_fmap).
    cbn [bind] in H4. by rewrite H4.
  - rewrite Hrec in E5. change (s_children sup') with (s_children sup ++ (b_rec <$> bs)) in E5. rewrite filter_new_children // in E5.
    assert (sup' <| s_children := s_children sup |> = sup) as Es by (by destruct sup). rewrite Es in E5. rewrite E5.
    eapply (cycle_as_before sp sup (b_rec <$> bs) (b_name <$> bs) l s s1 s3' s4); try done; [by rewrite -Hnames|].
    intros n Hn'. split; [by eapply names_were_free|].
    rewrite -Hnames in Hn'. apply list_elem_of_fmap in Hn' as (a & -> & Ha). destruct (Hgone a Ha) as [_ Hm]. by rewrite E5 in Hm.
Qed.

(** (C29) Pools leave nothing behind.  On a running node, for any number of pools
    of any size spawned, used and stopped one after the other under the same
    free name, whatever fair order the event loop gives their tasks, and as
    long as what they are used for leaves them at rest and the older objects
    alone: every cycle goes through, and at the end the supervisors, children
    lists included, and the table of mailboxes are what they were at the
    beginning, and so is every record, task and queue that was there. *)
Theorem pool_churn cycles x work sched now sup s :
  ps_pool x = None → check_executor (ps_handler x) (ps_executor x) (ps_n_workers x) = inr tt →
  leaves_pool work → fair_sched sched → pool_free x sup s →
  ∃ s', stop_repeated_create_destroy cycles x work sched now s = (inr tt, s') ∧ as_before s s'.
Proof.
  intros Hx Hck Hwork Hfair. revert s. induction cycles as [|n IH]; intros s Hpf.
  { exists s. split; [done|]. split; try done. apply Hpf. }
  destruct (pool_cycle_ok x work sched now sup s Hx Hck Hwork Hfair Hpf) as (s1 & H1 & A1).
  destruct (IH s1) as (s2 & H2 & A2); [by eapply pool_free_again|].
  exists s2. split; [|by eapply as_before_trans]. cbn [stop_repeated_create_destroy bind]. by rewrite H1.
Qed.

End churn.

(** One use of a pool: a message, when there is room for it. *)
Definition give {codec : PayloadCodec} (msg : pyval) (r : pool_ref) : M st unit :=
  let! s := get in
  match _mailboxes s !! pr_name r ≫= λ q, queues s !! q with
  | Some qu => if q_full qu then ret tt else pool_send r msg None None
  | None => ret tt
  end.

Lemma give_leaves {codec : PayloadCodec} msg : leaves_pool (give msg).
Proof.
  intros r sp gs N s Hrun Hidle Hcs Hname Hids. apply list_elem_of_fmap in Hname as (a & Hn & Ha).
  destruct (Hids a Ha) as (_ & _ & _ & q & Hq & [qu Hqu] & HNq).
  unfold give. cbn [bind get]. rewrite Hn Hq. cbn [mbind option_bind]. rewrite Hqu.
  destruct (q_full qu) eqn:Ef; [exists s; split_and!; [done|done|apply keeps_refl]|].
  unfold pool_send, ref_send. rewrite Hn (send_local_room _ _ _ _ s q qu Hq Hqu Ef). eexists. split; [done|]. split.
  - destruct Hidle as [I1 I2 I3]. split; [|done..]. intros b Hb. destruct (I1 b Hb) as [J1 J2 J3 J4 J5]. by split.
  - split; simpl; try done. intros y Hy. rewrite lookup_insert_ne //. lia.
Qed.

(** The order in which the loop runs them when nothing else is going on. *)
Definition drivers_then_tasks (gs : list member_task) : list turn :=
  ((λ a, Turn (m_d a) HCancelled None 0) <$> gs) ++ ((λ a, Turn (m_t a) HCancelled None 0) <$> gs).

Lemma drivers_then_tasks_fair : fair_sched drivers_then_tasks.
Proof.
  intros gs. split.
  - apply Forall_app. split; apply Forall_fmap, list.Forall_forall; intros a Ha; (split; [|by right]); apply elem_of_m_tids; exists a; auto.
  - intros a Ha. unfold drivers_then_tasks. rewrite fmap_app -!list_fmap_compose. apply (sublist_app [m_d a] _ [m_t a] _).
    + apply singleton_sublist_l. change (m_d a ∈ m_d <$> gs). by apply list_elem_of_fmap_2.
    + apply singleton_sublist_l. change (m_t a ∈ m_t <$> gs). by apply list_elem_of_fmap_2.
Qed.
