(* ===== verification/Cluster.v ===== *)
(** * A cluster of nodes: convergence of the groups

    Several nodes, each with its own state, and the wires between them.  A
    change of membership on one node becomes tasks of its event loop, then
    frames of its core, then messages on a wire, then mail of the reserved
    actor of the receiver, and only then a change of the receiver's table;
    all these steps interleave with those of every other node.  The theorems
    say what holds at every point, and that what is under way arrives. *)

From S2P Require Import Prelude Values NodeId Actors State PeerEvents Asyncio Node NodeProps Links.
From S2P Require Import Groups Refs Runtime.

Record cluster := Cluster {
  nodes : gmap string st;
  (* from, to: the frames for the reserved actor, oldest first *)
  wires : gmap (string * string) (list frame)
}.

#[export] Instance cluster_settable : Settable cluster := λ r, Cluster (nodes r) (wires r).

Definition wire (cl : cluster) (A B : string) : list frame := default [] (wires cl !! (A, B)).

Section cluster.
Context {codec : PayloadCodec}.

(** ** Steps *)

(** A frame from node [src] arrives: the core hands it to the callback of the
    actor it is for.  (For an unknown actor the core answers by itself.) *)
Definition inbound (src : string) (f : frame) : M st unit :=
  let! s := get in
  match _mailboxes s !! fr_actor f with
  | None => ret tt
  | Some q =>
      deliver_callback (fr_actor f) q (fr_payload f)
        (MessageMeta (Some src) (fr_reply_to f) (fr_corr f) (Some (fr_msg_id f)))
  end.

(** One turn of the driver of the reserved actor: [msg, _ = await mailbox.get()],
    then [instance.receive(msg)]. *)
Definition groups_turn : M st unit :=
  let! s := get in
  match _mailboxes s !! GROUPS_ACTOR with
  | None => ret tt
  | Some q =>
      match queues s !! q ≫= get_nowait with
      | None => ret tt
      | Some (item, qu') =>
          modify (λ s, s <| queues ::= <[q := qu']> |>) ;; groups_actor_receive item.1
      end
  end.

(** The core of [A] puts its oldest frame on the wire; frames for other actors
    leave this model. *)
Definition transmit (A : string) (s : st) (co : core_t) (f : frame) (rest : list frame) (cl : cluster) : cluster :=
  cl <| nodes ::= <[A := s <| _core := Some (co <| co_out := rest |>) |>]> |>
     <| wires ::= (if bool_decide (fr_actor f = GROUPS_ACTOR)
                   then <[(A, fr_peer f) := wire cl A (fr_peer f) ++ [f]]> else id) |>.

Definition group_job (j : job) : bool :=
  match j with JGroupDelta _ _ _ _ | JGroupSnapshot _ => true | _ => false end.

(** The mail of the reserved actor. *)
Definition inbox_queue (s : st) : option (queue envelope) :=
  match _mailboxes s !! GROUPS_ACTOR with Some q => queues s !! q | None => None end.
Definition inbox (s : st) : list pyval :=
  match inbox_queue s with Some qu => (q_items qu).*1 | None => [] end.

(** What the node does about changes that are already made. *)
Inductive internal (cl : cluster) : cluster → Prop :=
| int_job A s j js :
    nodes cl !! A = Some s → jobs s = j :: js → group_job j = true →
    internal cl (cl <| nodes ::= <[A := exec run_job s]> |>)
| int_transmit A s co f rest :
    nodes cl !! A = Some s → _core s = Some co → co_out co = f :: rest →
    internal cl (transmit A s co f rest cl)
| int_deliver A B s f rest :
    wires cl !! (A, B) = Some (f :: rest) → nodes cl !! B = Some s →
    internal cl (cl <| wires ::= <[(A, B) := rest]> |> <| nodes ::= <[B := exec (inbound A f) s]> |>)
| int_handle B s :
    nodes cl !! B = Some s → inbox s ≠ [] →
    internal cl (cl <| nodes ::= <[B := exec groups_turn s]> |>).

(** The part of a node that the groups are about. *)
Definition group_frames (B : string) (l : list frame) : list pyval :=
  fr_payload <$> filter (λ f, fr_peer f = B ∧ fr_actor f = GROUPS_ACTOR) l.

Definition out_frames (s : st) (B : string) : list pyval :=
  match _core s with Some co => group_frames B (co_out co) | None => [] end.

Definition node_conf (s : st) :=
  (local_id s, _group_peers s, _group_leave_hook s,
   option_map (λ co, (co_running co, co_peers co, co_refuses co)) (_core s)).

(** Everything else that happens on a node, as long as it leaves that alone. *)
Record unrelated (s s' : st) : Prop := {
  un_conf : node_conf s' = node_conf s;
  un_groups : _groups s' = _groups s;
  un_jobs : filter (λ j, group_job j = true) (jobs s') = filter (λ j, group_job j = true) (jobs s);
  un_inbox : inbox_queue s' = inbox_queue s;
  un_out : ∀ B, out_frames s' B = out_frames s B
}.

(** What the applications do: actors join, leave and end; and the rest. *)
Inductive external (cl : cluster) : cluster → Prop :=
| ext_op A s o :
    nodes cl !! A = Some s → external cl (cl <| nodes ::= <[A := run_group_op o s]> |>)
| ext_other A s s' :
    nodes cl !! A = Some s → unrelated s s' → external cl (cl <| nodes ::= <[A := s']> |>).

Definition cluster_step (cl cl' : cluster) : Prop := internal cl cl' ∨ external cl cl'.

(** ** Messages that are deltas *)

Definition is_delta (P : member → Prop) (msg : pyval) : Prop :=
  ∃ g m v, msg = group_delta_message g m v ∧ P m.

Lemma receive_delta_member g m v s g' m' :
  is_member (exec (groups_actor_receive (group_delta_message g m v)) s) g' m' ↔
  match v with
  | VAdd => (g' = g ∧ m' = m) ∨ is_member s g' m'
  | VRemove => is_member s g' m' ∧ ¬ (g' = g ∧ m' = m)
  end.
Proof. unfold exec. rewrite receive_delta /=. destruct v; [apply is_member_add|apply is_member_discard]. Qed.

(** Whether [m'] is a member afterwards depends only on whether it was. *)
Lemma receive_all_pointwise ms g m : Forall (is_delta (λ _, True)) ms → ∀ s s',
  (is_member s g m ↔ is_member s' g m) →
  (is_member (receive_all ms s) g m ↔ is_member (receive_all ms s') g m).
Proof.
  induction 1 as [|x ms (g0 & m0 & v & -> & _) _ IH]; intros s s' Hs; simpl; [done|].
  apply IH. rewrite -!/(exec _ _) !receive_delta_member. destruct v; by rewrite Hs.
Qed.

Lemma receive_all_skip ms g m s :
  Forall (is_delta (λ m', m' ≠ m)) ms → (is_member (receive_all ms s) g m ↔ is_member s g m).
Proof.
  intros H. revert s. induction H as [|x ms (g0 & m0 & v & -> & Hne) _ IH]; intros s; simpl; [done|].
  rewrite IH -!/(exec _ _) receive_delta_member. destruct v; naive_solver.
Qed.

Lemma is_delta_weaken1 (P Q : member → Prop) x : (∀ m, P m → Q m) → is_delta P x → is_delta Q x.
Proof. intros HPQ (g & m & v & -> & Hm). exists g, m, v. auto. Qed.

Lemma is_delta_weaken (P Q : member → Prop) ms :
  (∀ m, P m → Q m) → Forall (is_delta P) ms → Forall (is_delta Q) ms.
Proof. intros HPQ H. eapply list.Forall_impl; [exact H|]. intros x. by apply is_delta_weaken1. Qed.

(** ** The invariant *)

(** What [A] has under way for [B], behind what [B] already has in its inbox. *)
Definition sending (cl : cluster) (A B : string) (sA : st) : list pyval :=
  (fr_payload <$> wire cl A B) ++ out_frames sA B ++ omap (delta_for B) (jobs sA).

Record node_ok (Ns : gset string) (A : string) (s : st) : Prop := {
  nk_local : local_id s = A;
  nk_peers : _group_peers s = Some (Ns ∖ {[A]});
  nk_hook : _group_leave_hook s = true;
  nk_core : ∃ co, _core s = Some co ∧ co_running co = true ∧
              (∀ B, B ∈ Ns → B ≠ A → is_peer co B) ∧ ∀ p v, co_refuses co p v = None;
  nk_inbox : ∃ qu, inbox_queue s = Some qu ∧ q_maxsize qu = 0;
  nk_mail : Forall (is_delta (λ m, m.1 ≠ A)) (inbox s);
  nk_jobs : ∀ j, j ∈ jobs s → group_job j = true →
              ∃ B g n v, j = JGroupDelta B g (A, n) v ∧ B ∈ Ns ∧ B ≠ A;
  nk_out : ∀ B, Forall (is_delta (λ m, m.1 = A)) (out_frames s B);
  nk_to : ∀ B, out_frames s B ≠ [] → B ∈ Ns ∧ B ≠ A
}.

Definition wires_ok (Ns : gset string) (cl : cluster) : Prop :=
  ∀ A B f, f ∈ wire cl A B →
    A ∈ Ns ∧ B ∈ Ns ∧ A ≠ B ∧ fr_actor f = GROUPS_ACTOR ∧ is_delta (λ m, m.1 = A) (fr_payload f).

(** Nodes [Ns], all connected to each other with [register_groups] done: what
    [B] will believe of [A]'s members once it has handled everything under
    way is what [A] knows now. *)
Record cluster_ok (Ns : gset string) (cl : cluster) : Prop := {
  ok_dom : ∀ A, is_Some (nodes cl !! A) ↔ A ∈ Ns;
  ok_nodes : ∀ A s, nodes cl !! A = Some s → node_ok Ns A s;
  ok_wires : wires_ok Ns cl;
  ok_pairs : ∀ A B sA sB, A ≠ B → nodes cl !! A = Some sA → nodes cl !! B = Some sB →
               agrees A sA (receive_all (inbox sB ++ sending cl A B sA) sB)
}.

Lemma omap_deltas Ns A B s :
  node_ok Ns A s → Forall (is_delta (λ m, m.1 = A)) (omap (delta_for B) (jobs s)).
Proof.
  intros Hok. apply list.Forall_forall. intros x (j & Hj & Hx)%list_elem_of_omap.
  destruct (group_job j) eqn:E; [|by destruct j].
  destruct (nk_jobs _ _ _ Hok j Hj E) as (B' & g & n & v & -> & _). simpl in Hx.
  case_bool_decide; [|done]. simplify_eq. by exists g, (A, n), v.
Qed.

Lemma sending_deltas Ns cl A B sA :
  wires_ok Ns cl → node_ok Ns A sA → Forall (is_delta (λ m, m.1 = A)) (sending cl A B sA).
Proof.
  intros Hw Hok. unfold sending. rewrite !Forall_app. split_and!; [|apply Hok|by eapply omap_deltas].
  apply Forall_fmap, list.Forall_forall. intros f Hf. by apply (Hw A B f).
Qed.

(** A step changes one node, and the wires to or from it. *)
Lemma cluster_ok_update Ns cl X s s' ws :
  cluster_ok Ns cl → nodes cl !! X = Some s → node_ok Ns X s' →
  let cl' := Cluster (<[X := s']> (nodes cl)) ws in
  wires_ok Ns cl' → (∀ A B, A ≠ X → B ≠ X → wire cl' A B = wire cl A B) →
  (∀ B sB, B ≠ X → nodes cl !! B = Some sB → agrees X s' (receive_all (inbox sB ++ sending cl' X B s') sB)) →
  (∀ A sA, A ≠ X → nodes cl !! A = Some sA → agrees A sA (receive_all (inbox s' ++ sending cl' A X sA) s')) →
  cluster_ok Ns cl'.
Proof.
  intros Hok HX Hn cl' Hw Hwo Hs Hr. split; simpl.
  - intros A. rewrite lookup_insert_is_Some'. rewrite -(ok_dom _ _ Hok). split; [|auto].
    intros [<-|?]; [by exists s|done].
  - intros A sA. rewrite lookup_insert. case_decide; [intros [= <-]; by subst|]. by apply Hok.
  - done.
  - intros A B sA sB Hne. rewrite !lookup_insert. do 2 case_decide; subst; try done.
    + intros [= <-] HB. by apply Hs.
    + intros HA [= <-]. by apply Hr.
    + intros HA HB. unfold sending. rewrite Hwo //. by apply (ok_pairs _ _ Hok A B).
Qed.

(** A step that only moves messages on, or does nothing to them. *)
Lemma cluster_ok_flow Ns cl X s s' ws :
  cluster_ok Ns cl → nodes cl !! X = Some s → node_ok Ns X s' →
  let cl' := Cluster (<[X := s']> (nodes cl)) ws in
  wires_ok Ns cl' → (∀ A B, A ≠ X → wire cl' A B = wire cl A B) →
  _groups s' = _groups s → inbox s' = inbox s → (∀ B, sending cl' X B s' = sending cl X B s) →
  cluster_ok Ns cl'.
Proof.
  intros Hok HX Hn cl' Hw Hwo Hg Hi Hs.
  assert (∀ g m, is_member s' g m ↔ is_member s g m) as Hm by (intros g m; unfold is_member; by rewrite Hg).
  apply (cluster_ok_update Ns cl X s); try done; [auto|..].
  - intros B sB HB HsB. rewrite Hs. intros g n. rewrite Hm. by apply (ok_pairs _ _ Hok X B s sB).
  - intros A sA HA HsA g n. unfold sending. rewrite Hi Hwo // -/(sending cl A X sA).
    rewrite (ok_pairs _ _ Hok A X sA s HA HsA HX g n). apply receive_all_pointwise; [|done].
    rewrite Forall_app. split.
    + eapply is_delta_weaken; [|apply (ok_nodes _ _ Hok X s HX)]. done.
    + eapply is_delta_weaken; [|eapply sending_deltas; [apply Hok|by apply Hok]]. done.
Qed.

(** ** The steps *)

(** [A] runs the task of a delta for [B]: its frame is the youngest of the core. *)
Lemma run_group_job Ns A s j js :
  node_ok Ns A s → jobs s = j :: js → group_job j = true →
  ∃ B g n v co, j = JGroupDelta B g (A, n) v ∧ B ∈ Ns ∧ B ≠ A ∧ _core s = Some co ∧
    exec run_job s = s <| jobs := js |>
      <| _core := Some (co <| co_out ::= λ l,
             l ++ [Frame B GROUPS_ACTOR (group_delta_message g (A, n) v) None None (co_next_msg_id co)] |>
                           <| co_next_msg_id ::= next_u64 |>) |>.
Proof.
  intros Hok Hj Hgj. destruct (nk_jobs _ _ _ Hok j) as (B & g & n & v & -> & HB & HBA); [rewrite Hj; by left|done|].
  destruct (nk_core _ _ _ Hok) as (co & Hco & Hrun & Hp & Href).
  exists B, g, n, v, co. split_and!; try done.
  unfold run_job, exec. cbn [bind get]. rewrite Hj. cbn [bind modify job_body].
  unfold group_send_delta, send_best_effort, try_except.
  rewrite (send_remote_ok B GROUPS_ACTOR _ None None (s <| jobs := js |>) co) //; [by apply Hp|by destruct v..].
Qed.

Lemma group_frames_app B l1 l2 : group_frames B (l1 ++ l2) = group_frames B l1 ++ group_frames B l2.
Proof. unfold group_frames. by rewrite list.filter_app fmap_app. Qed.

Lemma group_frames_one B B' g m v corr id :
  group_frames B [Frame B' GROUPS_ACTOR (group_delta_message g m v) None corr id] =
  omap (delta_for B) [JGroupDelta B' g m v].
Proof.
  unfold group_frames. simpl. destruct (decide (B' = B)) as [->|Hne].
  - rewrite filter_cons_True; [done|]. by rewrite bool_decide_eq_true_2.
  - rewrite filter_cons_False; [by intros [? ?]|]. by rewrite bool_decide_eq_false_2.
Qed.

Lemma job_ok Ns cl A s j js :
  cluster_ok Ns cl → nodes cl !! A = Some s → jobs s = j :: js → group_job j = true →
  cluster_ok Ns (cl <| nodes ::= <[A := exec run_job s]> |>).
Proof.
  intros Hok HA Hj Hgj. pose proof (ok_nodes _ _ Hok A s HA) as Hn.
  destruct (run_group_job Ns A s j js Hn Hj Hgj) as (B & g & n & v & co & Hjd & HB & HBA & Hco & ->).
  assert (∀ B', group_frames B' (co_out co ++ [Frame B GROUPS_ACTOR (group_delta_message g (A, n) v) None None (co_next_msg_id co)])
            = out_frames s B' ++ omap (delta_for B') [j]) as Hout.
  { intros B'. by rewrite group_frames_app group_frames_one Hjd /out_frames Hco. }
  apply (cluster_ok_flow Ns cl A s); try done.
  - destruct Hn as [N1 N2 N3 N4 N5 N6 N7 N8 N9]. split; try done.
    + rewrite -N1. unfold local_id; simpl. by rewrite Hco.
    + destruct N4 as (co' & Hco' & H1 & H2 & H3). simplify_eq. eexists. by split_and!.
    + intros j' Hj'. apply N7. rewrite Hj. by right.
    + intros B'. unfold out_frames; simpl. rewrite Hout Forall_app. split; [done|]. rewrite Hjd /=.
      case_bool_decide; constructor; [by exists g, (A, n), v|done].
    + intros B'. unfold out_frames at 1; simpl. rewrite Hout. destruct (out_frames s B') eqn:E.
      * rewrite Hjd /=. case_bool_decide; by subst.
      * intros _. apply N9. by rewrite E.
  - apply Hok.
  - intros B'. unfold sending, out_frames; simpl. rewrite Hout Hj -app_assoc -omap_app. done.
Qed.

Lemma transmit_ok Ns cl A s co f rest :
  cluster_ok Ns cl → nodes cl !! A = Some s → _core s = Some co → co_out co = f :: rest →
  cluster_ok Ns (transmit A s co f rest cl).
Proof.
  intros Hok HA Hco Hout. pose proof (ok_nodes _ _ Hok A s HA) as Hn. unfold transmit.
  assert (A ∈ Ns) as HAN by (apply (ok_dom _ _ Hok); eauto).
  assert (fr_actor f = GROUPS_ACTOR → fr_peer f ∈ Ns ∧ fr_peer f ≠ A) as Hpeer.
  { intros Hf. apply Hn. by rewrite /out_frames Hco Hout /group_frames filter_cons_True. }
  assert (∀ B, out_frames s B = group_frames B [f] ++ group_frames B rest) as Hof.
  { intros B. by rewrite -group_frames_app /out_frames Hco Hout. }
  set (cl' := cl <| nodes ::= _ |> <| wires ::= _ |>).
  assert (∀ A' B, wire cl' A' B = wire cl A' B ++
            (if bool_decide (A' = A ∧ fr_peer f = B ∧ fr_actor f = GROUPS_ACTOR) then [f] else [])) as Hwire.
  { intros A' B. unfold wire at 1, cl'; simpl. case_bool_decide as Hf.
    - rewrite lookup_insert. case_decide as E; [injection E as <- <-; by rewrite bool_decide_eq_true_2|].
      rewrite bool_decide_eq_false_2; [naive_solver|]. by rewrite app_nil_r.
    - rewrite bool_decide_eq_false_2; [naive_solver|]. by rewrite app_nil_r. }
  apply (cluster_ok_flow Ns cl A s); try done.
  - destruct Hn as [N1 N2 N3 N4 N5 N6 N7 N8 N9]. split; try done.
    + rewrite -N1. unfold local_id; simpl. by rewrite Hco.
    + destruct N4 as (co' & Hco' & H1 & H2 & H3). simplify_eq. eexists. by split_and!.
    + intros B. specialize (N8 B). rewrite Hof Forall_app in N8. apply N8.
    + intros B Hne. apply N9. rewrite Hof. unfold out_frames in Hne; simpl in Hne. intros [_ ?]%app_eq_nil. done.
  - intros A' B f'. change (Cluster _ _) with cl'. rewrite Hwire elem_of_app. intros [Hf'|Hf']; [by apply Hok|].
    case_bool_decide as Hc; [|by apply elem_of_nil in Hf']. apply list_elem_of_singleton in Hf' as ->.
    destruct Hc as (-> & <- & Ha). destruct (Hpeer Ha). split_and!; try done.
    pose proof (nk_out _ _ _ Hn (fr_peer f)) as Ho. rewrite Hof Forall_app in Ho. destruct Ho as [Ho _].
    unfold group_frames in Ho. rewrite filter_cons_True // in Ho. by apply list.Forall_cons in Ho as [? _].
  - intros A' B HA'. change (Cluster _ _) with cl'. rewrite Hwire bool_decide_eq_false_2; [naive_solver|]. apply app_nil_r.
  - intros B. change (Cluster _ _) with cl'. unfold sending. rewrite Hwire Hof fmap_app -!app_assoc. f_equal.
    rewrite !app_assoc. f_equal. unfold out_frames at 1; simpl. f_equal. unfold group_frames.
    destruct (decide (fr_peer f = B ∧ fr_actor f = GROUPS_ACTOR)) as [Hc|Hc].
    + rewrite bool_decide_eq_true_2; [done|]. by rewrite filter_cons_True.
    + rewrite bool_decide_eq_false_2; [naive_solver|]. by rewrite filter_cons_False.
Qed.

Lemma omap_group_jobs B (js : list job) :
  omap (delta_for B) js = omap (delta_for B) (filter (λ j, group_job j = true) js).
Proof.
  induction js as [|j js IH]; [done|]. destruct (group_job j) eqn:E.
  - rewrite filter_cons_True //. simpl. destruct (delta_for B j); [f_equal|]; exact IH.
  - rewrite filter_cons_False ?E //. simpl. assert (delta_for B j = None) as -> by (by destruct j). exact IH.
Qed.

(** Activity that has nothing to do with the groups. *)
Lemma other_ok Ns cl A s s' :
  cluster_ok Ns cl → nodes cl !! A = Some s → unrelated s s' →
  cluster_ok Ns (cl <| nodes ::= <[A := s']> |>).
Proof.
  intros Hok HA [Hc Hg Hj Hi Ho]. pose proof (ok_nodes _ _ Hok A s HA) as [N1 N2 N3 N4 N5 N6 N7 N8 N9].
  unfold node_conf in Hc. injection Hc as H1 H2 H3 H4.
  assert (inbox s' = inbox s) as Hin by (unfold inbox; by rewrite Hi).
  assert (∀ B, omap (delta_for B) (jobs s') = omap (delta_for B) (jobs s)) as Hjd.
  { intros B. by rewrite omap_group_jobs Hj -omap_group_jobs. }
  apply (cluster_ok_flow Ns cl A s); try done.
  - split.
    + by rewrite H1.
    + by rewrite H2.
    + by rewrite H3.
    + destruct N4 as (co & Hco & R1 & R2 & R3). rewrite Hco in H4. destruct (_core s') as [co'|]; [|done].
      injection H4 as E1 E2 E3. exists co'. unfold is_peer in R2 |- *. rewrite E1 E2 E3. done.
    + by rewrite Hi.
    + by rewrite Hin.
    + intros j Hj' Hgj. apply N7; [|done].
      assert (j ∈ filter (λ j, group_job j = true) (jobs s)) as [_ ?]%list_elem_of_filter; [|done].
      rewrite -Hj. by apply list_elem_of_filter.
    + intros B. by rewrite Ho.
    + intros B. rewrite Ho. apply N9.
  - apply Hok.
  - intros B. unfold sending. by rewrite Ho Hjd.
Qed.

(** A delta of [A]'s, inserted into the mail of a third node, changes nothing
    about the members of [C]. *)
Lemma receive_insert A C g n ms1 x ms2 s :
  A ≠ C → is_delta (λ m, m.1 = A) x → Forall (is_delta (λ _, True)) ms2 →
  (is_member (receive_all (ms1 ++ x :: ms2) s) g (C, n) ↔ is_member (receive_all (ms1 ++ ms2) s) g (C, n)).
Proof.
  intros Hne (g0 & m0 & v & -> & Hm) Hms. rewrite !receive_all_app /=.
  apply receive_all_pointwise; [done|]. rewrite -/(exec _ _) receive_delta_member.
  assert ((C, n) ≠ m0) by (intros <-; done). destruct v; naive_solver.
Qed.

Lemma inbox_put s q qu (item : envelope) :
  _mailboxes s !! GROUPS_ACTOR = Some q → queues s !! q = Some qu →
  let s' := s <| queues ::= <[q := qu <| q_items ::= λ l, l ++ [item] |>]> |> in
  inbox_queue s' = Some (qu <| q_items ::= λ l, l ++ [item] |>) ∧ inbox s' = inbox s ++ [item.1].
Proof.
  intros Hm Hq s'. assert (inbox_queue s' = Some (qu <| q_items ::= λ l, l ++ [item] |>)) as Hi.
  { unfold inbox_queue, s'; simpl. by rewrite Hm lookup_insert_eq. }
  split; [done|]. unfold inbox. rewrite Hi. unfold inbox_queue. rewrite Hm Hq /=. by rewrite fmap_app.
Qed.

Lemma is_delta_plain P x : is_delta P x → plain x = true.
Proof. intros (g & m & v & -> & _). by destruct v. Qed.

(** The wires without the frame that was delivered. *)
Lemma wires_ok_pop Ns cl A B f rest ns :
  wires_ok Ns cl → wire cl A B = f :: rest →
  let cl' := Cluster ns (<[(A, B) := rest]> (wires cl)) in
  wires_ok Ns cl' ∧ wire cl' A B = rest ∧ ∀ A' B', (A', B') ≠ (A, B) → wire cl' A' B' = wire cl A' B'.
Proof.
  intros Hok Hw cl'.
  assert (wire cl' A B = rest) as Hwr by (unfold wire, cl'; simpl; by rewrite lookup_insert_eq).
  assert (∀ A' B', (A', B') ≠ (A, B) → wire cl' A' B' = wire cl A' B') as Hwo.
  { intros A' B' Hne. unfold wire, cl'; simpl. by rewrite lookup_insert_ne. }
  split_and!; try done. intros A' B' f' Hf'. destruct (decide ((A', B') = (A, B))) as [[= -> ->]|Hne].
  - apply (Hok A B). rewrite Hwr in Hf'. rewrite Hw. by right.
  - apply (Hok A' B'). by rewrite -Hwo.
Qed.

(** What a delivered frame and a turn of the handler do, in closed form. *)
Lemma inbound_delta Ns A B s f :
  node_ok Ns B s → fr_actor f = GROUPS_ACTOR → is_delta (λ _, True) (fr_payload f) →
  ∃ q qu item, _mailboxes s !! GROUPS_ACTOR = Some q ∧ queues s !! q = Some qu ∧ item.1 = fr_payload f ∧
    q_maxsize qu = 0 ∧
    exec (inbound A f) s = s <| queues ::= <[q := qu <| q_items ::= λ l, l ++ [item] |>]> |>.
Proof.
  intros Hn Hact Hd. destruct (nk_inbox _ _ _ Hn) as (qu & Hqu & Hmax). unfold inbox_queue in Hqu.
  destruct (_mailboxes s !! GROUPS_ACTOR) as [q|] eqn:Hm; [|done].
  exists q, qu, (fr_payload f, MessageMeta (Some A) (fr_reply_to f) (fr_corr f) (Some (fr_msg_id f))).
  split_and!; try done. unfold inbound, exec. cbn [bind get]. rewrite Hact Hm.
  rewrite (deliver_room _ _ _ _ s qu) //; [by eapply is_delta_plain|]. by rewrite /q_full Hmax.
Qed.

Lemma groups_turn_delta Ns B s :
  node_ok Ns B s → inbox s ≠ [] →
  ∃ q qu items g m v, _mailboxes s !! GROUPS_ACTOR = Some q ∧
    inbox s = group_delta_message g m v :: items.*1 ∧ m.1 ≠ B ∧ q_maxsize qu = 0 ∧
    exec groups_turn s =
      (match v with VAdd => add_member g m | VRemove => discard_member g m end)
        (s <| queues ::= <[q := qu <| q_items := items |>]> |>).
Proof.
  intros Hn Hne. destruct (nk_inbox _ _ _ Hn) as (qu & Hqu & Hmax). pose proof (nk_mail _ _ _ Hn) as Hmail.
  assert (inbox s = (q_items qu).*1) as Hin by (unfold inbox; by rewrite Hqu).
  unfold inbox_queue in Hqu. destruct (_mailboxes s !! GROUPS_ACTOR) as [q|] eqn:Hm; [|done].
  rewrite Hin in Hmail Hne. destruct (q_items qu) as [|item items] eqn:Eit; [done|].
  apply list.Forall_cons in Hmail as [(g & m & v & Hmsg & HmB) _].
  exists q, qu, items, g, m, v. rewrite Hin /= Hmsg. split_and!; try done.
  unfold groups_turn, exec. cbn [bind get]. rewrite Hm Hqu /= /get_nowait Eit /= Hmsg receive_delta. by destruct v.
Qed.

Lemma deliver_ok Ns cl A B s f rest :
  cluster_ok Ns cl → wires cl !! (A, B) = Some (f :: rest) → nodes cl !! B = Some s →
  cluster_ok Ns (cl <| wires ::= <[(A, B) := rest]> |> <| nodes ::= <[B := exec (inbound A f) s]> |>).
Proof.
  intros Hok Hw HB. pose proof (ok_nodes _ _ Hok B s HB) as Hn.
  assert (wire cl A B = f :: rest) as Hwire by (unfold wire; by rewrite Hw).
  destruct (ok_wires _ _ Hok A B f) as (HAN & HBN & HAB & Hact & Hd); [rewrite Hwire; by left|].
  destruct (inbound_delta Ns A B s f Hn Hact) as (q & qu & item & Hm & Hqu & Hpay & Hmax & ->); [by eapply is_delta_weaken1; [|exact Hd]|].
  set (s' := s <| queues ::= <[q := qu <| q_items ::= λ l, l ++ [item] |>]> |>).
  destruct (inbox_put s q qu item Hm Hqu) as [Hiq Hi]. fold s' in Hiq, Hi. rewrite Hpay in Hi.
  destruct (wires_ok_pop Ns cl A B f rest (<[B := s']> (nodes cl)) (ok_wires _ _ Hok) Hwire) as (Hwok & Hwr & Hwo).
  apply (cluster_ok_update Ns cl B s); try done.
  - destruct Hn as [N1 N2 N3 N4 N5 N6 N7 N8 N9]. split; try done; [by eexists|].
    rewrite Hi Forall_app. split; [done|]. constructor; [|done].
    destruct Hd as (g & m & v & -> & Hmm). exists g, m, v. split; [done|congruence].
  - intros A' B' HA' HB'. apply Hwo. congruence.
  - intros C sC HC HsC. unfold sending. rewrite Hwo; [congruence|]. by apply (ok_pairs _ _ Hok B C s sC).
  - intros C sC HC HsC g n. rewrite (ok_pairs _ _ Hok C B sC s HC HsC HB g n) Hi -app_assoc.
    pose proof (ok_nodes _ _ Hok C sC HsC) as HnC.
    assert (Forall (is_delta (λ _, True)) (inbox s)) as Hin by (eapply is_delta_weaken; [|apply Hn]; done).
    destruct (decide (C = A)) as [->|Hne].
    + unfold sending. rewrite Hwr Hwire. apply receive_all_pointwise; [|done].
      rewrite Forall_app. split; [done|].
      pose proof (sending_deltas Ns cl A B sC (ok_wires _ _ Hok) HnC) as Hsd.
      unfold sending in Hsd. rewrite Hwire in Hsd. by eapply is_delta_weaken; [|exact Hsd].
    + unfold sending. rewrite -(Hwo C B); [congruence|]. rewrite -/(sending (Cluster _ _) C B sC).
      pose proof (sending_deltas Ns _ C B sC Hwok HnC) as Hsd. apply (is_delta_weaken _ (λ _, True)) in Hsd; [|done].
      rewrite -(receive_insert A C g n _ (fr_payload f)) //. apply receive_all_pointwise; [|done].
      rewrite Forall_app. split; [done|]. constructor; [|done].
      destruct Hd as (g0 & m0 & v & -> & _). by exists g0, m0, v.
Qed.

Lemma handle_ok Ns cl B s :
  cluster_ok Ns cl → nodes cl !! B = Some s → inbox s ≠ [] →
  cluster_ok Ns (cl <| nodes ::= <[B := exec groups_turn s]> |>).
Proof.
  intros Hok HB Hne. pose proof (ok_nodes _ _ Hok B s HB) as Hn.
  destruct (groups_turn_delta Ns B s Hn Hne) as (q & qu & items & g & m & v & Hm & Hin & HmB & Hmax & ->).
  pose proof (nk_mail _ _ _ Hn) as Hmail. rewrite Hin in Hmail. apply list.Forall_cons in Hmail as [_ Hmail].
  set (s1 := s <| queues ::= <[q := qu <| q_items := items |>]> |>).
  set (s' := match v with VAdd => add_member g m | VRemove => discard_member g m end s1).
  assert (inbox_queue s' = Some (qu <| q_items := items |>)) as Hq'.
  { unfold inbox_queue, s', s1. destruct v; simpl; by rewrite Hm lookup_insert_eq. }
  assert (inbox s' = items.*1) as Hin' by (unfold inbox; by rewrite Hq').
  assert (∀ C g' n, C ≠ B → (is_member (exec (groups_actor_receive (group_delta_message g m v)) s) g' (C, n) ↔ is_member s' g' (C, n))) as Hrecv.
  { intros C g' n _. rewrite receive_delta_member /s'.
    destruct v; [rewrite is_member_add|rewrite is_member_discard]; done. }
  assert (∀ g' n, is_member s' g' (B, n) ↔ is_member s g' (B, n)) as Hown.
  { intros g' n. assert ((B, n) ≠ m) by (intros <-; done). unfold s'.
    destruct v; [rewrite is_member_add|rewrite is_member_discard]; naive_solver. }
  assert (jobs s' = jobs s ∧ _core s' = _core s ∧ node_conf s' = node_conf s) as (Hj & Hco & Hconf) by (by destruct v).
  apply (cluster_ok_update Ns cl B s); try done.
  - destruct Hn as [N1 N2 N3 N4 N5 N6 N7 N8 N9]. injection Hconf as H1 H2 H3 _.
    split; rewrite ?H1 ?H2 ?H3 ?Hco ?Hj ?Hin' /out_frames ?Hco //. by eexists.
  - apply Hok.
  - intros C sC HC HsC g' n. rewrite Hown. unfold sending, out_frames. rewrite Hj Hco.
    apply (ok_pairs _ _ Hok B C s sC); auto.
  - intros C sC HC HsC g' n. rewrite (ok_pairs _ _ Hok C B sC s HC HsC HB g' n) Hin Hin' /=.
    apply receive_all_pointwise; [|by apply (Hrecv C)]. rewrite Forall_app. split.
    + by eapply is_delta_weaken; [|exact Hmail].
    + eapply is_delta_weaken; [|apply (sending_deltas Ns cl C B sC)]; [done|apply Hok|by apply Hok].
Qed.

(** A join, a leave or the end of a generation on [A]. *)
Lemma run_group_op_local Ns A o s :
  node_ok Ns A s →
  let s' := run_group_op o s in
  node_conf s' = node_conf s ∧ _core s' = _core s ∧ inbox_queue s' = inbox_queue s ∧
  (∀ g m, m.1 ≠ A → (is_member s' g m ↔ is_member s g m)) ∧
  ∃ new, jobs s' = jobs s ++ new ∧
    ∀ j, j ∈ new → ∃ B g n v, j = JGroupDelta B g (A, n) v ∧ B ∈ Ns ∧ B ≠ A.
Proof.
  intros Hn s'. pose proof (nk_local _ _ _ Hn) as Hl. pose proof (nk_peers _ _ _ Hn) as Hp.
  assert (∀ g n v j, j ∈ delta_jobs (_group_peers s) (λ p, JGroupDelta p g (A, n) v) →
    ∃ B g n v, j = JGroupDelta B g (A, n) v ∧ B ∈ Ns ∧ B ≠ A) as Hd.
  { intros g n v j. rewrite Hp /=. intros (B & -> & HB)%list_elem_of_fmap. exists B, g, n, v. set_solver. }
  destruct o as [g n|g n|n]; simpl in s'.
  - unfold s', join_group; simpl. rewrite group_broadcast_spec Hl /=. split_and!; try done.
    + intros g' m Hm. change (is_member (add_member g (A, n) s) g' m ↔ is_member s g' m).
      rewrite is_member_add. naive_solver.
    + eexists. split; [done|]. eauto.
  - unfold s', leave_group; simpl. rewrite group_broadcast_spec Hl /=. split_and!; try done.
    + intros g' m Hm. change (is_member (discard_member g (A, n) s) g' m ↔ is_member s g' m).
      rewrite is_member_discard. naive_solver.
    + eexists. split; [done|]. eauto.
  - unfold s'. rewrite clear_groups_spec Hl /=. split_and!; try done.
    + intros g' m Hm. unfold is_member; simpl. rewrite lookup_fmap.
      destruct (_groups s !! g') as [ms|]; simpl; [|naive_solver]. split; intros (ms' & [= <-] & ?);
        (eexists; split; [done|]; set_solver).
    + eexists. split; [done|]. intros j. unfold leave_jobs. rewrite (nk_hook _ _ _ Hn).
      intros (g & Hj & _)%list_elem_of_bind. eauto.
Qed.

Lemma op_ok Ns cl A s o :
  cluster_ok Ns cl → nodes cl !! A = Some s →
  cluster_ok Ns (cl <| nodes ::= <[A := run_group_op o s]> |>).
Proof.
  intros Hok HA. pose proof (ok_nodes _ _ Hok A s HA) as Hn.
  destruct (run_group_op_local Ns A o s Hn) as (Hconf & Hco & Hiq & Helse & new & Hj & Hnew).
  set (s' := run_group_op o s) in *.
  assert (inbox s' = inbox s) as Hin by (unfold inbox; by rewrite Hiq).
  assert (∀ B, out_frames s' B = out_frames s B) as Hof by (intros B; unfold out_frames; by rewrite Hco).
  apply (cluster_ok_update Ns cl A s); try done.
  - destruct Hn as [N1 N2 N3 N4 N5 N6 N7 N8 N9]. injection Hconf as H1 H2 H3 _.
    split; rewrite ?H1 ?H2 ?H3 ?Hco ?Hiq ?Hin //.
    + intros j. rewrite Hj elem_of_app. intros [?|?]; [by apply N7|auto].
    + intros B. by rewrite Hof.
    + intros B. rewrite Hof. apply N9.
  - apply Hok.
  - intros B sB HB HsB g n.
    assert (B ∈ Ns) as HBN by (apply (ok_dom _ _ Hok); eauto).
    assert (replicating A B s) as Hrp.
    { split; [apply Hn| |apply Hn]. eexists. split; [apply Hn|]. set_solver. }
    destruct (run_group_op_jobs A B o s Hrp) as (new' & Hj' & Hdel & _). rewrite -/s' Hj in Hj'.
    apply app_inv_head in Hj'. subst new'.
    unfold sending. rewrite Hof Hj omap_app Hdel !app_assoc receive_all_app -!app_assoc.
    destruct (run_group_op_agrees A B o s s Hrp (λ _ _, reflexivity _)) as [Hag _]. rewrite (Hag g n).
    apply receive_all_pointwise; [|by apply (ok_pairs _ _ Hok A B s sB)].
    rewrite -Hdel. apply list.Forall_forall. intros x (j & Hjn & Hx)%list_elem_of_omap.
    destruct (Hnew j Hjn) as (B' & g' & n' & v & -> & _). simpl in Hx. case_bool_decide; [|done].
    simplify_eq. by exists g', (A, n'), v.
  - intros C sC HC HsC g n. rewrite (ok_pairs _ _ Hok C A sC s HC HsC HA g n) Hin.
    apply receive_all_pointwise; [|by rewrite Helse]. rewrite Forall_app. split.
    + by eapply is_delta_weaken; [|apply Hn].
    + eapply is_delta_weaken; [|apply (sending_deltas Ns cl C A sC)]; [done|apply Hok|by apply Hok].
Qed.

Lemma cluster_step_ok Ns cl cl' : cluster_step cl cl' → cluster_ok Ns cl → cluster_ok Ns cl'.
Proof.
  intros [Hi|He] Hok.
  - destruct Hi; [by eapply job_ok|by apply transmit_ok|by apply deliver_ok|by apply handle_ok].
  - destruct He; [by apply op_ok|by eapply other_ok].
Qed.

(** ** Where nothing is under way *)

Definition quiescent (cl : cluster) : Prop :=
  (∀ A s, nodes cl !! A = Some s →
     inbox s = [] ∧ (∀ j, j ∈ jobs s → group_job j = false) ∧ ∀ co, _core s = Some co → co_out co = []) ∧
  ∀ A B, wire cl A B = [].

Lemma quiescent_agrees Ns cl A B sA sB :
  cluster_ok Ns cl → quiescent cl → nodes cl !! A = Some sA → nodes cl !! B = Some sB → agrees A sA sB.
Proof.
  intros Hok [Hq Hw] HA HB. destruct (decide (A = B)) as [->|Hne]; [by simplify_eq|].
  destruct (Hq A sA HA) as (_ & Hj & Hc). destruct (Hq B sB HB) as (Hi & _ & _).
  pose proof (ok_pairs _ _ Hok A B sA sB Hne HA HB) as Hp.
  assert (sending cl A B sA = []) as Hs.
  { unfold sending. rewrite Hw /=. destruct (nk_core _ _ _ (ok_nodes _ _ Hok A sA HA)) as (co & Hco & _).
    rewrite /out_frames Hco (Hc co Hco) /= omap_group_jobs.
    destruct (filter _ (jobs sA)) as [|j js] eqn:E; [done|].
    assert (j ∈ filter (λ j, group_job j = true) (jobs sA)) as [H1 H2]%list_elem_of_filter by (rewrite E; by left).
    by rewrite Hj in H1. }
  by rewrite Hi Hs in Hp.
Qed.

(** (C15) The tables of a cluster agree up to what is under way.  Let all nodes
    be connected and start in agreement.  However joins, leaves and ends of
    actors on all of them interleave with the tasks, frames, deliveries and
    handler turns that spread them and with any other activity: in every state
    that is reached, what each node will believe about another one's members
    once it has handled the messages under way from it is what that node knows
    now; and when nothing is under way, all nodes have the same members in
    every group. *)
Theorem cluster_agreement Ns cl cl' :
  cluster_ok Ns cl → rtc cluster_step cl cl' →
  (∀ A B sA sB, A ≠ B → nodes cl' !! A = Some sA → nodes cl' !! B = Some sB →
     agrees A sA (receive_all (inbox sB ++ sending cl' A B sA) sB)) ∧
  (quiescent cl' → ∀ A B sA sB g m, nodes cl' !! A = Some sA → nodes cl' !! B = Some sB → m.1 ∈ Ns →
     (is_member sA g m ↔ is_member sB g m)).
Proof.
  intros Hok Hsteps. assert (cluster_ok Ns cl') as Hok'.
  { induction Hsteps; [done|]. apply IHHsteps. by eapply cluster_step_ok. }
  split; [by apply Hok'|]. intros Hq A B sA sB g [C n] HA HB HC. simpl in HC.
  apply (ok_dom _ _ Hok') in HC as [sC HsC].
  rewrite -(quiescent_agrees Ns cl' C A sC sA Hok' Hq HsC HA g n).
  apply (quiescent_agrees Ns cl' C B sC sB Hok' Hq HsC HB g n).
Qed.

(** ** What is under way arrives *)

Definition node_weight (s : st) : nat :=
  4 * length (filter (λ j, group_job j = true) (jobs s)) +
  3 * match _core s with Some co => length (co_out co) | None => 0 end + length (inbox s).

Definition weight (cl : cluster) : nat :=
  msum (node_weight <$> nodes cl) + 2 * msum (length <$> wires cl).

Lemma weight_node cl A s s' :
  nodes cl !! A = Some s →
  weight (cl <| nodes ::= <[A := s']> |>) + node_weight s = weight cl + node_weight s'.
Proof.
  intros HA. unfold weight; simpl. rewrite fmap_insert.
  pose proof (msum_insert (node_weight <$> nodes cl) A (node_weight s')) as H.
  rewrite lookup_fmap HA /= in H. lia.
Qed.

Lemma weight_wire cl A B l :
  weight (cl <| wires ::= <[(A, B) := l]> |>) + 2 * length (wire cl A B) = weight cl + 2 * length l.
Proof.
  unfold weight; simpl. rewrite fmap_insert.
  pose proof (msum_insert (length <$> wires cl) (A, B) (length l)) as H.
  rewrite lookup_fmap in H. unfold wire. destruct (wires cl !! (A, B)); simpl in *; lia.
Qed.

Lemma job_weight Ns A s j js :
  node_ok Ns A s → jobs s = j :: js → group_job j = true → S (node_weight (exec run_job s)) = node_weight s.
Proof.
  intros Hn Hj Hgj. destruct (run_group_job Ns A s j js Hn Hj Hgj) as (B & g & n & v & co & _ & _ & _ & Hco & ->).
  unfold node_weight, inbox, inbox_queue; simpl. rewrite Hj Hco filter_cons_True //= length_app /=. lia.
Qed.

Lemma out_weight s co f rest :
  _core s = Some co → co_out co = f :: rest →
  node_weight (s <| _core := Some (co <| co_out := rest |>) |>) + 3 = node_weight s.
Proof. intros Hco Ho. unfold node_weight, inbox, inbox_queue; simpl. rewrite Hco Ho /=. lia. Qed.

Lemma deliver_weight Ns A B s f :
  node_ok Ns B s → fr_actor f = GROUPS_ACTOR → is_delta (λ _, True) (fr_payload f) →
  node_weight (exec (inbound A f) s) = S (node_weight s).
Proof.
  intros Hn Hact Hd. destruct (inbound_delta Ns A B s f Hn Hact Hd) as (q & qu & item & Hm & Hqu & _ & _ & ->).
  destruct (inbox_put s q qu item Hm Hqu) as [_ Hi]. unfold node_weight at 1. rewrite Hi length_app /=.
  unfold node_weight. lia.
Qed.

Lemma handle_weight Ns B s :
  node_ok Ns B s → inbox s ≠ [] → S (node_weight (exec groups_turn s)) = node_weight s.
Proof.
  intros Hn Hne. destruct (groups_turn_delta Ns B s Hn Hne) as (q & qu & items & g & m & v & Hm & Hin & _ & _ & ->).
  unfold node_weight at 2. rewrite Hin /= length_fmap.
  unfold node_weight, inbox, inbox_queue. destruct v; simpl; rewrite Hm lookup_insert_eq /= length_fmap; lia.
Qed.

(** Every step of the propagation makes the cluster lighter. *)
Lemma internal_lighter Ns cl cl' : cluster_ok Ns cl → internal cl cl' → weight cl' < weight cl.
Proof.
  intros Hok Hstep. destruct Hstep as [A s j js HA Hj Hgj|A s co f rest HA Hco Hout|A B s f rest Hw HB|B s HB Hne].
  - pose proof (job_weight Ns A s j js (ok_nodes _ _ Hok A s HA) Hj Hgj).
    pose proof (weight_node cl A s (exec run_job s) HA). lia.
  - pose proof (out_weight s co f rest Hco Hout) as Ho. unfold transmit. set (s' := s <| _core := _ |>) in *.
    pose proof (weight_node cl A s s' HA) as Hwt. set (cl1 := cl <| nodes ::= <[A := s']> |>) in *. case_bool_decide.
    + pose proof (weight_wire cl1 A (fr_peer f) (wire cl A (fr_peer f) ++ [f])) as Hww.
      change (wire cl1 A (fr_peer f)) with (wire cl A (fr_peer f)) in Hww. rewrite length_app in Hww.
      cbn [length] in Hww. simpl in Hww |- *. lia.
    + change (weight cl1 < weight cl). lia.
  - pose proof (weight_wire cl A B rest) as Hww.
    assert (wire cl A B = f :: rest) as Hwire by (unfold wire; by rewrite Hw). rewrite Hwire in Hww. cbn [length] in Hww.
    set (cl1 := cl <| wires ::= <[(A, B) := rest]> |>) in *.
    pose proof (weight_node cl1 B s (exec (inbound A f) s) HB) as Hwt.
    destruct (ok_wires _ _ Hok A B f) as (_ & _ & _ & Hact & (g & m & v & Hm & _)); [rewrite Hwire; by left|].
    rewrite (deliver_weight Ns A B s f (ok_nodes _ _ Hok B s HB) Hact) in Hwt; [by exists g, m, v|]. lia.
  - pose proof (handle_weight Ns B s (ok_nodes _ _ Hok B s HB) Hne).
    pose proof (weight_node cl B s (exec groups_turn s) HB). lia.
Qed.

(** Only tasks of the groups are scheduled. *)
Definition only_groups (cl : cluster) : Prop :=
  ∀ A s j, nodes cl !! A = Some s → j ∈ jobs s → group_job j = true.

Lemma stuck_quiescent Ns cl :
  cluster_ok Ns cl → only_groups cl → (∀ cl', ¬ internal cl cl') → quiescent cl.
Proof.
  intros Hok Hog Hstuck. split.
  - intros A s HA. split_and!.
    + destruct (inbox s) as [|x l] eqn:E; [done|]. exfalso. eapply Hstuck. eapply int_handle; [exact HA|by rewrite E].
    + destruct (jobs s) as [|j js] eqn:E; [by intros j ?%elem_of_nil|]. exfalso. eapply Hstuck.
      eapply int_job; [exact HA|exact E|]. eapply Hog; [exact HA|]. rewrite E. by left.
    + intros co Hco. destruct (co_out co) as [|f rest] eqn:E; [done|]. exfalso. eapply Hstuck. by eapply int_transmit.
  - intros A B. destruct (wire cl A B) as [|f rest] eqn:E; [done|]. exfalso.
    destruct (ok_wires _ _ Hok A B f) as (_ & HB & _); [rewrite E; by left|].
    apply (ok_dom _ _ Hok) in HB as [s HB]. unfold wire in E.
    destruct (wires cl !! (A, B)) as [l|] eqn:El; simpl in E; [|done]. subst l.
    eapply Hstuck. by eapply int_deliver.
Qed.

(** Spreading what a node did changes nothing of its own about it. *)
Lemma internal_own Ns cl cl' :
  cluster_ok Ns cl → internal cl cl' → only_groups cl →
  only_groups cl' ∧
  ∀ A s s', nodes cl !! A = Some s → nodes cl' !! A = Some s' → agrees A s s'.
Proof.
  intros Hok Hstep Hog.
  assert (∀ X s s', nodes cl !! X = Some s → (∀ g n, is_member s g (X, n) ↔ is_member s' g (X, n)) → jobs s' ⊆ jobs s →
    (∀ A sA j, <[X := s']> (nodes cl) !! A = Some sA → j ∈ jobs sA → group_job j = true) ∧
    ∀ A sA sA', nodes cl !! A = Some sA → <[X := s']> (nodes cl) !! A = Some sA' → agrees A sA sA') as Hone.
  { intros X s s' HX Hm Hj. split.
    - intros A sA j. rewrite lookup_insert. case_decide; [intros [= <-] Hin; subst|by apply Hog]. by eapply Hog, Hj.
    - intros A sA sA' HA. rewrite lookup_insert. case_decide; [intros [= <-]; subst|by intros [= <-]%(eq_trans (eq_sym HA))].
      simplify_eq. exact Hm. }
  destruct Hstep as [A s j js HA Hj Hgj|A s co f rest HA Hco Hout|A B s f rest Hw HB|B s HB Hne].
  - destruct (run_group_job Ns A s j js (ok_nodes _ _ Hok A s HA) Hj Hgj) as (B & g & n & v & co & _ & _ & _ & Hco & ->).
    apply (Hone A s); [done..|]. simpl. rewrite Hj. set_solver.
  - by apply (Hone A s).
  - destruct (ok_wires _ _ Hok A B f) as (_ & _ & _ & Hact & Hd); [unfold wire; rewrite Hw; by left|].
    destruct (inbound_delta Ns A B s f (ok_nodes _ _ Hok B s HB) Hact) as (q & qu & item & _ & _ & _ & _ & ->);
      [by eapply is_delta_weaken1; [|exact Hd]|]. by apply (Hone B s).
  - destruct (groups_turn_delta Ns B s (ok_nodes _ _ Hok B s HB) Hne) as (q & qu & items & g & m & v & _ & _ & HmB & _ & ->).
    apply (Hone B s); [done| |by destruct v]. intros g' n. assert ((B, n) ≠ m) by (intros <-; done).
    destruct v; [rewrite is_member_add|rewrite is_member_discard]; naive_solver.
Qed.

(** (C16) What is under way arrives.  From any state of the cluster in which
    the scheduled tasks are those of the groups, and in whatever order tasks
    run, frames travel and handlers take their turns, the propagation ends:
    it takes at most [weight] steps, and where no step is left every node
    lists exactly the members that each node itself had when it began. *)
Theorem cluster_converges Ns cl n cl' :
  cluster_ok Ns cl → only_groups cl → nsteps internal n cl cl' →
  n ≤ weight cl ∧
  ((∀ cl'', ¬ internal cl' cl'') →
   ∀ A B sA sB g a, nodes cl !! A = Some sA → nodes cl' !! B = Some sB →
     (is_member sB g (A, a) ↔ is_member sA g (A, a))).
Proof.
  intros Hok Hog Hn.
  assert (cluster_ok Ns cl' ∧ only_groups cl' ∧ n + weight cl' ≤ weight cl ∧
    ∀ A s, nodes cl !! A = Some s → ∃ s', nodes cl' !! A = Some s' ∧ agrees A s s') as (Hok' & Hog' & Hw & Hown).
  { induction Hn as [cl|n cl cl1 cl' Hstep Hn IH].
    - split_and!; try done. intros A s HA. exists s. by split.
    - pose proof (internal_lighter Ns cl cl1 Hok Hstep).
      assert (cluster_ok Ns cl1) as Hok1 by (eapply cluster_step_ok; [by left|done]).
      destruct (internal_own Ns cl cl1 Hok Hstep Hog) as [Hog1 Hown1].
      destruct (IH Hok1 Hog1) as (H1 & H2 & H3 & H4). split_and!; [done|done|lia|]. intros A s HA.
      assert (is_Some (nodes cl1 !! A)) as [s1 HA1].
      { apply (ok_dom _ _ Hok1), (ok_dom _ _ Hok). eauto. }
      destruct (H4 A s1 HA1) as (s' & HA' & Hag). exists s'. split; [done|]. intros g a.
      rewrite (Hown1 A s s1 HA HA1 g a). apply Hag. }
  split; [lia|]. intros Hstuck A B sA sB g a HA HB.
  destruct (Hown A sA HA) as (sA' & HA' & Hag). rewrite (Hag g a). symmetry.
  by apply (quiescent_agrees Ns cl' A B sA' sB Hok' (stuck_quiescent _ _ Hok' Hog' Hstuck)).
Qed.

End cluster.
