(* ===== verification/GroupReconnect.v ===== *)
(** * Groups across lost and new connections

    Two nodes with [register_groups] whose connection is lost and made again,
    any number of times.  Each side hears of it through an event of its core,
    which reaches the event loop by another way than the messages do
    ([event_drain_loop] and [drain_loop] of [src/src/py/node.rs]); on the event
    it drops what it knows of the other side, or sends its snapshot.  The
    theorems say when the two tables find back to each other, and what happens
    when the events come late. *)

From S2P Require Import Prelude Values NodeId Actors State PeerEvents Asyncio Node NodeProps Links.
From S2P Require Import Groups Refs Runtime Cluster.

Inductive side := L | R.

#[export] Instance side_eq_dec : EqDecision side.
Proof. solve_decision. Defined.

Definition flip (X : side) : side := match X with L => R | R => L end.

(** [f] with another value at [X]. *)
Definition put {T} (X : side) (v : T) (f : side → T) : side → T := λ Y, if bool_decide (Y = X) then v else f Y.

(** Who is left when a peer's members are dropped. *)
Lemma dropped_member p s g m :
  is_member (s <| _groups ::= fmap (filter (λ m : member, m.1 ≠ p)) |>) g m ↔ is_member s g m ∧ m.1 ≠ p.
Proof.
  unfold is_member. cbn. rewrite lookup_fmap. destruct (_groups s !! g) as [ms|]; cbn; [|naive_solver]. split.
  - intros (ms' & [= <-] & Hm). apply elem_of_filter in Hm as [? ?]. split; [by exists ms|done].
  - intros [(ms' & [= <-] & Hm) Hp]. eexists. split; [done|]. by apply elem_of_filter.
Qed.

Section reconnect.
Context {codec : PayloadCodec} (id : side → string).

(** The nodes, the wires from each of them, the events that their loops have
    not seen yet, and whether the connection is there. *)
Record duo := Duo { dn : side → st; dw : side → list frame; de : side → list event; linked : bool }.

#[export] Instance duo_settable : Settable duo := λ r, Duo (dn r) (dw r) (de r) (linked r).

(** The core loses its peer, with what it had queued for it; or gets it. *)
Definition core_cut (co : core_t) : core_t := co <| co_peers := ∅ |> <| co_out := [] |>.
Definition core_join (peer : string) (co : core_t) : core_t := co <| co_peers := {[peer]} |>.
Definition on_core (f : core_t → core_t) (s : st) : st := s <| _core ::= fmap f |>.

Inductive label :=
| LOp (X : side) (o : group_op)       (* an actor joins, leaves or ends *)
| LJob (X : side)                     (* a task of the groups runs *)
| LTransmit (X : side) | LDeliver (X : side)
| LHandle (X : side)                  (* a turn of the reserved actor *)
| LEvent (X : side)                   (* the loop sees an event *)
| LDrop | LConnect.

Definition duo_step (l : label) (d : duo) : option duo :=
  let upd X s := d <| dn ::= put X s |> in
  match l with
  | LOp X o => Some (upd X (run_group_op o (dn d X)))
  | LJob X =>
      match jobs (dn d X) with
      | j :: _ => if group_job j then Some (upd X (exec run_job (dn d X))) else None
      | [] => None
      end
  | LTransmit X =>
      match _core (dn d X) with
      | Some co =>
          match co_out co with
          | f :: rest =>
              Some ((upd X (on_core (λ co, co <| co_out := rest |>) (dn d X))) <| dw ::= put X (dw d X ++ [f]) |>)
          | [] => None
          end
      | None => None
      end
  | LDeliver X =>
      match dw d X with
      | f :: rest => Some ((upd (flip X) (exec (inbound (id X) f) (dn d (flip X)))) <| dw ::= put X rest |>)
      | [] => None
      end
  | LHandle X => if bool_decide (inbox (dn d X) = []) then None else Some (upd X (exec groups_turn (dn d X)))
  | LEvent X =>
      match de d X with
      | ev :: rest => Some ((upd X (exec (_on_core_event ev) (dn d X))) <| de ::= put X rest |>)
      | [] => None
      end
  | LDrop =>
      if linked d
      then Some (Duo (λ X, on_core core_cut (dn d X)) (λ _, [])
                     (λ X, de d X ++ [EvPeerDisconnected (id (flip X))]) false)
      else None
  | LConnect =>
      if linked d then None
      else Some (Duo (λ X, on_core (core_join (id (flip X))) (dn d X)) (λ _, [])
                     (λ X, de d X ++ [EvPeerConnected (id (flip X))]) true)
  end.

Definition is_snapshot_job (j : job) : bool := match j with JGroupSnapshot _ => true | _ => false end.
Definition is_connect (ev : event) : bool := match ev with EvPeerConnected _ => true | _ => false end.
Definition is_disconnect (ev : event) : bool := match ev with EvPeerDisconnected _ => true | _ => false end.

(** No group takes the name that the codec reserves. *)
Definition allowed (o : group_op) : bool :=
  match o with GJoin g _ => negb (bool_decide (g = RESERVED)) | _ => true end.

(** Events seen in time: a loop sees an event when the tasks scheduled before
    it have run, and a loss when the mail of the lost connection is handled;
    mail of a new connection is handled when the loop has seen it and sent its
    snapshot; and a connection is made again only when both loops have seen
    the loss of the last one. *)
Definition in_time (d : duo) (l : label) : bool :=
  match l with
  | LOp X o => allowed o
  | LEvent X =>
      match de d X with
      | ev :: _ => bool_decide (jobs (dn d X) = []) && (negb (is_disconnect ev) || bool_decide (inbox (dn d X) = []))
      | [] => true
      end
  | LHandle X => negb (existsb is_connect (de d X)) && negb (existsb is_snapshot_job (jobs (dn d X)))
  | LConnect => bool_decide (de d L = []) && bool_decide (de d R = [])
  | _ => true
  end.

Definition timely (d d' : duo) : Prop := ∃ l, in_time d l = true ∧ duo_step l d = Some d'.

Fixpoint run_duo (ls : list label) (d : duo) : option duo :=
  match ls with
  | [] => Some d
  | l :: ls => match duo_step l d with Some d' => run_duo ls d' | None => None end
  end.

(** ** Only the table changes *)

Definition same_but_groups (s s' : st) : Prop := s <| _groups := ∅ |> = s' <| _groups := ∅ |>.

#[export] Instance same_but_groups_equiv : Equivalence same_but_groups.
Proof. unfold same_but_groups. split; red; intros; congruence. Qed.

Lemma for_each_frame {T} (body : T → M st unit) xs s :
  (∀ x s, same_but_groups s (exec (body x) s)) → same_but_groups s (exec (for_each xs body) s).
Proof.
  intros Hb. apply (for_each_invariant (same_but_groups s)); [|done]. intros x s' Hs. by etrans; [|apply Hb].
Qed.

Lemma groups_receive_frame msg s : same_but_groups s (exec (groups_actor_receive msg) s).
Proof.
  unfold groups_actor_receive, exec. cbn [bind lift]. destruct (getitem msg "op") as [|op]; [done|].
  destruct (is_str op "delta").
  - cbn [bind lift]. destruct (getitem msg "member") as [|mv]; [done|]. destruct (as_pair mv) as [|m]; [done|].
    destruct (getitem msg "group") as [|gv]; [done|]. destruct (as_str gv) as [|g]; [done|].
    destruct (getitem msg "verb") as [|v]; [done|]. by destruct (is_str v "join").
  - destruct (is_str op "snapshot"); [|done]. cbn [bind lift]. destruct (getitem msg "groups") as [|gv]; [done|].
    destruct (as_items gv) as [|kvs]; [done|]. apply for_each_frame. clear. intros [g v] s. unfold add_snapshot_group, exec.
    cbn [bind modify lift fst snd]. destruct (as_list v) as [|ms]; [done|].
    etrans; [|apply for_each_frame]; [done|]. intros x s'. unfold exec. cbn [bind lift]. by destruct (as_pair x).
Qed.

(** ** Messages about one's own members *)

Definition own_message (X : side) (msg : pyval) : Prop :=
  is_delta (λ m, m.1 = id X) msg ∨
  ∃ sC, msg = group_snapshot_message sC ∧ ∀ g m, is_member sC g m → g ≠ RESERVED ∧ m.1 = id X.

(** They cross the wire as they are, as long as no group has the name that the
    codec reserves: group names are the keys of a snapshot. *)
Lemma snapshot_plain sC :
  (∀ g m, is_member sC g m → g ≠ RESERVED) →
  plain (group_snapshot_message sC) = true ∧ wire_safe (group_snapshot_message sC) = true.
Proof.
  intros Hg.
  assert (∀ kvs : list (string * gset member), (∀ g ms, (g, ms) ∈ kvs → g ≠ RESERVED) →
    let d := (λ gm : string * gset member, (gm.1, PList (pair_list <$> elements gm.2))) <$> kvs in
    assoc RESERVED d = None ∧ forallb (λ kv, plain kv.2) d = true ∧ forallb (λ kv, wire_safe kv.2) d = true) as Hd.
  { assert (∀ ms : list member, forallb plain (pair_list <$> ms) = true ∧ forallb wire_safe (pair_list <$> ms) = true) as Hp.
    { induction ms as [|m ms [IH1 IH2]]; [done|]. cbn. by rewrite IH1 IH2. }
    induction kvs as [|[g ms] kvs IH]; intros Hk; [done|]. destruct IH as (I1 & I2 & I3); [intros; eapply Hk; by right|].
    cbn [fmap list_fmap assoc forallb fst snd]. rewrite bool_decide_eq_false_2; [eapply Hk; by left|].
    destruct (Hp (elements ms)) as [P1 P2]. cbn [plain wire_safe]. by rewrite I1 I2 I3 P1 P2. }
  unfold group_snapshot_message, group_snapshot.
  destruct (Hd (filter (λ gm : string * gset member, gm.2 ≠ ∅) (map_to_list (_groups sC)))) as (D1 & D2 & D3).
  { intros g ms [Hne Hin]%list_elem_of_filter. apply elem_of_map_to_list in Hin. cbn in Hne.
    apply set_choose_L in Hne as [m Hm]. eapply Hg. by exists ms. }
  cbn [plain wire_safe forallb fst snd]. rewrite D1 D2 D3. done.
Qed.

Lemma own_plain X msg : own_message X msg → plain msg = true.
Proof. intros [Hd|(sC & -> & HC)]; [by eapply is_delta_plain|]. apply snapshot_plain. intros g m Hm. by apply HC in Hm as [? _]. Qed.

(** Whether [m] is a member afterwards depends only on whether it was, and
    stays as it was for a member of another node. *)
Lemma own_pointwise X msg g m s s' :
  own_message X msg → (is_member s g m ↔ is_member s' g m) →
  (is_member (exec (groups_actor_receive msg) s) g m ↔ is_member (exec (groups_actor_receive msg) s') g m).
Proof.
  intros [(g0 & m0 & v & -> & _)|(sC & -> & _)] Hs.
  - rewrite !receive_delta_member. destruct v; by rewrite Hs.
  - destruct (receive_snapshot_union sC s) as (s1 & H1 & E1). destruct (receive_snapshot_union sC s') as (s2 & H2 & E2).
    unfold exec. rewrite H1 H2 /= E1 E2. by rewrite Hs.
Qed.

Lemma own_elsewhere X msg g m s :
  own_message X msg → m.1 ≠ id X → (is_member (exec (groups_actor_receive msg) s) g m ↔ is_member s g m).
Proof.
  intros [(g0 & m0 & v & -> & Hm0)|(sC & -> & HC)] Hm.
  - rewrite receive_delta_member. assert (m ≠ m0) by congruence. destruct v; naive_solver.
  - destruct (receive_snapshot_union sC s) as (s1 & H1 & E1). unfold exec. rewrite H1 /= E1.
    split; [intros [?|Hc]; [done|]|by left]. by apply HC in Hc as [_ ?].
Qed.

Lemma receive_own_pointwise X msgs g m : Forall (own_message X) msgs → ∀ s s',
  (is_member s g m ↔ is_member s' g m) → (is_member (receive_all msgs s) g m ↔ is_member (receive_all msgs s') g m).
Proof.
  induction 1 as [|msg msgs Hm _ IH]; intros s s' Hs; [done|]. cbn [receive_all]. by apply IH, (own_pointwise X).
Qed.

(** ** The invariant *)

(** Where a node is between two connections: without one, with a new one it has
    not seen, with one it has, with the loss of one not yet seen, or with
    neither the connection nor its loss seen. *)
Inductive phase := Off | Fresh | On | Leaving | FreshLeaving.

Definition phase_events (X : side) (ph : phase) : list event :=
  match ph with
  | Off | On => []
  | Fresh => [EvPeerConnected (id (flip X))]
  | Leaving => [EvPeerDisconnected (id (flip X))]
  | FreshLeaving => [EvPeerConnected (id (flip X)); EvPeerDisconnected (id (flip X))]
  end.

Definition phase_up (ph : phase) : bool := match ph with On | Fresh => true | _ => false end.
(** Whether it counts the other side among its peers. *)
Definition listens (ph : phase) : bool := match ph with On | Leaving => true | _ => false end.

(** A change of an own member: group, name, and whether it was added. *)
Abbreviation change := (string * string * verb)%type.

Definition change_message (X : side) (c : change) : pyval := group_delta_message c.1.1 (id X, c.1.2) c.2.
Definition change_job (X : side) (c : change) : job := JGroupDelta (id (flip X)) c.1.1 (id X, c.1.2) c.2.

Definition no_members (X : side) (s : st) : Prop := ∀ g n, ¬ is_member s g (id X, n).
Definition outs (s : st) : list pyval := match _core s with Some co => fr_payload <$> co_out co | None => [] end.
Definition own_frame (X : side) (f : frame) : Prop :=
  fr_peer f = id (flip X) ∧ fr_actor f = GROUPS_ACTOR ∧ own_message X (fr_payload f).

(** A node that only the groups use. *)
Record conf (X : side) (up : bool) (s : st) : Prop := {
  cf_core : ∃ co, _core s = Some co ∧ co_running co = true ∧ co_local co = id X ∧ (∀ p v, co_refuses co p v = None) ∧
              co_peers co = (if up then {[id (flip X)]} else ∅) ∧ Forall (own_frame X) (co_out co);
  cf_hook : _group_leave_hook s = true;
  cf_inbox : ∃ qu, inbox_queue s = Some qu ∧ q_maxsize qu = 0;
  cf_listeners : _event_listeners s = [LGroups];
  cf_other : _links s = ∅ ∧ _monitors s = ∅ ∧ _monitor_watchers s = ∅ ∧ _peer_waiters s = ∅
}.

(** One node: with a snapshot to send or not ([snap]), and the changes
    scheduled behind it. *)
Record side_ok (X : side) (ph : phase) (snap : bool) (cs : list change) (s : st) : Prop := {
  so_conf : conf X (phase_up ph) s;
  so_peers : _group_peers s = Some (if listens ph then {[id (flip X)]} else ∅);
  so_jobs : jobs s = (if snap then [JGroupSnapshot (id (flip X))] else []) ++ (change_job X <$> cs);
  so_idle : listens ph = false → snap = false ∧ cs = [];
  so_none : listens ph = false ∨ snap = true → no_members (flip X) s;
  so_off : ph = Off → inbox s = [];
  so_members : ∀ g m, is_member s g m → (m.1 = id X ∧ g ≠ RESERVED) ∨ m.1 = id (flip X);
  so_mail : Forall (own_message (flip X)) (inbox s)
}.

(** What the other side knows of [X]'s members. *)
Definition dir_ok (X : side) (ph : phase) (snap : bool) (cs : list change) (s : st) (w : list frame) (s' : st) : Prop :=
  Forall (own_frame X) w ∧
  match ph with
  | Off | Leaving | FreshLeaving => w = [] ∧ outs s = []
  | Fresh => w = [] ∧ outs s = [] ∧ inbox s' = [] ∧ no_members X s'
  | On =>
      if snap then w = [] ∧ outs s = [] ∧ inbox s' = [] ∧ no_members X s' ∧
                   agrees (id X) s (receive_all (change_message X <$> cs) s)
      else agrees (id X) s (receive_all (inbox s' ++ (fr_payload <$> w) ++ outs s ++ (change_message X <$> cs)) s')
  end.

Definition duo_ok (d : duo) : Prop :=
  ∃ (ph : side → phase) (snap : side → bool) (cs : side → list change),
    (∀ X, de d X = phase_events X (ph X) ∧ linked d = phase_up (ph X)) ∧
    (∀ X, side_ok X (ph X) (snap X) (cs X) (dn d X)) ∧
    (∀ X, dir_ok X (ph X) (snap X) (cs X) (dn d X) (dw d X) (dn d (flip X))).

Hypothesis Hids : id L ≠ id R.
Hypothesis Hcanon : ∀ X, canonical (id X) = inr (id X).

Lemma flip_flip X : flip (flip X) = X.
Proof. by destruct X. Qed.

Lemma flip_ne X : flip X ≠ X.
Proof. by destruct X. Qed.

Lemma id_flip X : id (flip X) ≠ id X.
Proof. destruct X; simpl; congruence. Qed.

Lemma put_eq {T} X (v : T) f : put X v f X = v.
Proof. unfold put. by rewrite bool_decide_eq_true_2. Qed.

Lemma put_flip {T} X (v : T) f : put X v f (flip X) = f (flip X).
Proof. unfold put. rewrite bool_decide_eq_false_2; [apply flip_ne|done]. Qed.

(** A property of both sides, from the two of them. *)
Lemma both (P : side → Prop) X : P X → P (flip X) → ∀ Y, P Y.
Proof. by destruct X; intros ? ? []. Qed.

(** A step of one node, seen from both sides. *)
Lemma duo_ok_update d d' ph snap cs X ph' snap' cs' :
  (∀ Y, de d Y = phase_events Y (ph Y) ∧ linked d = phase_up (ph Y)) →
  (∀ Y, side_ok Y (ph Y) (snap Y) (cs Y) (dn d Y)) →
  dn d' (flip X) = dn d (flip X) → de d' (flip X) = de d (flip X) → linked d' = linked d →
  de d' X = phase_events X ph' → phase_up ph' = phase_up (ph X) →
  side_ok X ph' snap' cs' (dn d' X) →
  dir_ok X ph' snap' cs' (dn d' X) (dw d' X) (dn d (flip X)) →
  dir_ok (flip X) (ph (flip X)) (snap (flip X)) (cs (flip X)) (dn d (flip X)) (dw d' (flip X)) (dn d' X) →
  duo_ok d'.
Proof.
  intros He Hs Hn Hef Hl He' Hup Hs' Hd1 Hd2. exists (put X ph' ph), (put X snap' snap), (put X cs' cs). cbn. split_and!.
  - apply (both _ X); rewrite ?put_eq ?put_flip Hl ?Hef; [|apply He]. destruct (He X) as [_ ->]. by rewrite He' Hup.
  - apply (both _ X); rewrite ?put_eq ?put_flip ?Hn; [done|apply Hs].
  - apply (both _ X); rewrite ?flip_flip ?put_eq ?put_flip ?Hn; done.
Qed.

(** *** An actor joins, leaves or ends *)

Definition op_changes (X : side) (s : st) (o : group_op) : list change :=
  match o with
  | GJoin g n => [(g, n, VAdd)]
  | GLeave g n => [(g, n, VRemove)]
  | GClear n => (λ g, (g, n, VRemove)) <$> groups_of s (id X, n)
  end.

Lemma op_changes_deltas X s o : change_message X <$> op_changes X s o = op_deltas (id X) s o.
Proof. destruct o as [g n|g n|n]; cbn; [done..|]. by rewrite -list_fmap_compose. Qed.

(** Its effect: own members, and the tasks when there is a peer. *)
Lemma op_effect X ph o s :
  local_id s = id X → _group_leave_hook s = true →
  _group_peers s = Some (if listens ph then {[id (flip X)]} else ∅) →
  let s' := run_group_op o s in
  jobs s' = jobs s ++ (if listens ph then change_job X <$> op_changes X s o else []) ∧
  s' <| _groups := ∅ |> <| jobs := [] |> = s <| _groups := ∅ |> <| jobs := [] |> ∧
  agrees (id X) s' (receive_all (op_deltas (id X) s o) s) ∧
  (∀ g m, m.1 ≠ id X → (is_member s' g m ↔ is_member s g m)) ∧
  (allowed o = true → ∀ g m, is_member s' g m → g ≠ RESERVED ∨ is_member s g m).
Proof.
  intros Hl Hh Hp s'. assert (agrees (id X) s' (receive_all (op_deltas (id X) s o) s)) as Hag
    by (apply group_op_agrees; done).
  assert (∀ mk : string → job, delta_jobs (_group_peers s) mk = if listens ph then [mk (id (flip X))] else []) as Hdj.
  { intros mk. rewrite Hp. destruct (listens ph); cbn; [by rewrite elements_singleton|by rewrite elements_empty]. }
  split; [|split; [|split; [done|split]]].
  - unfold s'. destruct o as [g n|g n|n]; cbn [run_group_op].
    + unfold join_group, exec. cbn [group_me ret bind get modify]. rewrite group_broadcast_spec Hl. cbn. rewrite Hdj. by destruct (listens ph).
    + unfold leave_group, exec. cbn [group_me ret bind get modify]. rewrite group_broadcast_spec Hl. cbn. rewrite Hdj. by destruct (listens ph).
    + unfold exec. rewrite clear_groups_spec Hl. cbn. unfold leave_jobs. rewrite Hh. f_equal.
      induction (groups_of s (id X, n)) as [|g gs IH]; [by destruct (listens ph)|]. rewrite bind_cons Hdj IH. by destruct (listens ph).
  - unfold s'. destruct o as [g n|g n|n]; cbn [run_group_op].
    + unfold join_group, exec. cbn [group_me ret bind get modify]. by rewrite group_broadcast_spec.
    + unfold leave_group, exec. cbn [group_me ret bind get modify]. by rewrite group_broadcast_spec.
    + unfold exec. by rewrite clear_groups_spec.
  - intros g m Hm. unfold s'. destruct o as [g' n|g' n|n]; cbn [run_group_op].
    + unfold join_group, exec. cbn [group_me ret bind get modify]. rewrite group_broadcast_spec Hl.
      change (is_member (add_member g' (id X, n) s) g m ↔ is_member s g m). rewrite is_member_add. naive_solver.
    + unfold leave_group, exec. cbn [group_me ret bind get modify]. rewrite group_broadcast_spec Hl.
      change (is_member (discard_member g' (id X, n) s) g m ↔ is_member s g m). rewrite is_member_discard. naive_solver.
    + unfold exec. rewrite clear_groups_spec Hl. unfold is_member; cbn. rewrite lookup_fmap.
      destruct (_groups s !! g) as [ms|]; cbn; [|naive_solver]. split; intros (ms' & [= <-] & ?); (eexists; split; [done|]; set_solver).
  - intros Hal g m. unfold s'. destruct o as [g' n|g' n|n]; cbn [run_group_op].
    + unfold join_group, exec. cbn [group_me ret bind get modify]. rewrite group_broadcast_spec.
      change (is_member (add_member g' (local_id s, n) s) g m → g ≠ RESERVED ∨ is_member s g m). rewrite is_member_add.
      intros [[-> ->]|?]; [left|by right]. cbn in Hal. by case_bool_decide.
    + unfold leave_group, exec. cbn [group_me ret bind get modify]. rewrite group_broadcast_spec.
      change (is_member (discard_member g' (local_id s, n) s) g m → g ≠ RESERVED ∨ is_member s g m). rewrite is_member_discard. naive_solver.
    + unfold exec. rewrite clear_groups_spec. unfold is_member; cbn. rewrite lookup_fmap.
      destruct (_groups s !! g) as [ms|]; cbn; [|naive_solver]. intros (ms' & [= <-] & ?). right. exists ms. set_solver.
Qed.

(** What does not depend on the table and the scheduled tasks. *)
Definition rest (s : st) : st := s <| _groups := ∅ |> <| jobs := [] |>.

Lemma rest_same X up s s' :
  rest s' = rest s → conf X up s →
  conf X up s' ∧ inbox s' = inbox s ∧ outs s' = outs s ∧ _group_peers s' = _group_peers s.
Proof.
  intros Hr [C1 C2 C3 C4 C5].
  assert (_core s' = _core s) as E1 by exact (f_equal _core Hr).
  assert (inbox_queue s' = inbox_queue s) as E2.
  { unfold inbox_queue. rewrite (f_equal _mailboxes Hr : _mailboxes s' = _mailboxes s).
    by rewrite (f_equal queues Hr : queues s' = queues s). }
  split_and!.
  - split; [by rewrite E1| |by rewrite E2| |].
    + by rewrite (f_equal _group_leave_hook Hr : _group_leave_hook s' = _group_leave_hook s).
    + by rewrite (f_equal _event_listeners Hr : _event_listeners s' = _event_listeners s).
    + rewrite (f_equal _links Hr : _links s' = _links s) (f_equal _monitors Hr : _monitors s' = _monitors s).
      rewrite (f_equal _monitor_watchers Hr : _monitor_watchers s' = _monitor_watchers s).
      by rewrite (f_equal _peer_waiters Hr : _peer_waiters s' = _peer_waiters s).
  - unfold inbox. by rewrite E2.
  - unfold outs. by rewrite E1.
  - exact (f_equal _group_peers Hr).
Qed.

Lemma conf_local X up s : conf X up s → local_id s = id X.
Proof. intros [(co & Hco & _ & Hl & _) _ _ _ _]. unfold local_id. by rewrite Hco. Qed.

Lemma changes_own X cs : Forall (own_message X) (change_message X <$> cs).
Proof.
  apply Forall_fmap, list.Forall_forall. intros [[g n] v] _. left. exists g, (id X, n), v. done.
Qed.

Lemma own_frames_payloads X fs : Forall (own_frame X) fs → Forall (own_message X) (fr_payload <$> fs).
Proof. intros H. apply Forall_fmap. eapply list.Forall_impl; [exact H|]. by intros f (_ & _ & ?). Qed.

Lemma outs_own X up s : conf X up s → Forall (own_message X) (outs s).
Proof. intros [(co & Hco & _ & _ & _ & _ & Ho) _ _ _ _]. unfold outs. rewrite Hco. by apply own_frames_payloads. Qed.

(** A sequence of changes decides whether somebody is a member, or says nothing
    about it. *)
Lemma changes_decide X cs g m :
  (∀ s s', is_member (receive_all (change_message X <$> cs) s) g m ↔ is_member (receive_all (change_message X <$> cs) s') g m) ∨
  (∀ s, is_member (receive_all (change_message X <$> cs) s) g m ↔ is_member s g m).
Proof.
  induction cs as [|[[g0 n0] v] cs IH]; [by right|]. cbn [fmap list_fmap receive_all]. unfold change_message at 1 3 5. cbn [fst snd].
  destruct IH as [IH|IH]; [left; intros s s'; apply IH|].
  destruct (decide (g = g0 ∧ m = (id X, n0))) as [[-> ->]|Hne].
  - left. intros s s'. rewrite !IH !receive_delta_member. destruct v; naive_solver.
  - right. intros s. rewrite IH receive_delta_member. destruct v; naive_solver.
Qed.

Lemma changes_agree X s s' cs o :
  agrees (id X) (run_group_op o s) (receive_all (op_deltas (id X) s o) s) → agrees (id X) s (receive_all cs s') →
  agrees (id X) (run_group_op o s) (receive_all (cs ++ op_deltas (id X) s o) s').
Proof.
  intros Hop Hag g n. rewrite receive_all_app (Hop g n).
  apply (receive_own_pointwise X); [|apply Hag]. rewrite -op_changes_deltas. apply changes_own.
Qed.

(** The scheduled changes, made once more, change nothing. *)
Lemma changes_again X s cs o :
  agrees (id X) (run_group_op o s) (receive_all (op_deltas (id X) s o) s) →
  agrees (id X) s (receive_all (change_message X <$> cs) s) →
  agrees (id X) (run_group_op o s) (receive_all (change_message X <$> cs ++ op_changes X s o) (run_group_op o s)).
Proof.
  intros Hop Hag g n. rewrite fmap_app receive_all_app. rewrite -op_changes_deltas in Hop.
  destruct (changes_decide X (op_changes X s o) g (id X, n)) as [Hd|Hd].
  - rewrite (Hop g n). apply Hd.
  - rewrite Hd. assert (is_member (run_group_op o s) g (id X, n) ↔ is_member s g (id X, n)) as Hsame by (by rewrite (Hop g n) Hd).
    rewrite Hsame (Hag g n). apply (receive_own_pointwise X); [apply changes_own|done].
Qed.

Lemma dir_ok_viewer X ph snap cs s w s1 s2 :
  Forall (own_message X) (inbox s1 ++ (fr_payload <$> w) ++ outs s ++ (change_message X <$> cs)) →
  inbox s2 = inbox s1 → (∀ g n, is_member s2 g (id X, n) ↔ is_member s1 g (id X, n)) →
  dir_ok X ph snap cs s w s1 → dir_ok X ph snap cs s w s2.
Proof.
  intros Hown Hi Hm [Hw Hd]. split; [done|].
  assert (no_members X s1 → no_members X s2) as Hnm by (intros H g n; rewrite Hm; apply H).
  destruct ph; try done; [rewrite Hi; naive_solver|]. destruct snap; [rewrite Hi; naive_solver|].
  intros g n. rewrite (Hd g n) Hi. by apply (receive_own_pointwise X).
Qed.

Lemma dir_ok_sender X ph snap cs s1 s2 w s' :
  outs s2 = outs s1 → (∀ g n, is_member s2 g (id X, n) ↔ is_member s1 g (id X, n)) →
  dir_ok X ph snap cs s1 w s' → dir_ok X ph snap cs s2 w s'.
Proof.
  intros Ho Hm [Hw Hd]. split; [done|]. rewrite Ho. destruct ph; try done. destruct snap.
  - destruct Hd as (? & ? & ? & ? & Hag). split_and!; try done. intros g n. rewrite Hm (Hag g n).
    apply (receive_own_pointwise X); [apply changes_own|by rewrite Hm].
  - intros g n. by rewrite Hm.
Qed.

(** Everything that is on its way from [X], with the mail it gets to. *)
Lemma way_own X d ph snap cs :
  (∀ Y, side_ok Y (ph Y) (snap Y) (cs Y) (dn d Y)) →
  dir_ok X (ph X) (snap X) (cs X) (dn d X) (dw d X) (dn d (flip X)) →
  Forall (own_message X) (inbox (dn d (flip X)) ++ (fr_payload <$> dw d X) ++ outs (dn d X) ++ (change_message X <$> cs X)).
Proof.
  intros Hs [Hw _]. rewrite !Forall_app. split_and!; [|by apply own_frames_payloads|by eapply outs_own, Hs|apply changes_own].
  rewrite -{1}(flip_flip X). apply Hs.
Qed.

(** A step of [X] that leaves its mail and what it knows of the other side. *)
Lemma viewer_same X d ph snap cs s' :
  (∀ Y, side_ok Y (ph Y) (snap Y) (cs Y) (dn d Y)) →
  (∀ Y, dir_ok Y (ph Y) (snap Y) (cs Y) (dn d Y) (dw d Y) (dn d (flip Y))) →
  inbox s' = inbox (dn d X) → (∀ g n, is_member s' g (id (flip X), n) ↔ is_member (dn d X) g (id (flip X), n)) →
  dir_ok (flip X) (ph (flip X)) (snap (flip X)) (cs (flip X)) (dn d (flip X)) (dw d (flip X)) s'.
Proof.
  intros Hs Hd Hi Hm. pose proof (way_own (flip X) d ph snap cs Hs (Hd (flip X))) as Hown. pose proof (Hd (flip X)) as Hdf.
  rewrite flip_flip in Hown, Hdf. by eapply dir_ok_viewer.
Qed.

Lemma op_step d X o : allowed o = true → duo_ok d → duo_ok (d <| dn ::= put X (run_group_op o (dn d X)) |>).
Proof.
  intros Hal (ph & snap & cs & He & Hs & Hd). set (s := dn d X). pose proof (Hs X) as [S1 S2 S3 S4 S5 S6 S7 S8]. fold s in S1, S2, S3, S5, S6, S7, S8.
  destruct (op_effect X (ph X) o s (conf_local _ _ _ S1) (cf_hook _ _ _ S1) S2) as (Hj & Hrest & Hag & Helse & Hres).
  destruct (rest_same X (phase_up (ph X)) s (run_group_op o s)) as (Hcf & Hib & Hout & Hpe); [exact Hrest|done|].
  set (s' := run_group_op o s) in *.
  assert (∀ g n, is_member s' g (id (flip X), n) ↔ is_member s g (id (flip X), n)) as Hother.
  { intros g n. apply Helse. apply id_flip. }
  set (cs' := cs X ++ (if listens (ph X) then op_changes X s o else [])).
  eapply (duo_ok_update d _ ph snap cs X (ph X) (snap X) cs'); try done; cbn; rewrite ?put_eq ?put_flip; try done; [apply He|..].
  - split; rewrite ?Hpe ?Hib //.
    + rewrite Hj S3 -app_assoc. f_equal. unfold cs'. rewrite fmap_app. by destruct (listens (ph X)).
    + intros Hl. destruct (S4 Hl) as [? Hc]. unfold cs'. by rewrite Hc Hl.
    + intros H g n. rewrite Hother. by apply S5.
    + intros g m Hm. destruct (decide (m.1 = id X)) as [E|E]; [|apply (S7 g m); by apply Helse].
      destruct (Hres Hal g m Hm) as [?|?%S7]; [by left|done].
  - destruct (Hd X) as [Hw Hph]. split; [done|]. unfold cs'. fold s in Hph. destruct (ph X) eqn:Eph; cbn [listens] in *; rewrite ?Hout //.
    destruct (snap X).
    + destruct Hph as (H1 & H2 & H3 & H4 & H5). split_and!; try done. by apply changes_again.
    + rewrite fmap_app op_changes_deltas. rewrite !app_assoc. apply changes_agree; [done|]. by rewrite -!app_assoc.
  - by eapply viewer_same.
Qed.

(** *** A task of the groups runs *)

(** A best-effort send: a frame while the connection is there, nothing without. *)
Lemma conf_send X up s msg :
  conf X up s → own_message X msg → wire_safe msg = true →
  ∃ s', send_best_effort (id (flip X)) GROUPS_ACTOR msg s = (inr tt, s') ∧ conf X up s' ∧
    outs s' = outs s ++ (if up then [msg] else []) ∧ s' <| _core := None |> = s <| _core := None |>.
Proof.
  intros [(co & Hco & Hrun & Hl & Href & Hps & Hout) C2 C3 C4 C5] Hown Hsafe. pose proof (own_plain X msg Hown) as Hp.
  unfold send_best_effort, try_except. destruct up.
  - rewrite (send_remote_ok (id (flip X)) _ _ _ _ s co) //; [split; [apply Hcanon|rewrite Hps; set_solver]|].
    eexists. split; [done|]. split_and!; try done.
    + split; try done. eexists. split; [done|]. split_and!; try done. cbn. apply Forall_app. split; [done|].
      constructor; [|done]. by split_and!.
    + unfold outs. cbn. by rewrite Hco fmap_app.
  - unfold _send_remote. cbn [bind get]. rewrite Hco encode_plain //.
    rewrite (with_core_run _ _ co) // /core_send_data /= Hcanon wire_transfer_safe //= /core_require /= Hrun /= Href /= Hps.
    rewrite bool_decide_eq_false_2; [set_solver|]. eexists. split; [done|]. split_and!; try done.
    + split; try done. eexists. split; [done|]. by split_and!.
    + unfold outs. cbn. by rewrite Hco app_nil_r.
Qed.

Lemma no_core_same s s' :
  s' <| _core := None |> = s <| _core := None |> →
  inbox s' = inbox s ∧ (∀ g m, is_member s' g m ↔ is_member s g m) ∧ _group_peers s' = _group_peers s ∧ jobs s' = jobs s.
Proof.
  intros H. split_and!.
  - unfold inbox, inbox_queue. rewrite (f_equal _mailboxes H : _mailboxes s' = _mailboxes s).
    by rewrite (f_equal queues H : queues s' = queues s).
  - intros g m. unfold is_member. by rewrite (f_equal _groups H : _groups s' = _groups s).
  - exact (f_equal _group_peers H).
  - exact (f_equal jobs H).
Qed.

(** The message of a scheduled task, if it sends one. *)
Definition job_messages (X : side) (snap : bool) (cs : list change) (s : st) : list pyval :=
  if snap then (if bool_decide (group_snapshot s = []) then [] else [group_snapshot_message s])
  else match cs with c :: _ => [change_message X c] | [] => [] end.

Lemma job_runs X ph snap cs s :
  side_ok X ph snap cs s → snap = true ∨ cs ≠ [] →
  ∃ s', exec run_job s = s' ∧ side_ok X ph false (if snap then cs else tail cs) s' ∧
    outs s' = outs s ++ (if phase_up ph then job_messages X snap cs s else []) ∧
    inbox s' = inbox s ∧ ∀ g m, is_member s' g m ↔ is_member s g m.
Proof.
  intros [S1 S2 S3 S4 S5 S6 S7 S8] Hne. eexists. split; [done|].
  assert (∃ js, jobs s = (if snap then JGroupSnapshot (id (flip X)) else change_job X (hd ("", "", VAdd) cs)) :: js ∧
                js = change_job X <$> (if snap then cs else tail cs)) as (js & Hj & Hjs).
  { rewrite S3. destruct snap; [by eexists|]. destruct cs as [|c cs]; [by destruct Hne|]. by eexists. }
  set (s0 := s <| jobs := js |>).
  assert (conf X (phase_up ph) s0 ∧ inbox s0 = inbox s ∧ outs s0 = outs s ∧ _group_peers s0 = _group_peers s) as (C0 & I0 & O0 & P0)
    by (by apply rest_same).
  assert (∃ s', exec run_job s = s' ∧ conf X (phase_up ph) s' ∧ s' <| _core := None |> = s0 <| _core := None |> ∧
    outs s' = outs s ++ (if phase_up ph then job_messages X snap cs s else [])) as (s' & Hr & C' & N' & O').
  { unfold run_job, exec. cbn [bind get]. rewrite Hj. cbn [modify bind try_except]. unfold job_messages. destruct snap.
    - cbn [job_body]. unfold group_send_snapshot. cbn [bind get]. fold s0. change (group_snapshot s0) with (group_snapshot s).
      assert (∀ g m, is_member s g m → g ≠ RESERVED ∧ m.1 = id X) as Hown.
      { intros g [p n] Hm. destruct (S7 g (p, n) Hm) as [[Hp Hg]|Hp]; [done|]. cbn in Hp. subst p.
        exfalso. eapply S5; [by right|exact Hm]. }
      destruct (group_snapshot s) as [|kv kvs] eqn:Eg.
      + rewrite bool_decide_eq_true_2 //. eexists. split; [done|]. split_and!; try done. destruct (phase_up ph); by rewrite app_nil_r.
      + rewrite bool_decide_eq_false_2 //. destruct (conf_send X (phase_up ph) s0 (group_snapshot_message s0)) as (s1 & H1 & H2 & H3 & H4); try done.
        * right. by exists s0.
        * apply snapshot_plain. intros g m Hm. by apply (Hown g m).
        * rewrite H1. exists s1. by split_and!.
    - destruct cs as [|c cs]; [by destruct Hne|]. cbn [hd job_body change_job].
      destruct (conf_send X (phase_up ph) s0 (change_message X c)) as (s1 & H1 & H2 & H3 & H4); try done.
      + left. exists c.1.1, (id X, c.1.2), c.2. done.
      + unfold group_send_delta. fold s0. unfold change_message in H1. rewrite H1. exists s1. by split_and!. }
  rewrite Hr. destruct (no_core_same s0 s' N') as (I1 & M1 & P1 & J1).
  assert (∀ g m, is_member s' g m ↔ is_member s g m) as Mm by (intros g m; by rewrite M1).
  split_and!; try done.
  split; rewrite ?P1 ?P0 ?J1 ?I1 ?I0 //.
  - intros Hl. by destruct (S4 Hl) as [-> ->].
  - intros H g n. rewrite Mm. apply S5. destruct H as [?|?]; [by left|done].
  - intros g m. rewrite Mm. apply S7.
Qed.

(** A snapshot brings a receiver that knows nothing of the sender up to date. *)
Lemma snapshot_brings X s s' g n :
  no_members X s' →
  (is_member (receive_all (if bool_decide (group_snapshot s = []) then [] else [group_snapshot_message s]) s') g (id X, n) ↔
   is_member s g (id X, n)).
Proof.
  intros Hno. case_bool_decide as He; cbn [receive_all].
  - split; [by intros ?%Hno|]. intros (ms & Hl & Hm). exfalso. unfold group_snapshot in He. apply fmap_nil_inv in He.
    assert ((g, ms) ∈ filter (λ gm : string * gset member, gm.2 ≠ ∅) (map_to_list (_groups s))) as Hin.
    { apply list_elem_of_filter. split; [cbn; set_solver|]. by apply elem_of_map_to_list. }
    rewrite He in Hin. by apply elem_of_nil in Hin.
  - destruct (receive_snapshot_union s s') as (s1 & H1 & E1). unfold exec. rewrite H1 /= E1. split; [|by right].
    intros [?%Hno|?]; done.
Qed.

Lemma job_step d X j js :
  jobs (dn d X) = j :: js → duo_ok d → duo_ok (d <| dn ::= put X (exec run_job (dn d X)) |>).
Proof.
  intros Hj (ph & snap & cs & He & Hs & Hd).
  assert (snap X = true ∨ cs X ≠ []) as Hne.
  { pose proof (so_jobs _ _ _ _ _ (Hs X)) as H3. rewrite Hj in H3. destruct (snap X); [by left|right]. intros E. by rewrite E in H3. }
  destruct (job_runs X (ph X) (snap X) (cs X) (dn d X) (Hs X) Hne) as (s' & Hr & Hok & Hout & Hib & Hm). rewrite Hr.
  eapply (duo_ok_update d _ ph snap cs X (ph X)); try done; cbn; rewrite ?put_eq ?put_flip; try done; [apply He|..].
  - destruct (Hd X) as [Hw Hph]. split; [done|]. destruct (ph X) eqn:Eph; cbn [phase_up] in Hout; rewrite ?app_nil_r in Hout; rewrite ?Hout //.
    + destruct (so_idle _ _ _ _ _ (Hs X)) as [E1 E2]; [by rewrite Eph|]. rewrite E1 E2 in Hne. by destruct Hne.
    + unfold job_messages. destruct (snap X) eqn:Esn.
      * destruct Hph as (-> & -> & Hi & Hno & Hag). rewrite Hi. cbn [app fmap list_fmap]. intros g n. rewrite Hm receive_all_app.
        rewrite (Hag g n). apply (receive_own_pointwise X); [apply changes_own|]. by rewrite snapshot_brings.
      * destruct (cs X) as [|c cs']; [by destruct Hne|]. cbn [tail]. intros g n. rewrite Hm (Hph g n) fmap_cons -!app_assoc. done.
  - eapply viewer_same; [done..|]. intros g n. apply Hm.
Qed.

(** *** Frames and mail *)

Lemma transmit_step d X co f rest :
  _core (dn d X) = Some co → co_out co = f :: rest → duo_ok d →
  duo_ok ((d <| dn ::= put X (on_core (λ co, co <| co_out := rest |>) (dn d X)) |>) <| dw ::= put X (dw d X ++ [f]) |>).
Proof.
  intros Hco Hout (ph & snap & cs & He & Hs & Hd). pose proof (Hs X) as [S1 S2 S3 S4 S5 S6 S7 S8].
  destruct S1 as [(co' & Hco' & C1 & C2 & C3 & C4 & C5) D2 D3 D4 D5]. rewrite Hco in Hco'. injection Hco' as <-.
  rewrite Hout in C5. apply list.Forall_cons in C5 as [Hf Hrest].
  set (s' := on_core _ (dn d X)).
  assert (outs (dn d X) = fr_payload f :: outs s') as Ho by (unfold outs, s'; cbn; by rewrite Hco /= Hout).
  eapply (duo_ok_update d _ ph snap cs X (ph X) (snap X) (cs X)); try done; cbn; rewrite ?put_eq ?put_flip; try done; [apply He|..].
  - split; try done. split; try done. unfold s'. cbn. rewrite Hco. eexists. split; [done|]. by split_and!.
  - destruct (Hd X) as [Hw Hph]. split; [apply Forall_app; split; [done|]; by constructor|].
    rewrite Ho in Hph. destruct (ph X); [by destruct Hph|by destruct Hph as (_ & ? & _)| |by destruct Hph..].
    destruct (snap X); [by destruct Hph as (_ & ? & _)|].
    rewrite fmap_app -app_assoc. exact Hph.
  - by eapply viewer_same.
Qed.

(** The frame is the last of the mail. *)
Lemma inbound_puts X up s p f :
  conf X up s → fr_actor f = GROUPS_ACTOR → own_message (flip X) (fr_payload f) →
  ∃ s', exec (inbound p f) s = s' ∧ conf X up s' ∧ inbox s' = inbox s ++ [fr_payload f] ∧ s' <| queues := queues s |> = s.
Proof.
  intros [C1 D2 (qu & Hqu & Hmax) D4 D5] Hfa Hfo. unfold inbox_queue in Hqu.
  destruct (_mailboxes s !! GROUPS_ACTOR) as [q|] eqn:Hmb; [|done].
  set (meta := MessageMeta (Some p) (fr_reply_to f) (fr_corr f) (Some (fr_msg_id f))).
  assert (exec (inbound p f) s = s <| queues ::= <[q := qu <| q_items ::= λ l, l ++ [(fr_payload f, meta)] |>]> |>) as Hin.
  { unfold inbound, exec. cbn [bind get]. rewrite Hfa Hmb. rewrite (deliver_room _ _ _ _ _ qu) //; [by eapply own_plain|].
    by rewrite /q_full Hmax. }
  destruct (inbox_put s q qu (fr_payload f, meta) Hmb Hqu) as [Hiq Hib]. eexists. split; [exact Hin|]. split_and!; [|done|by destruct s].
  split; try done. by exists (qu <| q_items ::= λ l, l ++ [(fr_payload f, meta)] |>).
Qed.

Lemma deliver_step d X f rest :
  dw d X = f :: rest → duo_ok d →
  duo_ok ((d <| dn ::= put (flip X) (exec (inbound (id X) f) (dn d (flip X))) |>) <| dw ::= put X rest |>).
Proof.
  intros Hw (ph & snap & cs & He & Hs & Hd). pose proof (Hs (flip X)) as [S1 S2 S3 S4 S5 S6 S7 S8]. rewrite flip_flip in S2, S3, S5, S7, S8.
  pose proof (Hd X) as [Hwf Hph]. rewrite Hw in Hwf, Hph. apply list.Forall_cons in Hwf as [(Hfp & Hfa & Hfo) Hwf].
  destruct (inbound_puts (flip X) _ _ (id X) f S1 Hfa) as (s' & -> & C' & Hib & Q'); [by rewrite flip_flip|].
  assert (_group_peers s' = _group_peers (dn d (flip X)) ∧ jobs s' = jobs (dn d (flip X)) ∧ outs s' = outs (dn d (flip X)) ∧
    ∀ g m, is_member s' g m ↔ is_member (dn d (flip X)) g m) as (P' & J' & O' & M') by (by rewrite -Q').
  eapply (duo_ok_update d _ ph snap cs (flip X) (ph (flip X)) (snap (flip X)) (cs (flip X))); try done; cbn;
    rewrite ?flip_flip ?put_eq ?put_flip; try done.
  - unfold put. by rewrite bool_decide_eq_false_2; [destruct X|].
  - apply He.
  - split; rewrite ?flip_flip ?P' ?J' //.
    + intros H g n. rewrite M'. by apply S5.
    + intros Eoff. destruct (He (flip X)) as [_ Hl1], (He X) as [_ Hl2]. rewrite Eoff in Hl1. rewrite Hl1 in Hl2.
      destruct (ph X); [by destruct Hph|done|done|by destruct Hph..].
    + intros g m. rewrite M'. apply S7.
    + rewrite Hib Forall_app. split; [done|]. by constructor.
  - pose proof (Hd (flip X)) as Hdf. rewrite flip_flip in Hdf. eapply dir_ok_sender; [done| |exact Hdf]. intros. apply M'.
  - split; [done|]. destruct (ph X); [by destruct Hph..| |by destruct Hph|by destruct Hph]. destruct (snap X); [by destruct Hph|].
    intros g n. rewrite (Hph g n) Hib fmap_cons -!app_assoc.
    apply (receive_own_pointwise X); [|by rewrite M'].
    pose proof (way_own X d ph snap cs Hs (Hd X)) as Hown. rewrite Hw fmap_cons in Hown. exact Hown.
Qed.

(** *** A turn of the reserved actor *)

(** The message leaves the queue, the rest stays. *)
Lemma turn_pops X up s msg msgs :
  conf X up s → inbox s = msg :: msgs →
  ∃ s0, exec groups_turn s = exec (groups_actor_receive msg) s0 ∧ conf X up s0 ∧ inbox s0 = msgs ∧
    s0 <| queues := queues s |> = s.
Proof.
  intros [C1 C2 (qu & Hqu & Hmax) C4 C5] Hi. unfold inbox in Hi. rewrite Hqu in Hi. unfold inbox_queue in Hqu.
  destruct (_mailboxes s !! GROUPS_ACTOR) as [q|] eqn:Hmb; [|done].
  destruct (q_items qu) as [|item items] eqn:Eit; [done|]. cbn in Hi. injection Hi as <- <-.
  exists (s <| queues ::= <[q := qu <| q_items := items |>]> |>).
  assert (inbox_queue (s <| queues ::= <[q := qu <| q_items := items |>]> |>) = Some (qu <| q_items := items |>)) as Hq'.
  { unfold inbox_queue. simpl. by rewrite Hmb lookup_insert_eq. }
  split_and!.
  - unfold groups_turn, exec. cbn [bind get]. by rewrite Hmb Hqu /= /get_nowait Eit.
  - split; try done. by eexists.
  - unfold inbox. by rewrite Hq'.
  - by destruct s.
Qed.

Lemma handle_step d X :
  in_time d (LHandle X) = true → inbox (dn d X) ≠ [] → duo_ok d → duo_ok (d <| dn ::= put X (exec groups_turn (dn d X)) |>).
Proof.
  intros Ht Hne (ph & snap & cs & He & Hs & Hd). pose proof (Hs X) as [S1 S2 S3 S4 S5 S6 S7 S8].
  destruct (inbox (dn d X)) as [|msg msgs] eqn:Ei; [done|]. apply list.Forall_cons in S8 as [Hmsg Hmsgs].
  destruct (turn_pops X _ _ _ _ S1 Ei) as (s0 & -> & C0 & I0 & Q0).
  assert (∀ g m, is_member s0 g m ↔ is_member (dn d X) g m) as M0 by (intros; by rewrite -Q0).
  pose proof (groups_receive_frame msg s0) as Hfr. set (s' := exec (groups_actor_receive msg) s0) in *.
  destruct (rest_same X (phase_up (ph X)) s0 s') as (C' & I' & O' & P'); [unfold rest; by rewrite Hfr|done|].
  assert (jobs s' = jobs (dn d X)) as J' by (rewrite -Q0; by rewrite (f_equal jobs Hfr : jobs s0 = jobs s')).
  assert (outs s0 = outs (dn d X) ∧ _group_peers s0 = _group_peers (dn d X)) as [O0 P0] by (by rewrite -Q0).
  assert (listens (ph X) = true ∧ snap X = false) as [Hlis Hsn].
  { cbn in Ht. apply andb_prop in Ht as [H1 H2]. destruct (He X) as [Hev _]. rewrite Hev in H1. rewrite S3 in H2.
    destruct (snap X); [done|]. split; [|done]. destruct (ph X); try done. by specialize (S6 eq_refl). }
  assert (∀ g n, is_member s' g (id X, n) ↔ is_member (dn d X) g (id X, n)) as Mown.
  { intros g n. unfold s'. rewrite (own_elsewhere (flip X)) ?M0 //. apply not_eq_sym, id_flip. }
  eapply (duo_ok_update d _ ph snap cs X (ph X) (snap X) (cs X)); try done; cbn; rewrite ?put_eq ?put_flip; try done; [apply He|..].
  - split; rewrite ?P' ?P0 ?J' ?I' ?I0 //; [rewrite Hlis Hsn; by intros [?|?]|by intros E; rewrite E in Hlis|].
    intros g m Hm. destruct (decide (m.1 = id (flip X))) as [?|Hel]; [by right|].
    apply (S7 g m). rewrite -M0. by apply (own_elsewhere (flip X) msg).
  - eapply dir_ok_sender; [|exact Mown|apply Hd]. by rewrite O' O0.
  - pose proof (Hd (flip X)) as Hdf. pose proof (way_own (flip X) d ph snap cs Hs Hdf) as Hown. rewrite flip_flip in Hdf, Hown.
    destruct Hdf as [Hw Hph]. split; [done|]. destruct (ph (flip X)); try done; [by rewrite Ei in Hph; destruct Hph as (_ & _ & ? & _)|].
    destruct (snap (flip X)); [by rewrite Ei in Hph; destruct Hph as (_ & _ & ? & _)|].
    intros g n. rewrite (Hph g n) Ei I' I0. rewrite Ei in Hown. apply list.Forall_cons in Hown as [_ Hown].
    cbn [app receive_all]. apply (receive_own_pointwise (flip X)); [exact Hown|].
    unfold s'. apply (own_pointwise (flip X)); [done|]. by rewrite M0.
Qed.

(** *** Events *)

Lemma connect_seen X up s p :
  conf X up s → _group_peers s = Some ∅ →
  exec (_on_core_event (EvPeerConnected p)) s =
    s <| _group_peers := Some {[p]} |> <| jobs ::= λ l, l ++ [JGroupSnapshot p] |>.
Proof.
  intros [_ _ _ C4 (_ & _ & _ & C5)] Hp. unfold _on_core_event, exec. cbn [bind modify get core_event_effect].
  rewrite C5 lookup_empty. cbn [default foldl]. rewrite C4.
  cbn [for_each run_listener groups_on_peer_event bind modify try_except create_job ret]. cbn. destruct s. cbn in Hp. subst.
  cbn. by rewrite union_empty_r_L.
Qed.

Lemma loss_seen X up s p :
  conf X up s → _group_peers s = Some {[p]} →
  exec (_on_core_event (EvPeerDisconnected p)) s =
    s <| _group_peers := Some ∅ |> <| _groups ::= fmap (filter (λ m : member, m.1 ≠ p)) |>.
Proof.
  intros [_ _ _ C4 (C5 & C6 & C7 & _)] Hp. unfold _on_core_event, exec. cbn [bind modify get].
  assert (core_event_effect (EvPeerDisconnected p) s = s) as ->.
  { unfold core_event_effect. rewrite C5 C6. unfold noconnection_exits, noconnection_downs. rewrite !map_to_list_empty. cbn.
    destruct s. cbn in *. subst. by rewrite !app_nil_r fmap_empty. }
  rewrite C4. cbn [for_each run_listener groups_on_peer_event _drop_peer_members bind modify try_except ret]. cbn.
  destruct s. cbn in Hp. subst. cbn. by rewrite difference_diag_L.
Qed.

(** A node in phase [Fresh] or [FreshLeaving] sees its connection. *)
Lemma connect_event_side X ph ph' snap cs s :
  side_ok X ph snap cs s → listens ph = false → listens ph' = true → phase_up ph' = phase_up ph → ph' ≠ Off → jobs s = [] →
  let s' := exec (_on_core_event (EvPeerConnected (id (flip X)))) s in
  side_ok X ph' true [] s' ∧ inbox s' = inbox s ∧ outs s' = outs s ∧ ∀ g m, is_member s' g m ↔ is_member s g m.
Proof.
  intros [S1 S2 S3 S4 S5 S6 S7 S8] Hl Hl' Hup Hoff Hj s'. rewrite Hl in S2.
  assert (s' = s <| _group_peers := Some {[id (flip X)]} |> <| jobs ::= λ l, l ++ [JGroupSnapshot (id (flip X))] |>) as E
    by (by eapply connect_seen). rewrite E. split_and!; try done.
  split; rewrite ?Hl' ?Hup //; cbn; [|by rewrite Hj|].
  - by destruct S1.
  - intros _. apply S5. by left.
Qed.

Lemma event_step d X ev rest :
  de d X = ev :: rest → in_time d (LEvent X) = true → duo_ok d →
  duo_ok ((d <| dn ::= put X (exec (_on_core_event ev) (dn d X)) |>) <| de ::= put X rest |>).
Proof.
  intros Hev Ht (ph & snap & cs & He & Hs & Hd). cbn in Ht. rewrite Hev in Ht. apply andb_prop in Ht as [Hj Ht].
  apply bool_decide_eq_true in Hj. destruct (He X) as [Hx Hlx]. rewrite Hev in Hx. pose proof (Hs X) as HsX. pose proof (Hd X) as HdX.
  destruct (ph X) eqn:Eph; cbn in Hx; try done; injection Hx as -> ->.
  - destruct (connect_event_side X Fresh On (snap X) (cs X) (dn d X)) as (Hok & Hib & Ho & Hm); [exact HsX|done..|].
    eapply (duo_ok_update d _ ph snap cs X On true []); try done; cbn; rewrite ?put_eq ?put_flip ?Eph; try done.
    + destruct HdX as [Hw (W1 & W2 & W3 & W4)]. split; [done|]. rewrite Ho. by split_and!.
    + eapply viewer_same; [done..|]. intros g n. apply Hm.
  - apply orb_prop in Ht as [Ht|Ht]; [done|]. apply bool_decide_eq_true in Ht. destruct HsX as [S1 S2 S3 S4 S5 S6 S7 S8].
    rewrite (loss_seen X _ _ _ S1 S2). rewrite Hj in S3.
    assert (snap X = false ∧ cs X = []) as [Esn Ecs] by (destruct (snap X), (cs X); done).
    eapply (duo_ok_update d _ ph snap cs X Off false []); try done; cbn; rewrite ?put_eq ?put_flip ?Eph; try done.
    + split; cbn; try done.
      * by destruct S1.
      * intros _ g n Hm. apply dropped_member in Hm as [_ Hm]. done.
      * intros g m Hm. apply dropped_member in Hm as [Hm _]. by apply S7.
    + destruct (He (flip X)) as [_ Hl]. rewrite Hlx in Hl. pose proof (Hd (flip X)) as [Hw Hph]. split; [done|].
      by destruct (ph (flip X)).
  - destruct (connect_event_side X FreshLeaving Leaving (snap X) (cs X) (dn d X)) as (Hok & Hib & Ho & Hm); [exact HsX|done..|].
    eapply (duo_ok_update d _ ph snap cs X Leaving true []); try done; cbn; rewrite ?put_eq ?put_flip ?Eph; try done.
    + destruct HdX as [Hw (W1 & W2)]. split; [done|]. by rewrite Ho.
    + eapply viewer_same; [done..|]. intros g n. apply Hm.
Qed.

(** *** The connection is lost, or made *)

Lemma core_step_side X ph ph' snap cs s f :
  (∀ co, co_running (f co) = co_running co ∧ co_local (f co) = co_local co ∧ co_refuses (f co) = co_refuses co) →
  (∀ co, co_peers (f co) = if phase_up ph' then {[id (flip X)]} else ∅) →
  (∀ co, Forall (own_frame X) (co_out co) → Forall (own_frame X) (co_out (f co))) →
  listens ph' = listens ph → (ph' = Off → ph = Off) →
  side_ok X ph snap cs s → side_ok X ph' snap cs (on_core f s).
Proof.
  intros Hf Hp Ho Hl Hoff [[(co & Hco & C1 & C2 & C3 & C4 & C5) D2 D3 D4 D5] S2 S3 S4 S5 S6 S7 S8].
  split; rewrite ?Hl //; [|by intros E; apply S6, Hoff].
  split; try done. unfold on_core. cbn. rewrite Hco. exists (f co). destruct (Hf co) as (-> & -> & ->). split_and!; try done. by apply Ho.
Qed.

Definition after_loss (ph : phase) : phase := match ph with On => Leaving | Fresh => FreshLeaving | ph => ph end.

Lemma drop_step d :
  linked d = true → duo_ok d →
  duo_ok (Duo (λ X, on_core core_cut (dn d X)) (λ _, []) (λ X, de d X ++ [EvPeerDisconnected (id (flip X))]) false).
Proof.
  intros Hl (ph & snap & cs & He & Hs & Hd). exists (λ X, after_loss (ph X)), snap, cs. cbn. split_and!.
  - intros X. destruct (He X) as [-> Hx]. rewrite Hl in Hx. by destruct (ph X).
  - intros X. destruct (He X) as [_ Hx]. rewrite Hl in Hx. apply (core_step_side X (ph X)); try done; by destruct (ph X).
  - intros X. split; [done|]. destruct (He X) as [_ Hx]. rewrite Hl in Hx.
    assert (outs (on_core core_cut (dn d X)) = []) as Ho by (unfold outs, on_core; cbn; by destruct (_core (dn d X))).
    by destruct (ph X).
Qed.

Lemma connect_step d :
  linked d = false → in_time d LConnect = true → duo_ok d →
  duo_ok (Duo (λ X, on_core (core_join (id (flip X))) (dn d X)) (λ _, []) (λ X, de d X ++ [EvPeerConnected (id (flip X))]) true).
Proof.
  intros Hl Ht (ph & snap & cs & He & Hs & Hd). cbn in Ht. apply andb_prop in Ht as [HL HR].
  apply bool_decide_eq_true in HL, HR.
  assert (∀ X, ph X = Off) as Hoff.
  { intros X. destruct (He X) as [Hx Hl']. rewrite Hl in Hl'. assert (de d X = []) as E by (by destruct X). rewrite E in Hx. by destruct (ph X). }
  exists (λ _, Fresh), snap, cs. cbn. split_and!.
  - intros X. destruct (He X) as [-> _]. by rewrite Hoff.
  - intros X. apply (core_step_side X Off); try done. rewrite -(Hoff X). apply Hs.
  - intros X. split; [done|]. destruct (Hd X) as [_ Hx]. rewrite Hoff in Hx. destruct Hx as [_ Hx].
    pose proof (Hs (flip X)) as Hsf. rewrite Hoff in Hsf. destruct Hsf as [_ _ _ _ S5 S6 _ _]. rewrite flip_flip in S5. split_and!; try done.
    + rewrite -Hx. unfold outs, on_core. cbn. by destruct (_core (dn d X)).
    + by apply S6.
    + intros g n. apply S5. by left.
Qed.

Lemma timely_ok d d' : timely d d' → duo_ok d → duo_ok d'.
Proof.
  intros (l & Ht & Hst) Hok. destruct l as [X o|X|X|X|X|X| |]; unfold duo_step in Hst.
  - injection Hst as <-. by apply op_step.
  - destruct (jobs (dn d X)) as [|j js] eqn:Ej; [done|]. destruct (group_job j); [|done]. injection Hst as <-. by eapply job_step.
  - destruct (_core (dn d X)) as [co|] eqn:Eco; [|done]. destruct (co_out co) as [|f rest] eqn:Eo; [done|]. injection Hst as <-. by eapply transmit_step.
  - destruct (dw d X) as [|f rest] eqn:Ew; [done|]. injection Hst as <-. by eapply deliver_step.
  - case_bool_decide; [done|]. injection Hst as <-. by apply handle_step.
  - destruct (de d X) as [|ev rest] eqn:Ev; [done|]. injection Hst as <-. by apply event_step.
  - destruct (linked d) eqn:El; [|done]. injection Hst as <-. by apply drop_step.
  - destruct (linked d) eqn:El; [done|]. injection Hst as <-. by apply connect_step.
Qed.

End reconnect.
