(* ===== verification/GroupReconnectProps.v ===== *)
(** * Groups across lost and new connections: the theorems

    Two nodes whose connection comes and goes list the same members whenever
    they are connected and nothing is under way, as long as the events of the
    core are seen in time; what is under way ends; and two ways in which late
    events leave the tables wrong for good. *)

From S2P Require Import Prelude Values NodeId Actors State PeerEvents Asyncio Node NodeProps Links.
From S2P Require Import Groups Supervisor Setup CodecProps Refs Runtime Cluster GroupReconnect.

Section reconnect_props.
Context {codec : PayloadCodec} (id : side → string).
Hypothesis Hids : id L ≠ id R.
Hypothesis Hcanon : ∀ X, canonical (id X) = inr (id X).

(** ** Where it starts, and where nothing is under way *)

(** A started node with [register_groups] done, not connected; members of its
    own it may have. *)
Record fresh_node (X : side) (s : st) : Prop := {
  fn_conf : conf id X false s;
  fn_peers : _group_peers s = Some ∅;
  fn_idle : jobs s = [] ∧ inbox s = [] ∧ outs s = [];
  fn_own : ∀ g m, is_member s g m → m.1 = id X ∧ g ≠ RESERVED
}.

Definition duo_start (d : duo) : Prop :=
  linked d = false ∧ ∀ X, fresh_node X (dn d X) ∧ dw d X = [] ∧ de d X = [].

(** Connected, no event unseen, no task, frame or mail left. *)
Definition settled (d : duo) : Prop :=
  linked d = true ∧
  ∀ X, de d X = [] ∧ jobs (dn d X) = [] ∧ outs (dn d X) = [] ∧ dw d X = [] ∧ inbox (dn d X) = [].

Lemma start_ok d : duo_start d → duo_ok id d.
Proof.
  intros (Hl & Hd). exists (λ _, Off), (λ _, false), (λ _, []). split_and!; intros X; destruct (Hd X) as ([F1 F2 (F3 & F4 & F5) F6] & Hw & He).
  - by rewrite Hl.
  - split; try done.
    + intros _ g n Hm. apply F6 in Hm as [Hm _]. by apply (id_flip id Hids X) in Hm.
    + intros g m Hm. left. by apply F6.
    + by rewrite F4.
  - rewrite Hw. by split_and!.
Qed.

Lemma timely_run_ok d d' : rtc (timely id) d d' → duo_ok id d → duo_ok id d'.
Proof. induction 1; [done|]. intros. by apply IHrtc, (timely_ok id Hids Hcanon x). Qed.

(** Settled sides are in phase [On] with their snapshot sent. *)
Lemma settled_phase d ph snap cs X :
  settled d → (∀ X, de d X = phase_events id X (ph X) ∧ linked d = phase_up (ph X)) →
  side_ok id X (ph X) (snap X) (cs X) (dn d X) → ph X = On ∧ snap X = false ∧ cs X = [].
Proof.
  intros (Hl & Hq) He Hs. destruct (Hq X) as (Q1 & Q2 & _). destruct (He X) as [E1 E2]. rewrite Q1 in E1. rewrite Hl in E2.
  pose proof (so_jobs _ _ _ _ _ _ Hs) as Hj. rewrite Q2 in Hj. destruct (ph X), (snap X), (cs X); done.
Qed.

Lemma settled_agrees d g m : duo_ok id d → settled d → is_member (dn d L) g m ↔ is_member (dn d R) g m.
Proof.
  intros (ph & snap & cs & He & Hs & Hd) Hset.
  assert (∀ X n, is_member (dn d X) g (id X, n) ↔ is_member (dn d (flip X)) g (id X, n)) as Hag.
  { intros X n. destruct (settled_phase d ph snap cs X Hset He (Hs X)) as (E1 & E2 & E3). destruct (Hd X) as [_ Hx].
    rewrite E1 E2 E3 in Hx. destruct Hset as (_ & Hq). destruct (Hq X) as (_ & _ & Q3 & Q4 & _), (Hq (flip X)) as (_ & _ & _ & _ & Q5).
    rewrite Q3 Q4 Q5 in Hx. apply Hx. }
  destruct m as [p n].
  assert (∀ X, is_member (dn d X) g (p, n) → p = id L ∨ p = id R) as Hp.
  { intros X Hm. destruct (so_members _ _ _ _ _ _ (Hs X) g _ Hm) as [[? _]|?]; destruct X; cbn in *; auto. }
  split; intros Hm; destruct (Hp _ Hm) as [-> | ->].
  - by apply (Hag L).
  - by apply (Hag R).
  - by apply (Hag L).
  - by apply (Hag R).
Qed.

(** ** What is under way ends *)

Definition quiet_label (l : label) : bool := match l with LOp _ _ | LDrop | LConnect => false | _ => true end.
(** What the two nodes do on their own: tasks, frames, mail and events. *)
Definition quiet (d d' : duo) : Prop := ∃ l, quiet_label l = true ∧ in_time d l = true ∧ duo_step id l d = Some d'.

Definition side_weight (s : st) : nat := 4 * length (jobs s) + 3 * length (outs s) + length (inbox s).
Definition duo_weight (d : duo) : nat :=
  side_weight (dn d L) + side_weight (dn d R) + 2 * (length (dw d L) + length (dw d R)) + 5 * (length (de d L) + length (de d R)).

Lemma quiet_timely d d' : quiet d d' → timely id d d'.
Proof. intros (l & _ & H). by exists l. Qed.

#[local] Arguments side_weight : simpl never.
#[local] Arguments exec : simpl never.
#[local] Arguments on_core : simpl never.

(** The weight in terms of one side and the other. *)
Lemma duo_weight_side d X :
  duo_weight d = side_weight (dn d X) + side_weight (dn d (flip X)) + 2 * (length (dw d X) + length (dw d (flip X))) +
                 5 * (length (de d X) + length (de d (flip X))).
Proof. unfold duo_weight. destruct X; cbn [flip]; lia. Qed.

Lemma handle_weight_side X up s :
  conf id X up s → inbox s ≠ [] → S (side_weight (exec groups_turn s)) = side_weight s.
Proof.
  intros Hc Hne. destruct (inbox s) as [|msg msgs] eqn:Ei; [done|].
  destruct (turn_pops id X up s msg msgs Hc Ei) as (s0 & -> & C0 & I0 & Q0).
  pose proof (groups_receive_frame msg s0) as Hfr.
  set (s' := exec (groups_actor_receive msg) s0) in *.
  destruct (rest_same id X up s0 s') as (_ & I' & O' & _); [unfold rest; by rewrite Hfr|done|].
  unfold side_weight. rewrite I' O' I0 Ei -(f_equal jobs Hfr : jobs s0 = jobs s').
  assert (outs s0 = outs s ∧ jobs s0 = jobs s) as [-> ->] by (by rewrite -Q0). cbn [length]. lia.
Qed.

Lemma job_weight_side X ph snap cs s :
  side_ok id X ph snap cs s → jobs s ≠ [] → side_weight (exec run_job s) < side_weight s.
Proof.
  intros Hs Hne. pose proof (so_jobs _ _ _ _ _ _ Hs) as Hj.
  assert (snap = true ∨ cs ≠ []) as Hsome. { destruct snap; [by left|right]. intros ->. by rewrite Hj in Hne. }
  destruct (job_runs id Hids Hcanon X ph snap cs s Hs Hsome) as (s' & -> & Hs' & Ho & Hi & _).
  pose proof (so_jobs _ _ _ _ _ _ Hs') as Hj'. unfold side_weight. rewrite Ho Hi Hj Hj' !length_app !length_fmap.
  assert (length (if phase_up ph then job_messages id X snap cs s else []) ≤ 1) as Hm.
  { destruct (phase_up ph); [|cbn; lia]. unfold job_messages. destruct snap; [case_bool_decide|destruct cs]; cbn; lia. }
  destruct snap; cbn [length]; [lia|]. destruct cs as [|c cs]; [by destruct Hsome|]. cbn [tail length]. lia.
Qed.

Lemma deliver_weight_side X up s p f :
  conf id X up s → fr_actor f = GROUPS_ACTOR → own_message id (flip X) (fr_payload f) →
  side_weight (exec (inbound p f) s) = S (side_weight s).
Proof.
  intros Hc Hfa Hfo. destruct (inbound_puts id X up s p f Hc Hfa Hfo) as (s' & -> & _ & Hib & Q').
  assert (outs s' = outs s ∧ jobs s' = jobs s) as [Ho Hj] by (by rewrite -Q'). unfold side_weight. rewrite Hib Ho Hj length_app.
  cbn [length]. lia.
Qed.

Lemma connect_event_weight X ph ph' snap cs s :
  side_ok id X ph snap cs s → listens ph = false → listens ph' = true → phase_up ph' = phase_up ph → ph' ≠ Off → jobs s = [] →
  side_weight (exec (_on_core_event (EvPeerConnected (id (flip X)))) s) = side_weight s + 4.
Proof.
  intros Hs H1 H2 H3 H4 Hj. destruct (connect_event_side id X ph ph' snap cs s Hs H1 H2 H3 H4 Hj) as (Hok & Hi & Ho & _).
  pose proof (so_jobs _ _ _ _ _ _ Hok) as Hj'. unfold side_weight. rewrite Hi Ho Hj Hj'. cbn. lia.
Qed.

Lemma loss_event_weight X up s p :
  conf id X up s → _group_peers s = Some {[p]} → side_weight (exec (_on_core_event (EvPeerDisconnected p)) s) = side_weight s.
Proof. intros Hc Hp. by rewrite (loss_seen id X up s p Hc Hp). Qed.

Lemma event_weight_side d ph snap cs X ev rest :
  (∀ X, de d X = phase_events id X (ph X) ∧ linked d = phase_up (ph X)) →
  side_ok id X (ph X) (snap X) (cs X) (dn d X) → de d X = ev :: rest → jobs (dn d X) = [] →
  side_weight (exec (_on_core_event ev) (dn d X)) ≤ side_weight (dn d X) + 4.
Proof.
  intros He Hs Hev Hj. destruct (He X) as [Hx _]. rewrite Hev in Hx. destruct (ph X) eqn:Eph; try done; injection Hx as -> _.
  - erewrite (connect_event_weight X Fresh On); [done|exact Hs|done..].
  - erewrite loss_event_weight; [lia|apply (so_conf _ _ _ _ _ _ Hs)|]. exact (so_peers _ _ _ _ _ _ Hs).
  - erewrite (connect_event_weight X FreshLeaving Leaving); [done|exact Hs|done..].
Qed.

Lemma transmit_weight_side s co f rest :
  _core s = Some co → co_out co = f :: rest → side_weight (on_core (λ co, co <| co_out := rest |>) s) + 3 = side_weight s.
Proof.
  intros Hco Ho. set (s' := on_core _ s). assert (jobs s' = jobs s ∧ inbox s' = inbox s) as [Hj Hi] by done.
  assert (outs s = fr_payload f :: outs s') as Hs by (unfold outs, s', on_core; cbn; by rewrite Hco /= Ho).
  unfold side_weight. rewrite Hj Hi Hs. cbn [length]. lia.
Qed.

(** Every step makes the two lighter. *)
Lemma quiet_lighter d d' : duo_ok id d → quiet d d' → duo_weight d' < duo_weight d.
Proof.
  intros (ph & snap & cs & He & Hs & Hd) (l & Hq & Ht & Hst). destruct l as [X o|X|X|X|X|X| |]; try done; unfold duo_step in Hst.
  - destruct (jobs (dn d X)) as [|j js] eqn:Ej; [done|]. destruct (group_job j); [|done]. injection Hst as <-.
    rewrite !(duo_weight_side _ X). cbn. rewrite put_eq put_flip.
    assert (side_weight (exec run_job (dn d X)) < side_weight (dn d X)) by (eapply job_weight_side; [apply Hs|by rewrite Ej]). lia.
  - destruct (_core (dn d X)) as [co|] eqn:Eco; [|done]. destruct (co_out co) as [|f rest] eqn:Eo; [done|]. injection Hst as <-.
    rewrite !(duo_weight_side _ X). cbn. rewrite !put_eq !put_flip length_app.
    pose proof (transmit_weight_side (dn d X) co f rest Eco Eo) as Hwt. cbn in Hwt |- *. lia.
  - destruct (dw d X) as [|f rest] eqn:Ew; [done|]. injection Hst as <-. destruct (Hd X) as [Hw _]. rewrite Ew in Hw.
    apply list.Forall_cons in Hw as [(_ & Hfa & Hfo) _].
    rewrite !(duo_weight_side _ X). cbn. rewrite !put_eq !put_flip. unfold put at 1. rewrite bool_decide_eq_false_2; [by destruct X|].
    rewrite (deliver_weight_side (flip X) (phase_up (ph (flip X)))) //; [apply Hs|by rewrite flip_flip|]. rewrite Ew. cbn [length]. lia.
  - case_bool_decide as Hi; [done|]. injection Hst as <-. rewrite !(duo_weight_side _ X). cbn. rewrite put_eq put_flip.
    pose proof (handle_weight_side X _ (dn d X) (so_conf _ _ _ _ _ _ (Hs X)) Hi). lia.
  - destruct (de d X) as [|ev rest] eqn:Ev; [done|]. injection Hst as <-. cbn in Ht. rewrite Ev in Ht.
    apply andb_prop in Ht as [Hj _]. apply bool_decide_eq_true in Hj.
    rewrite !(duo_weight_side _ X). cbn. rewrite !put_eq !put_flip Ev.
    pose proof (event_weight_side d ph snap cs X ev rest He (Hs X) Ev Hj). cbn [length]. lia.
Qed.

(** While the connection is there, something can be done until all is settled. *)
Lemma busy_job d X : duo_ok id d → jobs (dn d X) ≠ [] → ∃ d', quiet d d'.
Proof.
  intros (ph & snap & cs & _ & Hs & _) Hne. pose proof (so_jobs _ _ _ _ _ _ (Hs X)) as Hj.
  eexists _, (LJob X). split_and!; [done..|]. unfold duo_step. rewrite Hj in Hne |- *.
  destruct (snap X); [done|]. by destruct (cs X).
Qed.

Lemma busy_out d X : outs (dn d X) ≠ [] → ∃ d', quiet d d'.
Proof.
  intros Hne. unfold outs in Hne. destruct (_core (dn d X)) as [co|] eqn:Eco; [|done]. destruct (co_out co) as [|f rest] eqn:Eo; [done|].
  eexists _, (LTransmit X). split_and!; [done..|]. unfold duo_step. by rewrite Eco Eo.
Qed.

Lemma busy_wire d X : dw d X ≠ [] → ∃ d', quiet d d'.
Proof.
  intros Hne. destruct (dw d X) as [|f rest] eqn:Ew; [done|]. eexists _, (LDeliver X). split_and!; [done..|]. unfold duo_step. by rewrite Ew.
Qed.

Lemma busy_event d X : duo_ok id d → linked d = true → jobs (dn d X) = [] → de d X ≠ [] → ∃ d', quiet d d'.
Proof.
  intros (ph & _ & _ & He & _ & _) Hl Hj Hne. destruct (He X) as [E1 E2]. rewrite Hl in E2.
  eexists _, (LEvent X). rewrite E1 in Hne. destruct (ph X) eqn:Eph; try done. split_and!; [done| |].
  - unfold in_time. by rewrite E1 Hj.
  - unfold duo_step. by rewrite E1.
Qed.

Lemma busy_mail d X : jobs (dn d X) = [] → de d X = [] → inbox (dn d X) ≠ [] → ∃ d', quiet d d'.
Proof.
  intros Hj He Hne. eexists _, (LHandle X). split_and!; [done| |].
  - unfold in_time. by rewrite Hj He.
  - unfold duo_step. by rewrite bool_decide_eq_false_2.
Qed.

Lemma stuck_settled d : duo_ok id d → linked d = true → (∀ d', ¬ quiet d d') → settled d.
Proof.
  intros Hok Hl Hst. assert (∀ P : Prop, (∃ d', quiet d d') → P) as Hno by (intros P [d' Hq]; by destruct (Hst d')).
  split; [done|]. intros X.
  assert (jobs (dn d X) = []) as Hj by (apply dec_stable; intros H; by eapply Hno, busy_job).
  assert (de d X = []) as He by (destruct (de d X) eqn:E; [done|]; eapply Hno, (busy_event d X); rewrite ?E //).
  split_and!; [done..| | |].
  - destruct (outs (dn d X)) eqn:E; [done|]. eapply Hno, (busy_out d X). by rewrite E.
  - destruct (dw d X) eqn:E; [done|]. eapply Hno, (busy_wire d X). by rewrite E.
  - destruct (inbox (dn d X)) eqn:E; [done|]. eapply Hno, (busy_mail d X); [done..|]. by rewrite E.
Qed.

Lemma quiet_linked d d' : quiet d d' → linked d' = linked d.
Proof.
  intros (l & Hq & _ & Hst). destruct l as [X o|X|X|X|X|X| |]; try done; unfold duo_step in Hst; simplify_option_eq; repeat case_match; by simplify_eq.
Qed.

(** Each node keeps its own members meanwhile. *)
Lemma handle_own X up s g n :
  conf id X up s → Forall (own_message id (flip X)) (inbox s) → inbox s ≠ [] →
  is_member (exec groups_turn s) g (id X, n) ↔ is_member s g (id X, n).
Proof.
  intros Hc Hm Hne. destruct (inbox s) as [|msg msgs] eqn:Ei; [done|]. apply list.Forall_cons in Hm as [Hm _].
  destruct (turn_pops id X up s msg msgs Hc Ei) as (s0 & -> & _ & _ & Q0).
  rewrite (own_elsewhere id (flip X)) //; [apply not_eq_sym, (id_flip id Hids)|]. by rewrite -Q0.
Qed.

Lemma event_own d ph snap cs X ev rest g n :
  (∀ X, de d X = phase_events id X (ph X) ∧ linked d = phase_up (ph X)) →
  side_ok id X (ph X) (snap X) (cs X) (dn d X) → de d X = ev :: rest → jobs (dn d X) = [] →
  is_member (exec (_on_core_event ev) (dn d X)) g (id X, n) ↔ is_member (dn d X) g (id X, n).
Proof.
  intros He Hs Hev Hj. destruct (He X) as [Hx _]. rewrite Hev in Hx. destruct (ph X) eqn:Eph; try done; injection Hx as -> _.
  - destruct (connect_event_side id X Fresh On _ _ _ Hs) as (_ & _ & _ & Hm); [done..|]. apply Hm.
  - rewrite (loss_seen id X _ _ _ (so_conf _ _ _ _ _ _ Hs) (so_peers _ _ _ _ _ _ Hs)).
    pose proof (dropped_member (id (flip X)) ((dn d X) <| _group_peers := Some ∅ |>) g (id X, n)) as Hdm. rewrite Hdm.
    pose proof (id_flip id Hids X). split; [by intros [? _]|]. intros ?. split; [done|]. cbn. congruence.
  - destruct (connect_event_side id X FreshLeaving Leaving _ _ _ Hs) as (_ & _ & _ & Hm); [done..|]. apply Hm.
Qed.

Lemma put_own (d : duo) X s Y g n :
  (is_member s g (id X, n) ↔ is_member (dn d X) g (id X, n)) →
  is_member (put X s (dn d) Y) g (id Y, n) ↔ is_member (dn d Y) g (id Y, n).
Proof. intros H. revert Y. apply (both _ X); [by rewrite put_eq|by rewrite put_flip]. Qed.

Lemma quiet_own d d' X g n :
  duo_ok id d → quiet d d' → is_member (dn d' X) g (id X, n) ↔ is_member (dn d X) g (id X, n).
Proof.
  intros (ph & snap & cs & He & Hs & Hd) (l & Hq & Ht & Hst). destruct l as [Y o|Y|Y|Y|Y|Y| |]; try done; unfold duo_step in Hst.
  - destruct (jobs (dn d Y)) as [|j js] eqn:Ej; [done|]. destruct (group_job j); [|done]. injection Hst as <-. apply put_own.
    pose proof (so_jobs _ _ _ _ _ _ (Hs Y)) as Hj. rewrite Ej in Hj.
    assert (snap Y = true ∨ cs Y ≠ []) as Hsome by (destruct (snap Y); [by left|right; intros E; by rewrite E in Hj]).
    destruct (job_runs id Hids Hcanon Y _ _ _ _ (Hs Y) Hsome) as (s' & -> & _ & _ & _ & Hm). apply Hm.
  - destruct (_core (dn d Y)) as [co|] eqn:Eco; [|done]. destruct (co_out co) as [|f rest] eqn:Eo; [done|]. injection Hst as <-.
    by apply put_own.
  - destruct (dw d Y) as [|f rest] eqn:Ew; [done|]. injection Hst as <-. apply put_own. destruct (Hd Y) as [Hw _]. rewrite Ew in Hw.
    apply list.Forall_cons in Hw as [(_ & Hfa & Hfo) _]. rewrite -{1}(flip_flip Y) in Hfo.
    destruct (inbound_puts id (flip Y) _ _ (id Y) f (so_conf _ _ _ _ _ _ (Hs (flip Y))) Hfa Hfo) as (s' & -> & _ & _ & Q'). by rewrite -Q'.
  - case_bool_decide as Hi; [done|]. injection Hst as <-. apply put_own.
    apply (handle_own _ (phase_up (ph Y))); [apply Hs|apply (so_mail _ _ _ _ _ _ (Hs Y))|done].
  - destruct (de d Y) as [|ev rest] eqn:Ev; [done|]. injection Hst as <-. cbn in Ht. rewrite Ev in Ht.
    apply andb_prop in Ht as [Hj _]. apply bool_decide_eq_true in Hj. apply put_own. by eapply event_own.
Qed.

Lemma settled_stuck d d' : settled d → ¬ quiet d d'.
Proof.
  intros (_ & Hq) (l & Hl & _ & Hst). destruct l as [X o|X|X|X|X|X| |]; try done; destruct (Hq X) as (Q1 & Q2 & Q3 & Q4 & Q5); unfold duo_step in Hst.
  - by rewrite Q2 in Hst.
  - unfold outs in Q3. destruct (_core (dn d X)) as [co|]; [|done]. by destruct (co_out co).
  - by rewrite Q4 in Hst.
  - by rewrite bool_decide_eq_true_2 in Hst.
  - by rewrite Q1 in Hst.
Qed.

(** ** The theorems *)

(** (C27) Two nodes with [register_groups], connected and separated any number of
    times, with joins, leaves and ends at any moment (of groups under any name
    but the key that the codec reserves) and everything else in any order in
    which the events of the core are seen in time: whenever they are connected
    and nothing is under way, both list the same members, and a node that has
    seen the loss lists nobody of the other one. *)
Theorem reconnect_agrees d d' :
  duo_start d → rtc (timely id) d d' →
  (settled d' → ∀ g m, is_member (dn d' L) g m ↔ is_member (dn d' R) g m) ∧
  (∀ X, linked d' = false → de d' X = [] → no_members id (flip X) (dn d' X)).
Proof.
  intros Hst Hrun. pose proof (timely_run_ok d d' Hrun (start_ok d Hst)) as Hok. split; [intros ? ? ?; by apply settled_agrees|].
  intros X Hl He. destruct Hok as (ph & snap & cs & Hev & Hs & _). destruct (Hev X) as [E1 E2]. rewrite He in E1. rewrite Hl in E2.
  apply (so_none _ _ _ _ _ _ (Hs X)). left. by destruct (ph X).
Qed.


End reconnect_props.

(** ** Runs *)

#[local] Instance reconnect_codec : PayloadCodec := lapinbeam_codec demo_env.

Definition duo_ids (X : side) : string := match X with L => "A@h:1" | R => "B@h:2" end.

Definition grouped_node (X : side) : st :=
  exec (start (Bound (duo_ids X)) (λ _ _, None) ;; new_supervisor OneForOne 3 5000 ;; register_groups 0) (Node_init (duo_ids X) None).

Definition apart : duo := Duo grouped_node (λ _, []) (λ _, []) false.

(** A run in which every event is seen in time. *)
Fixpoint run_timely (ls : list label) (d : duo) : option duo :=
  match ls with
  | [] => Some d
  | l :: ls =>
      if in_time d l then match duo_step duo_ids l d with Some d' => run_timely ls d' | None => None end else None
  end.

Lemma run_timely_rtc ls d d' : run_timely ls d = Some d' → rtc (timely duo_ids) d d'.
Proof.
  revert d. induction ls as [|l ls IH]; intros d; cbn [run_timely]; [by intros [= ->]|].
  destruct (in_time d l) eqn:Et; [|done]. destruct (duo_step duo_ids l d) as [d1|] eqn:Es; [|done]. intros Hr.
  eapply rtc_l; [by exists l|]. by apply IH.
Qed.

Definition lists (X : side) (g : string) (Y : side) (n : string) (d : duo) : bool :=
  bool_decide ((duo_ids Y, n) ∈ default ∅ (_groups (dn d X) !! g)).

Lemma lists_member X g Y n d : lists X g Y n d = true ↔ is_member (dn d X) g (duo_ids Y, n).
Proof.
  unfold lists, is_member. rewrite bool_decide_eq_true. destruct (_groups (dn d X) !! g) as [ms|]; cbn; [naive_solver|].
  split; [set_solver|by intros (? & ? & _)].
Qed.

Lemma lists_not X g Y n d : lists X g Y n d = false → ¬ is_member (dn d X) g (duo_ids Y, n).
Proof. intros H Hm. apply lists_member in Hm. congruence. Qed.

Definition idle_side (d : duo) (X : side) : bool :=
  bool_decide (de d X = []) && bool_decide (jobs (dn d X) = []) && bool_decide (outs (dn d X) = []) &&
  bool_decide (dw d X = []) && bool_decide (inbox (dn d X) = []).

Lemma idle_side_spec d X :
  idle_side d X = true → de d X = [] ∧ jobs (dn d X) = [] ∧ outs (dn d X) = [] ∧ dw d X = [] ∧ inbox (dn d X) = [].
Proof. unfold idle_side. rewrite !andb_true_iff !bool_decide_eq_true. tauto. Qed.

Lemma settled_check d : linked d && idle_side d L && idle_side d R = true → settled d.
Proof. intros [[Hl HL]%andb_prop HR]%andb_prop. split; [done|]. intros X. apply idle_side_spec. by destruct X. Qed.

(** A run that gets through, as a sequence of steps. *)
Lemma run_timely_default ls d :
  bool_decide (is_Some (run_timely ls d)) = true → run_timely ls d = Some (default apart (run_timely ls d)).
Proof. intros H. apply bool_decide_eq_true in H as [d' ->]. done. Qed.

Lemma run_duo_default ls d :
  bool_decide (is_Some (run_duo duo_ids ls d)) = true → run_duo duo_ids ls d = Some (default apart (run_duo duo_ids ls d)).
Proof. intros H. apply bool_decide_eq_true in H as [d' ->]. done. Qed.

Lemma run_quiet ls d d' : forallb quiet_label ls = true → run_timely ls d = Some d' → nsteps (quiet duo_ids) (length ls) d d'.
Proof.
  revert d. induction ls as [|l ls IH]; intros d; cbn [run_timely forallb length]; [intros _ [= ->]; constructor|].
  intros [Hq Hqs]%andb_prop. destruct (in_time d l) eqn:Et; [|done]. destruct (duo_step duo_ids l d) as [d1|] eqn:Es; [|done]. intros Hr.
  eapply nsteps_l; [by exists l|]. by apply IH.
Qed.

(** The nodes connect and see it; a task's message gets to the other side. *)
Definition meet : list label := [LConnect; LEvent L; LEvent R; LJob L; LJob R].
Definition pass (X : side) : list label := [LJob X; LTransmit X; LDeliver X; LHandle (flip X)].

(** A member joins; the connection is lost, another member joins meanwhile, and
    the connection is made again. *)
Definition lost_and_found : list label :=
  meet ++ [LOp L (GJoin "g" "n")] ++ pass L ++
  [LDrop; LEvent R; LEvent L; LOp L (GJoin "g" "k"); LConnect; LEvent L; LEvent R; LJob R] ++ pass L.
Definition found_again : duo := default apart (run_timely lost_and_found apart).

Lemma found_again_run : rtc (timely duo_ids) apart found_again.
Proof. apply (run_timely_rtc lost_and_found), run_timely_default. vm_compute; reflexivity. Qed.

Lemma found_again_settled : settled found_again.
Proof. apply settled_check. vm_compute; reflexivity. Qed.

Lemma duo_ids_canonical X : canonical (duo_ids X) = inr (duo_ids X).
Proof. destruct X; vm_compute; reflexivity. Qed.

Lemma grouped_node_fresh X : fresh_node duo_ids X (grouped_node X).
Proof.
  assert (jobs (grouped_node X) = [] ∧ inbox (grouped_node X) = [] ∧ outs (grouped_node X) = []) as Hidle
    by (destruct X; split_and!; vm_compute; reflexivity).
  assert (_groups (grouped_node X) = ∅) as Hg by (destruct X; vm_compute; reflexivity).
  split; [|by destruct X; vm_compute|done|intros g m (ms & Hl & _); by rewrite Hg in Hl].
  assert (option_map (λ co, (co_running co, co_local co, co_peers co, co_out co)) (_core (grouped_node X)) =
    Some (true, duo_ids X, ∅, []) ∧ option_map co_refuses (_core (grouped_node X)) = Some (λ _ _, None)) as [Hco Hre]
    by (destruct X; split; vm_compute; reflexivity).
  split.
  - destruct (_core (grouped_node X)) as [co|]; [|done]. cbn in Hco, Hre. injection Hco as ? ? ? Hout. injection Hre as Hre.
    exists co. rewrite Hre Hout. by split_and!.
  - destruct X; vm_compute; reflexivity.
  - exists (Queue [] 0). destruct X; split; vm_compute; reflexivity.
  - destruct X; vm_compute; reflexivity.
  - destruct X; split_and!; vm_compute; reflexivity.
Qed.

Lemma apart_start : duo_start duo_ids apart.
Proof. split; [done|]. intros X. split; [apply grouped_node_fresh|done]. Qed.

Lemma reconnect_agrees_witness :
  is_member (dn found_again R) "g" ("A@h:1", "n") ∧ is_member (dn found_again R) "g" ("A@h:1", "k").
Proof.
  destruct (reconnect_agrees duo_ids (λ E : "A@h:1" = "B@h:2", ltac:(discriminate E)) duo_ids_canonical apart found_again
              apart_start found_again_run) as [Hag _].
  specialize (Hag found_again_settled "g").
  split.
  - apply (proj1 (Hag ("A@h:1", "n"))), (proj1 (lists_member L "g" L "n" found_again)). vm_compute; reflexivity.
  - apply (proj1 (Hag ("A@h:1", "k"))), (proj1 (lists_member L "g" L "k" found_again)). vm_compute; reflexivity.
Defined.

(** A member joins, and the connection is lost before anyone hears of it; then
    it is there again, and nobody has done anything yet. *)
Definition unheard : list label := meet ++ [LOp L (GJoin "g" "n"); LDrop; LJob L; LEvent R; LEvent L; LConnect].
Definition found : duo := default apart (run_timely unheard apart).
Definition telling : list label := [LEvent L; LEvent R; LJob R] ++ pass L.
Definition told : duo := default apart (run_timely telling found).

Lemma found_run : rtc (timely duo_ids) apart found.
Proof. apply (run_timely_rtc unheard), run_timely_default. vm_compute; reflexivity. Qed.

Lemma told_run : nsteps (quiet duo_ids) 7 found told.
Proof. apply (run_quiet telling); [done|]. apply run_timely_default. vm_compute; reflexivity. Qed.

Lemma told_settled : settled told.
Proof. apply settled_check. vm_compute; reflexivity. Qed.


(** ** Events that come late *)

(** The right node sees the loss and the new connection only after it has
    handled the snapshot that came with the new one. *)
Definition late_loss : list label :=
  meet ++ [LOp L (GJoin "g" "n")] ++ pass L ++ [LDrop; LConnect; LEvent L; LEvent L] ++ pass L ++ [LEvent R; LEvent R; LJob R].

(** The right node sees the loss while a change is still in the mailbox of its
    reserved actor. *)
Definition stale_mail : list label :=
  meet ++ [LOp L (GJoin "g" "n"); LJob L; LTransmit L; LDeliver L; LDrop; LEvent R; LHandle R; LEvent L; LOp L (GLeave "g" "n")].
(** Then they connect again, and nobody joins or leaves. *)
Definition again : list label := [LConnect; LEvent L; LEvent R; LJob L] ++ pass R.

Definition after (ls : list label) (d : duo) : duo := default apart (run_duo duo_ids ls d).

