(* ===== verification/RegistryCluster.v ===== *)
(** * Names in a cluster

    Nodes that register, release and look up names, with claims and releases
    under way between them.  The task of a delta, its frame, the wire, the
    mailbox of the reserved actor and the turn of its driver are taken together
    here as one queue per pair of nodes, in the order of the tasks; [Cluster]
    has these hops one by one, for the groups.

    Claims race: two nodes may take the same name before they hear of each
    other.  What holds all the same is that no node believes in an owner that
    has gone; what does not hold is that the nodes come to agree. *)

From S2P Require Import Prelude Values NodeId Actors State PeerEvents Asyncio Node NodeProps Links Registry.

(** A delta: the name, the owner, claim or release. *)
Abbreviation rdelta := (string * member * verb)%type.

Record rcluster := RCluster { rc_nodes : gmap string st; rc_chan : gmap (string * string) (list rdelta) }.

#[export] Instance rcluster_settable : Settable rcluster := λ r, RCluster (rc_nodes r) (rc_chan r).

Definition chan_of (cl : rcluster) (A B : string) : list rdelta := default [] (rc_chan cl !! (A, B)).

Definition rdelta_for (B : string) (j : job) : option rdelta :=
  match j with JRegistryDelta p n o v => if bool_decide (p = B) then Some (n, o, v) else None | _ => None end.

(** What [A] has under way for [B]. *)
Definition pending (cl : rcluster) (A B : string) (sA : st) : list rdelta :=
  chan_of cl A B ++ omap (rdelta_for B) (jobs sA).

(** What actors do to names; [NEnd] is the end of a generation. *)
Inductive name_op := NRegister (name actor : string) | NUnregister (name actor : string) | NEnd (actor : string).

Definition run_name_op (o : name_op) (s : st) : st :=
  match o with
  | NRegister n a => exec (register_name n (Some a) None) s
  | NUnregister n a => exec (unregister_name n (Some a) None) s
  | NEnd a => exec (_clear_registry a) s
  end.

Definition registry_job (j : job) : bool := match j with JRegistryDelta _ _ _ _ | JRegistrySnapshot _ => true | _ => false end.

Definition names_conf (s : st) := (local_id s, _registry_peers s, _registry_release_hook s).

(** Whatever else a node does. *)
Record names_unrelated (s s' : st) : Prop := {
  nu_conf : names_conf s' = names_conf s;
  nu_registry : _registry s' = _registry s;
  nu_jobs : filter (λ j, registry_job j = true) (jobs s') = filter (λ j, registry_job j = true) (jobs s)
}.

Inductive rstep (cl : rcluster) : rcluster → Prop :=
| rs_op A s o : rc_nodes cl !! A = Some s → rstep cl (cl <| rc_nodes ::= <[A := run_name_op o s]> |>)
| rs_send A s js1 B n o v js2 :
    rc_nodes cl !! A = Some s → jobs s = js1 ++ JRegistryDelta B n o v :: js2 → Forall (λ j, registry_job j = false) js1 →
    rstep cl (RCluster (<[A := s <| jobs := js1 ++ js2 |>]> (rc_nodes cl)) (<[(A, B) := chan_of cl A B ++ [(n, o, v)]]> (rc_chan cl)))
| rs_deliver A B s n o v rest :
    rc_chan cl !! (A, B) = Some ((n, o, v) :: rest) → rc_nodes cl !! B = Some s →
    rstep cl (RCluster (<[B := exec (registry_actor_receive (registry_delta_message n o v)) s]> (rc_nodes cl))
                       (<[(A, B) := rest]> (rc_chan cl)))
| rs_other A s s' : rc_nodes cl !! A = Some s → names_unrelated s s' → rstep cl (cl <| rc_nodes ::= <[A := s']> |>).

(** ** Claims that stand *)

(** Every claim of [o] for [n] in [l] is true ([own]) or taken back later. *)
Definition backed (n : string) (o : member) (own : Prop) (l : list rdelta) : Prop :=
  ∀ l1 l2, l = l1 ++ (n, o, VAdd) :: l2 → own ∨ (n, o, VRemove) ∈ l2.

#[export] Instance backed_proper n o : Proper (iff ==> eq ==> iff) (backed n o).
Proof. intros P Q HPQ l ? <-. unfold backed. by setoid_rewrite HPQ. Qed.

Lemma backed_own n o (own : Prop) l : own → backed n o own l.
Proof. by left. Qed.

Lemma backed_tail n o own d l : backed n o own (d :: l) → backed n o own l.
Proof. intros H l1 l2 ->. by apply (H (d :: l1) l2). Qed.

Lemma backed_app n o (own own' : Prop) l new :
  backed n o own l → (own → own' ∨ (n, o, VRemove) ∈ new) → ((n, o, VAdd) ∈ new → own') → backed n o own' (l ++ new).
Proof.
  intros Hl Hrem Hadd l1 l2 Heq. apply app_eq_app in Heq as (k & [[-> Hk]|[-> ->]]).
  - destruct k as [|d k]; cbn in Hk.
    + left. apply Hadd. rewrite -Hk. left.
    + injection Hk as <- ->. destruct (Hl l1 k eq_refl) as [Ho|Hin]; [|right; set_solver].
      destruct (Hrem Ho); [by left|right; set_solver].
  - left. apply Hadd. set_solver.
Qed.

(** ** The invariant *)

Record rnode_ok (Ns : gset string) (A : string) (s : st) : Prop := RNodeOk {
  rn_local : local_id s = A;
  rn_peers : _registry_peers s = Some (Ns ∖ {[A]});
  rn_hook : _registry_release_hook s = true;
  rn_jobs : ∀ B n o v, JRegistryDelta B n o v ∈ jobs s → o.1 = A ∧ B ∈ Ns ∧ B ≠ A
}.

(** For the claims of [A] as [B] has them or will hear of them. *)
Record pair_ok (cl : rcluster) (A B : string) (sA sB : st) : Prop := PairOk {
  po_entry : ∀ n x, _registry sB !! n = Some (A, x) →
    _registry sA !! n = Some (A, x) ∨ (n, (A, x), VRemove) ∈ pending cl A B sA;
  po_pending : ∀ n x, backed n (A, x) (_registry sA !! n = Some (A, x)) (pending cl A B sA)
}.

Record rinv (Ns : gset string) (cl : rcluster) : Prop := RInv {
  ri_dom : ∀ A, is_Some (rc_nodes cl !! A) ↔ A ∈ Ns;
  ri_nodes : ∀ A s, rc_nodes cl !! A = Some s → rnode_ok Ns A s;
  ri_chan : ∀ A B n o v, (n, o, v) ∈ chan_of cl A B → o.1 = A ∧ A ≠ B;
  ri_pairs : ∀ A B sA sB, A ≠ B → rc_nodes cl !! A = Some sA → rc_nodes cl !! B = Some sB → pair_ok cl A B sA sB
}.

(** *** What an operation does *)

Record name_effect (Ns : gset string) (A : string) (s s' : st) (D : list rdelta) : Prop := NameEffect {
  ne_conf : names_conf s' = names_conf s;
  ne_jobs : ∃ new, jobs s' = jobs s ++ new ∧ (∀ B, B ∈ Ns → B ≠ A → omap (rdelta_for B) new = D) ∧
    ∀ B n o v, JRegistryDelta B n o v ∈ new → o.1 = A ∧ B ∈ Ns ∧ B ≠ A;
  ne_released : ∀ n x, _registry s !! n = Some (A, x) → _registry s' !! n = Some (A, x) ∨ (n, (A, x), VRemove) ∈ D;
  ne_claimed : ∀ n x, (n, (A, x), VAdd) ∈ D → _registry s' !! n = Some (A, x);
  ne_others : ∀ n o, o.1 ≠ A → _registry s' !! n = Some o → _registry s !! n = Some o
}.

Lemma omap_rdelta_jobs B ps n o v :
  B ∈ ps → omap (rdelta_for B) (delta_jobs (Some ps) (λ p, JRegistryDelta p n o v)) = [(n, o, v)].
Proof.
  intros HB. cbn. pose proof (NoDup_elements ps) as Hnd. apply elem_of_elements in HB.
  induction (elements ps) as [|p l IH]; [set_solver|]. apply list.NoDup_cons in Hnd as [Hnp Hnd]. cbn. case_bool_decide; subst.
  - f_equal. clear IH Hnd HB. induction l as [|q l IH]; cbn; [done|].
    rewrite bool_decide_eq_false_2; [set_solver|]. apply IH. set_solver.
  - apply IH; set_solver.
Qed.

Lemma elem_of_rdelta_jobs ps n o v B n' o' v' :
  JRegistryDelta B n' o' v' ∈ delta_jobs (Some ps) (λ p, JRegistryDelta p n o v) → B ∈ ps ∧ n' = n ∧ o' = o ∧ v' = v.
Proof. cbn. rewrite list_elem_of_fmap. intros (p & [= -> -> -> ->] & Hp). by rewrite elem_of_elements in Hp. Qed.

Lemma name_effect_none Ns A s : name_effect Ns A s s [].
Proof.
  split; [done| |by left|by intros n x ?%elem_of_nil|done]. exists []. rewrite app_nil_r.
  split_and!; [done..|]. by intros B n o v ?%elem_of_nil.
Qed.

(** One name changes hands on the node and everybody is told. *)
Lemma name_effect_one Ns A s reg' n x v :
  rnode_ok Ns A s →
  (v = VAdd → _registry s !! n = None ∨ _registry s !! n = Some (A, x)) →
  reg' = (if v is VAdd then <[n := (A, x)]> (_registry s) else delete n (_registry s)) →
  (v = VRemove → _registry s !! n = Some (A, x)) →
  name_effect Ns A s (s <| _registry := reg' |> <| jobs ::= λ l, l ++ delta_jobs (_registry_peers s) (λ p, JRegistryDelta p n (A, x) v) |>)
    [(n, (A, x), v)].
Proof.
  intros [Hl Hp Hh Hj] Hadd -> Hrem. split; [done| |..]; cbn.
  - eexists. split; [done|]. rewrite Hp. split.
    + intros B HB HBA. apply omap_rdelta_jobs. set_solver.
    + intros B n' o' v' (HB & -> & -> & ->)%elem_of_rdelta_jobs. cbn. set_solver.
  - intros n' x' Hn. destruct (decide (n = n')) as [<-|Hne].
    + destruct v; [|right; rewrite (Hrem eq_refl) in Hn; injection Hn as <-; left].
      left. rewrite lookup_insert_eq. destruct (Hadd eq_refl) as [H|H]; congruence.
    + left. destruct v; rewrite ?lookup_insert_ne ?lookup_delete_ne //.
  - intros n' x' [= -> -> <-]%list_elem_of_singleton. by rewrite lookup_insert_eq.
  - intros n' o Ho. destruct v; [rewrite lookup_insert|rewrite lookup_delete]; case_decide; try done. intros [= <-]. done.
Qed.

Lemma register_name_effect Ns A s n x :
  rnode_ok Ns A s → ∃ D, name_effect Ns A s (run_name_op (NRegister n x) s) D.
Proof.
  intros Hok. pose proof (rn_local _ _ _ Hok) as Hl. cbn. unfold register_name; simpl. rewrite Hl.
  assert (_registry s !! n = None ∨ _registry s !! n = Some (A, x) →
    ∃ D, name_effect Ns A s (exec (registry_broadcast n (A, x) VAdd) (claim_name n (A, x) s)) D) as Hgo.
  { intros Hfree. eexists. unfold exec. rewrite registry_broadcast_spec. by apply (name_effect_one Ns A s _ n x VAdd). }
  destruct (_registry s !! n) as [e|] eqn:He; [|apply Hgo; by left].
  case_bool_decide as Hne; [exists []; apply name_effect_none|].
  apply Hgo. right. destruct (decide (e = (A, x))); [congruence|done].
Qed.

Lemma unregister_name_effect Ns A s n x :
  rnode_ok Ns A s → ∃ D, name_effect Ns A s (run_name_op (NUnregister n x) s) D.
Proof.
  intros Hok. pose proof (rn_local _ _ _ Hok) as Hl. cbn. unfold unregister_name; simpl. rewrite Hl.
  case_bool_decide as He; [|exists []; apply name_effect_none]. eexists.
  simpl. rewrite registry_broadcast_spec. by apply (name_effect_one Ns A s _ n x VRemove).
Qed.

Lemma end_effect Ns A s x : rnode_ok Ns A s → ∃ D, name_effect Ns A s (run_name_op (NEnd x) s) D.
Proof.
  intros [Hl Hp Hh Hj]. cbn. unfold exec. rewrite clear_registry_spec Hl. set (ns := names_of s (A, x)).
  exists ((λ n, (n, (A, x), VRemove)) <$> ns). split; [done| |..]; cbn.
  - eexists. split; [done|]. unfold release_jobs. rewrite Hh Hp. split.
    + intros B HB HBA. induction ns as [|n ns IH]; [done|].
      rewrite bind_cons omap_app fmap_cons omap_rdelta_jobs; [set_solver|]. cbn. by rewrite IH.
    + intros B n o v (n' & Hn & _)%list_elem_of_bind. apply elem_of_rdelta_jobs in Hn as (HB & -> & -> & ->). cbn. set_solver.
  - intros n y Hn. rewrite map_lookup_filter Hn /=. case_guard as Hg; [by left|]. right. apply list_elem_of_fmap. exists n.
    destruct (decide (y = x)) as [->|Hyx]; [by split; [|apply elem_of_names_of]|]. congruence.
  - intros n y (n' & Hn & _)%list_elem_of_fmap. done.
  - intros n o Ho. rewrite map_lookup_filter. destruct (_registry s !! n) as [o'|]; [|done]. cbn. by case_guard; intros [= <-].
Qed.

Lemma name_op_effect Ns A s o : rnode_ok Ns A s → ∃ D, name_effect Ns A s (run_name_op o s) D.
Proof. destruct o; [apply register_name_effect|apply unregister_name_effect|apply end_effect]. Qed.

(** *** Steps *)

(** One node changes, and the queues it sends to or reads from. *)
Lemma rinv_update Ns cl X s s' ch :
  rinv Ns cl → rc_nodes cl !! X = Some s → rnode_ok Ns X s' →
  let cl' := RCluster (<[X := s']> (rc_nodes cl)) ch in
  (∀ A B n o v, (n, o, v) ∈ chan_of cl' A B → o.1 = A ∧ A ≠ B) →
  (∀ A B, A ≠ X → B ≠ X → chan_of cl' A B = chan_of cl A B) →
  (∀ B sB, B ≠ X → rc_nodes cl !! B = Some sB → pair_ok cl X B s sB → pair_ok cl' X B s' sB) →
  (∀ A sA, A ≠ X → rc_nodes cl !! A = Some sA → pair_ok cl A X sA s → pair_ok cl' A X sA s') →
  rinv Ns cl'.
Proof.
  intros [Hdom Hnodes Hchan Hpairs] HX Hok cl' Hch Hsame Hfrom Hto. split; cbn.
  - intros A. rewrite lookup_insert_is_Some' -Hdom. split; [|auto]. intros [<-|?]; [by exists s|done].
  - intros A sA. rewrite lookup_insert. case_decide; [intros [= <-]; by subst|]. apply Hnodes.
  - done.
  - intros A B sA sB Hne. rewrite !lookup_insert. do 2 case_decide; subst; try done.
    + intros [= <-] HB. apply (Hfrom B sB); [congruence|done|]. by apply Hpairs.
    + intros HA [= <-]. apply (Hto A sA); [congruence|done|]. by apply Hpairs.
    + intros HA HB. destruct (Hpairs A B sA sB Hne HA HB) as [H1 H2].
      split; intros n x; unfold pending; rewrite Hsame; by try congruence; apply H1 || apply H2.
Qed.

Lemma names_conf_ok Ns A s s' :
  rnode_ok Ns A s → names_conf s' = names_conf s →
  (∀ B n o v, JRegistryDelta B n o v ∈ jobs s' → o.1 = A ∧ B ∈ Ns ∧ B ≠ A) → rnode_ok Ns A s'.
Proof. intros [Hl Hp Hh _] [= H1 H2 H3] Hj. by split; congruence || done. Qed.

Lemma rinv_op Ns cl A s o :
  rinv Ns cl → rc_nodes cl !! A = Some s → rinv Ns (cl <| rc_nodes ::= <[A := run_name_op o s]> |>).
Proof.
  intros Hi HA. pose proof (ri_nodes _ _ Hi A s HA) as Hok.
  destruct (name_op_effect Ns A s o Hok) as [D [Hconf (new & Hjobs & HD & Hnew) Hrel Hcl Hoth]].
  assert (HAN : ∀ B sB, rc_nodes cl !! B = Some sB → B ∈ Ns) by (intros; apply (ri_dom _ _ Hi); eauto).
  apply (rinv_update Ns cl A s); [done..| | | | |].
  - apply (names_conf_ok Ns A s); [done..|]. intros B n o' v. rewrite Hjobs elem_of_app. intros [H|H]; [by eapply Hok|by eapply Hnew].
  - apply (ri_chan _ _ Hi).
  - done.
  - intros B sB HB HsB [H1 H2]. assert (pending (cl <| rc_nodes ::= <[A := run_name_op o s]> |>) A B (run_name_op o s) = pending cl A B s ++ D) as Hp.
    { unfold pending. rewrite Hjobs omap_app HD; [by eapply HAN|done|]. by rewrite app_assoc. }
    split; intros n x.
    + intros Hn. rewrite Hp. destruct (H1 n x Hn) as [Hown|Hin]; [|right; set_solver].
      destruct (Hrel n x Hown); [by left|right; set_solver].
    + rewrite Hp. eapply backed_app; [apply H2|apply Hrel|apply Hcl].
  - intros B sB HB HsB [H1 H2]. split; intros n x; [|apply H2]. intros Hn. apply H1. apply (Hoth n (B, x)); [done|done].
Qed.

Lemma omap_no_registry B js : Forall (λ j, registry_job j = false) js → omap (rdelta_for B) js = [].
Proof. induction 1 as [|j js Hj _ IH]; [done|]. by destruct j. Qed.

Lemma rinv_send Ns cl A s js1 B n o v js2 :
  rinv Ns cl → rc_nodes cl !! A = Some s → jobs s = js1 ++ JRegistryDelta B n o v :: js2 → Forall (λ j, registry_job j = false) js1 →
  rinv Ns (RCluster (<[A := s <| jobs := js1 ++ js2 |>]> (rc_nodes cl)) (<[(A, B) := chan_of cl A B ++ [(n, o, v)]]> (rc_chan cl))).
Proof.
  intros Hi HA Hj Hjs. pose proof (ri_nodes _ _ Hi A s HA) as Hok. set (cl' := RCluster _ _).
  assert (∀ B', pending cl' A B' (s <| jobs := js1 ++ js2 |>) = pending cl A B' s) as Hp.
  { intros B'. unfold pending, chan_of. cbn. rewrite Hj !omap_app (omap_no_registry B' js1 Hjs). cbn [app omap list_omap rdelta_for].
    rewrite lookup_insert. destruct (decide (B = B')) as [<-|Hne].
    - rewrite decide_True // bool_decide_eq_true_2 //. by rewrite /= -app_assoc.
    - rewrite decide_False; [congruence|]. by rewrite bool_decide_eq_false_2. }
  assert (∀ A' B', A' ≠ A → chan_of cl' A' B' = chan_of cl A' B') as Hc.
  { intros A' B' Hne. unfold chan_of. cbn. rewrite lookup_insert_ne //. congruence. }
  apply (rinv_update Ns cl A s); [done..| | | | |].
  - apply (names_conf_ok Ns A s); [done..|]. intros B' n' o' v' H. apply (rn_jobs _ _ _ Hok B' n' o' v'). rewrite Hj. set_solver.
  - intros A' B' n' o' v'. destruct (decide ((A', B') = (A, B))) as [[= -> ->]|Hne].
    + unfold chan_of at 1. cbn. rewrite lookup_insert_eq. cbn. rewrite elem_of_app. intros [H|[= -> -> ->]%list_elem_of_singleton].
      * by apply (ri_chan _ _ Hi _ _ n' o' v').
      * destruct (rn_jobs _ _ _ Hok B n o v) as (H1 & H2 & H3); [rewrite Hj; set_solver|]. auto.
    + unfold chan_of at 1. cbn. rewrite lookup_insert_ne //. apply (ri_chan _ _ Hi).
  - intros A' B' H1 H2. by apply Hc.
  - intros B' sB HB HsB [H1 H2]. split; intros n' x; rewrite Hp; [apply H1|apply H2].
  - intros A' sA HA' HsA [H1 H2]. split; intros n' x; unfold pending; (rewrite Hc; [done|]); [apply H1|apply H2].
Qed.

(** Reporting a conflict changes nothing but the reports. *)
Lemma conflict_conf n e o s :
  let s' := exec (_on_core_event (EvRegistryConflict n e o)) s in names_conf s' = names_conf s ∧ jobs s' = jobs s.
Proof.
  unfold _on_core_event; simpl.
  apply (for_each_invariant (λ s', names_conf s' = names_conf s ∧ jobs s' = jobs s)); [|done].
  intros l s1 [<- <-]. by destruct l as [| | |id []].
Qed.

(** What handling a delta does to a table. *)
Lemma receive_registry n o v s :
  let s' := exec (registry_actor_receive (registry_delta_message n o v)) s in
  names_conf s' = names_conf s ∧ jobs s' = jobs s ∧
  _registry s' =
    match v with
    | VAdd => match _registry s !! n with Some _ => _registry s | None => <[n := o]> (_registry s) end
    | VRemove => if bool_decide (_registry s !! n = Some o) then delete n (_registry s) else _registry s
    end.
Proof.
  cbn zeta. destruct v.
  - assert (registry_actor_receive (registry_delta_message n o VAdd) s = hear_claim n o s) as E by (by destruct o).
    unfold exec. rewrite E -/(exec (hear_claim n o) s).
    pose proof (hear_claim_spec n o s) as [_ Hr]. rewrite Hr. cut (names_conf (exec (hear_claim n o) s) = names_conf s ∧ jobs (exec (hear_claim n o) s) = jobs s); [by intros []|].
    unfold hear_claim; simpl. destruct (_registry s !! n) as [e|]; [|done]. case_bool_decide; [|done]. apply conflict_conf.
  - assert (registry_actor_receive (registry_delta_message n o VRemove) s = hear_release n o s) as E by (by destruct o).
    unfold exec. rewrite E. unfold hear_release; simpl. by case_bool_decide.
Qed.

Lemma rinv_deliver Ns cl A B s n o v rest :
  rinv Ns cl → rc_chan cl !! (A, B) = Some ((n, o, v) :: rest) → rc_nodes cl !! B = Some s →
  rinv Ns (RCluster (<[B := exec (registry_actor_receive (registry_delta_message n o v)) s]> (rc_nodes cl))
                    (<[(A, B) := rest]> (rc_chan cl))).
Proof.
  intros Hi Hc HB. pose proof (ri_nodes _ _ Hi B s HB) as Hok. set (cl' := RCluster _ _).
  destruct (receive_registry n o v s) as (Hconf & Hjobs & Hreg). set (s' := exec _ s) in *.
  assert (chan_of cl A B = (n, o, v) :: rest) as Hch by (unfold chan_of; by rewrite Hc).
  destruct (ri_chan _ _ Hi A B n o v) as [Ho HAB]; [rewrite Hch; left|]. destruct o as [A0 y]. cbn in Ho. subst A0.
  assert (∀ A' B', (A', B') ≠ (A, B) → chan_of cl' A' B' = chan_of cl A' B') as Hother.
  { intros A' B' Hne. unfold chan_of. cbn. by rewrite lookup_insert_ne. }
  assert (chan_of cl' A B = rest) as Hch' by (unfold chan_of; cbn; by rewrite lookup_insert_eq).
  assert (∀ n' o', o'.1 ≠ A → (_registry s' !! n' = Some o' ↔ _registry s !! n' = Some o')) as Hkeep.
  { intros n' o' Ho'. rewrite Hreg. destruct v.
    - destruct (_registry s !! n) eqn:En; [done|]. rewrite lookup_insert. case_decide as Heq; [|done].
      rewrite -Heq En. by split; intros [= <-].
    - case_bool_decide as En; [|done]. rewrite lookup_delete. case_decide as Heq; [|done].
      rewrite -Heq En. by split; intros [= <-]. }
  apply (rinv_update Ns cl B s); [done..| | | | |].
  - apply (names_conf_ok Ns B s); [done..|]. rewrite Hjobs. apply Hok.
  - intros A' B' n' o' v'. destruct (decide ((A', B') = (A, B))) as [[= -> ->]|Hne].
    + rewrite Hch'. intros H. apply (ri_chan _ _ Hi A B n' o' v'). rewrite Hch. by right.
    + rewrite Hother //. apply (ri_chan _ _ Hi).
  - intros A' B' H1 H2. apply Hother. congruence.
  - intros C sC HC HsC [H1 H2]. assert (pending cl' B C s' = pending cl B C s) as Hp by (unfold pending; rewrite Hother; [congruence|by rewrite Hjobs]).
    split; intros n' x; rewrite Hp (Hkeep n' (B, x)); [done|apply H1|done|apply H2].
  - intros A' sA HA' HsA [H1 H2]. destruct (decide (A' = A)) as [->|Hne]; cycle 1.
    { split; intros n' x; (unfold pending; rewrite Hother; [congruence|]); [rewrite (Hkeep n' (A', x)) //; apply H1|apply H2]. }
    unfold pending in H1, H2. rewrite Hch in H1, H2. split; intros n' x; unfold pending; rewrite Hch'.
    + intros Hn'. assert (_registry s !! n' = Some (A, x) ∨ (n', (A, x), v) = (n, (A, y), VAdd)) as [Hold|[= -> -> ->]].
      { rewrite Hreg in Hn'. destruct v.
        - destruct (_registry s !! n) eqn:En; [by left|]. rewrite lookup_insert in Hn'. case_decide as Heq; [|by left].
          right. congruence.
        - case_bool_decide; [|by left]. rewrite lookup_delete in Hn'. case_decide; [done|by left]. }
      * destruct (H1 n' x Hold) as [?|Hin]; [by left|]. cbn in Hin. apply elem_of_cons in Hin as [[= -> -> <-]|Hin]; [|by right].
        exfalso. rewrite Hreg bool_decide_eq_true_2 // lookup_delete_eq in Hn'. done.
      * destruct (H2 n y [] (rest ++ omap (rdelta_for B) (jobs sA))) as [?|?]; [done|by left|by right].
    + apply (backed_tail _ _ _ (n, (A, y), v)), H2.
Qed.

Lemma omap_registry_jobs B (js : list job) : omap (rdelta_for B) js = omap (rdelta_for B) (filter (λ j, registry_job j = true) js).
Proof.
  induction js as [|j js IH]; [done|]. destruct (registry_job j) eqn:Hj.
  - rewrite filter_cons_True //. cbn. destruct (rdelta_for B j); by rewrite IH.
  - rewrite filter_cons_False; [congruence|]. rewrite -IH. by destruct j.
Qed.

Lemma rinv_other Ns cl A s s' :
  rinv Ns cl → rc_nodes cl !! A = Some s → names_unrelated s s' → rinv Ns (cl <| rc_nodes ::= <[A := s']> |>).
Proof.
  intros Hi HA [Hconf Hreg Hjobs]. pose proof (ri_nodes _ _ Hi A s HA) as Hok.
  assert (∀ B, omap (rdelta_for B) (jobs s') = omap (rdelta_for B) (jobs s)) as Hp.
  { intros B. by rewrite omap_registry_jobs Hjobs -omap_registry_jobs. }
  apply (rinv_update Ns cl A s); [done..| |apply (ri_chan _ _ Hi)|done| |].
  - apply (names_conf_ok Ns A s); [done..|]. intros B n o v Hj. apply (rn_jobs _ _ _ Hok B n o v).
    assert (JRegistryDelta B n o v ∈ filter (λ j, registry_job j = true) (jobs s')) as H by (by apply list_elem_of_filter).
    rewrite Hjobs in H. by apply list_elem_of_filter in H as [_ H].
  - intros B sB HB HsB [H1 H2]. split; intros n x; unfold pending; rewrite Hp Hreg; [apply H1|apply H2].
  - intros B sB HB HsB [H1 H2]. split; intros n x; [rewrite Hreg; apply H1|apply H2].
Qed.

Lemma rinv_step Ns cl cl' : rinv Ns cl → rstep cl cl' → rinv Ns cl'.
Proof.
  intros Hi []; [by apply rinv_op|by eapply rinv_send|by eapply rinv_deliver|by eapply rinv_other].
Qed.

(** ** From the start *)

(** Nodes [Ns], connected to each other, with [register_registry] done and no
    name registered yet. *)
Record names_start (Ns : gset string) (cl : rcluster) : Prop := NamesStart {
  ns_dom : ∀ A, is_Some (rc_nodes cl !! A) ↔ A ∈ Ns;
  ns_node : ∀ A s, rc_nodes cl !! A = Some s →
    local_id s = A ∧ _registry_peers s = Some (Ns ∖ {[A]}) ∧ _registry_release_hook s = true ∧
    _registry s = ∅ ∧ Forall (λ j, registry_job j = false) (jobs s);
  ns_chan : ∀ A B, chan_of cl A B = []
}.

Lemma rinv_start Ns cl : names_start Ns cl → rinv Ns cl.
Proof.
  intros [Hdom Hn Hc]. split; [done| | |].
  - intros A s HA. destruct (Hn A s HA) as (H1 & H2 & H3 & _ & H5). split; [done..|]. intros B n o v Hj.
    rewrite list.Forall_forall in H5. by specialize (H5 _ Hj).
  - intros A B n o v. rewrite Hc. by intros ?%elem_of_nil.
  - intros A B sA sB Hne HA HB. destruct (Hn A sA HA) as (_ & _ & _ & _ & Hj). destruct (Hn B sB HB) as (_ & _ & _ & Hr & _).
    split; intros n x; [by rewrite Hr lookup_empty|]. unfold pending. rewrite Hc (omap_no_registry B _ Hj). by intros [] l2.
Qed.

(** Nothing is under way. *)
Definition settled (cl : rcluster) : Prop :=
  ∀ A B sA, rc_nodes cl !! A = Some sA → pending cl A B sA = [].

(** (C26) No ghosts: in a connected cluster, whatever the nodes do to names and
    however claims and releases race, an owner that some node believes in owns
    the name on its own node, or its release is on the way to that node.  So
    once nothing is under way, a reference that [whereis_name] gives for
    another node is to an actor that has the name there. *)
Theorem registry_no_ghosts Ns cl0 cl :
  names_start Ns cl0 → rtc rstep cl0 cl →
  (∀ A B sA sB n x, A ≠ B → rc_nodes cl !! A = Some sA → rc_nodes cl !! B = Some sB →
     _registry sB !! n = Some (A, x) →
     _registry sA !! n = Some (A, x) ∨ (n, (A, x), VRemove) ∈ pending cl A B sA) ∧
  (settled cl → ∀ A B sA sB n x, A ≠ B → rc_nodes cl !! A = Some sA → rc_nodes cl !! B = Some sB →
     whereis_name sB n = Some (RemoteRef A x) → whereis_name sA n = Some (ActorRef x)).
Proof.
  intros Hs%rinv_start Hr. assert (rinv Ns cl) as Hi.
  { revert Hs. induction Hr as [cl|cl1 cl2 cl3 H12 _ IH]; [done|]. intros Hi. apply IH. by eapply rinv_step. }
  assert (∀ A B sA sB n x, A ≠ B → rc_nodes cl !! A = Some sA → rc_nodes cl !! B = Some sB →
     _registry sB !! n = Some (A, x) →
     _registry sA !! n = Some (A, x) ∨ (n, (A, x), VRemove) ∈ pending cl A B sA) as Hghost.
  { intros A B sA sB n x Hne HA HB. by apply (ri_pairs _ _ Hi A B). }
  split; [exact Hghost|]. intros Hq A B sA sB n x Hne HA HB Hw. unfold whereis_name in *.
  destruct (_registry sB !! n) as [[A0 y]|] eqn:Hn; [|done]. case_bool_decide; [done|]. injection Hw as -> ->.
  destruct (Hghost A B sA sB n x Hne HA HB Hn) as [->|Hin].
  - by rewrite (rn_local _ _ _ (ri_nodes _ _ Hi A sA HA)) bool_decide_eq_true_2.
  - rewrite Hq // in Hin. by apply elem_of_nil in Hin.
Qed.

(** ** Races *)

Definition hear (n : string) (o : member) (v : verb) (s : st) : st := exec (registry_actor_receive (registry_delta_message n o v)) s.

Lemma hear_local n o v s : local_id (hear n o v s) = local_id s.
Proof. destruct (receive_registry n o v s) as (Hc & _). by injection Hc. Qed.

Lemma hear_taken n o e s : _registry s !! n = Some e → _registry (hear n o VAdd s) = _registry s.
Proof. intros He. destruct (receive_registry n o VAdd s) as (_ & _ & Hr). unfold hear. by rewrite Hr He. Qed.

Lemma register_free n a s :
  _registry s !! n = None →
  _registry (run_name_op (NRegister n a) s) = <[n := (local_id s, a)]> (_registry s) ∧ local_id (run_name_op (NRegister n a) s) = local_id s.
Proof. intros Hn. cbn. unfold register_name; simpl. rewrite Hn. simpl. by rewrite registry_broadcast_spec. Qed.

Lemma unregister_own n a s :
  _registry s !! n = Some (local_id s, a) →
  _registry (run_name_op (NUnregister n a) s) = delete n (_registry s) ∧ local_id (run_name_op (NUnregister n a) s) = local_id s.
Proof.
  intros Hn. cbn. unfold unregister_name; simpl. rewrite bool_decide_eq_true_2 //. simpl. by rewrite registry_broadcast_spec.
Qed.

(** A gap: two nodes that claim a free name at once do not disagree
    briefly.  When every claim has been heard everywhere each of the two has
    itself as the owner, a third has the one it heard of first, and no node
    sends anything more about it.  When the first owner then gives the name up
    and everybody has heard, the second still has it, and neither the first nor
    the third knows of any owner. *)
Theorem split_claim_stays n a b sA sB sC :
  local_id sA ≠ local_id sB → _registry sA !! n = None → _registry sB !! n = None → _registry sC !! n = None →
  let ownA := (local_id sA, a) in
  let ownB := (local_id sB, b) in
  let sA1 := hear n ownB VAdd (run_name_op (NRegister n a) sA) in
  let sB1 := hear n ownA VAdd (run_name_op (NRegister n b) sB) in
  let sC1 := hear n ownB VAdd (hear n ownA VAdd sC) in
  (whereis_name sA1 n = Some (ActorRef a) ∧ whereis_name sB1 n = Some (ActorRef b) ∧ _registry sC1 !! n = Some ownA ∧
   jobs sA1 = jobs (run_name_op (NRegister n a) sA) ∧ jobs sB1 = jobs (run_name_op (NRegister n b) sB) ∧ jobs sC1 = jobs sC) ∧
  whereis_name (run_name_op (NUnregister n a) sA1) n = None ∧
  whereis_name (hear n ownA VRemove sB1) n = Some (ActorRef b) ∧
  whereis_name (hear n ownA VRemove sC1) n = None.
Proof.
  intros Hne HA HB HC ownA ownB sA1 sB1 sC1.
  destruct (register_free n a sA HA) as [RA LA]. destruct (register_free n b sB HB) as [RB LB].
  assert (_registry sA1 = <[n := ownA]> (_registry sA)) as RA1 by (unfold sA1; rewrite (hear_taken _ _ ownA) // RA lookup_insert_eq //).
  assert (_registry sB1 = <[n := ownB]> (_registry sB)) as RB1 by (unfold sB1; rewrite (hear_taken _ _ ownB) // RB lookup_insert_eq //).
  assert (local_id sA1 = local_id sA) as LA1 by (unfold sA1; by rewrite hear_local).
  assert (local_id sB1 = local_id sB) as LB1 by (unfold sB1; by rewrite hear_local).
  destruct (receive_registry n ownA VAdd sC) as (_ & JC & RC). rewrite HC in RC.
  assert (_registry sC1 = <[n := ownA]> (_registry sC)) as RC1.
  { unfold sC1. rewrite (hear_taken _ _ ownA); unfold hear; rewrite RC // lookup_insert_eq //. }
  split; [split_and!|split_and!].
  - unfold whereis_name. rewrite RA1 lookup_insert_eq LA1 /=. by rewrite bool_decide_eq_true_2.
  - unfold whereis_name. rewrite RB1 lookup_insert_eq LB1 /=. by rewrite bool_decide_eq_true_2.
  - by rewrite RC1 lookup_insert_eq.
  - apply (receive_registry n ownB VAdd).
  - apply (receive_registry n ownA VAdd).
  - unfold sC1. etransitivity; [apply (receive_registry n ownB VAdd)|exact JC].
  - unfold whereis_name. destruct (unregister_own n a sA1) as [-> _]; [by rewrite RA1 lookup_insert_eq LA1|]. by rewrite lookup_delete_eq.
  - unfold whereis_name. destruct (receive_registry n ownA VRemove sB1) as (_ & _ & Hr). unfold hear at 1 2. rewrite Hr.
    rewrite RB1 lookup_insert_eq bool_decide_eq_false_2; [unfold ownA, ownB; congruence|].
    rewrite lookup_insert_eq -/(hear n ownA VRemove sB1) hear_local LB1 /=. by rewrite bool_decide_eq_true_2.
  - unfold whereis_name. destruct (receive_registry n ownA VRemove sC1) as (_ & _ & Hr). unfold hear at 1. rewrite Hr.
    rewrite RC1 lookup_insert_eq bool_decide_eq_true_2 //. by rewrite lookup_delete_eq.
Qed.
