(* ===== verification/Wire.v ===== *)
(** * The wire format

    [src/src/wire/]: [WireMessage], the length-prefixed frames and the
    incremental decoder of [framing.rs], and the proof of the shared secret of
    [auth.rs]; the writer task of [src/src/transport/peer.rs].  [bincode] and
    HMAC-SHA256 are crates: the classes [Bincode] and [Hmac] state what the
    code relies on.  The theorems put the pieces together: what one node queues
    for a peer is what that peer's decoder hands on, in order, however the
    bytes are batched and cut on the way. *)

From coqutil Require Byte Word.LittleEndianList.
From stdpp Require Import pretty.
From S2P Require Import Prelude State.
Import coqutil.Word.LittleEndianList(le_split, le_combine, le_combine_split, le_combine_bound, length_le_split).

Abbreviation byte := Corelib.Init.Byte.byte.

(** ** Messages: [wire/mod.rs] *)

Definition PROTOCOL_VERSION : Z := 1.
Definition MAX_FRAME_SIZE : Z := 16 * 1024 * 1024.

Inductive message_kind := Handshake | Data | Heartbeat | Error.

#[export] Instance message_kind_eq_dec : EqDecision message_kind.
Proof. solve_decision. Defined.

#[export] Instance byte_eq_dec : EqDecision byte := Stdlib.Strings.Byte.byte_eq_dec.

Record wire_message := WireMessage {
  wm_version : Z;              (* u8 *)
  wm_msg_id : Z;               (* u64 *)
  wm_src : string;
  wm_dst_actor : string;
  wm_kind : message_kind;
  wm_payload : list byte;
  wm_reply_to : option string;
  wm_correlation_id : option Z (* u64 *)
}.

#[export] Instance wire_message_eq_dec : EqDecision wire_message.
Proof. solve_decision. Defined.

#[export] Instance wire_message_settable : Settable wire_message :=
  λ r, WireMessage (wm_version r) (wm_msg_id r) (wm_src r) (wm_dst_actor r) (wm_kind r)
                   (wm_payload r) (wm_reply_to r) (wm_correlation_id r).

Definition u64_range (z : Z) : Prop := (0 ≤ z < 2 ^ 64)%Z.

(** The values that the fields' Rust types admit. *)
Record wm_wf (m : wire_message) : Prop := WmWf {
  wf_version : (0 ≤ wm_version m < 2 ^ 8)%Z;
  wf_msg_id : u64_range (wm_msg_id m);
  wf_correlation_id : ∀ z, wm_correlation_id m = Some z → u64_range z
}.

Definition heartbeat (msg_id : Z) (src : string) : wire_message :=
  WireMessage PROTOCOL_VERSION msg_id src "" Heartbeat [] None None.

Definition handshake (msg_id : Z) (src : string) : wire_message :=
  WireMessage PROTOCOL_VERSION msg_id src "" Handshake [] None None.

(** ** The shared secret: [wire/auth.rs] *)

Definition NONCE_LEN : nat := 16.
Definition PROOF_LEN : nat := 32.

(** [Hmac<Sha256>]: it takes a key of any length and its output has 32 bytes. *)
Class Hmac := {
  hmac_sha256 : list byte → list byte → list byte;
  hmac_length secret data : length (hmac_sha256 secret data) = PROOF_LEN
}.

Section auth.
Context {HM : Hmac}.

(** [nonce] is what [fill_bytes] writes. *)
Definition build_proof (secret nonce : list byte) : list byte := nonce ++ hmac_sha256 secret nonce.

Definition verify_proof (secret payload : list byte) : bool :=
  if negb (length payload =? NONCE_LEN + PROOF_LEN)%nat then false
  else
    let nonce := take NONCE_LEN payload in
    let proof := drop NONCE_LEN payload in
    bool_decide (hmac_sha256 secret nonce = proof).

Definition handshake_with_auth (msg_id : Z) (src : string) (secret nonce : list byte) : wire_message :=
  (handshake msg_id src) <| wm_payload := build_proof secret nonce |>.

(** A payload passes exactly when it is a proof built from the same secret with
    some nonce of the right length. *)
Lemma verify_proof_iff secret payload :
  verify_proof secret payload = true ↔ ∃ nonce, length nonce = NONCE_LEN ∧ payload = build_proof secret nonce.
Proof.
  unfold verify_proof, build_proof. split.
  - destruct (Nat.eqb_spec (length payload) (NONCE_LEN + PROOF_LEN)) as [Hl|]; [|done]. simpl.
    intros He%bool_decide_eq_true. exists (take NONCE_LEN payload).
    rewrite length_take He take_drop. unfold NONCE_LEN, PROOF_LEN in *. split; [lia|done].
  - intros (nonce & Hn & ->). rewrite length_app hmac_length Hn Nat.eqb_refl. cbn [negb].
    rewrite -Hn take_app_length drop_app_length. by apply bool_decide_eq_true.
Qed.
End auth.

(** ** Frames: [wire/framing.rs] *)

(** [bincode::serde] in its standard configuration: decoding what was encoded
    gives the message back and reads all of it. *)
Class Bincode := {
  bincode_encode : wire_message → option (list byte);
  bincode_decode : list byte → option (wire_message * nat);
  bincode_roundtrip m body : wm_wf m → bincode_encode m = Some body → bincode_decode body = Some (m, length body)
}.

Inductive frame_error := TooLarge (n : Z) | Decode.

#[export] Instance frame_error_eq_dec : EqDecision frame_error.
Proof. solve_decision. Defined.

Section framing.
Context {BC : Bincode}.

(** [body.len() as u32] keeps the low 32 bits. *)
Definition encode_frame (m : wire_message) : option (list byte) :=
  match bincode_encode m with
  | None => None
  | Some body => Some (le_split 4 (Z.of_nat (length body)) ++ body)
  end.

(** The loop of [FrameDecoder::decode] on the bytes buffered so far: what was
    decoded or the error, and the bytes left in the buffer. *)
Fixpoint decode_loop (fuel : nat) (buf : list byte) (out : list wire_message)
    : (frame_error + list wire_message) * list byte :=
  match fuel with
  | O => (inr out, buf)
  | S fuel =>
      if (length buf <? 4)%nat then (inr out, buf)
      else
        let len := le_combine (take 4 buf) in
        if (MAX_FRAME_SIZE <? len)%Z then (inl (TooLarge len), buf)
        else if (Z.of_nat (length buf) <? 4 + len)%Z then (inr out, buf)
        else
          let buf := drop 4 buf in
          let body := take (Z.to_nat len) buf in
          let buf := drop (Z.to_nat len) buf in
          match bincode_decode body with
          | None => (inl Decode, buf)
          | Some (msg, _) => decode_loop fuel buf (out ++ [msg])
          end
  end.

(** Every round takes four bytes at least. *)
Definition decode (buf data : list byte) : (frame_error + list wire_message) * list byte :=
  decode_loop (S (length (buf ++ data))) (buf ++ data) [].

(** A read loop: chunks are decoded as they come, until one fails. *)
Fixpoint feed (buf : list byte) (chunks : list (list byte)) (out : list wire_message)
    : (frame_error + list wire_message) * list byte :=
  match chunks with
  | [] => (inr out, buf)
  | data :: chunks =>
      match decode buf data with
      | (inl e, buf') => (inl e, buf')
      | (inr msgs, buf') => feed buf' chunks (out ++ msgs)
      end
  end.

(** *** The decoder does not depend on how the stream is cut *)

(** [out] in front of what was decoded. *)
Definition prepend (out : list wire_message) (r : (frame_error + list wire_message) * list byte)
    : (frame_error + list wire_message) * list byte :=
  match r with
  | (inl e, buf) => (inl e, buf)
  | (inr ms, buf) => (inr (out ++ ms), buf)
  end.

Lemma prepend_nil r : prepend [] r = r.
Proof. by destruct r as [[e|ms] b]. Qed.

Lemma prepend_app a b r : prepend (a ++ b) r = prepend a (prepend b r).
Proof. destruct r as [[e|ms] l]; [done|]. simpl. by rewrite app_assoc. Qed.

Lemma decode_loop_out fuel : ∀ buf out, decode_loop fuel buf out = prepend out (decode_loop fuel buf []).
Proof.
  induction fuel as [|fuel IH]; intros buf out; cbn [decode_loop]; [by rewrite /= app_nil_r|].
  do 3 (case_match; [by rewrite /= ?app_nil_r|]).
  destruct (bincode_decode _) as [[msg k]|]; [|done]. rewrite IH (IH _ [msg]) prepend_app //.
Qed.

Lemma frame_decode_fuel n : ∀ m buf out, length buf < n → length buf < m → decode_loop n buf out = decode_loop m buf out.
Proof.
  induction n as [|n IH]; intros [|m] buf out Hn Hm; [lia..|]. cbn [decode_loop].
  destruct (Nat.ltb_spec (length buf) 4); [done|]. do 2 (case_match; [done|]).
  destruct (bincode_decode _) as [[msg k]|]; [|done]. apply IH; rewrite !length_drop; lia.
Qed.

(** All that a buffer holds, and its equation. *)
Definition decode_all (buf : list byte) : (frame_error + list wire_message) * list byte := decode [] buf.

#[global] Arguments decode_all : simpl never.

Lemma decode_all_eq buf :
  decode_all buf =
  if (length buf <? 4)%nat then (inr [], buf)
  else
    let len := le_combine (take 4 buf) in
    if (MAX_FRAME_SIZE <? len)%Z then (inl (TooLarge len), buf)
    else if (Z.of_nat (length buf) <? 4 + len)%Z then (inr [], buf)
    else
      match bincode_decode (take (Z.to_nat len) (drop 4 buf)) with
      | None => (inl Decode, drop (Z.to_nat len) (drop 4 buf))
      | Some (msg, _) => prepend [msg] (decode_all (drop (Z.to_nat len) (drop 4 buf)))
      end.
Proof.
  unfold decode_all at 1, decode. cbn [decode_loop app].
  destruct (Nat.ltb_spec (length buf) 4); [done|]. do 2 (case_match; [done|]).
  destruct (bincode_decode _) as [[msg k]|]; [|done]. rewrite decode_loop_out. f_equal.
  apply frame_decode_fuel; cbn [app]; rewrite ?length_drop; lia.
Qed.

Lemma decode_all_nil : decode_all [] = (inr [], []).
Proof. done. Qed.

(** A buffer that grew: what the shorter one gave comes first, and an error of
    the shorter one is the error of the longer one. *)
Lemma decode_all_app x y :
  decode_all (x ++ y) =
  match decode_all x with
  | (inl e, r) => (inl e, r ++ y)
  | (inr ms, r) => prepend ms (decode_all (r ++ y))
  end.
Proof.
  remember (length x) as n eqn:Hn. revert x Hn. induction (lt_wf n) as [n _ IH]; intros x ->.
  rewrite (decode_all_eq x). destruct (Nat.ltb_spec (length x) 4); [by rewrite prepend_nil|].
  cbv zeta. set (len := le_combine (take 4 x)). rewrite (decode_all_eq (x ++ y)) length_app.
  rewrite (proj2 (Nat.ltb_ge _ 4)); [lia|]. rewrite take_app_le; [lia|]. cbv zeta. rewrite -/len.
  destruct (MAX_FRAME_SIZE <? len)%Z eqn:Hbig; [done|].
  destruct (Z.ltb_spec (Z.of_nat (length x)) (4 + len)) as [Hshort|Hlong].
  { rewrite prepend_nil (decode_all_eq (x ++ y)) length_app.
    rewrite (proj2 (Nat.ltb_ge _ 4)); [lia|]. rewrite take_app_le; [lia|]. cbv zeta. by rewrite -/len Hbig. }
  rewrite (proj2 (Z.ltb_ge _ _)); [lia|].
  assert (0 ≤ len)%Z by apply le_combine_bound.
  rewrite drop_app_le; [lia|]. rewrite take_app_le; [rewrite length_drop; lia|].
  rewrite drop_app_le; [rewrite length_drop; lia|].
  destruct (bincode_decode _) as [[msg k]|]; [|done].
  rewrite (IH (length (drop (Z.to_nat len) (drop 4 x)))) //; [rewrite !length_drop; lia|].
  destruct (decode_all (drop _ _)) as [[e|ms] r]; [done|]. by rewrite -prepend_app.
Qed.

(** What is left in a decoder holds no complete frame. *)
Lemma decode_all_stuck x ms r : decode_all x = (inr ms, r) → decode_all r = (inr [], r).
Proof.
  intros Hx. pose proof (decode_all_app x []) as Happ. rewrite app_nil_r Hx app_nil_r in Happ.
  destruct (decode_all r) as [[e|ms'] r'] eqn:Hr; simpl in Happ; [done|].
  injection Happ as Hms ->. by rewrite -{1}(app_nil_r ms) in Hms; apply app_inv_head in Hms as <-.
Qed.

Lemma decode_decode_all buf data : decode buf data = decode_all (buf ++ data).
Proof. done. Qed.

(** Reading a stream in chunks gives what reading it at once gives: the same
    messages and the same bytes left, or the same error. *)
Lemma feed_chunks chunks : ∀ buf out, decode_all buf = (inr [], buf) →
  (feed buf chunks out).1 = (prepend out (decode_all (buf ++ concat chunks))).1 ∧
  ∀ ms, (feed buf chunks out).1 = inr ms → feed buf chunks out = prepend out (decode_all (buf ++ concat chunks)).
Proof.
  induction chunks as [|data chunks IH]; intros buf out Hbuf; cbn [feed concat].
  { rewrite app_nil_r Hbuf /= app_nil_r. done. }
  rewrite decode_decode_all app_assoc (decode_all_app (buf ++ data)).
  destruct (decode_all (buf ++ data)) as [[e|ms] r] eqn:E; [by split|].
  rewrite -prepend_app. apply IH. by eapply decode_all_stuck.
Qed.

(** *** Frames *)

(** The message has a frame, and the decoder at the other end takes it. *)
Definition fits (m : wire_message) (f : list byte) : Prop :=
  wm_wf m ∧ encode_frame m = Some f ∧ (Z.of_nat (length f) ≤ 4 + MAX_FRAME_SIZE)%Z.

Lemma encode_frame_inv m f :
  encode_frame m = Some f →
  ∃ body, bincode_encode m = Some body ∧ f = le_split 4 (Z.of_nat (length body)) ++ body ∧
          length f = 4 + length body.
Proof.
  unfold encode_frame. destruct (bincode_encode m) as [body|]; [|done]. intros [= <-].
  exists body. done.
Qed.

(** The header of a frame, with bytes behind it. *)
Lemma frame_header (body rest : list byte) :
  (Z.of_nat (length body) < 2 ^ 32)%Z →
  let f := le_split 4 (Z.of_nat (length body)) ++ body in
  le_combine (take 4 (f ++ rest)) = Z.of_nat (length body) ∧ drop 4 (f ++ rest) = body ++ rest.
Proof.
  intros Hlen. cbv zeta. rewrite -app_assoc.
  pose proof (length_le_split 4 (Z.of_nat (length body))) as H4. split.
  - rewrite take_app_length' // le_combine_split. change (Z.of_nat 4 * 8)%Z with 32%Z. apply Z.mod_small. lia.
  - by rewrite drop_app_length'.
Qed.

Lemma decode_frame m f rest : fits m f → decode_all (f ++ rest) = prepend [m] (decode_all rest).
Proof.
  intros (Hwf & Hf & Hmax). apply encode_frame_inv in Hf as (body & Hb & -> & Hl).
  rewrite Hl in Hmax. unfold MAX_FRAME_SIZE in Hmax.
  destruct (frame_header body rest) as [Hh Hd]; [lia|].
  rewrite decode_all_eq length_app Hl (proj2 (Nat.ltb_ge _ 4)); [lia|]. cbv zeta. rewrite Hh Hd.
  rewrite (proj2 (Z.ltb_ge MAX_FRAME_SIZE _)); [unfold MAX_FRAME_SIZE; lia|].
  rewrite (proj2 (Z.ltb_ge _ _)); [lia|]. rewrite Nat2Z.id take_app_length drop_app_length.
  by rewrite (bincode_roundtrip m body Hwf Hb).
Qed.

(** A frame over the limit is refused as soon as its header is there. *)
Lemma oversize_frame m f n :
  encode_frame m = Some f → (4 + MAX_FRAME_SIZE < Z.of_nat (length f) < 2 ^ 32)%Z → 4 ≤ n →
  decode [] (take n f) = (inl (TooLarge (Z.of_nat (length f) - 4)), take n f).
Proof.
  intros Hf Hlen Hn. apply encode_frame_inv in Hf as (body & Hb & Hf & Hl). rewrite Hl in Hlen |- *.
  destruct (frame_header body []) as [Hh _]; [lia|]. rewrite app_nil_r -Hf in Hh.
  rewrite decode_decode_all app_nil_l decode_all_eq length_take (proj2 (Nat.ltb_ge _ 4)); [lia|].
  cbv zeta. rewrite take_take Nat.min_l // Hh.
  rewrite (proj2 (Z.ltb_lt MAX_FRAME_SIZE _)); [lia|]. do 3 f_equal. lia.
Qed.

Lemma decode_frames ms fs rest :
  Forall2 fits ms fs → decode_all (concat fs ++ rest) = prepend ms (decode_all rest).
Proof.
  induction 1 as [|m f ms fs Hf _ IH]; [by rewrite prepend_nil|]. cbn [concat].
  rewrite -app_assoc (decode_frame m) // IH -prepend_app //.
Qed.

(** Frames survive the stream: however the bytes of a sequence of frames
    are cut into reads, the decoder hands on exactly the messages, in order,
    and keeps nothing. *)
Theorem frames_roundtrip msgs frames chunks :
  Forall2 fits msgs frames → concat chunks = concat frames → feed [] chunks [] = (inr msgs, []).
Proof.
  intros Hf Hc. destruct (feed_chunks chunks [] []) as [H1 H2]; [done|].
  pose proof (decode_frames msgs frames [] Hf) as Hd. rewrite decode_all_nil /= !app_nil_r in Hd.
  rewrite prepend_nil /= Hc Hd in H1 H2. by eapply H2.
Qed.

End framing.

(** ** Channels

    [tokio::sync::mpsc]: a bounded queue.  [contents] is what a channel holds,
    oldest first. *)
Class Mpsc (A : Type) := {
  chan : Type;
  mpsc_channel : nat → chan;
  try_send : A → chan → option chan;
  try_recv : chan → option (A * chan);
  contents : chan → list A;
  capacity : chan → nat;
  channel_new n : contents (mpsc_channel n) = [] ∧ capacity (mpsc_channel n) = n;
  try_send_room x c : is_Some (try_send x c) ↔ length (contents c) < capacity c;
  try_send_fifo x c c' : try_send x c = Some c' → contents c' = contents c ++ [x] ∧ capacity c' = capacity c;
  try_recv_empty c : try_recv c = None ↔ contents c = [];
  try_recv_fifo x c c' : try_recv c = Some (x, c') → contents c = x :: contents c' ∧ capacity c' = capacity c
}.
Arguments chan A {_}.

(** ** One direction of a connection: [transport/peer.rs]

    The queue of a [PeerHandle], the writer task behind it, the bytes on their
    way and the read loop with its decoder at the other end.  The last two
    fields are what was accepted for sending and what was handed on. *)

Inductive send_error_t := Closed | PeerNotFound | PayloadTooLarge (n : Z).

#[export] Instance send_error_eq_dec : EqDecision send_error_t.
Proof. solve_decision. Defined.

(** [Display for SendError] *)
Definition send_error_text (e : send_error_t) : string :=
  match e with
  | Closed => "peer connection is closed"
  | PeerNotFound => "peer not connected"
  | PayloadTooLarge n => "payload too large (" +:+ pretty n +:+ " bytes)"
  end.

Inductive send_result (A : Type) := SendOk (a : A) | SendErr (e : send_error_t) | SendWaits.
Arguments SendOk {A} a.
Arguments SendErr {A} e.
Arguments SendWaits {A}.

Section connection.
Context {BC : Bincode} {MP : Mpsc wire_message}.

(** The batch that one round of the writer puts together after its first
    message: [try_recv] until the queue is empty, leaving out what cannot be
    encoded. *)
Fixpoint coalesce (fuel : nat) (q : chan wire_message) (batch : list byte) : list byte * chan wire_message :=
  match fuel with
  | O => (batch, q)
  | S fuel =>
      match try_recv q with
      | None => (batch, q)
      | Some (next, q') =>
          coalesce fuel q' (match encode_frame next with Some f => batch ++ f | None => batch end)
      end
  end.

(** One round of [writer_loop]: the bytes for [write_all], [None] when the first
    message was dropped or there is none. *)
Definition writer_round (q : chan wire_message) : option (option (list byte) * chan wire_message) :=
  match try_recv q with
  | None => None
  | Some (msg, q') =>
      match encode_frame msg with
      | None => Some (None, q')
      | Some f => let '(batch, q'') := coalesce (length (contents q')) q' f in Some (Some batch, q'')
      end
  end.

Record connection := Connection {
  cn_queue : chan wire_message;
  cn_writer : bool;            (* the writer task runs *)
  cn_socket : list byte;       (* written and not yet read *)
  cn_reader : bool;            (* the read loop runs *)
  cn_buf : list byte;          (* the decoder's buffer *)
  cn_sent : list wire_message;
  cn_received : list wire_message
}.

#[export] Instance connection_settable : Settable connection :=
  λ r, Connection (cn_queue r) (cn_writer r) (cn_socket r) (cn_reader r) (cn_buf r) (cn_sent r) (cn_received r).

(** [PeerHandle::send]: it waits for room, and fails only when the writer is
    gone. *)
Definition peer_send (m : wire_message) (c : connection) : send_result connection :=
  if cn_writer c then
    match try_send m (cn_queue c) with
    | None => SendWaits
    | Some q => SendOk (c <| cn_queue := q |> <| cn_sent ::= λ l, l ++ [m] |>)
    end
  else SendErr Closed.

Definition READ_BUF : nat := 4096.

Inductive conn_step (c : connection) : connection → Prop :=
| cs_send m c' : peer_send m c = SendOk c' → conn_step c c'
| cs_drop q : cn_writer c = true → writer_round (cn_queue c) = Some (None, q) → conn_step c (c <| cn_queue := q |>)
| cs_write batch q :
    cn_writer c = true → writer_round (cn_queue c) = Some (Some batch, q) →
    conn_step c (c <| cn_queue := q |> <| cn_socket ::= λ l, l ++ batch |>)
| cs_write_fails batch written lost q :
    (* [write_all] fails after some of the bytes, and the task returns *)
    cn_writer c = true → writer_round (cn_queue c) = Some (Some batch, q) → batch = written ++ lost →
    conn_step c (c <| cn_queue := q |> <| cn_socket ::= λ l, l ++ written |> <| cn_writer := false |>)
| cs_read data rest msgs buf :
    cn_reader c = true → cn_socket c = data ++ rest → 0 < length data ≤ READ_BUF →
    decode (cn_buf c) data = (inr msgs, buf) →
    conn_step c (c <| cn_socket := rest |> <| cn_buf := buf |> <| cn_received ::= λ l, l ++ msgs |>)
| cs_read_fails data rest e buf :
    cn_reader c = true → cn_socket c = data ++ rest → 0 < length data ≤ READ_BUF →
    decode (cn_buf c) data = (inl e, buf) →
    conn_step c (c <| cn_socket := rest |> <| cn_buf := buf |> <| cn_reader := false |>)
| cs_cut :
    (* end of file, a read error or [peer_timeout] *)
    conn_step c (c <| cn_reader := false |>).

Definition conn_init (cap : nat) : connection := Connection (mpsc_channel cap) true [] true [] [] [].

(** The messages that have a frame, and their frames. *)
Definition encodable (ms : list wire_message) : list wire_message :=
  filter (λ m, encode_frame m ≠ None) ms.
Definition frames_of (ms : list wire_message) : list byte := concat (omap encode_frame ms).

#[global] Arguments encodable : simpl never.
#[global] Arguments frames_of : simpl never.

(** Nothing over the limit was sent. *)
Definition within_limit (m : wire_message) : Prop := ∀ f, encode_frame m = Some f → fits m f.

Lemma coalesce_all n : ∀ q batch, length (contents q) ≤ n →
  (coalesce n q batch).1 = batch ++ frames_of (contents q) ∧ contents (coalesce n q batch).2 = [].
Proof.
  induction n as [|n IH]; intros q batch Hn; cbn [coalesce].
  { destruct (contents q) as [|x l] eqn:E; [|simpl in Hn; lia]. by rewrite /frames_of /= app_nil_r E. }
  destruct (try_recv q) as [[x q']|] eqn:E.
  - apply try_recv_fifo in E as [E _]. rewrite E in Hn |- *. simpl in Hn.
    destruct (IH q' (match encode_frame x with Some f => batch ++ f | None => batch end)) as [-> ->]; [lia|].
    split; [|done]. rewrite /frames_of /=. destruct (encode_frame x); [|done]. by rewrite /= app_assoc.
  - apply try_recv_empty in E. by rewrite E /frames_of /= app_nil_r.
Qed.

(** A round takes messages from the head of the queue and writes their frames. *)
Lemma writer_round_spec q b q' :
  writer_round q = Some (b, q') → frames_of (contents q) = default [] b ++ frames_of (contents q').
Proof.
  unfold writer_round. destruct (try_recv q) as [[m q1]|] eqn:E; [|done].
  apply try_recv_fifo in E as [-> _]. rewrite /frames_of /=.
  destruct (encode_frame m) as [f|] eqn:Ef; simpl.
  - destruct (coalesce _ q1 f) as [batch q2] eqn:Ec. intros [= <- <-].
    destruct (coalesce_all (length (contents q1)) q1 f) as [H1 H2]; [done|]. rewrite Ec /= in H1 H2.
    by rewrite H1 H2 /= app_nil_r.
  - by intros [= <- <-].
Qed.

Lemma frames_of_app a b : frames_of (a ++ b) = frames_of a ++ frames_of b.
Proof. unfold frames_of. by rewrite omap_app concat_app. Qed.

(** What the queue, the socket and the decoder hold is what was sent and not
    yet received; [tail] is not yet written. *)
Record conn_inv (c : connection) (tail : list byte) (pending : list wire_message) : Prop := ConnInv {
  ci_stuck : decode_all (cn_buf c) = (inr [], cn_buf c);
  ci_stream : decode_all (cn_buf c ++ cn_socket c ++ tail) = (inr pending, []);
  ci_sent : encodable (cn_sent c) = cn_received c ++ pending;
  ci_tail : cn_writer c = true → tail = frames_of (contents (cn_queue c))
}.

Lemma conn_inv_init cap : conn_inv (conn_init cap) [] [].
Proof. split; try done. intros _. by rewrite /= (proj1 (channel_new cap)). Qed.

Lemma conn_inv_send c tail pending m c' :
  within_limit m → conn_inv c tail pending → peer_send m c = SendOk c' →
  ∃ tail' pending', conn_inv c' tail' pending'.
Proof.
  intros Hm [Hstuck Hstream Hsent Htail]. unfold peer_send. destruct (cn_writer c) eqn:Hw; [|done].
  destruct (try_send m (cn_queue c)) as [q|] eqn:Hs; [|done]. intros [= <-].
  apply try_send_fifo in Hs as [Hq _]. specialize (Htail eq_refl).
  exists (tail ++ frames_of [m]), (pending ++ encodable [m]). split; cbn.
  - done.
  - assert (∀ l, cn_buf c ++ cn_socket c ++ tail ++ l = (cn_buf c ++ cn_socket c ++ tail) ++ l) as ->.
    { intros l. by rewrite -!app_assoc. }
    rewrite decode_all_app Hstream /frames_of /encodable.
    cbn. destruct (encode_frame m) as [f|] eqn:Ef; cbn.
    + rewrite app_nil_r -(app_nil_r f) (decode_frame m); [by apply Hm|]. by rewrite decode_all_nil.
    + by rewrite decode_all_nil.
  - by rewrite /encodable list.filter_app -/(encodable _) Hsent app_assoc.
  - intros _. by rewrite Hq frames_of_app Htail.
Qed.

Lemma conn_inv_read c tail pending data rest :
  conn_inv c tail pending → cn_socket c = data ++ rest →
  ∃ msgs buf pending', decode (cn_buf c) data = (inr msgs, buf) ∧ pending = msgs ++ pending' ∧
    conn_inv (c <| cn_socket := rest |> <| cn_buf := buf |> <| cn_received ::= λ l, l ++ msgs |>) tail pending'.
Proof.
  intros [Hstuck Hstream Hsent Htail] Hsock. rewrite decode_decode_all.
  rewrite Hsock -app_assoc app_assoc decode_all_app in Hstream.
  destruct (decode_all (cn_buf c ++ data)) as [[e|msgs] buf] eqn:E; [done|].
  destruct (decode_all (buf ++ rest ++ tail)) as [[e|pending'] l] eqn:E'; [done|].
  injection Hstream as Hp ->. exists msgs, buf, pending'. split; [done|]. split; [done|]. split; cbn.
  - by eapply decode_all_stuck.
  - done.
  - by rewrite Hsent -Hp app_assoc.
  - done.
Qed.

Lemma conn_inv_step c c' tail pending :
  conn_inv c tail pending → Forall within_limit (cn_sent c') → conn_step c c' →
  ∃ tail' pending', conn_inv c' tail' pending'.
Proof.
  intros Hinv Hok Hstep. revert Hok. destruct Hstep as [m c1 Hs|q Hw Hr|batch q Hw Hr|batch written lost q Hw Hr Hb|data rest msgs buf Hrd Hsock Hlen Hd
                  |data rest e buf Hrd Hsock Hlen Hd|]; intros Hok.
  - eapply conn_inv_send; [|done..]. unfold peer_send in Hs. repeat (case_match; try done).
    injection Hs as <-. cbn in Hok. apply list.Forall_app in Hok as [_ Hx]. by inversion Hx.
  - destruct Hinv as [H1 H2 H3 H4]. apply writer_round_spec in Hr. exists tail, pending. split; [done..|].
    intros _. cbn. by rewrite (H4 Hw) Hr.
  - destruct Hinv as [H1 H2 H3 H4]. apply writer_round_spec in Hr. rewrite (H4 Hw) Hr in H2.
    exists (frames_of (contents q)), pending. split; [done| |done..]. cbn. by rewrite -app_assoc.
  - destruct Hinv as [H1 H2 H3 H4]. apply writer_round_spec in Hr. rewrite (H4 Hw) Hr Hb in H2.
    exists (lost ++ frames_of (contents q)), pending. split; [done| |done..]. cbn.
    cbn in H2. by rewrite -!app_assoc in H2 |- *.
  - destruct (conn_inv_read c tail pending data rest) as (msgs' & buf' & pend' & Hd' & _ & Hc); [done..|].
    rewrite Hd in Hd'. injection Hd' as <- <-. eauto.
  - destruct (conn_inv_read c tail pending data rest) as (msgs' & buf' & pend' & Hd' & _ & Hc); [done..|]. congruence.
  - exists tail, pending. by destruct Hinv.
Qed.

(** Messages are only ever added to what was sent. *)
Lemma conn_step_sent c c' : conn_step c c' → cn_sent c `prefix_of` cn_sent c'.
Proof.
  destruct 1 as [m c1 Hs| | | | | |]; cbn; try done. unfold peer_send in Hs. repeat (case_match; try done).
  injection Hs as <-. cbn. by eexists.
Qed.

Lemma conn_inv_reachable cap c :
  rtc conn_step (conn_init cap) c → Forall within_limit (cn_sent c) → ∃ tail pending, conn_inv c tail pending.
Proof.
  revert c. apply (rtc_ind_r (λ c, Forall within_limit (cn_sent c) → ∃ tail pending, conn_inv c tail pending)).
  { intros _. exists [], []. apply conn_inv_init. }
  intros c1 c2 _ Hs IH Hok. destruct IH as (tail & pending & Hi); [|by eapply conn_inv_step].
  destruct (conn_step_sent _ _ Hs) as [l Hl]. rewrite Hl in Hok. by apply list.Forall_app in Hok as [? _].
Qed.

(** (C18) A connection is a FIFO: while nothing over the frame limit is sent, what
    the peer receives is at every moment a prefix of what was sent (of the
    messages that can be encoded at all), no read fails to decode, and once
    queue and socket are empty and the writer still runs, everything has
    arrived. *)
Theorem connection_fifo cap c :
  rtc conn_step (conn_init cap) c → Forall within_limit (cn_sent c) →
  cn_received c `prefix_of` encodable (cn_sent c) ∧
  (∀ data rest, cn_socket c = data ++ rest → ∃ msgs buf, decode (cn_buf c) data = (inr msgs, buf)) ∧
  (cn_writer c = true → contents (cn_queue c) = [] → cn_socket c = [] → cn_received c = encodable (cn_sent c)).
Proof.
  intros Hr Hok. destruct (conn_inv_reachable cap c Hr Hok) as (tail & pending & Hi). split; [|split].
  - rewrite (ci_sent _ _ _ Hi). by eexists.
  - intros data rest Hs. destruct (conn_inv_read c tail pending data rest Hi Hs) as (ms & buf & _ & Hd & _). eauto.
  - intros Hw Hq Hs. destruct Hi as [H1 H2 H3 H4]. rewrite Hs (H4 Hw) Hq /= app_nil_r H1 in H2.
    injection H2 as <- _. by rewrite H3 app_nil_r.
Qed.

End connection.
