(* ===== verification/Transport.v ===== *)
(** * The transport

    [src/src/transport/mod.rs]: the tasks that keep a node connected.  An async
    function is cut at its awaits: a task is where one of them stands, and a
    step runs it to its next lock, channel or socket.  Tokio runs tasks on
    several threads, so the steps of different tasks interleave freely.  Timers
    may fire at any step: no theorem depends on their lengths.

    The crates are reached through classes: [Bincode], [Hmac] and [Mpsc] of
    [Wire], [Broadcast] for [tokio::sync::broadcast] and [Json] for
    [serde_json]. *)

From S2P Require Import Prelude Values NodeId State Wire.

(** ** What the crates promise *)

(** A receiver of a broadcast channel has a position in what was sent.  It gets
    the value there; when more than [cap] values were sent since, the oldest
    are gone and it is told so once. *)
Inductive recv_result (A : Type) := RecvOk (a : A) (cursor : nat) | RecvLagged (cursor : nat) | RecvEmpty.
Arguments RecvOk {A} a cursor.
Arguments RecvLagged {A} cursor.
Arguments RecvEmpty {A}.

Class Broadcast (A : Type) := {
  bc_recv : nat → nat → list A → recv_result A;
  bc_recv_ok cap cursor log a :
    log !! cursor = Some a → length log - cursor ≤ cap → bc_recv cap cursor log = RecvOk a (S cursor);
  bc_recv_lagged cap cursor log : cap < length log - cursor → bc_recv cap cursor log = RecvLagged (length log - cap);
  bc_recv_empty cap cursor log : length log ≤ cursor → bc_recv cap cursor log = RecvEmpty
}.

(** [json!({"error": detail})] as bytes, and [payload_json().to_string()]. *)
Class Json := {
  json_error : string → list byte;
  json_error_text : string → string;
  payload_text : list byte → string;
  json_error_roundtrip detail : payload_text (json_error detail) = json_error_text detail
}.

(** ** Data *)

#[export] Instance node_id_countable : Countable node_id_t.
Proof.
  refine (inj_countable' (λ i, (nid_name i, nid_host i, nid_port i)) (λ '(n, h, p), NodeId n h p) _). by intros [].
Defined.

(** The durations are left out: see above. *)
Record transport_config := TransportConfig {
  tc_peer_queue_capacity : nat;
  tc_reconnect : bool;
  tc_reconnect_max_attempts : option Z;   (* u32 *)
  tc_cluster_secret : option (list byte)
}.

Definition default_config : transport_config := TransportConfig 256 true (Some 30%Z) None.

Inductive tevent :=
| PeerConnected (p : node_id_t)
| PeerDisconnected (p : node_id_t)
| ErrorReceived (from : node_id_t) (detail : string) (correlation_id : option Z)
| ReconnectGaveUp (p : node_id_t)
| MailboxFull (actor : string).

#[export] Instance tevent_eq_dec : EqDecision tevent.
Proof. solve_decision. Defined.

(** [events: broadcast::Sender::new(64)] *)
Definition EVENTS_CAPACITY : nat := 64.

(** [PeerHandle]: [ph_tx] is its channel, which clones share. *)
Record peer_handle := PeerHandle { ph_peer_id : node_id_t; ph_tx : nat }.

#[export] Instance peer_handle_eq_dec : EqDecision peer_handle.
Proof. solve_decision. Defined.

Definition is_same_connection (a b : peer_handle) : bool := bool_decide (ph_tx a = ph_tx b).

(** *** Where the tasks stand *)

Inductive dial_pc :=
| DHasPeer                     (* [self.has_peer(&peer).await] *)
| DDesire                      (* [self.desired.write().await] *)
| DConnect                     (* [TcpStream::connect(...).await] *)
| DRegister (h : peer_handle)  (* [self.peers.write().await] *)
| DSend (h : peer_handle).     (* [handle.send(hs).await] *)

Inductive reconnect_pc := RcSleep | RcDesired | RcHasPeer | RcDial (pc : dial_pc) | RcGivesUp.

Inductive read_pc :=
| RStart                       (* spawned: [events.subscribe()] is ahead *)
| RSelect                      (* [tokio::select!] *)
| RFrames (frames : list wire_message)
| RRegister (p : node_id_t) (h : peer_handle) (frames : list wire_message)  (* [self.peers.write().await] *)
| RAnnounce (p : node_id_t) (frames : list wire_message)                    (* inserted, event ahead *)
| RCleanup                     (* out of the loop *)
| RGone (p : node_id_t).       (* removed, event ahead *)

Record read_task := ReadTask {
  rl_write_half : bool;
  rl_registered : option (node_id_t * peer_handle);
  rl_buf : list byte;
  rl_cursor : nat;
  rl_pc : read_pc
}.

#[export] Instance read_task_settable : Settable read_task :=
  λ r, ReadTask (rl_write_half r) (rl_registered r) (rl_buf r) (rl_cursor r) (rl_pc r).

Inductive beat_pc := BStart | BWait (cursor : nat) | BSend (cursor : nat).
Inductive forget_pc := FDesired | FPeers | FAnnounce.
Inductive shutdown_pc := SStop | SDesired | SPeers.

Inductive ttask :=
| TConnect (p : node_id_t) (pc : dial_pc)
| TReconnect (p : node_id_t) (attempts : Z) (pc : reconnect_pc)
| TRead (r : read_task)
| TBeat (p : node_id_t) (pc : beat_pc)
| TSupervise (cursor : nat) (dropped : option node_id_t)
| TForget (p : node_id_t) (pc : forget_pc)
| TShutdown (pc : shutdown_pc).

Section transport.
Context {BC : Bincode} {HM : Hmac} {MP : Mpsc wire_message} {BR : Broadcast tevent} {JS : Json}.

Record transport := Transport {
  t_local : node_id_t;
  t_config : transport_config;
  t_peers : gmap node_id_t peer_handle;
  t_desired : gset node_id_t;
  t_routing : gmap string (chan wire_message);
  t_events : list tevent;        (* all that was sent *)
  t_stopped : bool;
  t_next_msg_id : Z;
  (* the queue of every handle, and whether its writer runs *)
  t_queues : gmap nat (chan wire_message * bool);
  t_next_tx : nat;
  t_tasks : gmap nat ttask;
  t_next_task : nat
}.

#[export] Instance transport_settable : Settable transport :=
  λ r, Transport (t_local r) (t_config r) (t_peers r) (t_desired r) (t_routing r) (t_events r)
                 (t_stopped r) (t_next_msg_id r) (t_queues r) (t_next_tx r) (t_tasks r) (t_next_task r).

(** ** Small operations *)

Definition emit (ev : tevent) (t : transport) : transport := t <| t_events ::= λ l, l ++ [ev] |>.

(** [fetch_add(1)]: the number, and the next one. *)
Definition next_msg_id (t : transport) : Z * transport := (t_next_msg_id t, t <| t_next_msg_id ::= next_u64 |>).

Definition spawn_task (k : ttask) (t : transport) : transport :=
  t <| t_tasks ::= <[t_next_task t := k]> |> <| t_next_task ::= S |>.
Definition set_task (i : nat) (k : ttask) (t : transport) : transport := t <| t_tasks ::= <[i := k]> |>.
Definition end_task (i : nat) (t : transport) : transport := t <| t_tasks ::= delete i |>.

Definition t_has_peer (p : node_id_t) (t : transport) : bool := bool_decide (is_Some (t_peers t !! p)).
Definition t_peer_count (t : transport) : nat := size (t_peers t).

(** The name is told apart from the mailbox of the same name that it replaces. *)
Definition t_register_actor (name : string) (mailbox : chan wire_message) (t : transport) : transport :=
  t <| t_routing ::= <[name := mailbox]> |>.
Definition t_unregister_actor (name : string) (t : transport) : transport := t <| t_routing ::= delete name |>.

(** [PeerHandle::spawn] *)
Definition spawn_handle (p : node_id_t) (t : transport) : peer_handle * transport :=
  let tx := t_next_tx t in
  (PeerHandle p tx,
   t <| t_queues ::= <[tx := (mpsc_channel (tc_peer_queue_capacity (t_config t)), true)]> |> <| t_next_tx ::= S |>).

(** [handle.send(msg).await] *)
Definition handle_send (h : peer_handle) (m : wire_message) (t : transport) : send_result transport :=
  match t_queues t !! ph_tx h with
  | Some (q, true) =>
      match try_send m q with
      | Some q' => SendOk (t <| t_queues ::= <[ph_tx h := (q', true)]> |>)
      | None => SendWaits
      end
  | _ => SendErr Closed
  end.

(** [dialer < acceptor] on the full ids *)
Definition connection_wins_tiebreak (local p : node_id_t) (we_are_dialer : bool) : bool :=
  let '(dialer, acceptor) := if we_are_dialer then (to_full local, to_full p) else (to_full p, to_full local) in
  match Stdlib.Strings.String.compare dialer acceptor with Lt => true | _ => false end.

#[global] Arguments connection_wins_tiebreak : simpl never.

(** ** Sending *)

Definition send_msg (p : node_id_t) (m : wire_message) (t : transport) : send_result transport :=
  match t_peers t !! p with
  | None => SendErr PeerNotFound
  | Some h => handle_send h m t
  end.

(** The result, and the state when there is nothing to wait for; a number is
    used up even when the peer is not there. *)
Definition send_data_bytes (p : node_id_t) (dst_actor : string) (payload : list byte)
    (reply_to : option string) (correlation_id : option Z) (t : transport) : send_result transport * transport :=
  if (MAX_FRAME_SIZE <? Z.of_nat (length payload))%Z
  then (SendErr (PayloadTooLarge (Z.of_nat (length payload))), t)
  else
    let '(id, t) := next_msg_id t in
    let msg := WireMessage PROTOCOL_VERSION id (to_full (t_local t)) dst_actor Data payload reply_to correlation_id in
    (send_msg p msg t, t).

Definition error_msg (id : Z) (t : transport) (detail : string) (correlation_id : option Z) : wire_message :=
  WireMessage PROTOCOL_VERSION id (to_full (t_local t)) "" Error (json_error detail) None correlation_id.

Definition send_error (p : node_id_t) (detail : string) (correlation_id : option Z) (t : transport)
    : send_result transport * transport :=
  let '(id, t) := next_msg_id t in
  (send_msg p (error_msg id t detail correlation_id) t, t).

(** [let _ = self.send_error(...).await]: [None] while it waits for room. *)
Definition best_effort (r : send_result transport * transport) : option transport :=
  match r with
  | (SendOk t, _) => Some t
  | (SendErr _, t) => Some t
  | (SendWaits, _) => None
  end.

(** [route]: [None] while its error report waits for room. *)
Definition t_route (from : node_id_t) (m : wire_message) (t : transport) : option transport :=
  match wm_kind m with
  | Handshake => Some t
  | Heartbeat => Some t
  | Data =>
      match t_routing t !! wm_dst_actor m with
      | Some mailbox =>
          match try_send m mailbox with
          | Some mailbox' => Some (t <| t_routing ::= <[wm_dst_actor m := mailbox']> |>)
          | None =>
              best_effort (send_error from ("mailbox_full:" +:+ wm_dst_actor m) (wm_correlation_id m)
                             (emit (MailboxFull (wm_dst_actor m)) t))
          end
      | None => best_effort (send_error from ("actor_not_found:" +:+ wm_dst_actor m) (wm_correlation_id m) t)
      end
  | Error => Some (emit (ErrorReceived from (payload_text (wm_payload m)) (wm_correlation_id m)) t)
  end.

(** ** Dialing *)

Inductive dial_result := DialGoto (pc : dial_pc) | DialOk | DialErr.

(** One step of [dial].  [tcp] is whether the connection was made, [nonce] the
    random bytes of a proof. *)
Definition dial_step (tcp : bool) (nonce : list byte) (p : node_id_t) (pc : dial_pc) (t : transport)
    : dial_result * transport :=
  match pc with
  | DHasPeer => if t_has_peer p t then (DialOk, t) else (DialGoto DDesire, t)
  | DDesire => (DialGoto DConnect, t <| t_desired ::= union {[p]} |>)
  | DConnect =>
      if tcp then let '(h, t) := spawn_handle p t in (DialGoto (DRegister h), t) else (DialErr, t)
  | DRegister h =>
      if t_has_peer p t && negb (connection_wins_tiebreak (t_local t) p true) then (DialOk, t)
      else (DialGoto (DSend h), t <| t_peers ::= <[p := h]> |>)
  | DSend h =>
      let '(id, t) := next_msg_id t in
      let hs := match tc_cluster_secret (t_config t) with
                | Some secret => handshake_with_auth id (to_full (t_local t)) secret nonce
                | None => handshake id (to_full (t_local t))
                end in
      let t := match handle_send h hs t with SendOk t => t | _ => t end in
      let t := emit (PeerConnected p) t in
      (DialOk, spawn_task (TBeat p BStart) (spawn_task (TRead (ReadTask false (Some (p, h)) [] 0 RStart)) t))
  end.

(** [connect]: a failed first dial starts a [reconnect_loop]. *)
Definition connect_step (i : nat) (tcp : bool) (nonce : list byte) (p : node_id_t) (pc : dial_pc) (t : transport)
    : transport :=
  match dial_step tcp nonce p pc t with
  | (DialGoto pc, t) => set_task i (TConnect p pc) t
  | (DialOk, t) => end_task i t
  | (DialErr, t) =>
      let t := end_task i t in
      if tc_reconnect (t_config t) then spawn_task (TReconnect p 0 RcSleep) t else t
  end.

Definition u32_succ (z : Z) : Z := (z + 1) mod 2 ^ 32.

(** [attempts += 1] and what follows. *)
Definition attempt_failed (i : nat) (p : node_id_t) (attempts : Z) (t : transport) : transport :=
  let attempts := u32_succ attempts in
  match tc_reconnect_max_attempts (t_config t) with
  | Some max => if (max <=? attempts)%Z then set_task i (TReconnect p attempts RcGivesUp) t
                else set_task i (TReconnect p attempts RcSleep) t
  | None => set_task i (TReconnect p attempts RcSleep) t
  end.

(** [reconnect_loop] *)
Definition reconnect_step (i : nat) (tcp : bool) (nonce : list byte) (p : node_id_t) (attempts : Z)
    (pc : reconnect_pc) (t : transport) : transport :=
  match pc with
  | RcSleep => set_task i (TReconnect p attempts RcDesired) t
  | RcDesired => if bool_decide (p ∈ t_desired t) then set_task i (TReconnect p attempts RcHasPeer) t else end_task i t
  | RcHasPeer => if t_has_peer p t then end_task i t else set_task i (TReconnect p attempts (RcDial DHasPeer)) t
  | RcDial pc =>
      match dial_step tcp nonce p pc t with
      | (DialGoto pc, t) => set_task i (TReconnect p attempts (RcDial pc)) t
      | (DialOk, t) => end_task i t
      | (DialErr, t) => attempt_failed i p attempts t
      end
  | RcGivesUp => end_task i (emit (ReconnectGaveUp p) (t <| t_desired ::= λ d, d ∖ {[p]} |>))
  end.

(** The awaits of [dial] at which [tokio::time::timeout] may find it waiting;
    its own fresh queue never makes it wait. *)
Definition dial_waits (pc : dial_pc) : bool := match pc with DSend _ => false | _ => true end.

(** ** Reading *)

(** The refusals of a handshake, in the order of the code, and the peer that
    announced itself. *)
Inductive handshake_verdict := HsStopped | HsBadProof | HsBadSource | HsNoWriter | HsFrom (p : node_id_t).

Definition check_handshake (r : read_task) (m : wire_message) (t : transport) : handshake_verdict :=
  if t_stopped t then HsStopped
  else if match tc_cluster_secret (t_config t) with
          | Some secret => negb (verify_proof secret (wm_payload m))
          | None => false
          end then HsBadProof
  else match parse (wm_src m) with
       | inl _ => HsBadSource
       | inr p => if rl_write_half r then HsFrom p else HsNoWriter
       end.

(** One frame of [for msg in frames]; [None] while [route] waits. *)
Definition frame_step (i : nat) (r : read_task) (m : wire_message) (ms : list wire_message) (t : transport)
    : option transport :=
  let goto r pc t := set_task i (TRead (r <| rl_pc := pc |>)) t in
  if negb (wm_version m =? PROTOCOL_VERSION)%Z then Some (goto r RCleanup t)
  else if bool_decide (wm_kind m = Handshake) then
    match rl_registered r with
    | Some _ => Some (goto r (RFrames ms) t)
    | None =>
        match check_handshake r m t with
        | HsFrom p =>
            let '(h, t) := spawn_handle p t in
            Some (goto (r <| rl_write_half := false |>) (RRegister p h ms) t)
        | _ => Some (end_task i t)
        end
    end
  else
    match rl_registered r with
    | None => Some (end_task i t)
    | Some (p, _) => (λ t, goto r (RFrames ms) t) <$> t_route p m t
    end.

(** What the select of the read loop may give. *)
Inductive wakeup := WakeEnd | WakeData (data : list byte) | WakeEvent.

(** [read_loop]; [None] when the task cannot move. *)
Definition read_step (i : nat) (w : wakeup) (r : read_task) (t : transport) : option transport :=
  let goto r pc t := set_task i (TRead (r <| rl_pc := pc |>)) t in
  match rl_pc r with
  | RStart => Some (goto (r <| rl_cursor := length (t_events t) |>) RSelect t)
  | RSelect =>
      match w with
      | WakeEnd => Some (goto r RCleanup t)
      | WakeData data =>
          match decode (rl_buf r) data with
          | (inl _, buf) => Some (goto (r <| rl_buf := buf |>) RCleanup t)
          | (inr frames, buf) => Some (goto (r <| rl_buf := buf |>) (RFrames frames) t)
          end
      | WakeEvent =>
          match rl_registered r with
          | None => None
          | Some (us, _) =>
              match bc_recv EVENTS_CAPACITY (rl_cursor r) (t_events t) with
              | RecvOk ev cursor =>
                  if bool_decide (ev = PeerDisconnected us) then Some (goto (r <| rl_cursor := cursor |>) RCleanup t)
                  else Some (goto (r <| rl_cursor := cursor |>) RSelect t)
              | RecvLagged cursor => Some (goto (r <| rl_cursor := cursor |>) RSelect t)
              | RecvEmpty => None
              end
          end
      end
  | RFrames [] => Some (goto r RSelect t)
  | RFrames (m :: ms) => frame_step i r m ms t
  | RRegister p h ms =>
      if t_has_peer p t && negb (connection_wins_tiebreak (t_local t) p false) then Some (end_task i t)
      else Some (goto (r <| rl_registered := Some (p, h) |>) (RAnnounce p ms) (t <| t_peers ::= <[p := h]> |>))
  | RAnnounce p ms => Some (goto r (RFrames ms) (spawn_task (TBeat p BStart) (emit (PeerConnected p) t)))
  | RCleanup =>
      match rl_registered r with
      | None => Some (end_task i t)
      | Some (p, mine) =>
          match t_peers t !! p with
          | Some current =>
              if is_same_connection current mine
              then Some (goto r (RGone p) (t <| t_peers ::= delete p |>)) else Some (end_task i t)
          | None => Some (end_task i t)
          end
      end
  | RGone p => Some (end_task i (emit (PeerDisconnected p) t))
  end.

(** ** The other tasks *)

(** [heartbeat_loop]; [timer] is whether the sleep is over. *)
Definition beat_step (i : nat) (timer : bool) (p : node_id_t) (pc : beat_pc) (t : transport) : option transport :=
  match pc with
  | BStart => Some (set_task i (TBeat p (BWait (length (t_events t)))) t)
  | BWait cursor =>
      if timer then Some (set_task i (TBeat p (BSend cursor)) t)
      else
        match bc_recv EVENTS_CAPACITY cursor (t_events t) with
        | RecvOk ev cursor =>
            if bool_decide (ev = PeerDisconnected p) then Some (end_task i t)
            else Some (set_task i (TBeat p (BWait cursor)) t)
        | RecvLagged cursor => Some (set_task i (TBeat p (BWait cursor)) t)
        | RecvEmpty => None
        end
  | BSend cursor =>
      match t_peers t !! p with
      | None => Some (end_task i t)
      | Some h =>
          let '(id, t) := next_msg_id t in
          match handle_send h (heartbeat id (to_full (t_local t))) t with
          | SendOk t => Some (set_task i (TBeat p (BWait cursor)) t)
          | SendErr _ => Some (end_task i t)
          | SendWaits => None
          end
      end
  end.

(** [reconnect_supervisor]: [while let Ok(ev) = events.recv().await]; [dropped] is
    the peer for which it waits to look into the desired ones. *)
Definition supervise_step (i : nat) (cursor : nat) (dropped : option node_id_t) (t : transport) : option transport :=
  match dropped with
  | Some p =>
      let t := set_task i (TSupervise cursor None) t in
      if bool_decide (p ∈ t_desired t) then Some (spawn_task (TReconnect p 0 RcSleep) t) else Some t
  | None =>
      match bc_recv EVENTS_CAPACITY cursor (t_events t) with
      | RecvOk (PeerDisconnected p) cursor =>
          Some (set_task i (TSupervise cursor (if tc_reconnect (t_config t) then Some p else None)) t)
      | RecvOk _ cursor => Some (set_task i (TSupervise cursor None) t)
      | RecvLagged _ => Some (end_task i t)
      | RecvEmpty => None
      end
  end.

Definition forget_step (i : nat) (p : node_id_t) (pc : forget_pc) (t : transport) : transport :=
  match pc with
  | FDesired => set_task i (TForget p FPeers) (t <| t_desired ::= λ d, d ∖ {[p]} |>)
  | FPeers =>
      if t_has_peer p t then set_task i (TForget p FAnnounce) (t <| t_peers ::= delete p |>) else end_task i t
  | FAnnounce => end_task i (emit (PeerDisconnected p) t)
  end.

Definition shutdown_step (i : nat) (pc : shutdown_pc) (t : transport) : transport :=
  match pc with
  | SStop => set_task i (TShutdown SDesired) (t <| t_stopped := true |>)
  | SDesired => set_task i (TShutdown SPeers) (t <| t_desired := ∅ |>)
  | SPeers => end_task i (t <| t_peers := ∅ |>)
  end.

(** ** The transport as a transition system *)

(** What the environment decides at a step of a task. *)
Record env_choice := EnvChoice { ec_tcp : bool; ec_nonce : list byte; ec_wake : wakeup; ec_timer : bool }.

Definition task_step (i : nat) (e : env_choice) (k : ttask) (t : transport) : option transport :=
  match k with
  | TConnect p pc => Some (connect_step i (ec_tcp e) (ec_nonce e) p pc t)
  | TReconnect p attempts pc => Some (reconnect_step i (ec_tcp e) (ec_nonce e) p attempts pc t)
  | TRead r => read_step i (ec_wake e) r t
  | TBeat p pc => beat_step i (ec_timer e) p pc t
  | TSupervise cursor dropped => supervise_step i cursor dropped t
  | TForget p pc => Some (forget_step i p pc t)
  | TShutdown pc => Some (shutdown_step i pc t)
  end.

Inductive tstep (t : transport) : transport → Prop :=
| ts_task i k e t' : t_tasks t !! i = Some k → task_step i e k t = Some t' → tstep t t'
| ts_dial_timeout i p attempts pc :
    (* [timeout(reconnect_interval * 3, self.dial(...))] elapsed *)
    t_tasks t !! i = Some (TReconnect p attempts (RcDial pc)) → dial_waits pc = true →
    tstep t (attempt_failed i p attempts t)
| ts_accept :
    (* the accept loop ends when the transport stops *)
    t_stopped t = false → tstep t (spawn_task (TRead (ReadTask true None [] 0 RStart)) t)
| ts_connect p : tstep t (spawn_task (TConnect p DHasPeer) t)
| ts_forget_peer p : tstep t (spawn_task (TForget p FDesired) t)
| ts_shutdown : tstep t (spawn_task (TShutdown SStop) t)
| ts_send p dst payload reply corr t' :
    best_effort (send_data_bytes p dst payload reply corr t) = Some t' → tstep t t'
| ts_send_error p detail corr t' : best_effort (send_error p detail corr t) = Some t' → tstep t t'
| ts_register name mailbox : tstep t (t_register_actor name mailbox t)
| ts_unregister name : tstep t (t_unregister_actor name t)
| ts_mailbox_recv name mailbox m mailbox' :
    (* [drain_loop] of [src/src/py/node.rs] *)
    t_routing t !! name = Some mailbox → try_recv mailbox = Some (m, mailbox') →
    tstep t (t <| t_routing ::= <[name := mailbox']> |>)
| ts_writer_took tx q q' b :
    (* the writer task took from its queue *)
    t_queues t !! tx = Some (q, true) → writer_round q = Some (b, q') →
    tstep t (t <| t_queues ::= <[tx := (q', true)]> |>)
| ts_writer_ended tx q :
    (* a write failed *)
    t_queues t !! tx = Some (q, true) → tstep t (t <| t_queues ::= <[tx := (q, false)]> |>).

(** A schedule of task steps. *)
Fixpoint run_tasks (sched : list (nat * env_choice)) (t : transport) : option transport :=
  match sched with
  | [] => Some t
  | (i, e) :: sched =>
      match t_tasks t !! i with
      | None => None
      | Some k => match task_step i e k t with None => None | Some t' => run_tasks sched t' end
      end
  end.

(** [listen]: the listener is bound to [local], and the supervisor runs. *)
Definition listen (local : node_id_t) (config : transport_config) : transport :=
  Transport local config ∅ ∅ ∅ [] false 1 ∅ 0 {[ 0 := TSupervise 0 None ]} 1.

Definition t_reachable (local : node_id_t) (config : transport_config) (t : transport) : Prop :=
  rtc tstep (listen local config) t.

End transport.
