(* ===== verification/TransportProps.v ===== *)
(** * What holds of the transport

    Invariants of the transition system of [Transport], for every interleaving
    of its tasks: no entry of the peers map outlives the task that reads its
    connection, and a connection that ends takes away its own entry and no
    other. *)

From S2P Require Import Prelude Values NodeId State Wire Transport.

Section props.
Context {BC : Bincode} {HM : Hmac} {MP : Mpsc wire_message} {BR : Broadcast tevent} {JS : Json}.

(** ** Which task answers for an entry of the peers map *)

Definition dial_handle (pc : dial_pc) : option peer_handle :=
  match pc with DRegister h | DSend h => Some h | _ => None end.

(** The task has put [h] under [p] and will, when the connection ends, take it
    away again. *)
Definition owns (k : ttask) (p : node_id_t) (h : peer_handle) : Prop :=
  match k with
  | TConnect q (DSend h') | TReconnect q _ (RcDial (DSend h')) => q = p ∧ h' = h
  | TRead r => rl_registered r = Some (p, h) ∧ match rl_pc r with RGone _ => False | _ => True end
  | _ => False
  end.

(** The handles a task holds. *)
Definition holds (k : ttask) (h : peer_handle) : Prop :=
  match k with
  | TConnect _ pc | TReconnect _ _ (RcDial pc) => dial_handle pc = Some h
  | TRead r => (∃ p, rl_registered r = Some (p, h)) ∨ match rl_pc r with RRegister _ h' _ => h' = h | _ => False end
  | _ => False
  end.

(** A read loop that waits to register has not registered. *)
Definition read_ok (k : ttask) : Prop :=
  match k with
  | TRead r => match rl_pc r with RRegister _ _ _ => rl_registered r = None | _ => True end
  | _ => True
  end.

Definition handle_ok (peer_of : nat → node_id_t) (t : transport) (h : peer_handle) : Prop :=
  ph_tx h < t_next_tx t ∧ ph_peer_id h = peer_of (ph_tx h).

Record tinv (peer_of : nat → node_id_t) (t : transport) : Prop := TInv {
  ti_fresh : ∀ i, t_next_task t ≤ i → t_tasks t !! i = None;
  ti_owned : ∀ p h, t_peers t !! p = Some h → ∃ i k, t_tasks t !! i = Some k ∧ owns k p h;
  ti_read : ∀ i k, t_tasks t !! i = Some k → read_ok k;
  ti_held : ∀ i k h, t_tasks t !! i = Some k → holds k h → handle_ok peer_of t h
}.

(** ** How the parts of a step change the state *)

(** Peers and tasks are as they were. *)
Definition same_core (t t' : transport) : Prop :=
  t_peers t' = t_peers t ∧ t_tasks t' = t_tasks t ∧ t_next_task t' = t_next_task t ∧ t_next_tx t' = t_next_tx t.

Lemma same_core_inv f t t' : same_core t t' → tinv f t → tinv f t'.
Proof.
  intros (Hp & Hk & Hn & Hx) [H1 H2 H3 H4]. split; rewrite ?Hp ?Hk ?Hn; try done.
  intros i k h Hi Hh. unfold handle_ok. rewrite Hx. by eapply H4.
Qed.

Lemma handle_send_core h m t t' : handle_send h m t = SendOk t' → same_core t t'.
Proof. unfold handle_send. repeat (case_match; try done). by intros [= <-]. Qed.

(** Nothing but the queue changes. *)
Lemma handle_send_frame h m t t' : handle_send h m t = SendOk t' → t' = t <| t_queues := t_queues t' |>.
Proof. unfold handle_send. repeat (case_match; try done). by intros [= <-]. Qed.

Lemma send_msg_core p m t t' : send_msg p m t = SendOk t' → same_core t t'.
Proof. unfold send_msg. case_match; [|done]. apply handle_send_core. Qed.

Lemma send_error_core p d c t t' : best_effort (send_error p d c t) = Some t' → same_core t t'.
Proof.
  unfold send_error. cbn. destruct (send_msg _ _ _) as [t1|e|] eqn:E; [|by intros [= <-]|done].
  intros [= <-]. apply send_msg_core in E. exact E.
Qed.

Lemma send_data_core p d pl r c t t' : best_effort (send_data_bytes p d pl r c t) = Some t' → same_core t t'.
Proof.
  unfold send_data_bytes. case_match; [by intros [= <-]|]. cbn.
  destruct (send_msg _ _ _) as [t1|e|] eqn:E; [|by intros [= <-]|done].
  intros [= <-]. apply send_msg_core in E. exact E.
Qed.

Lemma t_route_core p m t t' : t_route p m t = Some t' → same_core t t'.
Proof.
  unfold t_route. destruct (wm_kind m); try by intros [= <-].
  destruct (t_routing t !! wm_dst_actor m); [|apply send_error_core].
  destruct (try_send m c); [by intros [= <-]|]. by intros H%send_error_core.
Qed.

(** A task is replaced, and nothing else changes; it keeps what it owned. *)
Lemma set_task_inv f i k k' t :
  tinv f t → t_tasks t !! i = Some k → read_ok k' →
  (∀ p h, t_peers t !! p = Some h → owns k p h → owns k' p h) →
  (∀ h, holds k' h → handle_ok f t h) → tinv f (set_task i k' t).
Proof.
  intros [H1 H2 H3 H4] Hi Hr Ho Hh. split; cbn.
  - intros j Hj. rewrite lookup_insert_ne; [|by apply H1]. intros ->. specialize (H1 j Hj). congruence.
  - intros p h Hp. destruct (H2 p h Hp) as (j & kj & Hj & Hown). destruct (decide (j = i)) as [->|Hne].
    + exists i, k'. rewrite lookup_insert_eq. split; [done|]. apply Ho; [done|]. congruence.
    + exists j, kj. by rewrite lookup_insert_ne.
  - intros j kj. destruct (decide (j = i)) as [->|Hne]; [rewrite lookup_insert_eq; by intros [= <-]|].
    rewrite lookup_insert_ne //. apply H3.
  - intros j kj h. destruct (decide (j = i)) as [->|Hne]; [rewrite lookup_insert_eq; intros [= <-]; apply Hh|].
    rewrite lookup_insert_ne //. apply H4.
Qed.

(** A task may end when others answer for what it owns. *)
Definition relieved (i : nat) (t : transport) : Prop :=
  ∀ k p h, t_tasks t !! i = Some k → t_peers t !! p = Some h → owns k p h →
    ∃ j kj, j ≠ i ∧ t_tasks t !! j = Some kj ∧ owns kj p h.

Lemma end_task_inv f i t : tinv f t → relieved i t → tinv f (end_task i t).
Proof.
  intros [H1 H2 H3 H4] Ho. split; cbn.
  - intros j Hj. apply lookup_delete_None. by right; apply H1.
  - intros p h Hp. destruct (H2 p h Hp) as (j & kj & Hj & Hown). destruct (decide (j = i)) as [->|Hne].
    + destruct (Ho kj p h Hj Hp Hown) as (j & k' & Hji & Hj' & Hown'). exists j, k'. by rewrite lookup_delete_ne.
    + exists j, kj. by rewrite lookup_delete_ne.
  - intros j kj [_ Hj]%lookup_delete_Some. by eapply H3.
  - intros j kj h [_ Hj]%lookup_delete_Some. by eapply H4.
Qed.

Lemma relieved_nothing i k t :
  t_tasks t !! i = Some k → (∀ p h, t_peers t !! p = Some h → ¬ owns k p h) → relieved i t.
Proof. intros Hi Ho k' p h Hk Hp Hown. exfalso. apply (Ho p h Hp). congruence. Qed.

Lemma spawn_task_inv f k t :
  tinv f t → read_ok k → (∀ h, holds k h → handle_ok f t h) → tinv f (spawn_task k t).
Proof.
  intros [H1 H2 H3 H4] Hr Hh. split; cbn.
  - intros j Hj. rewrite lookup_insert_ne; [lia|]. apply H1. lia.
  - intros p h Hp. destruct (H2 p h Hp) as (j & kj & Hj & Hown). exists j, kj. split; [|done].
    rewrite lookup_insert_ne //. intros <-. by rewrite H1 in Hj.
  - intros j kj. destruct (decide (j = t_next_task t)) as [->|Hne]; [rewrite lookup_insert_eq; by intros [= <-]|].
    rewrite lookup_insert_ne //. apply H3.
  - intros j kj h. destruct (decide (j = t_next_task t)) as [->|Hne].
    + rewrite lookup_insert_eq. intros [= <-]. apply Hh.
    + rewrite lookup_insert_ne //. apply H4.
Qed.

(** A task that hands what it owns to a new one is relieved, and stays so. *)
Lemma relieved_spawn f i k k' t :
  tinv f t → t_tasks t !! i = Some k → relieved i t ∨ (∀ p h, owns k p h → owns k' p h) → relieved i (spawn_task k' t).
Proof.
  intros [H1 H2 H3 H4] Hi Hor. assert (i ≠ t_next_task t) as Hne by (intros ->; rewrite H1 in Hi; done).
  intros k1 p h. cbn. rewrite lookup_insert_ne //. intros Hk Hp Hown. replace k1 with k in * by congruence.
  destruct Hor as [Hrel|Hown'].
  - destruct (Hrel k p h Hi Hp Hown) as (j & kj & Hji & Hj & Ho). exists j, kj. split; [done|]. split; [|done].
    rewrite lookup_insert_ne //. intros <-. by rewrite H1 in Hj.
  - exists (t_next_task t), k'. rewrite lookup_insert_eq. eauto.
Qed.

(** Entries may go away at any time. *)
Lemma fewer_peers_inv f m t : m ⊆ t_peers t → tinv f t → tinv f (t <| t_peers := m |>).
Proof. intros Hm [H1 H2 H3 H4]. split; cbn; [done| |done..]. intros p h Hp. eapply H2, lookup_weaken; done. Qed.

(** A task puts a handle into the map, over whatever was there. *)
Lemma insert_peer_inv f i k k' p h t :
  tinv f t → t_tasks t !! i = Some k → (∀ q h', ¬ owns k q h') → owns k' p h → read_ok k' →
  (∀ h', holds k' h' → handle_ok f t h') → tinv f (set_task i k' (t <| t_peers ::= <[p := h]> |>)).
Proof.
  intros [H1 H2 H3 H4] Hi Hn Ho Hr Hh. split; cbn.
  - intros j Hj. rewrite lookup_insert_ne; [|by apply H1]. intros ->. specialize (H1 j Hj). congruence.
  - intros q h'. destruct (decide (q = p)) as [->|Hq].
    + rewrite lookup_insert_eq. intros [= <-]. exists i, k'. by rewrite lookup_insert_eq.
    + rewrite lookup_insert_ne //. intros Hq'. destruct (H2 q h' Hq') as (j & kj & Hj & Hown).
      exists j, kj. rewrite lookup_insert_ne //. intros ->. apply (Hn q h'). congruence.
  - intros j kj. destruct (decide (j = i)) as [->|Hne]; [rewrite lookup_insert_eq; by intros [= <-]|].
    rewrite lookup_insert_ne //. apply H3.
  - intros j kj h'. destruct (decide (j = i)) as [->|Hne]; [rewrite lookup_insert_eq; intros [= <-]; apply Hh|].
    rewrite lookup_insert_ne //. apply H4.
Qed.

(** A new handle belongs to the peer it was made for. *)
Lemma spawn_handle_inv f p t :
  tinv f t → ∃ f', tinv f' (spawn_handle p t).2 ∧ handle_ok f' (spawn_handle p t).2 (spawn_handle p t).1.
Proof.
  intros [H1 H2 H3 H4]. exists (λ x, if bool_decide (x = t_next_tx t) then p else f x). split; [split; try done|].
  - intros i k h Hi Hh. destruct (H4 i k h Hi Hh) as [Hlt Hp]. split; cbn; [lia|].
    by rewrite bool_decide_eq_false_2; [lia|].
  - split; cbn; [lia|]. by rewrite bool_decide_eq_true_2.
Qed.

(** ** Dialing *)

(** [dial] as [connect] and as [reconnect_loop] runs it. *)
Definition dial_task (o : option Z) (p : node_id_t) (pc : dial_pc) : ttask :=
  match o with None => TConnect p pc | Some n => TReconnect p n (RcDial pc) end.

Lemma dial_task_owns o p pc q h : owns (dial_task o p pc) q h ↔ p = q ∧ pc = DSend h.
Proof. destruct o, pc; naive_solver. Qed.

Lemma dial_task_holds o p pc h : holds (dial_task o p pc) h ↔ dial_handle pc = Some h.
Proof. destruct o; cbn; tauto. Qed.

Lemma dial_task_read o p pc : read_ok (dial_task o p pc).
Proof. by destruct o. Qed.

Lemma dial_step_inv f i o tcp nonce p pc t r t' :
  tinv f t → t_tasks t !! i = Some (dial_task o p pc) → dial_step tcp nonce p pc t = (r, t') →
  ∃ f', match r with
        | DialGoto pc' => tinv f' (set_task i (dial_task o p pc') t')
        | _ => tinv f' t' ∧ relieved i t'
        end.
Proof.
  intros Hinv Hi. destruct pc as [| | |h|h]; cbn.
  - case_match; intros [= <- <-]; exists f.
    + split; [done|]. eapply relieved_nothing; [done|]. intros q h _ [_ ?]%dial_task_owns. done.
    + eapply set_task_inv; [done..| | |]; [apply dial_task_read|by intros ?? _ [_ ?]%dial_task_owns|].
      by intros h ?%dial_task_holds.
  - intros [= <- <-]. exists f. eapply set_task_inv; [by apply (same_core_inv f t)|done|..].
    + apply dial_task_read.
    + by intros ?? _ [_ ?]%dial_task_owns.
    + by intros h ?%dial_task_holds.
  - destruct tcp.
    + intros [= <- <-]. destruct (spawn_handle_inv f p t Hinv) as (f' & Hinv' & Hok). exists f'.
      eapply set_task_inv; [done..| | |]; [apply dial_task_read|by intros ?? _ [_ ?]%dial_task_owns|].
      intros h Hh%dial_task_holds. cbn in Hh. by simplify_eq.
    + intros [= <- <-]. exists f. split; [done|]. eapply relieved_nothing; [done|]. by intros ?? _ [_ ?]%dial_task_owns.
  - case_match; intros [= <- <-]; exists f.
    + split; [done|]. eapply relieved_nothing; [done|]. by intros ?? _ [_ ?]%dial_task_owns.
    + eapply insert_peer_inv; [done..| | | |].
      * by intros ?? [_ ?]%dial_task_owns.
      * by apply dial_task_owns.
      * apply dial_task_read.
      * intros h' Hh%dial_task_holds. cbn in Hh. simplify_eq. eapply ti_held; [done..|]. by apply dial_task_holds.
  - set (hs := match tc_cluster_secret _ with Some _ => _ | None => _ end).
    set (t2 := emit _ _). intros [= <- <-].
    assert (same_core t t2) as Hc.
    { subst t2. destruct (handle_send _ _ _) as [t3|e|] eqn:E; [|done..].
      apply handle_send_core in E. exact E. }
    assert (tinv f t2) as Hinv2 by by eapply same_core_inv.
    assert (t_tasks t2 !! i = Some (dial_task o p (DSend h))) as Hi2 by by rewrite (proj1 (proj2 Hc)).
    assert (handle_ok f t2 h) as Hh by (eapply ti_held; [done..|by apply dial_task_holds]).
    set (kr := TRead (ReadTask false (Some (p, h)) [] 0 RStart)).
    assert (tinv f (spawn_task kr t2)) as Hinv3.
    { apply spawn_task_inv; [done..|]. intros h' [[q Hq]|[]]. by simplify_eq/=. }
    exists f. split; [by apply spawn_task_inv|].
    eapply relieved_spawn; [done| |left; eapply relieved_spawn; [done..|right]].
    + cbn. rewrite lookup_insert_ne //. intros <-. by rewrite (ti_fresh f t2 Hinv2) in Hi2.
    + intros q h' [-> [= ->]]%dial_task_owns. done.
Qed.

(** ** Tasks that hold no handle *)

Definition idle (k : ttask) : Prop := (∀ h, ¬ holds k h) ∧ read_ok k.

Lemma owns_holds k p h : owns k p h → holds k h.
Proof.
  destruct k as [q pc|q n pc|r| | | |]; try done.
  - by destruct pc; try done; intros [_ ->].
  - by destruct pc as [| | |pc|]; try done; destruct pc; try done; intros [_ ->].
  - intros [Hr _]. left. eauto.
Qed.

Lemma idle_set f i k k' t :
  tinv f t → t_tasks t !! i = Some k → (∀ p h, ¬ owns k p h) → idle k' → tinv f (set_task i k' t).
Proof. intros Ht Hi Hn [Hh Hr]. eapply set_task_inv; [done..| |]; [intros ?? _ ?%Hn; done|intros ? ?%Hh; done]. Qed.

Lemma idle_end f i k t : tinv f t → t_tasks t !! i = Some k → (∀ p h, ¬ owns k p h) → tinv f (end_task i t).
Proof. intros Ht Hi Hn. apply end_task_inv; [done|]. eapply relieved_nothing; [done|]. intros ?? _. apply Hn. Qed.

Lemma idle_spawn f k t : tinv f t → idle k → tinv f (spawn_task k t).
Proof. intros Ht [Hh Hr]. apply spawn_task_inv; [done..|]. by intros h ?%Hh. Qed.

(** A read loop that moves on keeps what it registered. *)
Lemma read_goto f i r r' t :
  tinv f t → t_tasks t !! i = Some (TRead r) → rl_registered r' = rl_registered r →
  match rl_pc r' with RGone _ | RRegister _ _ _ => False | _ => True end →
  tinv f (set_task i (TRead r') t).
Proof.
  intros Ht Hi Hr Hpc. eapply set_task_inv; [done..| | |].
  - cbn. by destruct (rl_pc r').
  - intros p h _ [Hreg _]. split; [by rewrite Hr|]. by destruct (rl_pc r').
  - intros h [[p Hreg]|Hh]; [|by destruct (rl_pc r')].
    eapply ti_held; [done..|]. left. exists p. by rewrite -Hr.
Qed.

Lemma frame_step_inv f i r m ms t t' :
  tinv f t → t_tasks t !! i = Some (TRead r) → frame_step i r m ms t = Some t' → ∃ f', tinv f' t'.
Proof.
  intros Ht Hi. unfold frame_step. case_match; [intros [= <-]; exists f; by eapply read_goto|]. case_bool_decide.
  - destruct (rl_registered r) as [q|] eqn:Hr; [intros [= <-]; exists f; by eapply read_goto|].
    assert (∀ q h, ¬ owns (TRead r) q h) as Hn by (intros q h [Ho _]; congruence).
    destruct (check_handshake r m t) as [| | | |p]; try (intros [= <-]; exists f; by eapply idle_end).
    intros [= <-]. destruct (spawn_handle_inv f p t Ht) as (f' & Ht' & Hok). exists f'.
    eapply set_task_inv; [done..| | |]; cbn; [done|by intros ?? _ ?%Hn|].
    intros h [[q Hq]|<-]; [|done]. cbn in Hq. congruence.
  - destruct (rl_registered r) as [[q h]|] eqn:Hr.
    + destruct (t_route q m t) as [t1|] eqn:E; [|done]. intros [= <-]. apply t_route_core in E. exists f.
      destruct E as (E1 & E2 & E3 & E4). eapply read_goto; [by eapply same_core_inv|by rewrite E2|done..].
    + intros [= <-]. exists f. eapply idle_end; [done..|]. intros q h [Ho _]. congruence.
Qed.

Lemma read_step_inv f i w r t t' :
  tinv f t → t_tasks t !! i = Some (TRead r) → read_step i w r t = Some t' → ∃ f', tinv f' t'.
Proof.
  intros Ht Hi. unfold read_step. destruct (rl_pc r) as [| |[|m ms]|p h ms|p ms| |p] eqn:Hpc.
  - intros [= <-]. exists f. by eapply read_goto.
  - destruct w as [|data|]; [intros [= <-]; exists f; by eapply read_goto| |].
    + destruct (decode _ _) as [[e|frames] buf]; intros [= <-]; exists f; by eapply read_goto.
    + destruct (rl_registered r) as [[us h]|] eqn:Hr; [|done].
      destruct (bc_recv _ _ _) as [ev c|c|]; [case_bool_decide| |done]; intros [= <-]; exists f; by eapply read_goto.
  - intros [= <-]. exists f. by eapply read_goto.
  - by apply (frame_step_inv f).
  - pose proof (ti_read _ _ Ht _ _ Hi) as Hro. cbn in Hro. rewrite Hpc in Hro.
    assert (∀ q h', ¬ owns (TRead r) q h') as Hn by (intros q h' [Ho _]; congruence).
    case_match; intros [= <-]; exists f; [by eapply idle_end|].
    eapply insert_peer_inv; [done..| | |]; [by split|done|].
    intros h' [[q Hq]|[]]. cbn in Hq. simplify_eq. eapply ti_held; [done..|]. right. by rewrite Hpc.
  - intros [= <-]. exists f. eapply read_goto; [|..].
    + apply idle_spawn; [by apply (same_core_inv f t)|]. by split; [intros h []|].
    + cbn. rewrite lookup_insert_ne //. intros <-. by rewrite (ti_fresh f t Ht) in Hi.
    + done.
    + done.
  - destruct (rl_registered r) as [[p mine]|] eqn:Hr.
    2: { intros [= <-]. exists f. eapply idle_end; [done..|]. intros q h [Ho _]. congruence. }
    destruct (t_peers t !! p) as [current|] eqn:Hp.
    2: { intros [= <-]. exists f. apply end_task_inv; [done|]. eapply relieved_nothing; [done|].
         intros q h Hq [Ho _]. congruence. }
    unfold is_same_connection. case_bool_decide as Hsame; intros [= <-]; exists f.
    + eapply set_task_inv; [apply fewer_peers_inv; [apply delete_subseteq|done]|done|done| |].
      * cbn. intros q h [Hne Hq]%lookup_delete_Some [Ho _]. congruence.
      * intros h [[q Hq]|[]]. apply (ti_held f t Ht i _ h Hi). left. by exists q.
    + apply end_task_inv; [done|]. eapply relieved_nothing; [done|].
      intros q h Hq [Ho _]. by simplify_eq.
  - intros [= <-]. exists f. eapply idle_end; [by apply (same_core_inv f t)|done|].
    intros q h [_ Ho]. by rewrite Hpc in Ho.
Qed.

(** Closes the goals of a task that owns nothing before and after its step. *)
Ltac idle_task :=
  solve [ eassumption | by intros ?? [] | by split; [intros ? []|] | by intros ?? Hbad; destruct Hbad ].

Lemma attempt_failed_inv f i p n k t :
  tinv f t → t_tasks t !! i = Some k → (∀ q h, ¬ owns k q h) → tinv f (attempt_failed i p n t).
Proof.
  intros Ht Hi Hn. unfold attempt_failed. repeat case_match; by eapply idle_set; [done..|split; [intros h []|]].
Qed.

Lemma connect_step_inv f i tcp nonce p pc t :
  tinv f t → t_tasks t !! i = Some (TConnect p pc) → ∃ f', tinv f' (connect_step i tcp nonce p pc t).
Proof.
  intros Ht Hi. unfold connect_step. destruct (dial_step tcp nonce p pc t) as [r t'] eqn:E.
  destruct (dial_step_inv f i None tcp nonce p pc t r t' Ht Hi E) as [f' Hf']. exists f'.
  destruct r as [pc'| |]; [done|destruct Hf' as [? ?]; by apply end_task_inv|].
  destruct Hf' as [Ht' Hr]. pose proof (end_task_inv f' i t' Ht' Hr) as He.
  case_match; [|done]. apply idle_spawn; [done|]. by split; [intros h []|].
Qed.

Lemma reconnect_step_inv f i tcp nonce p n pc t :
  tinv f t → t_tasks t !! i = Some (TReconnect p n pc) → ∃ f', tinv f' (reconnect_step i tcp nonce p n pc t).
Proof.
  intros Ht Hi. destruct pc as [| | |pc|]; cbn.
  - exists f. eapply idle_set; idle_task.
  - exists f. case_bool_decide; [eapply idle_set; idle_task|eapply idle_end; idle_task].
  - exists f. case_match; [eapply idle_end; idle_task|eapply idle_set; [done..|by intros ?? []|by split; [intros h [=]|]]].
  - destruct (dial_step tcp nonce p pc t) as [r t'] eqn:E.
    destruct (dial_step_inv f i (Some n) tcp nonce p pc t r t' Ht Hi E) as [f' Hf']. exists f'.
    destruct r as [pc'| |]; [done|destruct Hf' as [? ?]; by apply end_task_inv|].
    destruct Hf' as [Ht' _]. destruct pc as [| | |h|h]; cbn in E; repeat case_match; simplify_eq.
    eapply attempt_failed_inv; idle_task.
  - exists f. eapply idle_end; [by apply (same_core_inv f t)|done|]. by intros ?? [].
Qed.

Lemma task_step_inv f i e k t t' :
  tinv f t → t_tasks t !! i = Some k → task_step i e k t = Some t' → ∃ f', tinv f' t'.
Proof.
  intros Ht Hi. destruct k as [p pc|p n pc|r|p pc|c d|p pc|pc]; cbn [task_step].
  - intros [= <-]. by eapply connect_step_inv.
  - intros [= <-]. by eapply reconnect_step_inv.
  - by eapply read_step_inv.
  - intros Hs. exists f. destruct pc as [|c|c]; cbn in Hs.
    + injection Hs as <-. eapply idle_set; idle_task.
    + repeat case_match; simplify_eq; by first [eapply idle_set; idle_task|eapply idle_end; idle_task].
    + destruct (t_peers t !! p) as [h|]; [|injection Hs as <-; eapply idle_end; idle_task].
      destruct (handle_send _ _ _) as [t1|err|] eqn:E; [|injection Hs as <-; eapply idle_end|done]; [|by apply (same_core_inv f t)|idle_task..].
      injection Hs as <-. apply handle_send_core in E as (E1 & E2 & E3 & E4).
      eapply idle_set; [|by rewrite E2|idle_task..]. by apply (same_core_inv f t).
  - intros Hs. exists f. destruct d as [p|]; cbn in Hs.
    + assert (tinv f (set_task i (TSupervise c None) t)) by (eapply idle_set; idle_task).
      case_bool_decide; simplify_eq; [|done]. apply idle_spawn; [done|idle_task].
    + repeat case_match; simplify_eq; by first [eapply idle_set; idle_task|eapply idle_end; idle_task].
  - intros [= <-]. exists f. destruct pc; cbn.
    + eapply idle_set; [by apply (same_core_inv f t)|idle_task..].
    + case_match; [|eapply idle_end; idle_task].
      eapply idle_set; [apply fewer_peers_inv; [apply delete_subseteq|done]|idle_task..].
    + eapply idle_end; [by apply (same_core_inv f t)|idle_task..].
  - intros [= <-]. exists f. destruct pc; cbn.
    + eapply idle_set; [by apply (same_core_inv f t)|idle_task..].
    + eapply idle_set; [by apply (same_core_inv f t)|idle_task..].
    + eapply idle_end; [apply fewer_peers_inv; [apply map_empty_subseteq|done]|idle_task..].
Qed.

Lemma tstep_inv f t t' : tinv f t → tstep t t' → ∃ f', tinv f' t'.
Proof.
  intros Ht [i k e t1 Hi Hs|i p n pc Hi Hw|Hstop|p|p| |p dst pl reply corr t1 Hs|p d c t1 Hs|name mb|name|name mb m mb' Hn Hr
             |tx q q' b Hq Hw|tx q Hq].
  - by eapply task_step_inv.
  - exists f. eapply attempt_failed_inv; [done..|]. intros q h. destruct pc; by try intros [].
  - exists f. apply spawn_task_inv; [done..|]. by intros h [[q [=]]|[]].
  - exists f. apply idle_spawn; [done|]. by split; [intros h [=]|].
  - exists f. apply idle_spawn; [done|idle_task].
  - exists f. apply idle_spawn; [done|idle_task].
  - exists f. apply send_data_core in Hs. by eapply same_core_inv.
  - exists f. apply send_error_core in Hs. by eapply same_core_inv.
  - exists f. by apply (same_core_inv f t).
  - exists f. by apply (same_core_inv f t).
  - exists f. by apply (same_core_inv f t).
  - exists f. by apply (same_core_inv f t).
  - exists f. by apply (same_core_inv f t).
Qed.

Lemma t_reachable_inv local config t : t_reachable local config t → ∃ f, tinv f t.
Proof.
  unfold t_reachable. revert t. apply (rtc_ind_r (λ t, ∃ f, tinv f t)).
  - exists (λ _, local). split; cbn.
    + intros i Hi. apply lookup_singleton_None. lia.
    + done.
    + by intros i k [_ <-]%lookup_singleton_Some.
    + by intros i k h [_ <-]%lookup_singleton_Some.
  - intros t1 t2 _ Hs [f Hf]. by eapply tstep_inv.
Qed.


Lemma run_tasks_reachable sched : ∀ t t', run_tasks sched t = Some t' → rtc tstep t t'.
Proof.
  induction sched as [|[i e] sched IH]; intros t t'; cbn; [by intros [= <-]|].
  destruct (t_tasks t !! i) as [k|] eqn:Hi; [|done]. destruct (task_step i e k t) as [t1|] eqn:Hs; [|done].
  intros Hr. eapply rtc_l; [by eapply ts_task|by apply IH].
Qed.

Lemma run_tasks_app s1 s2 t :
  run_tasks (s1 ++ s2) t = match run_tasks s1 t with Some t' => run_tasks s2 t' | None => None end.
Proof. revert t. induction s1 as [|[i e] s1 IH]; intros t; [done|]. cbn. repeat (case_match; try done). Qed.

(** In the states that occur, the channel tells the handle. *)
Lemma same_connection_eq local config t i k p h mine :
  t_reachable local config t → t_peers t !! p = Some h → t_tasks t !! i = Some k → holds k mine →
  is_same_connection h mine = bool_decide (h = mine).
Proof.
  intros [f Hf]%t_reachable_inv Hp Hi Hh. apply bool_decide_ext. split; [|by intros ->].
  destruct (ti_owned _ _ Hf p h Hp) as (j & kj & Hj & Hown%owns_holds).
  destruct (ti_held _ _ Hf _ _ _ Hj Hown) as [_ H1]. destruct (ti_held _ _ Hf _ _ _ Hi Hh) as [_ H2].
  destruct h, mine; cbn in *. congruence.
Qed.

(** (C20) A connection that ends takes its own entry with it and never a newer
    one: out of its loop, a read loop that had registered [p] removes the entry
    exactly when it is its own, and then, and only then, announces that [p] is
    disconnected. *)
Theorem connection_cleanup local config t i e r p mine :
  t_reachable local config t → t_tasks t !! i = Some (TRead r) → rl_pc r = RCleanup →
  rl_registered r = Some (p, mine) →
  if bool_decide (t_peers t !! p = Some mine)
  then run_tasks [(i, e); (i, e)] t =
         Some (emit (PeerDisconnected p) t <| t_peers := delete p (t_peers t) |> <| t_tasks := delete i (t_tasks t) |>)
  else run_tasks [(i, e)] t = Some (t <| t_tasks := delete i (t_tasks t) |>).
Proof.
  intros Hr Hi Hpc Hreg. cbn [run_tasks]. rewrite Hi. cbn [task_step]. unfold read_step. rewrite Hpc Hreg.
  destruct (t_peers t !! p) as [h|] eqn:Hp.
  2: { rewrite bool_decide_eq_false_2 //. }
  rewrite (same_connection_eq local config t i (TRead r) p h mine) //; [left; by eexists|].
  destruct (decide (h = mine)) as [->|Hne].
  - rewrite !bool_decide_eq_true_2 //. cbn. rewrite lookup_insert_eq. by rewrite -(delete_insert_eq (t_tasks t) i (TRead (r <| rl_pc := RGone p |>))).
  - rewrite bool_decide_eq_false_2; [congruence|]. by rewrite bool_decide_eq_false_2.
Qed.

(** ** Two nodes that dial each other at once *)

(** The end of a dial and the end of a handshake, in the peers map of one node. *)
Definition dial_registers (p : node_id_t) (h : peer_handle) (t : transport) : transport :=
  (dial_step false [] p (DRegister h) t).2.
Definition inbound_registers (i : nat) (p : node_id_t) (h : peer_handle) (t : transport) : transport :=
  default t (read_step i WakeEnd (ReadTask false None [] 0 (RRegister p h [])) t).

(** Both, in either order: [out] is our own connection, [inn] the one the peer
    dialed. *)
Definition both_register (out_first : bool) (p : node_id_t) (out inn : peer_handle) (i : nat) (t : transport) : transport :=
  if out_first then inbound_registers i p inn (dial_registers p out t)
  else dial_registers p out (inbound_registers i p inn t).

Lemma t_has_peer_false p t : t_peers t !! p = None → t_has_peer p t = false.
Proof. intros Hp. apply bool_decide_eq_false_2. rewrite Hp. by intros [? ?]. Qed.

Lemma t_has_peer_true p h t : t_peers t !! p = Some h → t_has_peer p t = true.
Proof. intros Hp. apply bool_decide_eq_true_2. by rewrite Hp. Qed.

Lemma tiebreak_swap a b :
  to_full a ≠ to_full b → connection_wins_tiebreak a b true = negb (connection_wins_tiebreak a b false).
Proof.
  intros Hne. unfold connection_wins_tiebreak. rewrite (String.compare_antisym (to_full b)).
  destruct (String.compare (to_full a) (to_full b)) eqn:E; try done.
  by apply String.compare_eq_iff in E.
Qed.

Lemma tiebreak_agree a b : connection_wins_tiebreak a b true = connection_wins_tiebreak b a false.
Proof. done. Qed.

Lemma both_register_winner out_first p out inn i t :
  t_peers t !! p = None → to_full (t_local t) ≠ to_full p →
  t_peers (both_register out_first p out inn i t) !! p =
    Some (if connection_wins_tiebreak (t_local t) p true then out else inn).
Proof.
  intros Hn Hne. pose proof (tiebreak_swap _ _ Hne) as Hsw.
  destruct out_first; unfold both_register, dial_registers, inbound_registers; cbn.
  all: rewrite (t_has_peer_false p t Hn); cbn; erewrite t_has_peer_true by (cbn; apply lookup_insert_eq); rewrite Hsw; cbn.
  all: destruct (connection_wins_tiebreak _ _ false); cbn; by rewrite lookup_insert_eq.
Qed.

(** (C25) Two nodes that dial each other at once end with the same connection:
    with connection 1 dialed by [a] and connection 2 dialed by [b], each known
    at either end by a handle, and in whatever order each node gets to register
    the two, [a] and [b] both keep connection 1 or both keep connection 2. *)
Theorem simultaneous_dial ta tb (oa ob : bool) ia ib (a1 a2 b1 b2 : peer_handle) :
  to_full (t_local ta) ≠ to_full (t_local tb) →
  t_peers ta !! t_local tb = None → t_peers tb !! t_local ta = None →
  let a := t_local ta in
  let b := t_local tb in
  let first := connection_wins_tiebreak a b true in
  t_peers (both_register oa b a1 a2 ia ta) !! b = Some (if first then a1 else a2) ∧
  t_peers (both_register ob a b2 b1 ib tb) !! a = Some (if first then b1 else b2).
Proof.
  intros Hne Ha Hb. cbv zeta. rewrite !both_register_winner //. split; [done|].
  rewrite (tiebreak_agree (t_local ta)) (tiebreak_swap (t_local tb)); [congruence|].
  by destruct (connection_wins_tiebreak _ _ false).
Qed.

(** ** Reconnecting *)

(** No connection can be made. *)
Definition unreachable : env_choice := EnvChoice false [] WakeEnd false.

(** A round of the loop with a dial that fails: sleep, desired, has_peer, then
    the three awaits of the dial. *)
Definition failed_round (i : nat) : list (nat * env_choice) := replicate 6 (i, unreachable).

Lemma run_tasks_cons i e k s t t' :
  t_tasks t !! i = Some k → task_step i e k t = Some t' → run_tasks ((i, e) :: s) t = run_tasks s t'.
Proof. intros Hi Hs. cbn. by rewrite Hi Hs. Qed.

Lemma set_task_twice i k k' t : set_task i k' (set_task i k t) = set_task i k' t.
Proof. unfold set_task. cbn. by rewrite insert_insert_eq. Qed.

Lemma set_task_at i k t : t_tasks (set_task i k t) !! i = Some k.
Proof. apply lookup_insert_eq. Qed.

Lemma desire_again (p : node_id_t) t : p ∈ t_desired t → t <| t_desired ::= union {[p]} |> = t.
Proof. intros Hp. destruct t. cbn in *. f_equal. set_solver. Qed.

Lemma desire_step i e p n t :
  p ∈ t_desired t →
  task_step i e (TReconnect p n (RcDial DDesire)) t = Some (set_task i (TReconnect p n (RcDial DConnect)) t).
Proof. intros Hp. cbn [task_step reconnect_step dial_step]. by rewrite desire_again. Qed.

Lemma failed_round_spec i p n t :
  t_tasks t !! i = Some (TReconnect p n RcSleep) → p ∈ t_desired t → t_peers t !! p = None →
  run_tasks (failed_round i) t = Some (attempt_failed i p n t).
Proof.
  intros Hi Hd Hp. unfold failed_round. cbn [replicate].
  assert (∀ k, t_has_peer p (set_task i k t) = false) as Hh by (intros k; by apply t_has_peer_false).
  erewrite run_tasks_cons; [|done..].
  erewrite run_tasks_cons; [|apply set_task_at|cbn; by rewrite bool_decide_eq_true_2]. rewrite set_task_twice.
  erewrite run_tasks_cons; [|apply set_task_at|cbn; by rewrite Hh]. rewrite set_task_twice.
  erewrite run_tasks_cons; [|apply set_task_at|cbn; by rewrite Hh]. rewrite set_task_twice.
  erewrite run_tasks_cons; [|apply set_task_at|by apply desire_step]. rewrite set_task_twice.
  erewrite run_tasks_cons; [|apply set_task_at|done]. cbn. unfold attempt_failed.
  change (t_config (set_task i _ t)) with (t_config t). repeat case_match; by rewrite set_task_twice.
Qed.

Lemma u32_succ_small n : (0 ≤ n < 2 ^ 32 - 1)%Z → u32_succ n = (n + 1)%Z.
Proof. intros Hn. unfold u32_succ. apply Z.mod_small. lia. Qed.

Lemma end_gave_up i (p : node_id_t) k t :
  end_task i (emit (ReconnectGaveUp p) ((set_task i k t) <| t_desired ::= λ d, d ∖ {[p]} |>)) =
  end_task i (emit (ReconnectGaveUp p) (t <| t_desired ::= λ d, d ∖ {[p]} |>)).
Proof. destruct t. unfold end_task, emit, set_task. cbn. f_equal. apply delete_insert_eq. Qed.

Lemma gives_up_after (k : nat) : ∀ i p n max t,
  t_tasks t !! i = Some (TReconnect p n RcSleep) → p ∈ t_desired t → t_peers t !! p = None →
  tc_reconnect_max_attempts (t_config t) = Some max → (0 ≤ n)%Z → (max < 2 ^ 32)%Z → (n + Z.of_nat (S k) = max)%Z →
  run_tasks (concat (replicate (S k) (failed_round i)) ++ [(i, unreachable)]) t =
    Some (end_task i (emit (ReconnectGaveUp p) (t <| t_desired ::= λ d, d ∖ {[p]} |>))).
Proof.
  induction k as [|k IH]; intros i p n max t Hi Hd Hp Hmax Hn Hm Hk; cbn [replicate concat];
    rewrite -app_assoc run_tasks_app (failed_round_spec i p n) //.
  - cbn [concat app]. unfold attempt_failed. rewrite Hmax u32_succ_small; [lia|].
    rewrite (proj2 (Z.leb_le _ _)); [lia|]. erewrite run_tasks_cons; [|apply set_task_at|done].
    cbn [run_tasks]. f_equal. apply (end_gave_up i p).
  - unfold attempt_failed. rewrite Hmax u32_succ_small; [lia|]. rewrite (proj2 (Z.leb_gt _ _)); [lia|].
    rewrite (IH i p (n + 1)%Z max) //; [apply set_task_at|lia..|]. f_equal. apply (end_gave_up i p).
Qed.

(** (C24) Reconnection ends: a loop for a peer that cannot be reached makes
    exactly [reconnect_max_attempts] dials, then drops the peer from the desired
    ones, says so and is gone; the rest of the transport is untouched. *)
Theorem reconnect_gives_up i p max t :
  t_tasks t !! i = Some (TReconnect p 0 RcSleep) → p ∈ t_desired t → t_peers t !! p = None →
  tc_reconnect_max_attempts (t_config t) = Some max → (1 ≤ max < 2 ^ 32)%Z →
  run_tasks (concat (replicate (Z.to_nat max) (failed_round i)) ++ [(i, unreachable)]) t =
    Some (end_task i (emit (ReconnectGaveUp p) (t <| t_desired ::= λ d, d ∖ {[p]} |>))).
Proof.
  intros Hi Hd Hp Hmax Hm. replace (Z.to_nat max) with (S (Z.to_nat max - 1)) by lia.
  eapply gives_up_after; [done..| | |]; lia.
Qed.

(** ** Handshakes *)

(** (C36) Who may register: a first handshake is taken up, with the peer it names,
    exactly when the transport runs, the connection is an inbound one, the
    source is a node id and, with a cluster secret, the payload is a proof built
    from that very secret. *)
Theorem handshake_accepted r m p t :
  check_handshake r m t = HsFrom p ↔
  t_stopped t = false ∧ rl_write_half r = true ∧ parse (wm_src m) = inr p ∧
  ∀ secret, tc_cluster_secret (t_config t) = Some secret →
    ∃ nonce, length nonce = NONCE_LEN ∧ wm_payload m = build_proof secret nonce.
Proof.
  unfold check_handshake. destruct (t_stopped t); [naive_solver|].
  destruct (tc_cluster_secret (t_config t)) as [secret|].
  - destruct (verify_proof secret (wm_payload m)) eqn:Hv; cbn.
    + apply verify_proof_iff in Hv. destruct (parse (wm_src m)) as [e|q]; [naive_solver|].
      destruct (rl_write_half r); naive_solver.
    + split; [done|]. intros (_ & _ & _ & Hs). destruct (Hs secret) as [nonce Hn]; [done|].
      assert (verify_proof secret (wm_payload m) = true) by (apply verify_proof_iff; eauto). congruence.
  - destruct (parse (wm_src m)) as [e|q]; [naive_solver|]. destruct (rl_write_half r); naive_solver.
Qed.

End props.
