(* ===== verification/TransportGaps.v ===== *)
(** * Where the transport does less than it says

    Runs of the transition system of [Transport] that its comments exclude or
    its documentation does not promise. *)

From S2P Require Import Prelude Values NodeId State Wire Transport TransportProps.

Section gaps.
Context {BC : Bincode} {HM : Hmac} {MP : Mpsc wire_message} {BR : Broadcast tevent} {JS : Json}.

(** ** An old announcement drops a new connection

    A read loop subscribes to the events when it starts and looks at them only
    once it has registered its peer; what was announced in between waits for
    it. *)

Definition quiet : env_choice := EnvChoice false [] WakeEvent false.

(** Events about anything else are read and skipped. *)
Lemma select_skips evs : ∀ i r us h rest t,
  t_tasks t !! i = Some (TRead r) → rl_pc r = RSelect → rl_registered r = Some (us, h) →
  drop (rl_cursor r) (t_events t) = evs ++ rest → PeerDisconnected us ∉ evs →
  length evs + length rest ≤ EVENTS_CAPACITY →
  run_tasks (replicate (length evs) (i, quiet)) t =
    Some (t <| t_tasks ::= <[i := TRead (r <| rl_cursor := rl_cursor r + length evs |>)]> |>).
Proof.
  induction evs as [|ev evs IH]; intros i r us h rest t Hi Hpc Hreg Hdrop Hnot Hlen; cbn [length replicate].
  { cbn. rewrite Nat.add_0_r. destruct r, t; cbn in *. by rewrite insert_id. }
  pose proof (f_equal length Hdrop) as Hl. rewrite length_drop length_app in Hl. cbn in Hl, Hlen.
  apply not_elem_of_cons in Hnot as [Hne Hnot].
  assert (t_events t !! rl_cursor r = Some ev) as Hev.
  { rewrite -(Nat.add_0_r (rl_cursor r)) -lookup_drop Hdrop //. }
  erewrite run_tasks_cons; [|done|]; last first.
  { cbn [task_step]. unfold read_step. rewrite Hpc. cbn. rewrite Hreg. erewrite bc_recv_ok; [|done|lia].
    by rewrite bool_decide_eq_false_2. }
  erewrite (IH i _ us h rest); [|apply set_task_at|done|done| |done|lia].
  - f_equal. assert (rl_cursor r + S (length evs) = S (rl_cursor r) + length evs) as -> by lia.
    unfold set_task. destruct r, t; cbn in *. by rewrite insert_insert_eq Hpc Hreg.
  - cbn. rewrite (drop_S _ ev) // in Hdrop. by injection Hdrop.
Qed.

(** (C39) A connection that has just been accepted from [p] is dropped because of
    a [PeerDisconnected] of an older connection to [p], sent before the new one
    was registered: the read loop finds it among the events since its start.
    After the handshake the peer is announced and gone again. *)
Theorem stale_disconnect_drops_connection i r m p evs rest t :
  t_tasks t !! i = Some (TRead r) → rl_pc r = RFrames [m] → rl_registered r = None →
  wm_version m = PROTOCOL_VERSION → wm_kind m = Handshake → check_handshake r m t = HsFrom p →
  t_peers t !! p = None →
  drop (rl_cursor r) (t_events t) = evs ++ PeerDisconnected p :: rest → PeerDisconnected p ∉ evs →
  length (evs ++ PeerDisconnected p :: rest) < EVENTS_CAPACITY →
  ∃ t', run_tasks (replicate (7 + length evs) (i, quiet)) t = Some t' ∧
    t_peers t' = t_peers t ∧ t_tasks t' !! i = None ∧
    t_events t' = t_events t ++ [PeerConnected p; PeerDisconnected p].
Proof.
  intros Hi Hpc Hreg Hv Hk Hc Hp Hev Hnot Hlag. rewrite length_app /= in Hlag.
  assert (7 + length evs = 4 + (length evs + 3)) as -> by lia.
  rewrite !replicate_add run_tasks_app. cbn [replicate].
  erewrite run_tasks_cons; [|done|]; last first.
  { cbn [task_step]. unfold read_step. rewrite Hpc. unfold frame_step.
    rewrite Hv Z.eqb_refl Hk bool_decide_eq_true_2 // Hreg Hc. done. }
  erewrite run_tasks_cons; [|apply set_task_at|cbn; by rewrite (t_has_peer_false p) /=].
  erewrite run_tasks_cons; [|apply set_task_at|done].
  erewrite run_tasks_cons; [|apply set_task_at|done].
  pose proof (f_equal length Hev) as Hl. rewrite length_drop length_app in Hl. cbn in Hl.
  cbn [run_tasks]. rewrite run_tasks_app.
  erewrite (select_skips evs i _ p _ (PeerDisconnected p :: rest ++ [PeerConnected p]));
    [|apply set_task_at|done|done| |done|cbn; rewrite length_app /=; lia].
  2: { cbn. rewrite drop_app_le; [lia|]. by rewrite Hev -app_assoc. }
  cbn [replicate].
  assert ((t_events t ++ [PeerConnected p]) !! (rl_cursor r + length evs) = Some (PeerDisconnected p)) as Hat.
  { apply lookup_app_l_Some. by rewrite -lookup_drop Hev list_lookup_middle. }
  erewrite run_tasks_cons; [|cbn; apply lookup_insert_eq|]; last first.
  { cbn. erewrite bc_recv_ok; [|exact Hat|rewrite length_app /=; lia]. by rewrite bool_decide_eq_true_2. }
  erewrite run_tasks_cons; [|apply set_task_at|]; last first.
  { cbn. rewrite lookup_insert_eq /is_same_connection bool_decide_eq_true_2 //. }
  erewrite run_tasks_cons; [|apply set_task_at|done]. eexists. split; [done|]. cbn. split; [|split].
  - by apply delete_insert_id.
  - apply lookup_delete_eq.
  - by rewrite -app_assoc.
Qed.

(** ** The reconnect supervisor does not survive a lag

    [event_drain_loop] goes on after [Lagged]; [reconnect_supervisor] is a
    [while let Ok(..)]. *)

(** Every supervisor of [t'] was one of [t]. *)
Definition supervisors_within (t t' : transport) : Prop :=
  ∀ j c d, t_tasks t' !! j = Some (TSupervise c d) → ∃ c' d', t_tasks t !! j = Some (TSupervise c' d').

Definition not_supervisor (k : ttask) : Prop := match k with TSupervise _ _ => False | _ => True end.

#[local] Instance supervisors_within_preorder : PreOrder supervisors_within.
Proof.
  split; [intros t j c d; eauto|]. intros t1 t2 t3 H12 H23 j c d Hj.
  destruct (H23 j c d Hj) as (c' & d' & Hj'). by eapply H12.
Qed.

Lemma sw_same t t' : t_tasks t' = t_tasks t → supervisors_within t t'.
Proof. intros Ht j c d. rewrite Ht. eauto. Qed.

Lemma sw_core t t' : same_core t t' → supervisors_within t t'.
Proof. intros (_ & Hk & _). by apply sw_same. Qed.

Lemma sw_set i k t : not_supervisor k → supervisors_within t (set_task i k t).
Proof.
  intros Hk j c d. cbn. destruct (decide (i = j)) as [->|Hne]; [rewrite lookup_insert_eq; by intros [= ->]|].
  rewrite lookup_insert_ne //. eauto.
Qed.

Lemma sw_end i t : supervisors_within t (end_task i t).
Proof. intros j c d. cbn. intros [_ Hj]%lookup_delete_Some. eauto. Qed.

Lemma sw_spawn k t : not_supervisor k → supervisors_within t (spawn_task k t).
Proof.
  intros Hk j c d. cbn. destruct (decide (t_next_task t = j)) as [<-|Hne]; [rewrite lookup_insert_eq; by intros [= ->]|].
  rewrite lookup_insert_ne //. eauto.
Qed.

#[local] Hint Resolve sw_end sw_set sw_spawn sw_core : core.

(** Reads a chain of these from the outside in. *)
Ltac sw_chain :=
  match goal with
  | |- supervisors_within _ (set_task _ _ ?u) => transitivity u; [sw_chain|by apply sw_set]
  | |- supervisors_within _ (end_task _ ?u) => transitivity u; [sw_chain|by apply sw_end]
  | |- supervisors_within _ (spawn_task _ ?u) => transitivity u; [sw_chain|by apply sw_spawn]
  | |- supervisors_within _ (emit _ ?u) => transitivity u; [sw_chain|by apply sw_same]
  | |- _ => try first [reflexivity | by apply sw_same | by apply sw_core]
  end.

Lemma sw_dial tcp nonce p pc t r t' : dial_step tcp nonce p pc t = (r, t') → supervisors_within t t'.
Proof.
  destruct pc as [| | |h|h]; cbn; [repeat case_match; intros; simplify_eq; sw_chain..|].
  intros [= _ <-]. sw_chain. destruct (handle_send _ _ _) as [t1|e|] eqn:E; [|by apply sw_same..].
  apply handle_send_core in E. by apply sw_core.
Qed.

Lemma sw_attempt i p n t : supervisors_within t (attempt_failed i p n t).
Proof. unfold attempt_failed. repeat case_match; sw_chain. Qed.

Lemma sw_route p m t t' : t_route p m t = Some t' → supervisors_within t t'.
Proof. intros H%t_route_core. by apply sw_core. Qed.

Lemma sw_task i e k t t' :
  not_supervisor k → task_step i e k t = Some t' → supervisors_within t t'.
Proof.
  destruct k as [p pc|p n pc|r|p pc|c d|p pc|pc]; intros Hk; cbn [task_step]; [..|done| |].
  - unfold connect_step. destruct (dial_step _ _ p pc t) as [res t1] eqn:E. apply sw_dial in E. intros [= <-].
    etransitivity; [done|]. repeat case_match; sw_chain.
  - intros [= <-]. destruct pc as [| | |pc|]; cbn; try solve [repeat case_match; sw_chain].
    destruct (dial_step _ _ p pc t) as [res t1] eqn:E. apply sw_dial in E.
    etransitivity; [done|]. destruct res; [sw_chain..|apply sw_attempt].
  - unfold read_step. destruct (rl_pc r) as [| |[|m ms]|q h ms|q ms| |q]; try solve [repeat case_match; intros; simplify_eq; sw_chain].
    unfold frame_step. case_match; [intros [= <-]; sw_chain|]. case_bool_decide.
    + destruct (rl_registered r), (check_handshake r m t); intros [= <-]; sw_chain.
    + destruct (rl_registered r) as [[q h]|]; [|intros [= <-]; sw_chain].
      destruct (t_route q m t) as [t1|] eqn:E; [|done]. intros [= <-]. apply sw_route in E. etransitivity; [done|]. sw_chain.
  - destruct pc as [|c|c]; cbn; [repeat case_match; intros; simplify_eq; sw_chain..|].
    destruct (t_peers t !! p) as [h|]; [|intros [= <-]; sw_chain].
    destruct (handle_send _ _ _) as [t1|err|] eqn:E; [|intros [= <-]; sw_chain|done].
    intros [= <-]. apply handle_send_core, sw_core in E. etransitivity; [done|]. sw_chain.
  - intros [= <-]. destruct pc; cbn; repeat case_match; sw_chain.
  - intros [= <-]. destruct pc; cbn; sw_chain.
Qed.

Lemma sw_supervise i c d t t' :
  t_tasks t !! i = Some (TSupervise c d) → supervise_step i c d t = Some t' → supervisors_within t t'.
Proof.
  intros Hi. assert (∀ c' d', supervisors_within t (set_task i (TSupervise c' d') t)) as Hset.
  { intros c' d' j c1 d1. cbn. destruct (decide (i = j)) as [->|Hne]; [eauto|]. rewrite lookup_insert_ne //. eauto. }
  unfold supervise_step. destruct d as [p|].
  - case_bool_decide; intros [= <-]; [|done]. etransitivity; [apply (Hset c None)|]. sw_chain.
  - destruct (bc_recv _ _ _) as [[]| |]; intros; simplify_eq; by try sw_chain.
Qed.

(** No step starts a supervisor. *)
Lemma sw_step t t' : tstep t t' → supervisors_within t t'.
Proof.
  intros [i k e t1 Hi Hs|i p n pc Hi Hw|Hstop|p|p| |p dst pl reply corr t1 Hs|p d c t1 Hs|name mb|name|name mb m mb' Hn Hr
             |tx q q' b Hq Hw|tx q Hq]; [|apply sw_attempt|try sw_chain..].
  - destruct k as [p pc|p n pc|r|p pc|c d|p pc|pc]; try (by eapply sw_task, Hs).
    by eapply sw_supervise.
  - apply send_data_core in Hs. by apply sw_core.
  - apply send_error_core in Hs. by apply sw_core.
Qed.

Lemma sw_steps t t' : rtc tstep t t' → supervisors_within t t'.
Proof. induction 1 as [|t1 t2 t3 H12 _ IH]; [done|]. etransitivity; [by apply sw_step|done]. Qed.

(** Once more than [EVENTS_CAPACITY] events are waiting for the reconnect
    supervisor, its next step ends it, and in no later state is there a
    supervisor again: peers that drop from then on are not redialed. *)
Theorem reconnect_supervisor_lost i c t :
  t_tasks t !! i = Some (TSupervise c None) →
  (∀ j c' d, t_tasks t !! j = Some (TSupervise c' d) → j = i) →
  EVENTS_CAPACITY < length (t_events t) - c →
  (∀ e, task_step i e (TSupervise c None) t = Some (end_task i t)) ∧
  ∀ t', rtc tstep (end_task i t) t' → ∀ j c' d, t_tasks t' !! j ≠ Some (TSupervise c' d).
Proof.
  intros Hi Honly Hlag. split.
  - intros e. cbn. by rewrite bc_recv_lagged.
  - intros t' Hr%sw_steps j c' d Hj. destruct (Hr j c' d Hj) as (c1 & d1 & Hj1). cbn in Hj1.
    apply lookup_delete_Some in Hj1 as [Hne Hj1]. by apply Hne; symmetry; eapply Honly.
Qed.

(** ** Forgetting a peer while it is being dialed *)

Definition dialing : env_choice := EnvChoice true [] WakeEnd false.

(** [forget_peer] between the moment a dial enters the peer and the moment
    it announces it: the last that is announced of the peer is that it is
    connected, while it is not in the peers map. *)
Theorem forget_during_dial local config i j p h t :
  t_reachable local config t → t_tasks t !! i = Some (TConnect p (DSend h)) →
  t_tasks t !! j = Some (TForget p FDesired) → t_peers t !! p = Some h →
  ∃ t', run_tasks [(j, dialing); (j, dialing); (j, dialing); (i, dialing)] t = Some t' ∧
    t_peers t' !! p = None ∧ (p ∉ t_desired t') ∧
    t_events t' = t_events t ++ [PeerDisconnected p; PeerConnected p] ∧
    t_tasks t' !! t_next_task t = Some (TRead (ReadTask false (Some (p, h)) [] 0 RStart)).
Proof.
  intros [f Hf]%t_reachable_inv Hi Hj Hp. assert (i ≠ j) as Hij by (intros ->; congruence).
  assert (i ≠ t_next_task t) as Hfresh by (intros ->; by rewrite (ti_fresh f t Hf) in Hi).
  erewrite run_tasks_cons; [|done..].
  erewrite run_tasks_cons; [|apply set_task_at|cbn; by rewrite (t_has_peer_true p h)].
  erewrite run_tasks_cons; [|apply set_task_at|done].
  erewrite run_tasks_cons; [|cbn; by rewrite lookup_delete_ne // !lookup_insert_ne|done].
  cbn [run_tasks]. eexists. split; [done|]. unfold connect_step. cbn [dial_step].
  destruct (next_msg_id _) as [id t1] eqn:Hid. injection Hid as <- <-.
  destruct (handle_send _ _ _) as [t2|e|] eqn:Hs; [apply handle_send_frame in Hs as ->|..]; cbn.
  all: rewrite lookup_delete_eq -app_assoc; split; [done|]; split; [set_solver|]; split; [done|].
  all: rewrite lookup_delete_ne // lookup_insert_ne; [lia|]; by rewrite lookup_insert_eq.
Qed.

(** ** A peer that is already connected does not become a desired one *)

(** [connect] to a peer that is connected already (because it dialed us)
    returns at once and leaves the desired peers as they are: when that
    connection drops, the supervisor does not redial. *)
Theorem connect_known_peer_not_desired i j e c p h t :
  t_tasks t !! i = Some (TConnect p DHasPeer) → t_peers t !! p = Some h → p ∉ t_desired t →
  task_step i e (TConnect p DHasPeer) t = Some (end_task i t) ∧
  ∀ t', p ∉ t_desired t' →
    task_step j e (TSupervise c (Some p)) t' = Some (set_task j (TSupervise c None) t').
Proof.
  intros Hi Hp Hd. split.
  - cbn. unfold connect_step. cbn. by rewrite (t_has_peer_true p h).
  - intros t' Hd'. cbn. by rewrite bool_decide_eq_false_2.
Qed.

(** ** The limit on payloads is the limit on frames *)

(** A payload within [MAX_FRAME_SIZE] whose message does not fit into a frame
    is accepted by [send_data_bytes] and queued; at the other end the first four
    bytes of its frame end the read loop, so that the connection is dropped. *)
Theorem payload_near_limit_drops_peer p h q dst payload reply corr t body :
  let msg := WireMessage PROTOCOL_VERSION (t_next_msg_id t) (to_full (t_local t)) dst Data payload reply corr in
  (Z.of_nat (length payload) ≤ MAX_FRAME_SIZE)%Z →
  bincode_encode msg = Some body → (MAX_FRAME_SIZE < Z.of_nat (length body) < 2 ^ 32 - 4)%Z →
  t_peers t !! p = Some h → t_queues t !! ph_tx h = Some (q, true) → length (contents q) < capacity q →
  (∃ t' q', (send_data_bytes p dst payload reply corr t).1 = SendOk t' ∧
     t_queues t' !! ph_tx h = Some (q', true) ∧ contents q' = contents q ++ [msg]) ∧
  ∃ frame, encode_frame msg = Some frame ∧
    ∀ u i r n, rl_pc r = RSelect → rl_buf r = [] → 4 ≤ n →
      read_step i (WakeData (take n frame)) r u =
        Some (set_task i (TRead (r <| rl_buf := take n frame |> <| rl_pc := RCleanup |>)) u).
Proof.
  intros msg Hpay Hbody Hlen Hp Hq Hroom. split.
  - apply (try_send_room msg) in Hroom as [q' Hq']. eexists _, q'.
    unfold send_data_bytes. rewrite (proj2 (Z.ltb_ge _ _)) //. cbn. unfold send_msg. cbn. rewrite Hp.
    unfold handle_send. cbn. rewrite Hq -/msg Hq'. split; [done|]. cbn. rewrite lookup_insert_eq.
    split; [done|]. by apply try_send_fifo.
  - assert (encode_frame msg = Some (LittleEndianList.le_split 4 (Z.of_nat (length body)) ++ body)) as Hf.
    { unfold encode_frame. by rewrite Hbody. }
    eexists. split; [done|]. intros u i r n Hpc Hbuf Hn. unfold read_step. rewrite Hpc Hbuf.
    rewrite (oversize_frame msg _ n Hf) //. destruct (encode_frame_inv _ _ Hf) as (b & Hb & _ & ->).
    rewrite Hbody in Hb. injection Hb as <-. lia.
Qed.

(** ** A congested peer *)

(** With its queue full, a peer makes [send_data_bytes] wait for room: it
    does not fail. *)
Theorem congested_peer_waits p h q dst payload reply corr t :
  (Z.of_nat (length payload) ≤ MAX_FRAME_SIZE)%Z →
  t_peers t !! p = Some h → t_queues t !! ph_tx h = Some (q, true) → capacity q ≤ length (contents q) →
  (send_data_bytes p dst payload reply corr t).1 = SendWaits.
Proof.
  intros Hpay Hp Hq Hfull. unfold send_data_bytes. rewrite (proj2 (Z.ltb_ge _ _)) //. cbn. unfold send_msg. cbn. rewrite Hp.
  unfold handle_send. cbn. rewrite Hq. destruct (try_send _ q) as [q'|] eqn:E; [|done].
  pose proof (proj1 (try_send_room _ q) (mk_is_Some _ _ E)). lia.
Qed.

End gaps.
