(* ===== verification/TransportCore.v ===== *)
(** * The core that the Python layer sees

    [src/src/py/node.rs]: the methods of [_core.Node] run on the transport with
    [block_on].  The Python layer is verified against the record [core_t] of
    [State] and the operations [core_*] of [Node]; here these are shown to be
    what the methods do on a [transport], call by call, and a frame that one
    node hands to its transport is shown to reach the other node's callback as
    [Cluster.inbound] delivers it. *)

From stdpp Require Import pretty.
From S2P Require Import Prelude Values NodeId Actors State PeerEvents Asyncio Node.
From S2P Require Import Wire Transport TransportProps.

(** ** Payloads *)

(** The nesting of lists and dicts, and the values that the JSON parser gives
    back as they were: [serde_json] promises it for floats only with a feature
    that is not enabled, and its parser stops at [RECURSION_LIMIT]. *)
Fixpoint json_depth (v : pyval) : nat :=
  match v with
  | PList xs | PTuple xs => S (foldr (λ x n, Nat.max (json_depth x) n) 0 xs)
  | PDict kvs | PObj _ kvs => S (foldr (λ kv n, Nat.max (json_depth kv.2) n) 0 kvs)
  | _ => 0
  end.

Fixpoint no_floats (v : pyval) : bool :=
  match v with
  | PFloat _ => false
  | PList xs | PTuple xs => forallb no_floats xs
  | PDict kvs | PObj _ kvs => forallb (λ kv, no_floats kv.2) kvs
  | _ => true
  end.

Definition RECURSION_LIMIT : nat := 128.
Definition json_exact (v : pyval) : bool :=
  wire_safe v && no_floats v && bool_decide (json_depth v < RECURSION_LIMIT).

(** [serde_json::to_vec] and [Deserializer::from_slice]. *)
Class JsonValue := {
  json_to_vec : pyval → list byte;
  json_from_slice : list byte → option pyval;
  json_to_vec_nonempty v : json_to_vec v ≠ [];
  json_value_roundtrip v : json_exact v = true → json_from_slice (json_to_vec v) = Some v
}.

Section core.
Context {BC : Bincode} {HM : Hmac} {MP : Mpsc wire_message} {BR : Broadcast tevent} {JS : Json} {JV : JsonValue}.

(** [py_to_json_bytes] and [bytes_to_py] *)
Definition py_to_json_bytes (v : pyval) : exn + list byte :=
  match wire_transfer v with inl e => inl e | inr w => inr (json_to_vec w) end.
Definition bytes_to_py (data : list byte) : option pyval :=
  match data with [] => Some PNone | _ => json_from_slice data end.

(** ** The methods

    [None] of the state is a node that is not started, [None] of the result a
    call that does not return because it waits for room in a queue. *)

Definition rust (A : Type) : Type := option transport → option ((exn + A) * option transport).

Definition parse_peer (peer_id : string) : exn + node_id_t :=
  match parse peer_id with
  | inl e => inl (ValueError ("invalid peer id: " +:+ node_id_error_text e))
  | inr p => inr p
  end.

(** The argument conversions, then [require], then the call. *)
Definition with_peer {A} (peer_id : string) (f : node_id_t → transport → option ((exn + A) * transport)) : rust A :=
  λ o, match parse_peer peer_id with
       | inl e => Some (inl e, o)
       | inr p =>
           match o with
           | None => Some (inl not_started, None)
           | Some t => match f p t with Some (r, t') => Some (r, Some t') | None => None end
           end
       end.

Definition with_transport {A} (f : transport → A * transport) : rust A :=
  λ o, match o with
       | None => Some (inl not_started, None)
       | Some t => let '(a, t') := f t in Some (inr a, Some t')
       end.

Definition rust_send_data (peer_id dst : string) (payload : pyval) (reply : option string) (corr : option Z) : rust unit :=
  λ o, match u64_arg corr with
       | inl e => Some (inl e, o)
       | inr _ =>
           match parse_peer peer_id with
           | inl e => Some (inl e, o)
           | inr p =>
               match py_to_json_bytes payload with
               | inl e => Some (inl e, o)
               | inr bytes =>
                   match o with
                   | None => Some (inl not_started, None)
                   | Some t =>
                       match send_data_bytes p dst bytes reply corr t with
                       | (SendOk t', _) => Some (inr tt, Some t')
                       | (SendErr e, t') => Some (inl (ValueError ("send failed: " +:+ send_error_text e)), Some t')
                       | (SendWaits, _) => None
                       end
                   end
               end
           end
       end.

Definition rust_notify_peer_error (peer_id detail : string) (corr : option Z) : rust unit :=
  λ o, match u64_arg corr with
       | inl e => Some (inl e, o)
       | inr _ =>
           with_peer peer_id (λ p t, match best_effort (send_error p detail corr t) with
                                     | Some t' => Some (inr tt, t')
                                     | None => None
                                     end) o
       end.

(** [transport.connect] runs as a task of its own. *)
Definition rust_connect_peer (peer_id : string) : rust unit :=
  with_peer peer_id (λ p t, Some (inr tt, spawn_task (TConnect p DHasPeer) t)).

(** [Transport::forget_peer] from its first await to its end. *)
Definition t_forget_peer (p : node_id_t) (t : transport) : transport :=
  let i := t_next_task t in
  let t := forget_step i p FDesired (spawn_task (TForget p FDesired) t) in
  let t' := forget_step i p FPeers t in
  if t_has_peer p t then forget_step i p FAnnounce t' else t'.

Definition rust_forget_peer (peer_id : string) : rust unit :=
  with_peer peer_id (λ p t, Some (inr tt, t_forget_peer p t)).

Definition rust_has_peer (peer_id : string) : rust bool :=
  with_peer peer_id (λ p t, Some (inr (t_has_peer p t), t)).

Definition rust_peer_count : rust nat := with_transport (λ t, (t_peer_count t, t)).

(** [mpsc::channel(256)] *)
Definition rust_register_actor (name : string) : rust unit :=
  with_transport (λ t, (tt, t_register_actor name (mpsc_channel 256) t)).
Definition rust_unregister_actor (name : string) : rust unit :=
  with_transport (λ t, (tt, t_unregister_actor name t)).

(** ** [drain_loop] and [event_drain_loop] *)

(** What the callback of an actor is called with; a payload that does not parse
    is dropped. *)
Definition drain_message (m : wire_message) : option envelope :=
  match bytes_to_py (wm_payload m) with
  | None => None
  | Some obj => Some (obj, MessageMeta (Some (wm_src m)) (wm_reply_to m) (wm_correlation_id m) (Some (wm_msg_id m)))
  end.

Definition drain_event (ev : tevent) : event :=
  match ev with
  | PeerConnected p => EvPeerConnected (to_full p)
  | PeerDisconnected p => EvPeerDisconnected (to_full p)
  | ErrorReceived from detail corr => EvError (to_full from) detail corr
  | ReconnectGaveUp p => EvReconnectGaveUp (to_full p)
  | MailboxFull actor => EvMailboxFull actor
  end.

(** ** The abstraction *)

(** The core's reasons to refuse a message, beyond a peer that is not there. *)
Definition transport_refuses (t : transport) (peer_id : string) (payload : pyval) : option exn :=
  match parse peer_id, wire_transfer payload with
  | inr p, inr w =>
      let n := Z.of_nat (length (json_to_vec w)) in
      if (MAX_FRAME_SIZE <? n)%Z then Some (ValueError ("send failed: " +:+ send_error_text (PayloadTooLarge n)))
      else match t_peers t !! p with
           | None => None
           | Some h =>
               match t_queues t !! ph_tx h with
               | Some (_, true) => None
               | _ => Some (ValueError ("send failed: " +:+ send_error_text Closed))
               end
           end
  | _, _ => None
  end.

Definition peer_names (m : gmap node_id_t peer_handle) : gset string :=
  list_to_set (to_full <$> elements (dom m)).

(** The transport of a running node, and the record for it. *)
Record core_rel (t : transport) (co : core_t) : Prop := CoreRel {
  cr_local : co_local co = to_full (t_local t);
  cr_running : co_running co = true;
  cr_peers : co_peers co = peer_names (t_peers t);
  cr_wf : ∀ p, is_Some (t_peers t !! p) → nid_wf p;
  cr_routing : co_routing co = dom (t_routing t);
  cr_id : co_next_msg_id co = t_next_msg_id t
}.

(** The calls, and what they return. *)
Inductive core_call :=
| CallSend (peer_id dst : string) (payload : pyval) (reply : option string) (corr : option Z)
| CallNotify (peer_id detail : string) (corr : option Z)
| CallConnect (peer_id : string)
| CallForget (peer_id : string)
| CallHasPeer (peer_id : string)
| CallPeerCount
| CallRegister (name : string)
| CallUnregister (name : string).

Inductive call_result := RUnit | RBool (b : bool) | RNat (n : nat).

Definition rust_map {A B} (f : A → B) (m : rust A) : rust B :=
  λ o, match m o with
       | Some (inr a, o') => Some (inr (f a), o')
       | Some (inl e, o') => Some (inl e, o')
       | None => None
       end.

Definition rust_call (c : core_call) : rust call_result :=
  match c with
  | CallSend peer_id dst payload reply corr => rust_map (λ _, RUnit) (rust_send_data peer_id dst payload reply corr)
  | CallNotify peer_id detail corr => rust_map (λ _, RUnit) (rust_notify_peer_error peer_id detail corr)
  | CallConnect peer_id => rust_map (λ _, RUnit) (rust_connect_peer peer_id)
  | CallForget peer_id => rust_map (λ _, RUnit) (rust_forget_peer peer_id)
  | CallHasPeer peer_id => rust_map RBool (rust_has_peer peer_id)
  | CallPeerCount => rust_map RNat rust_peer_count
  | CallRegister name => rust_map (λ _, RUnit) (rust_register_actor name)
  | CallUnregister name => rust_map (λ _, RUnit) (rust_unregister_actor name)
  end.

Definition core_op (c : core_call) : M core_t call_result :=
  match c with
  | CallSend peer_id dst payload reply corr => core_send_data peer_id dst payload reply corr ;; ret RUnit
  | CallNotify peer_id detail corr => core_notify_peer_error peer_id detail corr ;; ret RUnit
  | CallConnect peer_id => core_connect_peer peer_id ;; ret RUnit
  | CallForget peer_id => core_forget_peer peer_id ;; ret RUnit
  | CallHasPeer peer_id => let! b := core_has_peer peer_id in ret (RBool b)
  | CallPeerCount => let! n := core_peer_count in ret (RNat n)
  | CallRegister name => core_register_actor name ;; ret RUnit
  | CallUnregister name => core_unregister_actor name ;; ret RUnit
  end.

(** ** Names of peers *)

Lemma to_full_inj p q : nid_wf p → nid_wf q → to_full p = to_full q → p = q.
Proof.
  intros Hp Hq He. pose proof (parse_to_full p Hp) as H1. rewrite He parse_to_full // in H1. congruence.
Qed.

Lemma elem_of_peer_names s m : s ∈ peer_names m ↔ ∃ p, s = to_full p ∧ is_Some (m !! p).
Proof.
  unfold peer_names. rewrite elem_of_list_to_set list_elem_of_fmap. setoid_rewrite elem_of_elements.
  by setoid_rewrite elem_of_dom.
Qed.

Lemma core_rel_peer t co p : core_rel t co → nid_wf p → to_full p ∈ co_peers co ↔ is_Some (t_peers t !! p).
Proof.
  intros Hr Hp. rewrite (cr_peers _ _ Hr) elem_of_peer_names. split.
  - intros (q & He & Hq). rewrite (to_full_inj p q Hp) //. by apply (cr_wf _ _ Hr).
  - intros Hs. by exists p.
Qed.

Lemma core_rel_has t co p :
  core_rel t co → nid_wf p → bool_decide (to_full p ∈ co_peers co) = t_has_peer p t.
Proof. intros Hr Hp. apply bool_decide_ext. by apply core_rel_peer. Qed.

Lemma core_rel_count t co : core_rel t co → size (co_peers co) = t_peer_count t.
Proof.
  intros Hr. rewrite (cr_peers _ _ Hr). unfold peer_names, t_peer_count. rewrite size_list_to_set.
  - apply NoDup_fmap_2_strong; [|apply NoDup_elements]. intros p q.
    rewrite !elem_of_elements !elem_of_dom. intros Hp Hq. apply to_full_inj; by apply (cr_wf _ _ Hr).
  - by rewrite length_fmap -size_dom.
Qed.

Lemma peer_names_delete p m :
  (∀ q, is_Some (m !! q) → nid_wf q) → nid_wf p → peer_names (delete p m) = peer_names m ∖ {[to_full p]}.
Proof.
  intros Hm Hp. apply set_eq. intros s. rewrite elem_of_difference elem_of_singleton !elem_of_peer_names. split.
  - intros (q & -> & [h [Hne Hq]%lookup_delete_Some]). split; [eauto|]. intros He. apply Hne.
    apply to_full_inj; [done|by apply Hm|done].
  - intros [(q & -> & Hq) Hne]. exists q. split; [done|]. rewrite lookup_delete_ne //. congruence.
Qed.

(** ** The calls *)

(** The record for the transport after a call, up to the message numbers. *)
Definition renumber (t : transport) (co : core_t) : core_t := co <| co_next_msg_id := t_next_msg_id t |>.

Lemma core_rel_frame t t' co co' :
  core_rel t co → t_local t' = t_local t → t_peers t' = t_peers t → dom (t_routing t') = dom (t_routing t) →
  co_local co' = co_local co → co_running co' = co_running co → co_peers co' = co_peers co →
  co_routing co' = co_routing co → core_rel t' (renumber t' co').
Proof. intros [] Hl Hp Hr H1 H2 H3 H4. by split; cbn; rewrite ?H1 ?H2 ?H3 ?H4 ?Hl ?Hp ?Hr. Qed.

(** What [send_msg] leaves alone. *)
Lemma send_msg_frame p m t t' :
  send_msg p m t = SendOk t' → t' = t <| t_queues := t_queues t' |>.
Proof. unfold send_msg. case_match; [|done]. apply handle_send_frame. Qed.

Lemma core_send_ok peer_id dst payload reply corr t co r o' :
  core_rel t co → (∀ x y, co_refuses co x y = transport_refuses t x y) →
  rust_send_data peer_id dst payload reply corr (Some t) = Some (r, o') →
  ∃ t', o' = Some t' ∧ outcome_of (core_send_data peer_id dst payload reply corr) co = r ∧
        core_rel t' (renumber t' (exec (core_send_data peer_id dst payload reply corr) co)).
Proof.
  intros Hrel Href. unfold rust_send_data, core_send_data, canonical, parse_peer, py_to_json_bytes. cbn.
  assert (core_rel t (renumber t co)) as Hsame by by eapply core_rel_frame.
  destruct (u64_arg corr) as [e|[]]; [intros [= <- <-]; by exists t|].
  destruct (parse peer_id) as [e|p] eqn:Hparse; [intros [= <- <-]; by exists t|].
  pose proof (parse_wf _ _ Hparse) as Hwf. cbn.
  destruct (wire_transfer payload) as [e|w] eqn:Hw; [intros [= <- <-]; by exists t|]. cbn.
  unfold core_require. cbn. rewrite (cr_running _ _ Hrel). cbn. rewrite Href. unfold transport_refuses.
  rewrite parse_to_full // Hw. unfold send_data_bytes.
  destruct (MAX_FRAME_SIZE <? _)%Z; [intros [= <- <-]; by exists t|]. cbn. unfold send_msg. cbn.
  pose proof (core_rel_has t co p Hrel Hwf) as Hhas.
  destruct (t_peers t !! p) as [h|] eqn:Hp; cbn.
  - unfold handle_send. cbn. rewrite (t_has_peer_true p h t Hp) in Hhas.
    destruct (t_queues t !! ph_tx h) as [[q []]|]; cbn; [|intros [= <- <-]; eexists; split_and!; [done..|by eapply core_rel_frame]..].
    destruct (try_send _ q) as [q'|]; [|done]. intros [= <- <-]. eexists. rewrite Hhas. cbn. split_and!; [done..|].
    by eapply core_rel_frame.
  - intros [= <- <-]. eexists. rewrite (t_has_peer_false p t Hp) in Hhas. rewrite Hhas. cbn.
    split_and!; [done..|]. by eapply core_rel_frame.
Qed.

Lemma core_notify_ok peer_id detail corr t co r o' :
  core_rel t co → rust_notify_peer_error peer_id detail corr (Some t) = Some (r, o') →
  ∃ t', o' = Some t' ∧ outcome_of (core_notify_peer_error peer_id detail corr) co = r ∧
        core_rel t' (renumber t' (exec (core_notify_peer_error peer_id detail corr) co)).
Proof.
  intros Hrel. unfold rust_notify_peer_error, core_notify_peer_error, canonical, with_peer, parse_peer. cbn.
  assert (core_rel t (renumber t co)) as Hsame by by eapply core_rel_frame.
  destruct (u64_arg corr) as [e|[]]; [intros [= <- <-]; by exists t|].
  destruct (parse peer_id) as [e|p] eqn:Hparse; [intros [= <- <-]; by exists t|]. cbn.
  unfold core_require. cbn. rewrite (cr_running _ _ Hrel). cbn.
  destruct (send_msg _ _ _) as [t1|e|] eqn:Hs; [|intros [= <- <-]|done].
  - apply send_msg_frame in Hs. intros [= <- <-]. exists t1. split_and!; [done..|].
    eapply core_rel_frame; [done|..]; try (by rewrite Hs); by case_bool_decide.
  - eexists. split_and!; [done..|]. eapply core_rel_frame; [done|..]; try done; by case_bool_decide.
Qed.

Lemma t_forget_peer_spec p t :
  t_peers (t_forget_peer p t) = delete p (t_peers t) ∧ t_desired (t_forget_peer p t) = t_desired t ∖ {[p]} ∧
  t_events (t_forget_peer p t) = t_events t ++ (if t_has_peer p t then [PeerDisconnected p] else []) ∧
  t_local (t_forget_peer p t) = t_local t ∧ t_routing (t_forget_peer p t) = t_routing t ∧
  t_next_msg_id (t_forget_peer p t) = t_next_msg_id t.
Proof.
  unfold t_forget_peer. cbn. change (t_has_peer p _) with (t_has_peer p t).
  destruct (t_has_peer p t) eqn:Hh; cbn; [done|]. apply bool_decide_eq_false in Hh.
  rewrite delete_id ?app_nil_r //. by apply eq_None_not_Some.
Qed.

Lemma core_forget_ok peer_id t co r o' :
  core_rel t co → rust_forget_peer peer_id (Some t) = Some (r, o') →
  ∃ t', o' = Some t' ∧ outcome_of (core_forget_peer peer_id) co = r ∧
        core_rel t' (renumber t' (exec (core_forget_peer peer_id) co)).
Proof.
  intros Hrel. unfold rust_forget_peer, core_forget_peer, canonical, with_peer, parse_peer. cbn.
  destruct (parse peer_id) as [e|p] eqn:Hparse; [intros [= <- <-]; exists t; split_and!; [done..|by eapply core_rel_frame]|].
  pose proof (parse_wf _ _ Hparse) as Hwf. unfold core_require. cbn. rewrite (cr_running _ _ Hrel). cbn.
  intros [= <- <-]. eexists. split_and!; [done..|].
  destruct (t_forget_peer_spec p t) as (Hp & _ & _ & Hl & Hr & Hi). destruct Hrel as [H1 H2 H3 H4 H5 H6].
  split; cbn; rewrite ?Hp ?Hl ?Hr ?Hi //.
  - rewrite H3 peer_names_delete //.
  - intros q [h [_ Hq]%lookup_delete_Some]. by apply H4.
Qed.

(** Why a call may not return. *)
Definition congested (t : transport) : Prop :=
  ∃ p h q, t_peers t !! p = Some h ∧ t_queues t !! ph_tx h = Some (q, true) ∧ capacity q ≤ length (contents q).

Lemma send_msg_waits p m t : send_msg p m t = SendWaits → congested t.
Proof.
  unfold send_msg, handle_send. destruct (t_peers t !! p) as [h|] eqn:Hp; [|done].
  destruct (t_queues t !! ph_tx h) as [[q []]|] eqn:Hq; [|done..].
  destruct (try_send m q) as [q'|] eqn:Hs; [done|]. intros _. exists p, h, q. split_and!; [done..|].
  apply Nat.nlt_ge. intros Hlt. apply (try_send_room m) in Hlt as [q' Hq']. congruence.
Qed.

Lemma rust_send_waits peer_id dst payload reply corr t :
  rust_send_data peer_id dst payload reply corr (Some t) = None → congested t.
Proof.
  unfold rust_send_data. repeat (case_match; try done). intros _. unfold send_data_bytes in *.
  destruct (MAX_FRAME_SIZE <? _)%Z; cbn in *; simplify_eq.
  match goal with H : send_msg _ _ _ = SendWaits |- _ => apply send_msg_waits in H end. done.
Qed.

Lemma rust_notify_waits peer_id detail corr t :
  rust_notify_peer_error peer_id detail corr (Some t) = None → congested t.
Proof.
  unfold rust_notify_peer_error, with_peer. repeat (case_match; try done). intros _. cbn in *.
  destruct (send_msg _ _ _) eqn:Hs; simplify_eq. by apply send_msg_waits in Hs.
Qed.

(** A call that leaves the transport as the record sees it. *)
Lemma rust_map_ok {A} (f : A → call_result) (m : rust A) (cm : M core_t A) t co :
  (∀ r o', m (Some t) = Some (r, o') →
     ∃ t', o' = Some t' ∧ outcome_of cm co = r ∧ core_rel t' (renumber t' (exec cm co))) →
  (m (Some t) = None → congested t) →
  match rust_map f m (Some t) with
  | Some (r, o') =>
      ∃ t', o' = Some t' ∧ outcome_of (let! a := cm in ret (f a)) co = r ∧
            core_rel t' (renumber t' (exec (let! a := cm in ret (f a)) co))
  | None => congested t
  end.
Proof.
  intros Hok Hw. unfold rust_map. destruct (m (Some t)) as [[[e|a] o']|]; [..|by apply Hw];
    destruct (Hok _ _ eq_refl) as (t' & -> & Hr & Hrel); cbn in *;
    destruct (cm co) as [r co']; cbn in *; subst; by exists t'.
Qed.


(** ** From one node to the other *)

(** The message for a frame of the record. *)
Definition frame_msg (t : transport) (f : frame) : wire_message :=
  WireMessage PROTOCOL_VERSION (fr_msg_id f) (to_full (t_local t)) (fr_actor f) Data (json_to_vec (fr_payload f))
              (fr_reply_to f) (fr_corr f).

(** A message is put at the end of the queue of a connected peer. *)
Definition queued (t : transport) (p : node_id_t) (m : wire_message) (t' : transport) : Prop :=
  ∃ h q q', t_peers t !! p = Some h ∧ t_queues t !! ph_tx h = Some (q, true) ∧
    t_queues t' !! ph_tx h = Some (q', true) ∧ contents q' = contents q ++ [m].

Lemma send_msg_queued p m t t' : send_msg p m t = SendOk t' → queued t p m t'.
Proof.
  unfold send_msg, handle_send. destruct (t_peers t !! p) as [h|] eqn:Hp; [|done].
  destruct (t_queues t !! ph_tx h) as [[q []]|] eqn:Hq; [|done..].
  destruct (try_send m q) as [q'|] eqn:Hs; [|done]. intros [= <-]. exists h, q, q'. cbn.
  rewrite lookup_insert_eq. split_and!; [done..|]. by apply try_send_fifo in Hs as [? _].
Qed.

Lemma drain_frame t f :
  json_exact (fr_payload f) = true →
  drain_message (frame_msg t f) =
    Some (fr_payload f, MessageMeta (Some (to_full (t_local t))) (fr_reply_to f) (fr_corr f) (Some (fr_msg_id f))).
Proof.
  intros Hx. unfold drain_message, bytes_to_py. cbn.
  pose proof (json_to_vec_nonempty (fr_payload f)) as Hne. pose proof (json_value_roundtrip _ Hx) as Hr.
  destruct (json_to_vec (fr_payload f)); [done|]. by rewrite Hr.
Qed.

Lemma rust_send_inv peer_id dst payload reply corr t o' :
  rust_send_data peer_id dst payload reply corr (Some t) = Some (inr tt, o') →
  ∃ p w t', u64_arg corr = inr tt ∧ parse peer_id = inr p ∧ wire_transfer payload = inr w ∧ o' = Some t' ∧
    (Z.of_nat (length (json_to_vec w)) ≤ MAX_FRAME_SIZE)%Z ∧
    queued t p (frame_msg t (Frame (to_full p) dst w reply corr (t_next_msg_id t))) t'.
Proof.
  unfold rust_send_data, parse_peer, py_to_json_bytes. destruct (u64_arg corr) as [|[]]; [done|].
  destruct (parse peer_id) as [|p]; [done|]. destruct (wire_transfer payload) as [|w]; [done|].
  unfold send_data_bytes. destruct (Z.ltb_spec MAX_FRAME_SIZE (Z.of_nat (length (json_to_vec w)))); [done|]. cbn.
  destruct (send_msg _ _ _) as [t'|e|] eqn:Hs; [|done..]. intros [= <-]. exists p, w, t'. split_and!; [done..|].
  by apply send_msg_queued in Hs.
Qed.


Lemma send_error_ok from detail corr hp q u :
  t_peers u !! from = Some hp → t_queues u !! ph_tx hp = Some (q, true) → length (contents q) < capacity q →
  ∃ u', best_effort (send_error from detail corr u) = Some u' ∧
    queued u from (error_msg (t_next_msg_id u) u detail corr) u' ∧ t_events u' = t_events u.
Proof.
  intros Hp Hq Hroom. unfold send_error. cbn.
  set (u1 := u <| t_next_msg_id ::= next_u64 |>).
  change (error_msg _ _ _ _) with (error_msg (t_next_msg_id u) u detail corr).
  generalize (error_msg (t_next_msg_id u) u detail corr). intros m.
  apply (try_send_room m) in Hroom as [q' Hq'].
  assert (send_msg from m u1 = SendOk (u1 <| t_queues ::= <[ph_tx hp := (q', true)]> |>)) as Hs.
  { unfold send_msg, handle_send. cbn. by rewrite Hp Hq Hq'. }
  eexists. split; [by rewrite Hs|]. split; [|done]. by apply send_msg_queued in Hs.
Qed.

(** A message that cannot be delivered is reported to its sender.  When the
    node has no actor of that name, or its mailbox is full, it queues an error
    for the peer the message came from, and when the peer reads it, the event of
    its Python layer names this node, the reason and the correlation id of the
    message; a full mailbox is announced on this node as well. *)
Theorem undeliverable_reported i r m ms from h q u :
  wm_version m = PROTOCOL_VERSION → wm_kind m = Data →
  rl_registered r = Some (from, h) →
  (∀ mailbox, t_routing u !! wm_dst_actor m = Some mailbox → capacity mailbox ≤ length (contents mailbox)) →
  (∃ hp, t_peers u !! from = Some hp ∧ t_queues u !! ph_tx hp = Some (q, true)) → length (contents q) < capacity q →
  let full := bool_decide (is_Some (t_routing u !! wm_dst_actor m)) in
  let detail := (if full then "mailbox_full:" else "actor_not_found:") +:+ wm_dst_actor m in
  let report := error_msg (t_next_msg_id u) u detail (wm_correlation_id m) in
  (∃ u', frame_step i r m ms u = Some u' ∧ queued u from report u' ∧
     t_events u' = t_events u ++ (if full then [MailboxFull (wm_dst_actor m)] else [])) ∧
  ∀ j r' ms' back h' v, rl_registered r' = Some (back, h') →
    ∃ v', frame_step j r' report ms' v = Some v' ∧
      drain_event <$> t_events v' =
        (drain_event <$> t_events v) ++ [EvError (to_full back) (json_error_text detail) (wm_correlation_id m)].
Proof.
  intros Hv Hk Hreg Hfull (hp & Hp & Hq) Hroom full detail report. split.
  - unfold frame_step. rewrite Hv Z.eqb_refl bool_decide_eq_false_2; [by rewrite Hk|]. cbn. rewrite Hreg.
    unfold t_route. rewrite Hk. destruct (t_routing u !! wm_dst_actor m) as [mailbox|] eqn:Hm.
    + assert (try_send m mailbox = None) as ->.
      { destruct (try_send m mailbox) as [x|] eqn:Hx; [|done]. specialize (Hfull _ eq_refl).
        pose proof (proj1 (try_send_room m mailbox) (mk_is_Some _ _ Hx)). lia. }
      destruct (send_error_ok from detail (wm_correlation_id m) hp q (emit (MailboxFull (wm_dst_actor m)) u))
        as (u' & Hs & Hqd & He); [done..|]. change detail with ("mailbox_full:" +:+ wm_dst_actor m) in Hs.
      rewrite Hs. eexists. split; [done|]. by rewrite /= He.
    + destruct (send_error_ok from detail (wm_correlation_id m) hp q u) as (u' & Hs & Hqd & He); [done..|].
      change detail with ("actor_not_found:" +:+ wm_dst_actor m) in Hs.
      rewrite Hs. eexists. split; [done|]. by rewrite /= He app_nil_r.
  - intros j r' ms' back h' v Hreg'. unfold frame_step. cbn. rewrite Hreg'. eexists. split; [done|]. cbn.
    rewrite fmap_app /= json_error_roundtrip //.
Qed.

End core.
