(* ===== verification/Crates.v ===== *)
(** * Instances of what the crates promise

    The transport is verified against classes that state what the crates it
    uses document.  The instances here show that the statements can hold and
    let examples run: [Bincode] in the layout that bincode documents for its
    standard configuration, a channel as a list with a capacity, a broadcast
    log, and simple functions for the rest. *)

From coqutil Require Byte Word.LittleEndianList.
From stdpp Require Import countable.
From S2P Require Import Prelude Values NodeId State Wire Transport TransportCore.
Import coqutil.Word.LittleEndianList(le_split, le_combine, le_combine_split, length_le_split).

#[local] Unset Program Cases.

(** ** Coders: an encoding with a reader that returns the rest *)

Record coder (A : Type) := Coder {
  c_enc : A → list byte;
  c_dec : list byte → option (A * list byte);
  c_ok : A → Prop;
  c_law : ∀ a rest, c_ok a → c_dec (c_enc a ++ rest) = Some (a, rest)
}.
Arguments Coder {A}.
Arguments c_enc {A}.
Arguments c_dec {A}.
Arguments c_ok {A}.
Arguments c_law {A}.

(** A fixed number of bytes, little-endian. *)
Definition dec_le (n : nat) (bs : list byte) : option (Z * list byte) :=
  if (length bs <? n)%nat then None else Some (le_combine (take n bs), drop n bs).

Lemma dec_le_law n z rest : (0 ≤ z < 2 ^ (Z.of_nat n * 8))%Z → dec_le n (le_split n z ++ rest) = Some (z, rest).
Proof.
  intros Hz. unfold dec_le. rewrite length_app length_le_split (proj2 (Nat.ltb_ge _ n)); [lia|].
  rewrite take_app_length' ?length_le_split // drop_app_length' ?length_le_split // le_combine_split.
  by rewrite Z.mod_small.
Qed.

Program Definition c_u8 : coder Z := Coder (le_split 1) (dec_le 1) (λ z, 0 ≤ z < 2 ^ 8)%Z _.
Next Obligation. intros z rest Hz. by apply dec_le_law. Qed.

(** [u64] as a varint: one byte below 251, else a marker and 2, 4 or 8 bytes. *)
Definition enc_varint (z : Z) : list byte :=
  if (z <? 251)%Z then le_split 1 z
  else if (z <? 2 ^ 16)%Z then le_split 1 251 ++ le_split 2 z
  else if (z <? 2 ^ 32)%Z then le_split 1 252 ++ le_split 4 z
  else le_split 1 253 ++ le_split 8 z.

Definition dec_varint (bs : list byte) : option (Z * list byte) :=
  match dec_le 1 bs with
  | None => None
  | Some (b, rest) =>
      if (b <? 251)%Z then Some (b, rest)
      else if (b =? 251)%Z then dec_le 2 rest
      else if (b =? 252)%Z then dec_le 4 rest
      else if (b =? 253)%Z then dec_le 8 rest
      else None
  end.

Program Definition c_varint : coder Z := Coder enc_varint dec_varint u64_range _.
Next Obligation.
  intros z rest [H0 H1]. unfold enc_varint, dec_varint.
  destruct (Z.ltb_spec z 251); [rewrite dec_le_law; [lia|]; by rewrite (proj2 (Z.ltb_lt _ _))|].
  destruct (Z.ltb_spec z (2 ^ 16)); [|destruct (Z.ltb_spec z (2 ^ 32))];
    rewrite -app_assoc (dec_le_law 1) //; apply dec_le_law; lia.
Qed.

Program Definition c_bytes : coder (list byte) :=
  Coder (λ bs, enc_varint (Z.of_nat (length bs)) ++ bs)
        (λ bs, match dec_varint bs with
               | None => None
               | Some (n, rest) =>
                   if (Z.of_nat (length rest) <? n)%Z then None
                   else Some (take (Z.to_nat n) rest, drop (Z.to_nat n) rest)
               end)
        (λ bs, u64_range (Z.of_nat (length bs))) _.
Next Obligation.
  intros bs rest Hn. cbn beta. pose proof (c_law c_varint _ (bs ++ rest) Hn) as Hv. cbn in Hv. rewrite -app_assoc Hv.
  cbv iota.
  rewrite (proj2 (Z.ltb_ge _ _)); [rewrite length_app; lia|]. by rewrite Nat2Z.id take_app_length drop_app_length.
Qed.

(** Through a bijection. *)
Program Definition c_iso {A B} (f : A → B) (g : B → A) (c : coder B) (Hgf : ∀ a, g (f a) = a) : coder A :=
  Coder (λ a, c_enc c (f a))
        (λ bs, match c_dec c bs with Some (b, rest) => Some (g b, rest) | None => None end)
        (λ a, c_ok c (f a)) _.
Next Obligation. intros A B f g c Hgf a rest Ha. cbn beta. by rewrite c_law // Hgf. Qed.

Program Definition c_pair {A B} (ca : coder A) (cb : coder B) : coder (A * B) :=
  Coder (λ '(a, b), c_enc ca a ++ c_enc cb b)
        (λ bs, match c_dec ca bs with
               | None => None
               | Some (a, rest) =>
                   match c_dec cb rest with Some (b, rest') => Some ((a, b), rest') | None => None end
               end)
        (λ '(a, b), c_ok ca a ∧ c_ok cb b) _.
Next Obligation. intros A B ca cb [a b] rest [Ha Hb]. cbn beta iota. by rewrite -app_assoc !c_law. Qed.

Program Definition c_option {A} (c : coder A) : coder (option A) :=
  Coder (λ o, match o with None => le_split 1 0 | Some a => le_split 1 1 ++ c_enc c a end)
        (λ bs, match dec_le 1 bs with
               | None => None
               | Some (b, rest) =>
                   if (b =? 0)%Z then Some (None, rest)
                   else if (b =? 1)%Z then
                     match c_dec c rest with Some (a, rest') => Some (Some a, rest') | None => None end
                   else None
               end)
        (λ o, match o with None => True | Some a => c_ok c a end) _.
Next Obligation.
  intros A c [a|] rest Ha; cbn beta iota; [|by rewrite dec_le_law].
  rewrite -app_assoc dec_le_law //. simpl. by rewrite c_law.
Qed.

(** ** Messages *)

Definition string_bytes (s : string) : list byte := byte_of_ascii <$> String.list_ascii_of_string s.
Definition bytes_string (bs : list byte) : string := String.string_of_list_ascii (ascii_of_byte <$> bs).

Lemma bytes_string_bytes s : bytes_string (string_bytes s) = s.
Proof.
  unfold bytes_string, string_bytes. rewrite -list_fmap_compose.
  rewrite (list_fmap_ext _ id); [intros i x _; apply ascii_of_byte_of_ascii|].
  by rewrite list_fmap_id String.string_of_list_ascii_of_string.
Qed.

Definition kind_index (k : message_kind) : Z :=
  match k with Handshake => 0 | Data => 1 | Heartbeat => 2 | Error => 3 end.
Definition index_kind (z : Z) : message_kind :=
  if (z =? 0)%Z then Handshake else if (z =? 1)%Z then Data else if (z =? 2)%Z then Heartbeat else Error.

Definition c_string : coder string := c_iso string_bytes bytes_string c_bytes bytes_string_bytes.

Program Definition c_kind : coder message_kind := c_iso kind_index index_kind c_varint _.
Next Obligation. by intros []. Qed.

Definition message_tuple (m : wire_message) :=
  (wm_version m, (wm_msg_id m, (wm_src m, (wm_dst_actor m, (wm_kind m, (wm_payload m, (wm_reply_to m, wm_correlation_id m))))))).

Program Definition c_message : coder wire_message :=
  c_iso message_tuple (λ '(a, (b, (c, (d, (e, (f, (g, h))))))), WireMessage a b c d e f g h)
        (c_pair c_u8 (c_pair c_varint (c_pair c_string (c_pair c_string
           (c_pair c_kind (c_pair c_bytes (c_pair (c_option c_string) (c_option c_varint)))))))) _.
Next Obligation. by intros []. Qed.

(** A Rust string or vector has less than 2^64 bytes. *)
Definition sizes_ok (m : wire_message) : bool :=
  let small n := (Z.of_nat n <? 2 ^ 64)%Z in
  small (String.length (wm_src m)) && small (String.length (wm_dst_actor m)) && small (length (wm_payload m)) &&
  match wm_reply_to m with Some s => small (String.length s) | None => true end.

Lemma string_bytes_length s : length (string_bytes s) = String.length s.
Proof. unfold string_bytes. rewrite length_fmap. induction s as [|c s IH]; [done|]. simpl. by rewrite IH. Qed.

Lemma c_message_ok m : wm_wf m → sizes_ok m = true → c_ok c_message m.
Proof.
  destruct m as [v id src dst kind pl reply corr]. intros [Hv Hid Hc] Hs. unfold sizes_ok in Hs. cbn in *.
  repeat (apply andb_prop in Hs as [Hs ?]). unfold u64_range. rewrite !string_bytes_length.
  split_and!; try lia; try (by destruct kind).
  - by destruct Hid.
  - by destruct Hid.
  - destruct reply; [|done]. rewrite string_bytes_length. lia.
  - destruct corr; [|done]. by apply Hc.
Qed.

#[export] Program Instance bincode_standard : Bincode := {|
  bincode_encode m := if sizes_ok m then Some (c_enc c_message m) else None;
  bincode_decode bs := match c_dec c_message bs with Some (m, rest) => Some (m, length bs - length rest) | None => None end
|}.
Next Obligation.
  intros m body Hwf. cbn beta. destruct (sizes_ok m) eqn:Hs; [|done]. intros [= <-].
  pose proof (c_law c_message m [] (c_message_ok m Hwf Hs)) as Hlaw. rewrite app_nil_r in Hlaw.
  rewrite Hlaw. cbn [length]. by rewrite Nat.sub_0_r.
Qed.

(** ** Channels *)

Record mbox (A : Type) := Mbox { mb_items : list A; mb_cap : nat }.
Arguments Mbox {A}.
Arguments mb_items {A}.
Arguments mb_cap {A}.

#[export] Program Instance list_mpsc A : Mpsc A := {|
  chan := mbox A;
  mpsc_channel n := Mbox [] n;
  try_send x c := if (length (mb_items c) <? mb_cap c)%nat then Some (Mbox (mb_items c ++ [x]) (mb_cap c)) else None;
  try_recv c := match mb_items c with [] => None | x :: l => Some (x, Mbox l (mb_cap c)) end;
  contents := mb_items;
  capacity := mb_cap
|}.
Next Obligation. done. Qed.
Next Obligation.
  intros A x c. cbn beta. destruct (Nat.ltb_spec (length (mb_items c)) (mb_cap c)) as [Hl|Hl].
  - split; [done|]. by eexists.
  - split; [by intros [? ?]|lia].
Qed.
Next Obligation. intros A x c c'. cbn beta. case_match; [|done]. by intros [= <-]. Qed.
Next Obligation. intros A [[|x l] n]; cbn; by split. Qed.
Next Obligation. intros A x [[|y l] n] c'; cbn; [done|]. by intros [= <- <-]. Qed.

#[export] Program Instance log_broadcast A : Broadcast A := {|
  bc_recv cap cursor log :=
    if (cap <? length log - cursor)%nat then RecvLagged (length log - cap)
    else match log !! cursor with Some a => RecvOk a (S cursor) | None => RecvEmpty end
|}.
Next Obligation. intros A cap cursor log a Ha Hl. cbn beta. by rewrite (proj2 (Nat.ltb_ge _ _)) // Ha. Qed.
Next Obligation. intros A cap cursor log Hl. cbn beta. by rewrite (proj2 (Nat.ltb_lt _ _)). Qed.
Next Obligation.
  intros A cap cursor log Hl. cbn beta. rewrite (proj2 (Nat.ltb_ge _ _)); [lia|]. by rewrite lookup_ge_None_2.
Qed.

(** ** HMAC and JSON *)

(** Thirty-two bytes of key and data. *)
#[export] Program Instance padded_hmac : Hmac := {|
  hmac_sha256 secret data := take PROOF_LEN (secret ++ data ++ replicate PROOF_LEN Byte.x00)
|}.
Next Obligation. intros secret data. cbn beta. rewrite length_take !length_app length_replicate. lia. Qed.

Definition quoted (s : string) : string := String quote2 (s +:+ String quote2 EmptyString).
Definition error_object (detail : string) : string := "{" +:+ quoted "error" +:+ ":" +:+ quoted detail +:+ "}".

#[export] Program Instance plain_json : Json := {|
  json_error detail := string_bytes (error_object detail);
  json_error_text := error_object;
  payload_text := bytes_string
|}.
Next Obligation. intros detail. apply bytes_string_bytes. Qed.

(** Values as trees, and trees as bits. *)
Definition leaf : Type := bool + Z + string.

Fixpoint to_tree (v : pyval) : gen_tree leaf :=
  match v with
  | PNone => GenNode 0 []
  | PBool b => GenLeaf (inl (inl b))
  | PInt z => GenLeaf (inl (inr z))
  | PFloat _ => GenNode 1 []
  | PStr s => GenLeaf (inr s)
  | PList xs => GenNode 2 (to_tree <$> xs)
  | PTuple xs => GenNode 3 (to_tree <$> xs)
  | PDict kvs => GenNode 4 ((λ kv, GenNode 0 [GenLeaf (inr kv.1); to_tree kv.2]) <$> kvs)
  | PObj c kvs => GenNode 5 ((λ kv, GenNode 0 [GenLeaf (inr kv.1); to_tree kv.2]) <$> kvs)
  end.

Fixpoint of_tree (t : gen_tree leaf) : pyval :=
  match t with
  | GenLeaf (inl (inl b)) => PBool b
  | GenLeaf (inl (inr z)) => PInt z
  | GenLeaf (inr s) => PStr s
  | GenNode 2 ts => PList (of_tree <$> ts)
  | GenNode 4 ts => PDict ((λ t, match t with GenNode _ [GenLeaf (inr k); x] => (k, of_tree x) | _ => (EmptyString, PNone) end) <$> ts)
  | GenNode _ _ => PNone
  end.

Lemma of_to_tree v : wire_safe v = true → no_floats v = true → of_tree (to_tree v) = v.
Proof.
  induction v as [| | |f| |xs IH|xs IH|kvs IH|c kvs IH] using pyval_rect'; simpl; try done.
  - intros Hs Hf. f_equal. induction IH as [|x xs Hx _ IHl]; [done|]. simpl in *.
    apply andb_prop in Hs as [Hs1 Hs2]. apply andb_prop in Hf as [Hf1 Hf2]. f_equal; [by apply Hx|by apply IHl].
  - intros Hs Hf. f_equal. induction IH as [|[k x] kvs Hx _ IHl]; [done|]. simpl in *.
    apply andb_prop in Hs as [Hs1 Hs2]. apply andb_prop in Hf as [Hf1 Hf2]. f_equal; [by f_equal; apply Hx|by apply IHl].
Qed.

Fixpoint bits (p : positive) : list byte :=
  match p with xH => [Byte.x02] | xO p => Byte.x00 :: bits p | xI p => Byte.x01 :: bits p end.

Fixpoint of_bits (bs : list byte) : option positive :=
  match bs with
  | Byte.x02 :: _ => Some xH
  | Byte.x00 :: bs => xO <$> of_bits bs
  | Byte.x01 :: bs => xI <$> of_bits bs
  | _ => None
  end.

Lemma of_bits_bits p : of_bits (bits p) = Some p.
Proof. induction p as [p IH|p IH|]; simpl; by rewrite ?IH. Qed.

#[export] Program Instance tree_json : JsonValue := {|
  json_to_vec v := bits (encode (to_tree v));
  json_from_slice bs :=
    match of_bits bs with
    | Some p => match countable.decode p with Some t => Some (of_tree t) | None => None end
    | None => None
    end
|}.
Next Obligation. intros v. cbn beta. by destruct (encode (to_tree v)). Qed.
Next Obligation.
  intros v. unfold json_exact. intros [[Hs Hf]%andb_prop _]%andb_prop. cbn beta.
  by rewrite of_bits_bits decode_encode of_to_tree.
Qed.
