(* ===== verification/TransportWitnesses.v ===== *)
(** * Transports that run

    Concrete runs of the transport, with the instances of [Crates], in which the
    hypotheses of the theorems of [Wire], [TransportProps], [TransportGaps] and
    [TransportCore] hold. *)

From S2P Require Import Prelude Values NodeId Actors State PeerEvents Asyncio Node.
From S2P Require Import Wire Transport TransportProps TransportGaps TransportCore Crates.

(** ** Scripts: steps of tasks and calls *)

Inductive action :=
| ADo (i : nat) (e : env_choice)
| AAccept
| AConnect (p : node_id_t)
| AForget (p : node_id_t)
| ARegister (name : string) (cap : nat).

Definition act (a : action) (t : transport) : option transport :=
  match a with
  | ADo i e => run_tasks [(i, e)] t
  | AAccept => if t_stopped t then None else Some (spawn_task (TRead (ReadTask true None [] 0 RStart)) t)
  | AConnect p => Some (spawn_task (TConnect p DHasPeer) t)
  | AForget p => Some (spawn_task (TForget p FDesired) t)
  | ARegister name cap => Some (t_register_actor name (mpsc_channel cap) t)
  end.

Fixpoint script (l : list action) (t : transport) : option transport :=
  match l with
  | [] => Some t
  | a :: l => match act a t with Some t' => script l t' | None => None end
  end.

Lemma act_steps a t t' : act a t = Some t' → rtc tstep t t'.
Proof.
  destruct a as [i e| |p|p|name cap]; cbn [act].
  - apply run_tasks_reachable.
  - destruct (t_stopped t) eqn:Hs; [done|]. intros [= <-]. apply rtc_once. by apply ts_accept.
  - intros [= <-]. apply rtc_once. apply ts_connect.
  - intros [= <-]. apply rtc_once. apply ts_forget_peer.
  - intros [= <-]. apply rtc_once. apply ts_register.
Qed.

Lemma script_steps l : ∀ t t', script l t = Some t' → rtc tstep t t'.
Proof.
  induction l as [|a l IH]; intros t t'; cbn; [by intros [= <-]|].
  destruct (act a t) as [t1|] eqn:Ha; [|done]. intros Hl. etransitivity; [by eapply act_steps|by apply IH].
Qed.

(** ** Two nodes *)

Definition nA : node_id_t := NodeId "A" "h" 1.
Definition nB : node_id_t := NodeId "B" "h" 2.

Definition go : env_choice := EnvChoice true (replicate NONCE_LEN Byte.x07) WakeEnd false.
Definition data (bs : list byte) : env_choice := EnvChoice true [] (WakeData bs) false.

Definition frame_bytes (m : wire_message) : list byte := default [] (encode_frame m).
Definition run_from (n : node_id_t) (l : list action) : transport :=
  default (listen n default_config) (script l (listen n default_config)).

Lemma run_from_reachable n l :
  is_Some (script l (listen n default_config)) → t_reachable n default_config (run_from n l).
Proof. intros [t Ht]. unfold t_reachable, run_from. rewrite Ht. by apply (script_steps l). Qed.

(** [B] has dialed [A]: the tasks of the connection are 2 and 3. *)
Definition b_dials : list action := AConnect nA :: replicate 5 (ADo 1 go).

Example b_dials_connected : t_has_peer nA (run_from nB b_dials) = true.
Proof. vm_compute. reflexivity. Qed.

(** Meanwhile [A] has dialed [B], and closes the connection of [B]'s. *)
Definition b_races : list action :=
  b_dials ++ [AAccept; ADo 4 go; ADo 2 go; ADo 2 go; ADo 2 go; ADo 2 go; ADo 4 (data (frame_bytes (handshake 1 (to_full nA))))].

Example b_races_events : t_events (run_from nB b_races) = [PeerConnected nA; PeerDisconnected nA].
Proof. vm_compute. reflexivity. Qed.

Lemma stale_disconnect_drops_connection_witness :
  ∃ t', run_tasks (replicate 7 (4, quiet)) (run_from nB b_races) = Some t' ∧
    t_peers t' = t_peers (run_from nB b_races) ∧ t_tasks t' !! 4 = None ∧
    t_events t' = t_events (run_from nB b_races) ++ [PeerConnected nA; PeerDisconnected nA].
Proof.
  apply (stale_disconnect_drops_connection 4 (ReadTask true None [] 1 (RFrames [handshake 1 (to_full nA)]))
           (handshake 1 (to_full nA)) nA [] [] (run_from nB b_races));
    try (vm_compute; reflexivity).
  - apply not_elem_of_nil.
  - vm_compute. lia.
Defined.

Ltac run := vm_compute; reflexivity.


(** The connection of [B]'s ends. *)
Definition b_ends : list action := b_dials ++ [ADo 2 go; ADo 2 go].

Lemma connection_cleanup_witness :
  let t := run_from nB b_ends in
  if bool_decide (t_peers t !! nA = Some (PeerHandle nA 0))
  then run_tasks [(2, go); (2, go)] t =
         Some (emit (PeerDisconnected nA) t <| t_peers := delete nA (t_peers t) |> <| t_tasks := delete 2 (t_tasks t) |>)
  else run_tasks [(2, go)] t = Some (t <| t_tasks := delete 2 (t_tasks t) |>).
Proof.
  apply (connection_cleanup nB default_config _ 2 go (ReadTask false (Some (nA, PeerHandle nA 0)) [] 1 RCleanup));
    [|run..]. apply run_from_reachable. by eexists; run.
Defined.

Lemma simultaneous_dial_witness :
  t_peers (both_register true nB (PeerHandle nB 1) (PeerHandle nB 2) 7 (listen nA default_config)) !! nB = Some (PeerHandle nB 1) ∧
  t_peers (both_register false nA (PeerHandle nA 2) (PeerHandle nA 1) 7 (listen nB default_config)) !! nA = Some (PeerHandle nA 1).
Proof.
  apply (simultaneous_dial (listen nA default_config) (listen nB default_config) true false 7 7
           (PeerHandle nB 1) (PeerHandle nB 2) (PeerHandle nA 1) (PeerHandle nA 2)); [|run..].
  vm_compute. discriminate.
Defined.

(** A first dial that fails. *)
Definition b_fails : list action := AConnect nA :: replicate 3 (ADo 1 unreachable).

Lemma reconnect_gives_up_witness :
  let t := run_from nB b_fails in
  run_tasks (concat (replicate 30 (failed_round 2)) ++ [(2, unreachable)]) t =
    Some (end_task 2 (emit (ReconnectGaveUp nA) (t <| t_desired ::= λ d, d ∖ {[nA]} |>))).
Proof.
  apply (reconnect_gives_up 2 nA 30 (run_from nB b_fails)); [run| |run|run|lia].
  apply (bool_decide_unpack _). vm_compute. exact I.
Defined.

(** Sixty-five messages for an actor that takes none. *)
Definition flood : wire_message := WireMessage PROTOCOL_VERSION 9 (to_full nA) "slow" Data [] None None.
Definition b_flooded : list action :=
  b_dials ++ [ARegister "slow" 0; ADo 2 go; ADo 2 (data (concat (replicate 65 (frame_bytes flood))))] ++ replicate 65 (ADo 2 go).

Lemma reconnect_supervisor_lost_witness :
  let t := run_from nB b_flooded in
  (∀ e, task_step 0 e (TSupervise 0 None) t = Some (end_task 0 t)) ∧
  ∀ t', rtc tstep (end_task 0 t) t' → ∀ j c' d, t_tasks t' !! j ≠ Some (TSupervise c' d).
Proof.
  apply (reconnect_supervisor_lost 0 0 (run_from nB b_flooded)); [run| |].
  - intros j c d Hj. assert (j < 4) as Hlt.
    { destruct (decide (j < 4)) as [|Hge]; [done|]. exfalso. revert Hj.
      assert (map_Forall (λ i _, i < 4) (t_tasks (run_from nB b_flooded))) as Hall.
      { apply (bool_decide_unpack _). vm_compute. exact I. }
      intros Hj. apply Hall in Hj. lia. }
    do 4 (destruct j as [|j]; [first [reflexivity|vm_compute in Hj; discriminate Hj]|]). exfalso. revert Hlt. clear. lia.
  - apply (bool_decide_unpack _). vm_compute. exact I.
Defined.

Definition b_forgets : list action := AConnect nA :: replicate 4 (ADo 1 go) ++ [AForget nA].

Lemma forget_during_dial_witness :
  let t := run_from nB b_forgets in
  ∃ t', run_tasks [(2, dialing); (2, dialing); (2, dialing); (1, dialing)] t = Some t' ∧
    t_peers t' !! nA = None ∧ (nA ∉ t_desired t') ∧
    t_events t' = t_events t ++ [PeerDisconnected nA; PeerConnected nA] ∧
    t_tasks t' !! t_next_task t = Some (TRead (ReadTask false (Some (nA, PeerHandle nA 0)) [] 0 RStart)).
Proof.
  apply (forget_during_dial nB default_config 1 2 nA (PeerHandle nA 0)); [|run..].
  apply run_from_reachable. by eexists; run.
Defined.

(** ** The record of the core *)

Definition b_transport : transport := run_from nB b_dials.
Definition b_core : core_t :=
  Core "B@h:2" true {["A@h:1"]} ∅ [] [] (t_next_msg_id b_transport) (transport_refuses b_transport).

Lemma b_core_rel : core_rel b_transport b_core.
Proof.
  split; [run..| |run|run].
  intros p Hp. apply elem_of_dom in Hp.
  assert (set_Forall (λ q, q = nA) (dom (t_peers b_transport))) as Hall.
  { apply (bool_decide_unpack _). vm_compute. exact I. }
  apply Hall in Hp as ->. by split.
Qed.



(** [A] sends to an actor that [B] does not have. *)
Definition lost : wire_message := WireMessage PROTOCOL_VERSION 5 "A@h:1" "nobody" Data [] None (Some 42%Z).

Lemma undeliverable_reported_witness :
  let report := error_msg (t_next_msg_id b_transport) b_transport "actor_not_found:nobody" (Some 42%Z) in
  (∃ u', frame_step 2 (ReadTask false (Some (nA, PeerHandle nA 0)) [] 0 (RFrames [lost])) lost [] b_transport = Some u' ∧
     queued b_transport nA report u' ∧ t_events u' = t_events b_transport ++ []) ∧
  ∃ v', frame_step 2 (ReadTask false (Some (nB, PeerHandle nB 0)) [] 0 (RFrames [report])) report [] (listen nA default_config) = Some v' ∧
    drain_event <$> t_events v' = [EvError "B@h:2" (error_object "actor_not_found:nobody") (Some 42%Z)].
Proof.
  destruct (t_queues b_transport !! 0) as [[q w]|] eqn:E; [|vm_compute in E; discriminate E].
  assert (length (contents q) < capacity q ∧ w = true) as [Hroom ->].
  { vm_compute in E. injection E as <- <-. split; [apply (bool_decide_unpack _); vm_compute; exact I|reflexivity]. }
  destruct (undeliverable_reported 2 (ReadTask false (Some (nA, PeerHandle nA 0)) [] 0 (RFrames [lost])) lost []
              nA (PeerHandle nA 0) q b_transport) as [H1 H2]; [reflexivity..| | |exact Hroom|].
  - intros mailbox Hm. vm_compute in Hm. discriminate Hm.
  - exists (PeerHandle nA 0). split; [run|exact E].
  - split; [exact H1|].
    apply (H2 2 (ReadTask false (Some (nB, PeerHandle nB 0)) [] 0 (RFrames [_])) [] nB (PeerHandle nB 0)
             (listen nA default_config)). reflexivity.
Defined.

(** ** A connection *)

Definition beat1 : wire_message := heartbeat 1 "A@h:1".
Definition c0 : connection := conn_init 4.
Definition c1 : connection := match peer_send beat1 c0 with SendOk c => c | _ => c0 end.
Definition c2 : connection :=
  match writer_round (cn_queue c1) with
  | Some (Some b, q) => c1 <| cn_queue := q |> <| cn_socket ::= λ l, l ++ b |>
  | _ => c1
  end.
Definition c_read (n : nat) (c : connection) : connection :=
  match decode (cn_buf c) (take n (cn_socket c)) with
  | (inr ms, buf) => c <| cn_socket := drop n (cn_socket c) |> <| cn_buf := buf |> <| cn_received ::= λ l, l ++ ms |>
  | _ => c
  end.

Lemma beat1_limit : within_limit beat1.
Proof.
  intros f Hf. vm_compute in Hf. injection Hf as <-. split; [|split; [run|]].
  - split; [vm_compute; by split| |by intros]. vm_compute. by split.
  - vm_compute. discriminate.
Qed.

Lemma connection_fifo_witness :
  let c := c_read 100 (c_read 3 c2) in
  cn_received c `prefix_of` encodable (cn_sent c) ∧
  (∀ data rest, cn_socket c = data ++ rest → ∃ msgs buf, decode (cn_buf c) data = (inr msgs, buf)) ∧
  (cn_writer c = true → contents (cn_queue c) = [] → cn_socket c = [] → cn_received c = encodable (cn_sent c)).
Proof.
  apply (connection_fifo 4 (c_read 100 (c_read 3 c2))).
  - apply (rtc_l _ _ c1); [eapply cs_send; run|].
    apply (rtc_l _ _ c2); [apply cs_write; run|].
    apply (rtc_l _ _ (c_read 3 c2)).
    { apply (cs_read c2 (take 3 (cn_socket c2)) (drop 3 (cn_socket c2)) [] (take 3 (cn_socket c2))); [run|run| |run].
      split; apply (bool_decide_unpack _); vm_compute; exact I. }
    apply rtc_once.
    apply (cs_read (c_read 3 c2) (take 100 (cn_socket (c_read 3 c2))) [] [beat1] []); [run|run| |run].
    split; apply (bool_decide_unpack _); vm_compute; exact I.
  - apply list.Forall_cons. split; [apply beat1_limit|constructor].
Defined.
