(* ===== verification/Apps.v ===== *)
(** * How the applications connect

    The examples all begin by dialing the node they depend on until it is up:
    [for ... in range(n): try: await node.connect_peer(...); break; except
    ConnectionError: sleep; else: raise].  The loop is here once, and each of
    its uses with its bound and its exception. *)

From S2P Require Import Prelude.

(** What each attempt ends with is given; the attempt that succeeded, or the
    exception that left the loop. *)
Fixpoint connect_loop (failed : exn) (attempts : nat) (ends : nat → exn + unit) (attempt : nat) : exn + nat :=
  match attempts with
  | 0 => inl failed
  | S attempts =>
      match ends attempt with
      | inr tt => inr attempt
      | inl e =>
          if bool_decide (exn_type e = "ConnectionError") then connect_loop failed attempts ends (S attempt) else inl e
      end
  end.

(** [main] of [fulfillment/main.py] and of [archive/main.py], [lifespan] of
    [api/app.py]. *)
Definition fulfillment_connect (archive_node : string) (ends : nat → exn + unit) : exn + nat :=
  connect_loop (RuntimeError ("could not connect to archive at " +:+ py_repr archive_node)) 30 ends 0.
Definition archive_connect (api_node : string) (ends : nat → exn + unit) : exn + nat :=
  connect_loop (RuntimeError ("could not connect to api at " +:+ py_repr api_node)) 30 ends 0.
Definition api_connect (fulfillment_node : string) (ends : nat → exn + unit) : exn + nat :=
  connect_loop (RuntimeError ("could not connect to fulfillment at " +:+ py_repr fulfillment_node)) 30 ends 0.

(** [lifespan] of [order_stream/app/main.py]. *)
Definition order_app_connect (worker_node : string) (ends : nat → exn + unit) : exn + nat :=
  connect_loop (RuntimeError ("no se pudo conectar con worker en " +:+ py_repr worker_node)) 30 ends 0.

(** [main] of [app_node_a.py], and of [e2e_restart_node_a.py]. *)
Definition node_a_connect (peer : string) (ends : nat → exn + unit) : exn + nat :=
  connect_loop (RuntimeError ("could not connect to peer " +:+ py_repr peer)) 20 ends 0.
Definition restart_node_a_connect (peer : string) (ends : nat → exn + unit) : exn + nat :=
  connect_loop (RuntimeError ("could not connect to peer " +:+ py_repr peer)) 20 ends 0.

(** [main] of [cluster_supervision/hub/main.py]: one loop per worker. *)
Fixpoint hub_connect (workers : list string) (ends : string → nat → exn + unit) : exn + unit :=
  match workers with
  | [] => inr tt
  | worker :: workers =>
      match connect_loop (RuntimeError ("no se pudo conectar con " +:+ py_repr worker)) 30 (ends worker) 0 with
      | inl e => inl e
      | inr _ => hub_connect workers ends
      end
  end.

(** ** Properties *)

Definition refused (r : exn + unit) : Prop := ∃ m, r = inl (Exn "ConnectionError" m).

Lemma not_refused e : ¬ refused (inl e) ↔ exn_type e ≠ "ConnectionError".
Proof.
  destruct e as [ty m]. cbn. split; [intros H ->; apply H; by exists m|]. intros Hne [m' [= ? _]]. done.
Qed.

(** The loop ends at the first attempt that is not refused, with what that
    attempt ended with; only when all are refused does it raise its own
    exception. *)
Lemma connect_loop_spec failed n ends a :
  match connect_loop failed n ends a with
  | inr k => ∃ i, k = a + i ∧ i < n ∧ ends k = inr tt ∧ ∀ j, j < i → refused (ends (a + j))
  | inl e =>
      (e = failed ∧ ∀ j, j < n → refused (ends (a + j))) ∨
      ∃ i, i < n ∧ ends (a + i) = inl e ∧ exn_type e ≠ "ConnectionError" ∧ ∀ j, j < i → refused (ends (a + j))
  end.
Proof.
  assert (∀ n a, refused (ends a) → (∀ j, j < n → refused (ends (S a + j))) → ∀ j, j < S n → refused (ends (a + j))) as Hext.
  { intros n' a' H0 Hn [|j] Hj; [by rewrite Nat.add_0_r|]. rewrite -Nat.add_succ_comm. apply Hn. lia. }
  revert a. induction n as [|n IH]; intros a; cbn; [left; split; [done|lia]|].
  destruct (ends a) as [e|[]] eqn:Ea; [|exists 0; rewrite Nat.add_0_r; split_and!; [done|lia|done|lia]].
  case_bool_decide as Hty.
  - assert (refused (ends a)) as H0 by (rewrite Ea; destruct e as [ty m]; cbn in Hty; subst; by exists m).
    specialize (IH (S a)). destruct (connect_loop failed n ends (S a)) as [e'|k].
    + destruct IH as [[-> Hall]|(i & Hi & He & Hne & Hall)]; [left; split; [done|by apply Hext]|].
      right. exists (S i). rewrite -Nat.add_succ_comm. split_and!; [lia|done|done|by apply Hext].
    + destruct IH as (i & -> & Hi & He & Hall). exists (S i). rewrite -Nat.add_succ_comm. split_and!; [done|lia|done|by apply Hext].
  - right. exists 0. rewrite Nat.add_0_r. split_and!; [lia|done|done|lia].
Qed.

(** A peer that comes up within the attempts is connected to. *)
Lemma connect_loop_succeeds failed n ends k :
  k < n → ends k = inr tt → (∀ j, j < k → refused (ends j)) → connect_loop failed n ends 0 = inr k.
Proof.
  intros Hk He Hall. pose proof (connect_loop_spec failed n ends 0) as Hs. destruct (connect_loop _ _ _ _) as [e|k'].
  - destruct Hs as [[_ Href]|(i & Hi & Hei & Hne & Href)].
    + destruct (Href k Hk) as [m Hm]. cbn in Hm. congruence.
    + cbn in *. destruct (decide (i < k)) as [Hlt|Hge].
      * destruct (Hall i Hlt) as [m Hm]. rewrite Hm in Hei. injection Hei as <-. done.
      * destruct (decide (i = k)) as [->|]; [congruence|]. destruct (Href k) as [m Hm]; [lia|]. congruence.
  - destruct Hs as (i & -> & Hi & Hei & Href). cbn in *. f_equal. destruct (Nat.lt_trichotomy i k) as [Hlt|[->|Hlt]]; [|done|].
    + destruct (Hall i Hlt) as [m Hm]. congruence.
    + destruct (Href k Hlt) as [m Hm]. congruence.
Qed.

(** The hub goes on exactly when every worker came up in time: [main]
    passes the loop if and only if each worker accepts one of its thirty
    attempts after nothing but refused connections.  Otherwise the exception is
    that of the first worker that did not: the one that the thirty refusals
    make, or the one that its attempt raised. *)
Theorem hub_connect_spec workers ends :
  (hub_connect workers ends = inr tt ↔
   Forall (λ w, ∃ k, k < 30 ∧ ends w k = inr tt ∧ ∀ j, j < k → refused (ends w j)) workers) ∧
  ∀ e, hub_connect workers ends = inl e →
    ∃ pre w post, workers = pre ++ w :: post ∧ hub_connect pre ends = inr tt ∧
      ((e = RuntimeError ("no se pudo conectar con " +:+ py_repr w) ∧ ∀ j, j < 30 → refused (ends w j)) ∨
       ∃ i, i < 30 ∧ ends w i = inl e ∧ exn_type e ≠ "ConnectionError" ∧ ∀ j, j < i → refused (ends w j)).
Proof.
  induction workers as [|w ws [IH1 IH2]]; cbn [hub_connect]; [split; [split; constructor|done]|].
  set (failed := RuntimeError _). pose proof (connect_loop_spec failed 30 (ends w) 0) as Hs.
  pose proof (connect_loop_succeeds failed 30 (ends w)) as Hsucc.
  destruct (connect_loop failed 30 (ends w) 0) as [e|k] eqn:Ec.
  - split.
    + split; [done|]. intros [(k & Hk & He & Hall) _]%list.Forall_cons. by discriminate (Hsucc k Hk He Hall).
    + intros e' [= <-]. exists [], w, ws. split; [done|]. split; [done|]. exact Hs.
  - destruct Hs as (i & -> & Hi & He & Hall). split.
    + rewrite IH1 list.Forall_cons. split; [intros Hws; split; [by exists i|done]|by intros [_ ?]].
    + intros e (pre & w' & post & -> & Hpre & Hend)%IH2. exists (w :: pre), w', post. split_and!; [done| |done].
      cbn [app hub_connect]. fold failed. by rewrite Ec.
Qed.

(** A worker that is up at once and one that needs two attempts; and one that
    never comes up. *)
Definition up_after (n : nat) (k : nat) : exn + unit := if bool_decide (k < n) then inl (Exn "ConnectionError" "refused") else inr tt.

Lemma hub_connect_runs :
  hub_connect ["w1@h:1"; "w2@h:2"] (λ w, up_after (if bool_decide (w = "w1@h:1") then 0 else 2)) = inr tt ∧
  hub_connect ["w1@h:1"; "w2@h:2"] (λ w, up_after (if bool_decide (w = "w1@h:1") then 0 else 30)) =
    inl (RuntimeError "no se pudo conectar con 'w2@h:2'").
Proof. split; reflexivity. Qed.
