(* ===== verification/Warehouse.v ===== *)
(** * The sales warehouse

    [src/examples/sales_warehouse/]: an application of three nodes.  The API
    ([api/app.py]) hands an order to the fulfillment node, whose four actors
    pass it on to each other and report every stage to the API
    ([fulfillment/main.py]); the archive writes it to disk and confirms
    ([archive/main.py]).  The handlers are written here as the code writes
    them, with the library's own operations; the work delay at their start is
    what lets the turns of different actors interleave. *)

From Stdlib Require Import Sorting.Sorted.
From stdpp Require Import sorting.
From S2P Require Import Prelude Values NodeId Actors State PeerEvents Asyncio Node NodeProps Links Refs.

(** ** Dicts *)

(** [d[k] = v] *)
Fixpoint dict_put (k : string) (v : pyval) (kvs : list (string * pyval)) : list (string * pyval) :=
  match kvs with
  | [] => [(k, v)]
  | (k', v') :: kvs' => if bool_decide (k' = k) then (k, v) :: kvs' else (k', v') :: dict_put k v kvs'
  end.

(** [d.update(other)] *)
Definition dict_update (other kvs : list (string * pyval)) : list (string * pyval) :=
  foldl (λ d kv, dict_put kv.1 kv.2 d) kvs other.

(** [{**msg, k: v}] *)
Definition dict_with (msg : pyval) (k : string) (v : pyval) : exn + pyval :=
  match msg with
  | PDict kvs => inr (PDict (dict_put k v kvs))
  | _ => inl (TypeError "argument after ** must be a mapping")
  end.

(** ** Fulfillment *)

Record product := Product { nombre : string; valor : Z }.

#[export] Instance product_eq_dec : EqDecision product.
Proof. solve_decision. Defined.

Definition PRODUCT_POOL : list product :=
  [Product "monitor 27 pulgadas" 25; Product "teclado mecánico" 20; Product "silla de oficina" 30;
   Product "portátil 15 pulgadas" 35; Product "auriculares inalámbricos" 15; Product "webcam HD" 10].

Definition product_val (p : product) : pyval := PDict [("nombre", PStr (nombre p)); ("valor", PInt (valor p))].

(** What [random.randint(2, len(PRODUCT_POOL))] and [random.sample] may give. *)
Definition sample_ok (ps : list product) : Prop :=
  2 ≤ length ps ≤ length PRODUCT_POOL ∧ NoDup ps ∧ Forall (λ p, p ∈ PRODUCT_POOL) ps.

Section warehouse.
Context {codec : PayloadCodec} (ARCHIVE_NODE : string).

Definition notify (msg : pyval) (status : string) (detail : list (string * pyval)) : M st unit :=
  let! origin := lift (match getitem msg "origin_node" with inl e => inl e | inr v => as_str v end) in
  let! order_id := lift (getitem msg "order_id") in
  ref_send (RemoteRef origin "order_tracker")
    (PDict [("order_id", order_id); ("status", PStr status); ("detail", PDict detail)]) None None.

(** [IntakeActor.receive] after its delay. *)
Definition intake_receive (msg : pyval) : M st unit :=
  lift (getitem msg "order_id") ;;
  notify msg "en_preparacion" [("detalle", PStr "pedido admitido para preparación")] ;;
  ref_send (ActorRef "stock_check") msg None None.

(** [StockCheckActor.receive]; [productos] is the sample it draws. *)
Definition stock_check_receive (productos : list product) (msg : pyval) : M st unit :=
  lift (getitem msg "order_id") ;;
  notify msg "stock_reservado" [("productos", PList (PStr ∘ nombre <$> productos))] ;;
  let! next := lift (dict_with msg "productos" (PList (product_val <$> productos))) in
  ref_send (ActorRef "valuation") next None None.

(** [sum(p["valor"] for p in productos)] *)
Fixpoint sum_valor (ps : list pyval) (acc : Z) : exn + Z :=
  match ps with
  | [] => inr acc
  | p :: ps =>
      match getitem p "valor" with
      | inl e => inl e
      | inr (PInt z) => sum_valor ps (acc + z)
      | inr _ => inl (TypeError "unsupported operand type(s) for +")
      end
  end.

Definition valuation_receive (msg : pyval) : M st unit :=
  let! importe := lift (match getitem msg "productos" with
                        | inl e => inl e
                        | inr ps => match as_list ps with inl e => inl e | inr l => sum_valor l 0 end
                        end) in
  lift (getitem msg "order_id") ;;
  notify msg "importe_calculado" [("importe_total", PInt importe)] ;;
  let! next := lift (dict_with msg "importe_total" (PInt importe)) in
  ref_send (ActorRef "dispatch") next None None.

Definition decision_envio (importe : Z) : string :=
  if (70 <=? importe)%Z then "envío urgente en 24h"
  else if (40 <=? importe)%Z then "envío estándar en 3-5 días"
  else "pedido en espera de consolidación con otros envíos".

(** [[p["nombre"] for p in productos]] *)
Definition nombres (ps : pyval) : exn + pyval :=
  match as_list ps with
  | inl e => inl e
  | inr l => match try_list (λ p, getitem p "nombre") l with inl e => inl e | inr ns => inr (PList ns) end
  end.

Definition dispatch_receive (msg : pyval) : M st unit :=
  let! importe := lift (match getitem msg "importe_total" with
                        | inl e => inl e
                        | inr (PInt z) => inr z
                        | inr _ => inl (TypeError "'>=' not supported")
                        end) in
  let decision := decision_envio importe in
  lift (getitem msg "order_id") ;;
  notify msg "listo_para_envio" [("decision_envio", PStr decision)] ;;
  let! names := lift (match getitem msg "productos" with inl e => inl e | inr ps => nombres ps end) in
  let! m1 := lift (dict_with msg "productos" names) in
  let! m2 := lift (dict_with m1 "decision_envio" (PStr decision)) in
  ref_send (RemoteRef ARCHIVE_NODE "archivist") m2 None None.

(** One turn of the driver of an actor: the oldest message, if there is one. *)
Definition stage_turn (name : string) (receive : pyval → M st unit) : M st unit :=
  let! s := get in
  match _mailboxes s !! name with
  | None => ret tt
  | Some q =>
      match queues s !! q ≫= get_nowait with
      | None => ret tt
      | Some (item, qu') => modify (λ s, s <| queues ::= <[q := qu']> |>) ;; receive item.1
      end
  end.

(** ** Archive *)

Record archive := Archive { ar_node : st; ar_files : gmap string pyval }.

(** [DATA_DIR / f"{order_id}.json"] *)
Definition archive_path (data_dir order_id : string) : string := data_dir +:+ "/" +:+ order_id +:+ ".json".

(** [ArchivistActor.receive] after its delay: the file, then the confirmation.
    Order ids are the strings that [crear_pedido] makes; a file is kept as the
    value whose JSON text it holds. *)
Definition archivist_receive (data_dir : string) (msg : pyval) (a : archive) : (exn + unit) * archive :=
  match (match getitem msg "order_id" with inl e => inl e | inr v => as_str v end) with
  | inl e => (inl e, a)
  | inr order_id =>
      match getitem msg "form", getitem msg "productos", getitem msg "importe_total", getitem msg "decision_envio" with
      | inr form, inr productos, inr importe, inr decision =>
          let path := archive_path data_dir order_id in
          let record := PDict [("order_id", PStr order_id); ("formulario", form); ("productos", productos);
                               ("importe_total", importe); ("decision_envio", decision)] in
          let files := <[path := record]> (ar_files a) in
          match (match getitem msg "origin_node" with inl e => inl e | inr v => as_str v end) with
          | inl e => (inl e, Archive (ar_node a) files)
          | inr origin =>
              let '(r, s) := ref_send (RemoteRef origin "order_tracker")
                               (PDict [("order_id", PStr order_id); ("status", PStr "archivado");
                                       ("detail", PDict [("archivo", PStr path)])]) None None (ar_node a) in
              (r, Archive s files)
          end
      | inl e, _, _, _ | inr _, inl e, _, _ | inr _, inr _, inl e, _ | inr _, inr _, inr _, inl e => (inl e, a)
      end
  end.

(** ** API *)

(** [ORDERS]: a dict per order. *)
Record api_state := Api { api_node : st; api_orders : gmap string (list (string * pyval)) }.

(** What [order.update] takes of a [detail]; every sender gives a dict. *)
Definition as_dict (v : pyval) : exn + list (string * pyval) :=
  match v with PDict kvs => inr kvs | _ => inl (TypeError "object is not iterable") end.

(** [OrderTrackerActor.receive] on [ORDERS]; the mutations made before an
    exception stay.  [ORDERS] has string keys only, and a list or a dict does
    not hash. *)
Definition order_tracker_receive (msg : pyval) (orders : gmap string (list (string * pyval)))
    : (exn + unit) * gmap string (list (string * pyval)) :=
  match getitem msg "order_id" with
  | inl e => (inl e, orders)
  | inr (PList _ | PDict _) => (inl (TypeError "unhashable type"), orders)
  | inr (PStr order_id) =>
      match orders !! order_id with
      | None => (inr tt, orders)
      | Some order =>
          match getitem msg "status" with
          | inl e => (inl e, orders)
          | inr status =>
              let order := dict_put "status" status order in
              let detail := match msg with PDict kvs => default (PDict []) (assoc "detail" kvs) | _ => PDict [] end in
              match assoc "history" order with
              | Some (PList h) =>
                  let order := dict_put "history" (PList (h ++ [PDict [("status", status); ("detail", detail)]])) order in
                  match as_dict detail with
                  | inl e => (inl e, <[order_id := order]> orders)
                  | inr kvs => (inr tt, <[order_id := dict_update kvs order]> orders)
                  end
              | Some _ => (inl (Exn "AttributeError" "object has no attribute 'append'"), <[order_id := order]> orders)
              | None => (inl (KeyError (py_repr "history")), <[order_id := order]> orders)
              end
          end
      end
  | inr _ => (inr tt, orders)
  end.

(** [POST /orders]; the uuid is an argument. *)
Definition crear_pedido (fulfillment_node order_id : string) (form : list (string * pyval)) (a : api_state) : (exn + unit) * api_state :=
  let order := [("order_id", PStr order_id); ("status", PStr "recibido"); ("form", PDict form); ("history", PList [])] in
  let '(r, s) := ref_send (RemoteRef fulfillment_node "intake")
                   (PDict [("order_id", PStr order_id); ("origin_node", PStr (local_id (api_node a))); ("form", PDict form)])
                   None None (api_node a) in
  (r, Api s (<[order_id := order]> (api_orders a))).

(** [GET /orders/{order_id}]: [None] is the 404. *)
Definition obtener_pedido (order_id : string) (a : api_state) : option pyval := PDict <$> api_orders a !! order_id.

(** ** What the stages do to an order *)

Record order := Order { o_id : string; o_origin : string; o_form : list (string * pyval) }.

Definition base (o : order) : list (string * pyval) :=
  [("order_id", PStr (o_id o)); ("origin_node", PStr (o_origin o)); ("form", PDict (o_form o))].

(** The message between the stages. *)
Definition order_msg (o : order) : pyval := PDict (base o).
Definition stocked_msg (o : order) (ps : list product) : pyval :=
  PDict (base o ++ [("productos", PList (product_val <$> ps))]).
Definition total (ps : list product) : Z := foldr Z.add 0%Z (valor <$> ps).
Definition valued_msg (o : order) (ps : list product) : pyval :=
  PDict (base o ++ [("productos", PList (product_val <$> ps)); ("importe_total", PInt (total ps))]).
Definition archive_msg (o : order) (ps : list product) : pyval :=
  PDict (base o ++ [("productos", PList (PStr ∘ nombre <$> ps)); ("importe_total", PInt (total ps));
                    ("decision_envio", PStr (decision_envio (total ps)))]).

Definition status_msg (o : order) (status : string) (detail : list (string * pyval)) : pyval :=
  PDict [("order_id", PStr (o_id o)); ("status", PStr status); ("detail", PDict detail)].

(** What leaves the node for an order: to whom, for which actor, what. *)
Abbreviation parcel := (string * string * pyval)%type.

Definition tracked (o : order) (status : string) (detail : list (string * pyval)) : parcel :=
  (o_origin o, "order_tracker", status_msg o status detail).

Definition order_out (o : order) (ps : list product) : list parcel :=
  [tracked o "en_preparacion" [("detalle", PStr "pedido admitido para preparación")];
   tracked o "stock_reservado" [("productos", PList (PStr ∘ nombre <$> ps))];
   tracked o "importe_calculado" [("importe_total", PInt (total ps))];
   tracked o "listo_para_envio" [("decision_envio", PStr (decision_envio (total ps)))];
   (ARCHIVE_NODE, "archivist", archive_msg o ps)].

Definition parcel_of (f : frame) : parcel := (fr_peer f, fr_actor f, fr_payload f).
Definition sent (co : core_t) : list parcel := parcel_of <$> co_out co.

(** *** Values that cross the wire *)

Definition form_ok (o : order) : Prop := plain (PDict (o_form o)) = true ∧ wire_safe (PDict (o_form o)) = true.

Lemma total_bound ps : sample_ok ps → (0 ≤ total ps ≤ 210)%Z.
Proof.
  intros (Hlen & _ & Hall). cbn in Hlen. unfold total.
  assert (0 ≤ foldr Z.add 0 (valor <$> ps) ≤ 35 * Z.of_nat (length ps))%Z; [|lia].
  clear Hlen. induction Hall as [|p ps Hp _ IH]; [done|]. cbn.
  assert (0 ≤ valor p ≤ 35)%Z by (repeat (apply elem_of_cons in Hp as [->|Hp]; [done|]); by apply elem_of_nil in Hp). lia.
Qed.

Lemma total_range ps : sample_ok ps → in_wire_range (total ps) = true.
Proof. intros Hb%total_bound. apply bool_decide_eq_true. lia. Qed.

Lemma strings_safe (l : list string) : forallb wire_safe (PStr <$> l) = true ∧ forallb plain (PStr <$> l) = true.
Proof. induction l as [|x l [IH1 IH2]]; [done|]. by rewrite /= IH1 IH2. Qed.

Lemma names_safe (ps : list product) :
  forallb wire_safe (PStr ∘ nombre <$> ps) = true ∧ forallb plain (PStr ∘ nombre <$> ps) = true.
Proof. rewrite list_fmap_compose. apply strings_safe. Qed.

Lemma parcels_wire o ps :
  form_ok o → sample_ok ps → Forall (λ p : parcel, plain p.2 = true ∧ wire_safe p.2 = true) (order_out o ps).
Proof.
  intros [Hf1 Hf2] Hs. pose proof (total_range ps Hs) as Ht. destruct (names_safe ps) as [Hn1 Hn2].
  unfold order_out, tracked, status_msg, archive_msg, base.
  repeat (apply list.Forall_cons; split; [cbn [fst snd app] in *|]); [..|by apply list.Forall_nil].
  all: cbn in *; rewrite ?Hn1 ?Hn2 ?Ht ?Hf2 ?Hf1; by rewrite ?andb_true_r.
Qed.

(** ** One turn of each stage *)

(** The core after a parcel was handed to it. *)
Definition push (p : parcel) (co : core_t) : core_t :=
  co <| co_out ::= λ l, l ++ [Frame p.1.1 p.1.2 p.2 None None (co_next_msg_id co)] |>
     <| co_next_msg_id ::= next_u64 |>.

Lemma sent_push p co : sent (push p co) = sent co ++ [p].
Proof. destruct p as [[peer name] v]. unfold sent. cbn. by rewrite fmap_app. Qed.

Lemma is_peer_push p co peer : is_peer co peer → is_peer (push p co) peer.
Proof. done. Qed.

(** Connected, and nothing is refused. *)
Record core_ready (co : core_t) : Prop := CoreReady {
  cy_running : co_running co = true;
  cy_refuses : ∀ p v, co_refuses co p v = None;
  cy_archive : is_peer co ARCHIVE_NODE
}.

Lemma core_ready_push p co : core_ready co → core_ready (push p co).
Proof. by intros []. Qed.

Lemma send_parcel p s co :
  _core s = Some co → core_ready co → is_peer co p.1.1 → plain p.2 = true → wire_safe p.2 = true →
  ref_send (RemoteRef p.1.1 p.1.2) p.2 None None s = (inr tt, s <| _core := Some (push p co) |>).
Proof. intros Hco [Hr Hf _] Hp Hpl Hw. by apply send_remote_ok. Qed.

Context (qi qs qv qd : qid) (Hdist : NoDup [qi; qs; qv; qd]).

(** The node: its core and the mail of the four actors. *)
Record pnode (s : st) (co : core_t) (bi bs bv bd : list envelope) : Prop := PNode {
  pn_core : _core s = Some co;
  pn_ready : core_ready co;
  pn_intake : _mailboxes s !! "intake" = Some qi;
  pn_stock : _mailboxes s !! "stock_check" = Some qs;
  pn_valuation : _mailboxes s !! "valuation" = Some qv;
  pn_dispatch : _mailboxes s !! "dispatch" = Some qd;
  pn_bi : queues s !! qi = Some (Queue bi 0);
  pn_bs : queues s !! qs = Some (Queue bs 0);
  pn_bv : queues s !! qv = Some (Queue bv 0);
  pn_bd : queues s !! qd = Some (Queue bd 0)
}.

Lemma qids_differ : qi ≠ qs ∧ qi ≠ qv ∧ qi ≠ qd ∧ qs ≠ qv ∧ qs ≠ qd ∧ qv ≠ qd.
Proof. pose proof Hdist as Hd. rewrite !list.NoDup_cons in Hd. set_solver. Qed.

Ltac other_mail :=
  pose proof qids_differ as (? & ? & ? & ? & ? & ?);
  let H := fresh in
  intros H; destruct H; split; try done; cbn; rewrite ?lookup_insert_eq ?lookup_insert_ne //; congruence.

(** One mailbox changes. *)
Lemma pnode_set_i s co bi bi' bs bv bd :
  pnode s co bi bs bv bd → pnode (s <| queues ::= <[qi := Queue bi' 0]> |>) co bi' bs bv bd.
Proof. other_mail. Qed.
Lemma pnode_set_s s co bi bs bs' bv bd :
  pnode s co bi bs bv bd → pnode (s <| queues ::= <[qs := Queue bs' 0]> |>) co bi bs' bv bd.
Proof. other_mail. Qed.
Lemma pnode_set_v s co bi bs bv bv' bd :
  pnode s co bi bs bv bd → pnode (s <| queues ::= <[qv := Queue bv' 0]> |>) co bi bs bv' bd.
Proof. other_mail. Qed.
Lemma pnode_set_d s co bi bs bv bd bd' :
  pnode s co bi bs bv bd → pnode (s <| queues ::= <[qd := Queue bd' 0]> |>) co bi bs bv bd'.
Proof. other_mail. Qed.

Lemma pnode_push s co bi bs bv bd p :
  pnode s co bi bs bv bd → pnode (s <| _core := Some (push p co) |>) (push p co) bi bs bv bd.
Proof. intros []. split; try done. by apply core_ready_push. Qed.

(** A local send to an actor with an unbounded mailbox. *)
Lemma send_next name q items msg s :
  _mailboxes s !! name = Some q → queues s !! q = Some (Queue items 0) →
  ref_send (ActorRef name) msg None None s =
    (inr tt, s <| queues ::= <[q := Queue (items ++ [(msg, MessageMeta (Some (local_id s)) None None None)]) 0]> |>).
Proof. intros Hm Hq. cbn [ref_send]. rewrite (send_local_spec name msg None None s q (Queue items 0)) //. Qed.

Lemma turn_takes name q it items receive s :
  _mailboxes s !! name = Some q → queues s !! q = Some (Queue (it :: items) 0) →
  stage_turn name receive s = receive it.1 (s <| queues ::= <[q := Queue items 0]> |>).
Proof. intros Hm Hq. unfold stage_turn. cbn [bind get]. by rewrite Hm Hq. Qed.

Lemma turn_idle name q receive s :
  _mailboxes s !! name = Some q → queues s !! q = Some (Queue [] 0) → stage_turn name receive s = (inr tt, s).
Proof. intros Hm Hq. unfold stage_turn. cbn [bind get]. by rewrite Hm Hq. Qed.

(** [notify], for a message that still has the fields of the order. *)
Lemma notify_sends o rest status detail s co :
  _core s = Some co → core_ready co → is_peer co (o_origin o) →
  plain (status_msg o status detail) = true → wire_safe (status_msg o status detail) = true →
  notify (PDict (base o ++ rest)) status detail s = (inr tt, s <| _core := Some (push (tracked o status detail) co) |>).
Proof.
  intros Hco Hr Hp Hpl Hw. unfold notify, base. cbn [app getitem assoc bool_decide]. cbn.
  by apply (send_parcel (tracked o status detail)).
Qed.

Lemma intake_turn o meta s co bi bs bv bd :
  pnode s co ((order_msg o, meta) :: bi) bs bv bd → is_peer co (o_origin o) → form_ok o →
  ∃ s' meta', stage_turn "intake" intake_receive s = (inr tt, s') ∧
    pnode s' (push (tracked o "en_preparacion" [("detalle", PStr "pedido admitido para preparación")]) co)
          bi (bs ++ [(order_msg o, meta')]) bv bd.
Proof.
  intros Hn Hp Hf. rewrite (turn_takes "intake" qi (order_msg o, meta) bi); [apply Hn..|].
  apply (pnode_set_i _ _ _ bi) in Hn. revert Hn. generalize (s <| queues ::= <[qi := Queue bi 0]> |>). clear s. intros s Hn.
  unfold intake_receive. cbn [bind lift]. change (getitem (order_msg o, meta).1 "order_id") with (inr (A:=exn) (PStr (o_id o))).
  cbv iota. change (order_msg o, meta).1 with (PDict (base o ++ [])).
  rewrite (notify_sends o [] _ _ s co); [apply Hn|apply Hn|done|done|done|].
  apply (pnode_push _ _ _ _ _ _ (tracked o "en_preparacion" [("detalle", PStr "pedido admitido para preparación")])) in Hn.
  rewrite (send_next "stock_check" qs bs); [apply Hn..|]. eexists _, _. split; [done|]. by apply (pnode_set_s _ _ _ bs).
Qed.

Lemma sum_valor_total ps acc : sum_valor (product_val <$> ps) acc = inr (acc + total ps)%Z.
Proof.
  revert acc. induction ps as [|p ps IH]; intros acc; cbn; [by rewrite Z.add_0_r|].
  etransitivity; [apply IH|]. f_equal. unfold total. cbn. lia.
Qed.

Lemma nombres_names ps : nombres (PList (product_val <$> ps)) = inr (PList (PStr ∘ nombre <$> ps)).
Proof.
  unfold nombres. cbn. assert (try_list (λ p, getitem p "nombre") (product_val <$> ps) = inr (PStr ∘ nombre <$> ps)) as ->; [|done].
  induction ps as [|p ps IH]; [done|]. rewrite !fmap_cons. cbn -[fmap]. by rewrite IH.
Qed.

(** The first four parcels and the last one, apart. *)
Definition status1 (o : order) : parcel := tracked o "en_preparacion" [("detalle", PStr "pedido admitido para preparación")].
Definition status2 (o : order) (ps : list product) : parcel := tracked o "stock_reservado" [("productos", PList (PStr ∘ nombre <$> ps))].
Definition status3 (o : order) (ps : list product) : parcel := tracked o "importe_calculado" [("importe_total", PInt (total ps))].
Definition status4 (o : order) (ps : list product) : parcel :=
  tracked o "listo_para_envio" [("decision_envio", PStr (decision_envio (total ps)))].
Definition handed_over (o : order) (ps : list product) : parcel := (ARCHIVE_NODE, "archivist", archive_msg o ps).

Lemma parcel_ok o ps p :
  form_ok o → sample_ok ps → p ∈ order_out o ps → plain p.2 = true ∧ wire_safe p.2 = true.
Proof. intros Hf Hs Hp. by apply (proj1 (list.Forall_forall _ _) (parcels_wire o ps Hf Hs)). Qed.

Lemma stock_turn o ps meta s co bi bs bv bd :
  pnode s co bi ((order_msg o, meta) :: bs) bv bd → is_peer co (o_origin o) → form_ok o → sample_ok ps →
  ∃ s' meta', stage_turn "stock_check" (stock_check_receive ps) s = (inr tt, s') ∧
    pnode s' (push (status2 o ps) co) bi bs (bv ++ [(stocked_msg o ps, meta')]) bd.
Proof.
  intros Hn Hp Hf Hs. rewrite (turn_takes "stock_check" qs (order_msg o, meta) bs); [apply Hn..|].
  apply (pnode_set_s _ _ _ _ bs) in Hn. revert Hn. generalize (s <| queues ::= <[qs := Queue bs 0]> |>). clear s. intros s Hn.
  destruct (parcel_ok o ps (status2 o ps)) as [Hw1 Hw2]; [done..|unfold order_out, status2; set_solver|].
  unfold stock_check_receive. cbn [bind lift]. change (getitem (order_msg o, meta).1 "order_id") with (inr (A:=exn) (PStr (o_id o))).
  cbv iota. change (order_msg o, meta).1 with (PDict (base o ++ [])).
  rewrite (notify_sends o [] _ _ s co); [apply Hn|apply Hn|done|done|done|].
  apply (pnode_push _ _ _ _ _ _ (status2 o ps)) in Hn.
  change (dict_with (PDict (base o ++ [])) "productos" (PList (product_val <$> ps))) with (inr (A:=exn) (stocked_msg o ps)).
  cbv iota. rewrite (send_next "valuation" qv bv); [apply Hn..|].
  eexists _, _. split; [done|]. by apply (pnode_set_v _ _ _ _ bv).
Qed.

Lemma valuation_turn o ps meta s co bi bs bv bd :
  pnode s co bi bs ((stocked_msg o ps, meta) :: bv) bd → is_peer co (o_origin o) → form_ok o → sample_ok ps →
  ∃ s' meta', stage_turn "valuation" valuation_receive s = (inr tt, s') ∧
    pnode s' (push (status3 o ps) co) bi bs bv (bd ++ [(valued_msg o ps, meta')]).
Proof.
  intros Hn Hp Hf Hs. rewrite (turn_takes "valuation" qv (stocked_msg o ps, meta) bv); [apply Hn..|].
  apply (pnode_set_v _ _ _ _ _ bv) in Hn. revert Hn. generalize (s <| queues ::= <[qv := Queue bv 0]> |>). clear s. intros s Hn.
  destruct (parcel_ok o ps (status3 o ps)) as [Hw1 Hw2]; [done..|unfold order_out, status3; set_solver|].
  unfold valuation_receive. cbn [bind lift fst].
  change (getitem (stocked_msg o ps) "productos") with (inr (A:=exn) (PList (product_val <$> ps))).
  change (getitem (stocked_msg o ps) "order_id") with (inr (A:=exn) (PStr (o_id o))).
  cbv iota. cbn [as_list]. rewrite sum_valor_total Z.add_0_l. cbv iota.
  unfold stocked_msg at 1. rewrite (notify_sends o _ _ _ s co); [apply Hn|apply Hn|done|done|done|].
  apply (pnode_push _ _ _ _ _ _ (status3 o ps)) in Hn.
  change (dict_with (stocked_msg o ps) "importe_total" (PInt (total ps))) with (inr (A:=exn) (valued_msg o ps)).
  cbv iota. rewrite (send_next "dispatch" qd bd); [apply Hn..|].
  eexists _, _. split; [done|]. by apply (pnode_set_d _ _ _ _ _ bd).
Qed.

Lemma dispatch_turn o ps meta s co bi bs bv bd :
  pnode s co bi bs bv ((valued_msg o ps, meta) :: bd) → is_peer co (o_origin o) → form_ok o → sample_ok ps →
  ∃ s', stage_turn "dispatch" dispatch_receive s = (inr tt, s') ∧
    pnode s' (push (handed_over o ps) (push (status4 o ps) co)) bi bs bv bd.
Proof.
  intros Hn Hp Hf Hs. rewrite (turn_takes "dispatch" qd (valued_msg o ps, meta) bd); [apply Hn..|].
  apply (pnode_set_d _ _ _ _ _ _ bd) in Hn. revert Hn. generalize (s <| queues ::= <[qd := Queue bd 0]> |>). clear s. intros s Hn.
  destruct (parcel_ok o ps (status4 o ps)) as [Hw1 Hw2]; [done..|unfold order_out, status4; set_solver|].
  destruct (parcel_ok o ps (handed_over o ps)) as [Hw3 Hw4]; [done..|unfold order_out, handed_over; set_solver|].
  unfold dispatch_receive. cbn [bind lift fst].
  change (getitem (valued_msg o ps) "importe_total") with (inr (A:=exn) (PInt (total ps))).
  change (getitem (valued_msg o ps) "productos") with (inr (A:=exn) (PList (product_val <$> ps))).
  change (getitem (valued_msg o ps) "order_id") with (inr (A:=exn) (PStr (o_id o))).
  cbv iota. unfold valued_msg at 1. rewrite (notify_sends o _ _ _ s co); [apply Hn|apply Hn|done|done|done|].
  apply (pnode_push _ _ _ _ _ _ (status4 o ps)) in Hn. rewrite nombres_names. cbv iota.
  assert (∃ m1, dict_with (valued_msg o ps) "productos" (PList (PStr ∘ nombre <$> ps)) = inr m1 ∧
                dict_with m1 "decision_envio" (PStr (decision_envio (total ps))) = inr (archive_msg o ps)) as (m1 & -> & ->).
  { eexists. split; [reflexivity|]. reflexivity. }
  cbv iota. rewrite (send_parcel (handed_over o ps) _ (push (status4 o ps) co)); [apply Hn|apply Hn|apply (pn_ready _ _ _ _ _ _ Hn)|done..|].
  eexists. split; [done|]. by apply pnode_push.
Qed.

(** An order arrives: the core gives the frame to the callback of [intake]. *)
Lemma intake_arrives o meta s co bi bs bv bd :
  pnode s co bi bs bv bd → form_ok o →
  ∃ s', deliver_callback "intake" qi (order_msg o) meta s = (inr tt, s') ∧
    pnode s' co (bi ++ [(order_msg o, meta)]) bs bv bd.
Proof.
  intros Hn [Hf _]. unfold deliver_callback. rewrite decode_plain; [cbn in *; by rewrite Hf|]. cbn [bind]. unfold mailbox_put.
  rewrite (pn_bi _ _ _ _ _ _ Hn). cbn. eexists. split; [done|]. by apply (pnode_set_i _ _ bi).
Qed.

(** ** The pipeline

    Orders arrive and the four actors take turns, in any order.  Next to the
    node stands the list of the orders that have arrived. *)

Definition connected (s : st) (peer : string) : Prop := ∃ co, _core s = Some co ∧ is_peer co peer.

Inductive pipe_step : list order * st → list order * st → Prop :=
| pp_order o meta arrived s :
    form_ok o → o_id o ∉ o_id <$> arrived → connected s (o_origin o) →
    pipe_step (arrived, s) (arrived ++ [o], exec (deliver_callback "intake" qi (order_msg o) meta) s)
| pp_intake arrived s : pipe_step (arrived, s) (arrived, exec (stage_turn "intake" intake_receive) s)
| pp_stock ps arrived s :
    sample_ok ps → pipe_step (arrived, s) (arrived, exec (stage_turn "stock_check" (stock_check_receive ps)) s)
| pp_valuation arrived s : pipe_step (arrived, s) (arrived, exec (stage_turn "valuation" valuation_receive) s)
| pp_dispatch arrived s : pipe_step (arrived, s) (arrived, exec (stage_turn "dispatch" dispatch_receive) s).

(** Where an order is: the stage whose mailbox it is in, four when it is through. *)
Record pipe_job := Job { j_order : order; j_stage : nat; j_sample : list product }.

Definition at_stage (k : nat) (js : list pipe_job) : list pipe_job := filter (λ j, j_stage j = k) js.

Definition job_msg (j : pipe_job) : pyval :=
  match j_stage j with
  | 0 | 1 => order_msg (j_order j)
  | 2 => stocked_msg (j_order j) (j_sample j)
  | _ => valued_msg (j_order j) (j_sample j)
  end.

(** The parcels of an order so far. *)
Definition parcels_done (j : pipe_job) : list parcel :=
  take (if j_stage j =? 4 then 5 else j_stage j)%nat (order_out (j_order j) (j_sample j)).

Definition parcel_id (p : parcel) : option string :=
  match p.2 with
  | PDict kvs => match assoc "order_id" kvs with Some (PStr id) => Some id | _ => None end
  | _ => None
  end.
Definition parcels_for (id : string) (l : list parcel) : list parcel := filter (λ p, parcel_id p = Some id) l.

Record pipe_job_ok (co : core_t) (j : pipe_job) : Prop := PipeJobOk {
  jo_form : form_ok (j_order j);
  jo_peer : is_peer co (o_origin (j_order j));
  jo_stage : j_stage j ≤ 4;
  jo_sample : 2 ≤ j_stage j → sample_ok (j_sample j);
  jo_parcels : parcels_for (o_id (j_order j)) (sent co) = parcels_done j
}.

(** The orders, oldest first, and what was sent for them. *)
Record books (arrived : list order) (co : core_t) (js : list pipe_job) : Prop := Books {
  bk_arrived : arrived = j_order <$> js;
  bk_ids : NoDup (o_id <$> arrived);
  bk_order : StronglySorted ge (j_stage <$> js);
  bk_jobs : Forall (pipe_job_ok co) js;
  bk_known : Forall (λ p, ∃ o, o ∈ arrived ∧ parcel_id p = Some (o_id o)) (sent co)
}.

(** The mailbox of a stage holds the orders that are there, oldest first. *)
Definition mail_of (k : nat) (js : list pipe_job) (b : list envelope) : Prop := b.*1 = job_msg <$> at_stage k js.

Record pinv (arrived : list order) (s : st) (co : core_t) (js : list pipe_job) : Prop := PInv {
  pi_books : books arrived co js;
  pi_node : ∃ bi bs bv bd, pnode s co bi bs bv bd ∧
    mail_of 0 js bi ∧ mail_of 1 js bs ∧ mail_of 2 js bv ∧ mail_of 3 js bd
}.

(** *** The first order of a stage *)

Lemma Forall_app_cons {A} (P : A → Prop) l1 x l2 : Forall P (l1 ++ x :: l2) → Forall P l1 ∧ P x ∧ Forall P l2.
Proof. by rewrite list.Forall_app list.Forall_cons. Qed.

Lemma at_stage_app k a b : at_stage k (a ++ b) = at_stage k a ++ at_stage k b.
Proof. apply list.filter_app. Qed.

Lemma at_stage_none k js : Forall (λ j, j_stage j ≠ k) js → at_stage k js = [].
Proof. intros H. induction H as [|j js Hj _ IH]; [done|]. unfold at_stage. by rewrite filter_cons_False. Qed.

Lemma stage_head k js j rest :
  StronglySorted ge (j_stage <$> js) → at_stage k js = j :: rest →
  ∃ pre post, js = pre ++ j :: post ∧ j_stage j = k ∧ at_stage k post = rest ∧
    Forall (λ i, k < j_stage i) pre ∧ Forall (λ i, j_stage i ≤ k) post.
Proof.
  revert j rest. induction js as [|i js IH]; intros j rest Hs; [done|]. cbn in Hs. inversion Hs as [|? ? Hs' Hall]; subst.
  unfold at_stage. rewrite filter_cons. case_decide as Hk.
  - intros [= <- <-]. exists [], js. split_and!; [done..|]. rewrite Forall_fmap in Hall. eapply list.Forall_impl; [done|]. cbn. lia.
  - intros Hj. destruct (IH j rest Hs' Hj) as (pre & post & -> & Hk' & Hr & Hpre & Hpost).
    exists (i :: pre), post. split_and!; try done. constructor; [|done].
    rewrite fmap_app list.Forall_app in Hall. destruct Hall as [_ Hall]. cbn in Hall.
    apply list.Forall_cons in Hall as [Hge _]. lia.
Qed.

(** Stages still to come, over all orders. *)
Definition left_to_do (js : list pipe_job) : nat := foldr (λ j n, (4 - j_stage j) + n) 0 js.

Lemma left_to_do_app a b : left_to_do (a ++ b) = left_to_do a + left_to_do b.
Proof.
  induction a as [|i a IH]; [done|]. change (left_to_do ((i :: a) ++ b)) with ((4 - j_stage i) + left_to_do (a ++ b)).
  rewrite IH. apply Nat.add_assoc.
Qed.

Lemma left_to_do_cons j js : left_to_do (j :: js) = (4 - j_stage j) + left_to_do js.
Proof. done. Qed.

Lemma sorted_stages js i i' j j' :
  StronglySorted ge (j_stage <$> js) → js !! i = Some j → js !! i' = Some j' → i < i' → j_stage j' ≤ j_stage j.
Proof.
  revert i i'. induction js as [|x js IH]; intros i i' Hs Hj Hj' Hlt; [done|].
  cbn in Hs. apply StronglySorted_cons in Hs as [Hall Hs]. destruct i' as [|i']; [lia|]. destruct i as [|i]; cbn in *.
  - injection Hj as ->. rewrite Forall_fmap list.Forall_lookup in Hall. by apply (Hall i').
  - by eapply (IH i i'); [..|lia].
Qed.

(** *** One order moves on *)

Section advance.
Context (pre post : list pipe_job) (j j' : pipe_job) (k : nat)
        (Hk : j_stage j = k) (Hk' : j_stage j' = S k)
        (Hpre : Forall (λ i, k < j_stage i) pre) (Hpost : Forall (λ i, j_stage i ≤ k) post).

Lemma at_stage_here m i l : j_stage i = m → at_stage m (i :: l) = i :: at_stage m l.
Proof. intros H. unfold at_stage. by rewrite filter_cons_True. Qed.

Lemma at_stage_away m i l : j_stage i ≠ m → at_stage m (i :: l) = at_stage m l.
Proof. intros H. unfold at_stage. by rewrite filter_cons_False. Qed.

Lemma advance_left : at_stage k (pre ++ j' :: post) = at_stage k post.
Proof.
  rewrite at_stage_app at_stage_away; [lia|].
  rewrite (at_stage_none k pre) //. eapply list.Forall_impl; [apply Hpre|]. cbn. lia.
Qed.

Lemma advance_joins : at_stage (S k) (pre ++ j' :: post) = at_stage (S k) (pre ++ j :: post) ++ [j'].
Proof.
  rewrite !at_stage_app at_stage_here // at_stage_away; [lia|].
  rewrite (at_stage_none (S k) post); [|by rewrite app_nil_r]. eapply list.Forall_impl; [apply Hpost|]. cbn. lia.
Qed.

Lemma advance_other m : m ≠ k → m ≠ S k → at_stage m (pre ++ j' :: post) = at_stage m (pre ++ j :: post).
Proof. intros H1 H2. by rewrite !at_stage_app !at_stage_away; [congruence|congruence|]. Qed.

Lemma advance_sorted : StronglySorted ge (j_stage <$> pre ++ j :: post) → StronglySorted ge (j_stage <$> pre ++ j' :: post).
Proof.
  rewrite !fmap_app !fmap_cons !StronglySorted_app !StronglySorted_cons. intros (_ & Hs & _ & Hs'). split_and!; [|done| |done].
  - intros x y (i & -> & Hi)%list_elem_of_fmap. pose proof (proj1 (list.Forall_forall _ _) Hpre i Hi) as Hlt. cbn in Hlt.
    rewrite elem_of_cons list_elem_of_fmap. intros [->|(i' & -> & Hi')]; [lia|].
    pose proof (proj1 (list.Forall_forall _ _) Hpost i' Hi') as Hle. cbn in Hle. lia.
  - rewrite Forall_fmap. eapply list.Forall_impl; [apply Hpost|]. cbn. lia.
Qed.

Context (arrived : list order) (co : core_t) (new : list parcel).

Lemma parcels_for_app id l1 l2 : parcels_for id (l1 ++ l2) = parcels_for id l1 ++ parcels_for id l2.
Proof. apply list.filter_app. Qed.

Lemma parcels_for_own id l : Forall (λ p, parcel_id p = Some id) l → parcels_for id l = l.
Proof. induction 1 as [|p l Hp _ IH]; [done|]. unfold parcels_for. rewrite filter_cons_True //. by f_equal. Qed.

Lemma parcels_for_other id id' l : id ≠ id' → Forall (λ p, parcel_id p = Some id) l → parcels_for id' l = [].
Proof.
  intros Hne. induction 1 as [|p l Hp _ IH]; [done|]. unfold parcels_for. rewrite filter_cons_False //. congruence.
Qed.

Lemma job_ok_grows co' i :
  (∀ peer, is_peer co peer → is_peer co' peer) →
  parcels_for (o_id (j_order i)) (sent co') = parcels_for (o_id (j_order i)) (sent co) → pipe_job_ok co i → pipe_job_ok co' i.
Proof. intros Hp Hs [? ? ? ? Hj]. split; [done|by apply Hp|done|done|congruence]. Qed.

Lemma books_advance co' :
  (∀ peer, is_peer co peer → is_peer co' peer) → sent co' = sent co ++ new →
  j_order j' = j_order j → k < 4 → (2 ≤ S k → sample_ok (j_sample j')) →
  Forall (λ p, parcel_id p = Some (o_id (j_order j))) new → parcels_done j' = parcels_done j ++ new →
  books arrived co (pre ++ j :: post) → books arrived co' (pre ++ j' :: post).
Proof.
  intros Hpeer Hsent Ho Hk4 Hsam Hnew Hdone [Harr Hids Hsort Hjobs Hknown].
  pose proof Hids as Hids'. rewrite Harr !fmap_app !fmap_cons list.NoDup_app list.NoDup_cons in Hids'.
  destruct Hids' as (_ & Hl & Hr & _).
  assert (∀ i, i ∈ pre ++ post → pipe_job_ok co i → pipe_job_ok co' i) as Hold.
  { intros i Hi. apply job_ok_grows; [done|]. rewrite Hsent parcels_for_app.
    rewrite (parcels_for_other (o_id (j_order j)) _ new) ?app_nil_r //. intros Heq.
    apply elem_of_app in Hi as [Hi|Hi].
    - apply (Hl (o_id (j_order i))); [by do 2 apply list_elem_of_fmap_2|]. rewrite Heq. left.
    - apply Hr. rewrite Heq. by do 2 apply list_elem_of_fmap_2. }
  apply list.Forall_app in Hjobs as [Hj1 Hj2]. apply list.Forall_cons in Hj2 as [Hj Hj2].
  split; [by rewrite fmap_app fmap_cons Ho -fmap_cons -fmap_app|done|by apply advance_sorted| |].
  - rewrite list.Forall_app list.Forall_cons. split_and!; [| |].
    + rewrite list.Forall_forall in Hj1. apply list.Forall_forall. intros i Hi. apply Hold; [set_solver|auto].
    + destruct Hj as [Hf Hp _ _ Hd]. split; rewrite ?Ho; [done|by apply Hpeer|lia|rewrite Hk'; apply Hsam|].
      by rewrite Hsent parcels_for_app Hd Hdone parcels_for_own.
    + rewrite list.Forall_forall in Hj2. apply list.Forall_forall. intros i Hi. apply Hold; [set_solver|auto].
  - rewrite Hsent. apply list.Forall_app. split; [done|]. eapply list.Forall_impl; [apply Hnew|].
    intros p Hp. exists (j_order j). split; [|done]. rewrite Harr. apply list_elem_of_fmap_2. set_solver.
Qed.
(** The mailboxes follow. *)
Lemma mail_left b : b.*1 = job_msg <$> at_stage k post → mail_of k (pre ++ j' :: post) b.
Proof. unfold mail_of. by rewrite advance_left. Qed.

Lemma mail_joins b meta : mail_of (S k) (pre ++ j :: post) b → mail_of (S k) (pre ++ j' :: post) (b ++ [(job_msg j', meta)]).
Proof. unfold mail_of. rewrite advance_joins !fmap_app. by intros ->. Qed.

Lemma mail_other m b : m ≠ k → m ≠ S k → mail_of m (pre ++ j :: post) b → mail_of m (pre ++ j' :: post) b.
Proof. intros H1 H2. unfold mail_of. by rewrite advance_other. Qed.

Lemma left_to_do_advance : k < 4 → left_to_do (pre ++ j' :: post) < left_to_do (pre ++ j :: post).
Proof. intros Hk4. rewrite !left_to_do_app. rewrite !left_to_do_cons. lia. Qed.
End advance.

Lemma mail_head k js b :
  mail_of k js b → StronglySorted ge (j_stage <$> js) →
  b = [] ∨ ∃ j meta b' pre post, b = (job_msg j, meta) :: b' ∧ js = pre ++ j :: post ∧ j_stage j = k ∧
    Forall (λ i, k < j_stage i) pre ∧ Forall (λ i, j_stage i ≤ k) post ∧ b'.*1 = job_msg <$> at_stage k post.
Proof.
  unfold mail_of. intros Hb Hs. destruct b as [|[m meta] b']; [by left|]. right.
  destruct (at_stage k js) as [|j rest] eqn:Hj; [done|]. injection Hb as -> Hb.
  destruct (stage_head k js j rest Hs Hj) as (pre & post & -> & Hk & Hr & Hpre & Hpost).
  exists j, meta, b', pre, post. by rewrite Hr.
Qed.

(** *** A turn of each actor *)

(** What a turn leaves: it had nothing to do, or there is less left to do. *)
Definition moves (arrived : list order) (k : nat) (js : list pipe_job) (s' : st) : Prop :=
  ∃ co' js', pinv arrived s' co' js' ∧ (at_stage k js ≠ [] → left_to_do js' < left_to_do js).

Lemma idle_moves arrived k s co js name q receive :
  pinv arrived s co js → mail_of k js [] → _mailboxes s !! name = Some q → queues s !! q = Some (Queue [] 0) →
  moves arrived k js (exec (stage_turn name receive) s).
Proof.
  intros Hi Hb Hm Hq. unfold exec. rewrite (turn_idle name q) //. exists co, js. split; [done|]. intros Hne.
  unfold mail_of in Hb. by destruct (at_stage k js).
Qed.

Lemma move_on pre post j j' k :
  j_stage j = k → j_stage j' = S k → Forall (λ i, k < j_stage i) pre → Forall (λ i, j_stage i ≤ k) post →
  ∀ arrived co co' new s',
  (∀ peer, is_peer co peer → is_peer co' peer) → sent co' = sent co ++ new →
  j_order j' = j_order j → k < 4 → (2 ≤ S k → sample_ok (j_sample j')) →
  Forall (λ p, parcel_id p = Some (o_id (j_order j))) new → parcels_done j' = parcels_done j ++ new →
  books arrived co (pre ++ j :: post) →
  (∃ bi bs bv bd, pnode s' co' bi bs bv bd ∧ mail_of 0 (pre ++ j' :: post) bi ∧ mail_of 1 (pre ++ j' :: post) bs ∧
     mail_of 2 (pre ++ j' :: post) bv ∧ mail_of 3 (pre ++ j' :: post) bd) →
  moves arrived k (pre ++ j :: post) s'.
Proof.
  intros Hk Hk' Hpre Hpost arrived co co' new s' Hp Hs Ho Hk4 Hsam Hnew Hdone Hb Hn.
  exists co', (pre ++ j' :: post). split; [split; [|done]|intros _; by eapply left_to_do_advance].
  by eapply (books_advance pre post j j' k).
Qed.

Lemma intake_moves arrived s co js :
  pinv arrived s co js → moves arrived 0 js (exec (stage_turn "intake" intake_receive) s).
Proof.
  intros Hi. pose proof Hi as [Hb (bi & bs & bv & bd & Hn & H0 & H1 & H2 & H3)].
  destruct (mail_head 0 js bi H0 (bk_order _ _ _ Hb)) as [->|(j & meta & b & pre & post & -> & -> & Hk & Hpre & Hpost & Hr)];
    [eapply idle_moves; [done..|apply Hn|apply Hn]|].
  pose proof (bk_jobs _ _ _ Hb) as (_ & Hj & _)%Forall_app_cons.
  assert (job_msg j = order_msg (j_order j)) as Hmsg by (unfold job_msg; by rewrite Hk).
  rewrite Hmsg in Hn. destruct (intake_turn _ meta s co b bs bv bd Hn) as (s' & meta' & Ht & Hn'); [apply Hj|apply Hj|].
  unfold exec. rewrite Ht. set (j' := Job (j_order j) 1 (j_sample j)).
  apply (move_on pre post j j' 0 Hk eq_refl Hpre Hpost arrived co (push (status1 (j_order j)) co) [status1 (j_order j)]);
    [done|by apply sent_push|done|lia|lia|by repeat constructor|unfold parcels_done; by rewrite Hk|done|].
  eexists _, _, _, _. split_and!; [apply Hn'|..]; [by eapply (mail_left _ _ j)|by eapply (mail_joins _ _ j)|by eapply (mail_other _ _ j)|by eapply (mail_other _ _ j)].
Qed.

Lemma stock_moves arrived s co js ps :
  pinv arrived s co js → sample_ok ps → moves arrived 1 js (exec (stage_turn "stock_check" (stock_check_receive ps)) s).
Proof.
  intros Hi Hps. pose proof Hi as [Hb (bi & bs & bv & bd & Hn & H0 & H1 & H2 & H3)].
  destruct (mail_head 1 js bs H1 (bk_order _ _ _ Hb)) as [->|(j & meta & b & pre & post & -> & -> & Hk & Hpre & Hpost & Hr)];
    [eapply idle_moves; [done..|apply Hn|apply Hn]|].
  pose proof (bk_jobs _ _ _ Hb) as (_ & Hj & _)%Forall_app_cons.
  assert (job_msg j = order_msg (j_order j)) as Hmsg by (unfold job_msg; by rewrite Hk).
  rewrite Hmsg in Hn. destruct (stock_turn _ ps meta s co bi b bv bd Hn) as (s' & meta' & Ht & Hn'); [apply Hj|apply Hj|done|].
  unfold exec. rewrite Ht. set (j' := Job (j_order j) 2 ps).
  apply (move_on pre post j j' 1 Hk eq_refl Hpre Hpost arrived co (push (status2 (j_order j) ps) co) [status2 (j_order j) ps]);
    [done|by apply sent_push|done|lia|done|by repeat constructor|unfold parcels_done; by rewrite Hk|done|].
  eexists _, _, _, _. split_and!; [apply Hn'|..]; [by eapply (mail_other _ _ j)|by eapply (mail_left _ _ j)|by eapply (mail_joins _ _ j)|by eapply (mail_other _ _ j)].
Qed.

Lemma valuation_moves arrived s co js :
  pinv arrived s co js → moves arrived 2 js (exec (stage_turn "valuation" valuation_receive) s).
Proof.
  intros Hi. pose proof Hi as [Hb (bi & bs & bv & bd & Hn & H0 & H1 & H2 & H3)].
  destruct (mail_head 2 js bv H2 (bk_order _ _ _ Hb)) as [->|(j & meta & b & pre & post & -> & -> & Hk & Hpre & Hpost & Hr)];
    [eapply idle_moves; [done..|apply Hn|apply Hn]|].
  pose proof (bk_jobs _ _ _ Hb) as (_ & Hj & _)%Forall_app_cons.
  assert (job_msg j = stocked_msg (j_order j) (j_sample j)) as Hmsg by (unfold job_msg; by rewrite Hk).
  pose proof (jo_sample _ _ Hj ltac:(lia)) as Hps.
  rewrite Hmsg in Hn. destruct (valuation_turn _ _ meta s co bi bs b bd Hn) as (s' & meta' & Ht & Hn'); [apply Hj|apply Hj|done|].
  unfold exec. rewrite Ht. set (j' := Job (j_order j) 3 (j_sample j)).
  apply (move_on pre post j j' 2 Hk eq_refl Hpre Hpost arrived co (push (status3 (j_order j) (j_sample j)) co) [status3 (j_order j) (j_sample j)]);
    [done|by apply sent_push|done|lia|done|by repeat constructor|unfold parcels_done; by rewrite Hk|done|].
  eexists _, _, _, _. split_and!; [apply Hn'|..]; [by eapply (mail_other _ _ j)|by eapply (mail_other _ _ j)|by eapply (mail_left _ _ j)|by eapply (mail_joins _ _ j)].
Qed.

Lemma dispatch_moves arrived s co js :
  pinv arrived s co js → moves arrived 3 js (exec (stage_turn "dispatch" dispatch_receive) s).
Proof.
  intros Hi. pose proof Hi as [Hb (bi & bs & bv & bd & Hn & H0 & H1 & H2 & H3)].
  destruct (mail_head 3 js bd H3 (bk_order _ _ _ Hb)) as [->|(j & meta & b & pre & post & -> & -> & Hk & Hpre & Hpost & Hr)];
    [eapply idle_moves; [done..|apply Hn|apply Hn]|].
  pose proof (bk_jobs _ _ _ Hb) as (_ & Hj & _)%Forall_app_cons.
  assert (job_msg j = valued_msg (j_order j) (j_sample j)) as Hmsg by (unfold job_msg; by rewrite Hk).
  pose proof (jo_sample _ _ Hj ltac:(lia)) as Hps.
  rewrite Hmsg in Hn. destruct (dispatch_turn _ _ meta s co bi bs bv b Hn) as (s' & Ht & Hn'); [apply Hj|apply Hj|done|].
  unfold exec. rewrite Ht. set (j' := Job (j_order j) 4 (j_sample j)).
  apply (move_on pre post j j' 3 Hk eq_refl Hpre Hpost arrived co (push (handed_over (j_order j) (j_sample j)) (push (status4 (j_order j) (j_sample j)) co)) [status4 (j_order j) (j_sample j); handed_over (j_order j) (j_sample j)]);
    [done|by rewrite !sent_push -app_assoc|done|lia|done|by repeat constructor|unfold parcels_done; by rewrite Hk|done|].
  eexists _, _, _, _. split_and!; [apply Hn'|..]; [by eapply (mail_other _ _ j)|by eapply (mail_other _ _ j)|by eapply (mail_other _ _ j)|by eapply (mail_left _ _ j)].
Qed.

(** An order joins the first mailbox. *)
Lemma order_joins arrived s co js o meta :
  pinv arrived s co js → form_ok o → o_id o ∉ o_id <$> arrived → is_peer co (o_origin o) →
  pinv (arrived ++ [o]) (exec (deliver_callback "intake" qi (order_msg o) meta) s) co (js ++ [Job o 0 []]).
Proof.
  intros [[Harr Hids Hsort Hjobs Hknown] (bi & bs & bv & bd & Hn & H0 & H1 & H2 & H3)] Hf Hfresh Hp.
  destruct (intake_arrives o meta s co bi bs bv bd Hn Hf) as (s' & Hd & Hn'). unfold exec. rewrite Hd. split; [split|].
  - rewrite fmap_app. by f_equal.
  - rewrite fmap_app list.NoDup_app. split_and!; [done| |apply list.NoDup_singleton]. set_solver.
  - rewrite fmap_app StronglySorted_app. split_and!; [|done|repeat constructor].
    intros x y _ ->%list_elem_of_singleton. cbn. lia.
  - apply list.Forall_app. split; [done|]. apply list.Forall_singleton. split; [done|done|cbn; lia|cbn; lia|].
    cbn. unfold parcels_for. assert (∀ l, Forall (λ p, ∃ o', o' ∈ arrived ∧ parcel_id p = Some (o_id o')) l →
      filter (λ p, parcel_id p = Some (o_id o)) l = []) as Hnone; [|by apply Hnone].
    induction 1 as [|p l (o' & Ho' & Hp') _ IH]; [done|]. rewrite filter_cons_False //. rewrite Hp'. intros [= Heq].
    apply Hfresh. rewrite -Heq. by apply list_elem_of_fmap_2.
  - eapply list.Forall_impl; [apply Hknown|]. intros p (o' & Ho' & Hp'). exists o'. set_solver.
  - exists (bi ++ [(order_msg o, meta)]), bs, bv, bd. split; [done|]. unfold mail_of in *.
    rewrite !at_stage_app !fmap_app H0 H1 H2 H3. by rewrite !app_nil_r.
Qed.

Lemma pinv_step arrived s co js c' :
  pinv arrived s co js → pipe_step (arrived, s) c' → ∃ co' js', pinv c'.1 c'.2 co' js'.
Proof.
  intros Hi Hstep.
  assert (∀ k s', moves arrived k js s' → ∃ co' js', pinv arrived s' co' js') as Hmove
    by (intros k s' (co' & js' & Hi' & _); eauto).
  inversion Hstep; subst; cbn.
  - match goal with H : connected _ _ |- _ => destruct H as (co1 & Hco1 & Hp) end.
    pose proof (pi_node _ _ _ _ Hi) as (? & ? & ? & ? & Hn & _). rewrite (pn_core _ _ _ _ _ _ Hn) in Hco1.
    injection Hco1 as <-. eexists _, _. by apply order_joins.
  - by eapply Hmove, intake_moves.
  - by eapply Hmove, stock_moves.
  - by eapply Hmove, valuation_moves.
  - by eapply Hmove, dispatch_moves.
Qed.

(** *** From the start *)

Context (s0 : st) (co0 : core_t) (Hstart : pnode s0 co0 [] [] [] []) (Hnothing : sent co0 = []).

Lemma pinv_reachable arrived s : rtc pipe_step ([], s0) (arrived, s) → ∃ co js, pinv arrived s co js.
Proof.
  intros Hr. change (∃ co js, pinv (arrived, s).1 (arrived, s).2 co js). revert Hr. generalize (arrived, s). clear arrived s.
  apply (rtc_ind_r (λ c, ∃ co js, pinv c.1 c.2 co js)).
  - exists co0, []. split; [split|]; cbn; [done|by constructor..| |]; [by rewrite Hnothing|].
    by exists [], [], [], [].
  - intros [arr s] c' _ Hstep (co & js & Hi). by eapply pinv_step.
Qed.

Lemma parcels_done_length j : j_stage j ≤ 4 → length (parcels_done j) = (if j_stage j =? 4 then 5 else j_stage j)%nat.
Proof. intros H. unfold parcels_done. rewrite length_take. cbn. destruct (Nat.eqb_spec (j_stage j) 4); lia. Qed.

Lemma job_of arrived s co js o :
  pinv arrived s co js → o ∈ arrived → ∃ j, j ∈ js ∧ j_order j = o ∧ pipe_job_ok co j.
Proof.
  intros [Hb _] Ho. rewrite (bk_arrived _ _ _ Hb) in Ho. apply list_elem_of_fmap in Ho as (j & -> & Hj).
  exists j. split_and!; [done..|]. by apply (proj1 (list.Forall_forall _ _) (bk_jobs _ _ _ Hb)).
Qed.

(** While an order is in a mailbox, some actor can take a turn. *)
Lemma pinv_progress arrived s co js :
  pinv arrived s co js → Forall (λ j, j_stage j = 4) js ∨
    ∃ s' co' js', pipe_step (arrived, s) (arrived, s') ∧ pinv arrived s' co' js' ∧ left_to_do js' < left_to_do js.
Proof.
  intros Hi. assert (sample_ok (take 2 PRODUCT_POOL)) as Hps.
  { split_and!; [cbn; lia..| |repeat constructor; set_solver]. by apply (bool_decide_unpack _). }
  destruct (decide (Forall (λ j, j_stage j = 4) js)) as [|Hnot]; [by left|right].
  apply not_Forall_Exists, list.Exists_exists in Hnot as (j & Hj & Hk); [|apply _].
  pose proof (bk_jobs _ _ _ (pi_books _ _ _ _ Hi)) as Hok. rewrite list.Forall_forall in Hok.
  pose proof (jo_stage _ _ (Hok j Hj)) as Hle.
  assert (at_stage (j_stage j) js ≠ []) as Hne.
  { intros He. by apply (list.filter_nil_not_elem_of _ _ _ He (eq_refl (j_stage j))). }
  assert (∀ s', moves arrived (j_stage j) js s' → pipe_step (arrived, s) (arrived, s') →
    ∃ s' co' js', pipe_step (arrived, s) (arrived, s') ∧ pinv arrived s' co' js' ∧ left_to_do js' < left_to_do js) as Hgo.
  { intros s' (co' & js' & Hi' & Hlt) Hst. eexists _, _, _. split_and!; [done..|auto]. }
  destruct (j_stage j) as [|[|[|[|[|k]]]]] eqn:Hj4; [| | | |done|lia].
  - by eapply Hgo; [eapply intake_moves|constructor].
  - by eapply Hgo; [eapply (stock_moves _ _ _ _ _ Hi Hps)|constructor].
  - by eapply Hgo; [eapply valuation_moves|constructor].
  - by eapply Hgo; [eapply dispatch_moves|constructor].
Qed.

Lemma pinv_drains arrived s co js :
  pinv arrived s co js → ∃ s' co' js', rtc pipe_step (arrived, s) (arrived, s') ∧ pinv arrived s' co' js' ∧
    Forall (λ j, j_stage j = 4) js'.
Proof.
  remember (left_to_do js) as n eqn:Hn. revert s co js Hn. induction n as [n IH] using lt_wf_ind. intros s co js Hn Hi.
  destruct (pinv_progress arrived s co js Hi) as [Hall|(s1 & co1 & js1 & Hst & Hi1 & Hlt)]; [by exists s, co, js|].
  destruct (IH (left_to_do js1) ltac:(lia) s1 co1 js1 eq_refl Hi1) as (s' & co' & js' & Hr & Hi' & Hall).
  exists s', co', js'. split_and!; [by eapply rtc_l|done..].
Qed.


(** The pipeline completes: from every state it can get into, turns of the
    actors alone bring every order that arrived to its end, with all its five
    messages sent and the products drawn from the pool. *)
Theorem pipeline_completes arrived s :
  rtc pipe_step ([], s0) (arrived, s) →
  ∃ s' co', rtc pipe_step (arrived, s) (arrived, s') ∧ _core s' = Some co' ∧
    ∀ o, o ∈ arrived → ∃ ps, sample_ok ps ∧ parcels_for (o_id o) (sent co') = order_out o ps.
Proof using Hdist Hstart Hnothing.
  intros (co & js & Hi)%pinv_reachable. destruct (pinv_drains _ _ _ _ Hi) as (s' & co' & js' & Hr & Hi' & Hall).
  exists s', co'. split_and!; [done| |].
  - destruct Hi' as [_ (? & ? & ? & ? & Hn & _)]. apply Hn.
  - intros o Ho. destruct (job_of _ _ _ _ _ Hi' Ho) as (j & Hj & <- & Hok). exists (j_sample j).
    rewrite list.Forall_forall in Hall. pose proof (Hall j Hj) as H4.
    split; [apply Hok; lia|]. rewrite (jo_parcels _ _ Hok). unfold parcels_done. by rewrite H4.
Qed.

End warehouse.
