(* ===== verification/WarehouseApi.v ===== *)
(** * The archive and the tracking of orders

    What [archive/main.py] does with the record of an order, and what
    [api/app.py] shows of it whatever the order in which the updates of the
    two other nodes arrive: they come over different connections, and nothing
    orders one against the other. *)

From S2P Require Import Prelude Values NodeId Actors State PeerEvents Asyncio Node NodeProps Links Refs CodecProps Warehouse.

(** ** Dicts *)

Lemma assoc_put k k' v kvs : assoc k (dict_put k' v kvs) = if bool_decide (k' = k) then Some v else assoc k kvs.
Proof.
  induction kvs as [|[k0 v0] kvs IH]; cbn; [done|].
  destruct (bool_decide_reflect (k0 = k')) as [->|Hne]; cbn; [by case_bool_decide|].
  rewrite IH. repeat case_bool_decide; congruence.
Qed.

(** The last pair with a key, over what was there. *)
Definition last_pair (k : string) (init : option pyval) (kvs : list (string * pyval)) : option pyval :=
  foldl (λ a kv, if bool_decide (kv.1 = k) then Some kv.2 else a) init kvs.

Lemma assoc_update k other kvs : assoc k (dict_update other kvs) = last_pair k (assoc k kvs) other.
Proof.
  unfold dict_update, last_pair. revert kvs. induction other as [|[k' v] other IH]; intros kvs; [done|].
  cbn [foldl fst snd]. by rewrite IH assoc_put.
Qed.

Lemma last_pair_fresh k init kvs : k ∉ kvs.*1 → last_pair k init kvs = init.
Proof.
  unfold last_pair. revert init. induction kvs as [|[k' v] kvs IH]; intros init Hk; [done|].
  rewrite fmap_cons in Hk. apply not_elem_of_cons in Hk as [H1 H2]. cbn [foldl fst snd].
  rewrite bool_decide_eq_false_2; [by intros ->|by apply IH].
Qed.

Lemma last_pair_unique k v init kvs : NoDup kvs.*1 → (k, v) ∈ kvs → last_pair k init kvs = Some v.
Proof.
  revert init. induction kvs as [|[k' v'] kvs IH]; intros init Hnd Hin; [by apply elem_of_nil in Hin|].
  rewrite fmap_cons in Hnd. apply list.NoDup_cons in Hnd as [Hk Hnd].
  apply elem_of_cons in Hin as [[= <- <-]|Hin]; [|by apply IH].
  change (last_pair k (if bool_decide (k = k) then Some v else init) kvs = Some v).
  rewrite bool_decide_eq_true_2 //. by apply last_pair_fresh.
Qed.

(** ** The tracker *)

(** One message for the tracker. *)
Record update := Update { u_id : string; u_status : string; u_detail : list (string * pyval) }.

Definition update_msg (u : update) : pyval :=
  PDict [("order_id", PStr (u_id u)); ("status", PStr (u_status u)); ("detail", PDict (u_detail u))].

Definition tracked_all (us : list update) (orders : gmap string (list (string * pyval))) : gmap string (list (string * pyval)) :=
  foldl (λ os u, (order_tracker_receive (update_msg u) os).2) orders us.

Definition entry (u : update) : pyval := PDict [("status", PStr (u_status u)); ("detail", PDict (u_detail u))].

(** The fields that the tracker keeps itself. *)
Definition own_fields : list string := ["order_id"; "status"; "form"; "history"].

Definition about (id : string) (us : list update) : list update := filter (λ u, u_id u = id) us.

Lemma track_own u orders ord h :
  orders !! u_id u = Some ord → assoc "history" ord = Some (PList h) →
  order_tracker_receive (update_msg u) orders =
    (inr tt, <[u_id u := dict_update (u_detail u) (dict_put "history" (PList (h ++ [entry u]))
                                                   (dict_put "status" (PStr (u_status u)) ord))]> orders).
Proof.
  intros Ho Hh. unfold order_tracker_receive.
  change (getitem (update_msg u) "order_id") with (inr (A:=exn) (PStr (u_id u))). cbv iota. rewrite Ho.
  change (getitem (update_msg u) "status") with (inr (A:=exn) (PStr (u_status u))). cbv iota zeta.
  rewrite assoc_put bool_decide_eq_false_2; [done|]. by rewrite Hh.
Qed.

Lemma track_other u id orders : u_id u ≠ id → (order_tracker_receive (update_msg u) orders).2 !! id = orders !! id.
Proof.
  intros Hne. unfold order_tracker_receive.
  change (getitem (update_msg u) "order_id") with (inr (A:=exn) (PStr (u_id u))). cbv iota.
  repeat case_match; simplify_eq; cbn [snd]; rewrite ?lookup_insert_ne //.
Qed.

(** What the updates of an order leave, whatever comes between them. *)
Lemma tracked_all_spec id us orders ord h :
  orders !! id = Some ord → assoc "history" ord = Some (PList h) →
  Forall (λ u, Forall (λ kv, kv.1 ∉ own_fields) (u_detail u)) (about id us) →
  ∃ ord', tracked_all us orders !! id = Some ord' ∧
    assoc "history" ord' = Some (PList (h ++ (entry <$> about id us))) ∧
    assoc "status" ord' = from_option (λ u, Some (PStr (u_status u))) (assoc "status" ord) (list.last (about id us)) ∧
    ∀ k, k ≠ "status" → k ≠ "history" → assoc k ord' = last_pair k (assoc k ord) (concat (u_detail <$> about id us)).
Proof.
  revert orders ord h. induction us as [|u us IH]; intros orders ord h Ho Hh Hkeys.
  { exists ord. by rewrite app_nil_r. }
  unfold about in *. rewrite filter_cons in Hkeys |- *. unfold tracked_all. cbn [foldl]. case_decide as Hid.
  - subst id. apply list.Forall_cons in Hkeys as [Hu Hkeys]. rewrite (track_own u orders ord h) //. cbn [snd].
    set (ord1 := dict_update _ _).
    assert (∀ k, k ∈ own_fields → k ∉ (u_detail u).*1) as Hown.
    { intros k Hk (kv & -> & Hkv)%list_elem_of_fmap. by apply (proj1 (list.Forall_forall _ _) Hu kv Hkv). }
    assert (assoc "history" ord1 = Some (PList (h ++ [entry u]))) as Hh1.
    { unfold ord1. rewrite assoc_update last_pair_fresh; [apply Hown; set_solver|by rewrite assoc_put]. }
    assert (assoc "status" ord1 = Some (PStr (u_status u))) as Hs1.
    { unfold ord1. rewrite assoc_update last_pair_fresh; [apply Hown; set_solver|by rewrite !assoc_put]. }
    destruct (IH (<[u_id u := ord1]> orders) ord1 (h ++ [entry u])) as (ord' & Ho' & Hh' & Hs' & Hk');
      [by rewrite lookup_insert_eq|done|done|]. exists ord'. split_and!; [done| | |].
    + by rewrite Hh' fmap_cons -app_assoc.
    + rewrite Hs' Hs1 last_cons. by destruct (list.last _).
    + intros k H1 H2. rewrite (Hk' k H1 H2) fmap_cons. cbn [concat]. unfold last_pair. rewrite foldl_app. f_equal.
      unfold ord1. rewrite assoc_update !assoc_put !bool_decide_eq_false_2; by congruence || done.
  - apply (IH _ ord h); [by rewrite track_other|done|done].
Qed.

(** ** From the form to the archive *)

Section order.
Context {codec : PayloadCodec} (ARCHIVE_NODE DATA_DIR : string) (o : order) (ps : list product).

(** The five updates of an order: four of fulfillment and one of the archive. *)
Definition updates_of : list update :=
  [Update (o_id o) "en_preparacion" [("detalle", PStr "pedido admitido para preparación")];
   Update (o_id o) "stock_reservado" [("productos", PList (PStr ∘ nombre <$> ps))];
   Update (o_id o) "importe_calculado" [("importe_total", PInt (total ps))];
   Update (o_id o) "listo_para_envio" [("decision_envio", PStr (decision_envio (total ps)))];
   Update (o_id o) "archivado" [("archivo", PStr (archive_path DATA_DIR (o_id o)))]].

(** The first four are what the pipeline sends, the fifth the archivist. *)
Lemma updates_sent :
  order_out ARCHIVE_NODE o ps =
    ((λ u, (o_origin o, "order_tracker", update_msg u)) <$> take 4 updates_of) ++ [(ARCHIVE_NODE, "archivist", archive_msg o ps)].
Proof. done. Qed.

Lemma updates_keys : Forall (λ u, Forall (λ kv, kv.1 ∉ own_fields) (u_detail u)) updates_of.
Proof. unfold updates_of. repeat constructor; cbn; by apply (bool_decide_unpack _). Qed.

Definition record_of : pyval :=
  PDict [("order_id", PStr (o_id o)); ("formulario", PDict (o_form o)); ("productos", PList (PStr ∘ nombre <$> ps));
         ("importe_total", PInt (total ps)); ("decision_envio", PStr (decision_envio (total ps)))].

(** What [crear_pedido] keeps of an order. *)
Definition received : list (string * pyval) :=
  [("order_id", PStr (o_id o)); ("status", PStr "recibido"); ("form", PDict (o_form o)); ("history", PList [])].

Lemma archivist_run a :
  archivist_receive DATA_DIR (archive_msg o ps) a =
    (let rs := ref_send (RemoteRef (o_origin o) "order_tracker")
                 (update_msg (Update (o_id o) "archivado" [("archivo", PStr (archive_path DATA_DIR (o_id o)))])) None None (ar_node a) in
     (rs.1, Archive rs.2 (<[archive_path DATA_DIR (o_id o) := record_of]> (ar_files a)))).
Proof.
  unfold archivist_receive.
  change (getitem (archive_msg o ps) "order_id") with (inr (A:=exn) (PStr (o_id o))).
  change (getitem (archive_msg o ps) "origin_node") with (inr (A:=exn) (PStr (o_origin o))).
  change (getitem (archive_msg o ps) "form") with (inr (A:=exn) (PDict (o_form o))).
  change (getitem (archive_msg o ps) "productos") with (inr (A:=exn) (PList (PStr ∘ nombre <$> ps))).
  change (getitem (archive_msg o ps) "importe_total") with (inr (A:=exn) (PInt (total ps))).
  change (getitem (archive_msg o ps) "decision_envio") with (inr (A:=exn) (PStr (decision_envio (total ps)))).
  cbv iota zeta. cbn [as_str]. cbv iota. unfold update_msg. cbn [u_id u_status u_detail].
  by destruct (ref_send _ _ _ _ _) as [r s].
Qed.

(** The archivist writes the record that the pipeline handed over to the
    file named after the order and leaves every other file alone, also when
    it cannot confirm; when the node where the order was placed is connected,
    its one message is the last of the updates of the order, to that node. *)
Theorem archivist_files a :
  let ra := archivist_receive DATA_DIR (archive_msg o ps) a in
  ar_files ra.2 = <[archive_path DATA_DIR (o_id o) := record_of]> (ar_files a) ∧
  (∀ co, _core (ar_node a) = Some co → co_running co = true → is_peer co (o_origin o) →
     (∀ p v, co_refuses co p v = None) →
     ∃ u, list.last updates_of = Some u ∧ ra.1 = inr tt ∧
       _core (ar_node ra.2) = Some (push (o_origin o, "order_tracker", update_msg u) co)).
Proof.
  cbn zeta. rewrite archivist_run. cbn [fst snd ar_files ar_node]. split; [done|].
  intros co Hco Hrun Hp Hr. eexists. split; [reflexivity|]. cbn [ref_send]. by rewrite (send_remote_ok _ _ _ _ _ _ co).
Qed.

(** Tracking: whatever the order in which the five updates of an order
    arrive, and whatever updates of other orders come between them, the API
    ends up with every one of them in the history as it arrived, with the
    products, the amount, the decision, the file and the form of the order;
    its status is that of the update that came last. *)
Theorem tracker_collects us orders :
  orders !! o_id o = Some received → about (o_id o) us ≡ₚ updates_of →
  ∃ ord, tracked_all us orders !! o_id o = Some ord ∧
    assoc "history" ord = Some (PList (entry <$> about (o_id o) us)) ∧
    (∃ u, list.last (about (o_id o) us) = Some u ∧ assoc "status" ord = Some (PStr (u_status u))) ∧
    assoc "form" ord = Some (PDict (o_form o)) ∧
    assoc "productos" ord = Some (PList (PStr ∘ nombre <$> ps)) ∧
    assoc "importe_total" ord = Some (PInt (total ps)) ∧
    assoc "decision_envio" ord = Some (PStr (decision_envio (total ps))) ∧
    assoc "archivo" ord = Some (PStr (archive_path DATA_DIR (o_id o))).
Proof.
  intros Ho Hp. assert (Forall (λ u, Forall (λ kv, kv.1 ∉ own_fields) (u_detail u)) (about (o_id o) us)) as Hkeys.
  { rewrite Hp. apply updates_keys. }
  destruct (tracked_all_spec (o_id o) us orders received [] Ho eq_refl Hkeys) as (ord & Ho' & Hh & Hs & Hk).
  set (D := concat (u_detail <$> about (o_id o) us)) in *.
  assert (D ≡ₚ concat (u_detail <$> updates_of)) as HD by (unfold D; by rewrite Hp).
  assert (NoDup D.*1) as Hnd by (rewrite HD; by apply (bool_decide_unpack _)).
  assert (∀ k v, k ≠ "status" → k ≠ "history" → (k, v) ∈ concat (u_detail <$> updates_of) → assoc k ord = Some v) as Hfield.
  { intros k v H1 H2 Hin. rewrite (Hk k H1 H2). apply last_pair_unique; [done|]. by rewrite HD. }
  exists ord. split_and!; [done|done| | |apply Hfield; [done..|cbn; set_solver]..].
  - destruct (list.last (about (o_id o) us)) as [u|] eqn:Hl; [by exists u|].
    apply last_None in Hl. rewrite Hl in Hp. by apply Permutation_nil_cons in Hp.
  - rewrite Hk // last_pair_fresh //. rewrite HD. by apply (bool_decide_unpack _).
Qed.

(** A gap: the archive and fulfillment report over different connections,
    so the confirmation of the archive may overtake the last update of
    fulfillment.  The order is then archived, and its status stays
    [listo_para_envio] for good. *)
Theorem archived_status_regresses orders :
  orders !! o_id o = Some received →
  ∃ us ord, us ≡ₚ updates_of ∧ take 4 updates_of = filter (λ u, u_status u ≠ "archivado") us ∧
    tracked_all us orders !! o_id o = Some ord ∧
    assoc "status" ord = Some (PStr "listo_para_envio") ∧
    assoc "archivo" ord = Some (PStr (archive_path DATA_DIR (o_id o))).
Proof.
  intros Ho. set (us := take 3 updates_of ++ [Update (o_id o) "archivado" [("archivo", PStr (archive_path DATA_DIR (o_id o)))];
    Update (o_id o) "listo_para_envio" [("decision_envio", PStr (decision_envio (total ps)))]]).
  assert (us ≡ₚ updates_of) as Hp by (unfold us, updates_of; cbn; by do 3 constructor; constructor).
  assert (about (o_id o) us = us) as Hab.
  { unfold about, us, updates_of. cbn [take app]. by rewrite !filter_cons_True. }
  assert (Forall (λ u, Forall (λ kv, kv.1 ∉ own_fields) (u_detail u)) (about (o_id o) us)) as Hkeys.
  { rewrite Hab Hp. apply updates_keys. }
  destruct (tracked_all_spec (o_id o) us orders received [] Ho eq_refl Hkeys) as (ord & Ho' & _ & Hs & Hk).
  rewrite Hab in Hs Hk. by exists us, ord; split_and!; [..|rewrite Hk].
Qed.

End order.
