(* ===== verification/WarehouseMain.v ===== *)
(** * The warehouse, started

    [main()] of [fulfillment/main.py]: the node, the supervisor and the four
    actors ([Apps] has the loop that then connects to the archive).  The node
    it starts is the one that the theorems on the pipeline begin with; the
    archive and the API start the same way, with one actor each.  Concrete
    runs follow. *)

From S2P Require Import Prelude Values NodeId Actors State PeerEvents Asyncio Node NodeProps Links Refs Supervisor Codec CodecProps.
From S2P Require Import Warehouse WarehouseApi.

(** ** Starting *)

Definition fulfillment_main (id : string) (refuses : string → pyval → option exn) : M st unit :=
  start (Bound id) refuses ;;
  let! sup := new_supervisor OneForOne 3 5000 in
  spawn sup "IntakeActor" (plain_actor "intake") ;;
  spawn sup "StockCheckActor" (plain_actor "stock_check") ;;
  spawn sup "ValuationActor" (plain_actor "valuation") ;;
  spawn sup "DispatchActor" (plain_actor "dispatch") ;;
  ret tt.

(** [main] of [archive/main.py] up to its loop. *)
Definition archive_main (id : string) (refuses : string → pyval → option exn) : M st unit :=
  start (Bound id) refuses ;;
  let! sup := new_supervisor OneForOne 3 5000 in
  spawn sup "ArchivistActor" (plain_actor "archivist") ;; ret tt.

(** [lifespan] of [api/app.py] up to its loop. *)
Definition api_lifespan (id : string) (refuses : string → pyval → option exn) : M st unit :=
  start (Bound id) refuses ;;
  let! sup := new_supervisor OneForOne 3 5000 in
  spawn sup "OrderTrackerActor" (plain_actor "order_tracker") ;; ret tt.

(** Each of the three nodes starts with its actors registered, every mailbox
    empty and without a bound. *)
Lemma warehouse_registered id refuses :
  (let s := exec (archive_main id refuses) (Node_init id None) in
   _mailboxes s !! "archivist" ≫= (queues s !!.) = Some (Queue [] 0)) ∧
  (let s := exec (api_lifespan id refuses) (Node_init id None) in
   _mailboxes s !! "order_tracker" ≫= (queues s !!.) = Some (Queue [] 0)).
Proof. done. Qed.

(** The started node, once its peers are there. *)
Definition fulfillment_node (id : string) (peers : gset string) : st :=
  (exec (fulfillment_main id (λ _ _, None)) (Node_init id None)) <| _core ::= fmap (λ co, co <| co_peers := peers |>) |>.

Definition fulfillment_core (id : string) (peers : gset string) : core_t :=
  default (fresh_core id true (λ _ _, None)) (_core (fulfillment_node id peers)).

(** What [main] starts is a node that the pipeline can begin with. *)
Lemma fulfillment_ready id peers archive :
  canonical archive = inr archive → archive ∈ peers →
  pnode archive 1 4 7 10 (fulfillment_node id peers) (fulfillment_core id peers) [] [] [] [] ∧
  sent (fulfillment_core id peers) = [].
Proof. intros Hc Hp. split; [|done]. by split. Qed.

(** ** A run *)

#[local] Instance wh_codec : PayloadCodec := lapinbeam_codec demo_env.

Definition ana : order := Order "id1" "api@h:1" [("cliente", PStr "Ana"); ("producto", PStr "webcam HD")].
Definition luis : order := Order "id2" "api@h:1" [("cliente", PStr "Luis"); ("producto", PStr "silla de oficina")].
Definition drawn : list product := [Product "webcam HD" 10; Product "silla de oficina" 30].

Definition wh_start : st := fulfillment_node "f@h:2" {["api@h:1"; "archive@h:3"]}.
Definition wh_meta : message_meta := MessageMeta (Some "api@h:1") None None None.

Lemma drawn_ok : sample_ok drawn.
Proof.
  split_and!; [cbn; lia..|by apply (bool_decide_unpack _); vm_compute|].
  repeat constructor; by apply (bool_decide_unpack _); vm_compute.
Qed.

Definition wh_ready := fulfillment_ready "f@h:2" {["api@h:1"; "archive@h:3"]} "archive@h:3" eq_refl ltac:(set_solver).

Lemma wh_ids : NoDup [1; 4; 7; 10].
Proof. by apply (bool_decide_unpack _). Qed.

(** Two orders arrive; the first is past its stock check, the second not yet. *)
Definition wh_end : st :=
  exec (stage_turn "intake" intake_receive) (exec (stage_turn "stock_check" (stock_check_receive drawn))
    (exec (deliver_callback "intake" 1 (order_msg luis) wh_meta)
      (exec (stage_turn "intake" intake_receive) (exec (deliver_callback "intake" 1 (order_msg ana) wh_meta) wh_start)))).

Lemma wh_connected s co : _core s = Some co → bool_decide ("api@h:1" ∈ co_peers co) = true → connected s "api@h:1".
Proof. intros Hco Hp. exists co. split; [done|]. split; [done|]. by apply bool_decide_eq_true in Hp. Qed.

Lemma wh_run : rtc (pipe_step "archive@h:3" 1) ([], wh_start) ([ana; luis], wh_end).
Proof.
  eapply rtc_l; [apply (pp_order _ _ ana wh_meta); [done|set_solver|by eapply wh_connected]|].
  eapply rtc_l; [apply pp_intake|].
  eapply rtc_l; [apply (pp_order _ _ luis wh_meta); [done|by apply (bool_decide_unpack _)|by eapply wh_connected]|].
  eapply rtc_l; [apply (pp_stock _ _ drawn), drawn_ok|].
  eapply rtc_l; [apply pp_intake|].
  unfold wh_end. cbn [app]. apply rtc_refl.
Qed.


Lemma pipeline_completes_witness :
  ∃ s' co', _core s' = Some co' ∧ ∃ ps, sample_ok ps ∧ parcels_for "id2" (sent co') = order_out "archive@h:3" luis ps.
Proof.
  destruct (pipeline_completes "archive@h:3" 1 4 7 10 wh_ids wh_start _ (proj1 wh_ready) (proj2 wh_ready) _ _ wh_run)
    as (s' & co' & _ & Hco & H). exists s', co'. split; [exact Hco|]. apply (H luis). right; left.
Defined.

(** The confirmation of the archive comes in the middle, with an update of
    another order. *)
Definition wh_updates : list update :=
  [Update "id2" "en_preparacion" []] ++ drop 3 (updates_of "/data" ana drawn) ++ take 3 (updates_of "/data" ana drawn).

Lemma tracker_collects_witness :
  ∃ ord, tracked_all wh_updates {["id1" := received ana]} !! "id1" = Some ord ∧
    assoc "importe_total" ord = Some (PInt 40) ∧ assoc "archivo" ord = Some (PStr "/data/id1.json").
Proof.
  destruct (tracker_collects "/data" ana drawn wh_updates {["id1" := received ana]}) as (ord & Ho & _ & _ & _ & _ & Hi & _ & Ha).
  - reflexivity.
  - change (about (o_id ana) wh_updates) with (drop 3 (updates_of "/data" ana drawn) ++ take 3 (updates_of "/data" ana drawn)).
    etransitivity; [apply Permutation_app_comm|]. by rewrite take_drop.
  - exists ord. split; [exact Ho|split; [exact Hi|exact Ha]].
Defined.

Lemma archived_status_regresses_witness :
  ∃ us ord, tracked_all us {["id1" := received ana]} !! "id1" = Some ord ∧
    assoc "status" ord = Some (PStr "listo_para_envio") ∧ assoc "archivo" ord = Some (PStr "/data/id1.json").
Proof.
  destruct (archived_status_regresses "/data" ana drawn {["id1" := received ana]}) as (us & ord & _ & _ & H1 & H2 & H3); [reflexivity|].
  exists us, ord. split; [exact H1|split; [exact H2|exact H3]].
Defined.
