(* ===== verification/OrderStream.v ===== *)
(** * The order stream

    [src/examples/order_stream/]: orders that a worker node runs
    ([worker/order.py], in a pool), a database both nodes write ([db.py]), and
    an HTTP application whose viewers follow an order live ([app/main.py],
    [app/pubsub.py]).  The components meet in the database, in the stream of
    replies of [ask_stream] and in the queues of the subscribers; every
    [await] is a point where any other task may run, so the application is a
    transition system whose actions are the pieces between two awaits.

    Postgres is the atomic update or read of one row; a write may fail, and it
    may also be done although the call raises.  The replies of one order come
    in the order they were sent, which is what a connection gives. *)

From S2P Require Import Prelude.

(** ** The database: [db.py] *)

Record row := Row { r_status : string; r_steps : list (string * string) }.

#[export] Instance eta_row : Settable row := λ r, Row (r_status r) (r_steps r).

Abbreviation db := (gmap string row).

(** [INSERT]: [None] when the id is taken. *)
Definition db_create_order (order_id : string) (d : db) : option db :=
  match d !! order_id with
  | Some _ => None
  | None => Some (<[order_id := Row "en_progreso" []]> d)
  end.

Definition append_step (order_id : string) (step : string * string) (d : db) : db :=
  alter (λ r, r <| r_steps ::= λ l, l ++ [step] |>) order_id d.

Definition mark_status (order_id status : string) (d : db) : db :=
  alter (λ r, r <| r_status := status |>) order_id d.

Definition db_get_order (order_id : string) (d : db) : option row := d !! order_id.

(** How a write ends: done, not done, or done and the call raises. *)
Inductive db_outcome := Wrote | Failed | Lost.

#[export] Instance outcome_eq_dec : EqDecision db_outcome.
Proof. solve_decision. Defined.

Definition db_write (o : db_outcome) (f : db → db) (d : db) : bool * db :=
  match o with Wrote => (true, f d) | Failed => (false, d) | Lost => (false, f d) end.

(** ** The worker: [order.py] *)

(** An update, as [reply_stream] and [reply_final] send it. *)
Record order_event := Event { ev_status : string; ev_steps : list (string * string) }.

#[export] Instance event_eq_dec : EqDecision order_event.
Proof. solve_decision. Defined.

Definition final (e : order_event) : bool := bool_decide (ev_status e = "completado") || bool_decide (ev_status e = "error").

Definition STEPS : list (string * string) :=
  [("validacion_pedido", "La IA valida los datos del pedido");
   ("comprobacion_stock", "La IA comprueba el stock disponible en el almacén");
   ("calculo_precio", "La IA calcula el importe final del pedido");
   ("prioridad_envio", "La IA determina la prioridad de envío")].

(** [process_order] between its awaits; [steps] is its local list. *)
Inductive worker_pc :=
| WSleep (k : nat) (steps : list (string * string))
| WPersist (k : nat) (steps : list (string * string)) (step : string * string)
| WStream (k : nat) (steps : list (string * string))
| WMark (steps : list (string * string))
| WFinal (steps : list (string * string))
| WMarkError (steps : list (string * string))
| WFinalError (steps : list (string * string))
| WReturned
| WRaised.

(** The head of the [for] loop. *)
Definition for_step (k : nat) (steps : list (string * string)) : worker_pc :=
  match STEPS !! k with Some _ => WSleep k steps | None => WMark steps end.

(** One piece of [process_order]: [o] is how its write ends and [sent] whether
    its reply could be sent. *)
Definition process_order (order_id : string) (o : db_outcome) (sent : bool) (pc : worker_pc) (d : db)
    : worker_pc * db * list order_event :=
  match pc with
  | WSleep k steps =>
      match STEPS !! k with
      | Some step => (WPersist k (steps ++ [step]) step, d, [])
      | None => (WMark steps, d, [])
      end
  | WPersist k steps step =>
      let '(ok, d) := db_write o (append_step order_id step) d in
      (if ok then WStream k steps else WMarkError steps, d, [])
  | WStream k steps =>
      if sent then (for_step (S k) steps, d, [Event "en_progreso" steps]) else (WMarkError steps, d, [])
  | WMark steps =>
      let '(ok, d) := db_write o (mark_status order_id "completado") d in
      (if ok then WFinal steps else WMarkError steps, d, [])
  | WFinal steps =>
      if sent then (WReturned, d, [Event "completado" steps]) else (WMarkError steps, d, [])
  | WMarkError steps =>
      let '(_, d) := db_write o (mark_status order_id "error") d in (WFinalError steps, d, [])
  | WFinalError steps =>
      if sent then (WReturned, d, [Event "error" steps]) else (WRaised, d, [])
  | WReturned | WRaised => (pc, d, [])
  end.

(** ** Live updates: [pubsub.py] *)

Record pubsub := PubSub { _subscribers : gmap string (gset nat); ps_queues : gmap nat (list order_event); ps_next : nat }.

#[export] Instance eta_pubsub : Settable pubsub := λ r, PubSub (_subscribers r) (ps_queues r) (ps_next r).

Definition subscribe (order_id : string) (p : pubsub) : nat * pubsub :=
  let q := ps_next p in
  (q, PubSub (<[order_id := {[q]} ∪ default ∅ (_subscribers p !! order_id)]> (_subscribers p))
             (<[q := []]> (ps_queues p)) (S q)).

Definition unsubscribe (order_id : string) (queue : nat) (p : pubsub) : pubsub :=
  match _subscribers p !! order_id with
  | None => p
  | Some subs =>
      let subs := subs ∖ {[queue]} in
      p <| _subscribers ::= λ m, if bool_decide (subs = ∅) then delete order_id m else <[order_id := subs]> m |>
  end.

Definition publish (order_id : string) (e : order_event) (p : pubsub) : pubsub :=
  let subs := default ∅ (_subscribers p !! order_id) in
  p <| ps_queues ::= map_imap (λ q l, Some (if bool_decide (q ∈ subs) then l ++ [e] else l)) |>.

(** ** The application: [main.py] *)

(** [_relay]: before its message is out, iterating, returned, failed. *)
Inductive relay_pc := RStart | RRunning | RReturned | RFailed.

#[export] Instance relay_pc_eq_dec : EqDecision relay_pc.
Proof. solve_decision. Defined.

(** An order under way: the worker, once it has the message, the replies that
    have not been read, and the relay. *)
Record order_job := Job { j_pc : option worker_pc; j_stream : list order_event; j_relay : relay_pc }.

#[export] Instance eta_job : Settable order_job := λ r, Job (j_pc r) (j_stream r) (j_relay r).

(** The generator [events]: not started, before the read, waiting on its
    queue, finished. *)
Inductive viewer_pc := VStart | VRead (q : nat) | VLive (q : nat) | VEnded.

#[export] Instance viewer_pc_eq_dec : EqDecision viewer_pc.
Proof. solve_decision. Defined.

(** [v_out]: what it has yielded, the status and the steps of each. *)
Record viewer := Viewer { v_order : string; v_pc : viewer_pc; v_out : list order_event }.

#[export] Instance eta_viewer : Settable viewer := λ r, Viewer (v_order r) (v_pc r) (v_out r).

Record world := World { w_db : db; w_ps : pubsub; w_jobs : gmap string order_job; w_viewers : gmap nat viewer }.

#[export] Instance eta_world : Settable world := λ r, World (w_db r) (w_ps r) (w_jobs r) (w_viewers r).

Definition start_world : world := World ∅ (PubSub ∅ ∅ 0) ∅ ∅.

(** [POST /orders] *)
Definition create_order (order_id : string) (w : world) : world :=
  match db_create_order order_id (w_db w) with
  | None => w
  | Some d => w <| w_db := d |> <| w_jobs ::= <[order_id := Job None [] RStart]> |>
  end.

(** [_relay] up to the first wait of [ask_stream]: the message goes out, and the
    pool gives it to a worker sooner or later; or the send fails. *)
Definition relay_start (order_id : string) (sent : bool) (w : world) : world :=
  match w_jobs w !! order_id with
  | Some (Job None st RStart) =>
      w <| w_jobs ::= <[order_id := if sent then Job (Some (for_step 0 [])) st RRunning else Job None st RFailed]> |>
  | _ => w
  end.

Definition order_turn (order_id : string) (o : db_outcome) (sent : bool) (w : world) : world :=
  match w_jobs w !! order_id with
  | Some (Job (Some pc) st r) =>
      let '(pc, d, es) := process_order order_id o sent pc (w_db w) in
      w <| w_db := d |> <| w_jobs ::= <[order_id := Job (Some pc) (st ++ es) r]> |>
  | _ => w
  end.

(** One round of the loop of [_relay]. *)
Definition _relay (order_id : string) (w : world) : world :=
  match w_jobs w !! order_id with
  | Some (Job pc (e :: st) RRunning) =>
      w <| w_ps ::= publish order_id e |>
        <| w_jobs ::= <[order_id := Job pc st (if final e then RReturned else RRunning)]> |>
  | _ => w
  end.

(** [ask_stream] raises. *)
Definition relay_fails (order_id : string) (w : world) : world :=
  match w_jobs w !! order_id with
  | Some (Job pc st RRunning) => w <| w_jobs ::= <[order_id := Job pc st RFailed]> |>
  | _ => w
  end.

(** A broken connection takes the replies that were on it. *)
Definition replies_lost (order_id : string) (k : nat) (w : world) : world :=
  match w_jobs w !! order_id with
  | Some (Job pc st r) => w <| w_jobs ::= <[order_id := Job pc (take k st) r]> |>
  | None => w
  end.

(** [GET /orders/{order_id}/stream]: nothing for an order that is not there. *)
Definition stream_order (v : nat) (order_id : string) (w : world) : world :=
  match db_get_order order_id (w_db w), w_viewers w !! v with
  | Some _, None => w <| w_viewers ::= <[v := Viewer order_id VStart []]> |>
  | _, _ => w
  end.

(** The [finally] of [events]. *)
Definition viewer_ends (v : nat) (x : viewer) (q : nat) (w : world) : world :=
  w <| w_ps ::= unsubscribe (v_order x) q |> <| w_viewers ::= <[v := x <| v_pc := VEnded |>]> |>.

(** [events] up to its next await. *)
Definition events (v : nat) (w : world) : world :=
  match w_viewers w !! v with
  | None => w
  | Some x =>
      match v_pc x with
      | VStart =>
          let '(q, ps) := subscribe (v_order x) (w_ps w) in
          w <| w_ps := ps |> <| w_viewers ::= <[v := x <| v_pc := VRead q |>]> |>
      | VRead q =>
          match db_get_order (v_order x) (w_db w) with
          | None => viewer_ends v x q w  (* no row is ever deleted *)
          | Some current =>
              let x := x <| v_out ::= λ l, l ++ [Event (r_status current) (r_steps current)] |> in
              if bool_decide (r_status current = "en_progreso")
              then w <| w_viewers ::= <[v := x <| v_pc := VLive q |>]> |>
              else viewer_ends v x q w
          end
      | VLive q =>
          match ps_queues (w_ps w) !! q with
          | Some (e :: l) =>
              let w := w <| w_ps ::= λ p, p <| ps_queues ::= <[q := l]> |> |> in
              let x := x <| v_out ::= λ l, l ++ [e] |> in
              if final e then viewer_ends v x q w else w <| w_viewers ::= <[v := x]> |>
          | _ => w
          end
      | VEnded => w
      end
  end.

(** The browser goes away: [GeneratorExit] at the await. *)
Definition viewer_close (v : nat) (w : world) : world :=
  match w_viewers w !! v with
  | Some x =>
      match v_pc x with
      | VStart => w <| w_viewers ::= <[v := x <| v_pc := VEnded |>]> |>
      | VRead q | VLive q => viewer_ends v x q w
      | VEnded => w
      end
  | None => w
  end.

Inductive action :=
| ACreate (order_id : string)
| AStart (order_id : string) (sent : bool)
| AWork (order_id : string) (o : db_outcome) (sent : bool)
| ARelay (order_id : string)
| ARelayFails (order_id : string)
| ALost (order_id : string) (k : nat)
| AOpen (v : nat) (order_id : string)
| AView (v : nat)
| AClose (v : nat).

#[export] Instance action_eq_dec : EqDecision action.
Proof. solve_decision. Defined.

Definition act (a : action) (w : world) : world :=
  match a with
  | ACreate id => create_order id w
  | AStart id sent => relay_start id sent w
  | AWork id o sent => order_turn id o sent w
  | ARelay id => _relay id w
  | ARelayFails id => relay_fails id w
  | ALost id k => replies_lost id k w
  | AOpen v id => stream_order v id w
  | AView v => events v w
  | AClose v => viewer_close v w
  end.

Definition acts (l : list action) (w : world) : world := foldl (λ w a, act a w) w l.
