(* ===== verification/OrderStreamProps.v ===== *)
(** * The order stream: what a worker leaves and what a viewer sees

    [process_order] ends whatever fails, a viewer that is following an order
    is told how it ended, and two ways in which the parts do not fit: a
    reply that cannot be sent turns a completed order into a failed one, and
    a viewer that comes after an error that could not be recorded waits for
    ever. *)

From S2P Require Import Prelude OrderStream.

(** ** The worker *)

(** The updates of the first [k] steps. *)
Definition progress (k : nat) : list order_event := (λ i, Event "en_progreso" (take (S i) STEPS)) <$> seq 0 k.

(** Pieces left at most. *)
Definition pieces_left (pc : worker_pc) : nat :=
  match pc with
  | WSleep k _ => 3 * (4 - k) + 4
  | WPersist k _ _ => 3 * (4 - k) + 3
  | WStream k _ => 3 * (4 - k) + 2
  | WMark _ => 4
  | WFinal _ => 3
  | WMarkError _ => 2
  | WFinalError _ => 1
  | WReturned | WRaised => 0
  end.

(** [process_order] with how each of its awaits ends. *)
Fixpoint run_order (order_id : string) (l : list (db_outcome * bool)) (pc : worker_pc) (d : db) : worker_pc * db * list order_event :=
  match l with
  | [] => (pc, d, [])
  | (o, sent) :: l =>
      let '(pc, d, es) := process_order order_id o sent pc d in
      let '(pc, d, es') := run_order order_id l pc d in (pc, d, es ++ es')
  end.

(** What has been sent and what the row holds at each await. *)
Definition worker_at (pc : worker_pc) (r : row) (es : list order_event) : Prop :=
  match pc with
  | WSleep k steps => k < 4 ∧ steps = take k STEPS ∧ r = Row "en_progreso" (take k STEPS) ∧ es = progress k
  | WPersist k steps step =>
      k < 4 ∧ STEPS !! k = Some step ∧ steps = take (S k) STEPS ∧ r = Row "en_progreso" (take k STEPS) ∧ es = progress k
  | WStream k steps => k < 4 ∧ steps = take (S k) STEPS ∧ r = Row "en_progreso" (take (S k) STEPS) ∧ es = progress k
  | WMark steps => steps = STEPS ∧ r = Row "en_progreso" STEPS ∧ es = progress 4
  | WFinal steps => steps = STEPS ∧ r = Row "completado" STEPS ∧ es = progress 4
  | WMarkError _ | WFinalError _ | WRaised => r_steps r `prefix_of` STEPS ∧ ∃ m, es = progress m
  | WReturned => r_steps r `prefix_of` STEPS ∧ ∃ m e, es = progress m ++ [e] ∧ final e = true ∧
      (ev_status e = "completado" → m = 4 ∧ ev_steps e = STEPS ∧ r = Row "completado" STEPS)
  end.

Lemma take_next k step : STEPS !! k = Some step → take (S k) STEPS = take k STEPS ++ [step].
Proof. apply list.take_S_r. Qed.

Lemma progress_next k : progress (S k) = progress k ++ [Event "en_progreso" (take (S k) STEPS)].
Proof. unfold progress. by rewrite seq_S fmap_app. Qed.

Lemma steps_some k : k < 4 → ∃ step, STEPS !! k = Some step.
Proof. intros Hk. apply lookup_lt_is_Some. done. Qed.

Lemma for_step_at k : k ≤ 4 → worker_at (for_step k (take k STEPS)) (Row "en_progreso" (take k STEPS)) (progress k).
Proof.
  intros Hk. unfold for_step. destruct (decide (k = 4)) as [->|Hne]; [done|].
  destruct (steps_some k) as [step ->]; [lia|]. cbn. split_and!; [lia|done..].
Qed.

(** What a write leaves in the row. *)
Lemma db_write_row o f g id d r :
  (∀ d r, d !! id = Some r → f d !! id = Some (g r)) → d !! id = Some r →
  ∃ r', (db_write o f d).2 !! id = Some r' ∧ (r' = r ∨ r' = g r) ∧ ((db_write o f d).1 = true → r' = g r).
Proof. intros Hf Hr. destruct o; cbn; eauto 10; by eexists; split_and!; [done|left|]. Qed.

Lemma append_step_row id step d r : d !! id = Some r → append_step id step d !! id = Some (Row (r_status r) (r_steps r ++ [step])).
Proof. intros Hr. unfold append_step. by rewrite lookup_alter_eq Hr. Qed.

Lemma mark_status_row id s d r : d !! id = Some r → mark_status id s d !! id = Some (Row s (r_steps r)).
Proof. intros Hr. unfold mark_status. by rewrite lookup_alter_eq Hr. Qed.

Lemma process_order_at id o sent pc d r es :
  d !! id = Some r → worker_at pc r es →
  let q := process_order id o sent pc d in
  (∃ r', q.1.2 !! id = Some r' ∧ worker_at q.1.1 r' (es ++ q.2)) ∧ (pieces_left q.1.1 < pieces_left pc ∨ pieces_left pc = 0).
Proof.
  intros Hr Hw. destruct pc as [k steps|k steps step|k steps|steps|steps|steps|steps| |]; cbn [worker_at] in Hw.
  - destruct Hw as (Hk & -> & -> & ->). destruct (steps_some k Hk) as [step Hst]. unfold process_order. rewrite Hst. cbn [fst snd].
    split; [|cbn; lia]. eexists. split; [done|]. rewrite app_nil_r -(take_next k step Hst). split_and!; done.
  - destruct Hw as (Hk & Hst & -> & -> & ->). unfold process_order.
    destruct (db_write_row o (append_step id step) (λ r, Row (r_status r) (r_steps r ++ [step])) id d _ (append_step_row id step) Hr)
      as (r' & Hr' & Hor & Hok). destruct (db_write o _ d) as [ok d']. cbn [fst snd] in *. split; [|destruct ok; cbn; lia].
    exists r'. split; [done|]. rewrite app_nil_r. cbn [r_status r_steps] in *. rewrite -(take_next k step Hst) in Hor Hok.
    destruct ok; cbn [worker_at]; [rewrite Hok //|]. split; [|by eexists].
    destruct Hor as [->| ->]; apply prefix_take.
  - destruct Hw as (Hk & -> & -> & ->). unfold process_order. destruct sent; cbn [fst snd]; (split; [|]).
    + eexists. split; [done|]. rewrite -progress_next. apply for_step_at. lia.
    + left. unfold for_step. destruct (STEPS !! S k) eqn:Hs; cbn; [|lia]. apply lookup_lt_Some in Hs. cbn in Hs. lia.
    + eexists. split; [done|]. rewrite app_nil_r. split; [apply prefix_take|by eexists].
    + left. cbn. lia.
  - destruct Hw as (-> & -> & ->). unfold process_order.
    destruct (db_write_row o (mark_status id "completado") (λ r, Row "completado" (r_steps r)) id d _ (mark_status_row id _) Hr)
      as (r' & Hr' & Hor & Hok). destruct (db_write o _ d) as [ok d']. cbn [fst snd] in *. split; [|destruct ok; cbn; lia].
    exists r'. split; [done|]. rewrite app_nil_r. destruct ok; cbn [worker_at]; [rewrite Hok //|].
    split; [by destruct Hor as [->| ->]|by eexists].
  - destruct Hw as (-> & -> & ->). destruct sent; cbn [process_order fst snd]; (split; [|cbn; lia]); (eexists; split; [done|]).
    + split; [done|]. by eexists _, _.
    + rewrite app_nil_r. split; [done|by eexists].
  - destruct Hw as (Hp & m & ->). unfold process_order.
    destruct (db_write_row o (mark_status id "error") (λ r, Row "error" (r_steps r)) id d _ (mark_status_row id _) Hr)
      as (r' & Hr' & Hor & _). destruct (db_write o _ d) as [ok d']. cbn [fst snd] in *. split; [|cbn; lia].
    exists r'. split; [done|]. rewrite app_nil_r. split; [by destruct Hor as [->| ->]|by eexists].
  - destruct Hw as (Hp & m & ->). destruct sent; cbn [process_order fst snd]; (split; [|cbn; lia]); (eexists; split; [done|]).
    + split; [done|]. by eexists _, _.
    + rewrite app_nil_r. split; [done|by eexists].
  - split; [|by right]. eexists. by rewrite app_nil_r.
  - split; [|by right]. eexists. by rewrite app_nil_r.
Qed.

Lemma run_order_cons id o sent l pc d :
  run_order id ((o, sent) :: l) pc d =
    (let q := process_order id o sent pc d in let q' := run_order id l q.1.1 q.1.2 in (q'.1, q.2 ++ q'.2)).
Proof. cbn. destruct (process_order id o sent pc d) as [[pc1 d1] es1]. cbn. by destruct (run_order id l pc1 d1) as [[pc2 d2] es2]. Qed.

Lemma run_order_at id l pc d r es :
  d !! id = Some r → worker_at pc r es → pieces_left pc ≤ length l →
  let q := run_order id l pc d in
  (∃ r', q.1.2 !! id = Some r' ∧ worker_at q.1.1 r' (es ++ q.2)) ∧ pieces_left q.1.1 = 0.
Proof.
  revert pc d r es. induction l as [|[o sent] l IH]; intros pc d r es Hr Hw Hl; cbn zeta.
  - cbn in *. split; [|lia]. exists r. by rewrite app_nil_r.
  - rewrite run_order_cons. cbn zeta. destruct (process_order_at id o sent pc d r es Hr Hw) as [(r1 & Hr1 & Hw1) Hlt].
    destruct (IH _ _ _ _ Hr1 Hw1) as [(r' & Hr' & Hw') H0].
    + cbn in Hl. destruct Hlt as [|H0]; [lia|]. destruct pc as [k ?|k ? ?|k ?| | | | | |]; cbn in H0; try lia; cbn; lia.
    + split; [|done]. exists r'. split; [done|]. cbn [fst snd]. by rewrite app_assoc.
Qed.

(** (C37) The worker: whatever fails and however often, [process_order] is
    through after sixteen awaits.  It has reported the steps it did, each
    update with one step more; when it returns it has sent exactly one final
    update after them, and a final [completado] means that the row holds all
    four steps and that status.  The row never has anything but the first
    steps. *)
Theorem process_order_outcome id l d :
  d !! id = Some (Row "en_progreso" []) → 16 ≤ length l →
  let '(pc, d', es) := run_order id l (for_step 0 []) d in
  ∃ r, d' !! id = Some r ∧ r_steps r `prefix_of` STEPS ∧
    ((pc = WRaised ∧ ∃ m, es = progress m) ∨
     (pc = WReturned ∧ ∃ m e, es = progress m ++ [e] ∧ final e = true ∧
        (ev_status e = "completado" → m = 4 ∧ ev_steps e = STEPS ∧ r = Row "completado" STEPS))).
Proof.
  intros Hr Hl. destruct (run_order_at id l (for_step 0 []) d _ [] Hr (for_step_at 0 ltac:(lia)) ltac:(cbn; lia)) as [(r & Hr' & Hw) H0].
  destruct (run_order id l (for_step 0 []) d) as [[pc d'] es]. cbn [fst snd app] in *.
  exists r. split; [done|]. destruct pc as [k ?|k ? ?|k ?| | | | | |]; try (cbn in H0; lia); destruct Hw as [Hp Hrest]; auto.
Qed.

(** A worker for which nothing fails sends the four updates and the final
    one and leaves the row complete. *)
Theorem process_order_completes id d :
  d !! id = Some (Row "en_progreso" []) →
  let '(pc, d', es) := run_order id (replicate 16 (Wrote, true)) (for_step 0 []) d in
  pc = WReturned ∧ d' !! id = Some (Row "completado" STEPS) ∧ es = progress 4 ++ [Event "completado" STEPS].
Proof.
  intros Hr. cbn -[append_step mark_status STEPS]. split_and!; [done| |done].
  apply (mark_status_row _ _ _ (Row "en_progreso" STEPS)).
  apply (append_step_row _ _ _ (Row "en_progreso" (take 3 STEPS))), (append_step_row _ _ _ (Row "en_progreso" (take 2 STEPS))).
  by apply (append_step_row _ _ _ (Row "en_progreso" (take 1 STEPS))), (append_step_row _ _ _ (Row "en_progreso" [])).
Qed.

(** ** The viewers *)

Definition statuses : list string := ["en_progreso"; "completado"; "error"].

(** Only a worker that has recorded how the order ended sends a final update. *)
Record order_job_ok (d : db) (id : string) (j : order_job) : Prop := OrderJobOk {
  jo_row : ∃ r, d !! id = Some r ∧ r_status r ∈ statuses ∧
    match j_pc j with Some (WFinal _ | WFinalError _ | WReturned) => r_status r ≠ "en_progreso" | _ => True end;
  jo_final : Exists (λ e, final e = true) (j_stream j) ∨ j_relay j = RReturned → j_pc j = Some WReturned
}.

(** The queue of a viewer that is subscribed. *)
Definition queue_of (x : viewer) : option nat := match v_pc x with VRead q | VLive q => Some q | _ => None end.

Definition subscribed (p : pubsub) (id : string) (q : nat) : Prop :=
  q ∈ default ∅ (_subscribers p !! id) ∧ q < ps_next p.

Record winv (w : world) : Prop := WInv {
  wi_jobs : ∀ id j, w_jobs w !! id = Some j → order_job_ok (w_db w) id j;
  wi_rows : ∀ id, is_Some (w_db w !! id) → is_Some (w_jobs w !! id);
  wi_subscribed : ∀ v x q, w_viewers w !! v = Some x → queue_of x = Some q →
    subscribed (w_ps w) (v_order x) q ∧ is_Some (ps_queues (w_ps w) !! q);
  wi_distinct : ∀ v v' x x' q, w_viewers w !! v = Some x → w_viewers w !! v' = Some x' →
    queue_of x = Some q → queue_of x' = Some q → v = v';
  wi_live : ∀ v x q, w_viewers w !! v = Some x → v_pc x = VLive q →
    ∃ j l, w_jobs w !! v_order x = Some j ∧ ps_queues (w_ps w) !! q = Some l ∧
      (j_relay j = RReturned → Exists (λ e, final e = true) l)
}.

(** The error is recorded: the last write of [process_order] is done. *)
Definition recorded (a : action) (w : world) : Prop :=
  match a with
  | AWork id Failed _ => match w_jobs w !! id with Some (Job (Some (WMarkError _)) _ _) => False | _ => True end
  | _ => True
  end.

Definition os_step (w w' : world) : Prop := ∃ a, recorded a w ∧ w' = act a w.

(** *** Rows *)

Lemma mark_other id id' s d : id ≠ id' → mark_status id s d !! id' = d !! id'.
Proof. intros H. by apply lookup_alter_ne. Qed.
Lemma append_other id id' s d : id ≠ id' → append_step id s d !! id' = d !! id'.
Proof. intros H. by apply lookup_alter_ne. Qed.

Lemma process_order_other id id' o sent pc d : id ≠ id' → (process_order id o sent pc d).1.2 !! id' = d !! id'.
Proof.
  intros Hne. destruct pc, o; cbn; rewrite ?mark_other ?append_other //; repeat case_match; by simplify_eq.
Qed.

Lemma job_ok_row d d' id j : d' !! id = d !! id → order_job_ok d id j → order_job_ok d' id j.
Proof. intros Hd [Hr Hf]. split; [by rewrite Hd|done]. Qed.

Lemma statuses_end s steps : s ∈ statuses → s ≠ "en_progreso" → final (Event s steps) = true.
Proof. unfold statuses. rewrite !elem_of_cons elem_of_nil. intros [->|[->|[->|[]]]]; done. Qed.

(** What a piece of [process_order] sends: a final update only as it returns. *)
Lemma process_order_sends id o sent pc d :
  Exists (λ e, final e = true) (process_order id o sent pc d).2 → (process_order id o sent pc d).1.1 = WReturned.
Proof.
  destruct pc as [k steps|k steps step|k steps|steps|steps|steps|steps| |]; cbn;
    repeat case_match; simplify_eq; cbn; rewrite ?Exists_cons ?Exists_nil; try tauto.
  all: intros [H|H]; [|done]; done.
Qed.

Lemma process_order_returned id o sent d : process_order id o sent WReturned d = (WReturned, d, []).
Proof. done. Qed.

Lemma process_order_row id o sent pc st r d :
  order_job_ok d id (Job (Some pc) st r) → (o = Failed → ∀ steps, pc ≠ WMarkError steps) →
  ∃ row, (process_order id o sent pc d).1.2 !! id = Some row ∧ r_status row ∈ statuses ∧
    match (process_order id o sent pc d).1.1 with WFinal _ | WFinalError _ | WReturned => r_status row ≠ "en_progreso" | _ => True end.
Proof.
  intros [(row & Hr & Hs & Hpc) _] Ho. cbn [j_pc] in *.
  pose proof (λ s, mark_status_row id s d row Hr) as Hm. pose proof (λ s, append_step_row id s d row Hr) as Ha.
  assert ("completado" ∈ statuses) as Hc by set_solver. assert ("error" ∈ statuses) as He by set_solver.
  destruct pc as [k steps|k steps step|k steps|steps|steps|steps|steps| |]; cbn -[STEPS].
  - destruct (STEPS !! k); by exists row.
  - destruct o; cbn; [by eexists; split; [apply Ha|]|by exists row|by eexists; split; [apply Ha|]].
  - destruct sent; cbn; [|by exists row]. exists row. split_and!; [done..|]. unfold for_step. by destruct (STEPS !! S k).
  - destruct o; cbn; [by eexists; split; [apply Hm|]|by exists row|by eexists; split; [apply Hm|]].
  - destruct sent; by exists row.
  - destruct o; cbn; [by eexists; split; [apply Hm|]|by destruct (Ho eq_refl steps)|by eexists; split; [apply Hm|]].
  - destruct sent; by exists row.
  - by exists row.
  - by exists row.
Qed.

Lemma process_order_job id o sent pc st r d :
  order_job_ok d id (Job (Some pc) st r) → (o = Failed → ∀ steps, pc ≠ WMarkError steps) →
  order_job_ok (process_order id o sent pc d).1.2 id (Job (Some (process_order id o sent pc d).1.1) (st ++ (process_order id o sent pc d).2) r).
Proof.
  intros Hj Ho. split; cbn [j_pc j_stream j_relay].
  - by apply process_order_row with st r.
  - rewrite Exists_app. intros [[H|H]|H]; [|f_equal; by apply process_order_sends|].
    + pose proof (jo_final _ _ _ Hj (or_introl H)) as [= ->]. done.
    + pose proof (jo_final _ _ _ Hj (or_intror H)) as [= ->]. done.
Qed.

(** *** Jobs *)

(** The order_job and the row of one order change; nobody is told. *)
Lemma winv_job w d' id j' :
  winv w → (∀ id', id ≠ id' → d' !! id' = w_db w !! id') → order_job_ok d' id j' →
  (j_relay j' = RReturned → ∃ j, w_jobs w !! id = Some j ∧ j_relay j = RReturned) →
  winv (w <| w_db := d' |> <| w_jobs ::= <[id := j']> |>).
Proof.
  intros [Hj Hr Hs Hd Hl] Hother Hj' Hrel. split; cbn; [| |done|done|].
  - intros id' j. destruct (decide (id = id')) as [<-|Hne]; [rewrite lookup_insert_eq; by intros [= <-]|].
    rewrite lookup_insert_ne //. intros H. eapply job_ok_row; [by apply Hother|by apply Hj].
  - intros id' Hrow. destruct (decide (id = id')) as [<-|Hne]; [by rewrite lookup_insert_eq|].
    rewrite lookup_insert_ne //. apply Hr. by rewrite -Hother.
  - intros v x q Hv Hq. destruct (Hl v x q Hv Hq) as (j & l & Hjob & Hlq & Hfin).
    destruct (decide (id = v_order x)) as [->|Hne].
    + exists j', l. rewrite lookup_insert_eq. split_and!; [done..|]. intros H. destruct (Hrel H) as (j1 & Hj1 & Hr1).
      rewrite Hjob in Hj1. injection Hj1 as <-. auto.
    + exists j, l. by rewrite lookup_insert_ne.
Qed.

Lemma world_same_db w : w <| w_db := w_db w |> = w.
Proof. by destruct w. Qed.
Lemma world_same_ps w : w <| w_ps := w_ps w |> = w.
Proof. by destruct w. Qed.

Lemma winv_create id w : winv w → winv (create_order id w).
Proof.
  intros Hi. unfold create_order, db_create_order. destruct (w_db w !! id) eqn:Hd; [done|]. apply winv_job; [done| | |done].
  - intros id' Hne. by rewrite lookup_insert_ne.
  - split; cbn; [|intros [H%Exists_nil|H]; done]. eexists. rewrite lookup_insert_eq. split; [done|]. split; [set_solver|done].
Qed.

Lemma winv_start id sent w : winv w → winv (relay_start id sent w).
Proof.
  intros Hi. unfold relay_start. destruct (w_jobs w !! id) as [[[pc|] st []]|] eqn:Hj; try done.
  rewrite -{1}(world_same_db w). pose proof (wi_jobs _ Hi _ _ Hj) as [(r & Hr & Hs & _) Hf].
  apply winv_job; [done|done| |by destruct sent].
  destruct sent; (split; [exists r; split_and!; [done..|]|]); try done; cbn; intros [H|H]; try done.
  all: by discriminate (Hf (or_introl H)).
Qed.

Lemma winv_fails id w : winv w → winv (relay_fails id w).
Proof.
  intros Hi. unfold relay_fails. destruct (w_jobs w !! id) as [[pc st []]|] eqn:Hj; try done.
  rewrite -{1}(world_same_db w). pose proof (wi_jobs _ Hi _ _ Hj) as [Hr Hf]. apply winv_job; [done|done| |done].
  split; [done|]. intros [H|H]; [|done]. apply Hf. by left.
Qed.

Lemma winv_lost id k w : winv w → winv (replies_lost id k w).
Proof.
  intros Hi. unfold replies_lost. destruct (w_jobs w !! id) as [[pc st r]|] eqn:Hj; [|done].
  rewrite -{1}(world_same_db w). pose proof (wi_jobs _ Hi _ _ Hj) as [Hr Hf].
  apply winv_job; [done|done| |intros H; by eexists].
  split; [done|]. intros [H|H]; apply Hf; [left|by right]. cbn in *. rewrite -(take_drop k st) Exists_app. by left.
Qed.

Lemma winv_work id o sent w : winv w → recorded (AWork id o sent) w → winv (order_turn id o sent w).
Proof.
  intros Hi Hrec. unfold order_turn. cbn in Hrec. destruct (w_jobs w !! id) as [[[pc|] st r]|] eqn:Hj; try done.
  pose proof (process_order_job id o sent pc st r (w_db w) (wi_jobs _ Hi _ _ Hj)) as Hp.
  pose proof (process_order_other id) as Ho.
  destruct (process_order id o sent pc (w_db w)) as [[pc' d'] es] eqn:Hq. cbn [fst snd] in Hp.
  apply winv_job; [done| | |intros H; by eexists].
  - intros id' Hne. pose proof (Ho id' o sent pc (w_db w) Hne) as H. by rewrite Hq in H.
  - apply Hp. intros -> steps ->. by destruct st, r.
Qed.

(** *** Live updates *)

Lemma publish_queue id e p q l :
  ps_queues p !! q = Some l →
  ps_queues (publish id e p) !! q = Some (if bool_decide (q ∈ default ∅ (_subscribers p !! id)) then l ++ [e] else l).
Proof. intros Hq. unfold publish. cbn. by rewrite map_lookup_imap Hq. Qed.

Lemma winv_relay id w : winv w → winv (_relay id w).
Proof.
  intros Hi. unfold _relay. destruct (w_jobs w !! id) as [[pc [|e st] []]|] eqn:Hj; try done.
  pose proof Hi as [Hjobs Hrows Hsub Hdist Hlive]. split; cbn.
  - intros id' j. destruct (decide (id = id')) as [<-|Hne]; [|rewrite lookup_insert_ne //; apply Hjobs].
    rewrite lookup_insert_eq. intros [= <-]. pose proof (Hjobs _ _ Hj) as [Hr Hf]. split; [done|]. cbn in *.
    intros [H|H]; apply Hf; left; [by apply Exists_cons_tl|]. apply Exists_cons_hd. by destruct (final e).
  - intros id' Hrow. destruct (decide (id = id')) as [<-|Hne]; [by rewrite lookup_insert_eq|].
    rewrite lookup_insert_ne //. auto.
  - intros v x q Hv Hq. destruct (Hsub v x q Hv Hq) as [Hs [l Hl]]. split; [done|].
    rewrite (publish_queue _ _ _ _ _ Hl). eauto.
  - done.
  - intros v x q Hv Hq. destruct (Hlive v x q Hv Hq) as (j & l & Hjob & Hl & Hfin).
    rewrite (publish_queue _ _ _ _ _ Hl). destruct (decide (id = v_order x)) as [->|Hne].
    + rewrite lookup_insert_eq. eexists _, _. split_and!; [done..|]. cbn. intros H.
      destruct (Hsub v x q Hv) as [[Hs _] _]; [by rewrite /queue_of Hq|].
      rewrite bool_decide_eq_true_2 //. apply Exists_app. right. apply Exists_cons_hd. by destruct (final e).
    + rewrite lookup_insert_ne //. eexists _, _. split_and!; [done..|]. intros H. specialize (Hfin H).
      case_bool_decide; [|done]. apply Exists_app. by left.
Qed.

(** *** Viewers *)

(** One viewer moves; the others keep their subscriptions and their queues. *)
Lemma winv_viewer w ps' v x' :
  winv w →
  (∀ v' x q, v' ≠ v → w_viewers w !! v' = Some x → queue_of x = Some q →
     subscribed ps' (v_order x) q ∧ ps_queues ps' !! q = ps_queues (w_ps w) !! q ∧ queue_of x' ≠ Some q) →
  (∀ q, queue_of x' = Some q → subscribed ps' (v_order x') q ∧ is_Some (ps_queues ps' !! q)) →
  (∀ q, v_pc x' = VLive q → ∃ j l, w_jobs w !! v_order x' = Some j ∧ ps_queues ps' !! q = Some l ∧
      (j_relay j = RReturned → Exists (λ e, final e = true) l)) →
  winv (w <| w_ps := ps' |> <| w_viewers ::= <[v := x']> |>).
Proof.
  intros [Hjobs Hrows Hsub Hdist Hlive] Hother Hown Hl. split; cbn; [done|done| | |].
  - intros v' x q. destruct (decide (v = v')) as [<-|Hne]; [rewrite lookup_insert_eq; intros [= <-]; apply Hown|].
    rewrite lookup_insert_ne //. intros Hv Hq. destruct (Hother v' x q) as (H1 & H2 & _); [congruence|done..|].
    split; [done|]. rewrite H2. by eapply Hsub.
  - intros v1 v2 x1 x2 q. destruct (decide (v = v1)) as [<-|H1], (decide (v = v2)) as [<-|H2];
      rewrite ?lookup_insert_eq ?lookup_insert_ne //.
    + intros [= <-] Hv Hq1 Hq2. by destruct (Hother v2 x2 q) as (_ & _ & []); [congruence|..].
    + intros Hv [= <-] Hq1 Hq2. by destruct (Hother v1 x1 q) as (_ & _ & []); [congruence|..].
    + apply Hdist.
  - intros v' x q. destruct (decide (v = v')) as [<-|Hne]; [rewrite lookup_insert_eq; intros [= <-]; apply Hl|].
    rewrite lookup_insert_ne //. intros Hv Hq. destruct (Hother v' x q) as (_ & -> & _); [congruence|done|by rewrite /queue_of Hq|].
    by eapply Hlive.
Qed.

Lemma unsubscribe_keeps id id' q q' p : subscribed p id' q' → q' ≠ q → subscribed (unsubscribe id q p) id' q'.
Proof.
  intros [Hs Hn] Hne. unfold unsubscribe. destruct (_subscribers p !! id) as [subs|] eqn:Hid; [|done]. split; [|done]. cbn.
  destruct (decide (id = id')) as [<-|Hid']; case_bool_decide as He; cbn.
  - exfalso. rewrite Hid in Hs. cbn in Hs. set_solver.
  - rewrite lookup_insert_eq. rewrite Hid in Hs. cbn in *. set_solver.
  - by rewrite lookup_delete_ne.
  - by rewrite lookup_insert_ne.
Qed.

Lemma unsubscribe_queues id q p : ps_queues (unsubscribe id q p) = ps_queues p.
Proof. unfold unsubscribe. by destruct (_subscribers p !! id). Qed.

Lemma winv_ends v x x' q w :
  winv w → w_viewers w !! v = Some x → queue_of x = Some q → winv (viewer_ends v x' q w).
Proof.
  intros Hi Hv Hq. unfold viewer_ends. apply winv_viewer; [done| |done..].
  intros v' y q' Hne Hv' Hq'. assert (q' ≠ q) as Hqq by (intros ->; apply Hne; by eapply (wi_distinct _ Hi)).
  split_and!; [|by rewrite unsubscribe_queues|done]. apply unsubscribe_keeps; [|done]. by eapply (wi_subscribed _ Hi).
Qed.

Lemma winv_close v w : winv w → winv (viewer_close v w).
Proof.
  intros Hi. unfold viewer_close. destruct (w_viewers w !! v) as [x|] eqn:Hv; [|done].
  destruct (v_pc x) as [|q|q|] eqn:Hpc;
    [|by apply (winv_ends v x); [..|rewrite /queue_of Hpc]|by apply (winv_ends v x); [..|rewrite /queue_of Hpc]|done].
  rewrite -{1}(world_same_ps w). apply winv_viewer; [done| |done..].
  intros v' y q' Hne Hv' Hq'. split_and!; [|done..]. by eapply (wi_subscribed _ Hi).
Qed.

Lemma winv_open v id w : winv w → winv (stream_order v id w).
Proof.
  intros Hi. unfold stream_order. destruct (db_get_order id (w_db w)), (w_viewers w !! v); try done.
  rewrite -{1}(world_same_ps w). apply winv_viewer; [done| |done..].
  intros v' y q' Hne Hv' Hq'. split_and!; [|done..]. by eapply (wi_subscribed _ Hi).
Qed.

Lemma subscribe_keeps id p id' q : subscribed p id' q → subscribed (subscribe id p).2 id' q.
Proof.
  intros [Hs Hn]. split; [|cbn; lia]. cbn. destruct (decide (id = id')) as [<-|Hne]; [rewrite lookup_insert_eq; set_solver|].
  by rewrite lookup_insert_ne.
Qed.

Lemma winv_events v w : winv w → winv (events v w).
Proof.
  intros Hi. unfold events. destruct (w_viewers w !! v) as [x|] eqn:Hv; [|done].
  destruct (v_pc x) as [|q|q|] eqn:Hpc; [| | |done].
  - pose proof (subscribe_keeps (v_order x) (w_ps w)) as Hk. change (subscribe (v_order x) (w_ps w)) with
      (ps_next (w_ps w), (subscribe (v_order x) (w_ps w)).2). cbv iota. apply winv_viewer; [done| | |done].
    + intros v' y q' Hne Hv' Hq'. destruct (wi_subscribed _ Hi _ _ _ Hv' Hq') as [[H1 H2] _].
      split_and!; [by apply Hk| |intros [= <-]; lia]. cbn. rewrite lookup_insert_ne //. lia.
    + intros q' [= <-]. split; [split|]; cbn; [rewrite lookup_insert_eq; set_solver|lia|by rewrite lookup_insert_eq].
  - assert (queue_of x = Some q) as Hq by (by rewrite /queue_of Hpc).
    destruct (db_get_order (v_order x) (w_db w)) as [r|] eqn:Hr; [|by apply (winv_ends v x)].
    case_bool_decide as Hs; [|by apply (winv_ends v x)].
    rewrite -{1}(world_same_ps w). pose proof (wi_subscribed _ Hi _ _ _ Hv Hq) as [Hsub [l Hl]]. apply winv_viewer; [done| | |].
    + intros v' y q' Hne Hv' Hq'. split_and!; [by eapply (wi_subscribed _ Hi)|done|].
      intros [= <-]. apply Hne. by eapply (wi_distinct _ Hi).
    + intros q' [= <-]. eauto.
    + intros q' [= <-]. cbn. destruct (wi_rows _ Hi (v_order x)) as [j Hj]; [by eexists|]. exists j, l. split_and!; [done..|].
      intros Hret. destruct (wi_jobs _ Hi _ _ Hj) as [(r' & Hr' & _ & Hpc') Hf]. rewrite (Hf (or_intror Hret)) in Hpc'.
      unfold db_get_order in Hr. congruence.
  - assert (queue_of x = Some q) as Hq by (by rewrite /queue_of Hpc).
    destruct (wi_live _ Hi _ _ _ Hv Hpc) as (j & l & Hj & Hl & Hfin). rewrite Hl. destruct l as [|e l]; [done|].
    pose proof (wi_subscribed _ Hi _ _ _ Hv Hq) as [Hsub _].
    set (ps := (w_ps w) <| ps_queues ::= <[q := l]> |>).
    assert (∀ v' y q', v' ≠ v → w_viewers w !! v' = Some y → queue_of y = Some q' →
      q' ≠ q ∧ subscribed ps (v_order y) q' ∧ ps_queues ps !! q' = ps_queues (w_ps w) !! q') as Hothers.
    { intros v' y q' Hne Hv' Hq'. assert (q' ≠ q) as Hqq by (intros ->; apply Hne; by eapply (wi_distinct _ Hi)).
      split_and!; [done|by eapply (wi_subscribed _ Hi)|]. cbn. by rewrite lookup_insert_ne. }
    destruct (final e) eqn:He.
    + apply (winv_viewer w (unsubscribe (v_order x) q ps)); [done| |done..]. intros v' y q' Hne Hv' Hq'.
      destruct (Hothers v' y q' Hne Hv' Hq') as (Hqq & Hs & Hl'). rewrite unsubscribe_queues. split_and!; [|done..].
      by apply unsubscribe_keeps.
    + apply (winv_viewer w ps); [done| | |].
      * intros v' y q' Hne Hv' Hq'. destruct (Hothers v' y q' Hne Hv' Hq') as (Hqq & Hs & Hl').
        split_and!; [done..|]. rewrite /queue_of /= Hpc. congruence.
      * intros q'. rewrite /queue_of /= Hpc. intros [= <-]. rewrite lookup_insert_eq. eauto.
      * intros q'. cbn. rewrite Hpc. intros [= <-]. rewrite lookup_insert_eq. exists j, l. split_and!; [done..|].
        intros [H|H]%Hfin%Exists_cons; [congruence|done].
Qed.

Lemma winv_reachable w : rtc os_step start_world w → winv w.
Proof.
  apply (rtc_ind_r (λ w, winv w)).
  - split; cbn; intros *; rewrite ?lookup_empty //.
  - intros w1 w2 _ (a & Hrec & ->) Hi. destruct a; cbn [act];
      eauto using winv_create, winv_start, winv_work, winv_relay, winv_fails, winv_lost, winv_open, winv_events, winv_close.
Qed.

(** *** To the end *)

Definition told (w : world) (v : nat) : Prop :=
  ∃ x e, w_viewers w !! v = Some x ∧ v_pc x = VEnded ∧ list.last (v_out x) = Some e ∧ final e = true.

Lemma live_told v l w x q :
  w_viewers w !! v = Some x → v_pc x = VLive q → ps_queues (w_ps w) !! q = Some l → Exists (λ e, final e = true) l →
  ∃ n, told (acts (replicate n (AView v)) w) v.
Proof.
  revert w x. induction l as [|e l IH]; intros w x Hv Hpc Hl Hfin; [by apply Exists_nil in Hfin|].
  assert (events v w = (let w := w <| w_ps ::= λ p, p <| ps_queues ::= <[q := l]> |> |> in
                        let x := x <| v_out ::= λ l, l ++ [e] |> in
                        if final e then viewer_ends v x q w else w <| w_viewers ::= <[v := x]> |>)) as Hstep.
  { unfold events. by rewrite Hv Hpc Hl. }
  cbn zeta in Hstep. destruct (final e) eqn:He.
  - exists 1. cbn [acts foldl replicate act]. unfold acts. cbn [replicate foldl act]. rewrite Hstep. eexists _, e. cbn.
    rewrite lookup_insert_eq. split_and!; [done..|by rewrite last_snoc|done].
  - edestruct (IH (events v w)) as [n Hn]; [rewrite Hstep; cbn; by rewrite lookup_insert_eq|done| | |].
    + rewrite Hstep. cbn. by rewrite lookup_insert_eq.
    + apply Exists_cons in Hfin as [?|?]; [congruence|done].
    + by exists (S n).
Qed.

Lemma read_told v w x q j :
  winv w → w_viewers w !! v = Some x → v_pc x = VRead q → w_jobs w !! v_order x = Some j → j_relay j = RReturned →
  told (events v w) v.
Proof.
  intros Hi Hv Hpc Hj Hret. destruct (wi_jobs _ Hi _ _ Hj) as [(r & Hr & Hs & Hend) Hf].
  rewrite (Hf (or_intror Hret)) in Hend. unfold events, db_get_order. rewrite Hv Hpc Hr bool_decide_eq_false_2 //.
  eexists _, _. cbn. rewrite lookup_insert_eq. split_and!; [done..|by rewrite last_snoc|by apply (statuses_end (r_status r))].
Qed.


(** ** Where the parts do not fit *)

Lemma run_order_row id l d :
  d !! id = Some (Row "en_progreso" []) →
  (run_order id l (for_step 0 []) d).1.2 !! id = (run_order id l (for_step 0 []) {[id := Row "en_progreso" []]}).1.2 !! id.
Proof.
  intros Hd. assert (∀ l pc d d', d !! id = d' !! id → (run_order id l pc d).1.2 !! id = (run_order id l pc d').1.2 !! id) as H;
    [|apply H; by rewrite Hd lookup_singleton_eq].
  clear. induction l as [|[o sent] l IH]; intros pc d d' Hd; [done|]. rewrite !run_order_cons. cbn [fst snd].
  assert ((process_order id o sent pc d).1.1 = (process_order id o sent pc d').1.1) as ->
    by (destruct pc, o; cbn; by repeat case_match).
  apply IH. destruct pc, o; cbn; repeat case_match; simplify_eq; cbn; rewrite ?lookup_alter_eq ?Hd //.
Qed.

(** A gap: an update that cannot be sent, because the application is not
    connected just then, is not just a lost update.  A completed order whose
    final reply fails is marked as failed, and one whose first update fails is
    not carried on. *)
Theorem unsent_reply_fails_order id d :
  d !! id = Some (Row "en_progreso" []) →
  (let q := run_order id (replicate 13 (Wrote, true)) (for_step 0 []) d in
   q.1.1 = WFinal STEPS ∧ q.1.2 !! id = Some (Row "completado" STEPS)) ∧
  (let q := run_order id (replicate 13 (Wrote, true) ++ replicate 3 (Wrote, false)) (for_step 0 []) d in
   q.1.1 = WRaised ∧ q.1.2 !! id = Some (Row "error" STEPS)) ∧
  (let q := run_order id (replicate 2 (Wrote, true) ++ replicate 3 (Wrote, false)) (for_step 0 []) d in
   q.1.1 = WRaised ∧ q.1.2 !! id = Some (Row "error" (take 1 STEPS))).
Proof.
  intros Hd. cbn zeta. rewrite !(run_order_row id _ d Hd). split_and!; try done.
  all: cbn; repeat rewrite ?lookup_alter_eq ?lookup_singleton_eq; done.
Qed.

(** A viewer that waits on an empty queue for an order that is over. *)
Record stuck (id : string) (v q : nat) (w : world) : Prop := Stuck {
  sk_viewer : ∃ x, w_viewers w !! v = Some x ∧ v_pc x = VLive q;
  sk_queue : ps_queues (w_ps w) !! q = Some [] ∧ q < ps_next (w_ps w);
  sk_subs : ∀ id', id' ≠ id → q ∉ default ∅ (_subscribers (w_ps w) !! id');
  sk_relay : ∃ j, w_jobs w !! id = Some j ∧ j_relay j = RReturned;
  sk_row : is_Some (w_db w !! id)
}.

Lemma stuck_jobs id v q w d' id' j' :
  stuck id v q w → is_Some (d' !! id) → (id = id' → j_relay j' = RReturned) →
  stuck id v q (w <| w_db := d' |> <| w_jobs ::= <[id' := j']> |>).
Proof.
  intros [Hx Hq Hs (j & Hj & Hr) Hrow] Hd' Hrel. split; try done. cbn. destruct (decide (id' = id)) as [->|Hne].
  - rewrite lookup_insert_eq. eauto.
  - rewrite lookup_insert_ne //. eauto.
Qed.

Lemma process_order_keeps_row id o sent pc d id' : is_Some (d !! id') → is_Some ((process_order id o sent pc d).1.2 !! id').
Proof.
  intros H. destruct pc, o; cbn; repeat case_match; simplify_eq; cbn; unfold mark_status, append_step; rewrite ?lookup_alter_is_Some //.
Qed.

(** The part of the subscriptions that keeps a viewer waiting. *)
Definition quiet_queue (id : string) (q : nat) (p : pubsub) : Prop :=
  ps_queues p !! q = Some [] ∧ q < ps_next p ∧ ∀ id', id' ≠ id → q ∉ default ∅ (_subscribers p !! id').

Lemma stuck_viewer id v q w ps' v' x' :
  stuck id v q w → v' ≠ v → quiet_queue id q ps' → stuck id v q (w <| w_ps := ps' |> <| w_viewers ::= <[v' := x']> |>).
Proof. intros [(x & Hx & Hpc) _ _ Hj Hr] Hne (H1 & H2 & H3). split; try done. exists x. cbn. by rewrite lookup_insert_ne. Qed.

Lemma stuck_quiet id v q w : stuck id v q w → quiet_queue id q (w_ps w).
Proof. by intros [_ [H1 H2] H3 _ _]. Qed.

Lemma quiet_subscribe id q p id' : quiet_queue id q p → quiet_queue id q (subscribe id' p).2.
Proof.
  intros (H1 & H2 & H3). split_and!; cbn; [rewrite lookup_insert_ne //; lia|lia|]. intros id1 Hne.
  destruct (decide (id' = id1)) as [->|Hid]; [|rewrite lookup_insert_ne //; auto].
  rewrite lookup_insert_eq. cbn. specialize (H3 id1 Hne). rewrite elem_of_union elem_of_singleton. intros [->|?]; [lia|done].
Qed.

Lemma quiet_unsubscribe id q p id' q' : quiet_queue id q p → quiet_queue id q (unsubscribe id' q' p).
Proof.
  intros (H1 & H2 & H3). unfold unsubscribe. destruct (_subscribers p !! id') as [subs|] eqn:Hs; [|done].
  split_and!; cbn; [done|done|]. intros id1 Hne. destruct (decide (id' = id1)) as [->|Hid].
  - specialize (H3 id1 Hne). rewrite Hs in H3. case_bool_decide; [by rewrite lookup_delete_eq|].
    rewrite lookup_insert_eq. cbn in *. set_solver.
  - case_bool_decide; rewrite ?lookup_delete_ne ?lookup_insert_ne //; auto.
Qed.

Lemma quiet_take id q p q' e l : quiet_queue id q p → ps_queues p !! q' = Some (e :: l) → quiet_queue id q (p <| ps_queues ::= <[q' := l]> |>).
Proof.
  intros (H1 & H2 & H3) Hq. split_and!; cbn; [|done..]. rewrite lookup_insert_ne //. intros ->. congruence.
Qed.

Lemma stuck_events id v q w v' : stuck id v q w → stuck id v q (events v' w).
Proof.
  intros Hs. pose proof (stuck_quiet _ _ _ _ Hs) as Hq. unfold events.
  destruct (w_viewers w !! v') as [x|] eqn:Hv; [|done]. destruct (decide (v' = v)) as [->|Hne].
  { destruct (sk_viewer _ _ _ _ Hs) as (x' & Hx & Hpc). rewrite Hv in Hx. injection Hx as <-. rewrite Hpc.
    destruct Hq as [H1 _]. by rewrite H1. }
  destruct (v_pc x) as [|q'|q'|]; [| | |done].
  - change (subscribe (v_order x) (w_ps w)) with (ps_next (w_ps w), (subscribe (v_order x) (w_ps w)).2). cbv iota.
    apply stuck_viewer; [done..|]. by apply quiet_subscribe.
  - assert (∀ y, stuck id v q (viewer_ends v' y q' w)) as He by (intros y; apply stuck_viewer; [done..|by apply quiet_unsubscribe]).
    destruct (db_get_order _ _); [|done]. case_bool_decide; [|done]. rewrite -{1}(world_same_ps w). by apply stuck_viewer.
  - destruct (ps_queues (w_ps w) !! q') as [[|e l]|] eqn:Hl; try done. apply (quiet_take id q _ q' e l) in Hq; [|done].
    destruct (final e); [|by apply (stuck_viewer id v q w ((w_ps w) <| ps_queues ::= <[q' := l]> |>))].
    apply (stuck_viewer id v q w (unsubscribe (v_order x) q' ((w_ps w) <| ps_queues ::= <[q' := l]> |>))); [done..|].
    by apply quiet_unsubscribe.
Qed.

Lemma stuck_relay id v q w id' : stuck id v q w → stuck id v q (_relay id' w).
Proof.
  intros Hs. pose proof Hs as [Hx [H1 H2] H3 (j & Hj & Hr) Hrow]. unfold _relay.
  destruct (w_jobs w !! id') as [[pc [|e st] []]|] eqn:Hid; try done.
  assert (id' ≠ id) as Hne by (intros ->; rewrite Hj in Hid; injection Hid as ->; done).
  split; cbn; [done| |done| |done].
  - split; [|done]. rewrite (publish_queue _ _ _ _ _ H1) bool_decide_eq_false_2 //. by apply H3.
  - exists j. by rewrite lookup_insert_ne.
Qed.

Lemma stuck_act id v q w a : stuck id v q w → a ≠ AClose v → stuck id v q (act a w).
Proof.
  intros Hs Ha. pose proof Hs as [(x & Hx & Hpc) _ _ (j & Hj & Hr) Hrow].
  destruct a as [id'|id' sent|id' o sent|id'|id'|id' k|v' id'|v'|v']; cbn [act].
  - unfold create_order, db_create_order. destruct (w_db w !! id') eqn:Hd; [done|].
    assert (id' ≠ id) by (intros ->; rewrite Hd in Hrow; by destruct Hrow). apply stuck_jobs; [done|by rewrite lookup_insert_ne|done].
  - unfold relay_start. destruct (w_jobs w !! id') as [[[pc|] st []]|] eqn:Hid; try done.
    rewrite -{1}(world_same_db w). apply stuck_jobs; [done..|]. intros <-. rewrite Hj in Hid. by injection Hid as ->.
  - unfold order_turn. destruct (w_jobs w !! id') as [[[pc|] st r]|] eqn:Hid; try done.
    pose proof (process_order_keeps_row id' o sent pc (w_db w) id Hrow) as Hk.
    destruct (process_order id' o sent pc (w_db w)) as [[pc' d'] es]. apply stuck_jobs; [done..|].
    intros <-. rewrite Hj in Hid. by injection Hid as ->.
  - by apply stuck_relay.
  - unfold relay_fails. destruct (w_jobs w !! id') as [[pc st []]|] eqn:Hid; try done.
    rewrite -{1}(world_same_db w). apply stuck_jobs; [done..|]. intros <-. rewrite Hj in Hid. by injection Hid as ->.
  - unfold replies_lost. destruct (w_jobs w !! id') as [[pc st r]|] eqn:Hid; [|done].
    rewrite -{1}(world_same_db w). apply stuck_jobs; [done..|]. intros <-. rewrite Hj in Hid. by injection Hid as ->.
  - unfold stream_order. destruct (db_get_order id' (w_db w)), (w_viewers w !! v') eqn:Hv; try done.
    rewrite -{1}(world_same_ps w). apply stuck_viewer; [done|congruence|by apply (stuck_quiet _ v)].
  - by apply stuck_events.
  - unfold viewer_close. assert (v' ≠ v) as Hne by congruence. destruct (w_viewers w !! v') as [y|] eqn:Hv; [|done].
    pose proof (stuck_quiet _ _ _ _ Hs) as Hq. destruct (v_pc y) as [|q'|q'|]; [| | |done].
    + rewrite -{1}(world_same_ps w). by apply stuck_viewer.
    + apply stuck_viewer; [done..|by apply quiet_unsubscribe].
    + apply stuck_viewer; [done..|by apply quiet_unsubscribe].
Qed.

(** The database is down for the order: its first write fails and so does
    recording the error; the update [error] goes out. *)
Definition unrecorded : list action :=
  [ACreate "o"; AStart "o" true; AWork "o" Wrote true; AWork "o" Failed true; AWork "o" Failed true; AWork "o" Failed true;
   ARelay "o"; AOpen 0 "o"; AView 0; AView 0].

(** A gap: when the error of an order could not be recorded, a viewer who
    comes after its final update reads [en_progreso] and waits: nothing that
    anyone does, short of the browser going away, ever moves it. *)
Theorem late_viewer_waits l :
  AClose 0 ∉ l →
  let w := acts unrecorded start_world in
  (∃ j, w_jobs w !! "o" = Some j ∧ j_relay j = RReturned) ∧
  ∃ x q, w_viewers (acts l w) !! 0 = Some x ∧ v_pc x = VLive q ∧ ps_queues (w_ps (acts l w)) !! q = Some [].
Proof.
  intros Hl. cbn zeta. assert (stuck "o" 0 0 (acts unrecorded start_world)) as Hs.
  { split; [by eexists|split; [done|vm_compute; lia]| |by eexists|by eexists].
    intros id' Hne. change (_subscribers (w_ps (acts unrecorded start_world))) with ({["o" := {[0]}]} : gmap string (gset nat)).
    rewrite lookup_singleton_ne //. }
  split; [apply Hs|]. revert Hs. generalize (acts unrecorded start_world). revert Hl. induction l as [|a l IH]; intros Hl w Hs.
  - destruct Hs as [(x & Hx & Hpc) [Hq _] _ _ _]. by exists x, 0.
  - apply not_elem_of_cons in Hl as [Ha Hl]. apply (IH Hl (act a w)). by apply stuck_act.
Qed.

(** ** Concrete runs *)

Definition os_row : db := {["o" := Row "en_progreso" []]}.

(** The second step cannot be written. *)
Definition os_trouble : list (db_outcome * bool) := replicate 4 (Wrote, true) ++ [(Lost, true)] ++ replicate 11 (Wrote, true).

Lemma process_order_outcome_witness :
  ∃ r m e, (run_order "o" os_trouble (for_step 0 []) os_row).1.2 !! "o" = Some r ∧
    (run_order "o" os_trouble (for_step 0 []) os_row).2 = progress m ++ [e] ∧ final e = true ∧ ev_status e = "error".
Proof.
  pose proof (process_order_outcome "o" os_trouble os_row eq_refl ltac:(vm_compute; lia)) as H.
  destruct (run_order "o" os_trouble (for_step 0 []) os_row) as [[pc d'] es] eqn:Hrun.
  destruct H as (r & Hr & _ & [(Hpc & _)|(Hpc & m & e & Hes & Hf & _)]); vm_compute in Hrun; injection Hrun as <- <- <-; [done|].
  exists r, m, e. split; [done|split; [exact Hes|split; [done|]]].
  destruct m as [|[|m]]; [done| |by destruct m]. injection Hes as <-. reflexivity.
Defined.

Lemma process_order_completes_witness :
  ∃ d', (run_order "o" (replicate 16 (Wrote, true)) (for_step 0 []) os_row).1.2 = d' ∧ d' !! "o" = Some (Row "completado" STEPS).
Proof.
  pose proof (process_order_completes "o" os_row eq_refl) as H.
  destruct (run_order "o" (replicate 16 (Wrote, true)) (for_step 0 []) os_row) as [[pc d'] es]. exists d'. destruct H as (_ & H & _). split; [reflexivity|exact H].
Defined.

Lemma unsent_reply_fails_order_witness :
  (run_order "o" (replicate 13 (Wrote, true) ++ replicate 3 (Wrote, false)) (for_step 0 []) os_row).1.2 !! "o" = Some (Row "error" STEPS).
Proof. apply (unsent_reply_fails_order "o" os_row). reflexivity. Defined.

Lemma late_viewer_waits_witness :
  ∃ x q, w_viewers (acts [AView 0; ARelay "o"; AView 0] (acts unrecorded start_world)) !! 0 = Some x ∧ v_pc x = VLive q.
Proof.
  destruct (late_viewer_waits [AView 0; ARelay "o"; AView 0]) as [_ (x & q & Hx & Hpc & _)].
  - by apply (bool_decide_unpack _).
  - exists x, q. split; [exact Hx|exact Hpc].
Defined.

(** One viewer follows the order, its first update fails and the error is
    recorded; another comes as the final update is handed on. *)
Definition os_run : list action :=
  [ACreate "o"; AStart "o" true; AOpen 0 "o"; AView 0; AView 0; AWork "o" Wrote true; AWork "o" Wrote true; AWork "o" Wrote false;
   AOpen 1 "o"; AWork "o" Wrote true; AWork "o" Wrote true; ARelay "o"].

Fixpoint recorded_all (l : list action) (w : world) : Prop :=
  match l with [] => True | a :: l => recorded a w ∧ recorded_all l (act a w) end.

Lemma os_run_steps l w : recorded_all l w → rtc os_step w (acts l w).
Proof.
  revert w. induction l as [|a l IH]; intros w; [done|]. intros [Ha Hl]. eapply rtc_l; [by exists a|]. by apply IH.
Qed.

