(* ===== verification/OrderStreamMain.v ===== *)
(** * The nodes of the order stream

    [main] of [src/examples/order_stream/worker/main.py] and [lifespan] of
    [app/main.py], on the library's operations: what is there when the two
    have started. *)

From S2P Require Import Prelude Values NodeId Actors State PeerEvents Asyncio Node NodeProps Links.
From S2P Require Import Supervisor SupervisorProps Refs Pool PoolLife Apps.

Definition POOL_NAME : string := "order_pool".

Section order_stream_main.
Context {codec : PayloadCodec}.

(** [main] of the worker; [process_order] is an [async def]. *)
Definition order_worker_main (bound : core_start) (refuses : string → pyval → option exn) (MAX_PARALLEL : nat) :
    M st (pool * pool_ref) :=
  start bound refuses ;;
  let! sup := new_supervisor OneForOne 3 5000 in
  let! b := pool_build (PoolSpawn sup (HFunction true) MAX_PARALLEL POOL_NAME None None None None) in
  ret b.1.

(** [lifespan] of the app up to its [yield], and the rest of it; how the
    attempts to connect end is given. *)
Definition order_app_start (bound : core_start) (refuses : string → pyval → option exn)
    (worker_node : string) (ends : nat → exn + unit) : M st unit :=
  start bound refuses ;;
  lift (order_app_connect worker_node ends) ;; ret tt.
Definition order_app_stop_begin : M st (list tid) := stop_begin.
Definition order_app_stop_end : M st unit := stop_end.

Lemma pool_name_not_worker i : worker_name POOL_NAME i ≠ POOL_NAME.
Proof. unfold worker_name, POOL_NAME. cbn. discriminate. Qed.

(** The worker is ready when its [main] waits: on a node that could be bound,
    the pool is there under its name with as many workers as were asked for,
    each about to start its loop, orders that come for it are queued in their
    order, and nothing else is registered. *)
Theorem order_worker_ready id refuses n :
  ∃ p r s, order_worker_main (Bound id) refuses n (Node_init id None) = (inr (p, r), s) ∧
    running s ∧ local_id s = id ∧ pr_name r = POOL_NAME ∧ pool_size r = n ∧ p_states p = replicate n WUnstarted ∧
    (∀ name, is_Some (_mailboxes s !! name) → name = POOL_NAME ∨ ∃ k, k < n ∧ name = worker_name POOL_NAME k) ∧
    (∃ q, _mailboxes s !! POOL_NAME = Some q ∧ queues s !! q = Some (Queue [] 0)) ∧
    (∀ k, k < n → ∃ q, _mailboxes s !! worker_name POOL_NAME k = Some q ∧ queues s !! q = Some (Queue [start_message id] 0)) ∧
    s_children <$> sups s !! 0 = Some (pr_dispatcher r :: pr_workers r).
Proof.
  set (s0 := exec (start (Bound id) refuses ;; new_supervisor OneForOne 3 5000) (Node_init id None)).
  set (x := PoolSpawn 0 (HFunction true) n POOL_NAME None None None None).
  assert (running s0) as Hrun by (eexists; split; reflexivity).
  pose proof (spawn_pool_ready x s0 eq_refl) as H. cbn [check_executor ps_executor x] in H. cbv zeta in H.
  destruct H as (p & r & x' & s & Hb & _ & Hr & Hp & _ & _ & Hg & Hd & Hw); [done|done|intros i _; split; [apply pool_name_not_worker|done]|].
  cbn [ps_name ps_n_workers ps_supervisor x] in *. exists p, r, s. split_and!.
  - unfold order_worker_main. cbn [bind]. change (start (Bound id) refuses (Node_init id None)) with (inr tt : exn + unit, exec (start (Bound id) refuses) (Node_init id None)).
    cbv beta iota. change (new_supervisor OneForOne 3 5000 _) with (inr 0 : exn + sid, s0). cbv beta iota. fold x. by rewrite Hb.
  - apply Hg.
  - by rewrite (gr_local _ _ _ _ _ Hg).
  - by rewrite Hr.
  - rewrite Hr /pool_size /=. by rewrite length_fmap length_seq.
  - done.
  - intros name [q Hq]. destruct (decide (name ∈ POOL_NAME :: (worker_name POOL_NAME <$> seq 0 n))) as [Hin|Hin].
    + apply elem_of_cons in Hin as [?|(k & -> & Hk%elem_of_seq)%list_elem_of_fmap]; [by left|right]. exists k. split; [lia|done].
    + rewrite (gr_names _ _ _ _ _ Hg _ Hin) in Hq. done.
  - destruct Hd as [N1 N2 _ _]. eauto.
  - intros k Hk. destruct (Hw k Hk) as [N1 N2 _ _]. eauto.
  - rewrite (gr_sups _ _ _ _ _ Hg) lookup_alter_eq. by rewrite Hr.
Qed.

(** The app comes up exactly when the worker accepts one of the thirty
    attempts. *)
Lemma order_app_starts id refuses worker_node ends :
  (order_app_start (Bound id) refuses worker_node ends (Node_init id None)).1 = inr tt ↔
  ∃ k, k < 30 ∧ ends k = inr tt ∧ ∀ j, j < k → refused (ends j).
Proof.
  unfold order_app_start. cbn [bind lift]. change (start (Bound id) refuses (Node_init id None)) with (inr tt : exn + unit, exec (start (Bound id) refuses) (Node_init id None)).
  cbv beta iota. unfold order_app_connect. set (failed := RuntimeError _). split.
  - pose proof (connect_loop_spec failed 30 ends 0) as Hs. destruct (connect_loop failed 30 ends 0) as [e|k]; [done|]. intros _.
    destruct Hs as (i & -> & Hi & He & Hall). exists (0 + i). by split_and!.
  - intros (k & Hk & He & Hall). by rewrite (connect_loop_succeeds failed 30 ends k).
Qed.

End order_stream_main.
