(* ===== verification/ClusterSupervision.v ===== *)
(** * The cluster supervision example

    [src/examples/cluster_supervision/]: a hub ([hub/main.py]) that links and
    monitors the [task_worker] of every worker node, and the worker
    ([worker/main.py]) that joins a group, takes a cluster-wide name, does a
    few tasks and then fails for good.  The handlers are the code's, on top of
    the library's own operations; the theorems follow one failure from the
    handler that raises to what the hub sees of it on four different ways. *)

From stdpp Require Import pretty sorting.
From S2P Require Import Prelude Values NodeId Actors State PeerEvents Asyncio Node NodeProps Links.
From S2P Require Import Monitors Groups Registry Discovery Supervisor Setup SupervisorProps Refs Runtime.

Definition TASK_WORKER : string := "task_worker".
Definition WORKERS_GROUP : string := "workers".
Definition PRIMARY_NAME : string := "task_worker_primary".

(** ** The worker *)

(** The node and the actor's instance. *)
Record worker := Worker { w_node : st; w_count : nat }.

#[export] Instance worker_settable : Settable worker := λ r, Worker (w_node r) (w_count r).

Definition on_node {A} (m : M st A) : M worker A :=
  λ w, let '(r, s) := m (w_node w) in (r, w <| w_node := s |>).

Definition permanent_failure (count : nat) : exn :=
  RuntimeError ("fallo permanente tras " +:+ pretty count +:+ " tareas").

(** [TaskWorker.receive]; it never suspends. *)
Definition task_worker_receive (CRASH_AFTER : Z) (PRIMARY : bool) : M worker unit :=
  let! w := get in
  (if bool_decide (w_count w = 0) then
     on_node (join_group WORKERS_GROUP None (Some TASK_WORKER)) ;;
     if PRIMARY then on_node (register_name PRIMARY_NAME None (Some TASK_WORKER)) else ret tt
   else ret tt) ;;
  modify (λ w, w <| w_count ::= S |>) ;;
  let! w := get in
  if bool_decide (CRASH_AFTER < Z.of_nat (w_count w))%Z then raise (permanent_failure (w_count w)) else ret tt.

Section cluster_supervision.
Context {codec : PayloadCodec}.

(** [main] of the worker up to its first sleep; how the core starts is given. *)
Definition worker_main (bound : core_start) (refuses : string → pyval → option exn) : M st cid :=
  start bound refuses ;;
  let! sup := new_supervisor OneForOne 0 5000 in
  register_links sup ;; register_monitors sup ;; register_groups sup ;; register_registry sup ;;
  spawn sup "TaskWorker" (plain_actor TASK_WORKER).

(** The driver [d] of the actor takes its oldest message, runs the handler and
    goes on with how it ended. *)
Definition task_worker_turn (CRASH_AFTER : Z) (PRIMARY : bool) (q : qid) (d : tid) : M worker unit :=
  let! w := get in
  match queues (w_node w) !! q ≫= get_nowait with
  | None => ret tt
  | Some _ =>
      let! r := (λ w, let '(r, w') := task_worker_receive CRASH_AFTER PRIMARY w in (inr r, w')) in
      on_node (step_driver d (match r with inr _ => HDone | inl e => HRaise e end))
  end.

(** The tasks that are scheduled, each run once. *)
Definition run_jobs : M st unit :=
  let! s := get in for_each (jobs s) (λ _, run_job).

(** The last part of [main]: the tasks sent to the own actor, one per second;
    [pause] is what the event loop does in that second.  How many were taken. *)
Fixpoint worker_feed (n : nat) (pause : M worker unit) : M worker nat :=
  match n with
  | 0 => ret 0
  | S n =>
      let! sent := try_except (on_node (ref_send (ActorRef TASK_WORKER) (PDict []) None None) ;; ret true)
                     (λ e, if bool_decide (exn_type e = "ValueError") then ret false else raise e) in
      if (sent : bool) then pause ;; (let! k := worker_feed n pause in ret (S k)) else ret 0
  end.

(** In the second between two sends the driver handles the message, the
    child's task notices how it ended, and the scheduled tasks run. *)
Definition worker_pause (CRASH_AFTER : Z) (PRIMARY : bool) (q : qid) (t d : tid) (now : Z) : M worker unit :=
  task_worker_turn CRASH_AFTER PRIMARY q d ;; on_node (step_child t None now ;; run_jobs).

(** ** The hub *)

(** [msg.actor] of one of the library's dataclasses. *)
Definition getattr (v : pyval) (k : string) : exn + pyval :=
  match v with
  | PObj _ fields => match assoc k fields with Some x => inr x | None => inl (Exn "AttributeError" k) end
  | _ => inl (Exn "AttributeError" k)
  end.

(** The line that [on_exit] and [on_down] print. *)
Definition signal_line (prefix : string) (msg : pyval) : exn + string :=
  match getattr msg "actor", getattr msg "reason" with
  | inr (PStr a), inr (PStr r) => inr (prefix +:+ py_repr a +:+ " salió con motivo " +:+ py_repr r)
  | inl e, _ | _, inl e => inl e
  | _, _ => inl (TypeError "repr")
  end.

Definition on_exit (msg : pyval) : exn + string := signal_line "[hub] EXIT recibido (link): " msg.
Definition on_down (msg : pyval) : exn + string := signal_line "[hub] DOWN recibido (monitor): " msg.

(** [Watcher] as the decorators see it. *)
Definition Watcher : pyclass :=
  PyClass "Watcher" [("__init__", None); ("on_down", Some (OnSpec (Some "lapinbeam.monitors.Down") false));
                     ("on_exit", Some (OnSpec (Some "lapinbeam.links.Exit") false));
                     ("on_setup", Some (OnSpec None true))].

Definition WATCHER : string := "watcher".

Definition watcher_meta : actor_meta :=
  ActorMeta WATCHER {["lapinbeam.monitors.Down" := "on_down"; "lapinbeam.links.Exit" := "on_exit"]} (Some "on_setup").

(** [Watcher.on_setup]: the worker nodes, each with the uuid that [monitor]
    draws for it.  An exception of a send leaves the loop. *)
Definition on_setup (worker_ids : list (string * string)) : M st unit :=
  trap_exit (Some WATCHER) true ;;
  for_each worker_ids (λ pu,
    link (Some WATCHER) (RemoteRef pu.1 TASK_WORKER) ;;
    monitor (Some WATCHER) pu.2 (RemoteRef pu.1 TASK_WORKER) ;; ret tt).

(** [main] of the hub: the node with the four features ... *)
Definition hub_start (bound : core_start) (refuses : string → pyval → option exn) : M st sid :=
  start bound refuses ;;
  let! sup := new_supervisor OneForOne 3 5000 in
  register_links sup ;; register_monitors sup ;; register_groups sup ;; register_registry sup ;;
  ret sup.

(** ... then, once connected, the nested tree with the watcher in it. *)
Definition hub_watch (sup : sid) : M st cid :=
  spawn_supervisor sup "watch_tree" [BSpawn "Watcher" watcher_meta] "one_for_one" 3 5000.

(** [f"{m.peer_id}/{m.actor_name}" if hasattr(m, "peer_id") else ...] *)
Definition ref_label (s : st) (m : actor_ref) : string :=
  match m with
  | RemoteRef peer_id actor_name => remote_label peer_id actor_name
  | ActorRef name => remote_label (local_id s) name
  end.

(** What the hub prints every three seconds. *)
Definition hub_members (s : st) : list string := merge_sort String.le (ref_label s <$> members s WORKERS_GROUP).
Definition hub_primary (s : st) : option string := ref_label s <$> whereis_name s PRIMARY_NAME.

End cluster_supervision.
