(* ===== verification/ClusterSupervisionProps.v ===== *)
(** * One failure, seen across the cluster

    The life of the worker of [ClusterSupervision] from its first task to the
    one it fails on, the notices that its node sends because of it, and what
    they are for the hub in whatever order its reserved actors take them. *)

From stdpp Require Import pretty sorting.
From S2P Require Import Prelude Values NodeId Actors State PeerEvents Asyncio Node NodeProps Links.
From S2P Require Import Monitors Groups Registry Discovery Supervisor Setup SupervisorProps Refs Runtime ClusterSupervision.

(** ** Lists with one element *)

Lemma NoDup_singleton_ext {A} (x : A) (l : list A) : NoDup l → (∀ y, y ∈ l ↔ y = x) → l = [x].
Proof.
  intros Hnd Hl. apply Permutation_singleton_r, NoDup_Permutation; [done|apply list.NoDup_singleton|].
  intros y. by rewrite Hl list_elem_of_singleton.
Qed.

Lemma NoDup_groups_of s m : NoDup (groups_of s m).
Proof.
  unfold groups_of. apply (NoDup_fmap_2_strong fst); [|apply list.NoDup_filter, NoDup_map_to_list].
  intros [g1 ms1] [g2 ms2] [_ H1]%list_elem_of_filter [_ H2]%list_elem_of_filter. simpl. intros <-.
  apply elem_of_map_to_list in H1, H2. by simplify_eq.
Qed.

Lemma NoDup_names_of s m : NoDup (names_of s m).
Proof.
  unfold names_of. apply (NoDup_fmap_2_strong fst); [|apply list.NoDup_filter, NoDup_map_to_list].
  intros [g1 ms1] [g2 ms2] [_ H1]%list_elem_of_filter [_ H2]%list_elem_of_filter. simpl. intros <-.
  apply elem_of_map_to_list in H1, H2. by simplify_eq.
Qed.

Section worker_props.
Context {codec : PayloadCodec} (W H ref : string).

Definition me : member := (W, TASK_WORKER).

(** ** What a worker tells the hub *)

Inductive notice := NJoin | NClaim | NLeave | NRelease | NExit (reason : string) | NDown (reason : string).

Definition notice_actor (n : notice) : string :=
  match n with
  | NJoin | NLeave => GROUPS_ACTOR
  | NClaim | NRelease => REGISTRY_ACTOR
  | NExit _ => LINK_ACTOR
  | NDown _ => MONITOR_ACTOR
  end.

Definition notice_payload (n : notice) : pyval :=
  match n with
  | NJoin => group_delta_message WORKERS_GROUP me VAdd
  | NLeave => group_delta_message WORKERS_GROUP me VRemove
  | NClaim => registry_delta_message PRIMARY_NAME me VAdd
  | NRelease => registry_delta_message PRIMARY_NAME me VRemove
  | NExit reason => exit_message WATCHER TASK_WORKER reason W
  | NDown reason => down_message ref TASK_WORKER reason W
  end.

Definition notice_job (n : notice) : job :=
  match n with
  | NJoin => JGroupDelta H WORKERS_GROUP me VAdd
  | NLeave => JGroupDelta H WORKERS_GROUP me VRemove
  | NClaim => JRegistryDelta H PRIMARY_NAME me VAdd
  | NRelease => JRegistryDelta H PRIMARY_NAME me VRemove
  | NExit reason => JNotifyRemoteExit H WATCHER TASK_WORKER reason
  | NDown reason => JNotifyRemoteDown H ref TASK_WORKER reason
  end.

(** Joining and ending, for a worker with or without the cluster-wide name. *)
Definition up_notices (PRIMARY : bool) : list notice := NJoin :: (if PRIMARY then [NClaim] else []).
Definition down_notices (PRIMARY : bool) (reason : string) : list notice :=
  NLeave :: (if PRIMARY then [NRelease] else []) ++ [NExit reason; NDown reason].

(** The frames of the notices, in the queue of the core. *)
Fixpoint push_notices (ns : list notice) (co : core_t) : core_t :=
  match ns with
  | [] => co
  | n :: ns => push_notices ns
      (co <| co_out ::= λ l, l ++ [Frame H (notice_actor n) (notice_payload n) None None (co_next_msg_id co)] |>
          <| co_next_msg_id ::= next_u64 |>)
  end.

(** What the core was given for a peer and an actor, without the numbers. *)
Definition parcels (co : core_t) : list (string * string * pyval) :=
  (λ f, (fr_peer f, fr_actor f, fr_payload f)) <$> co_out co.

Lemma push_notices_parcels ns co :
  parcels (push_notices ns co) = parcels co ++ ((λ n, (H, notice_actor n, notice_payload n)) <$> ns).
Proof.
  revert co. induction ns as [|n ns IH]; intros co; simpl; [by rewrite app_nil_r|].
  rewrite IH. unfold parcels; simpl. by rewrite fmap_app -app_assoc.
Qed.

Lemma push_notices_app ns1 ns2 co : push_notices (ns1 ++ ns2) co = push_notices ns2 (push_notices ns1 co).
Proof. revert co. induction ns1 as [|n ns1 IH]; intros co; simpl; [done|]. apply IH. Qed.

(** The hub is connected and takes what it is sent. *)
Record reaches_hub (co : core_t) : Prop := {
  rh_running : co_running co = true;
  rh_peer : is_peer co H;
  rh_takes : ∀ p v, co_refuses co p v = None;
  rh_local : co_local co = W
}.

Lemma push_notices_reaches ns co : reaches_hub co → reaches_hub (push_notices ns co).
Proof. revert co. induction ns as [|n ns IH]; intros co Hr; [done|]. apply IH. by destruct Hr. Qed.

Lemma notice_plain n : plain (notice_payload n) = true ∧ wire_safe (notice_payload n) = true.
Proof. by destruct n. Qed.

(** Each of the scheduled notices is sent once, in order. *)
Lemma notice_job_sends n s co :
  _core s = Some co → reaches_hub co →
  job_body (notice_job n) s = (inr tt, s <| _core := Some (push_notices [n] co) |>).
Proof.
  intros Hco [Hrun Hp Hr Hl].
  assert (send_best_effort H (notice_actor n) (notice_payload n) s = (inr tt, s <| _core := Some (push_notices [n] co) |>)) as Hs.
  { unfold send_best_effort, try_except. destruct (notice_plain n).
    by rewrite (send_remote_ok H _ _ None None s co). }
  assert (local_id s = W) as HW by (unfold local_id; by rewrite Hco).
  rewrite -Hs. destruct n; try done; cbn; by rewrite HW.
Qed.

Lemma run_jobs_notices ns : ∀ s co,
  jobs s = notice_job <$> ns → _core s = Some co → reaches_hub co →
  run_jobs s = (inr tt, s <| jobs := [] |> <| _core := Some (push_notices ns co) |>).
Proof.
  unfold run_jobs. cbn [bind get]. induction ns as [|n ns IH]; intros s co Hj Hco Hr; rewrite Hj.
  { destruct s; simpl in *; by subst. }
  rewrite fmap_cons. cbn [for_each bind].
  assert (run_job s = (inr tt, s <| jobs := notice_job <$> ns |> <| _core := Some (push_notices [n] co) |>)) as ->.
  { unfold run_job. cbn [bind get]. rewrite Hj fmap_cons. cbn [modify bind try_except].
    by rewrite (notice_job_sends n (s <| jobs := notice_job <$> ns |>) co). }
  specialize (IH (s <| jobs := notice_job <$> ns |> <| _core := Some (push_notices [n] co) |>) (push_notices [n] co)).
  cbn in IH. rewrite IH //. by apply (push_notices_reaches [n]).
Qed.

(** ** The worker, wired to the hub *)

Context (sp c : nat) (t d : tid) (q : qid) (ch : child) (sup : supervisor).

(** The actor waits for mail; the hub is its only peer, has linked and
    monitored it, and hears of its groups and names. *)
Record wired (co : core_t) (s : st) : Prop := {
  wd_core : _core s = Some co;
  wd_hub : reaches_hub co;
  wd_child : children s !! c = Some ch;
  wd_task : tasks s !! t = Some (Task (CodeChild sp c PcAwaitDriver) (WTask d) false None);
  wd_driver : tasks s !! d = Some (Task (CodeDrive c None) WGet false None);
  wd_mailbox : _mailboxes s !! TASK_WORKER = Some q;
  wd_queue : queues s !! q = Some (Queue [] 0);
  wd_sup : sups s !! sp = Some sup;
  wd_links : _links s !! TASK_WORKER = Some {[(Some H, WATCHER)]};
  wd_watchers : _monitor_watchers s !! TASK_WORKER = Some {[ref := (Some H, WATCHER)]};
  wd_groups : _group_peers s = Some {[H]} ∧ _group_leave_hook s = true;
  wd_names : _registry_peers s = Some {[H]} ∧ _registry_release_hook s = true;
  wd_jobs : jobs s = []
}.

(** How [main] sets the child and its supervisor up. *)
Hypothesis Hname : ch_name ch = TASK_WORKER.
Hypothesis Hkind : ch_kind ch = ActorChild "TaskWorker" (plain_actor TASK_WORKER) q.
Hypothesis Hstrat : s_strategy sup = OneForOne.
Hypothesis Hmax : s_max_restarts sup = 0.

Lemma wired_local co s : wired co s → local_id s = W.
Proof. intros Hw. unfold local_id. rewrite (wd_core _ _ Hw). apply Hw. Qed.

Definition task_item : envelope := (PDict [], MessageMeta (Some W) None None None).

(** A task of [main] is in the mailbox. *)
Definition with_task (s : st) : st := s <| queues ::= <[q := Queue [task_item] 0]> |>.

Lemma feed_send co s :
  wired co s → ref_send (ActorRef TASK_WORKER) (PDict []) None None s = (inr tt, with_task s).
Proof.
  intros Hw. cbn [ref_send]. rewrite (send_local_room _ _ _ _ _ q (Queue [] 0)); [apply Hw..|done|].
  by rewrite (wired_local co).
Qed.

(** The first task: the member, and with it the name when it is the primary. *)
Definition joined (PRIMARY : bool) (s : st) : st :=
  (if PRIMARY then claim_name PRIMARY_NAME me else id) (add_member WORKERS_GROUP me s).

Definition start_tasks (PRIMARY : bool) (count : nat) (s : st) : st :=
  if bool_decide (count = 0)
  then (joined PRIMARY s) <| jobs := notice_job <$> up_notices PRIMARY |> else s.

Lemma receive_spec CRASH_AFTER PRIMARY s count :
  local_id s = W → _group_peers s = Some {[H]} → _registry_peers s = Some {[H]} → jobs s = [] →
  (count = 0 → _registry s !! PRIMARY_NAME = None) →
  task_worker_receive CRASH_AFTER PRIMARY (Worker s count) =
  (if bool_decide (CRASH_AFTER < Z.of_nat (S count))%Z then inl (permanent_failure (S count)) else inr tt,
   Worker (start_tasks PRIMARY count s) (S count)).
Proof.
  intros HW Hg Hr Hj Hfree. unfold task_worker_receive, start_tasks. cbn [bind get w_count].
  case_bool_decide as Hc; [|by cbn; case_bool_decide]. subst count. specialize (Hfree eq_refl).
  assert (join_group WORKERS_GROUP None (Some TASK_WORKER) s =
    (inr tt, (add_member WORKERS_GROUP me s) <| jobs := [notice_job NJoin] |>)) as Hjoin.
  { unfold join_group. cbn [group_me ret bind get modify]. rewrite group_broadcast_spec HW.
    change (_group_peers (add_member _ _ s)) with (_group_peers s). rewrite Hg /= elements_singleton.
    unfold add_member. destruct s; simpl in *. by rewrite Hj. }
  set (s1 := (add_member WORKERS_GROUP me s) <| jobs := [notice_job NJoin] |>) in *.
  assert (register_name PRIMARY_NAME None (Some TASK_WORKER) s1 =
    (inr tt, (claim_name PRIMARY_NAME me s1) <| jobs := [notice_job NJoin; notice_job NClaim] |>)) as Hreg.
  { unfold register_name. cbn [registry_me ret bind get].
    change (_registry s1) with (_registry s). change (local_id s1) with (local_id s).
    rewrite Hfree HW. cbn [bind modify]. rewrite registry_broadcast_spec.
    change (_registry_peers (claim_name _ _ s1)) with (_registry_peers s). by rewrite Hr /= elements_singleton. }
  unfold on_node at 1. cbn [w_node bind]. rewrite Hjoin. destruct PRIMARY; [|by cbn; case_bool_decide].
  cbn [bind on_node w_node w_count]. unfold on_node. simpl. rewrite Hreg. cbn. by case_bool_decide.
Qed.

(** *** A task that is done *)

(** The driver takes the task off the mailbox; how the handler ended decides
    the rest. *)
Lemma driver_takes co PRIMARY count h s :
  wired co s →
  step_driver d h (start_tasks PRIMARY count (with_task s)) =
  drive_result d c (task_item.2) h (start_tasks PRIMARY count s).
Proof.
  intros Hw. unfold step_driver. cbn [bind get].
  assert (∀ s', tasks (start_tasks PRIMARY count s') = tasks s' ∧ children (start_tasks PRIMARY count s') = children s' ∧
                queues (start_tasks PRIMARY count s') = queues s' ∧
                ∀ f, (start_tasks PRIMARY count s') <| queues ::= f |> = start_tasks PRIMARY count (s' <| queues ::= f |>)) as Hsame.
  { intros s'. unfold start_tasks, joined. case_bool_decide; [|done]. by destruct PRIMARY. }
  destruct (Hsame (with_task s)) as (Ht & Hc & Hq & Hset). rewrite Ht. cbn [with_task]. simpl.
  rewrite (wd_driver _ _ Hw) /=. rewrite (upd_task_id _ _ _ (Task (CodeDrive c None) WGet false None)) //.
  { rewrite Ht. apply Hw. }
  unfold drive_get. cbn [bind get]. rewrite Hc Hq /= (wd_child _ _ Hw) Hkind lookup_insert_eq /=.
  transitivity (drive_result d c task_item.2 h ((start_tasks PRIMARY count (with_task s)) <| queues ::= <[q := Queue [] 0]> |>));
    [done|]. rewrite Hset. do 2 f_equal. unfold with_task. pose proof (wd_queue _ _ Hw) as Hqu.
  destruct s; simpl in *. by rewrite insert_insert_eq insert_id.
Qed.

(** Where the worker is listed: nowhere before its first task, then in the
    group and, for the primary, under the name. *)
Definition enrolled (PRIMARY : bool) (s : st) : Prop :=
  groups_of s me = [WORKERS_GROUP] ∧ names_of s me = (if PRIMARY then [PRIMARY_NAME] else []).

Definition enrolment (PRIMARY : bool) (count : nat) (s : st) : Prop :=
  if bool_decide (count = 0)
  then groups_of s me = [] ∧ names_of s me = [] ∧ _registry s !! PRIMARY_NAME = None
  else enrolled PRIMARY s.

Lemma start_enrolls PRIMARY count s : enrolment PRIMARY count s → enrolled PRIMARY (start_tasks PRIMARY count s).
Proof.
  unfold enrolment, start_tasks. case_bool_decide; [|done]. intros (Hg & Hn & Hfree).
  set (s' := (joined PRIMARY s) <| jobs := _ |>). split.
  - apply NoDup_singleton_ext; [apply NoDup_groups_of|]. intros g. rewrite elem_of_groups_of.
    change (is_member s' g me ↔ g = WORKERS_GROUP).
    assert (is_member s' g me ↔ is_member (add_member WORKERS_GROUP me s) g me) as ->
      by (unfold s', joined; by destruct PRIMARY).
    rewrite is_member_add. split; [|by left]. intros [[-> _]|Hm]; [done|].
    apply elem_of_groups_of in Hm. rewrite Hg in Hm. by apply elem_of_nil in Hm.
  - destruct PRIMARY.
    + apply NoDup_singleton_ext; [apply NoDup_names_of|]. intros n. rewrite elem_of_names_of /s' /=.
      rewrite lookup_insert. case_decide; subst; [done|]. split; [|by intros ->].
      intros Hl. apply elem_of_names_of in Hl. rewrite Hn in Hl. by apply elem_of_nil in Hl.
    + exact Hn.
Qed.

Definition first_notices (PRIMARY : bool) (count : nat) : list notice :=
  if bool_decide (count = 0) then up_notices PRIMARY else [].

(** The node once the first task is done and told about. *)
Definition settled (PRIMARY : bool) (count : nat) (co : core_t) (s : st) : st :=
  (start_tasks PRIMARY count s) <| jobs := [] |> <| _core := Some (push_notices (first_notices PRIMARY count) co) |>.

Lemma start_tasks_fields PRIMARY count s :
  let s' := start_tasks PRIMARY count s in
  (_core s', children s', tasks s', _mailboxes s', queues s', sups s') =
    (_core s, children s, tasks s, _mailboxes s, queues s, sups s) ∧
  (_links s', _monitor_watchers s', _group_peers s', _group_leave_hook s', _registry_peers s', _registry_release_hook s') =
    (_links s, _monitor_watchers s, _group_peers s, _group_leave_hook s, _registry_peers s, _registry_release_hook s).
Proof. unfold start_tasks, joined. case_bool_decide; [|done]. by destruct PRIMARY. Qed.

Lemma start_tasks_jobs PRIMARY count s :
  jobs s = [] → jobs (start_tasks PRIMARY count s) = notice_job <$> first_notices PRIMARY count.
Proof. unfold start_tasks, first_notices. by case_bool_decide. Qed.

Lemma settled_wired PRIMARY count co s :
  wired co s → wired (push_notices (first_notices PRIMARY count) co) (settled PRIMARY count co s).
Proof.
  intros [W1 W2 W3 W4 W5 W6 W7 W8 W9 W10 W11 W12 W13]. unfold settled.
  destruct (start_tasks_fields PRIMARY count s) as [Ha Hb]. simplify_eq Ha. simplify_eq Hb. intros.
  split; simpl; try done; try congruence. by apply push_notices_reaches.
Qed.

(** The handler runs, and how it ended is what the driver goes on with. *)
Lemma turn_spec CRASH_AFTER PRIMARY co s count :
  wired co s → (count = 0 → _registry s !! PRIMARY_NAME = None) →
  task_worker_turn CRASH_AFTER PRIMARY q d (Worker (with_task s) count) =
  on_node (drive_result d c task_item.2
     (if bool_decide (CRASH_AFTER < Z.of_nat (S count))%Z then HRaise (permanent_failure (S count)) else HDone))
    (Worker (start_tasks PRIMARY count s) (S count)).
Proof.
  intros Hw Hfree. unfold task_worker_turn. cbn [bind get w_node]. unfold with_task at 1. simpl. rewrite lookup_insert_eq /=.
  rewrite receive_spec; [by rewrite -(wired_local co s Hw)|apply Hw..|done|].
  unfold on_node; simpl. rewrite -(driver_takes co) //. by case_bool_decide.
Qed.

(** A task that is done: afterwards the actor waits for the next one. *)
Lemma pause_done CRASH_AFTER PRIMARY now co s count :
  wired co s → (count = 0 → _registry s !! PRIMARY_NAME = None) → ¬ (CRASH_AFTER < Z.of_nat (S count))%Z →
  worker_pause CRASH_AFTER PRIMARY q t d now (Worker (with_task s) count) =
  (inr tt, Worker (settled PRIMARY count co s) (S count)).
Proof.
  intros Hw Hfree Hgo. unfold worker_pause. cbn [bind]. rewrite (turn_spec _ _ co) //.
  rewrite bool_decide_eq_false_2 //. destruct (start_tasks_fields PRIMARY count s) as [Ha Hb].
  simplify_eq Ha. simplify_eq Hb. intros.
  set (s1 := start_tasks PRIMARY count s) in *.
  assert (drive_result d c task_item.2 HDone s1 = (inr tt, s1)) as Hdr.
  { unfold drive_result. rewrite (suspend_spec _ _ _ _ (Task (CodeDrive c None) WGet false None)) //;
      [transitivity (tasks s !! d); [congruence|apply Hw]|]. f_equal. simpl.
    pose proof (wd_driver _ _ Hw) as Hd. destruct s1; simpl in *. subst. by rewrite insert_id. }
  unfold on_node at 1. cbn [w_node]. rewrite Hdr.
  assert (step_child t None now s1 = (inr tt, s1)) as Hst.
  { unfold step_child. cbn [bind get]. replace (tasks s1) with (tasks s) by congruence.
    rewrite (wd_task _ _ Hw) /=. replace (tasks s1) with (tasks s) by congruence. by rewrite (wd_driver _ _ Hw). }
  cbn [bind]. unfold on_node, bind. change (w_node _) with s1 at 1.
  rewrite Hst (run_jobs_notices (first_notices PRIMARY count) s1 co) //; [| |apply Hw].
  - apply start_tasks_jobs, Hw.
  - transitivity (_core s); [congruence|apply Hw].
Qed.

(** *** The task it fails on *)

(** The tasks that the end of the actor schedules are the notices. *)
Lemma ended_jobs PRIMARY s reason :
  local_id s = W → enrolled PRIMARY s → _group_peers s = Some {[H]} → _group_leave_hook s = true →
  _registry_peers s = Some {[H]} → _registry_release_hook s = true →
  leave_jobs s me (groups_of s me) ++ release_jobs s me (names_of s me) ++
  exit_jobs TASK_WORKER (Some {[(Some H, WATCHER)]}) reason ++
  down_jobs TASK_WORKER (Some {[ref := (Some H, WATCHER)]}) reason = notice_job <$> down_notices PRIMARY reason.
Proof.
  intros HW [Hg Hn] Hp Hh Hrp Hrh. unfold leave_jobs, release_jobs, exit_jobs, down_jobs, default, id.
  rewrite Hg Hn Hh Hp Hrh Hrp elements_singleton map_to_list_singleton.
  destruct PRIMARY; cbn [mbind list_bind delta_jobs]; by rewrite !elements_singleton.
Qed.

(** The turn of the child's task that finds the driver dead: no restart, so
    the worker's task ends, the name is free, and the notices are scheduled. *)
Lemma child_gives_up PRIMARY now s e :
  running s → local_id s = W → children s !! c = Some ch →
  tasks s !! t = Some (Task (CodeChild sp c PcAwaitDriver) (WTask d) false None) →
  tasks s !! d = Some (Task (CodeDrive c None) WGet false (Some (OExn e))) →
  sups s !! sp = Some sup → enrolled PRIMARY s →
  _links s !! TASK_WORKER = Some {[(Some H, WATCHER)]} →
  _monitor_watchers s !! TASK_WORKER = Some {[ref := (Some H, WATCHER)]} →
  _group_peers s = Some {[H]} → _group_leave_hook s = true →
  _registry_peers s = Some {[H]} → _registry_release_hook s = true →
  ∃ s', step_child t None now s = (inr tt, s') ∧
    jobs s' = jobs s ++ (notice_job <$> down_notices PRIMARY (exn_detail e)) ∧
    t_out <$> tasks s' !! t = Some (Some (OExn e)) ∧ _mailboxes s' = delete TASK_WORKER (_mailboxes s) ∧
    _core s' = (λ co, co <| co_routing ::= λ r, r ∖ {[TASK_WORKER]} |>) <$> _core s ∧
    (_groups s', _registry s') = (_groups (ended TASK_WORKER s), _registry (ended TASK_WORKER s)).
Proof.
  intros Hrun HW Hch Ht Hd Hsup Hen Hlk Hmw Hp Hh Hrp Hrh.
  assert (∃ sup', _allow_restart now sup = (false, sup')) as [sup' Hallow].
  { unfold _allow_restart. rewrite Hmax bool_decide_eq_true_2; [lia|eauto]. }
  rewrite (crash_reaches_handler t sp c None now s d ch e) //; [eexists; split; [exact Hd|by left]|].
  rewrite Hname. unfold guard_task, try_except. set (s0 := s <| children ::= _ |>).
  rewrite (handle_crash_refused_one t sp c TASK_WORKER _ now _ sup sup'
            (Task (CodeChild sp c PcAwaitDriver) (WTask d) false None)) //.
  eexists. split; [done|]. split_and!; [|cbn; by rewrite lookup_insert_eq|done..].
  assert (local_id s0 = W) as HW0 by done.
  rewrite -(ended_jobs PRIMARY s0) // app_assoc app_assoc -(app_assoc (jobs s)). cbn. by rewrite HW0 Hlk Hmw.
Qed.

(** The task that is one too many: the actor is gone, and the hub is told. *)
Lemma pause_fails CRASH_AFTER PRIMARY now co s count :
  wired co s → enrolment PRIMARY count s → (CRASH_AFTER < Z.of_nat (S count))%Z →
  let e := permanent_failure (S count) in
  ∃ s' co', worker_pause CRASH_AFTER PRIMARY q t d now (Worker (with_task s) count) = (inr tt, Worker s' (S count)) ∧
    _core s' = Some co' ∧
    parcels co' = parcels co ++ ((λ n, (H, notice_actor n, notice_payload n)) <$>
                                   first_notices PRIMARY count ++ down_notices PRIMARY (exn_detail e)) ∧
    t_out <$> tasks s' !! t = Some (Some (OExn e)) ∧ _mailboxes s' !! TASK_WORKER = None ∧
    (∀ g, ¬ is_member s' g me) ∧ ∀ n, _registry s' !! n ≠ Some me.
Proof.
  intros Hw Hen Hcrash e.
  assert (count = 0 → _registry s !! PRIMARY_NAME = None) as Hfree.
  { intros ->. by destruct Hen as (_ & _ & ?). }
  unfold worker_pause. cbn [bind]. rewrite (turn_spec _ _ co) // bool_decide_eq_true_2 //. fold e.
  apply start_enrolls in Hen. pose proof (start_tasks_jobs PRIMARY count s (wd_jobs _ _ Hw)) as Hj.
  destruct (start_tasks_fields PRIMARY count s) as [Ha Hb]. set (s1 := start_tasks PRIMARY count s) in *.
  injection Ha as Hco Hch Htk Hmb Hq Hsp. injection Hb as Hl Hm Hgp Hgh Hrp Hrh.
  destruct Hw as [W1 W2 W3 W4 W5 W6 W7 W8 W9 W10 [W11 W11'] [W12 W12'] W13].
  rewrite -Hco in W1. rewrite -Hch in W3. rewrite -Htk in W4 W5. rewrite -Hsp in W8.
  set (s2 := s1 <| tasks ::= <[d := Task (CodeDrive c None) WGet false (Some (OExn e))]> |> <| _actor_tasks ::= λ l, l ∖ {[d]} |>).
  assert (drive_result d c task_item.2 (HRaise e) s1 = (inr tt, s2)) as Hdr.
  { unfold drive_result. by rewrite (finish_spec _ _ _ _ W5). }
  unfold on_node at 1. cbn [w_node]. rewrite Hdr.
  assert (t ≠ d) as Htd by congruence.
  assert (local_id s2 = W) as HW2 by (unfold local_id, s2; simpl; rewrite W1; apply W2).
  destruct (child_gives_up PRIMARY now s2 e) as (s3 & Hst & Hj3 & Ht3 & Hm3 & Hc3 & Hgr3); try done; try (simpl; congruence).
  { exists co. split; [exact W1|apply W2]. }
  { by rewrite /s2 /= lookup_insert_ne. }
  { by rewrite /s2 /= lookup_insert_eq. }
  injection Hgr3 as Hg3 Hr3.
  set (co3 := co <| co_routing ::= λ r, r ∖ {[TASK_WORKER]} |>). assert (_core s3 = Some co3) as Hco3 by (by rewrite Hc3 /s2 /= W1).
  assert (reaches_hub co3) as Hhub by (by destruct W2).
  cbn [bind]. unfold on_node, bind. change (w_node _) with s2 at 1. rewrite Hst.
  rewrite (run_jobs_notices (first_notices PRIMARY count ++ down_notices PRIMARY (exn_detail e)) s3 co3) //.
  { rewrite Hj3 fmap_app. f_equal. exact Hj. }
  eexists _, _. split; [done|]. split; [done|]. split; [by rewrite push_notices_parcels|]. split; [done|].
  split; [rewrite /= Hm3; apply lookup_delete_eq|]. split.
  - intros g (ms & Hlk & Hin). cbn in Hlk. rewrite Hg3 /= lookup_fmap HW2 in Hlk.
    apply fmap_Some in Hlk as (ms0 & _ & ->). set_solver.
  - intros n Hn. cbn in Hn. rewrite Hr3 /= HW2 in Hn. by apply map_lookup_filter_Some in Hn as [_ ?].
Qed.

(** *** The whole life *)

Definition to_hub (ns : list notice) : list (string * string * pyval) :=
  (λ n, (H, notice_actor n, notice_payload n)) <$> ns.

(** The tasks the worker takes before it is gone, the last of them included. *)
Definition lifetime (CRASH_AFTER : Z) : nat := S (Z.to_nat CRASH_AFTER).

(** The worker has failed on its task number [count]. *)
Record failed (count : nat) (s : st) : Prop := {
  fd_task : t_out <$> tasks s !! t = Some (Some (OExn (permanent_failure count)));
  fd_mailbox : _mailboxes s !! TASK_WORKER = None;
  fd_groups : ∀ g, ¬ is_member s g me;
  fd_names : ∀ n, _registry s !! n ≠ Some me
}.

Lemma feed_gone n pause s count :
  _mailboxes s !! TASK_WORKER = None → worker_feed n pause (Worker s count) = (inr 0, Worker s count).
Proof.
  intros Hm. destruct n as [|n]; [done|]. cbn. unfold on_node, ref_send, _send_local. cbn. by rewrite Hm.
Qed.

Lemma feed_from CRASH_AFTER PRIMARY now n : ∀ co s count,
  wired co s → enrolment PRIMARY count s → count < lifetime CRASH_AFTER →
  let left := lifetime CRASH_AFTER - count in
  ∃ s' co', worker_feed n (worker_pause CRASH_AFTER PRIMARY q t d now) (Worker s count) =
              (inr (min n left), Worker s' (count + min n left)) ∧ _core s' = Some co' ∧
    if bool_decide (left ≤ n)
    then failed (lifetime CRASH_AFTER) s' ∧
         parcels co' = parcels co ++ to_hub (first_notices PRIMARY count ++
                         down_notices PRIMARY (exn_detail (permanent_failure (lifetime CRASH_AFTER))))
    else wired co' s' ∧ parcels co' = parcels co ++ to_hub (if bool_decide (n = 0) then [] else first_notices PRIMARY count).
Proof.
  induction n as [|n IH]; intros co s count Hw Hen Hlt left.
  { exists s, co. rewrite Nat.min_0_l Nat.add_0_r. split; [done|]. split; [apply Hw|].
    rewrite bool_decide_eq_false_2; [unfold left; lia|]. rewrite bool_decide_eq_true_2 //= app_nil_r. done. }
  cbn [worker_feed]. unfold bind at 1, try_except, on_node at 1. cbn [bind w_node]. rewrite (feed_send co) //=.
  assert (count = 0 → _registry s !! PRIMARY_NAME = None) as Hfree by (intros ->; by destruct Hen as (_ & _ & ?)).
  destruct (decide (CRASH_AFTER < Z.of_nat (S count))%Z) as [Hc|Hc].
  - assert (left = 1 ∧ lifetime CRASH_AFTER = S count) as [Hl HK] by (unfold left, lifetime in *; lia).
    destruct (pause_fails CRASH_AFTER PRIMARY now co s count) as (s' & co' & Hp & Hco' & Hpar & Ht & Hm & Hg & Hr); try done.
    rewrite Hp feed_gone //= Hl. exists s', co'. rewrite Nat.min_r; [lia|].
    rewrite Nat.add_1_r bool_decide_eq_true_2 ?HK; [lia|]. by split_and!.
  - rewrite (pause_done CRASH_AFTER PRIMARY now co s count Hw Hfree Hc).
    destruct (IH (push_notices (first_notices PRIMARY count) co) (settled PRIMARY count co s) (S count)) as (s' & co' & Hf & Hco' & Hend).
    + by apply settled_wired.
    + by apply start_enrolls.
    + unfold lifetime. lia.
    + rewrite Hf /=. exists s', co'.
      assert (left = S (lifetime CRASH_AFTER - S count)) as -> by (unfold left, lifetime in *; lia).
      split; [by rewrite -Nat.add_succ_comm|]. split; [done|]. revert Hend.
      rewrite push_notices_parcels -/(to_hub (first_notices PRIMARY count)).
      rewrite (bool_decide_ext (S (lifetime CRASH_AFTER - S count) ≤ S n) (lifetime CRASH_AFTER - S count ≤ n)); [lia|].
      destruct (bool_decide (lifetime CRASH_AFTER - S count ≤ n)); intros [Hfd ->]; (split; [done|]).
      * rewrite -app_assoc. f_equal. by rewrite /to_hub -fmap_app.
      * case_bool_decide; apply app_nil_r.
Qed.

End worker_props.

(** ** What the hub makes of them *)

Section hub_props.
Context {codec : PayloadCodec} (W ref : string) (q : qid) (s0 : st) (items : list envelope).

#[local] Abbreviation label := (remote_label W TASK_WORKER).

(** A frame for one of the reserved actors, handled by it. *)
Definition reserved_receive (actor : string) (msg : pyval) : M st unit :=
  if bool_decide (actor = LINK_ACTOR) then link_actor_receive msg
  else if bool_decide (actor = MONITOR_ACTOR) then monitor_actor_receive msg
  else if bool_decide (actor = GROUPS_ACTOR) then groups_actor_receive msg
  else if bool_decide (actor = REGISTRY_ACTOR) then registry_actor_receive msg
  else ret tt.

Lemma reserved_receive_eq n :
  reserved_receive (notice_actor n) =
  match n with
  | NJoin | NLeave => groups_actor_receive
  | NClaim | NRelease => registry_actor_receive
  | NExit _ => link_actor_receive
  | NDown _ => monitor_actor_receive
  end.
Proof. by destruct n. Qed.

Definition hub_hears (s : st) (n : notice) : st :=
  exec (reserved_receive (notice_actor n) (notice_payload W ref n)) s.

(** What the hub knows of one worker: whether the monitor is still there, the
    signals in the watcher's mailbox, and whether the worker is listed. *)
Record view := View { v_watching : bool; v_signals : list pyval; v_member : bool; v_name : bool }.

Definition view_step (v : view) (n : notice) : view :=
  match n with
  | NJoin => View (v_watching v) (v_signals v) true (v_name v)
  | NLeave => View (v_watching v) (v_signals v) false (v_name v)
  | NClaim => View (v_watching v) (v_signals v) (v_member v) true
  | NRelease => View (v_watching v) (v_signals v) (v_member v) false
  | NExit r => View (v_watching v) (v_signals v ++ [ExitMsg label r]) (v_member v) (v_name v)
  | NDown r => if v_watching v
               then View false (v_signals v ++ [DownMsg ref label r]) (v_member v) (v_name v) else v
  end.

(** The hub's node is in that state as far as the worker goes, and as in [s0]
    as far as everybody else does. *)
Record sees (v : view) (s : st) : Prop := {
  se_trap : _trap_exit s !! WATCHER = Some true;
  se_mailbox : _mailboxes s !! WATCHER = Some q;
  se_queue : queues s !! q = Some (Queue (items ++ ((λ m, (m, MessageMeta (Some (local_id s0)) None None None)) <$> v_signals v)) 0);
  se_local : local_id s = local_id s0;
  se_monitor : _monitors s !! ref = if v_watching v then Some (WATCHER, (Some W, TASK_WORKER)) else None;
  se_member : ∀ g m, is_member s g m ↔ if bool_decide (g = WORKERS_GROUP ∧ m = me W) then v_member v = true else is_member s0 g m;
  se_name : ∀ n, _registry s !! n = if bool_decide (n = PRIMARY_NAME) then (if v_name v then Some (me W) else None) else _registry s0 !! n
}.

Lemma send_signal v s msg :
  _mailboxes s !! WATCHER = Some q → local_id s = local_id s0 →
  queues s !! q = Some (Queue (items ++ ((λ m, (m, MessageMeta (Some (local_id s0)) None None None)) <$> v_signals v)) 0) →
  _send_local WATCHER msg None None s =
  (inr tt, s <| queues ::= <[q := Queue (items ++ ((λ m, (m, MessageMeta (Some (local_id s0)) None None None)) <$> v_signals v ++ [msg])) 0]> |>).
Proof.
  intros Hm Hl Hq. rewrite (send_local_room _ _ _ _ _ q _ Hm Hq) // Hl /=.
  by rewrite fmap_app app_assoc.
Qed.

Lemma hub_hears_sees v n s : sees v s → sees (view_step v n) (hub_hears s n).
Proof.
  intros Hs. pose proof Hs as [S1 S2 S3 S4 S5 S6 S7]. unfold hub_hears, exec.
  destruct n as [| | | |r|r]; rewrite reserved_receive_eq; cbn [notice_payload view_step].
  - rewrite receive_delta. split; try done. intros g m. cbn [snd]. rewrite is_member_add S6. case_bool_decide; naive_solver.
  - change (registry_actor_receive _ s) with (hear_claim PRIMARY_NAME (me W) s). unfold hear_claim. cbn [bind get].
    pose proof (S7 PRIMARY_NAME) as Hn. rewrite bool_decide_eq_true_2 // in Hn. rewrite Hn.
    assert (sees (View (v_watching v) (v_signals v) (v_member v) true) (claim_name PRIMARY_NAME (me W) s)) as Hcl.
    { split; try done. intros n. cbn. rewrite lookup_insert. case_decide as E; case_bool_decide; subst; try done. rewrite S7.
      by rewrite bool_decide_eq_false_2. }
    destruct (v_name v); [rewrite bool_decide_eq_false_2; [by intros []|]|]; exact Hcl.
  - rewrite receive_delta. split; try done. intros g m. cbn [snd]. rewrite is_member_discard S6. case_bool_decide; naive_solver.
  - change (registry_actor_receive _ s) with (hear_release PRIMARY_NAME (me W) s). unfold hear_release. cbn [bind get].
    pose proof (S7 PRIMARY_NAME) as Hn. rewrite bool_decide_eq_true_2 // in Hn. rewrite Hn.
    destruct (v_name v) eqn:Ev; [rewrite bool_decide_eq_true_2 //|by split].
    split; try done. intros n. cbn. rewrite lookup_delete. case_decide as E; case_bool_decide; subst; try done.
    rewrite S7. by rewrite bool_decide_eq_false_2.
  - change (link_actor_receive _ s) with (_deliver_exit label WATCHER r s).
    rewrite deliver_exit_trapped // (send_signal v) //. split; try done. cbn. by rewrite lookup_insert_eq.
  - change (monitor_actor_receive _ s) with (_deliver_down ref label r s). unfold _deliver_down. cbn [bind get modify].
    rewrite S5. destruct (v_watching v) eqn:Ev.
    + change (_mailboxes (s <| _monitors ::= _ |>)) with (_mailboxes s). rewrite bool_decide_eq_true_2; [by rewrite S2|].
      rewrite (send_signal v) //. split; try done; cbn; [by rewrite lookup_insert_eq|by rewrite lookup_delete_eq].
    + split; try done. cbn. rewrite Ev. by rewrite lookup_delete_eq.
Qed.

(** ** In whatever order *)

(** The notices of one reserved actor come in the order they were sent; those
    of different ones in any order. *)
Definition delivered (ns l : list notice) : Prop :=
  ∀ a, filter (λ n, notice_actor n = a) l = filter (λ n, notice_actor n = a) ns.

Definition signal_of (n : notice) : list pyval :=
  match n with NExit r => [ExitMsg label r] | NDown r => [DownMsg ref label r] | _ => [] end.

Lemma hub_hears_all v l s : sees v s → sees (foldl view_step v l) (foldl hub_hears s l).
Proof. revert v s. induction l as [|n l IH]; intros v s Hs; [done|]. by apply IH, hub_hears_sees. Qed.

(** What is known of the group comes of its own notices alone, and so for the name. *)
Lemma view_member v l :
  v_member (foldl view_step v l) = v_member (foldl view_step v (filter (λ n, notice_actor n = GROUPS_ACTOR) l)).
Proof.
  assert (∀ v v', v_member v = v_member v' → v_member (foldl view_step v l) =
    v_member (foldl view_step v' (filter (λ n, notice_actor n = GROUPS_ACTOR) l))) as Hgen; [|by apply Hgen].
  clear v. induction l as [|n l IH]; intros v v' Hv; [done|].
  destruct n; try (rewrite filter_cons_True //; by apply IH); rewrite filter_cons_False //; apply IH; try done.
  simpl. by destruct (v_watching v).
Qed.

Lemma view_name v l :
  v_name (foldl view_step v l) = v_name (foldl view_step v (filter (λ n, notice_actor n = REGISTRY_ACTOR) l)).
Proof.
  assert (∀ v v', v_name v = v_name v' → v_name (foldl view_step v l) =
    v_name (foldl view_step v' (filter (λ n, notice_actor n = REGISTRY_ACTOR) l))) as Hgen; [|by apply Hgen].
  clear v. induction l as [|n l IH]; intros v v' Hv; [done|].
  destruct n; try (rewrite filter_cons_True //; by apply IH); rewrite filter_cons_False //; apply IH; try done.
  simpl. by destruct (v_watching v).
Qed.

(** Every signal arrives once, as long as the monitor's own comes once. *)
Lemma view_signals l : ∀ v,
  v_watching v = true → length (filter (λ n, notice_actor n = MONITOR_ACTOR) l) ≤ 1 →
  v_signals (foldl view_step v l) = v_signals v ++ (l ≫= signal_of).
Proof.
  assert (∀ l v, filter (λ n, notice_actor n = MONITOR_ACTOR) l = [] →
    v_signals (foldl view_step v l) = v_signals v ++ (l ≫= signal_of)) as Hnone.
  { clear l. induction l as [|n l IH]; intros v Hf; [by rewrite app_nil_r|].
    destruct n; simpl; try (rewrite filter_cons_True in Hf; done); rewrite filter_cons_False // in Hf; rewrite IH //=.
    by rewrite -app_assoc. }
  induction l as [|n l IH]; intros v Hv Hlen; [by rewrite app_nil_r|].
  destruct n; simpl; try (rewrite filter_cons_False // in Hlen; rewrite IH //=; by rewrite -?app_assoc).
  rewrite filter_cons_True //= in Hlen. rewrite Hv Hnone; [destruct (filter _ l); simpl in Hlen; [done|lia]|].
  by rewrite /= -app_assoc.
Qed.

End hub_props.

(** ** The setup *)

Section setup.
Context {codec : PayloadCodec}.

(** The two requests that [on_setup] sends to a worker. *)
Definition setup_parcels (H : string) (pu : string * string) : list (string * string * pyval) :=
  [(pu.1, LINK_ACTOR, link_message "link" WATCHER TASK_WORKER H);
   (pu.1, MONITOR_ACTOR, monitor_message pu.2 WATCHER H TASK_WORKER)].

Record can_reach (H : string) (peers : list string) (co : core_t) : Prop := {
  cr_running : co_running co = true;
  cr_local : co_local co = H;
  cr_peers : Forall (is_peer co) peers;
  cr_takes : ∀ p v, co_refuses co p v = None
}.

Definition linked_monitored (s : st) (pu : string * string) : Prop :=
  has_link s WATCHER (Some pu.1, TASK_WORKER) ∧ _monitors s !! pu.2 = Some (WATCHER, (Some pu.1, TASK_WORKER)).

(** Linking and monitoring one worker. *)
Lemma setup_one H peers pu s co :
  _core s = Some co → can_reach H peers co → pu.1 ∈ peers →
  ∃ s' co',
    (link (Some WATCHER) (RemoteRef pu.1 TASK_WORKER) ;;
     monitor (Some WATCHER) pu.2 (RemoteRef pu.1 TASK_WORKER) ;; ret tt) s = (inr tt, s') ∧
    _core s' = Some co' ∧ can_reach H peers co' ∧ parcels co' = parcels co ++ setup_parcels H pu ∧
    _trap_exit s' = _trap_exit s ∧ linked_monitored s' pu ∧
    ∀ pu', pu'.2 ≠ pu.2 → linked_monitored s pu' → linked_monitored s' pu'.
Proof.
  intros Hco Hcr Hin. destruct pu as [p u]. pose proof Hcr as [R1 R2 R3 R4]. simpl in Hin.
  assert (is_peer co p) as Hp by (by eapply list.Forall_forall in R3).
  set (s1 := add_link WATCHER (Some p, TASK_WORKER) s).
  set (co1 := co <| co_out ::= λ l, l ++ [Frame p LINK_ACTOR (link_message "link" WATCHER TASK_WORKER H) None None (co_next_msg_id co)] |>
                 <| co_next_msg_id ::= next_u64 |>).
  assert (link (Some WATCHER) (RemoteRef p TASK_WORKER) s = (inr tt, s1 <| _core := Some co1 |>)) as Hl.
  { assert (local_id s1 = H) as HH by (unfold local_id; cbn; by rewrite Hco).
    transitivity (_send_remote p LINK_ACTOR (link_message "link" WATCHER TASK_WORKER (local_id s1)) None None s1); [done|].
    by rewrite HH (send_remote_ok p _ _ _ _ s1 co). }
  set (s2 := s1 <| _core := Some co1 |> <| _monitors ::= <[u := (WATCHER, (Some p, TASK_WORKER))]> |>).
  set (co2 := co1 <| co_out ::= λ l, l ++ [Frame p MONITOR_ACTOR (monitor_message u WATCHER H TASK_WORKER) None None (co_next_msg_id co1)] |>
                  <| co_next_msg_id ::= next_u64 |>).
  assert (monitor (Some WATCHER) u (RemoteRef p TASK_WORKER) (s1 <| _core := Some co1 |>) = (inr u, s2 <| _core := Some co2 |>)) as Hm.
  { assert (local_id s2 = H) as HH by (unfold local_id; cbn; done).
    transitivity ((_send_remote p MONITOR_ACTOR (monitor_message u WATCHER (local_id s2) TASK_WORKER) None None ;; ret u) s2); [done|].
    cbn [bind]. rewrite HH (send_remote_ok p _ _ _ _ s2 co1) //. exact (R4 p _). }
  exists (s2 <| _core := Some co2 |>), co2. cbn [bind]. rewrite Hl Hm. split_and!; try done.
  - unfold parcels. cbn. by rewrite !fmap_app -app_assoc.
  - split; [change (has_link s1 WATCHER (Some p, TASK_WORKER)); apply has_link_add; by left|]. cbn. by rewrite lookup_insert_eq.
  - intros [p' u'] Hne [Hl' Hm']. split; [change (has_link s1 WATCHER (Some p', TASK_WORKER)); apply has_link_add; by right|]. cbn. by rewrite lookup_insert_ne.
Qed.

Lemma setup_loop H peers pus : ∀ s co,
  _core s = Some co → can_reach H peers co → Forall (λ pu, pu.1 ∈ peers) pus → NoDup pus.*2 →
  ∃ s' co', for_each pus (λ pu,
      link (Some WATCHER) (RemoteRef pu.1 TASK_WORKER) ;;
      monitor (Some WATCHER) pu.2 (RemoteRef pu.1 TASK_WORKER) ;; ret tt) s = (inr tt, s') ∧
    _core s' = Some co' ∧ parcels co' = parcels co ++ (pus ≫= setup_parcels H) ∧ _trap_exit s' = _trap_exit s ∧
    Forall (linked_monitored s') pus ∧
    ∀ pu, pu.2 ∉ pus.*2 → linked_monitored s pu → linked_monitored s' pu.
Proof.
  induction pus as [|pu pus IH]; intros s co Hco Hcr Hin Hnd.
  { exists s, co. rewrite app_nil_r. by split_and!. }
  apply list.Forall_cons in Hin as [Hp Hin]. rewrite fmap_cons in Hnd. apply list.NoDup_cons in Hnd as [Hnew Hnd].
  destruct (setup_one H peers pu s co) as (s1 & co1 & H1 & Hco1 & Hcr1 & Hpar1 & Htr1 & Hlm1 & Hold1); try done.
  destruct (IH s1 co1) as (s' & co' & H2 & Hco' & Hpar & Htr & Hlm & Hold); try done.
  exists s', co'. split_and!; try done.
  - cbn [for_each]. cbn [bind] in H1 |- *. by rewrite H1 H2.
  - by rewrite Hpar Hpar1 -app_assoc.
  - congruence.
  - constructor; [by apply Hold|done].
  - intros pu' Hn Hlm'. rewrite fmap_cons in Hn. apply not_elem_of_cons in Hn as [Hne Hn]. by apply Hold, Hold1.
Qed.

(** The setup of the hub.  For workers that are all connected and uuids
    that are all different, [on_setup] sends each worker one request for the
    link and one for the monitor, in order, and leaves the watcher trapping
    exits with the links and monitors of all of them; and on a worker whose
    actor has none yet, the two requests make exactly the link and the monitor
    of the hub's watcher, and nothing else. *)
Theorem setup_wires H pus sH coH :
  _core sH = Some coH → can_reach H pus.*1 coH → NoDup pus.*2 →
  ∃ s' co', on_setup pus sH = (inr tt, s') ∧ _core s' = Some co' ∧
    parcels co' = parcels coH ++ (pus ≫= setup_parcels H) ∧
    _trap_exit s' !! WATCHER = Some true ∧ Forall (linked_monitored s') pus ∧
    ∀ u sW, is_Some (_mailboxes sW !! TASK_WORKER) → _links sW !! TASK_WORKER = None → _monitor_watchers sW !! TASK_WORKER = None →
      let r := (link_actor_receive (link_message "link" WATCHER TASK_WORKER H) ;;
                monitor_actor_receive (monitor_message u WATCHER H TASK_WORKER)) sW in
      r.1 = inr tt ∧
      r.2 = sW <| _links ::= <[TASK_WORKER := {[(Some H, WATCHER)]}]> |>
               <| _monitor_watchers ::= <[TASK_WORKER := {[u := (Some H, WATCHER)]}]> |>.
Proof.
  intros Hco Hcr Hnd. unfold on_setup.
  set (s1 := sH <| _trap_exit ::= <[WATCHER := true]> |>).
  destruct (setup_loop H pus.*1 pus s1 coH) as (s' & co' & Hr & Hco' & Hpar & Htr & Hlm & _); try done.
  { apply list.Forall_forall. intros pu Hpu. by apply list_elem_of_fmap_2. }
  exists s', co'. split; [exact Hr|]. split_and!; try done; [rewrite Htr; apply lookup_insert_eq|].
  intros u sW Hm Hl Hw.
  assert (link_actor_receive (link_message "link" WATCHER TASK_WORKER H) sW =
    (inr tt, sW <| _links ::= <[TASK_WORKER := {[(Some H, WATCHER)]}]> |>)) as Hlr.
  { unfold link_actor_receive; simpl. rewrite bool_decide_eq_true_2 //. unfold add_link; simpl. by rewrite Hl /= union_empty_r_L. }
  cbn [bind]. rewrite Hlr. unfold monitor_actor_receive; simpl. rewrite bool_decide_eq_true_2 //. unfold add_watcher; simpl. by rewrite Hw.
Qed.

End setup.

(** ** The failure, end to end *)

Lemma delivered_perm ns l : delivered ns l → l ≡ₚ ns.
Proof.
  intros Hd.
  assert (∀ l : list notice, l ≡ₚ filter (λ n, notice_actor n = GROUPS_ACTOR) l ++ filter (λ n, notice_actor n = REGISTRY_ACTOR) l ++
            filter (λ n, notice_actor n = LINK_ACTOR) l ++ filter (λ n, notice_actor n = MONITOR_ACTOR) l) as Hsplit.
  { clear. induction l as [|n l IH]; [done|]. rewrite {1}IH. destruct n; rewrite !filter_cons; simpl; solve_Permutation. }
  rewrite (Hsplit l) (Hsplit ns) !Hd. done.
Qed.

Section failure.
Context {codec : PayloadCodec} (W H ref : string) (sp c : nat) (t d : tid) (q : qid) (ch : child) (sup : supervisor).

(** (C30) A failure is seen on all four ways.  Let a worker that waits for its
    first task be linked and monitored by the hub, its only peer, with no
    restarts allowed.  Its own feed then ends after exactly the tasks that
    [CRASH_AFTER] leaves it: the task of the actor has ended with the last
    one's exception and its name is free.  What its node has put on the wire is
    a join (and the claim of the primary name), the leave (and the release),
    one exit and one down; and in whatever order the reserved actors of the
    hub take them, as long as each takes its own in order, the watcher's
    mailbox has one [Exit] and one [Down] more, with the exception as the
    reason, the worker is neither in the group nor behind the name, and every
    other member and name is as it was. *)
Theorem failure_observed CRASH_AFTER PRIMARY now n co s qh items sH :
  ch_name ch = TASK_WORKER → ch_kind ch = ActorChild "TaskWorker" (plain_actor TASK_WORKER) q →
  s_strategy sup = OneForOne → s_max_restarts sup = 0 →
  wired W H ref sp c t d q ch sup co s → enrolment W PRIMARY 0 s → lifetime CRASH_AFTER ≤ n →
  sees W ref qh sH items (View true [] false false) sH →
  let K := lifetime CRASH_AFTER in
  let reason := exn_detail (permanent_failure K) in
  ∃ s' co' ns, worker_feed n (worker_pause CRASH_AFTER PRIMARY q t d now) (Worker s 0) = (inr K, Worker s' K) ∧
    failed W t K s' ∧ _core s' = Some co' ∧ parcels co' = parcels co ++ to_hub W H ref ns ∧
    ∀ l, delivered ns l →
      let sH' := foldl (hub_hears W ref) sH l in
      (∃ sigs, sigs ≡ₚ [ExitMsg (remote_label W TASK_WORKER) reason; DownMsg ref (remote_label W TASK_WORKER) reason] ∧
         queues sH' !! qh = Some (Queue (items ++ ((λ m, (m, MessageMeta (Some (local_id sH)) None None None)) <$> sigs)) 0)) ∧
      whereis_name sH' PRIMARY_NAME = None ∧ ¬ is_member sH' WORKERS_GROUP (W, TASK_WORKER) ∧
      (∀ g m, (g, m) ≠ (WORKERS_GROUP, (W, TASK_WORKER)) → is_member sH' g m ↔ is_member sH g m) ∧
      ∀ name, name ≠ PRIMARY_NAME → _registry sH' !! name = _registry sH !! name.
Proof.
  intros Hname Hkind Hst Hmx Hw Hen Hn Hsee K reason.
  destruct (feed_from W H ref sp c t d q ch sup Hname Hkind Hst Hmx CRASH_AFTER PRIMARY now n co s 0 Hw Hen) as (s' & co' & Hf & Hco' & Hend).
  { unfold lifetime. lia. }
  rewrite Nat.sub_0_r Nat.min_r // in Hf. rewrite Nat.sub_0_r bool_decide_eq_true_2 // in Hend. destruct Hend as [Hfd Hpar].
  exists s', co', (up_notices PRIMARY ++ down_notices PRIMARY reason). split_and!; try done.
  intros l Hd sH'. pose proof (hub_hears_all W ref qh sH items _ l sH Hsee) as Hfin. fold sH' in Hfin.
  set (v := foldl _ _ l) in Hfin.
  assert (v_member v = false) as Hmem by (unfold v; rewrite view_member Hd; by destruct PRIMARY).
  assert (v_name v = false) as Hnm by (unfold v; rewrite view_name Hd; by destruct PRIMARY).
  assert (v_signals v = l ≫= signal_of W ref) as Hsig.
  { unfold v. rewrite view_signals //. rewrite Hd. by destruct PRIMARY; simpl. }
  destruct Hfin as [S1 S2 S3 S4 S5 S6 S7]. rewrite Hsig in S3. split_and!.
  - eexists. split; [|exact S3]. rewrite (delivered_perm _ _ Hd). by destruct PRIMARY.
  - unfold whereis_name. by rewrite S7 bool_decide_eq_true_2 // Hnm.
  - rewrite S6 bool_decide_eq_true_2 // Hmem. done.
  - intros g m Hne. rewrite S6 bool_decide_eq_false_2 //. intros [-> ->]. done.
  - intros name Hne. by rewrite S7 bool_decide_eq_false_2.
Qed.

End failure.
