(* ===== verification/ClusterSupervisionRun.v ===== *)
(** * The cluster supervision example, started

    Concrete nodes of [ClusterSupervision] from their [main] on: a worker and
    the hub connect, the watcher links and monitors the worker, the worker
    does its tasks and fails.  The theorems of [ClusterSupervisionProps] apply
    to the states that are reached this way. *)

From stdpp Require Import pretty sorting.
From S2P Require Import Prelude Values NodeId Actors State PeerEvents Asyncio Node NodeProps Links.
From S2P Require Import Monitors Groups Registry Discovery Supervisor Setup SupervisorProps Refs Runtime Codec CodecProps.
From S2P Require Import ClusterSupervision ClusterSupervisionProps.

#[local] Instance cs_codec : PayloadCodec := lapinbeam_codec demo_env.

Definition hub_id : string := "hub@h:1".
Definition wk_id : string := "w@h:2".

(** The decorators make of the class what [watcher_meta] says. *)
Lemma watcher_meta_built : actor (Some WATCHER) Watcher = inr watcher_meta.
Proof. reflexivity. Qed.

(** A peer connects: the core has it, the listeners hear of it, and the
    snapshots they schedule are sent. *)
Definition connects (peer : string) : M st unit :=
  with_core (core_set_peers {[peer]}) ;; _on_core_event (EvPeerConnected peer) ;; run_jobs.

(** ** The hub *)

Definition hub_started : st := exec (let! sup := hub_start (Bound hub_id) (λ _ _, None) in hub_watch sup) (Node_init hub_id None).
(** The subtree is built, and the watcher in it runs. *)
Definition hub_running : st :=
  exec (connects wk_id ;; step_child 14 None 0 ;; step_child 18 None 0 ;; step_driver 19 HDone) hub_started.
Definition hub_ready : st := exec (on_setup [(wk_id, "u1")]) hub_running.

Definition core_of (s : st) : core_t := default (fresh_core "" true (λ _ _, None)) (_core s).

Lemma setup_wires_witness :
  ∃ s' co', on_setup [(wk_id, "u1")] hub_running = (inr tt, s') ∧ _core s' = Some co' ∧
    parcels co' = [(wk_id, LINK_ACTOR, link_message "link" WATCHER TASK_WORKER hub_id);
                   (wk_id, MONITOR_ACTOR, monitor_message "u1" WATCHER hub_id TASK_WORKER)].
Proof.
  destruct (setup_wires hub_id [(wk_id, "u1")] hub_running (core_of hub_running)) as (s' & co' & Hr & Hco & Hp & _).
  - vm_compute. reflexivity.
  - split; [vm_compute; reflexivity..| |vm_compute; reflexivity]. constructor; [|constructor].
    split; [vm_compute; reflexivity|]. apply (bool_decide_unpack _). vm_compute. exact I.
  - apply list.NoDup_singleton.
  - exists s', co'. split; [exact Hr|]. split; [exact Hco|]. rewrite Hp. vm_compute. reflexivity.
Defined.

(** ** The worker *)

Definition worker_started : st := exec (worker_main (Bound wk_id) (λ _ _, None)) (Node_init wk_id None).
Definition worker_running : st :=
  exec (connects hub_id ;; step_child 15 None 0 ;; step_driver 16 HDone) worker_started.
Definition worker_wired : st :=
  exec (link_actor_receive (link_message "link" WATCHER TASK_WORKER hub_id) ;;
        monitor_actor_receive (monitor_message "u1" WATCHER hub_id TASK_WORKER)) worker_running.

Definition worker_child : child :=
  Child TASK_WORKER (ActorChild "TaskWorker" (plain_actor TASK_WORKER) 13) (Some 16) None None (Some 15).
Definition worker_sup : supervisor := Supervisor OneForOne 0 5000 [] [2; 5; 8; 11; 14] None false.

Lemma worker_is_wired : wired wk_id hub_id "u1" 0 14 15 16 13 worker_child worker_sup (core_of worker_wired) worker_wired.
Proof.
  split; try (vm_compute; reflexivity); [|vm_compute; by split..].
  split; [vm_compute; reflexivity| |vm_compute; reflexivity..].
  split; [vm_compute; reflexivity|]. apply (bool_decide_unpack _). vm_compute. exact I.
Qed.

Lemma hub_watches : sees wk_id "u1" 16 hub_ready [] (View true [] false false) hub_ready.
Proof.
  split; try (vm_compute; reflexivity).
  - intros g m. case_bool_decide as Hg; [|done]. destruct Hg as [-> ->]. split; [|done]. intros (ms & Hl & _). by vm_compute in Hl.
  - intros n. case_bool_decide as Hn; [|done]. subst. vm_compute. reflexivity.
Qed.

Lemma failure_observed_witness :
  ∃ s' ns, worker_feed 10 (worker_pause 3 true 13 15 16 1000) (Worker worker_wired 0) = (inr 4, Worker s' 4) ∧
    failed wk_id 15 4 s' ∧
    ∀ l, delivered ns l → whereis_name (foldl (hub_hears wk_id "u1") hub_ready l) PRIMARY_NAME = None.
Proof.
  destruct (failure_observed wk_id hub_id "u1" 0 14 15 16 13 worker_child worker_sup 3 true 1000 10 (core_of worker_wired)
              worker_wired 16 [] hub_ready eq_refl eq_refl eq_refl eq_refl worker_is_wired) as (s' & co' & ns & Hf & Hfd & _ & _ & Hall).
  - vm_compute. auto.
  - vm_compute. lia.
  - exact hub_watches.
  - exists s', ns. split; [exact Hf|]. split; [exact Hfd|]. intros l Hl. apply (Hall l Hl).
Defined.

(** What the hub prints, once its actors have heard of the first task, and
    once they have heard of the failure. *)
Lemma hub_prints :
  let up := foldl (hub_hears wk_id "u1") hub_ready (up_notices true) in
  let down := foldl (hub_hears wk_id "u1") up (down_notices true "RuntimeError: fallo permanente tras 4 tareas") in
  hub_members up = ["w@h:2/task_worker"] ∧ hub_primary up = Some "w@h:2/task_worker" ∧
  hub_members down = [] ∧ hub_primary down = None.
Proof. vm_compute. by split_and!. Qed.
