(* ===== verification/PingPong.v ===== *)
(** * Tasks and acknowledgements between two nodes

    [src/examples/app_node_a.py] and [app_node_b.py], and the pair
    [e2e_restart_node_a.py] and [e2e_restart_node_b.py] that repeats them with
    a peer whose process is restarted in between: node A sends numbered tasks
    to the [processor] of node B, which answers each with the doubled number
    to the [ingestor] of node A.  The theorems say which answers arrive, in
    which order, whatever the interleaving and however often B restarts. *)

From S2P Require Import Prelude Values NodeId Actors State PeerEvents Asyncio Node NodeProps Links.
From S2P Require Import Supervisor Codec CodecProps Refs Runtime Cluster Warehouse.

(** ** The actors *)

Section ping_pong.
Context {codec : PayloadCodec} (float_double : pyfloat → pyfloat) (A B : string).

(** [v * 2]; floats are kept as bit patterns, so their product is given. *)
Definition py_double (v : pyval) : exn + pyval :=
  match v with
  | PInt z => inr (PInt (z * 2))
  | PBool b => inr (PInt (if b then 2 else 0)%Z)
  | PStr s => inr (PStr (s +:+ s))
  | PList xs => inr (PList (xs ++ xs))
  | PTuple xs => inr (PTuple (xs ++ xs))
  | PFloat f => inr (PFloat (float_double f))
  | PNone | PDict _ | PObj _ _ => inl (TypeError "unsupported operand type(s) for *")
  end.

(** [ProcessorActor.receive]; what it returns is used by nobody.  A
    [reply_to] that is not a name is refused by the core. *)
Definition processor_receive (msg : pyval) : M st unit :=
  let! type := lift (dict_get msg "type") in
  if is_str type "TASK" then
    let! payload_id := lift (dict_get msg "payload_id") in
    let! reply_to := lift (dict_get msg "reply_to") in
    let! result := lift (py_double payload_id) in
    let! name := lift (as_str reply_to) in
    ref_send (RemoteRef A name) (PDict [("type", PStr "ACK"); ("result", result)]) None None
  else ret tt.

(** [IngestorActor.receive] on [processed_count]. *)
Definition ingestor_receive (msg : pyval) (processed_count : nat) : exn + nat :=
  match dict_get msg "type" with
  | inl e => inl e
  | inr type => inr (if is_str type "ACK" then S processed_count else processed_count)
  end.

Definition task_message (i : nat) : pyval :=
  PDict [("type", PStr "TASK"); ("payload_id", PInt (Z.of_nat i)); ("reply_to", PStr "ingestor")].
Definition ack_message (i : nat) : pyval :=
  PDict [("type", PStr "ACK"); ("result", PInt (Z.of_nat i * 2))].

(** [main] of either node up to the loop that connects. *)
Definition node_a_main (bound : core_start) (refuses : string → pyval → option exn) : M st cid :=
  start bound refuses ;;
  let! sup := new_supervisor OneForOne 3 5000 in
  spawn sup "IngestorActor" (plain_actor "ingestor").

Definition node_b_main (bound : core_start) (refuses : string → pyval → option exn) : M st cid :=
  start bound refuses ;;
  let! sup := new_supervisor OneForOne 3 5000 in
  spawn sup "ProcessorActor" (plain_actor "processor").

(** The restart fixture repeats both, word for word but for the interval at
    which the core dials again. *)
Definition restart_ingestor_receive := ingestor_receive.
Definition restart_processor_receive := processor_receive.
Definition restart_node_a_main := node_a_main.
Definition restart_node_b_main := node_b_main.

(** One turn of the loop that sends: whether the task was taken.  The restart
    fixture passes over the [ValueError] of a send that has nowhere to go. *)
Definition send_task (tolerant : bool) (i : nat) : M st bool :=
  try_except (ref_send (RemoteRef B "processor") (task_message i) None None ;; ret true)
    (λ e, if tolerant && bool_decide (exn_type e = "ValueError") then ret false else raise e).

(** ** Both nodes and what is between them *)

(** [next] is the loop variable of [main], [count] is [processed_count]; the
    last two fields are the history: the tasks that were taken, and the
    acknowledgements that were counted. *)
Record pair := Pair {
  node_a : st; node_b : st; next : nat; count : nat;
  wire_ab : list frame; wire_ba : list frame;
  taken : list nat; acked : list pyval
}.

#[export] Instance pair_settable : Settable pair :=
  λ r, Pair (node_a r) (node_b r) (next r) (count r) (wire_ab r) (wire_ba r) (taken r) (acked r).

(** The oldest frame of a core, and the node without it. *)
Definition pop_out (s : st) : option (frame * st) :=
  match _core s with
  | Some co =>
      match co_out co with
      | f :: rest => Some (f, s <| _core := Some (co <| co_out := rest |>) |>)
      | [] => None
      end
  | None => None
  end.

(** A turn of the ingestor: the message it takes, the count afterwards. *)
Definition ingestor_turn (p : pair) : pair :=
  match _mailboxes (node_a p) !! "ingestor" with
  | None => p
  | Some q =>
      match queues (node_a p) !! q ≫= get_nowait with
      | None => p
      | Some (item, qu') =>
          let p := p <| node_a := (node_a p) <| queues ::= <[q := qu']> |> |> in
          match ingestor_receive item.1 (count p) with
          | inl _ => p
          | inr n => p <| count := n |>
                       <| acked ::= λ l, if bool_decide (n = count p) then l else l ++ [item.1] |>
          end
      end
  end.

Definition set_peers (peers : gset string) (s : st) : st := exec (with_core (core_set_peers peers)) s.
Definition drop_out (s : st) : st := s <| _core ::= fmap (λ co, co <| co_out := [] |>) |>.

Definition knows (s : st) (peer : string) : bool :=
  match _core s with Some co => bool_decide (peer ∈ co_peers co) | None => false end.

(** What happens while both processes run. *)
Inductive pp_step (tolerant : bool) (TOTAL : nat) (p : pair) : pair → Prop :=
| pp_send ok s' :
    next p < TOTAL → send_task tolerant (next p) (node_a p) = (inr ok, s') →
    pp_step tolerant TOTAL p (p <| node_a := s' |> <| next ::= S |> <| taken ::= λ l, if ok then l ++ [next p] else l |>)
| pp_transmit_a f s' :
    pop_out (node_a p) = Some (f, s') →
    pp_step tolerant TOTAL p (p <| node_a := s' |> <| wire_ab ::= λ l, l ++ [f] |>)
| pp_deliver_b f rest :
    wire_ab p = f :: rest → knows (node_b p) A = true →
    pp_step tolerant TOTAL p (p <| wire_ab := rest |> <| node_b := exec (inbound A f) (node_b p) |>)
| pp_processor :
    pp_step tolerant TOTAL p (p <| node_b := exec (stage_turn "processor" processor_receive) (node_b p) |>)
| pp_transmit_b f s' :
    pop_out (node_b p) = Some (f, s') →
    pp_step tolerant TOTAL p (p <| node_b := s' |> <| wire_ba ::= λ l, l ++ [f] |>)
| pp_deliver_a f rest :
    wire_ba p = f :: rest →
    pp_step tolerant TOTAL p (p <| wire_ba := rest |> <| node_a := exec (inbound B f) (node_a p) |>)
| pp_ingestor : pp_step tolerant TOTAL p (ingestor_turn p).

(** B's process is restarted, and with it goes what was on the wire; [fresh]
    is B as its [main] starts it.  Some time later A notices that the
    connection is gone, with what it had queued for it, and connects again. *)
Inductive pp_loss (fresh : st) (p : pair) : pair → Prop :=
| pp_restart :
    pp_loss fresh p (p <| node_b := fresh |> <| wire_ab := [] |> <| wire_ba := [] |>)
| pp_notice :
    knows (node_b p) A = false →
    pp_loss fresh p (p <| node_a := drop_out (set_peers ∅ (node_a p)) |> <| wire_ab := [] |>)
| pp_reconnect :
    knows (node_a p) B = false →
    pp_loss fresh p (p <| node_a ::= set_peers {[B]} |> <| node_b ::= set_peers {[A]} |>).

(** ** One end of the connection *)

(** A started node with one actor and at most one peer: what its core has to
    send to it, and the mail of the actor. *)
Record endpoint (self peer actor : string) (q : qid) (up : bool) (out : list (string * pyval)) (mail : list pyval) (s : st) : Prop := {
  ep_core : ∃ co, _core s = Some co ∧ co_running co = true ∧ co_local co = self ∧ (∀ p v, co_refuses co p v = None) ∧
              co_peers co = (if up then {[peer]} else ∅) ∧ parcel_of <$> co_out co = (λ ap, (peer, ap.1, ap.2)) <$> out;
  ep_mailbox : _mailboxes s !! actor = Some q;
  ep_mail : ∃ items, queues s !! q = Some (Queue items 0) ∧ items.*1 = mail
}.

Lemma ep_send self peer actor q up out mail s dst msg :
  canonical peer = inr peer → plain msg = true → wire_safe msg = true →
  endpoint self peer actor q up out mail s →
  ∃ s', ref_send (RemoteRef peer dst) msg None None s =
          (if up then inr tt else inl (ValueError "send failed: peer not connected"), s') ∧
        endpoint self peer actor q up (if up then out ++ [(dst, msg)] else out) mail s'.
Proof.
  intros Hc Hp Hw [(co & Hco & Hrun & Hl & Href & Hps & Hout) Hm Hq]. cbn [ref_send]. destruct up.
  - assert (is_peer co peer) as Hpeer by (split; [done|rewrite Hps; set_solver]).
    eexists. split; [by apply (send_remote_ok peer dst msg None None s co)|]. split; [|done..].
    eexists. split; [done|]. split_and!; try done. cbn. by rewrite !fmap_app Hout.
  - unfold _send_remote. cbn [bind get]. rewrite Hco encode_plain //.
    rewrite (with_core_run _ _ co) // /core_send_data /= Hc wire_transfer_safe //= /core_require /= Hrun /= Href /= Hps.
    rewrite bool_decide_eq_false_2; [set_solver|]. eexists. split; [done|]. split; [|done..].
    eexists. split; [done|]. by split_and!.
Qed.

Lemma ep_pop self peer actor q up out mail s f s' :
  endpoint self peer actor q up out mail s → pop_out s = Some (f, s') →
  ∃ ap out', out = ap :: out' ∧ (fr_actor f, fr_payload f) = ap ∧ endpoint self peer actor q up out' mail s'.
Proof.
  intros [(co & Hco & Hrun & Hl & Href & Hps & Hout) Hm Hq]. unfold pop_out. rewrite Hco.
  destruct (co_out co) as [|f' rest]; [done|]. intros [= <- <-].
  destruct out as [|ap out']; [done|]. injection Hout as E1 E2 E3 E4.
  exists ap, out'. split; [done|]. split; [by destruct ap; simpl in *; subst|]. split; [|done..].
  eexists. split; [done|]. by split_and!.
Qed.

Lemma ep_pop_none self peer actor q up out mail s :
  endpoint self peer actor q up out mail s → pop_out s = None → out = [].
Proof.
  intros [(co & Hco & _ & _ & _ & _ & Hout) _ _]. unfold pop_out. rewrite Hco. destruct (co_out co) as [|]; [|done].
  by destruct out.
Qed.

Lemma ep_inbound self peer actor q up out mail s from f :
  endpoint self peer actor q up out mail s → fr_actor f = actor → plain (fr_payload f) = true →
  endpoint self peer actor q up out (mail ++ [fr_payload f]) (exec (inbound from f) s).
Proof.
  intros [Hc Hm (items & Hq & Hi)] Ha Hp. unfold inbound, exec. cbn [bind get]. rewrite Ha Hm.
  rewrite (deliver_room _ q _ _ s (Queue items 0)) //. split; [done..|].
  eexists. cbn. rewrite lookup_insert_eq. split; [done|]. by rewrite fmap_app Hi.
Qed.

(** The actor takes the oldest message of its mail, if there is one. *)
Lemma ep_take self peer actor q up out mail s :
  endpoint self peer actor q up out mail s →
  (mail = [] ∧ queues s !! q ≫= get_nowait = None) ∨
  ∃ m mail' item qu, mail = m :: mail' ∧ item.1 = m ∧ queues s !! q ≫= get_nowait = Some (item, qu) ∧
    endpoint self peer actor q up out mail' (s <| queues ::= <[q := qu]> |>).
Proof.
  intros [Hc Hm (items & Hq & Hi)]. destruct items as [|item items]; [left; by rewrite Hq|right].
  exists item.1, items.*1, item, (Queue items 0). rewrite Hq. split_and!; try done.
  split; [done..|]. exists items. cbn. by rewrite lookup_insert_eq.
Qed.

Lemma ep_knows self peer actor q up out mail s : endpoint self peer actor q up out mail s → knows s peer = up.
Proof.
  intros [(co & Hco & _ & _ & _ & Hps & _) _ _]. unfold knows. rewrite Hco Hps.
  destruct up; [apply bool_decide_eq_true_2|apply bool_decide_eq_false_2]; set_solver.
Qed.

Lemma ep_set_peers self peer actor q up up' out mail s :
  endpoint self peer actor q up out mail s → endpoint self peer actor q up' out mail (set_peers (if up' then {[peer]} else ∅) s).
Proof.
  intros [(co & Hco & Hrun & Hl & Href & Hps & Hout) Hm Hq]. unfold set_peers, exec. rewrite (with_core_run _ _ co) //.
  split; [|done..]. eexists. split; [done|]. by split_and!.
Qed.

Lemma ep_drop self peer actor q up out mail s :
  endpoint self peer actor q up out mail s → endpoint self peer actor q up [] mail (drop_out s).
Proof.
  intros [(co & Hco & Hrun & Hl & Href & Hps & Hout) Hm Hq]. split; [|done..]. unfold drop_out. cbn. rewrite Hco.
  eexists. split; [done|]. by split_and!.
Qed.

(** ** The flow of the numbers *)

Context (qa qb : qid) (tolerant : bool) (TOTAL : nat) (fresh : st).
Hypothesis Hcanon : canonical A = inr A ∧ canonical B = inr B.
Hypothesis Hrange : (Z.of_nat TOTAL ≤ 2 ^ 62)%Z.
Hypothesis Hfresh : endpoint B A "processor" qb false [] [] fresh.

Definition task_out (i : nat) : string * pyval := ("processor", task_message i).
Definition ack_out (i : nat) : string * pyval := ("ingestor", ack_message i).
Definition addressed (f : frame) : string * pyval := (fr_actor f, fr_payload f).

(** Where the numbers are, from the ones counted back to the ones just sent. *)
Record flow := Flow {
  f_acked : list nat; f_mail_a : list nat; f_wire_ba : list nat; f_out_b : list nat;
  f_mail_b : list nat; f_wire_ab : list nat; f_out_a : list nat
}.

Definition stream (F : flow) : list nat :=
  f_acked F ++ f_mail_a F ++ f_wire_ba F ++ f_out_b F ++ f_mail_b F ++ f_wire_ab F ++ f_out_a F.

Record pp_inv (up upb : bool) (F : flow) (p : pair) : Prop := {
  pi_a : endpoint A B "ingestor" qa up (task_out <$> f_out_a F) (ack_message <$> f_mail_a F) (node_a p);
  pi_b : endpoint B A "processor" qb upb (ack_out <$> f_out_b F) (task_message <$> f_mail_b F) (node_b p);
  pi_ab : addressed <$> wire_ab p = task_out <$> f_wire_ab F;
  pi_ba : addressed <$> wire_ba p = ack_out <$> f_wire_ba F;
  pi_acked : acked p = ack_message <$> f_acked F;
  pi_count : count p = length (acked p);
  pi_fresh : upb = false → f_mail_b F = [];
  pi_down : up = false → f_wire_ab F = [] ∧ f_out_a F = []
}.

Lemma wire_task i : i < TOTAL → wire_safe (task_message i) = true ∧ wire_safe (ack_message i) = true.
Proof.
  intros Hi. unfold task_message, ack_message. cbn [wire_safe forallb snd]. unfold in_wire_range.
  rewrite !bool_decide_eq_true_2 //; lia.
Qed.

Lemma processor_task i s :
  processor_receive (task_message i) s = ref_send (RemoteRef A "ingestor") (ack_message i) None None s.
Proof. done. Qed.

Lemma ingestor_ack i n : ingestor_receive (ack_message i) n = inr (S n).
Proof. done. Qed.

(** What one step does to the numbers. *)
Definition moved (up : bool) (F F' : flow) (p p' : pair) : Prop :=
  ∃ new, stream F' = stream F ++ new ∧ taken p' = taken p ++ new ∧
    ((next p' = next p ∧ new = []) ∨ (next p' = S (next p) ∧ next p < TOTAL ∧ new = (if up then [next p] else []))).

Lemma moved_still up F F' p p' : stream F' = stream F → taken p' = taken p → next p' = next p → moved up F F' p p'.
Proof. intros H1 H2 H3. exists []. rewrite !app_nil_r. auto. Qed.

Lemma send_moves up upb F p ok s' :
  pp_inv up upb F p → next p < TOTAL → send_task tolerant (next p) (node_a p) = (inr ok, s') →
  ok = up ∧ pp_inv up upb (Flow (f_acked F) (f_mail_a F) (f_wire_ba F) (f_out_b F) (f_mail_b F) (f_wire_ab F)
                          (f_out_a F ++ if up then [next p] else []))
              (p <| node_a := s' |> <| next ::= S |> <| taken ::= λ l, if ok then l ++ [next p] else l |>).
Proof.
  intros [Ia Ib Iab Iba Iac Ic If Id] Hn. unfold send_task, try_except. cbn [bind]. destruct (wire_task _ Hn) as [Hwt _].
  destruct (ep_send A B "ingestor" qa up _ _ (node_a p) "processor" (task_message (next p)) (proj2 Hcanon) eq_refl Hwt Ia) as (s1 & -> & He).
  destruct up.
  - intros [= <- <-]. split; [done|]. split; try done. cbn. by rewrite fmap_app.
  - destruct tolerant; [|done]. intros [= <- <-]. split; [done|]. rewrite app_nil_r. by split.
Qed.

(** The processor answers a task; without a connection it has none. *)
Lemma processor_moves up upb F p :
  pp_inv up upb F p → Forall (λ i, i < TOTAL) (f_mail_b F) →
  ∃ F', pp_inv up upb F' (p <| node_b := exec (stage_turn "processor" processor_receive) (node_b p) |>) ∧ stream F' = stream F.
Proof.
  intros [Ia Ib Iab Iba Iac Ic If Id] Hlt. unfold stage_turn, exec. cbn [bind get]. rewrite (ep_mailbox _ _ _ _ _ _ _ _ Ib).
  destruct (ep_take _ _ _ _ _ _ _ _ Ib) as [[_ ->]|(m & mail' & item & qu & Hmail & Hitem & -> & He)].
  { exists F. split; [|done]. by split. }
  destruct (f_mail_b F) as [|i mB] eqn:EmB; [done|]. injection Hmail as Hm Hmail'. subst mail'.
  destruct upb; [|by specialize (If eq_refl)]. apply list.Forall_cons in Hlt as [Hi _]. destruct (wire_task i Hi) as [_ Hwa].
  cbn [bind modify]. rewrite Hitem -Hm processor_task.
  destruct (ep_send B A "processor" qb true _ _ _ "ingestor" (ack_message i) (proj1 Hcanon) eq_refl Hwa He) as (s1 & -> & He1).
  exists (Flow (f_acked F) (f_mail_a F) (f_wire_ba F) (f_out_b F ++ [i]) mB (f_wire_ab F) (f_out_a F)). split.
  - split; try done. cbn. by rewrite fmap_app.
  - unfold stream. cbn. rewrite EmB. by rewrite -!app_assoc.
Qed.

(** The ingestor counts an acknowledgement. *)
Lemma ingestor_moves up upb F p :
  pp_inv up upb F p → ∃ F', pp_inv up upb F' (ingestor_turn p) ∧ stream F' = stream F ∧
    taken (ingestor_turn p) = taken p ∧ next (ingestor_turn p) = next p.
Proof.
  intros [Ia Ib Iab Iba Iac Ic If Id]. unfold ingestor_turn. rewrite (ep_mailbox _ _ _ _ _ _ _ _ Ia).
  destruct (ep_take _ _ _ _ _ _ _ _ Ia) as [[_ ->]|(m & mail' & item & qu & Hmail & Hitem & -> & He)].
  { exists F. split; [|done]. by split. }
  destruct (f_mail_a F) as [|i mA] eqn:EmA; [done|]. injection Hmail as Hm Hmail'. subst mail'.
  rewrite Hitem -Hm ingestor_ack. cbv zeta. rewrite bool_decide_eq_false_2; [cbn; lia|].
  exists (Flow (f_acked F ++ [i]) mA (f_wire_ba F) (f_out_b F) (f_mail_b F) (f_wire_ab F) (f_out_a F)). split_and!; try done.
  - split; try done; cbn; [by rewrite fmap_app Iac|]. rewrite length_app /=. rewrite Ic. lia.
  - unfold stream. cbn. rewrite EmA. by rewrite -!app_assoc.
Qed.

Lemma plain_pp i : plain (task_message i) = true ∧ plain (ack_message i) = true.
Proof. done. Qed.

Lemma fmap_cons_inv {X Y Z} (g : X → Z) (h : Y → Z) x xs ys :
  g <$> x :: xs = h <$> ys → ∃ y ys', ys = y :: ys' ∧ g x = h y ∧ g <$> xs = h <$> ys'.
Proof. destruct ys as [|y ys]; [done|]. intros [= H1 H2]. eauto. Qed.

Lemma step_moves up upb F p p' :
  pp_inv up upb F p → Forall (λ i, i < TOTAL) (stream F) → pp_step tolerant TOTAL p p' →
  ∃ F', pp_inv up upb F' p' ∧ moved up F F' p p'.
Proof.
  intros HI Hlt Hst. pose proof HI as [Ia Ib Iab Iba Iac Ic If Id].
  destruct Hst as [ok s' Hn Hsend|f s' Hpop|f rest Hw Hk| |f s' Hpop|f rest Hw|].
  - destruct (send_moves up upb F p ok s' HI Hn Hsend) as [-> HI']. eexists. split; [exact HI'|].
    exists (if up then [next p] else []). split; [unfold stream; cbn; by rewrite -!app_assoc|]. cbn.
    split; [destruct up; by rewrite ?app_nil_r|]. right. auto.
  - destruct (ep_pop _ _ _ _ _ _ _ _ _ _ Ia Hpop) as (ap & out' & Hout & Hf & He).
    destruct (f_out_a F) as [|i oA] eqn:HoA; [done|]. injection Hout as Hi Hout'. subst ap out'.
    exists (Flow (f_acked F) (f_mail_a F) (f_wire_ba F) (f_out_b F) (f_mail_b F) (f_wire_ab F ++ [i]) oA). split.
    + split; try done; cbn; [rewrite !fmap_app Iab; by rewrite /= /addressed Hf|]. intros Hup. by destruct (Id Hup) as (_ & ?).
    + apply moved_still; [|done..]. unfold stream. cbn. rewrite HoA. by rewrite -!app_assoc.
  - rewrite Hw in Iab. apply fmap_cons_inv in Iab as (i & wA & HwA & Hf & Hrest). injection Hf as Ha Hpay.
    exists (Flow (f_acked F) (f_mail_a F) (f_wire_ba F) (f_out_b F) (f_mail_b F ++ [i]) wA (f_out_a F)). split.
    + split; try done; cbn.
      * rewrite fmap_app /= -Hpay. apply ep_inbound; [done..|]. by rewrite Hpay.
      * intros ->. by rewrite (ep_knows _ _ _ _ _ _ _ _ Ib) in Hk.
      * intros Hup. destruct (Id Hup) as (? & _). congruence.
    + apply moved_still; [|done..]. unfold stream. cbn. rewrite HwA. by rewrite -!app_assoc.
  - destruct (processor_moves up upb F p HI) as (F' & HI' & HF'); [|exists F'; split; [done|]; by apply moved_still].
    unfold stream in Hlt. rewrite !Forall_app in Hlt. apply Hlt.
  - destruct (ep_pop _ _ _ _ _ _ _ _ _ _ Ib Hpop) as (ap & out' & Hout & Hf & He).
    destruct (f_out_b F) as [|i oB] eqn:HoB; [done|]. injection Hout as Hi Hout'. subst ap out'.
    exists (Flow (f_acked F) (f_mail_a F) (f_wire_ba F ++ [i]) oB (f_mail_b F) (f_wire_ab F) (f_out_a F)). split.
    + split; try done; cbn. rewrite !fmap_app Iba. by rewrite /= /addressed Hf.
    + apply moved_still; [|done..]. unfold stream. cbn. rewrite HoB. by rewrite -!app_assoc.
  - rewrite Hw in Iba. apply fmap_cons_inv in Iba as (i & wB & HwB & Hf & Hrest). injection Hf as Ha Hpay.
    exists (Flow (f_acked F) (f_mail_a F ++ [i]) wB (f_out_b F) (f_mail_b F) (f_wire_ab F) (f_out_a F)). split.
    + split; try done; cbn. rewrite fmap_app /= -Hpay. apply ep_inbound; [done..|]. by rewrite Hpay.
    + apply moved_still; [|done..]. unfold stream. cbn. rewrite HwB. by rewrite -!app_assoc.
  - destruct (ingestor_moves up upb F p HI) as (F' & HI' & HF' & Ht & Hnx). exists F'. split; [done|]. by apply moved_still.
Qed.

Lemma loss_moves up upb F p p' :
  pp_inv up upb F p → pp_loss fresh p p' →
  ∃ up' upb' F', pp_inv up' upb' F' p' ∧ stream F' `sublist_of` stream F ∧ taken p' = taken p ∧ next p' = next p.
Proof.
  intros [Ia Ib Iab Iba Iac Ic If Id] Hl. destruct Hl as [|Hk|Hk].
  - exists up, false, (Flow (f_acked F) (f_mail_a F) [] [] [] [] (f_out_a F)). split; [split; try done; naive_solver|].
    split; [|done]. unfold stream. cbn. do 2 (apply sublist_app; [done|]). apply sublist_inserts_l. by do 3 apply sublist_inserts_l.
  - rewrite (ep_knows _ _ _ _ _ _ _ _ Ib) in Hk. subst upb.
    exists false, false, (Flow (f_acked F) (f_mail_a F) (f_wire_ba F) (f_out_b F) (f_mail_b F) [] []). split; [|split; [|done]].
    + split; try done. cbn. eapply ep_drop. eapply (ep_set_peers _ _ _ _ _ false). exact Ia.
    + unfold stream. cbn. do 5 (apply sublist_app; [done|]). apply sublist_nil_l.
  - rewrite (ep_knows _ _ _ _ _ _ _ _ Ia) in Hk. subst up. exists true, true, F. split; [|done].
    split; try done; cbn; [exact (ep_set_peers _ _ _ _ _ true _ _ _ Ia)|exact (ep_set_peers _ _ _ _ _ true _ _ _ Ib)].
Qed.

(** What holds in every state: the numbers counted and those on their way back
    are some of those taken, in order, and these some of those sent. *)
Definition accounted (p : pair) : Prop :=
  ∃ up upb F, pp_inv up upb F p ∧ stream F `sublist_of` taken p ∧ taken p `sublist_of` seq 0 (next p) ∧ next p ≤ TOTAL.

Lemma sublist_seq_lt (l : list nat) n : l `sublist_of` seq 0 n → Forall (λ i, i < n) l.
Proof.
  intros Hs. assert (Forall (λ i, i < n) (seq 0 n)) as Hf.
  { apply list.Forall_forall. intros i Hi%elem_of_seq. lia. }
  revert Hf. induction Hs as [|x l k _ IH|x l k _ IH]; rewrite ?list.Forall_cons; [done|naive_solver..].
Qed.

Lemma moved_accounted up F F' p p' :
  stream F `sublist_of` taken p → taken p `sublist_of` seq 0 (next p) → next p ≤ TOTAL → moved up F F' p p' →
  stream F' `sublist_of` taken p' ∧ taken p' `sublist_of` seq 0 (next p') ∧ next p' ≤ TOTAL.
Proof.
  intros Hs Ht Hn (new & -> & -> & [[-> ->]|(-> & Hlt & ->)]); [by rewrite !app_nil_r|]. rewrite seq_S.
  split; [by apply sublist_app|]. split; [|lia]. apply sublist_app; [done|]. destruct up; [done|apply sublist_nil_l].
Qed.

Lemma reach_accounted p0 p :
  accounted p0 → rtc (λ p p', pp_step tolerant TOTAL p p' ∨ pp_loss fresh p p') p0 p → accounted p.
Proof.
  intros H0 Hr. induction Hr as [|p1 p2 p3 Hst _ IH]; [done|]. apply IH. clear IH.
  destruct H0 as (up & upb & F & HI & Hs & Ht & Hn). destruct Hst as [Hst|Hl].
  - destruct (step_moves up upb F p1 p2 HI) as (F' & HI' & Hm); [|done|].
    + eapply list.Forall_impl; [apply sublist_seq_lt; etrans; [exact Hs|exact Ht]|]. simpl. lia.
    + exists up, upb, F'. split; [done|]. by eapply moved_accounted.
  - destruct (loss_moves up upb F p1 p2 HI Hl) as (up' & upb' & F' & HI' & Hsub & Ht' & Hn').
    exists up', upb', F'. rewrite Ht' Hn'. split_and!; try done. by etrans.
Qed.

(** Without a restart nothing is lost. *)
Lemma reach_complete p0 p :
  (∃ F, pp_inv true true F p0 ∧ stream F = taken p0 ∧ taken p0 = seq 0 (next p0) ∧ next p0 ≤ TOTAL) →
  rtc (pp_step tolerant TOTAL) p0 p →
  ∃ F, pp_inv true true F p ∧ stream F = seq 0 (next p) ∧ taken p = seq 0 (next p) ∧ next p ≤ TOTAL.
Proof.
  intros (F0 & HI0 & Hs0 & Ht0 & Hn0) Hr. rewrite Ht0 in Hs0. revert F0 HI0 Hs0 Ht0 Hn0.
  induction Hr as [p|p1 p2 p3 Hst _ IH]; intros F HI Hs Ht Hn; [by exists F|].
  destruct (step_moves true true F p1 p2 HI) as (F' & HI' & (new & Hs' & Ht' & Hnew)); [|done|].
  { rewrite Hs. apply list.Forall_forall. intros i Hi%elem_of_seq. lia. }
  rewrite Hs in Hs'. rewrite Ht in Ht'.
  destruct Hnew as [[Hnx ->]|(Hnx & Hlt & ->)]; (apply (IH F'); [done|..]); rewrite ?Hs' ?Ht' Hnx ?app_nil_r ?seq_S //.
Qed.

(** Nothing is under way and the mailboxes are empty. *)
Definition at_rest (p : pair) : Prop :=
  pop_out (node_a p) = None ∧ pop_out (node_b p) = None ∧ wire_ab p = [] ∧ wire_ba p = [] ∧
  queues (node_a p) !! qa ≫= get_nowait = None ∧ queues (node_b p) !! qb ≫= get_nowait = None.

Lemma rest_acked up upb F p : pp_inv up upb F p → at_rest p → stream F = f_acked F.
Proof.
  intros [Ia Ib Iab Iba Iac Ic If Id] (Ha & Hb & Hab & Hba & Hqa & Hqb).
  apply (ep_pop_none _ _ _ _ _ _ _ _ Ia), fmap_nil_inv in Ha. apply (ep_pop_none _ _ _ _ _ _ _ _ Ib), fmap_nil_inv in Hb.
  rewrite Hab in Iab. rewrite Hba in Iba. symmetry in Iab, Iba. apply fmap_nil_inv in Iab, Iba.
  destruct (ep_take _ _ _ _ _ _ _ _ Ia) as [[Hma _]|(? & ? & ? & ? & _ & _ & Hg & _)]; [|by rewrite Hqa in Hg].
  destruct (ep_take _ _ _ _ _ _ _ _ Ib) as [[Hmb _]|(? & ? & ? & ? & _ & _ & Hg & _)]; [|by rewrite Hqb in Hg].
  apply fmap_nil_inv in Hma, Hmb. unfold stream. rewrite Ha Hb Iab Iba Hma Hmb !app_nil_r. done.
Qed.

(** The two nodes as their [main]s start them, connected. *)
Definition pp_initial (p : pair) : Prop :=
  pp_inv true true (Flow [] [] [] [] [] [] []) p ∧ next p = 0 ∧ taken p = [].

(** (C31) Acknowledgements.  Whatever the interleaving of sends, frames and
    turns of the two actors, and however often B's process is restarted and
    A connects again: the acknowledgements that A has counted are the doubled
    numbers of some of the tasks that were taken, each at most once and in the
    order they were sent, and [processed_count] is how many they are.  Without
    a restart every send is taken, and once nothing is under way each of them
    has been acknowledged. *)
Theorem acknowledgements p0 p :
  pp_initial p0 →
  (rtc (λ p p', pp_step tolerant TOTAL p p' ∨ pp_loss fresh p p') p0 p →
   ∃ ids, acked p = ack_message <$> ids ∧ count p = length ids ∧
     ids `sublist_of` taken p ∧ taken p `sublist_of` seq 0 (next p) ∧ next p ≤ TOTAL) ∧
  (rtc (pp_step tolerant TOTAL) p0 p →
   taken p = seq 0 (next p) ∧ (at_rest p → acked p = ack_message <$> seq 0 (next p) ∧ count p = next p)).
Proof.
  intros (HI & Hn & Ht). split; intros Hr.
  - destruct (reach_accounted p0 p) as (up & upb & F & HI' & Hs & Htk & Hnx); [|done|].
    { eexists true, true, _. split; [exact HI|]. rewrite Hn Ht. split_and!; [done..|lia]. }
    exists (f_acked F). pose proof HI' as [_ _ _ _ Iac Ic _ _]. split; [done|].
    split; [by rewrite Ic Iac length_fmap|]. split; [|done]. etrans; [|exact Hs]. unfold stream. by apply sublist_inserts_r.
  - destruct (reach_complete p0 p) as (F & HI' & Hs & Htk & Hnx); [|done|].
    { eexists. split; [exact HI|]. rewrite Hn Ht. split_and!; [done..|lia]. }
    split; [done|]. intros Hrest. pose proof (rest_acked _ _ _ _ HI' Hrest) as Hac. pose proof HI' as [_ _ _ _ Iac Ic _ _].
    rewrite Iac Ic Iac length_fmap -Hac Hs length_seq. done.
Qed.

End ping_pong.

(** ** A run *)

#[local] Instance pp_codec : PayloadCodec := lapinbeam_codec demo_env.

Definition pp_a : string := "node_a@h:1".
Definition pp_b : string := "node_b@h:2".
Definition no_floats (f : pyfloat) : pyfloat := f.

Definition pp_fresh : st := exec (node_b_main (Bound pp_b) (λ _ _, None)) (Node_init pp_b None).
Definition pp_pair : pair :=
  Pair (set_peers {[pp_b]} (exec (node_a_main (Bound pp_a) (λ _ _, None)) (Node_init pp_a None)))
       (set_peers {[pp_a]} pp_fresh) 0 0 [] [] [] [].

Lemma pp_pair_initial : pp_initial pp_a pp_b 1 1 pp_pair.
Proof.
  split; [|done]. split; try done.
  - split; [|reflexivity|by exists []]. eexists. by split_and!.
  - split; [|reflexivity|by exists []]. eexists. by split_and!.
Qed.

(** One task, from the send to the count. *)
Definition pp_sent : pair :=
  pp_pair <| node_a := exec (send_task pp_b false 0) (node_a pp_pair) |> <| next ::= S |>
          <| taken ::= λ l, if true then l ++ [next pp_pair] else l |>.
Definition out_of (s : st) : frame * st := default (Frame "" "" PNone None None 0, s) (pop_out s).
Definition pp_on_wire : pair :=
  pp_sent <| node_a := (out_of (node_a pp_sent)).2 |> <| wire_ab ::= λ l, l ++ [(out_of (node_a pp_sent)).1] |>.
Definition pp_arrived : pair :=
  pp_on_wire <| wire_ab := [] |> <| node_b := exec (inbound pp_a (out_of (node_a pp_sent)).1) (node_b pp_on_wire) |>.
Definition pp_processed : pair :=
  pp_arrived <| node_b := exec (stage_turn "processor" (processor_receive no_floats pp_a)) (node_b pp_arrived) |>.
Definition pp_answered : pair :=
  pp_processed <| node_b := (out_of (node_b pp_processed)).2 |> <| wire_ba ::= λ l, l ++ [(out_of (node_b pp_processed)).1] |>.
Definition pp_returned : pair :=
  pp_answered <| wire_ba := [] |> <| node_a := exec (inbound pp_b (out_of (node_b pp_processed)).1) (node_a pp_answered) |>.
Definition pp_counted : pair := ingestor_turn pp_returned.

Lemma pp_send_step : pp_step no_floats pp_a pp_b false 1 pp_pair pp_sent.
Proof. apply pp_send; [exact (le_n 1)|vm_compute; reflexivity]. Qed.

Lemma out_of_pop s : is_Some (pop_out s) → pop_out s = Some ((out_of s).1, (out_of s).2).
Proof. intros [[f s'] Hp]. unfold out_of. by rewrite Hp. Qed.

Lemma pp_wire_step : pp_step no_floats pp_a pp_b false 1 pp_sent pp_on_wire.
Proof. apply pp_transmit_a, out_of_pop. vm_compute. by eexists. Qed.

Lemma pp_arrive_step : pp_step no_floats pp_a pp_b false 1 pp_on_wire pp_arrived.
Proof. apply pp_deliver_b; vm_compute; reflexivity. Qed.

Lemma pp_answer_step : pp_step no_floats pp_a pp_b false 1 pp_processed pp_answered.
Proof. apply pp_transmit_b, out_of_pop. vm_compute. by eexists. Qed.

Lemma pp_return_step : pp_step no_floats pp_a pp_b false 1 pp_answered pp_returned.
Proof. apply pp_deliver_a; vm_compute; reflexivity. Qed.

Lemma pp_run : rtc (pp_step no_floats pp_a pp_b false 1) pp_pair pp_counted.
Proof.
  eapply rtc_l; [exact pp_send_step|]. eapply rtc_l; [exact pp_wire_step|]. eapply rtc_l; [exact pp_arrive_step|].
  eapply rtc_l; [exact (pp_processor _ _ _ _ _ pp_arrived)|].
  eapply rtc_l; [exact pp_answer_step|]. eapply rtc_l; [exact pp_return_step|].
  apply rtc_once. exact (pp_ingestor _ _ _ _ _ pp_returned).
Qed.

Lemma acknowledgements_witness :
  acked pp_counted = [ack_message 0] ∧ count pp_counted = 1.
Proof.
  destruct (acknowledgements no_floats pp_a pp_b 1 1 false 1 pp_fresh) with (p0 := pp_pair) (p := pp_counted) as [_ H].
  - split; reflexivity.
  - lia.
  - split; [|reflexivity|by exists []]. eexists. by split_and!.
  - exact pp_pair_initial.
  - destruct (H pp_run) as [_ Hrest]. apply Hrest. vm_compute. by split_and!.
Defined.
