(* ===== verification/Witnesses.v ===== *)
(** * Concrete runs

    A small node, started and driven by the operations of the model, on which
    the hypotheses of the theorems hold; each theorem is applied to it once.
    The supervisor is object 0; the actor [worker] has mailbox 1, child record
    2, task 3 and driver 7; the actor [helper] has mailbox 4, child record 5,
    task 6 and driver 8. *)

From S2P Require Import Prelude Values NodeId Actors State PeerEvents Asyncio Node NodeProps Links.
From S2P Require Import Monitors Groups Registry Discovery Supervisor Setup CurrentNode SupervisorProps.
From S2P Require Import SupervisorGroup NodeStop SupervisorTree SupervisorGaps Codec CodecProps Refs ContextVars Pool PoolLife PoolChurn Runtime Heap Cluster RegistryCluster.

#[local] Instance demo_codec : PayloadCodec := lapinbeam_codec demo_env.

Definition open_transport (peer : string) (v : pyval) : option exn := None.

(** A started node with one application listener. *)
Definition demo_node (id : string) : st :=
  exec (start (Bound id) open_transport ;; on_event (LUser 0 true)) (Node_init id (Some 2)).

Definition connect (peer : string) (s : st) : st :=
  s <| _core ::= fmap (λ co, co <| co_peers ::= union {[peer]} |>) |>.

Definition node_A : st := connect "B@h:2" (demo_node "A@h:1").
Definition node_B : st := connect "A@h:1" (demo_node "B@h:2").
Definition core_A : core_t := default (fresh_core "" false open_transport) (_core node_A).
Definition core_B : core_t := default (fresh_core "" false open_transport) (_core node_B).

Definition worker_meta : actor_meta := plain_actor "worker".
Definition helper_meta : actor_meta := plain_actor "helper".

(** Two actors under one supervisor, both waiting for mail. *)
Definition boot (strat : strategy) (max : nat) : M st unit :=
  new_supervisor strat max 5000 ;;
  spawn 0 "Worker" worker_meta ;; spawn 0 "Helper" helper_meta ;;
  step_child 3 None 0 ;; step_child 6 None 0 ;; step_driver 7 HDone ;; step_driver 8 HDone.

Definition up (strat : strategy) (max : nat) : st := exec (boot strat max) node_A.

(** [helper] links itself to [worker] and monitors it. *)
Definition tied (strat : strategy) (max : nat) : st :=
  exec (link (Some "helper") (ActorRef "worker") ;; monitor (Some "helper") "ref1" (ActorRef "worker"))
       (up strat max).

(** A message makes [worker]'s handler raise. *)
Definition boom : exn := RuntimeError "boom".

Definition crashed (strat : strategy) (max : nat) : st :=
  exec (_send_local "worker" (PInt 1) None None ;; _send_local "worker" (PInt 2) None None ;;
        step_driver 7 (HRaise boom)) (tied strat max).

Definition worker_child : child :=
  Child "worker" (ActorChild "Worker" worker_meta 1) (Some 7) None None (Some 3).

Definition demo_sup (strat : strategy) (max : nat) (times : list Z) : supervisor :=
  Supervisor strat max 5000 times [2; 5] None false.

(** [running], decided. *)
Definition is_running (s : st) : bool := match _core s with Some co => co_running co | None => false end.

Lemma is_running_true s : is_running s = true → running s.
Proof. unfold is_running. destruct (_core s) as [co|] eqn:E; [|done]. by exists co. Qed.

Lemma died_raise s ch d e : tasks s !! d ≫= t_out = Some (OExn e) → died s ch d e.
Proof. destruct (tasks s !! d) as [dk|] eqn:E; [|done]. intros H. exists dk. auto. Qed.

Ltac run := vm_compute; reflexivity.

(** ** The supervisor *)

Lemma crash_within_budget_witness :
  jobs (exec (step_child 3 None 100) (crashed OneForOne 3)) = [] ∧
  _mailboxes (exec (step_child 3 None 100) (crashed OneForOne 3)) !! "worker" = None.
Proof.
  pose proof (crash_within_budget 3 0 2 None 100 (crashed OneForOne 3) 7 worker_child boom
    (demo_sup OneForOne 3 []) (demo_sup OneForOne 3 [100%Z])) as H.
  unfold exec. rewrite H.
  - by apply is_running_true.
  - run.
  - run.
  - apply died_raise. run.
  - run.
  - run.
  - split; run.
Defined.

(** The same node with [worker] asleep in its back-off. *)
Definition asleep (strat : strategy) (max : nat) : st := exec (step_child 3 None 100) (crashed strat max).
Definition asleep_crash : crash :=
  Crash boom (Some {[(None, "helper")]}) (Some {["ref1" := (None, "helper")]}).

Lemma restart_in_place_witness :
  let r := (fire_timer 3 ;; step_child 3 None 200) (asleep OneForOne 3) in
  _mailboxes r.2 !! "worker" = Some 1 ∧ (q_items <$> queues r.2 !! 1) =
    Some [(PInt 2, MessageMeta (Some "A@h:1") None None None)].
Proof.
  intros r.
  pose proof (restart_in_place 3 0 2 asleep_crash 100 worker_child "Worker" worker_meta 1
    (demo_sup OneForOne 3 [100%Z]) 200 (asleep OneForOne 3)) as H.
  destruct H as (_ & Hm & _ & Hq & _).
  - by apply is_running_true.
  - run.
  - run.
  - run.
  - vm_compute. discriminate.
  - run.
  - run.
  - run.
  - fold r in Hm, Hq. rewrite Hm Hq. split; run.
Defined.

Lemma one_for_one_gives_up_witness :
  let s' := exec (step_child 3 None 100) (crashed OneForOne 0) in
  t_out <$> tasks s' !! 3 = Some (Some (OExn boom)) ∧
  jobs s' = [JDeliverExit "worker" "helper" "RuntimeError: boom";
             JDeliverDown "ref1" "worker" "RuntimeError: boom"].
Proof.
  intros s'.
  pose proof (one_for_one_gives_up 3 0 2 None 100 (crashed OneForOne 0) 7 worker_child boom
    (demo_sup OneForOne 0 []) (demo_sup OneForOne 0 [])) as H.
  destruct H as (Ht & _ & _ & _ & _ & Hj & _).
  - by apply is_running_true.
  - run.
  - run.
  - apply died_raise. run.
  - run.
  - run.
  - run.
  - split; [exact Ht|]. unfold s'. rewrite Hj. run.
Defined.


(** A supervisor [tree] (child 1, task 2) under supervisor 0, with one actor
    that may not restart at all. *)
Definition leaf_meta : actor_meta := plain_actor "leaf".
Definition tree_child : child :=
  Child "tree" (SupervisorChild [BSpawn "Leaf" leaf_meta] "one_for_one" 0 5000) None None (Some 3) (Some 2).
Definition fallen : st :=
  exec (new_supervisor OneForOne 3 5000 ;;
        spawn_supervisor 0 "tree" [BSpawn "Leaf" leaf_meta] "one_for_one" 0 5000 ;;
        step_child 2 None 0 ;; step_child 6 None 0 ;; step_driver 7 HDone ;;
        _send_local "leaf" (PInt 1) None None ;; step_driver 7 (HRaise boom) ;; step_child 6 None 50) node_A.

Lemma give_up_escalates_witness :
  tasks (step_child 2 None 60 fallen).2 !! 2 =
  Some (Task (CodeChild 0 1 (PcBackoff (Crash boom None None))) (WSleep 100) false None).
Proof.
  pose proof (give_up_escalates 2 0 1 None 60 fallen 3 (Supervisor OneForOne 0 5000 [] [] (Some boom) true)
    tree_child boom (Supervisor OneForOne 3 5000 [] [1] None false)) as H.
  cbn [_allow_restart] in H.
  replace (_allow_restart 60 _) with (true, Supervisor OneForOne 3 5000 [60%Z] [1] None false) in H by run.
  rewrite H; run.
Defined.

Lemma cancel_stops_actor_witness :
  let r := (cancel_child 2 ;; step_driver 7 HDone ;; step_child 3 None 100) (tied OneForOne 3) in
  t_out <$> tasks r.2 !! 3 = Some (Some OCancelled) ∧
  jobs r.2 = [JDeliverExit "worker" "helper" "shutdown"; JDeliverDown "ref1" "worker" "shutdown"].
Proof.
  intros r.
  pose proof (cancel_stops_actor (tied OneForOne 3) 0 2 3 7 worker_child None HDone None 100) as H.
  destruct H as (_ & Ht & _ & _ & _ & _ & _ & _ & _ & Hj).
  - split; [by apply is_running_true|run|run|run|run].
  - by left.
  - run.
  - split; [exact Ht|]. unfold r. rewrite Hj. run.
Defined.

(** ** Groups of actors *)

Definition helper_child : child :=
  Child "helper" (ActorChild "Helper" helper_meta 4) (Some 8) None None (Some 6).
Definition worker_task : member_task := MemberTask 2 3 7 worker_child None.
Definition helper_task : member_task := MemberTask 5 6 8 helper_child None.

Lemma idle_pair strat :
  strat = OneForOne ∨ strat = OneForAll → idle_group 0 [worker_task; helper_task] (up strat 3).
Proof.
  intros Hs. split.
  - intros a. rewrite !elem_of_cons elem_of_nil. intros [->|[->|[]]]; destruct Hs as [->| ->];
      (split; [by apply is_running_true|run|run|run|run]).
  - intros a. rewrite !elem_of_cons elem_of_nil. intros [->|[->|[]]]; run.
  - apply (bool_decide_unpack _). vm_compute. exact I.
Qed.

(** The two actors end interleaved, with a turn too many in between. *)
Definition stop_schedule : list turn :=
  (λ t, Turn t HDone None 100) <$> [3; 8; 7; 8; 6; 3].

Lemma shutdown_completes_witness :
  let s' := exec (shutdown 0 ;; for_each stop_schedule run_turn) (up OneForOne 3) in
  forallb (task_done s') [3; 6] = true ∧ _mailboxes s' !! "worker" = None ∧ _mailboxes s' !! "helper" = None.
Proof.
  intros s'.
  pose proof (shutdown_completes 0 [worker_task; helper_task] (demo_sup OneForOne 3 []) (up OneForOne 3)
    stop_schedule) as H.
  destruct H as (Hd & Hg & _).
  - by apply is_running_true.
  - apply idle_pair. by left.
  - run.
  - run.
  - apply list.Forall_forall. intros u (t & -> & Ht)%list_elem_of_fmap. split.
    2: { intros a. rewrite !elem_of_cons elem_of_nil. intros [->|[->|[]]] _; by left. }
    revert t Ht. apply list.Forall_forall, (bool_decide_unpack _). vm_compute. exact I.
  - intros a. rewrite !elem_of_cons elem_of_nil. intros [->|[->|[]]]; vm_compute; repeat constructor.
  - fold s' in Hd, Hg. split; [exact Hd|]. split; [apply (Hg worker_task)|apply (Hg helper_task)]; by repeat constructor.
Defined.

(** Three levels: [worker] and the subtree [tree] under supervisor 0, [leaf] and
    the subtree [twig] under supervisor 7, [bud] under supervisor 14. *)
Definition bud_meta : actor_meta := plain_actor "bud".
Definition twig : list build_op := [BSpawn "Bud" bud_meta].
Definition branch : list build_op := [BSpawn "Leaf" leaf_meta; BSpawnSupervisor "twig" twig "one_for_all" 1 5000].

Definition grove : st :=
  exec (new_supervisor OneForOne 3 5000 ;; spawn 0 "Worker" worker_meta ;;
        spawn_supervisor 0 "tree" branch "one_for_one" 1 5000 ;;
        step_child 3 None 0 ;; step_child 5 None 0 ;; step_child 10 None 0 ;; step_child 12 None 0 ;; step_child 17 None 0 ;;
        step_driver 6 HDone ;; step_driver 13 HDone ;; step_driver 18 HDone) node_A.

Definition grove_vertices : list vertex :=
  [VActor 0 (MemberTask 2 3 6 (Child "worker" (ActorChild "Worker" worker_meta 1) (Some 6) None None (Some 3)) None);
   VSup 0 4 5 (Child "tree" (SupervisorChild branch "one_for_one" 1 5000) None None (Some 7) (Some 5)) 7;
   VActor 7 (MemberTask 9 10 13 (Child "leaf" (ActorChild "Leaf" leaf_meta 8) (Some 13) None None (Some 10)) None);
   VSup 7 11 12 (Child "twig" (SupervisorChild twig "one_for_all" 1 5000) None None (Some 14) (Some 12)) 14;
   VActor 14 (MemberTask 16 17 18 (Child "bud" (ActorChild "Bud" bud_meta 15) (Some 18) None None (Some 17)) None)].

Lemma in_grove (P : vertex → Prop) : Forall P grove_vertices → ∀ v, v ∈ grove_vertices → P v.
Proof. apply list.Forall_forall. Qed.

Lemma grove_fixed v : v ∈ grove_vertices → v_fixed grove_vertices 0 grove v.
Proof.
  revert v. apply in_grove. unfold grove_vertices at 2.
  repeat (apply list.Forall_cons; split); try by apply list.Forall_nil.
  - split; [run|run|run|by left].
  - split; [run|run|split_and!; [simpl; lia|run|eexists; split_and!; run]|by left].
  - split; [run|run|run|right; do 4 eexists; by apply (list_elem_of_lookup_2 _ 1)].
  - split; [run|run|split_and!; [simpl; lia|run|eexists; split_and!; run]|right; do 4 eexists; by apply (list_elem_of_lookup_2 _ 1)].
  - split; [run|run|run|right; do 4 eexists; by apply (list_elem_of_lookup_2 _ 3)].
Qed.

(** The task of each nested supervisor, and what the drivers are doing. *)
Lemma grove_shape v : v ∈ grove_vertices →
  match v with
  | VActor _ a => m_cur a = None
  | VSup _ _ t _ ns => t = (if bool_decide (ns = 7) then 5 else 12) ∧ ns ≠ 0
  end.
Proof. revert v. apply in_grove. by repeat (apply list.Forall_cons; split). Qed.

Lemma grove_rests : tree grove_vertices 0 grove (λ _, VResting).
Proof.
  split.
  - by apply is_running_true.
  - apply (bool_decide_unpack _). vm_compute. exact I.
  - apply grove_fixed.
  - intros * [H1 _]%grove_shape [H2 _]%grove_shape. congruence.
  - intros sp c t ch [_ H]%grove_shape. done.
  - apply in_grove. unfold grove_vertices at 2. repeat (apply list.Forall_cons; split); try by apply list.Forall_nil.
    all: vm_compute; by repeat split.
  - done.
Qed.

(** Fifteen rounds in an order that suits nobody. *)
Definition grove_round : list turn := (λ t, Turn t HDone None 100) <$> [3; 5; 6; 10; 13; 12; 17; 18].
Definition grove_rounds : list (list turn) := replicate 15 grove_round.

Lemma tree_shutdown_completes_witness :
  let s' := exec (shutdown 0 ;; for_each (concat grove_rounds) loop_turn) grove in
  forallb (task_done s') [3; 5] = true ∧ t_out <$> tasks s' !! 17 = Some (Some OCancelled) ∧
  _mailboxes s' !! "bud" = None.
Proof.
  intros s'.
  pose proof (tree_shutdown_completes 0 grove_vertices (Supervisor OneForOne 3 5000 [] [2; 4] None false) grove grove_rounds) as H.
  destruct H as (Hd & Ht & Hn & _).
  - exact grove_rests.
  - run.
  - run.
  - apply Forall_replicate. split.
    + apply list.Forall_forall. intros u (t & -> & Ht)%list_elem_of_fmap. split.
      * revert t Ht. apply list.Forall_forall, (bool_decide_unpack _). vm_compute. exact I.
      * intros sp a Ha%grove_shape _. by left.
    + apply list.Forall_forall, (bool_decide_unpack _). vm_compute. exact I.
  - simpl. lia.
  - fold s' in Hd, Ht, Hn. split; [exact Hd|]. split.
    + apply (Ht (VActor 14 (MemberTask 16 17 18 (Child "bud" (ActorChild "Bud" bud_meta 15) (Some 18) None None (Some 17)) None))).
      by apply (list_elem_of_lookup_2 _ 4).
    + destruct (Hn 14 (MemberTask 16 17 18 (Child "bud" (ActorChild "Bud" bud_meta 15) (Some 18) None None (Some 17)) None)) as [Hm _];
        [by apply (list_elem_of_lookup_2 _ 4)|exact Hm].
Defined.

(** The node is stopped while it connects to a peer. *)
Definition connecting : st := exec (connect_peer_begin "C@h:3" false) (up OneForOne 3).


(** No task has an identity that is not given out yet, decided. *)
Lemma fresh_tids s :
  bool_decide (map_Forall (λ x _, x < next_id s) (tasks s)) = true → ∀ x, is_Some (tasks s !! x) → x < next_id s.
Proof. intros H%bool_decide_eq_true x [tk Ht]. exact (H x tk Ht). Qed.

Lemma fresh_qids s :
  bool_decide (map_Forall (λ x _, x < next_id s) (queues s)) = true → ∀ x, is_Some (queues s !! x) → x < next_id s.
Proof. intros H%bool_decide_eq_true x [qu Hq]. exact (H x qu Hq). Qed.

(** [worker]'s crash takes [helper] along. *)
Lemma crashed_pair : crashed_group 3 0 2 asleep_crash worker_child 1 [helper_task] (asleep OneForAll 3).
Proof.
  split.
  - by apply is_running_true.
  - run.
  - exists "Worker", worker_meta. run.
  - run.
  - exists 100%Z. run.
  - exists (demo_sup OneForAll 3 [100%Z]). split; run.
  - split; [intros a ->%list_elem_of_singleton|intros a ->%list_elem_of_singleton; run|].
    + split; [by apply is_running_true|run|run|run|run].
    + apply (bool_decide_unpack _). vm_compute. exact I.
  - intros a ->%list_elem_of_singleton. by eexists _, _, _.
  - apply (bool_decide_unpack _). vm_compute. exact I.
  - apply (bool_decide_unpack _). vm_compute. exact I.
  - apply (bool_decide_unpack _). vm_compute. exact I.
  - apply fresh_tids. run.
  - run.
Qed.


(** A subtree whose [build] spawns an actor and then fails. *)
Definition half_built : st :=
  exec (new_supervisor OneForOne 3 5000 ;;
        spawn_supervisor 0 "tree" [BSpawn "Leaf" leaf_meta; BRaise boom] "one_for_one" 0 5000) node_A.

Lemma build_failure_leaks_witness :
  let s2 := exec (fire_timer 2 ;; step_child 2 None 200) (exec (step_child 2 None 10) half_built) in
  t_code <$> tasks s2 !! 2 = Some (CodeChild 0 1 (PcBackoff (Crash (already_taken "leaf") None None))) ∧
  _mailboxes s2 !! "leaf" = Some 4.
Proof.
  intros s2.
  pose proof (build_failure_leaks 2 0 1 None 10 200 half_built
    (Child "tree" (SupervisorChild [BSpawn "Leaf" leaf_meta; BRaise boom] "one_for_one" 0 5000) None None None (Some 2))
    "Leaf" leaf_meta boom [] "one_for_one" OneForOne 0 5000 (Supervisor OneForOne 3 5000 [] [1] None false)
    (Supervisor OneForOne 3 5000 [10%Z] [1] None false) (Supervisor OneForOne 3 5000 [10%Z; 200%Z] [1] None false)) as H.
  destruct H as [_ (Ht & Hm & _)].
  - reflexivity.
  - by apply is_running_true.
  - run.
  - apply Nat.ltb_lt. run.
  - apply Nat.ltb_lt. run.
  - apply Nat.ltb_lt. run.
  - reflexivity.
  - run.
  - run.
  - reflexivity.
  - run.
  - run.
  - run.
  - split; [exact Ht|]. fold s2 in Hm. change (actor_name leaf_meta) with "leaf" in Hm. rewrite Hm. run.
Defined.

(** ** Its gaps *)

Lemma backoff_cancel_silent_witness :
  jobs (exec (cancel 3 ;; step_child 3 None 150) (asleep OneForOne 3)) = [] ∧
  k_linked asleep_crash ≠ None.
Proof.
  split; [|discriminate]. unfold exec.
  rewrite (backoff_cancel_silent (asleep OneForOne 3) 3 0 2 asleep_crash 100 None 150 worker_child); run.
Defined.

(** Another supervisor (9) spawns a [worker] of its own meanwhile. *)
Definition taken : st :=
  exec (new_supervisor OneForOne 3 5000 ;; spawn 9 "Other" worker_meta) (asleep OneForOne 3).

Lemma restart_evicts_namesake_witness :
  let r := (fire_timer 3 ;; step_child 3 None 200) taken in
  _mailboxes taken !! "worker" = Some 10 ∧ _mailboxes r.2 !! "worker" = None ∧
  tasks r.2 !! 12 = tasks taken !! 12.
Proof.
  intros r. split; [run|].
  pose proof (restart_evicts_namesake taken 3 0 2 asleep_crash 100 200 worker_child "Worker" worker_meta 1 10
    (demo_sup OneForOne 3 [100%Z]) (demo_sup OneForOne 3 [100; 200]%Z)) as H.
  destruct H as (_ & Hm & _ & Ht & _).
  - by apply is_running_true.
  - run.
  - run.
  - run.
  - run.
  - run.
  - run.
  - run.
  - discriminate.
  - fold r in Hm, Ht. split; [rewrite Hm; run|]. apply Ht. discriminate.
Defined.

Lemma shutdown_undone_by_exit_witness :
  let r := (cancel_child 2 ;; _deliver_exit "peer" "worker" "gone" ;;
            step_driver 7 HDone ;; step_child 3 None 100) (up OneForOne 3) in
  t_out <$> tasks r.2 !! 3 = Some None.
Proof.
  intros r.
  pose proof (shutdown_undone_by_exit (up OneForOne 3) 0 2 3 7 worker_child None (demo_sup OneForOne 3 [])
    (demo_sup OneForOne 3 [100%Z]) "peer" "gone" HDone None 100) as H.
  destruct H as (_ & k & _ & Ht).
  - split; [by apply is_running_true|run|run|run|run].
  - by left.
  - run.
  - run.
  - run.
  - run.
  - run.
  - unfold r. rewrite Ht. reflexivity.
Defined.

(** ** Every reachable state *)

Definition spawned : st :=
  exec (run_api (ASpawn 0 "Worker" worker_meta))
    (exec (run_api (ASupervisor "one_for_one" 3 5000)) (exec (start (Bound "A@h:1") open_transport) (Node_init "A@h:1" (Some 2)))).

Lemma spawned_reachable : reachable spawned.
Proof.
  unfold spawned. change (reachable (exec (run_step (SApi (ASpawn 0 "Worker" worker_meta)))
    (exec (run_step (SApi (ASupervisor "one_for_one" 3 5000))) (exec (start (Bound "A@h:1") open_transport) (Node_init "A@h:1" (Some 2)))))).
  apply reach_step; [apply reach_step; [apply reach_init|done]|]. eexists. run.
Qed.

Lemma reachable_wf_witness : wf spawned ∧ _mailboxes spawned !! "worker" = Some 1.
Proof. split; [|run]. apply (reachable_wf spawned), spawned_reachable. Defined.


(** ** Mailboxes and names *)

Definition qmsg (n : Z) : envelope := (PInt n, MessageMeta (Some "A@h:1") None None None).

Lemma send_local_behaviour_witness :
  ∃ s', _send_local "worker" (PInt 5) None None (up OneForOne 3) = (inr tt, s') ∧
    queues s' !! 1 = Some (Queue [qmsg 5] 2).
Proof.
  pose proof (send_local_behaviour "worker" (PInt 5) None None (up OneForOne 3)) as H.
  assert (∀ q, _mailboxes (up OneForOne 3) !! "worker" = Some q → is_Some (queues (up OneForOne 3) !! q)) as Hq.
  { intros q Hm. assert (q = 1) as -> by (vm_compute in Hm; congruence). eexists. run. }
  specialize (H Hq). replace (_mailboxes (up OneForOne 3) !! "worker") with (Some 1) in H by run.
  destruct H as (s' & Hs & H). exists s'. split; [exact Hs|].
  replace (queues (up OneForOne 3) !! 1) with (Some (Queue [] 2 : queue envelope)) in H by run.
  destruct H as [-> _]. run.
Defined.

Lemma register_actor_unique_witness :
  ∃ e, register_actor "worker" 4 (up OneForOne 3) = (inl e, up OneForOne 3) ∧ exn_type e = "ValueError".
Proof.
  pose proof (register_actor_unique "worker" 4 (up OneForOne 3)
    (default core_A (_core (up OneForOne 3))) ltac:(run) ltac:(run)) as H.
  replace (_mailboxes (up OneForOne 3) !! "worker") with (Some 1) in H by run.
  rewrite bool_decide_eq_false_2 in H; [discriminate|]. eexists. split; [exact H|reflexivity].
Defined.

(** ** Links and monitors *)

Definition idle_driver_task : task := Task (CodeDrive 2 None) WGet false None.

Lemma deliver_exit_behaviour_witness :
  let s' := exec (_deliver_exit "helper" "worker" "gone") (up OneForOne 3) in
  tasks s' !! 7 = Some (idle_driver_task <| t_wait := WReady WkCancel |>).
Proof.
  intros s'.
  pose proof (deliver_exit_behaviour "helper" "worker" "gone" (up OneForOne 3) 2 worker_child 7
    idle_driver_task 1 (Queue [] 2)) as H.
  replace (default false (_trap_exit (up OneForOne 3) !! "worker")) with false in H by run.
  apply H; first [run|left; run].
Defined.

Lemma link_unlink_local_witness :
  has_link (link (Some "helper") (ActorRef "worker") (up OneForOne 3)).2 "worker" (None, "helper").
Proof.
  pose proof (link_unlink_local "helper" "worker" (up OneForOne 3)) as H.
  destruct H as (_ & _ & Hl & _); [eexists; run|]. apply Hl. auto.
Defined.

Lemma link_remote_handshake_witness :
  let a := link (Some "me") (RemoteRef "B@h:2" "nobody") node_A in
  ∃ fr, option_map co_out (_core a.2) = Some [fr] ∧ fr_peer fr = "B@h:2" ∧
    has_link (link_actor_receive (fr_payload fr) node_B).2 "nobody" (Some "A@h:1", "me").
Proof.
  pose proof (link_remote_handshake "me" "nobody" node_A node_B core_A core_B "A@h:1" "B@h:2") as H.
  destruct H as (fr & _ & _ & Hout & Hp & _ & Hb).
  - run.
  - run.
  - apply (bool_decide_unpack _). vm_compute. exact I.
  - run.
  - run.
  - run.
  - apply (bool_decide_unpack _). vm_compute. exact I.
  - run.
  - reflexivity.
  - reflexivity.
  - exists fr. split; [exact Hout|]. split; [exact Hp|]. apply Hb.
Defined.

Lemma monitor_demonitor_local_witness :
  _monitors (monitor (Some "helper") "ref1" (ActorRef "worker") (up OneForOne 3)).2 !! "ref1" =
    Some ("helper", (None, "worker")).
Proof.
  pose proof (monitor_demonitor_local "helper" "ref1" "worker" (up OneForOne 3)) as H.
  destruct H as (_ & _ & Hm & _).
  - eexists; run.
  - run.
  - intros n w (ws & Hl & _). assert (_monitor_watchers (up OneForOne 3) = ∅) as E by run.
    by rewrite E lookup_empty in Hl.
  - exact Hm.
Defined.

Lemma monitor_remote_handshake_witness :
  let a := monitor (Some "me") "ref1" (RemoteRef "B@h:2" "nobody") node_A in
  ∃ fr, option_map co_out (_core a.2) = Some [fr] ∧ fr_peer fr = "B@h:2" ∧
    watches (monitor_actor_receive (fr_payload fr) node_B).2 "nobody" "ref1" (Some "A@h:1", "me").
Proof.
  pose proof (monitor_remote_handshake "me" "ref1" "nobody" "gone" node_A node_B core_A core_B "A@h:1" "B@h:2") as H.
  destruct H as (fr & _ & _ & Hout & Hp & _ & Hb & _).
  - run.
  - run.
  - apply (bool_decide_unpack _). vm_compute. exact I.
  - run.
  - run.
  - run.
  - apply (bool_decide_unpack _). vm_compute. exact I.
  - run.
  - reflexivity.
  - reflexivity.
  - exists fr. split; [exact Hout|]. split; [exact Hp|]. apply Hb.
Defined.

(** ** Groups and names *)

(** Node A with the group feature on, connected to B. *)
Definition grouped_A : st :=
  exec (new_supervisor OneForOne 3 5000 ;; register_groups 0 ;; _on_core_event (EvPeerConnected "B@h:2")) node_A.

Lemma grouped_A_replicating : replicating "A@h:1" "B@h:2" grouped_A.
Proof.
  split; [run| |run]. exists {["B@h:2"]}. split; [run|]. apply (bool_decide_unpack _). vm_compute. exact I.
Qed.

Lemma no_groups s g m : _groups s = ∅ → ¬ is_member s g m.
Proof. intros E (ms & Hl & _). by rewrite E lookup_empty in Hl. Qed.

Definition demo_ops : list group_op := [GJoin "g" "x"; GJoin "g" "y"; GLeave "g" "x"].

Lemma group_replication_witness :
  let sA' := foldl (λ s o, run_group_op o s) grouped_A demo_ops in
  ∃ new, jobs sA' = jobs grouped_A ++ new ∧
    agrees "A@h:1" sA' (receive_all (omap (delta_for "B@h:2") new) node_B).
Proof.
  pose proof (group_replication "A@h:1" "B@h:2" demo_ops grouped_A node_B) as H.
  destruct H as (new & Hj & Ha & _).
  - apply grouped_A_replicating.
  - intros g n. split; intros Hm; exfalso; revert Hm; apply no_groups; run.
  - exists new. split; [exact Hj|exact Ha].
Defined.

(** Node C still lists A's [z]. *)
Definition node_C : st := add_member "g" ("A@h:1", "z") (demo_node "C@h:3").

Lemma group_stale_snapshot_ghost_witness :
  let sB1 := exec (groups_actor_receive (group_snapshot_message node_C)) node_B in
  let sA' := foldl (λ s o, run_group_op o s) grouped_A [GClear "z"] in
  ∃ new, jobs sA' = jobs grouped_A ++ new ∧ ¬ is_member sA' "g" ("A@h:1", "z") ∧
         is_member (receive_all (omap (delta_for "B@h:2") new) sB1) "g" ("A@h:1", "z").
Proof.
  apply (group_stale_snapshot_ghost "A@h:1" "B@h:2" "g" "z" [GClear "z"] grouped_A node_B node_C).
  - apply grouped_A_replicating.
  - apply no_groups. run.
  - apply is_member_add. by left.
  - repeat constructor. by intros [].
Defined.

(** ** A cluster of two *)

(** A node with the groups on, connected to [peer], its first snapshot sent. *)
Definition clustered (id peer : string) : st :=
  exec (start (Bound id) open_transport ;;
        modify (connect peer) ;; new_supervisor OneForOne 3 5000 ;; register_groups 0 ;;
        _on_core_event (EvPeerConnected peer) ;; run_job ;;
        modify (λ s, s <| _core ::= fmap (λ co, co <| co_out := [] |>) |>)) (Node_init id None).

Definition pair_ids : gset string := {["A@h:1"; "B@h:2"]}.
Definition pair_cluster : cluster := Cluster {["A@h:1" := clustered "A@h:1" "B@h:2"; "B@h:2" := clustered "B@h:2" "A@h:1"]} ∅.

Lemma clustered_ok id peer :
  (id, peer) = ("A@h:1", "B@h:2") ∨ (id, peer) = ("B@h:2", "A@h:1") → node_ok pair_ids id (clustered id peer).
Proof.
  intros H. assert (is_Some (_core (clustered id peer))) as [co Hco].
  { by destruct H as [[= -> ->]|[= -> ->]]; eexists. }
  assert (co_running co = true ∧ co_peers co = {[peer]} ∧ co_out co = [] ∧ co_refuses co = open_transport) as (H1 & H2 & H3 & H4).
  { destruct H as [[= -> ->]|[= -> ->]]; injection Hco as <-; split_and!; run. }
  assert (inbox_queue (clustered id peer) = Some (Queue [] 0) ∧ jobs (clustered id peer) = []) as [H5 H6].
  { destruct H as [[= -> ->]|[= -> ->]]; split; run. }
  split.
  - destruct H as [[= -> ->]|[= -> ->]]; run.
  - destruct H as [[= -> ->]|[= -> ->]]; run.
  - destruct H as [[= -> ->]|[= -> ->]]; run.
  - exists co. split_and!; [done..| |by rewrite H4]. intros B HB Hne. unfold is_peer. rewrite H2.
    assert (B = peer) as ->; [|split; [|set_solver]].
    + unfold pair_ids in HB. destruct H as [[= -> ->]|[= -> ->]]; set_solver.
    + destruct H as [[= -> ->]|[= -> ->]]; run.
  - by eexists.
  - by rewrite /inbox H5.
  - rewrite H6. by intros j ?%elem_of_nil.
  - intros B. by rewrite /out_frames Hco H3.
  - intros B. by rewrite /out_frames Hco H3.
Qed.

Lemma pair_nodes A s :
  nodes pair_cluster !! A = Some s → (A = "A@h:1" ∧ s = clustered "A@h:1" "B@h:2") ∨ (A = "B@h:2" ∧ s = clustered "B@h:2" "A@h:1").
Proof.
  unfold pair_cluster. cbn [nodes].
  intros [[<- <-]|[_ [<- <-]%lookup_singleton_Some]]%lookup_insert_Some; auto.
Qed.

Lemma pair_cluster_ok : cluster_ok pair_ids pair_cluster.
Proof.
  split.
  - intros A. split.
    + intros [s [[-> _]|[-> _]]%pair_nodes]; unfold pair_ids; set_solver.
    + unfold pair_ids. intros [->%elem_of_singleton| ->%elem_of_singleton]%elem_of_union; by eexists.
  - intros A s [[-> ->]|[-> ->]]%pair_nodes; apply clustered_ok; auto.
  - intros A B f. unfold wire, pair_cluster; simpl. rewrite lookup_empty. by intros ?%elem_of_nil.
  - intros A B sA sB _ HA HB g n.
    assert (_groups sA = ∅) as EA by (by destruct (pair_nodes A sA HA) as [[-> ->]|[-> ->]]).
    assert (inbox sB ++ sending pair_cluster A B sA = [] ∧ _groups sB = ∅) as [-> EB].
    { destruct (pair_nodes A sA HA) as [[-> ->]|[-> ->]], (pair_nodes B sB HB) as [[-> ->]|[-> ->]]; split; run. }
    simpl. split; intros Hm; exfalso; revert Hm; by apply no_groups.
Qed.

Lemma cluster_agreement_witness :
  let cl := pair_cluster <| nodes ::= <["A@h:1" := run_group_op (GJoin "g" "x") (clustered "A@h:1" "B@h:2")]> |> in
  agrees "A@h:1" (run_group_op (GJoin "g" "x") (clustered "A@h:1" "B@h:2"))
    (receive_all (inbox (clustered "B@h:2" "A@h:1") ++ sending cl "A@h:1" "B@h:2" (run_group_op (GJoin "g" "x") (clustered "A@h:1" "B@h:2")))
       (clustered "B@h:2" "A@h:1")).
Proof.
  intros cl. destruct (cluster_agreement pair_ids pair_cluster cl) as [H _].
  - apply pair_cluster_ok.
  - apply rtc_once. right. apply (ext_op _ "A@h:1"). reflexivity.
  - apply H; [discriminate|reflexivity|reflexivity].
Defined.

(** [x] joined on A; then the task, the frame, the delivery and the turn of
    the handler on B. *)
Definition joined_A : st := run_group_op (GJoin "g" "x") (clustered "A@h:1" "B@h:2").
Definition joined_cluster : cluster := pair_cluster <| nodes ::= <["A@h:1" := joined_A]> |>.
Definition queued_A : st := exec run_job joined_A.
Definition queued_core : core_t := default core_A (_core queued_A).
Definition join_frame : frame :=
  Frame "B@h:2" GROUPS_ACTOR (default PNone (head (fr_payload <$> co_out queued_core))) None None 1.
Definition queued_cluster : cluster := joined_cluster <| nodes ::= <["A@h:1" := queued_A]> |>.
Definition sent_cluster : cluster := transmit "A@h:1" queued_A queued_core join_frame [] queued_cluster.
Definition got_B : st := exec (inbound "A@h:1" join_frame) (clustered "B@h:2" "A@h:1").
Definition got_cluster : cluster :=
  sent_cluster <| wires ::= <[("A@h:1", "B@h:2") := []]> |> <| nodes ::= <["B@h:2" := got_B]> |>.
Definition told_B : st := exec groups_turn got_B.
Definition told_cluster : cluster := got_cluster <| nodes ::= <["B@h:2" := told_B]> |>.

(** Nothing is under way, decided. *)
Definition calm (cl : cluster) : bool :=
  bool_decide (map_Forall (λ _ s, length (inbox s) = 0 ∧ length (jobs s) = 0 ∧
                                  length (default [] (co_out <$> _core s)) = 0) (nodes cl)) &&
  bool_decide (map_Forall (λ _ l, length l = 0) (wires cl)).

Lemma calm_stuck cl : calm cl = true → ∀ cl', ¬ internal cl cl'.
Proof.
  intros [Hn%bool_decide_eq_true Hw%bool_decide_eq_true]%andb_prop cl' Hi.
  destruct Hi as [A s j js HA Hj _|A s co f rest HA Hco Hout|A B s f rest HW _|B s HB Hne].
  - destruct (Hn A s HA) as (_ & H & _). by rewrite Hj in H.
  - destruct (Hn A s HA) as (_ & _ & H). by rewrite Hco /= Hout in H.
  - by specialize (Hw _ _ HW).
  - destruct (Hn B s HB) as (H & _). by destruct (inbox s).
Qed.

Lemma join_spreads : nsteps internal 4 joined_cluster told_cluster.
Proof.
  apply (nsteps_l _ 3 _ queued_cluster); [|apply (nsteps_l _ 2 _ sent_cluster); [|apply (nsteps_l _ 1 _ got_cluster);
    [|apply nsteps_once]]].
  - unfold queued_cluster, queued_A.
    apply (int_job joined_cluster "A@h:1" joined_A (JGroupDelta "B@h:2" "g" ("A@h:1", "x") VAdd) []).
    + reflexivity.
    + run.
    + reflexivity.
  - apply (int_transmit queued_cluster "A@h:1" queued_A queued_core join_frame []).
    + reflexivity.
    + run.
    + run.
  - unfold got_cluster, got_B. apply (int_deliver sent_cluster "A@h:1" "B@h:2" (clustered "B@h:2" "A@h:1") join_frame []).
    + reflexivity.
    + reflexivity.
  - unfold told_cluster, told_B. apply (int_handle got_cluster "B@h:2" got_B); [reflexivity|vm_compute; discriminate].
Qed.

Lemma cluster_converges_witness : 4 ≤ weight joined_cluster ∧ is_member told_B "g" ("A@h:1", "x").
Proof.
  destruct (cluster_converges pair_ids joined_cluster 4 told_cluster) as [Hn Hc].
  - eapply cluster_step_ok; [right; by apply (ext_op _ "A@h:1")|apply pair_cluster_ok].
  - intros A s j. unfold joined_cluster; simpl. rewrite insert_insert_eq.
    intros [[<- <-]|[_ [<- <-]%lookup_singleton_Some]]%lookup_insert_Some Hj.
    + replace (jobs joined_A) with [JGroupDelta "B@h:2" "g" ("A@h:1", "x") VAdd] in Hj by run.
      by apply list_elem_of_singleton in Hj as ->.
    + replace (jobs (clustered "B@h:2" "A@h:1")) with ([] : list job) in Hj by run. by apply elem_of_nil in Hj.
  - apply join_spreads.
  - split; [exact Hn|]. apply (Hc (calm_stuck told_cluster ltac:(run)) "A@h:1" "B@h:2" joined_A told_B); [reflexivity|reflexivity|].
    exists {[("A@h:1", "x")]}. split; [run|]. apply (bool_decide_unpack _). vm_compute. exact I.
Defined.

Definition named_A : st := exec (register_name "db" (Some "worker") None) node_A.

Lemma registry_no_takeover_witness :
  _registry (exec (registry_actor_receive (registry_delta_message "db" ("B@h:2", "other") VAdd)) named_A) !! "db" =
    Some ("A@h:1", "worker").
Proof.
  pose proof (registry_no_takeover "db" ("A@h:1", "worker") named_A ltac:(run)) as [H _].
  destruct (H (registry_delta_message "db" ("B@h:2", "other") VAdd)) as [E|(_ & _ & _ & Hv & _)]; [exact E|].
  destruct Hv. reflexivity.
Defined.

(** ** Ask and reply *)

Lemma ask_reply_local_witness :
  let r := ask_begin (ActorRef "worker") 1 1 (PStr "ping") (up OneForOne 3) in
  ∃ q s3, r.1 = inr q ∧
    (reply (asked_by "A@h:1" 1) (PStr "pong") ;; reply (asked_by "A@h:1" 1) PNone ;; ask_end 1 q) r.2 = (inr (PStr "pong"), s3) ∧
    _mailboxes s3 !! ask_name 1 = None.
Proof.
  pose proof (ask_reply_local "worker" 1 (PStr "ping") (up OneForOne 3) 1 (Queue [] 2)) as H.
  destruct H as (q & Hq & Hw & _ & Hs).
  - by apply is_running_true.
  - run.
  - run.
  - run.
  - run.
  - run.
  - replace (local_id (up OneForOne 3)) with "A@h:1" in * by run.
    destruct (Hs _ Hw) as [_ Hr]. destruct (Hr (PStr "pong") PNone) as (s3 & H3 & Hm & _).
    exists q, s3. split; [exact Hq|]. split; [exact H3|]. rewrite Hm. apply lookup_delete_eq.
Defined.

Definition streaming : st := exec (ask_begin (ActorRef "worker") 1 0 (PStr "go")) (up OneForOne 3).


Lemma connected_A : connected node_A "A@h:1" "B@h:2" core_A.
Proof. split; [run|run|run|apply (bool_decide_unpack _); vm_compute; exact I|reflexivity]. Qed.
(** B runs the same two actors. *)
Definition up_B : st := exec (boot OneForOne 3) node_B.
Definition core_up_B : core_t := default core_B (_core up_B).
Lemma connected_up_B : connected up_B "B@h:2" "A@h:1" core_up_B.
Proof. split; [run|run|run|apply (bool_decide_unpack _); vm_compute; exact I|reflexivity]. Qed.


(** ** Pools *)

Definition demo_key (v : pyval) : exn + Z :=
  match v with PInt z => inr z | _ => inl (TypeError "unhashable") end.
Definition demo_pool : pool := new_pool "pool" 3 None (Some demo_key) (HFunction true) false.

(** Two workers start, four messages for two of the three arrive, one worker is
    cancelled over its first message and comes back. *)
Definition pool_story : list pool_op :=
  [OStart 1; OStart 2; ODispatch (PInt 1) (qmsg 1).2; ODispatch (PInt 4) (qmsg 4).2;
   OBegin 1; OBegin 1; ODispatch (PInt 2) (qmsg 2).2; OBegin 2; OEnd 1 (PRaise boom); OBegin 1;
   OCancel 2; OReborn 2; OBegin 2; ODispatch (PInt 7) (qmsg 7).2].

Lemma pool_exactly_once_witness :
  ∃ p' evs s', pool_run pool_story demo_pool node_A = (inr (p', evs), s') ∧
    Pool.taken demo_pool 1 evs = [qmsg 1; qmsg 4] ∧ p_queues p' !! 1 = Some (Queue [qmsg 7] 0).
Proof.
  pose proof (pool_exactly_once pool_story demo_pool node_A) as H.
  destruct H as (p' & evs & s' & Hr & _ & _ & Hq & _).
  - split; [reflexivity|]. repeat constructor.
  - exists p', evs, s'. split; [exact Hr|]. destruct (Hq 1 (Queue [] 0) ltac:(run)) as (qu' & Hqu & E).
    replace (routed demo_pool 1 pool_story) with [qmsg 1; qmsg 4; qmsg 7] in E by run. split.
    + replace evs with (match (pool_run pool_story demo_pool node_A).1 with inr r => r.2 | inl _ => [] end)
        by (by rewrite Hr). run.
    + replace p' with (match (pool_run pool_story demo_pool node_A).1 with inr r => r.1 | inl _ => demo_pool end)
        by (by rewrite Hr). run.
Defined.

Definition shared_pool : pool :=
  (new_pool "pool" 2 None None (HFunction true) false)
    <| p_queues := [Queue [qmsg 1; qmsg 2; qmsg 3] 0] |> <| p_states := [WWaiting; WUnstarted] |>.

Lemma pool_worker_survives_witness :
  ∃ p' s', worker_run shared_pool 0 [PRaise boom; PReturn PNone] node_A = (inr ([qmsg 1; qmsg 2], p'), s') ∧
    reported s' = [(0, EvPoolWorkerError "pool" "RuntimeError: boom")].
Proof.
  pose proof (pool_worker_survives 0 0 [PRaise boom; PReturn PNone] shared_pool node_A
    [qmsg 1; qmsg 2; qmsg 3]) as H.
  eexists _, _. split; [apply H; [reflexivity|reflexivity|reflexivity|simpl; lia]|run].
Defined.

(** A pool of two workers that was not awaited yet. *)
Definition pool_plan (n : nat) : pool_spawn := PoolSpawn 0 (HFunction true) n "pool" None None None None.

Lemma spawn_pool_ready_witness :
  ∃ p r x' s', pool_build (pool_plan 2) (exec (new_supervisor OneForOne 3 5000) node_A) = (inr (p, r, x'), s') ∧
    pool_size r = 2 ∧ s_children <$> sups s' !! 0 = Some [2; 5; 8].
Proof.
  pose proof (spawn_pool_ready (pool_plan 2) (exec (new_supervisor OneForOne 3 5000) node_A) eq_refl) as H.
  cbn [check_executor ps_executor pool_plan] in H. cbv zeta in H.
  destruct H as (p & r & x' & s' & Hb & _ & Hr & _ & _ & _ & Hg & _).
  - by apply is_running_true.
  - run.
  - intros [|[|i]] Hi; [split; [discriminate|run]..|simpl in Hi; lia].
  - exists p, r, x', s'. split; [exact Hb|]. rewrite (gr_sups _ _ _ _ _ Hg) Hr. split; run.
Defined.

Lemma pool_churn_witness :
  let s := exec (new_supervisor OneForOne 3 5000) node_A in
  ∃ s', stop_repeated_create_destroy 3 (pool_plan 2) (give (PInt 1)) drivers_then_tasks 0 s = (inr tt, s') ∧
    sups s' = sups s ∧ _mailboxes s' = _mailboxes s.
Proof.
  destruct (pool_churn 3 (pool_plan 2) (give (PInt 1)) drivers_then_tasks 0 (fresh_supervisor OneForOne 3 5000) (exec (new_supervisor OneForOne 3 5000) node_A))
    as (s' & Hr & [_ Hs Hm _ _]).
  - reflexivity.
  - reflexivity.
  - apply give_leaves.
  - apply drivers_then_tasks_fair.
  - split; [by apply is_running_true|run|by split; constructor|run|].
    intros [|[|i]] Hi; [split; [discriminate|run]..|simpl in Hi; lia].
  - exists s'. split; [exact Hr|]. split; [exact Hs|exact Hm].
Defined.

(** An actor and a pool of one worker, all in their loops: the actor has
    mailbox 1, record 2, task 3 and driver 10, the dispatcher 4, 5, 6 and 11,
    the worker 7, 8, 9 and 12. *)
Definition pool_up (strat : strategy) : st :=
  exec (new_supervisor strat 3 5000 ;; spawn 0 "Worker" worker_meta ;; pool_build (pool_plan 1) ;;
        step_child 3 None 0 ;; step_child 6 None 0 ;; step_child 9 None 0 ;;
        step_driver 10 HDone ;; step_driver 11 HDone ;; step_driver 12 HAwait) node_A.

Definition the_pool : pool_ref := PoolRef "pool" 5 [8] (Some 0).
Definition start_meta : message_meta := MessageMeta (Some "A@h:1") None None None.
Definition pool_tasks : list member_task :=
  [MemberTask 5 6 11 (Child "pool" (ActorChild "_Dispatcher" (plain_actor "pool") 4) (Some 11) None None (Some 6)) None;
   MemberTask 8 9 12 (Child "__pool_worker_0__" (ActorChild "_Worker" (plain_actor "__pool_worker_0__") 7) (Some 12)
                        None None (Some 9)) (Some start_meta)].

Lemma pool_idle : idle_group 0 pool_tasks (pool_up OneForAll).
Proof.
  split.
  - intros a. unfold pool_tasks. rewrite !elem_of_cons elem_of_nil. intros [->|[->|[]]];
      (split; [by apply is_running_true|run|run|run|run]).
  - intros a. unfold pool_tasks. rewrite !elem_of_cons elem_of_nil. intros [->|[->|[]]]; run.
  - apply (bool_decide_unpack _). vm_compute. exact I.
Qed.

Lemma pool_stop_completes_witness :
  ∃ s1 s2, (stop_pool the_pool ;; for_each ((λ t, Turn t HCancelled None 100) <$> [12; 11; 9; 6]) run_turn)
             (pool_up OneForAll) = (inr tt, s1) ∧
    stopped_pool the_pool s1 = (inr tt, s2) ∧ s_children <$> sups s2 !! 0 = Some [2] ∧ _mailboxes s2 !! "pool" = None.
Proof.
  pose proof (pool_stop_completes the_pool 0 pool_tasks (Supervisor OneForAll 3 5000 [] [2; 5; 8] None false)
    (pool_up OneForAll) ((λ t, Turn t HCancelled None 100) <$> [12; 11; 9; 6])) as H.
  destruct H as (s1 & s2 & H1 & _ & _ & H2 & E & Hg & _).
  - by apply is_running_true.
  - exact pool_idle.
  - run.
  - run.
  - apply (bool_decide_unpack _). vm_compute. exact I.
  - reflexivity.
  - apply (bool_decide_unpack _). vm_compute. exact I.
  - apply list.Forall_forall. intros u (t & -> & Ht)%list_elem_of_fmap. split; [|intros a _ _; by right].
    revert t Ht. apply list.Forall_forall, (bool_decide_unpack _). vm_compute. exact I.
  - intros a. unfold pool_tasks. rewrite !elem_of_cons elem_of_nil. intros [->|[->|[]]]; vm_compute; repeat constructor.
  - exists s1, s2. split; [exact H1|]. split; [exact H2|]. split.
    + rewrite E; cbn [sups]. by rewrite lookup_insert_eq.
    + destruct (Hg _ ltac:(by left)) as [_ Hm]. exact Hm.
Defined.

(** The actor crashes and sleeps before the restart of the whole group. *)
Definition pool_asleep : st :=
  exec (_send_local "worker" (PInt 1) None None ;; step_driver 10 (HRaise boom) ;; step_child 3 None 100)
       (pool_up OneForAll).

Lemma pool_crashed :
  crashed_group 3 0 2 (Crash boom None None)
    (Child "worker" (ActorChild "Worker" worker_meta 1) (Some 10) None None (Some 3)) 1 pool_tasks pool_asleep.
Proof.
  split.
  - by apply is_running_true.
  - run.
  - exists "Worker", worker_meta. run.
  - run.
  - exists 100%Z. run.
  - exists (Supervisor OneForAll 3 5000 [100%Z] [2; 5; 8] None false). split; run.
  - split.
    + intros a. unfold pool_tasks. rewrite !elem_of_cons elem_of_nil. intros [->|[->|[]]];
        (split; [by apply is_running_true|run|run|run|run]).
    + intros a. unfold pool_tasks. rewrite !elem_of_cons elem_of_nil. intros [->|[->|[]]]; run.
    + apply (bool_decide_unpack _). vm_compute. exact I.
  - intros a. unfold pool_tasks. rewrite !elem_of_cons elem_of_nil. intros [->|[->|[]]]; by eexists _, _, _.
  - apply (bool_decide_unpack _). vm_compute. exact I.
  - apply (bool_decide_unpack _). vm_compute. exact I.
  - apply (bool_decide_unpack _). vm_compute. exact I.
  - apply fresh_tids. run.
  - run.
Qed.

Lemma swept_worker_starves_witness :
  ∃ s' d, _mailboxes s' !! "__pool_worker_0__" = Some 7 ∧
    t_wait <$> tasks (exec (step_driver d HDone) s') !! d = Some WGet.
Proof.
  pose proof (swept_worker_starves 3 0 2 (Crash boom None None)
    (Child "worker" (ActorChild "Worker" worker_meta 1) (Some 10) None None (Some 3)) 1 pool_tasks
    HCancelled None 200 pool_asleep
    (MemberTask 8 9 12 (Child "__pool_worker_0__" (ActorChild "_Worker" (plain_actor "__pool_worker_0__") 7) (Some 12)
                          None None (Some 9)) (Some start_meta)) 7 1 2) as H.
  destruct H as (s' & _ & Hm & Hd).
  - exact pool_crashed.
  - intros a _. by right.
  - reflexivity.
  - exists "_Worker", (plain_actor "__pool_worker_0__"). reflexivity.
  - run.
  - exists s', (S (next_id pool_asleep + length pool_tasks) + 1). split; [exact Hm|]. destruct (Hd HDone) as [Ht _]. by rewrite Ht.
Defined.

(** The same pool on a node without a mailbox capacity. *)
Definition free_pool : st :=
  exec (start (Bound "A@h:1") open_transport ;; new_supervisor OneForOne 3 5000 ;; pool_build (pool_plan 1)) (Node_init "A@h:1" None).

Lemma pool_map_in_order_witness :
  ∃ s1, map_begin (PoolRef "pool" 2 [5] (Some 0)) 0 [PInt 1; PInt 2] free_pool = (inr [inr 7; inr 8], s1) ∧
    ∃ s3, (for_each [1; 0] (reply_nth "A@h:1" 0 [PInt 10; PInt 20]) ;; map_end 0 [inr 7; inr 8]) s1 =
          (inr [inr (PInt 10); inr (PInt 20)], s3).
Proof.
  pose proof (pool_map_in_order (PoolRef "pool" 2 [5] (Some 0)) [PInt 1; PInt 2] [PInt 10; PInt 20] 0 free_pool 1 []) as H.
  destruct H as (s1 & H1 & Hw & _ & H2).
  - by apply is_running_true.
  - run.
  - run.
  - intros q. apply fresh_qids. run.
  - reflexivity.
  - intros [|[|i]] Hi; [run..|simpl in Hi; lia].
  - exists s1. split; [exact H1|]. destruct (H2 s1 [1; 0] false Hw) as (s3 & H3 & _).
    + apply (bool_decide_unpack _). vm_compute. exact I.
    + exists s3. exact H3.
Defined.

(** ** Context variables *)

(** Task 7 drives [worker]; task 8 is another driver. *)
Definition demo_contexts : contexts := run_csteps [CEnter 7 "worker"; CEnter 8 "helper"] ∅.

Lemma handler_context_witness :
  let w := run_csteps [CEnd 7; CBegin 8 start_meta]
             (run_csteps [CCreate 7 20; CBegin 8 start_meta] (run_csteps [CBegin 7 (qmsg 1).2; CEnd 8] demo_contexts)) in
  current_message w 7 = None ∧ current_message w 20 = Some (qmsg 1).2 ∧ current_actor_ref w 20 = Some "worker".
Proof.
  intros w.
  pose proof (handler_context demo_contexts 7 (qmsg 1).2 None "worker" 20 [CEnd 8] [CBegin 8 start_meta]
    [CBegin 8 start_meta]) as H.
  destruct H as (_ & _ & _ & [Hm _] & [Hm' Ha]).
  - split; run.
  - discriminate.
  - by repeat constructor.
  - by repeat constructor.
  - by repeat constructor.
  - by repeat constructor.
  - by repeat constructor.
  - split; [exact Hm|]. split; [exact Hm'|exact Ha].
Defined.

Lemma constructor_sees_spawner_witness :
  let w1 := run_csteps [CCreate 7 20; CBegin 8 start_meta] demo_contexts in
  current_actor_ref w1 20 = Some "worker" ∧
  link (current_actor_ref w1 20) (ActorRef "helper") (up OneForOne 3) =
    link (Some "worker") (ActorRef "helper") (up OneForOne 3).
Proof.
  intros w1.
  pose proof (constructor_sees_spawner demo_contexts 7 20 21 None (Some "worker") "kid" (ActorRef "helper")
    (up OneForOne 3) [CBegin 8 start_meta] []) as H.
  destruct H as ([_ Ha] & _ & _ & Hl).
  - split; run.
  - discriminate.
  - discriminate.
  - by repeat constructor.
  - by repeat constructor.
  - split; [exact Ha|exact Hl].
Defined.

(** ** Connecting *)

Lemma no_waiters p ws : _peer_waiters node_A !! p = Some ws → ws ≠ [] ∧ next_id node_A ∉ ws.
Proof. assert (_peer_waiters node_A = ∅) as -> by run. by rewrite lookup_empty. Qed.

(** A peer that connects, and one that connects under another spelling. *)
Lemma connect_peer_lifecycle_witness :
  (let r := connect_peer_begin "C@h:3" false node_A in
   (connect_peer_end "C@h:3" 0 (exec (_on_core_event (EvPeerConnected "C@h:3")) r.2)).1 = inr tt) ∧
  (let r := connect_peer_begin "C@h:03" false node_A in
   (connect_peer_end "C@h:03" 0 (exec (_on_core_event (EvPeerConnected "C@h:3")) r.2)).1 =
     inl (Exn "ConnectionError" ("failed to connect to peer " +:+ py_repr "C@h:03"))).
Proof.
  pose proof (connect_peer_lifecycle "C@h:3" node_A core_A ltac:(run) ltac:(run) no_waiters) as H1.
  pose proof (connect_peer_lifecycle "C@h:03" node_A core_A ltac:(run) ltac:(run) no_waiters) as H2.
  assert (canonical "C@h:3" = inr "C@h:3" ∧ canonical "C@h:03" = inr "C@h:3") as [E1 E2] by (split; run).
  assert ("C@h:3" ∉ co_peers core_A) as E3 by (apply (bool_decide_unpack _); vm_compute; exact I).
  rewrite E1 (bool_decide_eq_false_2 (_ ∈ _) E3) in H1. rewrite E2 (bool_decide_eq_false_2 (_ ∈ _) E3) in H2. destruct H1 as (_ & [H1 _] & _), H2 as (_ & [H2 _] & _).
  split; [exact H1|exact H2].
Defined.

(** Node B is connected to A, which knows it under a leading zero. *)
Lemma peer_alias_witness :
  let a := link (Some "me") (RemoteRef "B@h:02" "helper") node_A in
  has_peer "B@h:02" node_A = (inr true, node_A) ∧
  has_link (core_event_effect (EvPeerDisconnected "B@h:2") a.2) "me" (Some "B@h:02", "helper").
Proof.
  intros a. pose proof (peer_alias "me" "helper" "B@h:02" "B@h:2" node_A core_A) as H.
  destruct H as (Hh & _ & _ & Hl & _).
  - run.
  - run.
  - run.
  - discriminate.
  - apply (bool_decide_unpack _). vm_compute. exact I.
  - reflexivity.
  - split; [exact Hh|exact Hl].
Defined.

Lemma node_id_roundtrip_witness :
  parse "B@h:02" = inr (NodeId "B" "h" 2) ∧ canonical (to_full (NodeId "B" "h" 2)) = inr "B@h:2" ∧
  parse (_build_id "box" "app" (Some 9001%N)) = inr (NodeId "app" "box" 9001).
Proof.
  pose proof (node_id_roundtrip "B@h:02" (NodeId "B" "h" 2) "box" "app" (Some 9001%N)) as [H1 H2].
  split; [run|]. split.
  - apply H1. run.
  - rewrite H2; [run|done|]. reflexivity.
Defined.

(** ** Names in a cluster of two *)

(** A node with the registry on and connected to [peer]. *)
Definition named (id peer : string) : st :=
  exec (start (Bound id) open_transport ;;
        modify (connect peer) ;; new_supervisor OneForOne 3 5000 ;; register_registry 0 ;;
        _on_core_event (EvPeerConnected peer) ;; run_job) (Node_init id None).

Definition names_pair : rcluster := RCluster {["A@h:1" := named "A@h:1" "B@h:2"; "B@h:2" := named "B@h:2" "A@h:1"]} ∅.

Lemma names_pair_start : names_start pair_ids names_pair.
Proof.
  assert (∀ A s, rc_nodes names_pair !! A = Some s →
    (A = "A@h:1" ∧ s = named "A@h:1" "B@h:2") ∨ (A = "B@h:2" ∧ s = named "B@h:2" "A@h:1")) as Hn.
  { intros A s. unfold names_pair. cbn [rc_nodes].
    intros [[<- <-]|[_ [<- <-]%lookup_singleton_Some]]%lookup_insert_Some; auto. }
  split.
  - intros A. split.
    + intros [s [[-> _]|[-> _]]%Hn]; unfold pair_ids; set_solver.
    + unfold pair_ids. intros [->%elem_of_singleton| ->%elem_of_singleton]%elem_of_union; by eexists.
  - assert (∀ id peer, (id, peer) = ("A@h:1", "B@h:2") ∨ (id, peer) = ("B@h:2", "A@h:1") → jobs (named id peer) = []) as Hj.
    { intros id peer [[= -> ->]|[= -> ->]]; run. }
    intros A s [[-> ->]|[-> ->]]%Hn; (split; [run|split; [run|split; [run|split; [run|rewrite Hj; [auto|done]]]]]).
  - intros A B. unfold chan_of. cbn. by rewrite lookup_empty.
Qed.

(** An actor on A takes a name, B hears of it, and the actor ends. *)
Definition named_A1 : st := run_name_op (NRegister "db" "x") (named "A@h:1" "B@h:2").
Definition named_cl1 : rcluster := names_pair <| rc_nodes ::= <["A@h:1" := named_A1]> |>.
Definition named_A2 : st := named_A1 <| jobs := [] |>.
Definition named_cl2 : rcluster :=
  RCluster (<["A@h:1" := named_A2]> (rc_nodes named_cl1)) (<[("A@h:1", "B@h:2") := [("db", ("A@h:1", "x"), VAdd)]]> ∅).
Definition named_B1 : st := hear "db" ("A@h:1", "x") VAdd (named "B@h:2" "A@h:1").
Definition named_cl3 : rcluster :=
  RCluster (<["B@h:2" := named_B1]> (rc_nodes named_cl2)) (<[("A@h:1", "B@h:2") := []]> (rc_chan named_cl2)).
Definition named_A3 : st := run_name_op (NEnd "x") named_A2.
Definition named_cl4 : rcluster := named_cl3 <| rc_nodes ::= <["A@h:1" := named_A3]> |>.

Lemma named_step1 : rstep names_pair named_cl1.
Proof. exact (rs_op names_pair "A@h:1" _ (NRegister "db" "x") eq_refl). Qed.

Lemma named_step2 : rstep named_cl1 named_cl2.
Proof.
  assert (jobs named_A1 = [] ++ JRegistryDelta "B@h:2" "db" ("A@h:1", "x") VAdd :: []) as Hj by run.
  apply (rs_send named_cl1 "A@h:1" named_A1 [] "B@h:2" "db" ("A@h:1", "x") VAdd [] eq_refl Hj). constructor.
Qed.

Lemma named_step3 : rstep named_cl2 named_cl3.
Proof. exact (rs_deliver named_cl2 "A@h:1" "B@h:2" (named "B@h:2" "A@h:1") "db" ("A@h:1", "x") VAdd [] eq_refl eq_refl). Qed.

Lemma named_step4 : rstep named_cl3 named_cl4.
Proof. exact (rs_op named_cl3 "A@h:1" named_A2 (NEnd "x") eq_refl). Qed.

Lemma named_run : rtc rstep names_pair named_cl4.
Proof.
  eapply rtc_l; [exact named_step1|]. eapply rtc_l; [exact named_step2|]. eapply rtc_l; [exact named_step3|].
  eapply rtc_l; [exact named_step4|apply rtc_refl].
Qed.

Lemma registry_no_ghosts_witness :
  _registry named_B1 !! "db" = Some ("A@h:1", "x") ∧
  (_registry named_A3 !! "db" = Some ("A@h:1", "x") ∨ ("db", ("A@h:1", "x"), VRemove) ∈ pending named_cl4 "A@h:1" "B@h:2" named_A3).
Proof.
  destruct (registry_no_ghosts pair_ids names_pair named_cl4 names_pair_start named_run) as [H _].
  assert (_registry named_B1 !! "db" = Some ("A@h:1", "x")) as Hb by run.
  split; [exact Hb|]. apply (H "A@h:1" "B@h:2" named_A3 named_B1); [discriminate|reflexivity|reflexivity|exact Hb].
Defined.

Lemma split_claim_stays_witness :
  let sA := named "A@h:1" "B@h:2" in
  let sB := named "B@h:2" "A@h:1" in
  whereis_name (hear "db" (local_id sB, "y") VAdd (run_name_op (NRegister "db" "x") sA)) "db" = Some (ActorRef "x") ∧
  whereis_name (hear "db" (local_id sA, "x") VAdd (run_name_op (NRegister "db" "y") sB)) "db" = Some (ActorRef "y").
Proof.
  intros sA sB. destruct (split_claim_stays "db" "x" "y" sA sB (demo_node "C@h:3")) as [(H1 & H2 & _) _].
  - vm_compute. discriminate.
  - run.
  - run.
  - run.
  - split; [exact H1|exact H2].
Defined.

(** ** The current node *)

(** Two nodes and a supervisor that was given none of them. *)
Definition two_nodes : proc :=
  Proc {[0 := Node_init "A@h:1" None; 1 := Node_init "B@h:2" None]} None {[0 := SupObj OneForOne 3 5000 None None]}.
Definition both_start : list pact := [PStart 0 (Bound "A@h:1") open_transport; PStart 1 (Bound "B@h:2") open_transport].
Definition later : list pact := [PNode 1 stop_end; PNode 0 stop_end; PStart 0 (Bound "A@h:1") open_transport].

Lemma supervisor_binding_witness :
  bound_to 0 (run_pacts later (exec (supervisor_spawn 0 "Echo" (plain_actor "echo")) (run_pacts both_start two_nodes))) = Some (Some 1).
Proof.
  pose proof (supervisor_binding both_start later 0 two_nodes eq_refl eq_refl ltac:(vm_compute; reflexivity) ltac:(vm_compute; reflexivity)) as H.
  assert (list.last (started_nodes both_start two_nodes) = Some 1) as E by (vm_compute; reflexivity).
  cbv zeta in H. rewrite E in H. exact (H "Echo" (plain_actor "echo")).
Defined.
